(* ===== verification/_CoqProject ===== *)
-Q . S2P
Prelude.v
Str.v
Addr.v
Config.v
Stubs.v
Real.v
IAddr.v
Codec.v
Framing.v
Errors.v
Messages.v
Client.v
ClientSpec.v
Callers.v
Waiters.v
Sockets.v
RecvPump.v
RecvSpec.v
DgramPump.v
ClientKeeps.v
State.v
PumpKeeps.v
ReadLoop.v
OutSpec.v
OutThreads.v
Interpose.v
InterposeSpec.v
DgramThreads.v
Process.v
DescSpec.v
ErrnoSpec.v
TypeSpec.v
ConnectSpec.v
ConnectThreads.v
CloseThreads.v
InboundSpec.v
LinkSpec.v
UnitTests.v
EndToEnd.v
Reconnect.v
