(* ===== verification/Prelude.v ===== *)
(** pdn-libax25: a verification development

    pdn-libax25 lets unmodified ham-radio programs use the pdn AX.25 engine in
    place of the kernel's AF_AX25 sockets.  It is three Rust crates under
    [src/crates]:

    - [libax25], a C library of helpers: callsign parsing and printing, the
      [axports] and call-map configuration files, Rose addresses;
    - [rhpv2], a client for the engine's protocol: JSON messages in
      length-prefixed frames over one TCP connection, replies matched to requests
      by id, everything else pushed to an event sink by a reader thread;
    - [ax25-interpose], a preloaded library that takes over the libc socket calls
      for AX.25 descriptors: each is one end of a socketpair, and pumps move the
      data between the other end and the engine.

    * Files

    - [Prelude] (this file): panics ([outcome]), [Result], fallible code over a
      state ([act] with [x <-? m ; k]), machine integers, list lemmas, tactics;
      [Str]: the parts of Rust's [str], [char] and [u8] the sources use.
    - [Addr]: [libax25/src/addr.rs].  [encode_entry] and [decode_entry] with the
      exported C functions over them; pointers are options, C strings lists of
      bytes.  [Config]: [libax25/src/config.rs].  The two parsers line by line,
      the lookups over the loaded table and the lazily loaded call map, the
      process-wide tables being arguments and results.  [Stubs]:
      [libax25/src/stubs.rs], all its exports.
    - [Real]: [ax25-interpose/src/real.rs], the cached symbol lookups, step by
      step; [dlsym] is a parameter.
    - [IAddr]: [ax25-interpose/src/addr.rs], the interposer's own codec and the
      sockaddr buffers, laid out as [repr(C)] does on a little-endian target.
    - [Codec], [Framing], [Errors], [Messages]: the files of that name in
      [rhpv2/src].  A reader is the bytes it will deliver and how it ends.
      [serde_json] is the class [SerdeJson] with the laws [SerdeJsonLaws] (and
      [SerdeJsonTypes] of [TypeSpec]); [Tagged] is an instance.
    - [Client]: [rhpv2/src/client.rs].  The registries, the request path, the
      reader thread's [handle_frame], [dispatch_push] and [disconnect], the
      methods.  The state behind the event sink is a parameter with the class
      [RhpEventSink], the trait of the source.  [ClientSpec] has its theorems,
      [Callers] the interleaving of calls on any number of threads.  [Waiters] has
      [wait_connected] and [wait_accept] for any number of threads, with their
      mutexes, condition variables and the [closed] flag: one definition over a
      record [monitor], of which the client's two registries are instances.
      [ClientKeeps]: a preorder on the client's state that the reader's frames
      respect ([SysRel]) is respected by every method; likewise for the state
      behind the sink ([SinkRel]).
    - [Sockets]: what the interposer relies on of the kernel's socketpairs, the
      class [Kernel] with [KernelLaws]; [Pairs] is an instance.
    - [RecvPump], [DgramPump], [State]: [ax25-interpose/src/state.rs].  The two
      inbound pumps; the descriptor table, the connect gates, the outbound pump,
      the cached client and the sink.  [RecvSpec] has the receive pump's theorems,
      [ReadLoop] what an application that reads to the end gets, [OutSpec] the
      outbound pump's theorems, [OutThreads] the outbound pump again with
      threads that take an entry's [serial] lock.  [PumpKeeps]: what the pumps and
      the sink keep of any preorder on the kernel's states ([KernelRel]).
    - [Interpose]: [ax25-interpose/src/lib.rs], one definition per interposed
      call; [InterposeSpec] has its theorems, [DgramThreads] the making of a
      datagram handle by several threads at once.  [ConnectThreads] has [connect]
      from the arming of its handle and the reader's part in it, [CloseThreads]
      [close] and [destroy_ax25_fd], both lock by lock and system call by system
      call.
    - [Process]: all of it as one system, whose steps are the interposed calls and
      the turns of the library's threads.  [DescSpec], [ErrnoSpec] and [TypeSpec]
      are about the states it reaches: the descriptors the pumps hold, errno, the
      types of the tables.  [ConnectSpec] follows a connect to its outcome,
      [InboundSpec] the engine's frames to the application's descriptor, [LinkSpec]
      what one application writes to another's descriptor.  [Reconnect] has the end
      of a transport step by step, the process running between, and the handles that
      outlive their transport.
    - [UnitTests], [EndToEnd]: the repository's tests, as definitions that run the
      ones above; the mock engines are functions from the requests they have read
      to what they have sent.

    * Time and threads

    A caller that blocks is driven by a script of events ([Client.event]): frames
    the reader reads, the end of the transport, and the moments the scheduler runs
    the caller because it was notified or because its timer fired.  Quantifying
    over scripts quantifies over the interleavings of one caller with the reader;
    [Callers.step] has every atomic step of any number of callers.  A method that
    holds a mutex throughout is one function of the state the mutex protects.  The
    receive pump's executions ([RecvPump.run]) interleave its methods, the
    flusher's rounds and the environment's use of the kernel.  [OutThreads],
    [DgramThreads], [CloseThreads], [Waiters] and [Real] interleave any number of
    threads lock by lock, [ConnectThreads] a connect and the reader; what each
    thread does by itself is proved to be the definition of [Interpose], [State] or
    [Client] ([connect_threads_sequential], [close_threads_sequential],
    [wait_threads_client]).  In [Waiters] a waiter wakes when it is notified, when
    its timer fires or for no reason, and an interleaving is any list of actions.  In [Process] a
    call is one step, with the reader's frames within it while it blocks.

    * Theorems

    - Codecs: what the encoders accept and produce exactly, round trips through
      text, C buffers, configuration files, frames, JSON and the Latin-1 data
      field, and what happens on bad input, panics included.
    - Client: replies reach the call that asked, on any number of threads;
      requests always return and leave nothing behind; waiting for a connect
      follows the link's state machine; however threads wait, nobody sleeps through
      news, a connection is accepted once and in the order of arrival, and the waits
      for a connect return when the transport ends; data handed to [send] reaches the engine whole, in frames that always fit.
    - Pumps: while its handle is there, no byte is lost, repeated or reordered from
      the reader to the application, what exceeds 256 KiB before the registration
      apart; the end of file comes last, and the flusher leaves nothing undone but
      what waits for the application to read, so that one that reads gets all of it
      and the end of file; what the application writes, by
      interposed calls or past them, reaches the engine in the order it was
      written, also when several threads write at once, and the lock that sees to
      it is always released; datagrams form a bounded queue and the descriptor is
      readable when one waits; from the engine's JSON to the descriptor the stream
      on a handle arrives as it was sent; and with an engine that hands on what it
      is sent, what one application writes is what the other's descriptor gets.
    - Calls: accepting and closing wire and unwire a descriptor everywhere, the
      datagram handle is made once, by one thread or many, options and datagrams
      come back as they were given, and a connect's gate blocks the descriptor
      exactly until its link is decided, SO_ERROR then telling how; so it does when
      the connect and the reader interleave, and on a socket not connected before
      the gate's filler never reaches the engine.
    - The process: the pumps hold descriptors of open sockets only, at every step
      of any number of closes too, and a close closes what is its own and nothing
      refers to; a call returns -1 with an error in errno or a number that is not
      negative, and the tables hold values of their types.
    - The repository's unit tests and its end-to-end test pass on the definitions;
      the bulk test of the receive pump by proof, for any size, the others by
      evaluation.
    - What the code does not do: a socket connected again keeps its first handle
      registered after it is closed, and receives nothing if the first connect was
      refused; once the transport is lost SO_ERROR is 0 and a gate armed late is
      never released; a datagram handle is seen before it is registered.  What is
      written past the calls while a gate is drained is lost; the gate of a second
      connect is drained by the outbound pump; a close lets a gate register its
      descriptor again, and a thread that took it from the outbound pump read it
      after.  An accept may sleep on through the end of the transport, which it was
      not told of under its mutex; a connection made again while the old reader ends
      is ended with it; a socket's number goes on being used on the next transport,
      where it was never opened or is another's, and closing the one unregisters
      the other; what comes for a handle not yet registered is lost past the cap.

    * Bounds and fuel

    Integers have the width of the source, with wrap-around written out; request
    ids are below 2^64 where a theorem counts them.  Fuel is an amount the loop
    provably cannot exceed: the length of the list it consumes ([chunks],
    [drain_buf]), the free space of the buffer it fills ([arm_connect_gate]), the
    unread bytes it drains ([resolve_connect_gate], [drain_locked]), the events
    left while a datagram is awaited; [reader_loop] and [read_frames] take fuel as
    an argument and their lemmas say how much is enough.

    * Not modelled

    What [dlsym] does and the C types of the functions; thread creation; the text
    of [Display]; what calls write through their pointers is in [Interpose], not in
    [Process].  The errno of the application's thread is what the calls store there
    and what the drain before a send leaves; what other system calls within a call
    that succeeds may leave is not followed.  Outside [Waiters] condition variables have no state: a script, or
    the other steps, say when a thread runs again.  Mutex poisoning cannot occur
    where nothing panics while a lock is held.  Durations are not measured: a
    script says when a timer fires.  Programs under [samples], the packaging and
    the build files.

    * What could be added

    [accept] lock by lock: its queue is [Waiters]'s, and what follows the wait
    registers a descriptor no other thread has been given.  In [LinkSpec] one thread
    sends; [outbound_serialized] has several, with requests that are atomic, and
    [replies_correlated] the requests of several.  The client's own part of a
    transport's end, before the sink's, is one step in [Reconnect], as in
    [Client]. *)
From stdpp Require Import prelude gmap.
From Stdlib Require Import ZArith Lia.

(** * Panics

    A Rust function of the modelled code either returns or panics (slicing
    a [str] inside a character is the case the sources can reach). *)
Inductive outcome (A : Type) : Type :=
| Ret (a : A)
| Panic.
Arguments Ret {A} a.
Arguments Panic {A}.

Definition obind {A B} (x : outcome A) (f : A → outcome B) : outcome B :=
  match x with
  | Ret a => f a
  | Panic => Panic
  end.

Declare Scope outcome_scope.
Delimit Scope outcome_scope with outcome.
Notation "x <-! e ; k" := (obind e (λ x, k))
  (at level 20, e at level 100, k at level 200) : outcome_scope.

Lemma obind_ret {A B} (x : outcome A) (f : A → outcome B) (b : B) :
  obind x f = Ret b ↔ ∃ a, x = Ret a ∧ f a = Ret b.
Proof.
  destruct x as [a|]; simpl.
  - split; [intros Hf; by exists a|]. by intros (a' & [= <-] & Hf).
  - split; [done|]. by intros (a & [=] & _).
Qed.

(** * Errors: Rust's [Result]. *)
Inductive result (A E : Type) : Type :=
| Ok (a : A)
| Err (e : E).
Arguments Ok {A E} a.
Arguments Err {A E} e.

Definition map_err {A E E'} (f : E → E') (r : result A E) : result A E' :=
  match r with Ok a => Ok a | Err e => Err (f e) end.

(** The error a [?] on an [Option] or a [Result] returns early with. *)
Definition ok_or {A E} (o : option A) (e : E) : result A E :=
  match o with Some a => Ok a | None => Err e end.

(** * Fallible code over a state

    [act S A E] is a method that reads and writes a state and returns a
    [Result]; [x <-? m ; k] is [?] followed by the rest of the method. *)
Definition act (S A E : Type) : Type := S → result A E * S.
Definition aret {S A E} (a : A) : act S A E := λ s, (Ok a, s).
Definition athrow {S A E} (e : E) : act S A E := λ s, (Err e, s).
Definition abind {S A B E} (m : act S A E) (f : A → act S B E) : act S B E := λ s,
  match m s with
  | (Ok a, s) => f a s
  | (Err e, s) => (Err e, s)
  end.
(** [map_err]. *)
Definition amap_err {S A E E'} (g : E → E') (m : act S A E) : act S A E' := λ s,
  (map_err g (fst (m s)), snd (m s)).

Declare Scope act_scope.
Delimit Scope act_scope with act.
Notation "x <-? m ; k" := (abind m (λ x, k))
  (at level 20, m at level 100, k at level 200) : act_scope.

(** * Machine integers: values of [Z] with the wrap-around written out. *)
Definition u8 (z : Z) : Z := z mod 2 ^ 8.
Definition u16 (z : Z) : Z := z mod 2 ^ 16.
Definition u32 (z : Z) : Z := z mod 2 ^ 32.
Definition u64 (z : Z) : Z := z mod 2 ^ 64.
Definition i8 (z : Z) : Z := (z + 2 ^ 7) mod 2 ^ 8 - 2 ^ 7.
Definition i32 (z : Z) : Z := (z + 2 ^ 31) mod 2 ^ 32 - 2 ^ 31.
Definition i64 (z : Z) : Z := (z + 2 ^ 63) mod 2 ^ 64 - 2 ^ 63.

(** A byte, and a buffer of bytes. *)
Definition is_byte (z : Z) : Prop := (0 ≤ z < 256)%Z.
#[export] Instance is_byte_dec z : Decision (is_byte z).
Proof. unfold is_byte. apply _. Defined.

Create HintDb ax25.

Lemma u8_id z : is_byte z → u8 z = z.
Proof. unfold u8, is_byte. intros. apply Z.mod_small. lia. Qed.

Lemma u8_byte z : is_byte (u8 z).
Proof. unfold u8, is_byte. apply Z.mod_pos_bound. lia. Qed.

Lemma i32_id z : (-2 ^ 31 ≤ z < 2 ^ 31)%Z → i32 z = z.
Proof. unfold i32. intros. rewrite Z.mod_small; lia. Qed.

Lemma i64_id z : (-2 ^ 63 ≤ z < 2 ^ 63)%Z → i64 z = z.
Proof. unfold i64. intros. rewrite Z.mod_small; lia. Qed.

Lemma u8_i8 z : is_byte z → u8 (i8 z) = z.
Proof.
  unfold u8, i8, is_byte. intros Hz.
  change (2 ^ 8)%Z with 256%Z. change (2 ^ 7)%Z with 128%Z.
  rewrite Zminus_mod_idemp_l. replace (z + 128 - 128)%Z with z by lia.
  apply Z.mod_small. lia.
Qed.

#[export] Hint Resolve u8_byte : ax25.

(** * Generic lemmas on lists *)
Section drop_while.
Context {A : Type} (P : A → bool).

Fixpoint drop_while (l : list A) : list A :=
  match l with
  | [] => []
  | x :: r => if P x then drop_while r else l
  end.

Fixpoint take_while (l : list A) : list A :=
  match l with
  | [] => []
  | x :: r => if P x then x :: take_while r else []
  end.

Lemma take_drop_while l : take_while l ++ drop_while l = l.
Proof. induction l as [|x l IH]; simpl; [done|]. destruct (P x); simpl; congruence. Qed.

Lemma take_while_Forall l : Forall (λ x, P x = true) (take_while l).
Proof. induction l as [|x l IH]; simpl; [done|]. destruct (P x) eqn:?; auto. Qed.

Lemma drop_while_head l x r : drop_while l = x :: r → P x = false.
Proof.
  induction l as [|y l IH]; simpl; [done|].
  destruct (P y) eqn:Hy; [done|]. intros [= -> ->]. done.
Qed.

Lemma drop_while_app_all l1 l2 :
  Forall (λ x, P x = true) l1 → drop_while (l1 ++ l2) = drop_while l2.
Proof. induction 1 as [|x l1 Hx _ IH]; simpl; [done|]. by rewrite Hx. Qed.

Lemma drop_while_none l x r : P x = false → l = x :: r → drop_while l = l.
Proof. intros Hx ->. simpl. by rewrite Hx. Qed.

Lemma take_while_app_all l1 l2 :
  Forall (λ x, P x = true) l1 → take_while (l1 ++ l2) = l1 ++ take_while l2.
Proof. induction 1 as [|x l1 Hx _ IH]; simpl; [done|]. by rewrite Hx, IH. Qed.

Lemma drop_while_length l : length (drop_while l) ≤ length l.
Proof. induction l as [|x l IH]; simpl; [lia|]. destruct (P x); simpl; lia. Qed.
End drop_while.

(** [Iterator::position]: the index of the first element satisfying [P]. *)
Fixpoint position {A} (P : A → bool) (l : list A) : option nat :=
  match l with
  | [] => None
  | x :: r => if P x then Some 0 else S <$> position P r
  end.

Lemma position_Some {A} (P : A → bool) l i :
  position P l = Some i ↔
  (∃ x, l !! i = Some x ∧ P x = true) ∧ ∀ j y, j < i → l !! j = Some y → P y = false.
Proof.
  revert i. induction l as [|x l IH]; intros i; simpl.
  { split; [done|]. intros [(y & Hy & _) _]. by rewrite lookup_nil in Hy. }
  destruct (P x) eqn:Hx.
  - split.
    + intros [= <-]. split; [by exists x|]. lia.
    + intros [_ Hlt]. destruct i as [|i]; [done|].
      specialize (Hlt 0 x ltac:(lia) eq_refl). congruence.
  - rewrite fmap_Some. split.
    + intros (k & Hk & ->). apply IH in Hk as [(y & Hy & Hpy) Hlt].
      split; [by exists y|]. intros [|j] z Hj; simpl; [intros [= <-]; done|].
      apply Hlt. lia.
    + intros [(y & Hy & Hpy) Hlt]. destruct i as [|i]; simpl in *; [congruence|].
      exists i. split; [|done]. apply IH. split; [by exists y|].
      intros j z Hj Hz. apply (Hlt (S j) z); [lia|done].
Qed.

Lemma position_None {A} (P : A → bool) l :
  position P l = None ↔ Forall (λ x, P x = false) l.
Proof.
  induction l as [|x l IH]; simpl; [split; [constructor|done]|].
  rewrite Forall_cons. destruct (P x); [by split; [|intros [[=] _]]|].
  rewrite fmap_None, IH. by split; [|intros [_ ?]].
Qed.

(** A decidable property of the first [n] naturals of [Z], by evaluation. *)
Lemma range_decide (P : Z → Prop) `{!∀ x, Decision (P x)} (n v : Z) :
  bool_decide (Forall P (seqZ 0 n)) = true → (0 ≤ v < n)%Z → P v.
Proof.
  rewrite bool_decide_eq_true, Forall_forall. intros Hall Hv. apply Hall.
  apply elem_of_seqZ. lia.
Qed.

(** * Maps that lose entries

    [m'] has entries of [m] only, which may have changed but not in what [f] sees. *)
Definition kept_by {A B} (f : A → B) (m m' : gmap Z A) : Prop :=
  ∀ h a', m' !! h = Some a' → ∃ a, m !! h = Some a ∧ f a' = f a.

Section kept_by.
Context {A B : Type} (f : A → B).
Implicit Types m : gmap Z A.

#[export] Instance kept_by_preorder : PreOrder (kept_by f).
Proof.
  split; [intros m h a' Ha; by exists a'|]. intros m1 m2 m3 H12 H23 h a3 H3.
  destruct (H23 _ _ H3) as (a2 & H2 & ?), (H12 h a2) as (a1 & H1 & ?); [done|].
  exists a1. split; [done|congruence].
Qed.

Lemma kept_by_delete m h : kept_by f m (delete h m).
Proof. intros x a' [_ Ha]%lookup_delete_Some. by exists a'. Qed.

Lemma kept_by_insert m h a a' : m !! h = Some a → f a' = f a → kept_by f m (<[h := a']> m).
Proof. intros Ha Hf x a1 [[<- <-]|[_ Hl]]%lookup_insert_Some; [by exists a|by exists a1]. Qed.

Lemma kept_by_alter m h g : (∀ a, f (g a) = f a) → kept_by f m (alter g h m).
Proof. intros Hg x a' [(-> & a & Ha & ->)|[_ Ha]]%lookup_alter_Some; eauto. Qed.

Lemma kept_by_fmap m g : (∀ a, f (g a) = f a) → kept_by f m (g <$> m).
Proof. intros Hg x a' (a & <- & Ha)%lookup_fmap_Some. eauto. Qed.
End kept_by.
#[export] Hint Resolve kept_by_delete kept_by_insert kept_by_alter kept_by_fmap : ax25.

(** Case analysis on every boolean test of the goal, translated by [lia]'s
    preprocessing. *)
Ltac case_bools :=
  repeat match goal with
  | |- context [if ?b then _ else _] =>
      match type of b with bool => destruct b eqn:? end
  end.

(** Close a decidable goal on concrete data by evaluation. *)
Ltac by_decide := apply (proj1 (bool_decide_eq_true _)); vm_compute; reflexivity.

Ltac inv_ret := repeat match goal with
  | H : obind _ _ = Ret _ |- _ => apply obind_ret in H; destruct H as (? & ? & ?)
  | H : Ret _ = Ret _ |- _ => injection H as H
  | H : Panic = Ret _ |- _ => discriminate H
  end.
