(* ===== verification/Str.v ===== *)
(** The parts of Rust's [str], [char] and [u8] library that the sources use.

    A [str] is the list of its Unicode scalar values; [as_bytes] is its UTF-8
    encoding and [from_utf8] the checked decoder behind [CStr::to_str].
    Everything here is standard library: the components of the development are
    written with these functions exactly where the sources call them. *)
From stdpp Require Import prelude gmap.
From Stdlib Require Import ZArith Lia Ascii String.
From S2P Require Import Prelude.
Local Open Scope Z_scope.

Abbreviation str := (list Z).

(** An ASCII literal of the sources, as its characters. *)
Fixpoint lit (s : string) : str :=
  match s with
  | EmptyString => []
  | String c r => Z.of_N (N_of_ascii c) :: lit r
  end.

(** * Characters *)
Definition is_scalar (c : Z) : Prop := 0 ≤ c < 0xD800 ∨ 0xE000 ≤ c < 0x110000.
#[export] Instance is_scalar_dec c : Decision (is_scalar c).
Proof. unfold is_scalar. apply _. Defined.

Definition is_ascii (c : Z) : Prop := 0 ≤ c < 128.
#[export] Instance is_ascii_dec c : Decision (is_ascii c).
Proof. unfold is_ascii. apply _. Defined.

Definition is_ascii_uppercase (c : Z) : bool := (65 <=? c) && (c <=? 90).
Definition is_ascii_lowercase (c : Z) : bool := (97 <=? c) && (c <=? 122).
Definition is_ascii_digit (c : Z) : bool := (48 <=? c) && (c <=? 57).
Definition is_ascii_alphanumeric (c : Z) : bool :=
  is_ascii_uppercase c || is_ascii_lowercase c || is_ascii_digit c.
Definition to_ascii_uppercase (c : Z) : Z := if is_ascii_lowercase c then c - 32 else c.
Definition to_ascii_lowercase (c : Z) : Z := if is_ascii_uppercase c then c + 32 else c.

(** [char::is_whitespace]: the Unicode White_Space property. *)
Definition is_whitespace (c : Z) : bool :=
  ((9 <=? c) && (c <=? 13)) || (c =? 32) || (c =? 0x85) || (c =? 0xA0) ||
  (c =? 0x1680) || ((0x2000 <=? c) && (c <=? 0x200A)) || (c =? 0x2028) ||
  (c =? 0x2029) || (c =? 0x202F) || (c =? 0x205F) || (c =? 0x3000).

(** * UTF-8 *)
Definition utf8_char (c : Z) : list Z :=
  if c <? 0x80 then [c]
  else if c <? 0x800 then [0xC0 + c / 64; 0x80 + c mod 64]
  else if c <? 0x10000 then
    [0xE0 + c / 4096; 0x80 + (c / 64) mod 64; 0x80 + c mod 64]
  else [0xF0 + c / 262144; 0x80 + (c / 4096) mod 64; 0x80 + (c / 64) mod 64;
        0x80 + c mod 64].

Definition as_bytes (s : str) : list Z := s ≫= utf8_char.

(** A continuation byte: the byte after which [str::is_char_boundary] is false. *)
Definition is_cont (b : Z) : bool := (0x80 <=? b) && (b <? 0xC0).

Fixpoint from_utf8 (b : list Z) : option str :=
  match b with
  | [] => Some []
  | b0 :: r0 =>
    if b0 <? 0x80 then cons b0 <$> from_utf8 r0
    else match r0 with
    | [] => None
    | b1 :: r1 =>
      if negb (is_cont b1) then None
      else if (0xC2 <=? b0) && (b0 <? 0xE0) then
        cons ((b0 - 0xC0) * 64 + (b1 - 0x80)) <$> from_utf8 r1
      else match r1 with
      | [] => None
      | b2 :: r2 =>
        if negb (is_cont b2) then None
        else if (0xE0 <=? b0) && (b0 <? 0xF0) then
          let c := (b0 - 0xE0) * 4096 + (b1 - 0x80) * 64 + (b2 - 0x80) in
          if (0x800 <=? c) && negb ((0xD800 <=? c) && (c <? 0xE000))
          then cons c <$> from_utf8 r2 else None
        else match r2 with
        | [] => None
        | b3 :: r3 =>
          if negb (is_cont b3) then None
          else if (0xF0 <=? b0) && (b0 <? 0xF5) then
            let c := (b0 - 0xF0) * 262144 + (b1 - 0x80) * 4096
                     + (b2 - 0x80) * 64 + (b3 - 0x80) in
            if (0x10000 <=? c) && (c <? 0x110000)
            then cons c <$> from_utf8 r3 else None
          else None
        end
      end
    end
  end.

(** [&s[i..]] on the bytes of a string: it panics unless [i] is a character
    boundary. *)
Definition slice_from (b : list Z) (i : nat) : outcome (list Z) :=
  match drop i b with
  | c :: _ => if is_cont c then Panic else Ret (drop i b)
  | [] => if decide (i ≤ List.length b)%nat then Ret [] else Panic
  end.

(** * Splitting and trimming *)
Definition trim_start (s : str) : str := drop_while is_whitespace s.
Definition trim_end (s : str) : str := reverse (drop_while is_whitespace (reverse s)).
Definition trim (s : str) : str := trim_end (trim_start s).
Definition trim_end_matches (c : Z) (s : str) : str :=
  reverse (drop_while (λ x, x =? c) (reverse s)).

(** [str::lines]: the pieces ended by a line feed, each without its line
    feed and a carriage return before it. *)
Fixpoint lines (s : str) : list str :=
  match s with
  | [] => []
  | c :: r =>
    if c =? 10 then [] :: lines r
    else if (c =? 13) && match r with 10 :: _ => true | _ => false end then lines r
    else match lines r with
         | [] => [[c]]
         | l :: ls =>
           (* [r] is empty or continues the current line *)
           (c :: l) :: ls
         end
  end.

(** [str::split_whitespace]: the maximal runs without white space. *)
Fixpoint split_whitespace_go (cur : str) (s : str) : list str :=
  match s with
  | [] => if decide (cur = []) then [] else [reverse cur]
  | c :: r =>
    if is_whitespace c
    then (if decide (cur = []) then [] else [reverse cur]) ++ split_whitespace_go [] r
    else split_whitespace_go (c :: cur) r
  end.
Definition split_whitespace (s : str) : list str := split_whitespace_go [] s.

(** [str::split_once] with a character pattern. *)
Fixpoint split_once (p : Z) (s : str) : option (str * str) :=
  match s with
  | [] => None
  | c :: r =>
    if c =? p then Some ([], r)
    else prod_map (cons c) id <$> split_once p r
  end.

(** [str::starts_with] and [str::find] with a string pattern. *)
Fixpoint starts_with (p s : str) : bool :=
  match p, s with
  | [], _ => true
  | _ :: _, [] => false
  | a :: p', b :: s' => (a =? b) && starts_with p' s'
  end.

Fixpoint find_str (p s : str) : option nat :=
  if starts_with p s then Some 0%nat
  else match s with
       | [] => None
       | _ :: r => S <$> find_str p r
       end.

(** [str::eq_ignore_ascii_case]. *)
Definition eq_ignore_ascii_case (a b : str) : bool :=
  bool_decide (map to_ascii_lowercase a = map to_ascii_lowercase b).

(** * Numbers *)

(** The value of a run of digits, most significant first. *)
Definition digits_value (acc : Z) (s : str) : Z :=
  fold_left (λ v c, v * 10 + (c - 48)) s acc.

(** [str::parse::<iN>]: an optional sign, then one or more digits, in range.
    An unsigned type accepts the plus sign only. *)
Definition parse_digits (s : str) : option Z :=
  match s with
  | [] => None
  | _ => if forallb is_ascii_digit s then Some (digits_value 0 s) else None
  end.

Definition parse_signed (lo hi : Z) (s : str) : option Z :=
  v ← match s with
      | 45 :: r => Z.opp <$> parse_digits r
      | 43 :: r => parse_digits r
      | _ => parse_digits s
      end;
  if (lo <=? v) && (v <=? hi) then Some v else None.

Definition parse_unsigned (hi : Z) (s : str) : option Z :=
  v ← match s with
      | 43 :: r => parse_digits r
      | _ => parse_digits s
      end;
  if v <=? hi then Some v else None.

Definition parse_i32 (s : str) : option Z := parse_signed (- 2 ^ 31) (2 ^ 31 - 1) s.
Definition parse_u8 (s : str) : option Z := parse_unsigned 255 s.

(** [u8::to_string]. *)
Definition u8_to_string (n : Z) : str :=
  if n <? 10 then [48 + n]
  else if n <? 100 then [48 + n / 10; 48 + n mod 10]
  else [48 + n / 100; 48 + (n / 10) mod 10; 48 + n mod 10].

(** The decimal text of a natural number below [10 ^ fuel]. *)
Fixpoint dec_go (fuel : nat) (z : Z) (acc : str) : str :=
  match fuel with
  | O => acc
  | S fuel =>
    if z <? 10 then 48 + z :: acc else dec_go fuel (z / 10) (48 + z mod 10 :: acc)
  end.
Definition dec (z : Z) : str := dec_go 20 z [].

(** The bytes of a C string: those before the first NUL ([CStr::from_ptr]). *)
Definition c_str (mem : list Z) : list Z := take_while (λ b, negb (b =? 0)) mem.

(** [CString::new(s).unwrap_or_default()]: empty when [s] holds a NUL. *)
Definition cstring_new (s : str) : option (list Z) :=
  if decide (0 ∈ s) then None else Some (as_bytes s).
Definition cstring_or_default (s : str) : list Z := default [] (cstring_new s).

(** * Lemmas *)
Ltac unfold_char :=
  unfold to_ascii_uppercase, to_ascii_lowercase, is_ascii_alphanumeric,
    is_ascii_uppercase, is_ascii_lowercase, is_ascii_digit, is_whitespace,
    is_cont, is_ascii in *.

Lemma as_bytes_app s t : as_bytes (s ++ t) = as_bytes s ++ as_bytes t.
Proof. apply bind_app. Qed.

Lemma as_bytes_cons c s : as_bytes (c :: s) = utf8_char c ++ as_bytes s.
Proof. done. Qed.

Lemma utf8_char_ascii c : is_ascii c → utf8_char c = [c].
Proof. unfold is_ascii, utf8_char. intros. destruct (Z.ltb_spec c 0x80); [done|lia]. Qed.

Lemma as_bytes_ascii s : Forall is_ascii s → as_bytes s = s.
Proof.
  induction 1 as [|c s Hc _ IH]; [done|].
  by rewrite as_bytes_cons, utf8_char_ascii, IH.
Qed.

Lemma utf8_char_head c : is_scalar c →
  ∃ b r, utf8_char c = b :: r ∧ is_cont b = false ∧ Forall (λ x, is_cont x = true) r
         ∧ (0x80 <= c → 0xC0 <= b).
Proof.
  unfold is_scalar, utf8_char. intros Hc.
  pose proof (Z.div_pos c 64). pose proof (Z.div_pos c 4096).
  pose proof (Z.div_pos c 262144).
  repeat match goal with |- context [?a <? ?b] => destruct (Z.ltb_spec a b) end;
    eexists _, _; (split; [reflexivity|]); unfold is_cont;
    (split; [|split; [repeat constructor|]]);
    repeat match goal with
    | |- context [?a mod 64] => pose proof (Z.mod_pos_bound a 64 ltac:(lia));
                                generalize dependent (a mod 64); intros
    end; lia.
Qed.

Lemma from_utf8_char c s :
  is_scalar c → from_utf8 (utf8_char c ++ s) = cons c <$> from_utf8 s.
Proof.
  unfold is_scalar, utf8_char. intros Hc.
  destruct (Z.ltb_spec c 0x80); [simpl; destruct (Z.ltb_spec c 0x80); [done|lia]|].
  pose proof (Z.mod_pos_bound c 64 ltac:(lia)).
  pose proof (Z.div_mod c 64 ltac:(lia)).
  destruct (Z.ltb_spec c 0x800).
  { simpl. unfold is_cont. case_bools; try lia. do 2 f_equal. lia. }
  pose proof (Z.mod_pos_bound (c / 64) 64 ltac:(lia)).
  pose proof (Z.div_mod (c / 64) 64 ltac:(lia)).
  replace (c / 4096) with (c / 64 / 64) by (rewrite Z.div_div; [done|lia..]).
  destruct (Z.ltb_spec c 0x10000).
  { simpl. unfold is_cont. case_bools; try lia. do 2 f_equal. lia. }
  pose proof (Z.mod_pos_bound (c / 64 / 64) 64 ltac:(lia)).
  pose proof (Z.div_mod (c / 64 / 64) 64 ltac:(lia)).
  replace (c / 262144) with (c / 64 / 64 / 64)
    by (rewrite !Z.div_div; [done|lia..]).
  simpl. unfold is_cont. case_bools; try lia. do 2 f_equal. lia.
Qed.

Lemma from_utf8_as_bytes s : Forall is_scalar s → from_utf8 (as_bytes s) = Some s.
Proof.
  induction 1 as [|c s Hc _ IH]; [done|].
  change (as_bytes (c :: s)) with (utf8_char c ++ as_bytes s).
  by rewrite from_utf8_char, IH.
Qed.

Lemma to_ascii_uppercase_ascii c : is_ascii c → is_ascii (to_ascii_uppercase c).
Proof. unfold_char. case_bools; lia. Qed.

Lemma alnum_upper c :
  is_ascii_alphanumeric (to_ascii_uppercase c) = true →
  is_ascii_uppercase (to_ascii_uppercase c) = true ∨
  is_ascii_digit (to_ascii_uppercase c) = true.
Proof. unfold_char. case_bools; lia. Qed.

Lemma alnum_ascii c : is_ascii_alphanumeric c = true → is_ascii c.
Proof. unfold_char. lia. Qed.

Lemma to_ascii_uppercase_idemp c :
  to_ascii_uppercase (to_ascii_uppercase c) = to_ascii_uppercase c.
Proof. unfold_char. case_bools; lia. Qed.

Lemma digits_value_app acc s t :
  digits_value acc (s ++ t) = digits_value (digits_value acc s) t.
Proof. apply fold_left_app. Qed.

Lemma u8_to_string_digits n :
  0 ≤ n < 256 → Forall (λ c, is_ascii_digit c = true) (u8_to_string n).
Proof.
  intros Hn. unfold u8_to_string.
  pose proof (Z.mod_pos_bound n 10 ltac:(lia)).
  pose proof (Z.div_mod n 10 ltac:(lia)).
  pose proof (Z.mod_pos_bound (n / 10) 10 ltac:(lia)).
  pose proof (Z.div_mod (n / 10) 10 ltac:(lia)).
  replace (n / 100) with (n / 10 / 10) by (rewrite Z.div_div; [done|lia..]).
  case_bools; rewrite ?Forall_cons, ?Forall_nil; unfold_char; lia.
Qed.

Lemma u8_to_string_value n : 0 ≤ n < 256 → digits_value 0 (u8_to_string n) = n.
Proof.
  intros Hn. unfold u8_to_string.
  pose proof (Z.div_mod n 10 ltac:(lia)).
  pose proof (Z.div_mod (n / 10) 10 ltac:(lia)).
  replace (n / 100) with (n / 10 / 10) by (rewrite Z.div_div; [done|lia..]).
  case_bools; simpl; lia.
Qed.

Lemma u8_to_string_nonempty n : u8_to_string n ≠ [].
Proof. unfold u8_to_string. by case_bools. Qed.

Lemma parse_digits_spec s :
  s ≠ [] → Forall (λ c, is_ascii_digit c = true) s → parse_digits s = Some (digits_value 0 s).
Proof.
  intros Hne Hd. unfold parse_digits. destruct s; [done|].
  assert (forallb is_ascii_digit (z :: s) = true) as ->; [|done].
  apply forallb_forall. rewrite Forall_forall in Hd. intros x Hx. apply Hd.
  by apply list_elem_of_In.
Qed.

Lemma split_once_none p s : p ∉ s → split_once p s = None.
Proof.
  induction s as [|c s IH]; simpl; [done|]. rewrite not_elem_of_cons. intros [Hc Hs].
  destruct (Z.eqb_spec c p); [congruence|]. by rewrite IH.
Qed.

Lemma split_once_app p s t : p ∉ s → split_once p (s ++ p :: t) = Some (s, t).
Proof.
  induction s as [|c s IH]; simpl; [by rewrite Z.eqb_refl|].
  rewrite not_elem_of_cons. intros [Hc Hs].
  destruct (Z.eqb_spec c p); [congruence|]. by rewrite IH.
Qed.

Lemma slice_from_cons b t i :
  drop i b = t → (i ≤ List.length b)%nat →
  slice_from b i = match t with c :: _ => if is_cont c then Panic else Ret t | [] => Ret [] end.
Proof. intros <- Hi. unfold slice_from. destruct (drop i b); [|done]. by rewrite decide_True. Qed.

Lemma c_str_app_nul s m : 0 ∉ s → c_str (s ++ 0 :: m) = s.
Proof.
  intros Hs. unfold c_str. rewrite take_while_app_all; simpl; [by rewrite app_nil_r|].
  apply Forall_forall. intros x Hx. destruct (Z.eqb_spec x 0); [congruence|done].
Qed.

Lemma eq_ignore_ascii_case_refl s : eq_ignore_ascii_case s s = true.
Proof. by apply bool_decide_eq_true. Qed.

Lemma as_bytes_head s b r :
  Forall is_scalar s → as_bytes s = b :: r → is_cont b = false.
Proof.
  intros Hs Hb. destruct Hs as [|c s Hc _]; [done|].
  rewrite as_bytes_cons in Hb.
  destruct (utf8_char_head c Hc) as (b' & r' & He & Hcont & _).
  rewrite He in Hb. simpl in Hb. by injection Hb as <- _.
Qed.

(** An ASCII prefix of the bytes of a string is a prefix of the string. *)
Lemma as_bytes_ascii_prefix s p r :
  Forall is_scalar s → Forall is_ascii p → as_bytes s = p ++ r →
  ∃ t, s = p ++ t ∧ Forall is_scalar t ∧ as_bytes t = r.
Proof.
  intros Hs Hp. revert s Hs. induction Hp as [|a p Ha _ IH]; intros s Hs Hb; [by exists s|].
  destruct Hs as [|c s Hc Hs]; [done|]. rewrite as_bytes_cons in Hb.
  destruct (decide (is_ascii c)) as [Hca|Hca].
  - rewrite utf8_char_ascii in Hb by done. simpl in Hb. injection Hb as -> Hb.
    destruct (IH s Hs Hb) as (t & -> & ? & ?). by exists t.
  - exfalso. destruct (utf8_char_head c Hc) as (b' & r' & He & _ & _ & Hge).
    rewrite He in Hb. simpl in Hb. injection Hb as -> _.
    unfold is_ascii, is_scalar in *. lia.
Qed.

Lemma utf8_char_tail c : is_scalar c → 0x80 ≤ c →
  ∃ b b' r, utf8_char c = b :: b' :: r ∧ is_cont b' = true.
Proof.
  unfold is_scalar, utf8_char. intros Hc Hge.
  repeat match goal with |- context [?a <? ?b] => destruct (Z.ltb_spec a b) end; try lia;
    eexists _, _, _; (split; [reflexivity|]); unfold is_cont;
    match goal with
    | |- context [?a mod 64] => pose proof (Z.mod_pos_bound a 64 ltac:(lia)); lia
    end.
Qed.

Lemma digits_value_ge acc ds :
  0 ≤ acc → Forall (λ c, is_ascii_digit c = true) ds → acc ≤ digits_value acc ds.
Proof.
  intros Hacc Hd. revert acc Hacc. induction Hd as [|d ds Hd _ IH]; intros acc Hacc; [done|].
  change (digits_value acc (d :: ds)) with (digits_value (acc * 10 + (d - 48)) ds).
  unfold_char. etrans; [|apply IH]; lia.
Qed.

Lemma from_utf8_ascii s : Forall is_ascii s → from_utf8 s = Some s.
Proof.
  intros Hs. rewrite <- (as_bytes_ascii s Hs) at 1. apply from_utf8_as_bytes.
  eapply Forall_impl; [exact Hs|]. unfold is_ascii, is_scalar. lia.
Qed.

(** ** Lines and trimming *)
Lemma lines_no_newline s : Forall (λ l, (10 ∉ l)) (lines s).
Proof.
  induction s as [|c s IH]; simpl; [constructor|].
  destruct (Z.eqb_spec c 10) as [->|Hc]; [constructor; [apply not_elem_of_nil|done]|].
  destruct ((c =? 13) && _); [done|].
  destruct (lines s) as [|l ls]; constructor; try done.
  - rewrite not_elem_of_cons. split; [done|apply not_elem_of_nil].
  - inversion IH; subst. rewrite not_elem_of_cons. done.
  - by inversion IH.
Qed.

Lemma lines_app_newline l r : (10 ∉ l) → last l ≠ Some 13 → lines (l ++ 10 :: r) = l :: lines r.
Proof.
  induction l as [|c l IH]; intros Hn Hl; [done|]. apply not_elem_of_cons in Hn as [Hc Hn].
  cbn [app lines]. destruct (Z.eqb_spec c 10); [congruence|].
  destruct l as [|d l].
  - simpl. destruct (Z.eqb_spec c 13) as [->|]; [done|]. done.
  - assert (match (d :: l) ++ 10 :: r with 10 :: _ => true | _ => false end = false) as ->.
    { simpl. apply not_elem_of_cons in Hn as [Hd _].
      destruct d as [|p|p]; [done| |done]. do 4 (destruct p as [p|p|]; try done). }
    rewrite andb_false_r, IH; [done|done|]. done.
Qed.

Lemma drop_while_suffix {A} (P : A → bool) l : ∃ w, l = w ++ drop_while P l.
Proof. exists (take_while P l). by rewrite take_drop_while. Qed.

Lemma trim_start_elem c s : c ∈ trim_start s → c ∈ s.
Proof.
  unfold trim_start. destruct (drop_while_suffix is_whitespace s) as [w Hw].
  intros Hc. rewrite Hw. apply elem_of_app. by right.
Qed.

Lemma trim_end_elem c s : c ∈ trim_end s → c ∈ s.
Proof.
  unfold trim_end. rewrite elem_of_reverse.
  destruct (drop_while_suffix is_whitespace (reverse s)) as [w Hw].
  intros Hc. rewrite <- elem_of_reverse, Hw. apply elem_of_app. by right.
Qed.

Lemma trim_end_matches_elem c x s : c ∈ trim_end_matches x s → c ∈ s.
Proof.
  unfold trim_end_matches. rewrite elem_of_reverse.
  destruct (drop_while_suffix (λ y, y =? x) (reverse s)) as [w Hw].
  intros Hc. rewrite <- elem_of_reverse, Hw. apply elem_of_app. by right.
Qed.

Lemma trim_elem c s : c ∈ trim s → c ∈ s.
Proof. intros Hc. by apply trim_start_elem, trim_end_elem. Qed.

(** A string whose last character is kept is not trimmed at its end. *)
Lemma drop_while_reverse_last {A} (P : A → bool) l c :
  last l = Some c → P c = false → reverse (drop_while P (reverse l)) = l.
Proof.
  intros Hl Hc. destruct (last_Some l c) as [[l' ->] _]; [done|].
  rewrite reverse_snoc. simpl. rewrite Hc. by rewrite reverse_cons, reverse_involutive.
Qed.

Lemma drop_while_idemp {A} (P : A → bool) l : drop_while P (drop_while P l) = drop_while P l.
Proof.
  destruct (drop_while P l) as [|x r] eqn:He; [done|].
  apply (drop_while_none P _ x r); [by eapply drop_while_head|done].
Qed.

(** A trimmed string starts and ends outside white space. *)
Lemma trim_ends s c : trim s = s → (head s = Some c ∨ last s = Some c) → is_whitespace c = false.
Proof.
  intros Ht Hc.
  assert (∀ x r, reverse s = x :: r → is_whitespace x = false) as Hrev.
  { intros x r Hr. rewrite <- Ht in Hr. unfold trim, trim_end in Hr.
    rewrite reverse_involutive in Hr. by eapply drop_while_head. }
  destruct Hc as [Hc|Hc].
  - destruct s as [|d s]; [done|]. injection Hc as ->.
    destruct (is_whitespace c) eqn:Hw; [|done]. exfalso.
    assert (List.length (trim (c :: s)) ≤ List.length s)%nat as Hlen.
    { unfold trim, trim_end. rewrite length_reverse.
      etrans; [apply drop_while_length|]. rewrite length_reverse.
      unfold trim_start. simpl. rewrite Hw. apply drop_while_length. }
    rewrite Ht in Hlen. simpl in Hlen. lia.
  - destruct (last_Some s c) as [[l' ->] _]; [done|].
    apply (Hrev c (reverse l')). by rewrite reverse_snoc.
Qed.

(** ** Decimal numbers *)
Lemma dec_go_spec fuel z acc :
  0 ≤ z < 10 ^ Z.of_nat fuel → Forall (λ c, is_ascii_digit c = true) acc → (0 < fuel)%nat →
  digits_value 0 (dec_go fuel z acc) = digits_value z acc ∧
  Forall (λ c, is_ascii_digit c = true) (dec_go fuel z acc) ∧ dec_go fuel z acc ≠ [].
Proof.
  revert z acc. induction fuel as [|f IH]; intros z acc Hz Hacc Hf; [lia|]. cbn [dec_go].
  destruct (Z.ltb_spec z 10) as [Hlt|Hge].
  - split_and!; [|constructor; [unfold_char; lia|done]|done].
    change (digits_value 0 (48 + z :: acc)) with (digits_value (0 * 10 + (48 + z - 48)) acc).
    f_equal. lia.
  - rewrite Nat2Z.inj_succ, Z.pow_succ_r in Hz by lia.
    pose proof (Z.mod_pos_bound z 10 ltac:(lia)). pose proof (Z.div_mod z 10 ltac:(lia)).
    destruct f as [|f]; [simpl in Hz; lia|].
    destruct (IH (z / 10) (48 + z mod 10 :: acc)) as (Hv & Hd & Hne).
    + split; [apply Z.div_pos; lia|]. apply Z.div_lt_upper_bound; lia.
    + constructor; [unfold_char; lia|done].
    + lia.
    + split_and!; [|done|done]. rewrite Hv.
      change (digits_value (z / 10) (48 + z mod 10 :: acc))
        with (digits_value (z / 10 * 10 + (48 + z mod 10 - 48)) acc).
      f_equal. lia.
Qed.

Lemma dec_spec z : 0 ≤ z < 2 ^ 31 →
  digits_value 0 (dec z) = z ∧ Forall (λ c, is_ascii_digit c = true) (dec z) ∧ dec z ≠ [].
Proof. intros Hz. apply dec_go_spec; [simpl; lia|done|lia]. Qed.

Lemma parse_signed_digits lo hi s :
  s ≠ [] → Forall (λ c, is_ascii_digit c = true) s →
  parse_signed lo hi s =
    (if (lo <=? digits_value 0 s) && (digits_value 0 s <=? hi) then Some (digits_value 0 s) else None).
Proof.
  intros Hne Hd. pose proof (parse_digits_spec s Hne Hd) as Hp.
  unfold parse_signed. destruct s as [|d s]; [done|].
  assert (match d :: s with
          | 45 :: r => Z.opp <$> parse_digits r
          | 43 :: r => parse_digits r
          | _ => parse_digits (d :: s)
          end = parse_digits (d :: s)) as ->; [|by rewrite Hp].
  apply Forall_cons in Hd as [Hd _].
  assert (d ≠ 45 ∧ d ≠ 43) as [? ?] by (unfold_char; lia).
  destruct d as [|p|p]; [done| |done]. do 6 (destruct p as [p|p|]; try done).
Qed.

Lemma parse_i32_dec z : 0 ≤ z < 2 ^ 31 → parse_i32 (dec z) = Some z.
Proof.
  intros Hz. destruct (dec_spec z Hz) as (Hv & Hd & Hne).
  unfold parse_i32. rewrite parse_signed_digits, Hv by done.
  destruct ((- 2 ^ 31 <=? z) && (z <=? 2 ^ 31 - 1)) eqn:Hr; [done|lia].
Qed.

Lemma parse_i32_range s v : parse_i32 s = Some v → - 2 ^ 31 ≤ v < 2 ^ 31.
Proof.
  unfold parse_i32, parse_signed. intros Hp.
  apply bind_Some in Hp as (w & _ & Hw).
  destruct ((- 2 ^ 31 <=? w) && (w <=? 2 ^ 31 - 1)) eqn:Hr; [|done].
  injection Hw as <-. lia.
Qed.

Lemma trim_end_matches_id x s c : last s = Some c → c ≠ x → trim_end_matches x s = s.
Proof.
  intros Hl Hc. unfold trim_end_matches. eapply drop_while_reverse_last; [done|].
  by apply Z.eqb_neq.
Qed.

Lemma parse_unsigned_digits hi s :
  s ≠ [] → Forall (λ c, is_ascii_digit c = true) s →
  parse_unsigned hi s = (if digits_value 0 s <=? hi then Some (digits_value 0 s) else None).
Proof.
  intros Hne Hd. pose proof (parse_digits_spec s Hne Hd) as Hp.
  unfold parse_unsigned. destruct s as [|d s]; [done|].
  assert (match d :: s with 43 :: r => parse_digits r | _ => parse_digits (d :: s) end
          = parse_digits (d :: s)) as ->; [|by rewrite Hp].
  apply Forall_cons in Hd as [Hd _].
  assert (d ≠ 43) by (unfold_char; lia).
  destruct d as [|p|p]; [done| |done]. do 6 (destruct p as [p|p|]; try done).
Qed.
