(* ===== verification/Addr.v ===== *)
(** [crates/libax25/src/addr.rs]: callsigns and the seven-byte shifted AX.25
    address, with the exported C functions over it.

    [encode_entry], [scan_int], [decode_entry], [cmp_entry] and
    [validate_entry] are the pure core; [fill_sax] and the [ax25_*] functions
    are the C entry points, whose pointer arguments are [option]s (NULL is
    [None]) of the memory they point to. *)
From stdpp Require Import prelude gmap.
From Stdlib Require Import ZArith Lia String.
From S2P Require Import Prelude Str.
Local Open Scope Z_scope.
Local Open Scope outcome_scope.

(** * Data *)
Definition AF_AX25 : Z := 3.
Definition AX25_MAX_DIGIS : nat := 8.

(** Seven [c_char]s, signed bytes. *)
Record Ax25Address := mkAx25Address { ax25_call : list Z }.

Record SockaddrAx25 := mkSockaddrAx25 {
  sax25_family : Z;
  sax25_call : Ax25Address;
  sax25_ndigis : Z;
}.

Record FullSockaddrAx25 := mkFullSockaddrAx25 {
  fsa_ax25 : SockaddrAx25;
  fsa_digipeater : list Ax25Address;
}.

#[export] Instance Ax25Address_eq_dec : EqDecision Ax25Address.
Proof. solve_decision. Defined.
#[export] Instance SockaddrAx25_eq_dec : EqDecision SockaddrAx25.
Proof. solve_decision. Defined.
#[export] Instance FullSockaddrAx25_eq_dec : EqDecision FullSockaddrAx25.
Proof. solve_decision. Defined.

(** [size_of::<FullSockaddrAx25>()]: 2 + 7 + 3 of padding + 4, then 8 * 7. *)
Definition size_of_full_sockaddr : Z := 72.

Definition as_i8 (b : list Z) : list Z := map i8 b.
Definition as_u8 (b : list Z) : list Z := map u8 b.

(** * The pure core *)

(** [scan_int]: blanks, an optional sign, digits; accumulated in an [i64]
    with the release profile's wrap-around, then truncated to [i32]. *)
Definition scan_int (b : list Z) : option Z :=
  let b1 := drop_while (λ c, (c =? 32) || (c =? 9)) b in
  let '(neg, b2) := match b1 with
                    | 43 :: r => (false, r)
                    | 45 :: r => (true, r)
                    | _ => (false, b1)
                    end in
  let digits := take_while is_ascii_digit b2 in
  match digits with
  | [] => None
  | _ =>
    let val := fold_left (λ v c, i64 (v * 10 + (c - 48))) digits 0 in
    Some (if (neg : bool) then i32 (- i32 val) else i32 val)
  end.

(** The first [while] loop of [encode_entry]: [n] positions are left; the
    shifted characters and the bytes not consumed, or [None] for an invalid
    symbol. *)
Fixpoint call_loop (n : nat) (bytes : list Z) : option (list Z * list Z) :=
  match n, bytes with
  | O, _ => Some ([], bytes)
  | S _, [] => Some ([], [])
  | S n', b :: r =>
    let c := to_ascii_uppercase b in
    if c =? 45 then Some ([], bytes)
    else if negb (is_ascii_alphanumeric c) then None
    else '(buf, rest) ← call_loop n' r; Some (u8 (Z.shiftl c 1) :: buf, rest)
  end.

(** The seventh byte. *)
Definition ssid_byte (ssid : Z) : Z := u8 (Z.land (i32 (Z.shiftl (ssid + 48) 1)) 0x1E).

Definition encode_entry (name : str) : outcome (option (list Z)) :=
  let bytes := as_bytes name in
  match call_loop 6 bytes with
  | None => Ret None
  | Some (chars, rest) =>
    let idx := List.length chars in
    let buf := chars ++ replicate (6 - List.length chars) (u8 (Z.shiftl 32 1)) in
    if decide (idx < List.length bytes)%nat then
      s <-! slice_from bytes (S idx);
      Ret (match scan_int s with
           | Some v => if (0 <=? v) && (v <=? 15) then Some (buf ++ [ssid_byte v]) else None
           | None => None
           end)
    else Ret (Some (buf ++ [ssid_byte 0]))
  end.

Definition decode_char (b : Z) : Z := Z.land (Z.shiftr b 1) 0x7F.

Definition decode_entry (call : list Z) : str :=
  let b6 := nth 6 call 0 in
  filter (λ c, c ≠ 32) (map decode_char (take 6 call)) ++
  (if negb (Z.land b6 0x1E =? 0)
   then 45 :: u8_to_string (Z.land (Z.shiftr b6 1) 0x0F)
   else []).

Definition cmp_entry (a b : list Z) : Z :=
  if negb (bool_decide (map (λ x, Z.land x 0xFE) (take 6 a) =
                        map (λ x, Z.land x 0xFE) (take 6 b))) then 1
  else if negb (Z.land (nth 6 a 0) 0x1E =? Z.land (nth 6 b 0) 0x1E) then 2
  else 0.

Definition validate_entry (call : list Z) : bool :=
  forallb (λ b, let c := decode_char b in
                is_ascii_uppercase c || is_ascii_digit c || (c =? 32)) (take 6 call).

(** * Exported data *)
Definition null_ax25_address : Ax25Address :=
  mkAx25Address [0x40; 0x40; 0x40; 0x40; 0x40; 0x40; 0x00].

Definition libax25_version : list Z := lit "pdn-libax25 0.1.0" ++ [0].

(** * C entry points *)

(** [ax25_aton_entry]: the status and the memory behind [buf]. *)
Definition ax25_aton_entry (name buf : option (list Z)) : outcome (Z * option (list Z)) :=
  match name, buf with
  | Some name, Some dst =>
    match from_utf8 (c_str name) with
    | None => Ret (-1, Some dst)
    | Some name =>
      e <-! encode_entry name;
      match e with
      | Some entry => Ret (0, Some (as_i8 entry ++ drop 7 dst))
      | None => Ret (-1, Some dst)
      end
    end
  | _, _ => Ret (-1, buf)
  end.

(** [ax25_ntoa]: the thread's sixteen-byte buffer after the call; the
    function returns its address. *)
Definition ax25_ntoa (a : option Ax25Address) (ntoa_buf : list Z) : list Z :=
  match a with
  | None => 0 :: drop 1 ntoa_buf
  | Some a =>
    let bytes := as_bytes (decode_entry (as_u8 (ax25_call a))) in
    let n := Nat.min (List.length bytes) 15 in
    as_i8 (take n bytes) ++ [0] ++ drop (S n) ntoa_buf
  end.

Definition ax25_cmp (a b : option Ax25Address) : Z :=
  match a, b with
  | Some a, Some b => cmp_entry (as_u8 (ax25_call a)) (as_u8 (ax25_call b))
  | _, _ => 1
  end.

(** [ax25_validate] reads seven raw bytes. *)
Definition ax25_validate (call : option (list Z)) : Z :=
  match call with
  | None => 0
  | Some raw => if validate_entry (take 7 raw) then 1 else 0
  end.

Definition is_via (tok : str) : bool :=
  eq_ignore_ascii_case tok (lit "v") || eq_ignore_ascii_case tok (lit "via").

Definition set_call (sax : FullSockaddrAx25) (e : list Z) : FullSockaddrAx25 :=
  mkFullSockaddrAx25
    (mkSockaddrAx25 (sax25_family (fsa_ax25 sax)) (mkAx25Address (as_i8 e))
                    (sax25_ndigis (fsa_ax25 sax)))
    (fsa_digipeater sax).

Definition set_digi (sax : FullSockaddrAx25) (di : nat) (e : list Z) : FullSockaddrAx25 :=
  mkFullSockaddrAx25 (fsa_ax25 sax) (<[di := mkAx25Address (as_i8 e)]> (fsa_digipeater sax)).

(** The loop of [fill_sax]: [n] placements so far; the final count, or
    [None] for the early [return -1], which leaves what was placed. *)
Fixpoint fill_loop (tokens : list str) (n : nat) (sax : FullSockaddrAx25) :
    outcome (option nat * FullSockaddrAx25) :=
  match tokens with
  | [] => Ret (Some n, sax)
  | tok :: r =>
    if bool_decide (n = 1%nat) && is_via tok then fill_loop r n sax
    else
      e <-! encode_entry tok;
      match e with
      | None => Ret (None, sax)
      | Some entry =>
        match n with
        | O => fill_loop r 1 (set_call sax entry)
        | S di =>
          if decide (AX25_MAX_DIGIS ≤ di)%nat then Ret (Some n, sax)
          else
            let sax' := set_digi sax di entry in
            if decide (AX25_MAX_DIGIS < S n)%nat then Ret (Some (S n), sax')
            else fill_loop r (S n) sax'
        end
      end
  end.

Definition fill_sax (tokens : list str) (sax : FullSockaddrAx25) :
    outcome (Z * FullSockaddrAx25) :=
  let tokens := match tokens with [] => [[]] | _ => tokens end in
  r <-! fill_loop tokens 0 sax;
  match r with
  | (None, sax) => Ret (-1, sax)
  | (Some n, sax) =>
    Ret (size_of_full_sockaddr,
         mkFullSockaddrAx25
           (mkSockaddrAx25 AF_AX25 (sax25_call (fsa_ax25 sax)) (Z.of_nat n - 1))
           (fsa_digipeater sax))
  end.

Definition ax25_aton (call : option (list Z)) (sax : option FullSockaddrAx25) :
    outcome (Z * option FullSockaddrAx25) :=
  match call, sax with
  | Some call, Some sax =>
    match from_utf8 (c_str call) with
    | None => Ret (-1, Some sax)
    | Some call => r <-! fill_sax (split_whitespace call) sax; Ret (r.1, Some r.2)
    end
  | _, _ => Ret (-1, sax)
  end.

(** [ax25_aton_arglist]: the array is given as the C strings before its NULL. *)
Definition ax25_aton_arglist (call : option (list (list Z))) (sax : option FullSockaddrAx25) :
    outcome (Z * option FullSockaddrAx25) :=
  match call, sax with
  | Some args, Some sax =>
    match mapM (λ p, from_utf8 (c_str p)) args with
    | None => Ret (-1, Some sax)
    | Some tokens => r <-! fill_sax tokens sax; Ret (r.1, Some r.2)
    end
  | _, _ => Ret (-1, sax)
  end.

(** [strupr] and [strlwr] rewrite the bytes before the NUL in place. *)
Definition str_map (f : Z → Z) (mem : list Z) : list Z :=
  map f (c_str mem) ++ drop (List.length (c_str mem)) mem.
Definition strupr (s : option (list Z)) : option (list Z) :=
  str_map (λ c, i8 (to_ascii_uppercase (u8 c))) <$> s.
Definition strlwr (s : option (list Z)) : option (list Z) :=
  str_map (λ c, i8 (to_ascii_lowercase (u8 c))) <$> s.

Example encode_m0lte_1 :
  encode_entry (lit "m0lte-1") = Ret (Some [154; 96; 152; 168; 138; 64; 2]).
Proof. reflexivity. Qed.
Example decode_gb7rdg :
  (x <-! encode_entry (lit "GB7RDG-15"); Ret (decode_entry <$> x)) = Ret (Some (lit "GB7RDG-15")).
Proof. reflexivity. Qed.
Example encode_bad : map encode_entry [lit "M0*TE"; lit "M0LTE-16"; lit "M0LTE-99"]
  = [Ret None; Ret None; Ret None].
Proof. reflexivity. Qed.

(** * The shape of an encoded address *)
Definition call_char (c : Z) : bool := is_ascii_uppercase c || is_ascii_digit c.
Definition wf_call (chars : str) : Prop :=
  (List.length chars ≤ 6)%nat ∧ Forall (λ c, call_char c = true) chars.

(** The address of an upper-case callsign and an SSID, and its text. *)
Definition addr_of (chars : str) (ssid : Z) : list Z :=
  map (λ c, 2 * c) chars ++ replicate (6 - List.length chars) 64 ++ [2 * ssid].
Definition call_text (chars : str) (ssid : Z) : str :=
  chars ++ (if ssid =? 0 then [] else 45 :: u8_to_string ssid).
Definition wf_addr (e : list Z) : Prop :=
  ∃ chars ssid, wf_call chars ∧ 0 ≤ ssid ≤ 15 ∧ e = addr_of chars ssid.

Definition upper (s : str) : str := map to_ascii_uppercase s.

(** The eight digipeater slots after placing the entries [ds] from slot [k]. *)
Definition place (k : nat) (ds : list (list Z)) (slots : list Ax25Address) : list Ax25Address :=
  take k slots ++ map (λ e, mkAx25Address (as_i8 e)) ds ++ drop (k + List.length ds) slots.

(** The tokens [fill_sax] encodes as digipeaters: those after the separators
    that follow the callsign, at most eight. *)
Definition digi_tokens (rest : list str) : list str :=
  take AX25_MAX_DIGIS (drop_while is_via rest).

Definition encodes (t : str) (e : list Z) : Prop := encode_entry t = Ret (Some e).

(** ** Characters and bytes *)
Lemma shl_char c : is_ascii c → u8 (Z.shiftl c 1) = 2 * c.
Proof.
  unfold is_ascii. intros Hc. rewrite Z.shiftl_mul_pow2 by lia. change (2 ^ 1) with 2.
  rewrite u8_id; unfold is_byte; lia.
Qed.

Lemma decode_char_shl c : is_ascii c → decode_char (2 * c) = c.
Proof.
  intros Hc. refine (range_decide (λ c, decode_char (2 * c) = c) 128 c _ Hc).
  vm_compute. reflexivity.
Qed.

Lemma ssid_byte_id v : 0 ≤ v ≤ 15 → ssid_byte v = 2 * v.
Proof.
  intros Hv. refine (range_decide (λ v, ssid_byte v = 2 * v) 16 v _ _); [|lia].
  vm_compute. reflexivity.
Qed.

Lemma ssid_bits v : 0 ≤ v ≤ 15 →
  Z.land (2 * v) 0x1E = 2 * v ∧ Z.land (Z.shiftr (2 * v) 1) 0x0F = v.
Proof.
  intros Hv. refine (range_decide (λ v, Z.land (2 * v) 0x1E = 2 * v ∧
    Z.land (Z.shiftr (2 * v) 1) 0x0F = v) 16 v _ _); [|lia].
  vm_compute. reflexivity.
Qed.

Lemma call_char_ascii c : call_char c = true → is_ascii c ∧ c ≠ 32 ∧ c ≠ 45.
Proof. unfold call_char. unfold_char. lia. Qed.

Lemma call_char_upper c :
  is_ascii_alphanumeric (to_ascii_uppercase c) = true → call_char (to_ascii_uppercase c) = true.
Proof. unfold call_char. intros [->| ->]%alnum_upper; [done|apply orb_true_r]. Qed.

Lemma call_char_alnum c :
  call_char c = true → is_ascii_alphanumeric c = true ∧ to_ascii_uppercase c = c.
Proof. unfold call_char. unfold_char. case_bools; lia. Qed.

Lemma upper_dash c : to_ascii_uppercase c = 45 ↔ c = 45.
Proof. unfold_char. case_bools; lia. Qed.

Lemma alnum_of_upper c :
  is_ascii_alphanumeric (to_ascii_uppercase c) = is_ascii_alphanumeric c.
Proof. unfold_char. case_bools; lia. Qed.

Lemma upper_wf base :
  (List.length base ≤ 6)%nat → Forall (λ c, is_ascii_alphanumeric c = true) base →
  wf_call (upper base).
Proof.
  intros Hl Hf. split; [unfold upper; by rewrite length_map|].
  unfold upper. apply Forall_map. eapply Forall_impl; [exact Hf|].
  simpl. intros c Hc. apply call_char_upper. by rewrite alnum_of_upper.
Qed.

Lemma upper_id chars : Forall (λ c, call_char c = true) chars → upper chars = chars.
Proof.
  induction 1 as [|c l Hc _ IH]; [done|]. simpl. f_equal; [|done].
  by apply call_char_alnum.
Qed.

(** ** The loops *)
Lemma call_loop_spec n base rest :
  Forall (λ c, is_ascii_alphanumeric c = true) base → (List.length base ≤ n)%nat →
  (List.length base = n ∨ rest = [] ∨ ∃ r, rest = 45 :: r) →
  call_loop n (base ++ rest) = Some (map (λ c, 2 * c) (upper base), rest).
Proof.
  revert n. induction base as [|c base IH]; intros n Hf Hl Hend; simpl.
  { destruct n; [done|]. destruct Hend as [?|[->|[r ->]]]; done. }
  apply Forall_cons in Hf as [Hc Hf]. destruct n as [|n]; simpl in *; [lia|].
  destruct (Z.eqb_spec (to_ascii_uppercase c) 45) as [He|_].
  { apply upper_dash in He as ->. done. }
  rewrite alnum_of_upper, Hc. simpl.
  rewrite IH; [|done|lia|destruct Hend as [?|?]; [left; lia|by right]].
  simpl. rewrite shl_char; [done|]. by apply to_ascii_uppercase_ascii, alnum_ascii.
Qed.

Lemma call_loop_inv n b buf rest :
  call_loop n b = Some (buf, rest) →
  ∃ base, b = base ++ rest ∧ Forall (λ c, is_ascii_alphanumeric c = true) base ∧
    (List.length base ≤ n)%nat ∧ buf = map (λ c, 2 * c) (upper base) ∧
    (List.length base = n ∨ rest = [] ∨ ∃ r, rest = 45 :: r).
Proof.
  revert b buf rest. induction n as [|n IH]; intros b buf rest.
  { intros [= <- <-]. exists []. split_and!; auto with lia. }
  destruct b as [|c b]; simpl.
  { intros [= <- <-]. exists []. split_and!; simpl; auto with lia. }
  destruct (Z.eqb_spec (to_ascii_uppercase c) 45) as [He|He].
  { intros [= <- <-]. exists []. apply upper_dash in He as ->.
    split_and!; simpl; eauto with lia. }
  rewrite alnum_of_upper. destruct (is_ascii_alphanumeric c) eqn:Hc; [|done]. simpl.
  destruct (call_loop n b) as [[buf' rest']|] eqn:Hl; [|done]. simpl.
  intros [= <- <-]. destruct (IH _ _ _ Hl) as (base & -> & Hf & Hlen & -> & Hend).
  exists (c :: base). simpl. split_and!; auto with lia.
  - f_equal. apply shl_char. by apply to_ascii_uppercase_ascii, alnum_ascii.
  - destruct Hend; [left; lia|by right].
Qed.

Lemma addr_of_buf base ssid : (List.length base ≤ 6)%nat → 0 ≤ ssid ≤ 15 →
  let chars := map (λ c, 2 * c) (upper base) in
  (chars ++ replicate (6 - List.length chars) (u8 (Z.shiftl 32 1))) ++ [ssid_byte ssid]
  = addr_of (upper base) ssid.
Proof.
  intros Hl Hs. simpl. unfold addr_of. rewrite <- app_assoc, ssid_byte_id by done.
  rewrite length_map. done.
Qed.

Lemma scan_int_digits ds :
  ds ≠ [] → Forall (λ c, is_ascii_digit c = true) ds → digits_value 0 ds < 2 ^ 63 →
  scan_int ds = Some (i32 (digits_value 0 ds)).
Proof.
  intros Hne Hd Hlt.
  assert (∀ acc l, 0 ≤ acc → Forall (λ c, is_ascii_digit c = true) l →
    digits_value acc l < 2 ^ 63 →
    fold_left (λ v c, i64 (v * 10 + (c - 48))) l acc = digits_value acc l) as Hfold.
  { intros acc l Hacc Hl. revert acc Hacc. induction Hl as [|c l Hc Hl IH]; [done|].
    intros acc Hacc. simpl. intros Hv.
    pose proof (digits_value_ge (acc * 10 + (c - 48)) l) as Hge.
    change (digits_value (acc * 10 + (c - 48)) l < 2 ^ 63) in Hv.
    unfold_char. rewrite i64_id; [apply IH; [lia|done]|]. specialize (Hge ltac:(lia) Hl). lia. }
  unfold scan_int. destruct ds as [|d ds]; [done|].
  inversion Hd as [|? ? Hd0 Hds]; subst.
  assert (d ≠ 32 ∧ d ≠ 9 ∧ d ≠ 43 ∧ d ≠ 45) as (H32 & H9 & H43 & H45) by (unfold_char; lia).
  simpl. destruct (Z.eqb_spec d 32); [done|]. destruct (Z.eqb_spec d 9); [done|]. simpl.
  replace (match d with 45 => (true, ds) | 43 => (false, ds) | _ => (false, d :: ds) end)
    with (false, d :: ds).
  2: { destruct d as [|p|p]; [done| |done].
       do 6 (destruct p as [p|p|]; try done). }
  rewrite <- (app_nil_r (d :: ds)), take_while_app_all by done. simpl.
  rewrite app_nil_r. f_equal. f_equal. apply (Hfold 0 (d :: ds)); [lia|done|done].
Qed.

(** The address text of a callsign of up to six characters, without and with
    an SSID. *)
Lemma encode_entry_bare base :
  (List.length base ≤ 6)%nat → Forall (λ c, is_ascii_alphanumeric c = true) base →
  encode_entry base = Ret (Some (addr_of (upper base) 0)).
Proof.
  intros Hl Hf. unfold encode_entry.
  rewrite as_bytes_ascii by (eapply Forall_impl; [exact Hf|]; apply alnum_ascii).
  rewrite <- (app_nil_r base) at 1. rewrite call_loop_spec by auto.
  rewrite decide_False by (unfold upper; rewrite !length_map; lia).
  by rewrite addr_of_buf by lia.
Qed.

Lemma encode_entry_dash base ds :
  (List.length base ≤ 6)%nat → Forall (λ c, is_ascii_alphanumeric c = true) base →
  Forall is_ascii ds →
  encode_entry (base ++ 45 :: ds) =
    Ret (match scan_int ds with
         | Some v => if (0 <=? v) && (v <=? 15) then Some (addr_of (upper base) v) else None
         | None => None
         end).
Proof.
  intros Hl Hf Hds. unfold encode_entry.
  assert (Forall is_ascii (base ++ 45 :: ds)) as Hasc.
  { apply Forall_app. split; [eapply Forall_impl; [exact Hf|]; apply alnum_ascii|].
    constructor; [done|done]. }
  rewrite (as_bytes_ascii _ Hasc), call_loop_spec by eauto.
  unfold upper. rewrite !length_map.
  rewrite decide_True by (rewrite length_app; simpl; lia).
  rewrite (slice_from_cons _ ds); cycle 1.
  { rewrite drop_app_ge by lia. by replace (S (List.length base) - List.length base)%nat with 1%nat by lia. }
  { rewrite length_app. simpl. lia. }
  destruct Hds as [|d ds Hd Hds]; [done|].
  assert (is_cont d = false) as -> by (unfold_char; lia). simpl.
  destruct (scan_int (d :: ds)) as [v|]; [|done].
  destruct ((0 <=? v) && (v <=? 15)) eqn:Hv; [|done].
  pose proof (addr_of_buf base v Hl) as Hbuf. unfold upper in Hbuf.
  rewrite !length_map in Hbuf. by rewrite Hbuf by lia.
Qed.

(** ** Decoding *)
Lemma decode_char_pad : decode_char 64 = 32.
Proof. reflexivity. Qed.

Lemma decode_addr_of_ascii chars ssid :
  (List.length chars ≤ 6)%nat → Forall is_ascii chars → 0 ≤ ssid ≤ 15 →
  decode_entry (addr_of chars ssid) = call_text (filter (λ c, c ≠ 32) chars) ssid.
Proof.
  intros Hl Hf Hs. unfold decode_entry, addr_of, call_text.
  assert (List.length (map (λ c, 2 * c) chars ++ replicate (6 - List.length chars) 64) = 6%nat)
    as H6 by (rewrite length_app, length_map, length_replicate; lia).
  rewrite app_assoc, app_nth2 by lia. rewrite H6. simpl (nth _ _ _).
  rewrite take_app_length' by done.
  destruct (ssid_bits ssid Hs) as [-> ->]. f_equal.
  - rewrite map_app, filter_app, map_map.
    assert (map (λ x, decode_char (2 * x)) chars = chars) as ->.
    { clear -Hf. induction Hf as [|c l Hc _ IH]; [done|]. simpl. f_equal; [|done].
      by apply decode_char_shl. }
    assert (∀ n, filter (λ c, c ≠ 32) (map decode_char (replicate n 64)) = []) as ->.
    { induction n as [|n IH]; [done|]. simpl. rewrite filter_cons_False; [done|].
      rewrite decode_char_pad. tauto. }
    apply app_nil_r.
  - destruct (Z.eqb_spec ssid 0) as [->|]; [done|].
    by destruct (Z.eqb_spec (2 * ssid) 0); [lia|].
Qed.

Lemma decode_padded chars : (List.length chars ≤ 6)%nat → Forall is_ascii chars →
  decode_entry (addr_of chars 0) = filter (λ c, c ≠ 32) chars.
Proof. intros Hl Hf. rewrite decode_addr_of_ascii by (done || lia). apply app_nil_r. Qed.

Lemma decode_addr_of chars ssid :
  wf_call chars → 0 ≤ ssid ≤ 15 → decode_entry (addr_of chars ssid) = call_text chars ssid.
Proof.
  intros [Hl Hf] Hs. rewrite decode_addr_of_ascii; [|done| |done].
  - f_equal. clear -Hf. induction Hf as [|c l Hc _ IH]; [done|].
    rewrite filter_cons_True by (by apply call_char_ascii). by rewrite IH.
  - eapply Forall_impl; [exact Hf|]. apply call_char_ascii.
Qed.

(** * Properties of the core *)

Lemma encode_entry_wf name e : encode_entry name = Ret (Some e) → wf_addr e.
Proof.
  unfold encode_entry. destruct (call_loop 6 (as_bytes name)) as [[chars rest]|] eqn:Hl; [|done].
  apply call_loop_inv in Hl as (base & Hb & Hf & Hlen & -> & _).
  assert (∀ v, 0 ≤ v ≤ 15 → wf_addr (addr_of (upper base) v)) as Hwf.
  { intros v Hv. exists (upper base), v. auto using upper_wf. }
  case_decide; intros Hret.
  - inv_ret. destruct (scan_int x) as [v|]; [|done].
    destruct ((0 <=? v) && (v <=? 15)) eqn:Hv; [|done]. simplify_eq.
    rewrite addr_of_buf by lia. apply Hwf. lia.
  - inv_ret. simplify_eq. rewrite addr_of_buf by lia. apply Hwf. lia.
Qed.

Lemma call_chars_alnum chars :
  Forall (λ c, call_char c = true) chars → Forall (λ c, is_ascii_alphanumeric c = true) chars.
Proof. intros Hf. eapply Forall_impl; [exact Hf|]. intros c Hc. by apply call_char_alnum. Qed.

Lemma encode_call_text chars ssid :
  wf_call chars → 0 ≤ ssid ≤ 15 →
  encode_entry (call_text chars ssid) = Ret (Some (addr_of chars ssid)).
Proof.
  intros [Hl Hf] Hs. unfold call_text.
  pose proof (call_chars_alnum _ Hf) as Ha. pose proof (upper_id _ Hf) as Hu.
  destruct (Z.eqb_spec ssid 0) as [->|Hne].
  - rewrite app_nil_r, encode_entry_bare by done. by rewrite Hu.
  - pose proof (u8_to_string_digits ssid ltac:(lia)) as Hd.
    rewrite encode_entry_dash; [|done|done|].
    2: { eapply Forall_impl; [exact Hd|]. intros c Hc. unfold_char. lia. }
    rewrite scan_int_digits; [|apply u8_to_string_nonempty|done|];
      rewrite u8_to_string_value by lia; [|lia].
    rewrite i32_id by lia. destruct ((0 <=? ssid) && (ssid <=? 15)) eqn:Hv; [|lia].
    by rewrite Hu.
Qed.

Lemma encode_decode_wf e : wf_addr e → encode_entry (decode_entry e) = Ret (Some e).
Proof.
  intros (chars & ssid & Hc & Hs & ->).
  rewrite decode_addr_of by done. by apply encode_call_text.
Qed.

Lemma decode_entry_inj a b :
  wf_addr a → wf_addr b → decode_entry a = decode_entry b → a = b.
Proof.
  intros Ha Hb He. pose proof (encode_decode_wf a Ha) as H1.
  rewrite He, encode_decode_wf in H1 by done. by injection H1.
Qed.

Lemma wf_addr_validate e : wf_addr e → validate_entry e = true.
Proof.
  intros (chars & ssid & [Hl Hf] & _ & ->). unfold validate_entry, addr_of.
  assert (List.length (map (λ c, 2 * c) chars ++ replicate (6 - List.length chars) 64) = 6%nat)
    as H6 by (rewrite length_app, length_map, length_replicate; lia).
  rewrite app_assoc, take_app_length' by done. rewrite forallb_app, andb_true_iff. split.
  - clear -Hf. induction Hf as [|c l Hc _ IH]; [done|]. simpl. rewrite IH, andb_true_r.
    rewrite decode_char_shl by (by apply call_char_ascii).
    unfold call_char in Hc. rewrite Hc. done.
  - generalize (6 - List.length chars)%nat. by induction n.
Qed.

(** The addresses [encode_entry] produces are exactly the well-formed ones:
    at most six upper-case letters or digits, shifted and padded with shifted
    spaces, then the shifted SSID. *)
Theorem encode_entry_image e : (∃ name, encode_entry name = Ret (Some e)) ↔ wf_addr e.
Proof.
  split; [intros [name He]; by eapply encode_entry_wf|].
  intros Hwf. exists (decode_entry e). by apply encode_decode_wf.
Qed.

(** C37: the printed text of an encoded address is a text of the same address,
    and the address passes validation. *)
Theorem encode_decode_entry name e : encode_entry name = Ret (Some e) →
  encode_entry (decode_entry e) = Ret (Some e) ∧ validate_entry e = true.
Proof.
  intros Hwf%encode_entry_wf. split; [by apply encode_decode_wf|by apply wf_addr_validate].
Qed.

(** The text of a callsign survives encoding and decoding. *)
Lemma decode_encode_entry chars ssid : wf_call chars → 0 ≤ ssid ≤ 15 →
  (e <-! encode_entry (call_text chars ssid); Ret (decode_entry <$> e))
  = Ret (Some (call_text chars ssid)).
Proof.
  intros Hc Hs. rewrite encode_call_text by done. simpl. by rewrite decode_addr_of.
Qed.

(** C39: the accepted SSIDs, exactly: the number after the dash is truncated to
    an [i32] before its range is tested. *)
Theorem encode_entry_ssid base ds :
  (List.length base ≤ 6)%nat → Forall (λ c, is_ascii_alphanumeric c = true) base →
  ds ≠ [] → Forall (λ c, is_ascii_digit c = true) ds → digits_value 0 ds < 2 ^ 63 →
  encode_entry (base ++ 45 :: ds) =
    let v := i32 (digits_value 0 ds) in
    Ret (if (0 <=? v) && (v <=? 15) then Some (addr_of (upper base) v) else None).
Proof.
  intros Hl Hf Hne Hd Hlt. rewrite encode_entry_dash; [|done|done|].
  2: { eapply Forall_impl; [exact Hd|]. intros c Hc. unfold_char. lia. }
  by rewrite scan_int_digits.
Qed.

(** The slice after the separator panics exactly for a callsign of six
    characters followed by a character outside ASCII. *)
Theorem encode_entry_panic name : Forall is_scalar name →
  encode_entry name = Panic ↔
  ∃ base c tl, name = base ++ c :: tl ∧ List.length base = 6%nat ∧
    Forall (λ c, is_ascii_alphanumeric c = true) base ∧ 0x80 ≤ c.
Proof.
  intros Hsc. split.
  - unfold encode_entry.
    destruct (call_loop 6 (as_bytes name)) as [[chars rest]|] eqn:Hl; [|done].
    apply call_loop_inv in Hl as (base & Hb & Hf & Hlen & -> & Hend).
    case_decide as Hlt; [|done]. unfold upper in *. rewrite !length_map in *.
    assert (Forall is_ascii base) as Hasc by (eapply Forall_impl; [exact Hf|]; apply alnum_ascii).
    destruct (as_bytes_ascii_prefix _ _ _ Hsc Hasc Hb) as (t & -> & Ht & Hr).
    rewrite Hb in Hlt. rewrite length_app in Hlt.
    destruct rest as [|b0 rest]; [simpl in Hlt; lia|].
    rewrite Hb. rewrite (slice_from_cons _ rest); cycle 1.
    { rewrite drop_app_ge by lia.
      by replace (S (List.length base) - List.length base)%nat with 1%nat by lia. }
    { rewrite length_app. simpl. lia. }
    destruct rest as [|b1 rest]; [done|]. destruct (is_cont b1) eqn:Hc1; [|done]. intros _.
    destruct Ht as [|c t Hc Ht]; [done|]. rewrite as_bytes_cons in Hr.
    destruct (decide (is_ascii c)) as [Hca|Hca].
    { rewrite utf8_char_ascii in Hr by done. injection Hr as -> Hr.
      pose proof (as_bytes_head _ _ _ Ht Hr). congruence. }
    exists base, c, t. split_and!; [done| |done|unfold is_ascii, is_scalar in *; lia].
    destruct Hend as [?|[?|[r [= -> _]]]]; [done|done|].
    destruct (utf8_char_head c Hc) as (b' & r' & He & _ & _ & Hge).
    rewrite He in Hr. injection Hr as -> _. unfold is_ascii, is_scalar in *. lia.
  - intros (base & c & tl & -> & Hlen & Hf & Hc).
    assert (Forall is_ascii base) as Hasc by (eapply Forall_impl; [exact Hf|]; apply alnum_ascii).
    apply Forall_app in Hsc as [_ Hsc]. inversion Hsc as [|? ? Hcs _]; subst.
    destruct (utf8_char_tail c Hcs Hc) as (b & b' & r & He & Hcont).
    unfold encode_entry. rewrite as_bytes_app, as_bytes_cons, (as_bytes_ascii base), He by done.
    simpl ((b :: b' :: r) ++ _). rewrite call_loop_spec by auto with lia.
    unfold upper. rewrite !length_map, decide_True by (rewrite length_app; simpl; lia).
    rewrite (slice_from_cons _ (b' :: r ++ as_bytes tl)); [by rewrite Hcont| |].
    + rewrite drop_app_ge by lia.
      by replace (S (List.length base) - List.length base)%nat with 1%nat by lia.
    + rewrite length_app. simpl. lia.
Qed.

(** ** Comparison *)
Lemma wf_addr_parts e : wf_addr e →
  ∃ six ssid, List.length six = 6%nat ∧ 0 ≤ ssid ≤ 15 ∧ e = six ++ [2 * ssid] ∧
    map (λ x, Z.land x 0xFE) six = six.
Proof.
  intros (chars & ssid & [Hl Hf] & Hs & ->).
  exists (map (λ c, 2 * c) chars ++ replicate (6 - List.length chars) 64), ssid.
  split_and!; [|lia..| |].
  - rewrite length_app, length_map, length_replicate. lia.
  - unfold addr_of. by rewrite app_assoc.
  - rewrite map_app. f_equal.
    + clear -Hf. induction Hf as [|c l Hc _ IH]; [done|]. simpl. f_equal; [|done].
      apply call_char_ascii in Hc as [Hc _].
      refine (range_decide (λ c, Z.land (2 * c) 0xFE = 2 * c) 128 c _ Hc).
      vm_compute. reflexivity.
    + generalize (6 - List.length chars)%nat. intros n. induction n as [|n IH]; [done|].
      cbn [replicate map]. by f_equal.
Qed.

Lemma cmp_entry_parts six six' s s' :
  List.length six = 6%nat → List.length six' = 6%nat → 0 ≤ s ≤ 15 → 0 ≤ s' ≤ 15 →
  map (λ x, Z.land x 0xFE) six = six → map (λ x, Z.land x 0xFE) six' = six' →
  cmp_entry (six ++ [2 * s]) (six' ++ [2 * s']) =
    if decide (six = six') then if decide (s = s') then 0 else 2 else 1.
Proof.
  intros H6 H6' Hs Hs' Hm Hm'. unfold cmp_entry.
  rewrite !app_nth2, H6, H6' by lia. simpl (nth _ _ _).
  rewrite !take_app_length' by done. rewrite Hm, Hm'.
  destruct (ssid_bits s Hs) as [-> _]. destruct (ssid_bits s' Hs') as [-> _].
  case_bool_decide; [|by rewrite decide_False]. rewrite decide_True by done. simpl.
  destruct (Z.eqb_spec (2 * s) (2 * s')); case_decide; simpl; lia.
Qed.

(** C40: on well-formed addresses [cmp_entry] distinguishes identity (0, equal
    decoded texts), the same callsign under another SSID (2) and another
    callsign (1). *)
Theorem cmp_entry_spec a b : wf_addr a → wf_addr b →
  (cmp_entry a b = 0 ↔ decode_entry a = decode_entry b) ∧
  (cmp_entry a b = 2 ↔ take 6 a = take 6 b ∧ nth 6 a 0 ≠ nth 6 b 0) ∧
  (cmp_entry a b = 1 ↔ take 6 a ≠ take 6 b).
Proof.
  intros Ha Hb.
  assert (decode_entry a = decode_entry b ↔ a = b) as ->.
  { split; [|by intros ->]. by apply decode_entry_inj. }
  destruct (wf_addr_parts a Ha) as (six & s & H6 & Hs & -> & Hm).
  destruct (wf_addr_parts b Hb) as (six' & s' & H6' & Hs' & -> & Hm').
  rewrite cmp_entry_parts by done.
  rewrite !app_nth2, H6, H6' by lia. simpl (nth _ _ _).
  rewrite !take_app_length' by done.
  destruct (decide (six = six')) as [->|Hne]; [destruct (decide (s = s')) as [->|Hns]|].
  - split_and!; [done|split; [lia|by intros [_ []]]|split; [lia|done]].
  - assert (six' ++ [2 * s] ≠ six' ++ [2 * s']) as Hn.
    { intros [_ He]%app_inj_tail. lia. }
    split_and!; [split; [lia|done]|split; [split; [done|lia]|done]|split; [lia|done]].
  - assert (six ++ [2 * s] ≠ six' ++ [2 * s']) as Hn.
    { by intros [? _]%app_inj_tail. }
    split_and!; [split; [lia|done]|split; [lia|by intros [? _]]|done].
Qed.

(** ** Placing a callsign and its digipeaters *)
Lemma place_insert k x ds slots : (k < List.length slots)%nat →
  place (S k) ds (<[k := mkAx25Address (as_i8 x)]> slots) = place k (x :: ds) slots.
Proof.
  intros Hk. unfold place. simpl.
  rewrite (take_S_r _ k (mkAx25Address (as_i8 x))) by (by apply list_lookup_insert_eq).
  rewrite take_insert_ge by lia. rewrite drop_insert_lt by lia.
  rewrite <- app_assoc. simpl. by rewrite Nat.add_succ_r.
Qed.

Lemma fill_loop_step tok r k x sax :
  (k < AX25_MAX_DIGIS)%nat → encodes tok x → (k = 0%nat → is_via tok = false) →
  fill_loop (tok :: r) (S k) sax =
    if decide (S k = AX25_MAX_DIGIS) then Ret (Some (S (S k)), set_digi sax k x)
    else fill_loop r (S (S k)) (set_digi sax k x).
Proof.
  intros Hk He Hv. cbn [fill_loop].
  assert (bool_decide (S k = 1%nat) && is_via tok = false) as ->.
  { destruct k; [by rewrite Hv|done]. }
  rewrite He. simpl obind. cbv iota beta.
  rewrite (decide_False (P := (AX25_MAX_DIGIS ≤ k)%nat)) by lia.
  do 2 case_decide; try done; unfold AX25_MAX_DIGIS in *; lia.
Qed.

Lemma fill_loop_digis toks k ds sax :
  (k < AX25_MAX_DIGIS)%nat → List.length (fsa_digipeater sax) = AX25_MAX_DIGIS →
  (k = 0%nat → ∀ t r, toks = t :: r → is_via t = false) →
  Forall2 encodes (take (AX25_MAX_DIGIS - k) toks) ds →
  fill_loop toks (S k) sax =
    Ret (Some (S k + List.length ds)%nat,
         mkFullSockaddrAx25 (fsa_ax25 sax) (place k ds (fsa_digipeater sax))).
Proof.
  revert k ds sax. induction toks as [|tok toks IH]; intros k ds sax Hk Hlen Hv Hds.
  { rewrite take_nil in Hds. inversion Hds; subst. simpl. unfold place. simpl.
    rewrite !Nat.add_0_r, take_drop. by destruct sax. }
  destruct (AX25_MAX_DIGIS - k)%nat as [|m] eqn:Hm; [lia|].
  inversion Hds as [|? x ? ds' Hx Hds']; subst.
  rewrite fill_loop_step with (x := x) by eauto. case_decide as Hlast.
  - assert (m = 0%nat) as -> by lia. rewrite take_0 in Hds'. inversion Hds'; subst.
    rewrite <- place_insert by lia. unfold place, set_digi. simpl.
    do 4 f_equal; [lia|]. rewrite Nat.add_0_r, take_drop. done.
  - rewrite (IH (S k) ds'); [|lia|simpl; by rewrite length_insert|done|].
    + simpl. rewrite place_insert by lia. do 2 f_equal. f_equal. lia.
    + by replace (AX25_MAX_DIGIS - S k)%nat with m by lia.
Qed.

Lemma fill_loop_via toks sax : fill_loop toks 1 sax = fill_loop (drop_while is_via toks) 1 sax.
Proof.
  induction toks as [|t r IH]; [done|]. cbn [drop_while].
  destruct (is_via t) eqn:Hv; [|done]. cbn [fill_loop]. rewrite Hv. exact IH.
Qed.

(** [fill_sax] places the callsign and the encodings of the digipeater
    tokens in order, counts them, and leaves the other slots alone. *)
Theorem fill_sax_ok call rest c ds sax :
  List.length (fsa_digipeater sax) = AX25_MAX_DIGIS →
  encodes call c → Forall2 encodes (digi_tokens rest) ds →
  fill_sax (call :: rest) sax =
    Ret (size_of_full_sockaddr,
         mkFullSockaddrAx25
           (mkSockaddrAx25 AF_AX25 (mkAx25Address (as_i8 c)) (Z.of_nat (List.length ds)))
           (map (λ e, mkAx25Address (as_i8 e)) ds ++ drop (List.length ds) (fsa_digipeater sax)))
  ∧ (List.length ds ≤ AX25_MAX_DIGIS)%nat.
Proof.
  intros Hlen Hc Hds. split.
  2: { apply Forall2_length in Hds. rewrite <- Hds. unfold digi_tokens.
       rewrite length_take. lia. }
  unfold fill_sax. cbn [fill_loop]. simpl (bool_decide _ && _).
  unfold encodes in Hc. rewrite Hc. simpl obind. cbv iota beta.
  rewrite fill_loop_via, (fill_loop_digis _ 0 ds); [|unfold AX25_MAX_DIGIS; lia|done| |done].
  - unfold obind, place. simpl. do 3 f_equal. f_equal. lia.
  - intros _ t r Ht. by eapply drop_while_head.
Qed.

(** The first visited token that does not encode makes [fill_sax] fail,
    with family and digipeater count untouched. *)
Theorem fill_sax_bad call rest sax good bad after :
  List.length (fsa_digipeater sax) = AX25_MAX_DIGIS →
  call :: digi_tokens rest = good ++ bad :: after →
  (∀ t, t ∈ good → ∃ e, encodes t e) → encode_entry bad = Ret None →
  ∃ sax', fill_sax (call :: rest) sax = Ret (-1, sax') ∧
    sax25_family (fsa_ax25 sax') = sax25_family (fsa_ax25 sax) ∧
    sax25_ndigis (fsa_ax25 sax') = sax25_ndigis (fsa_ax25 sax).
Proof.
  intros Hlen Hsplit Hgood Hbad.
  assert (∀ toks k good after sax, (k < AX25_MAX_DIGIS)%nat →
    (k = 0%nat → ∀ t r, toks = t :: r → is_via t = false) →
    take (AX25_MAX_DIGIS - k) toks = good ++ bad :: after →
    (∀ t, t ∈ good → ∃ e, encodes t e) →
    ∃ sax', fill_loop toks (S k) sax = Ret (None, sax') ∧ fsa_ax25 sax' = fsa_ax25 sax) as Hdigis.
  { clear -Hbad. induction toks as [|tok toks IH]; intros k good after sax Hk Hv Ht Hgood.
    { rewrite take_nil in Ht. by destruct good. }
    destruct (AX25_MAX_DIGIS - k)%nat as [|m] eqn:Hm; [lia|]. simpl in Ht.
    destruct good as [|g good]; injection Ht as -> Ht.
    - cbn [fill_loop].
      assert (bool_decide (S k = 1%nat) && is_via bad = false) as ->.
      { destruct k; [rewrite (Hv eq_refl bad toks eq_refl)|]; done. }
      rewrite Hbad. simpl. by exists sax.
    - destruct (Hgood g) as [x Hx]; [left|].
      rewrite fill_loop_step with (x := x) by eauto. case_decide as Hlast.
      { assert (m = 0%nat) as -> by lia. rewrite take_0 in Ht. by destruct good. }
      destruct (IH (S k) good after (set_digi sax k x)) as (sax' & -> & Heq);
        [lia|done| |by intros t' ?; apply Hgood; right|by exists sax'].
      by replace (AX25_MAX_DIGIS - S k)%nat with m by lia. }
  unfold fill_sax. cbn [fill_loop]. simpl (bool_decide _ && _).
  destruct good as [|g good]; injection Hsplit as -> Hsplit.
  { rewrite Hbad. simpl. by exists sax. }
  destruct (Hgood g) as [c Hc]; [left|]. unfold encodes in Hc. rewrite Hc.
  simpl obind. cbv iota beta. rewrite fill_loop_via.
  destruct (Hdigis (drop_while is_via rest) 0%nat good after (set_call sax c))
    as (sax' & -> & Heq).
  - unfold AX25_MAX_DIGIS. lia.
  - intros _ t r Ht. by eapply drop_while_head.
  - done.
  - intros t Hin. apply Hgood. by right.
  - exists sax'. simpl. by rewrite Heq.
Qed.

(** ** The C functions *)
Lemma call_text_ascii chars ssid : wf_call chars → 0 ≤ ssid ≤ 15 →
  Forall is_ascii (call_text chars ssid) ∧ (0 ∉ call_text chars ssid) ∧
  (List.length (call_text chars ssid) ≤ 9)%nat.
Proof.
  intros [Hl Hf] Hs. unfold call_text.
  assert (Forall (λ c, is_ascii c ∧ c ≠ 0) chars) as Hc.
  { eapply Forall_impl; [exact Hf|]. unfold call_char. unfold_char. lia. }
  assert (Forall (λ c, is_ascii c ∧ c ≠ 0)
            (if ssid =? 0 then [] else 45 :: u8_to_string ssid)) as Hd.
  { destruct (ssid =? 0); [constructor|]. constructor; [unfold is_ascii; lia|].
    eapply Forall_impl; [apply u8_to_string_digits; lia|]. unfold_char. lia. }
  assert (Nat.le (List.length (if ssid =? 0 then [] else 45 :: u8_to_string ssid)) 3) as Hdl.
  { unfold u8_to_string. case_bools; simpl; lia. }
  pose proof (Forall_app_2 _ _ _ Hc Hd) as Hall. split_and!.
  - eapply Forall_impl; [exact Hall|]. simpl. tauto.
  - intros Hin. rewrite Forall_forall in Hall. by apply Hall in Hin as [_ []].
  - rewrite length_app. lia.
Qed.

Lemma as_u8_i8 b : Forall is_byte b → as_u8 (as_i8 b) = b.
Proof.
  unfold as_u8, as_i8. induction 1 as [|x l Hx _ IH]; [done|]. simpl.
  by rewrite u8_i8, IH.
Qed.

Lemma addr_of_bytes chars ssid : wf_call chars → 0 ≤ ssid ≤ 15 →
  Forall is_byte (addr_of chars ssid) ∧ List.length (addr_of chars ssid) = 7%nat.
Proof.
  intros [Hl Hf] Hs. unfold addr_of. split.
  - apply Forall_app_2; [|apply Forall_app_2].
    + apply Forall_map. eapply Forall_impl; [exact Hf|]. simpl.
      unfold call_char, is_byte. unfold_char. lia.
    + apply Forall_replicate. unfold is_byte. lia.
    + constructor; [unfold is_byte; lia|done].
  - rewrite !length_app, length_map, length_replicate. simpl. lia.
Qed.

Lemma is_ascii_byte c : is_ascii c → is_byte c.
Proof. unfold is_ascii, is_byte. lia. Qed.

(** C36: parsing a callsign text into seven bytes and printing those bytes
    gives the text back, through the C buffers: the rest of the caller's memory
    is untouched and the per-thread buffer keeps its sixteen bytes. *)
Theorem aton_ntoa_roundtrip chars ssid mem buf ntoa_buf :
  wf_call chars → 0 ≤ ssid ≤ 15 →
  ∃ buf', ax25_aton_entry (Some (call_text chars ssid ++ 0 :: mem)) (Some buf) = Ret (0, Some buf') ∧
    drop 7 buf' = drop 7 buf ∧
    (let out := ax25_ntoa (Some (mkAx25Address (take 7 buf'))) ntoa_buf in
     c_str (as_u8 out) = call_text chars ssid ∧
     (List.length ntoa_buf = 16%nat → List.length out = 16%nat)).
Proof.
  intros Hc Hs. destruct (call_text_ascii chars ssid Hc Hs) as (Hasc & Hnul & Hlen).
  destruct (addr_of_bytes chars ssid Hc Hs) as [Hb H7].
  exists (as_i8 (addr_of chars ssid) ++ drop 7 buf).
  assert (List.length (as_i8 (addr_of chars ssid)) = 7%nat) as H7'.
  { unfold as_i8. by rewrite length_map. }
  split_and!.
  - unfold ax25_aton_entry. rewrite c_str_app_nul by done.
    rewrite from_utf8_ascii by done. by rewrite encode_call_text.
  - by rewrite drop_app_length'.
  - unfold ax25_ntoa. simpl ax25_call. rewrite take_app_length' by done.
    rewrite as_u8_i8, decode_addr_of, as_bytes_ascii by done.
    rewrite Nat.min_l by lia. rewrite firstn_all. split.
    + unfold as_u8. rewrite !map_app. fold (as_u8 (as_i8 (call_text chars ssid))).
      rewrite as_u8_i8 by (eapply Forall_impl; [exact Hasc|apply is_ascii_byte]).
      apply c_str_app_nul. done.
    + intros H16. unfold as_i8. rewrite !length_app, length_map, length_drop. simpl. lia.
Qed.

(** Lemmas for the clients of this file. *)
Lemma cmp_entry_eq a b : wf_addr a → wf_addr b → cmp_entry a b = 0 ↔ a = b.
Proof.
  intros Ha Hb.
  destruct (wf_addr_parts a Ha) as (six & s & H6 & Hs & -> & Hm).
  destruct (wf_addr_parts b Hb) as (six' & s' & H6' & Hs' & -> & Hm').
  rewrite cmp_entry_parts by done. split.
  - repeat case_decide; [intros _; congruence|lia..].
  - intros [-> He]%app_inj_tail. rewrite !decide_True by (done || lia). done.
Qed.

Lemma wf_addr_bytes e : wf_addr e → Forall is_byte e.
Proof. intros (chars & ssid & Hc & Hs & ->). by apply addr_of_bytes. Qed.

Lemma ax25_cmp_eq a b : wf_addr a → wf_addr b →
  (ax25_cmp (Some (mkAx25Address (as_i8 a))) (Some (mkAx25Address (as_i8 b))) =? 0)
  = bool_decide (a = b).
Proof.
  intros Ha Hb. simpl. rewrite !as_u8_i8 by (by apply wf_addr_bytes).
  apply eq_true_iff_eq. rewrite Z.eqb_eq, bool_decide_eq_true. by apply cmp_entry_eq.
Qed.

Lemma null_address_wf : ax25_call null_ax25_address = as_i8 (addr_of [] 0) ∧ wf_addr (addr_of [] 0).
Proof.
  split; [reflexivity|]. exists [], 0. split_and!; [|done|done|done].
  split; [simpl; lia|constructor].
Qed.

(** * Witnesses *)
Definition e_m0lte1 : list Z := addr_of (lit "M0LTE") 1.
Definition e_g0abc : list Z := addr_of (lit "G0ABC") 0.

Lemma wf_m0lte1 : wf_addr e_m0lte1.
Proof. exists (lit "M0LTE"), 1. split; [by split; [vm_compute; lia|repeat constructor]|]. by split. Qed.

Lemma encode_decode_entry_witness :
  encode_entry (lit "m0lte-01") = Ret (Some e_m0lte1) ∧
  encode_entry (decode_entry e_m0lte1) = Ret (Some e_m0lte1) ∧ validate_entry e_m0lte1 = true.
Proof.
  split; [reflexivity|]. apply (encode_decode_entry (lit "m0lte-01")). reflexivity.
Defined.

Lemma encode_entry_ssid_witness :
  encode_entry (lit "M0LTE-4294967297") = Ret (Some (addr_of (lit "M0LTE") 1)).
Proof.
  apply (encode_entry_ssid (lit "M0LTE") (lit "4294967297")).
  - vm_compute. lia.
  - repeat constructor.
  - done.
  - repeat constructor.
  - vm_compute. reflexivity.
Defined.

(** Six characters, then U+00E9. *)
Lemma encode_entry_panic_witness : encode_entry (lit "GB7RDG" ++ [0xE9]) = Panic.
Proof.
  apply encode_entry_panic.
  - by_decide.
  - exists (lit "GB7RDG"), 0xE9, []. split_and!; [reflexivity|reflexivity| |lia].
    repeat constructor.
Defined.

Lemma cmp_entry_spec_witness :
  cmp_entry e_m0lte1 (addr_of (lit "M0LTE") 2) = 2 ∧ cmp_entry e_m0lte1 e_m0lte1 = 0.
Proof.
  split.
  - apply (cmp_entry_spec e_m0lte1 (addr_of (lit "M0LTE") 2)); [exact wf_m0lte1| |].
    + exists (lit "M0LTE"), 2. split; [by split; [vm_compute; lia|repeat constructor]|]. by split.
    + split; [reflexivity|discriminate].
  - by apply (cmp_entry_spec e_m0lte1 e_m0lte1); [exact wf_m0lte1|exact wf_m0lte1|].
Defined.

Definition empty_sax : FullSockaddrAx25 :=
  mkFullSockaddrAx25 (mkSockaddrAx25 0 (mkAx25Address (replicate 7 0)) 0)
    (replicate 8 (mkAx25Address (replicate 7 0))).

Lemma fill_sax_ok_witness :
  fill_sax [lit "M0LTE-1"; lit "via"; lit "G0ABC"] empty_sax =
    Ret (72, mkFullSockaddrAx25 (mkSockaddrAx25 3 (mkAx25Address (as_i8 e_m0lte1)) 1)
       (mkAx25Address (as_i8 e_g0abc) :: replicate 7 (mkAx25Address (replicate 7 0)))).
Proof.
  apply (fill_sax_ok (lit "M0LTE-1") [lit "via"; lit "G0ABC"] e_m0lte1 [e_g0abc] empty_sax).
  - reflexivity.
  - reflexivity.
  - constructor; [reflexivity|constructor].
Defined.

Lemma fill_sax_bad_witness :
  ∃ sax', fill_sax [lit "M0LTE-1"; lit "V"; lit "G0ABC"; lit "BAD*"] empty_sax = Ret (-1, sax') ∧
    sax25_family (fsa_ax25 sax') = 0 ∧ sax25_ndigis (fsa_ax25 sax') = 0.
Proof.
  apply (fill_sax_bad (lit "M0LTE-1") [lit "V"; lit "G0ABC"; lit "BAD*"] empty_sax
           [lit "M0LTE-1"; lit "G0ABC"] (lit "BAD*") []).
  - reflexivity.
  - reflexivity.
  - intros t Ht. apply list_elem_of_In in Ht as [<-|[<-|[]]].
    + by exists e_m0lte1.
    + by exists e_g0abc.
  - reflexivity.
Defined.

Lemma aton_ntoa_roundtrip_witness :
  ∃ buf', ax25_aton_entry (Some (lit "GB7RDG-15" ++ [0])) (Some (replicate 7 9)) = Ret (0, Some buf') ∧
    c_str (as_u8 (ax25_ntoa (Some (mkAx25Address (take 7 buf'))) (replicate 16 0))) = lit "GB7RDG-15".
Proof.
  destruct (aton_ntoa_roundtrip (lit "GB7RDG") 15 [] (replicate 7 9) (replicate 16 0))
    as (buf' & H1 & _ & H2 & _).
  - split; [vm_compute; lia|repeat constructor].
  - lia.
  - exists buf'. split; [exact H1|exact H2].
Defined.
