(* ===== verification/Config.v ===== *)
(** [crates/libax25/src/config.rs]: the [axports] and [ax25_calls] parsers and
    the table behind [ax25_config_*] and [get_call].

    The process-wide tables ([OnceLock<Mutex<..>>]) are fields of [config],
    passed through the operations; the file contents and environment variables
    the functions read are arguments.  A returned [char *] is the bytes of the
    string it points to, NULL is [None]. *)
From stdpp Require Import prelude gmap.
From Stdlib Require Import ZArith Lia String.
From S2P Require Import Prelude Str Addr.
Local Open Scope Z_scope.
Local Open Scope outcome_scope.

(** * Parsing *)
Record ParsedPort := mkParsedPort {
  pp_name : str;
  pp_call : str;
  pp_baud : Z;
  pp_paclen : Z;
  pp_window : Z;
  pp_description : str;
}.
#[export] Instance ParsedPort_eq_dec : EqDecision ParsedPort.
Proof. solve_decision. Defined.

Definition is_blank (c : Z) : bool := (c =? 32) || (c =? 9).

(** The token, and what is left in [rest]. *)
Definition pop_token (rest : str) : option str * str :=
  match trim_start rest with
  | [] => (None, [])
  | s => (Some (take_while (λ c, negb (is_blank c)) s),
          drop_while (λ c, negb (is_blank c)) s)
  end.

(** [call.find("-0")] and [call.truncate(pos)]. *)
Definition strip_dash0 (call : str) : str :=
  match find_str (lit "-0") call with
  | Some pos => take pos call
  | None => call
  end.

(** The body of the loop of [parse_axports]; [out] unchanged is [continue]. *)
Definition parse_port_line (out : list ParsedPort) (raw : str) : outcome (list ParsedPort) :=
  let line := trim_end_matches 13 raw in
  let trimmed := trim_start line in
  match trimmed with
  | [] => Ret out
  | c :: _ =>
    if c =? 35 then Ret out
    else
      let '(name, rest) := pop_token trimmed in
      let '(call, rest) := pop_token rest in
      let '(baud, rest) := pop_token rest in
      let '(paclen, rest) := pop_token rest in
      let '(window, rest) := pop_token rest in
      let desc := trim rest in
      match name, call, baud, paclen, window with
      | Some name, Some call, Some baud, Some paclen, Some window =>
        if decide (desc = []) then Ret out
        else
          let baud := default (-1) (parse_i32 baud) in
          let paclen := default 0 (parse_i32 paclen) in
          let window := default 0 (parse_i32 window) in
          if (baud <? 0) || (paclen <=? 0) || (window <=? 0) then Ret out
          else
            let call := strip_dash0 (upper call) in
            e <-! encode_entry call;
            match e with
            | None => Ret out
            | Some _ =>
              if existsb (λ p, eq_ignore_ascii_case (pp_name p) name ||
                               bool_decide (pp_call p = call)) out
              then Ret out
              else Ret (out ++ [mkParsedPort name call baud paclen window desc])
            end
      | _, _, _, _, _ => Ret out
      end
  end.

Fixpoint parse_lines {A} (body : list A → str → outcome (list A)) (out : list A)
    (ls : list str) : outcome (list A) :=
  match ls with
  | [] => Ret out
  | raw :: r => out' <-! body out raw; parse_lines body out' r
  end.

Definition parse_axports (content : str) : outcome (list ParsedPort) :=
  parse_lines parse_port_line [] (lines content).

Record CallEntry := mkCallEntry { ce_uid : Z; ce_call : str }.
#[export] Instance CallEntry_eq_dec : EqDecision CallEntry.
Proof. solve_decision. Defined.

Definition parse_call_line (out : list CallEntry) (raw : str) : outcome (list CallEntry) :=
  let line := trim_end_matches 13 raw in
  let trimmed := trim_start line in
  match trimmed with
  | [] => Ret out
  | c :: _ =>
    if c =? 35 then Ret out
    else
      let '(uid_tok, rest) := pop_token trimmed in
      let '(call_tok, rest) := pop_token rest in
      match uid_tok, call_tok with
      | Some uid_tok, Some call_tok =>
        match parse_i32 uid_tok with
        | None => Ret out
        | Some uid =>
          let call := upper call_tok in
          e <-! encode_entry call;
          match e with
          | None => Ret out
          | Some _ =>
            if existsb (λ e, ce_uid e =? uid) out then Ret out
            else Ret (out ++ [mkCallEntry uid call])
          end
        end
      | _, _ => Ret out
      end
  end.

Definition parse_calls (content : str) : outcome (list CallEntry) :=
  parse_lines parse_call_line [] (lines content).

(** * The loaded tables *)
Record CPort := mkCPort {
  cp_name : list Z;
  cp_call : list Z;
  cp_device : list Z;
  cp_description : list Z;
  name_s : str;
  call_s : str;
  device_s : str;
  cp_baud : Z;
  cp_window : Z;
  cp_paclen : Z;
}.

Record CCallEntry := mkCCallEntry { cc_uid : Z; cc_call : list Z }.

(** [PORTS], [TABLE] and [ENV_CALL]. *)
Record config := mkConfig {
  ports : list CPort;
  call_table : list CCallEntry;
  env_call : option (list Z);
}.

Definition star : list Z := lit "*".

Definition to_cport (p : ParsedPort) : CPort :=
  mkCPort (cstring_or_default (pp_name p)) (cstring_or_default (pp_call p))
    (cstring_or_default (pp_name p)) (cstring_or_default (pp_description p))
    (pp_name p) (pp_call p) (pp_name p) (pp_baud p) (pp_window p) (pp_paclen p).

(** [file] is the outcome of [read_to_string(axports_path())]. *)
Definition ax25_config_load_ports (guard : list CPort) (file : option str) :
    outcome (Z * list CPort) :=
  match guard with
  | _ :: _ => Ret (i32 (Z.of_nat (List.length guard)), guard)
  | [] =>
    match file with
    | None => Ret (0, guard)
    | Some content =>
      parsed <-! parse_axports content;
      let guard := guard ++ map to_cport parsed in
      Ret (i32 (Z.of_nat (List.length guard)), guard)
    end
  end.

Definition norm_call (s : str) : str :=
  let s := upper s in
  match split_once 45 s with
  | Some (base, ssid) => if decide (ssid = lit "0") then base else s
  | None => s
  end.

Definition is_same_call (a b : str) : bool := bool_decide (norm_call a = norm_call b).

Definition find_index (guard : list CPort) (query : str) : option nat :=
  position (λ p, eq_ignore_ascii_case (name_s p) query || is_same_call (call_s p) query) guard.

Definition cstr_arg (p : option (list Z)) : option str := p ≫= λ mem, from_utf8 (c_str mem).

Definition ax25_config_get_next (guard : list CPort) (name : option (list Z)) : option (list Z) :=
  match guard with
  | [] => None
  | p0 :: _ =>
    match name with
    | None => Some (cp_name p0)
    | Some _ =>
      q ← cstr_arg name;
      i ← find_index guard q;
      cp_name <$> guard !! S i
    end
  end.

Definition ax25_config_get_name (guard : list CPort) (device : option (list Z)) : option (list Z) :=
  dev ← cstr_arg device;
  cp_name <$> List.find (λ p, bool_decide (device_s p = dev)) guard.

(** The lookups by port name or callsign share one shape. *)
Definition get_field {A} (f : CPort → A) (guard : list CPort) (name : option (list Z)) : option A :=
  q ← cstr_arg name;
  i ← find_index guard q;
  f <$> guard !! i.

Definition ax25_config_get_addr := get_field cp_call.
Definition ax25_config_get_dev := get_field cp_device.
Definition ax25_config_get_desc := get_field cp_description.
Definition ax25_config_get_window guard name : Z := default 0 (get_field cp_window guard name).
Definition ax25_config_get_paclen guard name : Z := default 0 (get_field cp_paclen guard name).
Definition ax25_config_get_baud guard name : Z := default 0 (get_field cp_baud guard name).

(** The loop of [ax25_config_get_port]. *)
Fixpoint port_of_address (guard : list CPort) (callsign : Ax25Address) : outcome (option (list Z)) :=
  match guard with
  | [] => Ret None
  | p :: r =>
    e <-! encode_entry (call_s p);
    match e with
    | Some entry =>
      if ax25_cmp (Some callsign) (Some (mkAx25Address (as_i8 entry))) =? 0
      then Ret (Some (cp_name p)) else port_of_address r callsign
    | None => port_of_address r callsign
    end
  end.

Definition ax25_config_get_port (guard : list CPort) (callsign : option Ax25Address) :
    outcome (option (list Z)) :=
  match callsign with
  | None => Ret None
  | Some a =>
    if ax25_cmp callsign (Some null_ax25_address) =? 0 then Ret (Some star)
    else port_of_address guard a
  end.

Definition load_calls (guard : list CCallEntry) (file : option str) : outcome (list CCallEntry) :=
  match guard with
  | _ :: _ => Ret guard
  | [] =>
    match file with
    | None => Ret guard
    | Some content =>
      parsed <-! parse_calls content;
      Ret (guard ++ map (λ e, mkCCallEntry (ce_uid e) (cstring_or_default (ce_call e))) parsed)
    end
  end.

(** [get_call]: [env] is [AX25_CALLSIGN], [file] the uid map. *)
Definition get_call (st : config) (env : option str) (file : option str) (uid : Z) :
    outcome (config * option (list Z)) :=
  let slot := match env with
              | Some (c :: call) =>
                match env_call st with
                | Some cs => Some cs
                | None => cstring_new (c :: call)
                end
              | _ => None
              end in
  let st := match env with
            | Some (_ :: _) => mkConfig (ports st) (call_table st) slot
            | _ => st
            end in
  match slot with
  | Some cs => Ret (st, Some cs)
  | None =>
    table <-! load_calls (call_table st) file;
    let st := mkConfig (ports st) table (env_call st) in
    match List.find (λ e, cc_uid e =? uid) table with
    | Some entry => Ret (st, Some (cc_call entry))
    | None => Ret (st, cp_call <$> head (ports st))
    end
  end.

Definition sample : str := lit "# axports sample
# name callsign speed paclen window description
radio   M0LTE-1   9600   255    4      2m packet via pdn
hf      GB7RDG-0  1200   128    2      HF gateway

144     G0ABC     9600   256    7      spare port
".
Example parse_sample :
  parse_axports sample = Ret
    [mkParsedPort (lit "radio") (lit "M0LTE-1") 9600 255 4 (lit "2m packet via pdn");
     mkParsedPort (lit "hf") (lit "GB7RDG") 1200 128 2 (lit "HF gateway");
     mkParsedPort (lit "144") (lit "G0ABC") 9600 256 7 (lit "spare port")].
Proof. vm_compute. reflexivity. Qed.
Example parse_uid_map :
  parse_calls (lit "# comment
0 M0LTE

notanum G0XYZ
1000
1001 !!!invalid!!!
") = Ret [mkCallEntry 0 (lit "M0LTE")].
Proof. vm_compute. reflexivity. Qed.

(** * Well-formed tables *)
Definition lower (s : str) : str := map to_ascii_lowercase s.

(** A field of a line: no blank or line feed inside, no white space first. *)
Definition wf_field (t : str) : Prop :=
  Forall (λ c, is_blank c = false ∧ c ≠ 10) t ∧
  ∀ c, head t = Some c → is_whitespace c = false.

Definition wf_port (p : ParsedPort) : Prop :=
  (wf_field (pp_name p) ∧ pp_name p ≠ [] ∧ head (pp_name p) ≠ Some 35) ∧
  (wf_field (pp_call p) ∧ upper (pp_call p) = pp_call p ∧
   find_str (lit "-0") (pp_call p) = None ∧ ∃ e, encodes (pp_call p) e) ∧
  0 ≤ pp_baud p < 2 ^ 31 ∧ 0 < pp_paclen p < 2 ^ 31 ∧ 0 < pp_window p < 2 ^ 31 ∧
  pp_description p ≠ [] ∧ trim (pp_description p) = pp_description p ∧
  (10 ∉ pp_description p).

(** No two entries share a name, up to ASCII case, or a callsign. *)
Definition wf_ports (l : list ParsedPort) : Prop :=
  Forall wf_port l ∧ NoDup (map (λ p, lower (pp_name p)) l) ∧ NoDup (map pp_call l).

(** The line of an entry, and the file of a table. *)
Definition print_port (p : ParsedPort) : str :=
  pp_name p ++ 32 :: pp_call p ++ 32 :: dec (pp_baud p) ++ 32 :: dec (pp_paclen p) ++
  32 :: dec (pp_window p) ++ 32 :: pp_description p.
Definition print_ports (l : list ParsedPort) : str := l ≫= λ p, print_port p ++ [10].

(** What a port enumeration returns: [ax25_config_get_next] from NULL, then
    from each name it returned, for at most [fuel] names. *)
Fixpoint names_from (fuel : nat) (guard : list CPort) (cur : option (list Z)) : list (list Z) :=
  match fuel with
  | O => []
  | S fuel =>
    match ax25_config_get_next guard cur with
    | None => []
    | Some n => n :: names_from fuel guard (Some n)
    end
  end.

(** A text a C string can carry. *)
Definition c_text (s : str) : Prop := Forall is_scalar s ∧ (0 ∉ s).

(** No callsign of an earlier entry is taken for the name of entry [i]. *)
Definition name_found (l : list ParsedPort) (i : nat) : Prop :=
  ∀ j p q, (j < i)%nat → l !! i = Some p → l !! j = Some q →
    is_same_call (pp_call q) (pp_name p) = false.

(** ** Tokens *)
Lemma pop_token_Some s t r : pop_token s = (Some t, r) → (10 ∉ s) →
  t ≠ [] ∧ wf_field t ∧ (10 ∉ r) ∧ head t = head (trim_start s).
Proof.
  unfold pop_token. intros Hp Hn.
  assert (10 ∉ trim_start s) as Hn' by (intros Hin; by apply Hn, trim_start_elem).
  destruct (trim_start s) as [|c s'] eqn:Hs; [done|].
  assert (is_whitespace c = false) as Hc by (by eapply drop_while_head).
  assert (is_blank c = false) as Hb by (unfold is_blank; unfold_char; lia).
  injection Hp as <- <-. pose proof (take_drop_while (λ c, negb (is_blank c)) (c :: s')) as Hsplit.
  split_and!.
  - simpl. by rewrite Hb.
  - split.
    + pose proof (take_while_Forall (λ c, negb (is_blank c)) (c :: s')) as Hf.
      rewrite Forall_forall in *. intros x Hx. split; [by apply negb_true_iff, Hf|].
      intros ->. apply Hn'. rewrite <- Hsplit. apply elem_of_app. by left.
    + simpl. rewrite Hb. simpl. by intros ? [= <-].
  - intros Hx. apply Hn'. rewrite <- Hsplit. apply elem_of_app. by right.
  - simpl. by rewrite Hb.
Qed.

Lemma pop_token_None s r : pop_token s = (None, r) → r = [].
Proof. unfold pop_token. destruct (trim_start s); by intros [= <-]. Qed.

Lemma pop_token_rest s t r : pop_token s = (t, r) → (10 ∉ s) → (10 ∉ r).
Proof.
  destruct t as [t|]; [intros Hp Hn; by destruct (pop_token_Some s t r Hp Hn) as (_ & _ & ? & _)|].
  intros ->%pop_token_None _. apply not_elem_of_nil.
Qed.

Lemma pop_token_field t r : t ≠ [] → wf_field t → pop_token (t ++ 32 :: r) = (Some t, 32 :: r).
Proof.
  intros Hne [Hf Hh]. unfold pop_token.
  assert (Forall (λ c, negb (is_blank c) = true) t) as Hb.
  { eapply Forall_impl; [exact Hf|]. by intros c [-> _]. }
  assert (trim_start (t ++ 32 :: r) = t ++ 32 :: r) as ->.
  { destruct t as [|c t]; [done|]. unfold trim_start. simpl.
    by rewrite (Hh c eq_refl). }
  destruct (t ++ 32 :: r) as [|x l] eqn:He; [by destruct t|]. rewrite <- He.
  rewrite take_while_app_all, drop_while_app_all by done. simpl.
  by rewrite app_nil_r.
Qed.

Lemma pop_token_blank s : pop_token (32 :: s) = pop_token s.
Proof. done. Qed.

(** ** Stripping the zero SSID *)
Lemma find_str_take p s i : find_str p s = Some i → (0 < List.length p)%nat →
  find_str p (take i s) = None.
Proof.
  intros Hf Hp. revert i Hf. induction s as [|c s IH]; intros i; cbn [find_str].
  { destruct (starts_with p []) eqn:Hs; [|done]. intros [= <-]. simpl. destruct p; [simpl in *; lia|done]. }
  destruct (starts_with p (c :: s)) eqn:Hs.
  { intros [= <-]. simpl. destruct p; [simpl in *; lia|done]. }
  intros Hf. apply fmap_Some in Hf as (j & Hj & ->). cbn [take find_str].
  rewrite IH by done.
  destruct (starts_with p (c :: take j s)) eqn:Hs'; [|done].
  exfalso. assert (starts_with p (c :: s) = true); [|congruence].
  clear -Hs'. revert Hs'. change (c :: take j s) with (take (S j) (c :: s)).
  generalize (S j) (c :: s). clear. induction p as [|a p IH]; intros n l; [done|].
  destruct l as [|b l]; [by rewrite take_nil|]. destruct n as [|n]; [done|]. simpl.
  rewrite !andb_true_iff. intros [-> ?]. split; [done|]. by eapply IH.
Qed.

Lemma strip_dash0_spec call :
  find_str (lit "-0") (strip_dash0 call) = None ∧ ∃ r, call = strip_dash0 call ++ r.
Proof.
  unfold strip_dash0. destruct (find_str (lit "-0") call) as [i|] eqn:Hf.
  - split; [apply find_str_take; [done|simpl; lia]|]. exists (drop i call). by rewrite take_drop.
  - split; [done|]. exists []. by rewrite app_nil_r.
Qed.

Lemma wf_field_prefix t r : wf_field (t ++ r) → wf_field t.
Proof.
  intros [[Hf _]%Forall_app Hh]. split; [done|]. intros c Hc. apply Hh. by destruct t.
Qed.

Lemma upper_blank c : is_blank (to_ascii_uppercase c) = is_blank c ∧
  (to_ascii_uppercase c = 10 ↔ c = 10) ∧
  is_whitespace (to_ascii_uppercase c) = is_whitespace c.
Proof. unfold is_blank. unfold_char. split_and!; case_bools; lia. Qed.

Lemma wf_field_upper t : wf_field t → wf_field (upper t).
Proof.
  intros [Hf Hh]. split.
  - apply Forall_map. eapply Forall_impl; [exact Hf|]. intros c [Hb Hn]. simpl.
    destruct (upper_blank c) as (-> & -> & _). done.
  - intros c Hc. destruct t as [|d t]; [done|]. injection Hc as <-.
    destruct (upper_blank d) as (_ & _ & ->). by apply Hh.
Qed.

Lemma upper_app s t : upper (s ++ t) = upper s ++ upper t.
Proof. apply map_app. Qed.

Lemma upper_upper s : upper (upper s) = upper s.
Proof. unfold upper. rewrite map_map. apply map_ext. apply to_ascii_uppercase_idemp. Qed.

Lemma upper_prefix s r t : upper s = t ++ r → upper t = t.
Proof.
  intros He. pose proof (upper_upper s) as Hu. rewrite He, upper_app in Hu.
  apply app_inj_1 in Hu as [? _]; [done|]. unfold upper. by rewrite length_map.
Qed.

(** ** The parser's invariant *)
Lemma wf_ports_snoc l p : wf_ports l → wf_port p →
  existsb (λ q, eq_ignore_ascii_case (pp_name q) (pp_name p) ||
                bool_decide (pp_call q = pp_call p)) l = false →
  wf_ports (l ++ [p]).
Proof.
  intros (Hf & Hn & Hc) Hp Hex.
  assert (∀ q, q ∈ l → lower (pp_name q) ≠ lower (pp_name p) ∧ pp_call q ≠ pp_call p) as Hd.
  { intros q Hq. apply list_elem_of_In in Hq.
    destruct (eq_ignore_ascii_case (pp_name q) (pp_name p) || bool_decide (pp_call q = pp_call p)) eqn:Hb.
    - exfalso. assert (existsb (λ q, eq_ignore_ascii_case (pp_name q) (pp_name p) ||
        bool_decide (pp_call q = pp_call p)) l = true) as Ht by (apply existsb_exists; eauto).
      congruence.
    - apply orb_false_iff in Hb as [H1 H2]. unfold eq_ignore_ascii_case in H1.
      apply bool_decide_eq_false in H1. by apply bool_decide_eq_false in H2. }
  split_and!.
  - by apply Forall_app_2; [|constructor].
  - rewrite map_app. apply NoDup_app. split_and!; [done| |apply NoDup_singleton].
    intros x (q & -> & Hq)%list_elem_of_fmap. simpl. rewrite list_elem_of_singleton.
    by apply Hd.
  - rewrite map_app. apply NoDup_app. split_and!; [done| |apply NoDup_singleton].
    intros x (q & -> & Hq)%list_elem_of_fmap. simpl. rewrite list_elem_of_singleton.
    by apply Hd.
Qed.

Lemma wf_call_field c : wf_field c → wf_field (strip_dash0 (upper c)) ∧
  upper (strip_dash0 (upper c)) = strip_dash0 (upper c) ∧
  find_str (lit "-0") (strip_dash0 (upper c)) = None.
Proof.
  intros Hc%wf_field_upper. destruct (strip_dash0_spec (upper c)) as [Hf [r Hr]].
  split_and!; [|by eapply upper_prefix|done].
  apply (wf_field_prefix _ r). by rewrite <- Hr.
Qed.

Lemma trim_trim s : trim (trim s) = trim s.
Proof.
  unfold trim at 1. destruct (trim s) as [|c t] eqn:Ht; [done|].
  assert (∃ d, last (c :: t) = Some d ∧ is_whitespace d = false) as (d & Hd & Hwd).
  { unfold trim, trim_end in Ht.
    destruct (drop_while is_whitespace (reverse (trim_start s))) as [|x l] eqn:Hr; [done|].
    exists x. rewrite <- Ht, reverse_cons, last_snoc. split; [done|]. by eapply drop_while_head. }
  assert (is_whitespace c = false) as Hc.
  { unfold trim, trim_end in Ht.
    destruct (drop_while_suffix is_whitespace (reverse (trim_start s))) as [w Hw].
    rewrite <- (reverse_involutive (drop_while _ _)), Ht in Hw.
    apply (f_equal reverse) in Hw. rewrite reverse_involutive, reverse_app, reverse_involutive in Hw.
    by eapply drop_while_head. }
  unfold trim_start. simpl. rewrite Hc. unfold trim_end. by eapply drop_while_reverse_last.
Qed.

(** A line that lacks a token is skipped. *)
Ltac drop_tokens := repeat destruct (pop_token _) as [[?|] ?]; by intros [= <-].

Lemma parse_port_line_wf out raw out' : (10 ∉ raw) → wf_ports out →
  parse_port_line out raw = Ret out' → wf_ports out'.
Proof.
  intros Hraw Hwf. unfold parse_port_line.
  destruct (trim_start (trim_end_matches 13 raw)) as [|c l] eqn:Ht; [by intros [= <-]|].
  destruct (Z.eqb_spec c 35) as [|Hc]; [by intros [= <-]|].
  assert (10 ∉ c :: l) as Hn0.
  { rewrite <- Ht. intros Hin. by apply Hraw, trim_end_matches_elem with (x := 13), trim_start_elem. }
  assert (trim_start (c :: l) = c :: l) as Hts by (rewrite <- Ht; apply drop_while_idemp).
  destruct (pop_token (c :: l)) as [[name|] r1] eqn:P1; [|drop_tokens].
  destruct (pop_token_Some _ _ _ P1 Hn0) as (Hne & Hname & Hn1 & Hhd).
  destruct (pop_token r1) as [[call|] r2] eqn:P2; [|drop_tokens].
  destruct (pop_token_Some _ _ _ P2 Hn1) as (_ & Hcall & Hn2 & _).
  destruct (pop_token r2) as [[baud|] r3] eqn:P3; [|drop_tokens].
  pose proof (pop_token_rest _ _ _ P3 Hn2) as Hn3.
  destruct (pop_token r3) as [[paclen|] r4] eqn:P4; [|drop_tokens].
  pose proof (pop_token_rest _ _ _ P4 Hn3) as Hn4.
  destruct (pop_token r4) as [[window|] r5] eqn:P5; [|by intros [= <-]].
  pose proof (pop_token_rest _ _ _ P5 Hn4) as Hn5.
  case_decide as Hdesc; [by intros [= <-]|].
  destruct ((default (-1) (parse_i32 baud) <? 0) || (default 0 (parse_i32 paclen) <=? 0) ||
            (default 0 (parse_i32 window) <=? 0)) eqn:Hnum; [by intros [= <-]|].
  intros (e & He & Hret)%obind_ret. destruct e as [e|]; [|by injection Hret as <-].
  destruct (existsb _ out) eqn:Hex; injection Hret as <-; [done|].
  apply wf_ports_snoc; [done| |done].
  destruct (wf_call_field call Hcall) as (H1 & H2 & H3).
  split_and!; simpl; try done; try (by eexists).
  all: repeat match goal with |- context [parse_i32 ?s] =>
         let E := fresh in destruct (parse_i32 s) eqn:E; [apply parse_i32_range in E|]; simpl in *
       end; try lia.
  - rewrite Hhd, Hts. simpl. congruence.
  - apply trim_trim.
  - intros Hin. by apply Hn5, trim_elem.
Qed.

Lemma parse_lines_inv {A} (P : list A → Prop) (body : list A → str → outcome (list A)) :
  (∀ out raw out', (10 ∉ raw) → P out → body out raw = Ret out' → P out') →
  ∀ ls out out', Forall (λ l, (10 ∉ l)) ls → P out →
    parse_lines body out ls = Ret out' → P out'.
Proof.
  intros Hbody ls. induction ls as [|raw ls IH]; intros out out' Hls Hp; simpl.
  { by intros [= <-]. }
  apply Forall_cons in Hls as [Hraw Hls].
  intros (out1 & H1 & H2)%obind_ret. eapply IH; [done| |done]. by eapply Hbody.
Qed.

(** Every table [parse_axports] returns is well formed: encodable, distinct
    upper-case callsigns without a zero SSID, names distinct up to case, numbers
    in range and a description. *)
Theorem parse_axports_wf content l : parse_axports content = Ret l → wf_ports l.
Proof.
  intros Hp. eapply (parse_lines_inv wf_ports); [|apply (lines_no_newline content)| |exact Hp].
  - intros out raw out'. apply parse_port_line_wf.
  - split_and!; [done|constructor|constructor].
Qed.

(** ** Printing and parsing *)
Lemma wf_field_digits t : Forall (λ c, is_ascii_digit c = true) t → wf_field t.
Proof.
  intros Hd. split.
  - eapply Forall_impl; [exact Hd|]. unfold is_blank. unfold_char. lia.
  - intros c Hc. destruct Hd as [|d t Hd _]; [done|]. injection Hc as <-.
    unfold_char. lia.
Qed.

Lemma wf_field_no_newline t : wf_field t → (10 ∉ t).
Proof. intros [Hf _] Hin. rewrite Forall_forall in Hf. by apply Hf in Hin as [_ ?]. Qed.

Lemma strip_dash0_id c : find_str (lit "-0") c = None → strip_dash0 c = c.
Proof. unfold strip_dash0. by intros ->. Qed.

Lemma print_port_last p : wf_port p →
  ∃ c, last (print_port p) = Some c ∧ is_whitespace c = false.
Proof.
  intros (_ & _ & _ & _ & _ & Hne & Ht & _).
  destruct (last (pp_description p)) as [c|] eqn:Hl.
  - exists c. split; [|by apply (trim_ends _ c Ht); right]. unfold print_port.
    assert (∀ s (l : str) x, last l = Some x → last (s ++ 32 :: l) = Some x) as Hlast.
    { intros s l x Hx. by rewrite last_app, last_cons, Hx. }
    by repeat apply Hlast.
  - by apply last_None in Hl.
Qed.

Lemma parse_port_line_print out p : wf_port p → pp_call p ≠ [] →
  existsb (λ q, eq_ignore_ascii_case (pp_name q) (pp_name p) ||
                bool_decide (pp_call q = pp_call p)) out = false →
  parse_port_line out (print_port p) = Ret (out ++ [p]).
Proof.
  intros Hwf Hcne Hex. destruct (print_port_last p Hwf) as (z & Hz & Hzw).
  destruct Hwf as ((Hname & Hnne & Hhash) & (Hcall & Hup & Hd0 & e & He) & Hb & Hp & Hw & Hdne & Htd & Hdn).
  unfold parse_port_line.
  rewrite (trim_end_matches_id 13 _ z) by (done || (unfold_char; lia)).
  assert (∃ c l, print_port p = c :: l ∧ is_whitespace c = false ∧ c ≠ 35) as (c & l & Hcl & Hcw & Hc35).
  { unfold print_port. destruct (pp_name p) as [|c l] eqn:Hn; [done|].
    exists c, (l ++ 32 :: pp_call p ++ 32 :: dec (pp_baud p) ++ 32 :: dec (pp_paclen p) ++
      32 :: dec (pp_window p) ++ 32 :: pp_description p).
    split_and!; [done|by apply Hname|intros ->; by apply Hhash]. }
  assert (trim_start (print_port p) = print_port p) as ->.
  { by apply (drop_while_none _ _ c l). }
  rewrite Hcl. destruct (Z.eqb_spec c 35) as [|_]; [done|]. rewrite <- Hcl.
  destruct (dec_spec (pp_baud p)) as (_ & Hbd & Hbn); [lia|].
  destruct (dec_spec (pp_paclen p)) as (_ & Hpd & Hpn); [lia|].
  destruct (dec_spec (pp_window p)) as (_ & Hwd & Hwn); [lia|].
  apply wf_field_digits in Hbd, Hpd, Hwd.
  unfold print_port. rewrite (pop_token_field (pp_name p)) by assumption.
  do 4 (rewrite pop_token_blank, pop_token_field by assumption).
  change (trim (32 :: pp_description p)) with (trim (pp_description p)). rewrite Htd.
  rewrite decide_False by done. rewrite !parse_i32_dec by lia. simpl default.
  assert ((pp_baud p <? 0) || (pp_paclen p <=? 0) || (pp_window p <=? 0) = false) as -> by lia.
  rewrite Hup, strip_dash0_id by done. unfold encodes in He. rewrite He. simpl obind.
  cbv iota beta. rewrite Hex. by destruct p.
Qed.

Lemma print_port_no_newline p : wf_port p → (10 ∉ print_port p).
Proof.
  intros ((Hname & _) & (Hcall & _) & Hb & Hp & Hw & _ & _ & Hdn).
  assert (∀ z, 0 ≤ z < 2 ^ 31 → (10 ∉ dec z)) as Hdec.
  { intros z Hz. destruct (dec_spec z Hz) as (_ & Hd & _).
    by apply wf_field_no_newline, wf_field_digits. }
  unfold print_port. rewrite !not_elem_of_app, !not_elem_of_cons, !not_elem_of_app,
    !not_elem_of_cons, !not_elem_of_app, !not_elem_of_cons, !not_elem_of_app, !not_elem_of_cons.
  repeat (split; [first [by apply wf_field_no_newline|by apply Hdec; lia|lia]|]).
  rewrite !not_elem_of_app, !not_elem_of_cons.
  repeat (split; [first [by apply Hdec; lia|lia]|]). done.
Qed.

Lemma wf_ports_fresh out p l : wf_ports (out ++ p :: l) →
  wf_port p ∧
  existsb (λ q, eq_ignore_ascii_case (pp_name q) (pp_name p) ||
                bool_decide (pp_call q = pp_call p)) out = false.
Proof.
  intros (Hf & Hn & Hc). apply Forall_app in Hf as [_ [Hp _]%Forall_cons].
  split; [done|]. apply not_true_iff_false. intros (q & Hq & Heq)%existsb_exists.
  apply list_elem_of_In in Hq. rewrite map_app in Hn, Hc.
  apply NoDup_app in Hn as (_ & Hn & _). apply NoDup_app in Hc as (_ & Hc & _).
  apply orb_true_iff in Heq as [Heq|Heq]; [unfold eq_ignore_ascii_case in Heq|];
    apply bool_decide_eq_true in Heq.
  - apply (Hn (lower (pp_name q))); [by apply (list_elem_of_fmap_2 (λ p, lower (pp_name p)))|].
    simpl. rewrite elem_of_cons. by left.
  - apply (Hc (pp_call q)); [by apply (list_elem_of_fmap_2 pp_call)|].
    simpl. rewrite elem_of_cons. by left.
Qed.

(** C38: a well-formed table whose callsigns are not empty is read back from its
    printed file. *)
Theorem parse_print_axports l : wf_ports l → Forall (λ p, pp_call p ≠ []) l →
  parse_axports (print_ports l) = Ret l.
Proof.
  intros Hwf Hne. unfold parse_axports.
  assert (∀ out, wf_ports (out ++ l) →
    parse_lines parse_port_line out (lines (print_ports l)) = Ret (out ++ l)) as Hgo;
    [|by apply Hgo].
  clear Hwf. induction Hne as [|p l Hp _ IH]; intros out Hwf.
  { by rewrite app_nil_r. }
  destruct (wf_ports_fresh out p l Hwf) as [Hwp Hex].
  change (print_ports (p :: l)) with ((print_port p ++ [10]) ++ print_ports l).
  rewrite <- app_assoc. simpl app. destruct (print_port_last p Hwp) as (c & Hl & Hc).
  rewrite lines_app_newline; cycle 1.
  { by apply print_port_no_newline. }
  { rewrite Hl. intros [= ->]. done. }
  simpl parse_lines. rewrite parse_port_line_print by done. simpl obind.
  rewrite IH by (by rewrite <- app_assoc). by rewrite <- app_assoc.
Qed.

(** ** The loaded table *)
Lemma cstring_or_default_text s : c_text s → cstring_or_default s = as_bytes s.
Proof. intros [_ H0]. unfold cstring_or_default, cstring_new. by rewrite decide_False. Qed.

Lemma as_bytes_nul s : Forall is_scalar s → 0 ∈ as_bytes s → 0 ∈ s.
Proof.
  intros Hs. induction Hs as [|c s Hc _ IH]; [done|].
  rewrite as_bytes_cons, elem_of_app, elem_of_cons. intros [Hin|Hin]; [left|right; by apply IH].
  destruct (decide (is_ascii c)) as [Ha|Ha].
  { rewrite utf8_char_ascii in Hin by done. by apply list_elem_of_singleton in Hin. }
  destruct (utf8_char_head c Hc) as (b & r & He & _ & Hr & Hge). rewrite He in Hin.
  apply elem_of_cons in Hin as [<-|Hin].
  - unfold is_ascii, is_scalar in *. lia.
  - rewrite Forall_forall in Hr. by apply Hr in Hin.
Qed.

Lemma c_str_text s : c_text s → c_str (as_bytes s) = as_bytes s.
Proof.
  intros [Hs H0]. unfold c_str. rewrite <- (app_nil_r (as_bytes s)) at 1.
  rewrite take_while_app_all; [apply app_nil_r|].
  apply Forall_forall. intros x Hx. destruct (Z.eqb_spec x 0) as [->|]; [|done].
  exfalso. by apply H0, as_bytes_nul.
Qed.

Lemma cstr_arg_text s : c_text s → cstr_arg (Some (as_bytes s)) = Some s.
Proof.
  intros Hs. unfold cstr_arg. simpl. rewrite c_str_text by done.
  apply from_utf8_as_bytes, Hs.
Qed.

Lemma find_index_name l i p : NoDup (map (λ p, lower (pp_name p)) l) → name_found l i →
  l !! i = Some p → find_index (map to_cport l) (pp_name p) = Some i.
Proof.
  intros Hnd Hf Hi. apply position_Some. split.
  - exists (to_cport p). rewrite list_lookup_fmap, Hi. split; [done|]. simpl.
    by rewrite eq_ignore_ascii_case_refl.
  - intros j q Hj Hq. rewrite list_lookup_fmap in Hq.
    apply fmap_Some in Hq as (q' & Hq' & ->). simpl.
    rewrite (Hf j p q' Hj Hi Hq'), orb_false_r.
    apply bool_decide_eq_false. intros He.
    assert (j = i); [|lia]. apply (NoDup_lookup _ j i (lower (pp_name p)) Hnd).
    + rewrite list_lookup_fmap, Hq'. simpl. by f_equal.
    + by rewrite list_lookup_fmap, Hi.
Qed.

Lemma get_next_at l i p : NoDup (map (λ p, lower (pp_name p)) l) → name_found l i →
  c_text (pp_name p) → l !! i = Some p →
  ax25_config_get_next (map to_cport l) (Some (cp_name (to_cport p))) =
    (λ p, cp_name (to_cport p)) <$> l !! S i.
Proof.
  intros Hnd Hf Ht Hi. unfold ax25_config_get_next.
  destruct (map to_cport l) as [|p0 g] eqn:Hg.
  { apply fmap_nil_inv in Hg as ->. done. }
  rewrite <- Hg. simpl cp_name. rewrite cstring_or_default_text, cstr_arg_text by done. simpl.
  rewrite (find_index_name l i p) by done. simpl.
  rewrite list_lookup_fmap. by destruct (l !! S i).
Qed.

(** When no port is named like the callsign of an earlier one, following
    [ax25_config_get_next] from NULL lists every port once, in file order, and
    ends. *)
Theorem get_next_enumerates l fuel : NoDup (map (λ p, lower (pp_name p)) l) →
  Forall (λ p, c_text (pp_name p)) l → (∀ i, name_found l i) → (List.length l < fuel)%nat →
  names_from fuel (map to_cport l) None = map (λ p, as_bytes (pp_name p)) l.
Proof.
  intros Hnd Ht Hf Hfuel.
  assert (∀ f i p, l !! i = Some p → (List.length l - S i < f)%nat →
    names_from f (map to_cport l) (Some (cp_name (to_cport p))) =
    map (λ p, as_bytes (pp_name p)) (drop (S i) l)) as Hgo.
  { induction f as [|f IH]; intros i p Hi Hlt; [lia|]. cbn [names_from].
    assert (c_text (pp_name p)) as Htp by exact (Forall_lookup_1 _ _ _ _ Ht Hi).
    rewrite get_next_at with (i := i) by done.
    destruct (l !! S i) as [q|] eqn:Hq; cbn [fmap option_fmap option_map].
    - rewrite (IH (S i) q Hq) by (apply lookup_lt_Some in Hq; lia).
      rewrite (drop_S _ q (S i)) by done. cbn [map]. f_equal.
      apply cstring_or_default_text. exact (Forall_lookup_1 _ _ _ _ Ht Hq).
    - apply lookup_ge_None in Hq. by rewrite drop_ge. }
  destruct fuel as [|fuel]; [lia|]. destruct l as [|p l]; [done|].
  cbn [names_from map]. simpl ax25_config_get_next. simpl cp_name.
  rewrite cstring_or_default_text by (by inversion Ht). f_equal.
  assert (as_bytes (pp_name p) = cp_name (to_cport p)) as ->.
  { simpl. by rewrite cstring_or_default_text by (by inversion Ht). }
  apply (Hgo fuel 0%nat p); [done|]. simpl in *. lia.
Qed.

Definition cyclic_axports : str := lit "p1 G0ABC 9600 255 4 first
G0ABC M0LTE 9600 255 4 second
".
Definition cyclic_ports : list ParsedPort :=
  [mkParsedPort (lit "p1") (lit "G0ABC") 9600 255 4 (lit "first");
   mkParsedPort (lit "G0ABC") (lit "M0LTE") 9600 255 4 (lit "second")].

(** A port named like the callsign of an earlier port makes the enumeration
    return that port for ever. *)
Theorem get_next_cycles fuel :
  parse_axports cyclic_axports = Ret cyclic_ports ∧
  List.length (names_from fuel (map to_cport cyclic_ports) None) = fuel.
Proof.
  split; [vm_compute; reflexivity|].
  assert (∀ f, List.length (names_from f (map to_cport cyclic_ports) (Some (lit "G0ABC"))) = f) as Hloop.
  { induction f as [|f IH]; [done|]. cbn [names_from].
    assert (ax25_config_get_next (map to_cport cyclic_ports) (Some (lit "G0ABC"))
            = Some (lit "G0ABC")) as -> by (vm_compute; reflexivity).
    apply (f_equal S), IH. }
  destruct fuel as [|[|fuel]]; [done|done|].
  cbn [names_from].
  assert (ax25_config_get_next (map to_cport cyclic_ports) None = Some (lit "p1")) as ->
    by (vm_compute; reflexivity).
  assert (ax25_config_get_next (map to_cport cyclic_ports) (Some (lit "p1")) = Some (lit "G0ABC")) as ->
    by (vm_compute; reflexivity).
  apply (f_equal (λ n, S (S n))), Hloop.
Qed.

(** ** From a name to its callsign, and from an address to its port *)
Lemma get_field_name {A} (f : CPort → A) l i p : NoDup (map (λ p, lower (pp_name p)) l) →
  name_found l i → c_text (pp_name p) → l !! i = Some p →
  get_field f (map to_cport l) (Some (as_bytes (pp_name p))) = Some (f (to_cport p)).
Proof.
  intros Hnd Hf Ht Hi. unfold get_field. rewrite cstr_arg_text by done. simpl.
  rewrite (find_index_name l i p) by done. simpl. by rewrite list_lookup_fmap, Hi.
Qed.

Lemma port_of_address_first l i p e : Forall wf_port l → l !! i = Some p →
  encodes (pp_call p) e → (∀ j q, (j < i)%nat → l !! j = Some q → ¬ encodes (pp_call q) e) →
  port_of_address (map to_cport l) (mkAx25Address (as_i8 e)) = Ret (Some (cp_name (to_cport p))).
Proof.
  revert i. induction l as [|q l IH]; intros i Hwf Hi He Hfirst; [done|].
  apply Forall_cons in Hwf as [Hq Hwf]. cbn [map port_of_address].
  change (call_s (to_cport q)) with (pp_call q).
  destruct Hq as (_ & (_ & _ & _ & e' & He') & _). unfold encodes in *.
  rewrite He'. cbn [obind].
  rewrite ax25_cmp_eq by (by eapply encode_entry_wf). case_bool_decide as Heq.
  - destruct i as [|i]; [by injection Hi as ->|]. exfalso.
    apply (Hfirst 0%nat q); [lia|done|congruence].
  - destruct i as [|i].
    { injection Hi as ->. congruence. }
    apply (IH i); [done|done|done|]. intros j r Hj Hr. apply (Hfirst (S j) r); [lia|done].
Qed.

(** On a loaded table the name of a port leads to its callsign, and the
    address of that callsign back to the name of the first port that has it. *)
Theorem port_lookups_agree content l i p e :
  parse_axports content = Ret l → l !! i = Some p → name_found l i →
  c_text (pp_name p) → c_text (pp_call p) → encodes (pp_call p) e → e ≠ addr_of [] 0 →
  (∀ j q, (j < i)%nat → l !! j = Some q → ¬ encodes (pp_call q) e) →
  ax25_config_get_addr (map to_cport l) (Some (as_bytes (pp_name p))) = Some (as_bytes (pp_call p)) ∧
  ax25_config_get_port (map to_cport l) (Some (mkAx25Address (as_i8 e)))
    = Ret (Some (as_bytes (pp_name p))).
Proof.
  intros Hparse Hi Hf Htn Htc He Hnull Hfirst.
  assert (wf_ports l) as (Hwf & Hnd & _).
  { eapply (parse_lines_inv wf_ports);
      [intros out raw out'; apply parse_port_line_wf|apply (lines_no_newline content)| |exact Hparse].
    split_and!; [done|constructor|constructor]. }
  split.
  - unfold ax25_config_get_addr. rewrite (get_field_name _ l i p) by done. simpl.
    by rewrite cstring_or_default_text.
  - unfold ax25_config_get_port.
    destruct null_address_wf as [Hn Hnwf].
    replace null_ax25_address with (mkAx25Address (as_i8 (addr_of [] 0))) by reflexivity.
    rewrite ax25_cmp_eq; [|by eapply encode_entry_wf|done].
    rewrite bool_decide_eq_false_2 by done.
    rewrite (port_of_address_first l i p) by done. simpl.
    by rewrite cstring_or_default_text.
Qed.

(** Loading is idempotent: once a table is loaded, another call reads
    nothing, keeps it and returns the same count, which is its length. *)
Theorem load_ports_idempotent file file' n guard :
  ax25_config_load_ports [] file = Ret (n, guard) → guard ≠ [] →
  ax25_config_load_ports guard file' = Ret (n, guard) ∧
  (Z.of_nat (List.length guard) < 2 ^ 31 → n = Z.of_nat (List.length guard)).
Proof.
  intros Hl Hne.
  assert (n = i32 (Z.of_nat (List.length guard))) as ->.
  { simpl in Hl. destruct file as [content|]; [|by injection Hl as <- <-].
    apply obind_ret in Hl as (parsed & _ & Hl). by injection Hl as <- <-. }
  split; [by destruct guard|]. intros Hlt. apply i32_id. lia.
Qed.

(** ** The uid map *)
Definition wf_calls (l : list CallEntry) : Prop :=
  NoDup (map ce_uid l) ∧
  Forall (λ e, - 2 ^ 31 ≤ ce_uid e < 2 ^ 31 ∧ upper (ce_call e) = ce_call e ∧
               ∃ a, encodes (ce_call e) a) l.

Lemma parse_call_line_wf out raw out' :
  wf_calls out → parse_call_line out raw = Ret out' → wf_calls out'.
Proof.
  intros Hwf. unfold parse_call_line.
  destruct (trim_start (trim_end_matches 13 raw)) as [|c l]; [by intros [= <-]|].
  destruct (c =? 35); [by intros [= <-]|].
  destruct (pop_token (c :: l)) as [[uid_tok|] r1]; [|drop_tokens].
  destruct (pop_token r1) as [[call_tok|] r2]; [|drop_tokens].
  destruct (parse_i32 uid_tok) as [uid|] eqn:Hu; [|by intros [= <-]].
  intros (e & He & Hret)%obind_ret. destruct e as [e|]; [|by injection Hret as <-].
  destruct (existsb _ out) eqn:Hex; injection Hret as <-; [done|].
  destruct Hwf as [Hnd Hf]. split.
  - rewrite map_app. apply NoDup_app. split_and!; [done| |apply NoDup_singleton].
    intros x (q & -> & Hq)%list_elem_of_fmap. simpl. rewrite list_elem_of_singleton. intros Heq.
    assert (existsb (λ e, ce_uid e =? uid) out = true); [|congruence].
    apply existsb_exists. exists q. split; [by apply list_elem_of_In|lia].
  - apply Forall_app_2; [done|]. constructor; [|done].
    apply parse_i32_range in Hu. simpl. split_and!; [lia..|apply upper_upper|by eexists].
Qed.

(** The uid map has one entry per uid, each with an upper-case callsign that
    encodes. *)
Theorem parse_calls_wf content l : parse_calls content = Ret l → wf_calls l.
Proof.
  intros Hp. eapply (parse_lines_inv wf_calls);
    [|apply (lines_no_newline content)| |exact Hp].
  - intros out raw out' _. apply parse_call_line_wf.
  - split; constructor.
Qed.

(** Once the uid map or the environment override is loaded, [get_call]
    answers a uid the same way whatever the file holds later. *)
Theorem get_call_stable st env file file' uid st' r :
  get_call st env file uid = Ret (st', r) →
  (∃ c call, env = Some (c :: call) ∧ env_call st' ≠ None) ∨ call_table st' ≠ [] →
  get_call st' env file' uid = Ret (st', r) ∧ ports st' = ports st.
Proof.
  unfold get_call. intros Hg Hor.
  destruct env as [[|c call]|]; simpl in *.
  - destruct Hor as [(? & ? & [=] & _)|Hne].
    apply obind_ret in Hg as (t & Ht & Hg).
    destruct (List.find _ t) eqn:Hfind; injection Hg as <- <-; simpl in *;
      (destruct t; [done|]); simpl; simpl in Hfind; by rewrite Hfind.
  - set (slot := match env_call st with Some cs => Some cs | None => cstring_new (c :: call) end) in *.
    destruct slot as [cs|] eqn:Hs; simpl in *.
    { injection Hg as <- <-. done. }
    apply obind_ret in Hg as (t & Ht & Hg).
    destruct (List.find _ t) eqn:Hfind; injection Hg as <- <-; simpl in *.
    all: destruct Hor as [(? & ? & _ & [])|Hne]; [done|].
    all: assert (cstring_new (c :: call) = None) as Hnew
      by (unfold slot in Hs; destruct (env_call st); done).
    all: rewrite Hnew; (destruct t; [done|]); simpl; simpl in Hfind; by rewrite Hfind.
  - destruct Hor as [(? & ? & [=] & _)|Hne].
    apply obind_ret in Hg as (t & Ht & Hg).
    destruct (List.find _ t) eqn:Hfind; injection Hg as <- <-; simpl in *;
      (destruct t; [done|]); simpl; simpl in Hfind; by rewrite Hfind.
Qed.

(** The zero-SSID rule cuts a callsign at its first dash followed by a zero,
    whatever comes after. *)
Theorem strip_dash0_cuts base rest : (45 ∉ base) →
  strip_dash0 (base ++ 45 :: 48 :: rest) = base.
Proof.
  intros Hb. unfold strip_dash0.
  assert (find_str (lit "-0") (base ++ 45 :: 48 :: rest) = Some (List.length base)) as ->.
  { induction base as [|c base IH]; [done|]. apply not_elem_of_cons in Hb as [Hc Hb].
    cbn [app find_str].
    assert (starts_with (lit "-0") (c :: base ++ 45 :: 48 :: rest) = false) as ->.
    { change (lit "-0") with [45; 48]. cbn [starts_with].
      by rewrite (proj2 (Z.eqb_neq 45 c) Hc). }
    by rewrite IH. }
  by rewrite take_app_length.
Qed.

(** * Witnesses *)
Definition sample_ports : list ParsedPort :=
  [mkParsedPort (lit "radio") (lit "M0LTE-1") 9600 255 4 (lit "2m packet via pdn");
   mkParsedPort (lit "hf") (lit "GB7RDG") 1200 128 2 (lit "HF gateway");
   mkParsedPort (lit "144") (lit "G0ABC") 9600 256 7 (lit "spare port")].

Lemma parse_axports_wf_witness :
  parse_axports sample = Ret sample_ports ∧ wf_ports sample_ports.
Proof.
  assert (parse_axports sample = Ret sample_ports) as Hp by (vm_compute; reflexivity).
  split; [exact Hp|]. exact (parse_axports_wf sample sample_ports Hp).
Defined.

Lemma sample_ports_wf : wf_ports sample_ports.
Proof.
  eapply (parse_lines_inv wf_ports);
    [intros out raw out'; apply parse_port_line_wf|apply (lines_no_newline sample)| |].
  - split_and!; [done|constructor|constructor].
  - vm_compute. reflexivity.
Qed.

Lemma parse_print_axports_witness : parse_axports (print_ports sample_ports) = Ret sample_ports.
Proof.
  apply parse_print_axports; [exact sample_ports_wf|]. repeat constructor; discriminate.
Defined.

Ltac c_text_by_decide := split; by_decide.

Lemma sample_name_found i : name_found sample_ports i.
Proof.
  intros j p q Hj Hi Hq.
  destruct i as [|[|[|i]]]; [lia| | |by destruct i];
    (destruct j as [|[|j]]; simpl in *; simplify_eq/=; try lia; try reflexivity).
Qed.

Lemma get_next_enumerates_witness :
  names_from 4 (map to_cport sample_ports) None = [lit "radio"; lit "hf"; lit "144"].
Proof.
  rewrite (get_next_enumerates sample_ports 4).
  - vm_compute. reflexivity.
  - by_decide.
  - repeat constructor; by_decide.
  - exact sample_name_found.
  - vm_compute. lia.
Defined.

Lemma port_lookups_agree_witness :
  ax25_config_get_addr (map to_cport sample_ports) (Some (lit "hf")) = Some (lit "GB7RDG") ∧
  ax25_config_get_port (map to_cport sample_ports)
    (Some (mkAx25Address (as_i8 (addr_of (lit "GB7RDG") 0)))) = Ret (Some (lit "hf")).
Proof.
  apply (port_lookups_agree sample sample_ports 1
           (mkParsedPort (lit "hf") (lit "GB7RDG") 1200 128 2 (lit "HF gateway"))).
  - vm_compute. reflexivity.
  - reflexivity.
  - exact (sample_name_found 1).
  - c_text_by_decide.
  - c_text_by_decide.
  - reflexivity.
  - discriminate.
  - intros j q Hj Hq. destruct j as [|j]; [|lia]. simpl in Hq. simplify_eq. discriminate.
Defined.

Lemma load_ports_idempotent_witness :
  ax25_config_load_ports [] (Some sample) = Ret (3, map to_cport sample_ports) ∧
  ax25_config_load_ports (map to_cport sample_ports) None = Ret (3, map to_cport sample_ports).
Proof.
  assert (ax25_config_load_ports [] (Some sample) = Ret (3, map to_cport sample_ports)) as Hl
    by (vm_compute; reflexivity).
  split; [exact Hl|]. apply (load_ports_idempotent (Some sample) None _ _ Hl). discriminate.
Defined.

Definition calls_file : str := lit "1000 M0LTE-1
1001 g0abc
1000 G0XYZ
".

Lemma parse_calls_wf_witness :
  parse_calls calls_file = Ret [mkCallEntry 1000 (lit "M0LTE-1"); mkCallEntry 1001 (lit "G0ABC")] ∧
  wf_calls [mkCallEntry 1000 (lit "M0LTE-1"); mkCallEntry 1001 (lit "G0ABC")].
Proof.
  assert (parse_calls calls_file =
    Ret [mkCallEntry 1000 (lit "M0LTE-1"); mkCallEntry 1001 (lit "G0ABC")]) as Hp
    by (vm_compute; reflexivity).
  split; [exact Hp|]. exact (parse_calls_wf calls_file _ Hp).
Defined.

Lemma get_call_stable_witness :
  get_call (mkConfig [] [mkCCallEntry 1000 (lit "M0LTE-1"); mkCCallEntry 1001 (lit "G0ABC")] None)
    None None 1001
  = Ret (mkConfig [] [mkCCallEntry 1000 (lit "M0LTE-1"); mkCCallEntry 1001 (lit "G0ABC")] None,
         Some (lit "G0ABC")).
Proof.
  apply (get_call_stable (mkConfig [] [] None) None (Some calls_file) None 1001).
  - vm_compute. reflexivity.
  - right. discriminate.
Defined.

Lemma strip_dash0_cuts_witness : strip_dash0 (lit "M0LTE-05") = lit "M0LTE".
Proof. apply (strip_dash0_cuts (lit "M0LTE") (lit "5")). by_decide. Defined.
