(* ===== verification/Stubs.v ===== *)
(** [crates/libax25/src/stubs.rs]: the rest of libax25's C interface: the Rose
    address helpers, and exports that return a constant. *)
From stdpp Require Import prelude.
From Stdlib Require Import ZArith Lia String.
From S2P Require Import Prelude Str.
Local Open Scope Z_scope.

(** [rose_addr: [c_char; 5]]. *)
Record RoseAddress := mkRoseAddress { rose_addr : list Z }.

(** The byte packed from digits [2 i] and [2 i + 1]. *)
Definition pack (b : list Z) (i : nat) : Z :=
  let hi := u8 (nth (i * 2) b 0 - 48) in
  let lo := u8 (nth (i * 2 + 1) b 0 - 48) in
  i8 (Z.lor (u8 (Z.shiftl hi 4)) lo).

Definition rose_aton (addr buf : option (list Z)) : Z * option (list Z) :=
  match addr, buf with
  | Some a, Some dst =>
    match from_utf8 (c_str a) with
    | None => (-1, buf)
    | Some s =>
      let b := as_bytes s in
      if negb (bool_decide (List.length b = 10%nat)) || negb (forallb is_ascii_digit b) then (-1, buf)
      else (0, Some (map (pack b) (seq 0 5) ++ drop 5 dst))
    end
  | _, _ => (-1, buf)
  end.

(** The thread's twelve-byte buffer after the call. *)
Definition rose_ntoa (a : option RoseAddress) (rose_buf : list Z) : list Z :=
  match a with
  | None => <[0%nat := 0]> rose_buf
  | Some a =>
    (rose_addr a ≫= λ c,
       let byte := u8 c in
       [i8 (u8 (48 + Z.land (Z.shiftr byte 4) 0x0F)); i8 (u8 (48 + Z.land byte 0x0F))])
    ++ [0] ++ drop 11 rose_buf
  end.

Definition rose_cmp (a b : option RoseAddress) : Z :=
  match a, b with
  | Some a, Some b =>
    if forallb (λ i, bool_decide (nth i (rose_addr a) 0 = nth i (rose_addr b) 0)) (seq 0 5) then 0 else 1
  | _, _ => 1
  end.

(** * Constant exports

    Strings are [option (list Z)], opaque pointers [option Z]; null is [None]. *)
Definition nr_config_load_ports : Z := 0.
Definition nr_config_get_next (name : option (list Z)) : option (list Z) := None.
Definition nr_config_get_name (dev : option (list Z)) : option (list Z) := None.
Definition nr_config_get_addr (name : option (list Z)) : option (list Z) := None.
Definition nr_config_get_dev (name : option (list Z)) : option (list Z) := None.
Definition nr_config_get_port (call : option Z) : option (list Z) := None.
Definition nr_config_get_alias (name : option (list Z)) : option (list Z) := None.
Definition nr_config_get_paclen (name : option (list Z)) : Z := 0.
Definition nr_config_get_desc (name : option (list Z)) : option (list Z) := None.

Definition rs_config_load_ports : Z := 0.
Definition rs_config_get_next (name : option (list Z)) : option (list Z) := None.
Definition rs_config_get_name (dev : option (list Z)) : option (list Z) := None.
Definition rs_config_get_addr (name : option (list Z)) : option (list Z) := None.
Definition rs_config_get_dev (name : option (list Z)) : option (list Z) := None.
Definition rs_config_get_port (addr : option RoseAddress) : option (list Z) := None.
Definition rs_config_get_paclen (name : option (list Z)) : Z := 0.
Definition rs_config_get_desc (name : option (list Z)) : option (list Z) := None.

Definition tty_raw (fd hwflag : Z) : Z := 1.
Definition tty_speed (fd speed : Z) : Z := 1.
Definition tty_is_locked (tty : option (list Z)) : Z := 0.
Definition tty_lock (tty : option (list Z)) : Z := 1.
Definition tty_unlock (tty : option (list Z)) : Z := 1.
Definition daemon_start (ignsigcld : Z) : Z := 1.

(** The /proc readers return null, the frees do nothing, the finders find nothing. *)
Definition null_reader : option Z := None.
Definition noop_free (p : option Z) : unit := tt.
Definition read_proc_ax25 := null_reader.
Definition free_proc_ax25 := noop_free.
Definition read_proc_ax25_route := null_reader.
Definition free_proc_ax25_route := noop_free.
Definition read_proc_nr := null_reader.
Definition free_proc_nr := noop_free.
Definition read_proc_nr_neigh := null_reader.
Definition free_proc_nr_neigh := noop_free.
Definition read_proc_nr_nodes := null_reader.
Definition free_proc_nr_nodes := noop_free.
Definition read_proc_rs := null_reader.
Definition free_proc_rs := noop_free.
Definition read_proc_rs_neigh := null_reader.
Definition free_proc_rs_neigh := noop_free.
Definition read_proc_rs_nodes := null_reader.
Definition free_proc_rs_nodes := noop_free.
Definition read_proc_rs_routes := null_reader.
Definition free_proc_rs_route := noop_free.
Definition find_link (src dest dev : option (list Z)) : option Z := None.
Definition find_neigh (addr : Z) (neigh : option Z) : option Z := None.
Definition find_node (addr : option (list Z)) (nodes : option Z) : option Z := None.

(** * Packing and printing *)
Definition print_byte (c : Z) : list Z :=
  [i8 (u8 (48 + Z.land (Z.shiftr (u8 c) 4) 0x0F)); i8 (u8 (48 + Z.land (u8 c) 0x0F))].
Definition pack_byte (h l : Z) : Z := i8 (Z.lor (u8 (Z.shiftl (u8 (h - 48)) 4)) (u8 (l - 48))).

Lemma print_pack_byte h l : is_ascii_digit h = true → is_ascii_digit l = true →
  print_byte (pack_byte h l) = [h; l].
Proof.
  unfold is_ascii_digit. rewrite !andb_true_iff, !Z.leb_le. intros Hh Hl.
  assert (print_byte (pack_byte (48 + (10 * (h - 48) + (l - 48)) / 10) (48 + (10 * (h - 48) + (l - 48)) mod 10)) =
    [48 + (10 * (h - 48) + (l - 48)) / 10; 48 + (10 * (h - 48) + (l - 48)) mod 10]) as Hall.
  { apply (range_decide (λ n, print_byte (pack_byte (48 + n / 10) (48 + n mod 10)) = [48 + n / 10; 48 + n mod 10]) 100);
      [vm_compute; reflexivity|lia]. }
  rewrite (Z.add_comm (10 * _)), (Z.mul_comm 10), Z.div_add, Z.div_small, Z_mod_plus_full, Z.mod_small in Hall by lia.
  by replace (48 + (0 + (h - 48))) with h in Hall by lia; replace (48 + (l - 48)) with l in Hall by lia.
Qed.

Lemma digit_ascii c : is_ascii_digit c = true → is_ascii c.
Proof. unfold is_ascii_digit, is_ascii. rewrite andb_true_iff, !Z.leb_le. lia. Qed.

Lemma digits_ascii ds : forallb is_ascii_digit ds = true → Forall is_ascii ds ∧ (0 ∉ ds).
Proof.
  intros Hd. rewrite forallb_forall in Hd. split.
  - apply Forall_forall. intros c Hc. apply digit_ascii, Hd. by apply list_elem_of_In.
  - intros H0. apply list_elem_of_In in H0. by specialize (Hd 0 H0).
Qed.

(** A Rose address of ten digits is packed into five bytes that print as the same
    digits, NUL-terminated within the twelve-byte buffer, and compare equal to
    themselves; a text that is refused leaves the caller's buffer untouched. *)
Theorem rose_roundtrip mem dst buf : 
  (List.length (c_str mem) = 10%nat → forallb is_ascii_digit (c_str mem) = true →
   ∃ packed, rose_aton (Some mem) (Some dst) = (0, Some (packed ++ drop 5 dst)) ∧
     List.length packed = 5%nat ∧
     rose_ntoa (Some (mkRoseAddress packed)) buf = c_str mem ++ [0] ++ drop 11 buf ∧
     rose_cmp (Some (mkRoseAddress packed)) (Some (mkRoseAddress packed)) = 0) ∧
  (fst (rose_aton (Some mem) (Some dst)) ≠ 0 → rose_aton (Some mem) (Some dst) = (-1, Some dst)).
Proof.
  split.
  - intros Hl Hd. destruct (digits_ascii _ Hd) as [Hasc _].
    unfold rose_aton. rewrite from_utf8_ascii, as_bytes_ascii, Hl, Hd by done.
    rewrite bool_decide_true by done. cbn [negb orb].
    exists (map (pack (c_str mem)) (seq 0 5)). split; [done|]. split; [by rewrite length_map|].
    destruct (c_str mem) as [|a0 [|a1 [|a2 [|a3 [|a4 [|a5 [|a6 [|a7 [|a8 [|a9 [|]]]]]]]]]]]; try done.
    cbn [forallb] in Hd. rewrite !andb_true_iff in Hd. destruct Hd as (?&?&?&?&?&?&?&?&?&?&_). split.
    + change (rose_ntoa (Some (mkRoseAddress (map (pack [a0; a1; a2; a3; a4; a5; a6; a7; a8; a9]) (seq 0 5)))) buf)
        with (print_byte (pack_byte a0 a1) ++ print_byte (pack_byte a2 a3) ++ print_byte (pack_byte a4 a5) ++
              print_byte (pack_byte a6 a7) ++ print_byte (pack_byte a8 a9) ++ [0] ++ drop 11 buf).
      by rewrite !print_pack_byte.
    + unfold rose_cmp. rewrite (proj2 (forallb_forall _ _)); [done|].
      intros i _. by apply bool_decide_true.
  - unfold rose_aton. destruct (from_utf8 (c_str mem)); [|done]. by destruct (negb _ || negb _).
Qed.

Lemma rose_roundtrip_witness :
  ∃ packed, rose_aton (Some (lit "2080175520" ++ [0])) (Some [0; 0; 0; 0; 0; 9]) = (0, Some (packed ++ [9])) ∧
    rose_ntoa (Some (mkRoseAddress packed)) (replicate 12 0) = lit "2080175520" ++ [0; 0].
Proof.
  destruct (rose_roundtrip (lit "2080175520" ++ [0]) [0; 0; 0; 0; 0; 9] (replicate 12 0)) as [Hr _].
  destruct Hr as (packed & H1 & _ & H2 & _); [reflexivity|reflexivity|].
  exists packed. split; [exact H1|exact H2].
Defined.
