(* ===== verification/Real.v ===== *)
(** [crates/ax25-interpose/src/real.rs]: the real libc symbols, looked up once and
    kept in one atomic per symbol, by any number of threads at once.

    [dlsym(RTLD_NEXT, name)] is not part of the sources: it is the parameter
    [dlsym], and 0 is the null pointer. *)
From stdpp Require Import prelude gmap.
From Stdlib Require Import ZArith Lia String.
From S2P Require Import Prelude Str.
Local Open Scope Z_scope.

(** The symbols a getter is made for. *)
Definition real_symbols : list str :=
  [lit "socket"; lit "bind"; lit "connect"; lit "listen"; lit "accept"; lit "getsockname";
   lit "getpeername"; lit "setsockopt"; lit "getsockopt"; lit "read"; lit "write"; lit "recv";
   lit "send"; lit "recvfrom"; lit "sendto"; lit "select"; lit "poll"; lit "close"].

Section real.
Variable dlsym : str → Z.

(** [None]: the name holds a NUL, and [CString::new] fails, which panics. *)
Definition load (name : str) : option Z :=
  if bool_decide (0 ∈ name) then None else Some (dlsym name).

(** A call of a getter: before the load of the symbol's atomic; the value loaded;
    what [dlsym] returned, not yet stored; the function pointer returned. *)
Inductive getter :=
| GStart (sym : str) | GLoaded (sym : str) (p : Z) | GResolved (sym : str) (p : Z)
| GDone (sym : str) (p : Z) | GPanic (sym : str).

(** The atomics, zero at first, and the names asked of [dlsym], latest first. *)
Record statics := mkStatics { cells : gmap str Z; asked : list str }.

Definition getter_step (g : getter) (s : statics) : getter * statics :=
  match g with
  | GStart sym => (GLoaded sym (default 0 (cells s !! sym)), s)
  | GLoaded sym p =>
    if p =? 0
    then match load sym with
         | Some p => (GResolved sym p, mkStatics (cells s) (sym :: asked s))
         | None => (GPanic sym, s)
         end
    else (GDone sym p, s)
  | GResolved sym p => (GDone sym p, mkStatics (<[sym := p]> (cells s)) (asked s))
  | _ => (g, s)
  end.

(** Threads, each in a call of a getter; a schedule names who moves. *)
Record rstate := mkR { getters : gmap nat getter; rs : statics }.
Definition real_step (t : nat) (r : rstate) : rstate :=
  match getters r !! t with
  | None => r
  | Some g => let '(g, s) := getter_step g (rs r) in mkR (<[t := g]> (getters r)) s
  end.
Definition real_run (sched : list nat) (r : rstate) : rstate := foldl (λ r t, real_step t r) r sched.

Definition sym_of (g : getter) : str :=
  match g with GStart s | GLoaded s _ | GResolved s _ | GDone s _ | GPanic s => s end.

(** * The invariant *)
Definition getter_ok (g : getter) : Prop :=
  sym_of g ∈ real_symbols ∧
  match g with
  | GStart _ => True
  | GLoaded sym p => p = 0 ∨ p = dlsym sym
  | GResolved sym p | GDone sym p => p = dlsym sym
  | GPanic _ => False
  end.
Definition statics_ok (s : statics) : Prop := ∀ sym p, cells s !! sym = Some p → p = dlsym sym.
Record real_ok (r : rstate) : Prop := {
  ro_cells : statics_ok (rs r);
  ro_getters t g : getters r !! t = Some g → getter_ok g }.

Lemma load_real sym : sym ∈ real_symbols → load sym = Some (dlsym sym).
Proof.
  intros Hs. unfold load. rewrite bool_decide_false; [done|].
  assert (Forall (λ s, 0 ∉ s) real_symbols) as Hall by by_decide.
  rewrite Forall_forall in Hall. by apply Hall.
Qed.

Lemma getter_step_ok g s : getter_ok g → statics_ok s →
  let '(g', s') := getter_step g s in getter_ok g' ∧ statics_ok s' ∧ sym_of g' = sym_of g.
Proof.
  intros [Hsym Hg] Hs. destruct g as [sym|sym p|sym p|sym p|sym]; simpl in *; try done.
  - split; [split; [done|]|done]. simpl. destruct (cells s !! sym) as [p|] eqn:Hp; [|by left].
    right. by eapply Hs.
  - destruct (Z.eqb_spec p 0) as [->|Hp].
    + by rewrite (load_real sym Hsym).
    + split; [|done]. split; [done|]. destruct Hg; [done|]. by simpl.
  - split; [done|]. split; [|done]. intros x q Hq. simpl in Hq.
    apply lookup_insert_Some in Hq as [[<- <-]|[_ Hq]]; [done|by eapply Hs].
Qed.

Lemma real_step_ok t r : real_ok r → real_ok (real_step t r).
Proof.
  intros [Hs Hg]. unfold real_step. destruct (getters r !! t) as [g|] eqn:Ht; [|done].
  pose proof (getter_step_ok g (rs r) (Hg _ _ Ht) Hs) as H. destruct (getter_step g (rs r)) as [g' s'].
  destruct H as (H1 & H2 & _). split; simpl; [done|].
  intros x y [[_ <-]|[_ Hy]]%lookup_insert_Some; [done|by eapply Hg].
Qed.

Lemma real_run_ok sched r : real_ok r → real_ok (real_run sched r).
Proof. revert r. induction sched as [|t sched IH]; intros r Hr; [done|]. simpl. by apply IH, real_step_ok. Qed.

(** How far a call has come. *)
Definition to_go (g : getter) : nat :=
  match g with GStart _ => 3 | GLoaded _ _ => 2 | GResolved _ _ => 1 | _ => 0 end.

Lemma getter_step_less g s : to_go g ≠ 0%nat → (to_go (fst (getter_step g s)) < to_go g)%nat.
Proof.
  destruct g as [sym|sym p|sym p|sym p|sym]; simpl; try lia. intros _.
  destruct (p =? 0); [|simpl; lia]. destruct (load sym); simpl; lia.
Qed.

Lemma getter_step_sym g s : sym_of (fst (getter_step g s)) = sym_of g.
Proof. destruct g; simpl; try done. case_match; [|done]. by destruct (load _). Qed.

(** The steps of [t] in a schedule bring it to its end. *)
Lemma run_to_go sched t r g : getters r !! t = Some g →
  ∃ g', getters (real_run sched r) !! t = Some g' ∧ sym_of g' = sym_of g ∧
    (to_go g' ≤ to_go g - List.length (filter (eq t) sched))%nat.
Proof.
  revert r g. induction sched as [|x sched IH]; intros r g Hg; [exists g; split_and!; [done|done|simpl; lia]|].
  simpl. unfold real_step at 1. rewrite filter_cons. destruct (decide (t = x)) as [<-|Hne].
  - rewrite Hg. pose proof (getter_step_less g (rs r)) as Hl. pose proof (getter_step_sym g (rs r)) as Hsy.
    destruct (getter_step g (rs r)) as [g1 s1] eqn:Hst.
    destruct (IH (mkR (<[t := g1]> (getters r)) s1) g1) as (g' & H1 & Hsy' & H2); [simpl; by rewrite lookup_insert_eq|].
    exists g'. split; [done|]. simpl in *. split; [congruence|]. destruct (to_go g) as [|n] eqn:Hn; [|specialize (Hl ltac:(done)); lia].
    destruct g; try done; simpl in Hst; injection Hst as <- _; simpl in H2; lia.
  - destruct (getters r !! x) as [gx|]; [|by apply IH]. destruct (getter_step gx (rs r)) as [g1 s1].
    apply IH. simpl. by rewrite lookup_insert_ne.
Qed.

(** How often [dlsym] was asked for a symbol. *)
Definition times (sym : str) (s : statics) : nat := List.length (filter (eq sym) (asked s)).

(** Once a cell is filled it stays so, and calls that begin then ask nothing. *)
Lemma cells_filled sched r sym : real_ok r → dlsym sym ≠ 0 → cells (rs r) !! sym = Some (dlsym sym) →
  (∀ t g, getters r !! t = Some g → sym_of g = sym → match g with GStart _ => True | GLoaded _ p => p ≠ 0 | _ => True end) →
  times sym (rs (real_run sched r)) = times sym (rs r).
Proof.
  intros Hr Hd. revert r Hr. induction sched as [|t sched IH]; intros r Hr Hc Hg; [done|]. simpl.
  pose proof (real_step_ok t r Hr) as Hr'. unfold real_step in *.
  destruct (getters r !! t) as [g|] eqn:Ht; [|by apply IH].
  pose proof (getter_step_ok g (rs r) (ro_getters r Hr _ _ Ht) (ro_cells r Hr)) as Hok.
  destruct (getter_step g (rs r)) as [g' s'] eqn:Hst. destruct Hok as (Hg' & Hs' & Hsym).
  assert (cells s' !! sym = Some (dlsym sym) ∧ times sym s' = times sym (rs r) ∧
    (sym_of g' = sym → match g' with GLoaded _ p => p ≠ 0 | _ => True end)) as (H1 & H2 & H3).
  { specialize (Hg _ _ Ht). destruct g as [x|x p|x p|x p|x]; simpl in Hst, Hg; try by injection Hst as <- <-.
    - injection Hst as <- <-. split; [done|]. split; [done|]. simpl. intros Hx. by rewrite Hx, Hc.
    - destruct (Z.eqb_spec p 0) as [->|Hp]; [|by injection Hst as <- <-].
      destruct (load x) as [q|]; injection Hst as <- <-; [|done]. split; [done|]. split; [|done].
      unfold times. simpl. rewrite filter_cons. case_decide as Hx; [|done]. by destruct (Hg (eq_sym Hx)).
    - injection Hst as <- <-. split; [|done]. simpl.
      destruct (decide (x = sym)) as [->|]; [|by rewrite lookup_insert_ne].
      rewrite lookup_insert_eq. destruct (ro_getters r Hr _ _ Ht) as [_ Hp]. simpl in Hp. by subst. }
  rewrite (IH (mkR (<[t := g']> (getters r)) s') Hr' H1); [exact H2|].
  intros x y Hy. simpl in Hy. apply lookup_insert_Some in Hy as [[_ <-]|[_ Hy]]; [|by eapply Hg].
  intros Hx. specialize (H3 Hx). by destruct g'.
Qed.

Definition real_start (calls : gmap nat str) (s : statics) : rstate := mkR (GStart <$> calls) s.

(** C33: any number of threads may look symbols up at once, in any order of their
    steps: a call returns the pointer [dlsym] has for its own symbol, after three
    steps at most, and never panics; and once a symbol's pointer is kept, calls
    for it do not ask [dlsym] again. *)
Theorem real_getters calls s sched :
  map_Forall (λ _ sym, sym ∈ real_symbols) calls → statics_ok s →
  let r := real_run sched (real_start calls s) in
  ∀ t sym, calls !! t = Some sym →
  (∃ g, getters r !! t = Some g ∧ ∀ p, g = GDone sym p → p = dlsym sym) ∧
  (List.length (filter (eq t) sched) ≥ 3 → getters r !! t = Some (GDone sym (dlsym sym)))%nat ∧
  (cells s !! sym = Some (dlsym sym) → dlsym sym ≠ 0 →
   times sym (rs r) = times sym s).
Proof.
  intros Hcalls Hs r t sym Ht.
  assert (real_ok (real_start calls s)) as H0.
  { split; [done|]. intros x g Hx. simpl in Hx. apply lookup_fmap_Some in Hx as (y & <- & Hy).
    split; [|done]. by apply (Hcalls x). }
  pose proof (real_run_ok sched _ H0) as Hr. fold r in Hr.
  destruct (run_to_go sched t (real_start calls s) (GStart sym)) as (g & Hg & Hsy & Hl);
    [simpl; by rewrite lookup_fmap, Ht|]. fold r in Hg.
  pose proof (ro_getters _ Hr _ _ Hg) as [_ Hok]. split_and!.
  - exists g. split; [done|]. by intros p ->.
  - intros Hlen. simpl in Hl, Hsy. rewrite Hg. destruct g as [x|x p|x p|x p|x]; simpl in *; try lia.
    by subst.
  - intros Hc Hd. apply cells_filled; [done|done|done|]. intros x y Hy _. simpl in Hy.
    by apply lookup_fmap_Some in Hy as (z & <- & _).
Qed.
End real.

(** * Witness: two threads look the same symbol up at once, a third another. *)
Definition some_dlsym (name : str) : Z := 1000 + Z.of_nat (List.length name).
Definition some_calls : gmap nat str := {[0%nat := lit "recv"; 1%nat := lit "recv"; 2%nat := lit "close"]}.
Definition some_sched : list nat := [0; 1; 2; 1; 0; 0; 2; 1; 2]%nat.

Lemma real_getters_witness :
  let r := real_run some_dlsym some_sched (real_start some_calls (mkStatics ∅ [])) in
  getters r !! 0%nat = Some (GDone (lit "recv") 1004) ∧ getters r !! 1%nat = Some (GDone (lit "recv") 1004) ∧
  getters r !! 2%nat = Some (GDone (lit "close") 1005).
Proof.
  intros r.
  assert (map_Forall (λ _ sym, sym ∈ real_symbols) some_calls) as Hc by by_decide.
  assert (statics_ok some_dlsym (mkStatics ∅ [])) as Hs by (intros sym p Hp; vm_compute in Hp; discriminate).
  pose proof (real_getters some_dlsym some_calls (mkStatics ∅ []) some_sched Hc Hs) as Hr.
  split; [|split].
  - apply (proj1 (proj2 (Hr 0%nat (lit "recv") eq_refl))). vm_compute. lia.
  - apply (proj1 (proj2 (Hr 1%nat (lit "recv") eq_refl))). vm_compute. lia.
  - apply (proj1 (proj2 (Hr 2%nat (lit "close") eq_refl))). vm_compute. lia.
Defined.

