(* ===== verification/IAddr.v ===== *)
(** [crates/ax25-interpose/src/addr.rs]: the interposer's copy of the callsign
    codec, and the raw [sockaddr] buffers it reads and writes.

    A [sockaddr] the application passes is a list of bytes (at least as many as
    its [socklen_t] says); [SockaddrAx25] lies in it as [repr(C)] lays it out on
    a little-endian target: family at 0, callsign at 2, three bytes of padding,
    the digipeater count at 12; the eight digipeaters follow at 16. *)
From stdpp Require Import prelude gmap.
From Stdlib Require Import ZArith Lia String.
From S2P Require Import Prelude Str Addr.
Local Open Scope Z_scope.

(** * The codec *)
Definition decode (call : list Z) : str :=
  let chars := map (λ b, Z.land (Z.shiftr (u8 b) 1) 0x7F) (take 6 call) in
  let b6 := u8 (nth 6 call 0) in
  filter (λ c, c ≠ 32) chars ++
  (if negb (Z.land b6 0x1E =? 0)
   then 45 :: u8_to_string (Z.land (Z.shiftr b6 1) 0x0F)
   else []).

(** The loop over the six callsign positions. *)
Definition encode_chars (bytes : list Z) : list Z :=
  map (λ i, let c := match bytes !! i with
                     | Some b => to_ascii_uppercase b
                     | None => 32
                     end in
            u8 (Z.shiftl c 1)) (seq 0 6).

Definition encode (call : str) : list Z :=
  let '(base, ssid) := match split_once 45 call with
                       | Some (b, s) => (b, Z.land (default 0 (parse_u8 s)) 0x0F)
                       | None => (call, 0)
                       end in
  as_i8 (encode_chars (as_bytes base) ++ [Z.land (u8 (Z.shiftl ssid 1)) 0x1E]).

(** * Raw buffers *)
Definition size_of_sockaddr : nat := 16.
Definition size_of_address : nat := 7.

(** [c_int] and [u16] fields, little-endian. *)
Definition le_bytes (n : nat) (z : Z) : list Z :=
  map (λ i, u8 (Z.shiftr z (8 * Z.of_nat i))) (seq 0 n).
Definition le_value (b : list Z) : Z := foldr (λ x v, x + 256 * v) 0 b.
Definition read_c_int (b : list Z) : Z := i32 (le_value b).

(** A field of [n] bytes at offset [o]. *)
Definition field (o n : nat) (mem : list Z) : list Z := take n (drop o mem).

Definition read_call (addr : option (list Z)) (len : nat) : option str :=
  match addr with
  | None => None
  | Some mem =>
    let need := (2 + size_of_address)%nat in
    if decide (len < need)%nat then None
    else Some (decode (as_i8 (field 2 7 mem)))
  end.

Definition read_digipeaters (addr : option (list Z)) (len : nat) : list str :=
  match addr with
  | None => []
  | Some mem =>
    let base_len := size_of_sockaddr in
    if decide (len < base_len)%nat then []
    else
      let ndigis := Z.to_nat (Z.max (read_c_int (field 12 4 mem)) 0) in
      if decide (ndigis = 0%nat) then []
      else
        let avail := (len - base_len)%nat in
        let max_fit := (avail / size_of_address)%nat in
        let count := Nat.min (Nat.min ndigis max_fit) AX25_MAX_DIGIS in
        if decide (count = 0%nat) then []
        else filter (λ s, s ≠ [])
               (map (λ i, decode (as_i8 (field (16 + 7 * i) 7 mem))) (seq 0 count))
  end.

(** The bytes of a [sockaddr_ax25] value; [pad] are its padding bytes. *)
Definition sockaddr_bytes (pad call : list Z) (ndigis : Z) : list Z :=
  le_bytes 2 AF_AX25 ++ as_u8 call ++ pad ++ le_bytes 4 ndigis.

(** [copy_nonoverlapping(src, addr, n)]. *)
Definition copy_to (src : list Z) (n : nat) (mem : list Z) : list Z := take n src ++ drop n mem.

(** [write_call]: the caller's buffer and [*len] afterwards.  The padding of
    the local value is not initialised, so it is an argument. *)
Definition write_call (pad : list Z) (addr : option (list Z)) (len : option nat) (call : str) :
    option (list Z) * option nat :=
  match addr, len with
  | Some mem, Some avail =>
    let src := sockaddr_bytes pad (encode call) 0 in
    let n := Nat.min avail size_of_sockaddr in
    (Some (copy_to src n mem), Some size_of_sockaddr)
  | _, _ => (addr, len)
  end.

Definition write_sockname (addr : option (list Z)) (len : option nat) (call : str) :
    option (list Z) * option nat :=
  match addr, len with
  | Some mem, Some avail =>
    let src := sockaddr_bytes [0; 0; 0] (encode call) 1 ++ as_u8 (encode call)
               ++ replicate (7 * size_of_address) 0 in
    let full_len := Z.to_nat size_of_full_sockaddr in
    let n := Nat.min avail full_len in
    (Some (copy_to src n mem), Some full_len)
  | _, _ => (addr, len)
  end.

Example encode_decode_calls :
  map (λ c, decode (encode c)) [lit "M0LTE"; lit "M0LTE-1"; lit "GB7RDG-15"; lit "G0ABC"]
  = [lit "M0LTE"; lit "M0LTE-1"; lit "GB7RDG-15"; lit "G0ABC"].
Proof. reflexivity. Qed.
Example sockname_digi0 :
  read_digipeaters (fst (write_sockname (Some (replicate 72 0)) (Some 72%nat) (lit "GB7RDG-1"))) 72
  = [lit "GB7RDG-1"].
Proof. vm_compute. reflexivity. Qed.
Example encode_invalid : decode (encode (lit "M0*TE-16")) = lit "M0*TE".
Proof. vm_compute. reflexivity. Qed.

(** * The codec agrees with libax25's *)
Lemma decode_decode_entry call : decode call = decode_entry (as_u8 call).
Proof.
  unfold decode, decode_entry, as_u8.
  change (nth 6 (map u8 call) 0) with (nth 6 (map u8 call) (u8 0)).
  by rewrite map_nth, firstn_map, map_map.
Qed.

Lemma alnum_not_dash base : Forall (λ c, is_ascii_alphanumeric c = true) base → (45 ∉ base).
Proof.
  intros Hf Hin. rewrite Forall_forall in Hf. apply Hf in Hin. done.
Qed.

Lemma encode_chars_ascii base : (List.length base ≤ 6)%nat → Forall is_ascii base →
  encode_chars base = map (λ c, 2 * c) (upper base) ++ replicate (6 - List.length base) 64.
Proof.
  intros Hl Hf. apply list_eq. intros i. unfold encode_chars.
  rewrite list_lookup_fmap.
  destruct (decide (i < 6)%nat) as [Hi|Hi].
  - rewrite lookup_seq_lt by lia. simpl.
    destruct (base !! i) as [b|] eqn:Hb.
    + rewrite lookup_app_l by (unfold upper; rewrite !length_map; by eapply lookup_lt_Some).
      unfold upper. rewrite !list_lookup_fmap, Hb. simpl. rewrite shl_char; [done|].
      apply to_ascii_uppercase_ascii. by eapply Forall_lookup_1 in Hb.
    + apply lookup_ge_None in Hb.
      rewrite lookup_app_r by (unfold upper; rewrite !length_map; lia).
      rewrite lookup_replicate_2; [done|]. unfold upper. rewrite !length_map. lia.
  - rewrite lookup_seq_ge by lia. simpl. symmetry. apply lookup_ge_None.
    rewrite length_app. unfold upper. rewrite !length_map, length_replicate. lia.
Qed.

Lemma ssid_low v : 0 ≤ v < 256 → Z.land (u8 (Z.shiftl (Z.land v 0x0F) 1)) 0x1E = 2 * (v mod 16).
Proof.
  intros Hv. refine (range_decide (λ v, Z.land (u8 (Z.shiftl (Z.land v 0x0F) 1)) 0x1E
    = 2 * (v mod 16)) 256 v _ _); [|lia]. vm_compute. reflexivity.
Qed.

Lemma encode_addr_of base v : (List.length base ≤ 6)%nat → Forall is_ascii base →
  encode_chars (as_bytes base) ++ [2 * v] = addr_of (upper base) v.
Proof.
  intros Hl Hf. rewrite as_bytes_ascii, encode_chars_ascii by done.
  unfold addr_of. rewrite <- app_assoc. f_equal. unfold upper. by rewrite length_map.
Qed.

Lemma encode_bare base : (List.length base ≤ 6)%nat → Forall is_ascii base → (45 ∉ base) →
  encode base = as_i8 (addr_of (upper base) 0).
Proof.
  intros Hl Hf Hd. unfold encode. rewrite split_once_none by done.
  rewrite <- (encode_addr_of base 0) by done. done.
Qed.

(** The SSID digits of an interposer address are taken modulo sixteen when
    they fit a byte and as zero otherwise; on the SSIDs libax25 accepts the two
    encoders agree. *)
Theorem encode_ssid base ds :
  (List.length base ≤ 6)%nat → Forall (λ c, is_ascii_alphanumeric c = true) base →
  ds ≠ [] → Forall (λ c, is_ascii_digit c = true) ds →
  let v := digits_value 0 ds in
  encode (base ++ 45 :: ds) = as_i8 (addr_of (upper base) (if v <=? 255 then v mod 16 else 0)) ∧
  encode base = as_i8 (addr_of (upper base) 0) ∧
  encodes base (addr_of (upper base) 0) ∧
  (v ≤ 15 → ∃ e, encodes (base ++ 45 :: ds) e ∧ encode (base ++ 45 :: ds) = as_i8 e).
Proof.
  intros Hl Hf Hne Hd v.
  assert (Forall is_ascii base) as Ha by (eapply Forall_impl; [exact Hf|apply alnum_ascii]).
  assert (0 ≤ v) as Hv0 by (apply digits_value_ge; [lia|done]).
  assert (encode (base ++ 45 :: ds) =
    as_i8 (addr_of (upper base) (if v <=? 255 then v mod 16 else 0))) as Henc.
  { unfold encode. rewrite split_once_app by (by apply alnum_not_dash).
    unfold parse_u8. rewrite parse_unsigned_digits by done. fold v.
    rewrite <- encode_addr_of by done. do 3 f_equal.
    destruct (Z.leb_spec v 255); [|done]. cbn [default from_option id]. rewrite ssid_low by lia. done. }
  split_and!; [done|by apply encode_bare; [..|apply alnum_not_dash]|by apply encode_entry_bare|].
  intros Hv. exists (addr_of (upper base) v). split.
  - unfold encodes. rewrite encode_entry_dash; [|done|done|].
    2: { eapply Forall_impl; [exact Hd|]. intros c Hc. unfold_char. lia. }
    rewrite scan_int_digits by (done || lia). fold v. rewrite i32_id by lia.
    destruct ((0 <=? v) && (v <=? 15)) eqn:?; [done|lia].
  - rewrite Henc. destruct (Z.leb_spec v 255); [|lia]. by rewrite Z.mod_small by lia.
Qed.

(** The symbols of an invalid callsign are kept, upper-cased and without
    blanks: what [encode] stores is what [decode] prints, not an all-spaces
    address. *)
Theorem encode_keeps_symbols base : (List.length base ≤ 6)%nat → Forall is_ascii base →
  (45 ∉ base) → decode (encode base) = filter (λ c, c ≠ 32) (upper base).
Proof.
  intros Hl Hf Hd. rewrite encode_bare by done. rewrite decode_decode_entry.
  assert (Forall is_ascii (upper base)) as Hu.
  { apply Forall_map. eapply Forall_impl; [exact Hf|]. apply to_ascii_uppercase_ascii. }
  assert (Forall (λ c, is_byte (2 * c)) (upper base)) as Hb.
  { eapply Forall_impl; [exact Hu|]. unfold is_ascii, is_byte. lia. }
  assert (List.length (upper base) ≤ 6)%nat as Hl' by (unfold upper; by rewrite length_map).
  rewrite as_u8_i8; [by apply decode_padded|].
  unfold addr_of. apply Forall_app_2; [by apply Forall_map|].
  apply Forall_app_2; [apply Forall_replicate; unfold is_byte; lia|].
  constructor; [unfold is_byte; lia|done].
Qed.

(** * Buffers *)
Lemma field_app_l o n l r : (o + n ≤ List.length l)%nat → field o n (l ++ r) = field o n l.
Proof.
  intros Hl. unfold field. rewrite drop_app_le by lia.
  by rewrite take_app_le by (rewrite length_drop; lia).
Qed.

Lemma field_app_r o n l r : (List.length l ≤ o)%nat →
  field o n (l ++ r) = field (o - List.length l) n r.
Proof. intros Hl. unfold field. by rewrite drop_app_ge. Qed.

Lemma field_take o n k mem : (o + n ≤ k)%nat → field o n (take k mem) = field o n mem.
Proof.
  intros Hk. unfold field. rewrite List.skipn_firstn_comm.
  by rewrite take_take, Nat.min_l by lia.
Qed.

Lemma field_copy o n k src mem : (o + n ≤ k)%nat → (k ≤ List.length src)%nat →
  field o n (copy_to src k mem) = field o n src.
Proof.
  intros Hk Hl. unfold copy_to. rewrite field_app_l by (rewrite length_take; lia).
  by apply field_take.
Qed.

Lemma length_copy_to src k mem : (k ≤ List.length src)%nat → (k ≤ List.length mem)%nat →
  List.length (copy_to src k mem) = List.length mem ∧ drop k (copy_to src k mem) = drop k mem.
Proof.
  intros Hs Hm. unfold copy_to. split.
  - rewrite length_app, length_take, length_drop. lia.
  - rewrite drop_app_ge by (rewrite length_take; lia). rewrite length_take.
    by replace (k - k `min` List.length src)%nat with 0%nat by lia.
Qed.

Lemma length_encode call : List.length (encode call) = 7%nat.
Proof.
  unfold encode. destruct (split_once 45 call) as [[b s]|]; unfold as_i8, encode_chars;
    by rewrite length_map, length_app, length_map, length_seq.
Qed.

Lemma length_sockaddr_bytes pad call nd : List.length pad = 3%nat →
  List.length (sockaddr_bytes pad (encode call) nd) = size_of_sockaddr.
Proof.
  intros Hp. unfold sockaddr_bytes, as_u8, le_bytes.
  rewrite !length_app, !length_map, length_encode, Hp. done.
Qed.

Lemma encode_call_text_bytes chars ssid : wf_call chars → 0 ≤ ssid ≤ 15 →
  as_u8 (encode (call_text chars ssid)) = addr_of chars ssid.
Proof.
  intros Hc Hs. pose proof (addr_of_bytes chars ssid Hc Hs) as [Hb _].
  destruct Hc as [Hl Hf]. unfold call_text. pose proof (upper_id _ Hf) as Hu.
  assert (Forall is_ascii chars) as Ha by (eapply Forall_impl; [exact Hf|apply call_char_ascii]).
  assert (45 ∉ chars) as Hd by (by apply alnum_not_dash, call_chars_alnum).
  destruct (Z.eqb_spec ssid 0) as [->|Hne].
  - rewrite app_nil_r, encode_bare, Hu by done. by apply as_u8_i8.
  - unfold encode. rewrite split_once_app by done.
    unfold parse_u8. rewrite parse_unsigned_digits;
      [|apply u8_to_string_nonempty|apply u8_to_string_digits; lia].
    rewrite u8_to_string_value by lia. destruct (Z.leb_spec ssid 255); [|lia].
    cbn [default from_option id]. rewrite ssid_low, Z.mod_small by lia.
    rewrite encode_addr_of, Hu by done. by apply as_u8_i8.
Qed.

Lemma field_sockaddr_call pad call nd r :
  field 2 7 (sockaddr_bytes pad (encode call) nd ++ r) = as_u8 (encode call).
Proof.
  unfold sockaddr_bytes. rewrite <- !app_assoc, field_app_r by (simpl; lia).
  change (2 - List.length (le_bytes 2 AF_AX25))%nat with 0%nat.
  rewrite field_app_l by (unfold as_u8; rewrite length_map, length_encode; lia).
  unfold field. simpl drop. apply take_ge. unfold as_u8. by rewrite length_map, length_encode.
Qed.

Lemma decode_text chars ssid : wf_call chars → 0 ≤ ssid ≤ 15 →
  decode (as_i8 (as_u8 (encode (call_text chars ssid)))) = call_text chars ssid.
Proof.
  intros Hc Hs. rewrite decode_decode_entry, encode_call_text_bytes by done.
  rewrite as_u8_i8 by (by apply addr_of_bytes). by apply decode_addr_of.
Qed.

(** A callsign written into a caller's buffer is read back from it; only
    the bytes the caller offered, and at most sixteen, change. *)
Theorem write_read_call pad mem avail chars ssid :
  List.length pad = 3%nat → wf_call chars → 0 ≤ ssid ≤ 15 →
  (9 ≤ avail ≤ List.length mem)%nat →
  ∃ mem', write_call pad (Some mem) (Some avail) (call_text chars ssid)
            = (Some mem', Some size_of_sockaddr) ∧
    read_call (Some mem') avail = Some (call_text chars ssid) ∧
    List.length mem' = List.length mem ∧
    drop (Nat.min avail size_of_sockaddr) mem' = drop (Nat.min avail size_of_sockaddr) mem.
Proof.
  intros Hpad Hc Hs Hav. eexists. split; [reflexivity|].
  pose proof (length_sockaddr_bytes pad (call_text chars ssid) 0 Hpad) as Hlen.
  unfold size_of_sockaddr in *. split.
  - unfold read_call. rewrite decide_False by (unfold size_of_address; lia).
    rewrite field_copy by lia.
    rewrite <- (app_nil_r (sockaddr_bytes _ _ _)), field_sockaddr_call. by rewrite decode_text.
  - apply length_copy_to; lia.
Qed.

(** The digipeater count and the first slot of a [getsockname] value. *)
Definition sockname_bytes (call : str) : list Z :=
  sockaddr_bytes [0; 0; 0] (encode call) 1 ++ as_u8 (encode call)
  ++ replicate (7 * size_of_address) 0.

Lemma sockname_fields call :
  List.length (sockname_bytes call) = 72%nat ∧
  field 2 7 (sockname_bytes call) = as_u8 (encode call) ∧
  field 12 4 (sockname_bytes call) = le_bytes 4 1 ∧
  field 16 7 (sockname_bytes call) = as_u8 (encode call).
Proof.
  pose proof (length_sockaddr_bytes [0; 0; 0] call 1 eq_refl) as Hlen.
  assert (List.length (as_u8 (encode call)) = 7%nat) as H7.
  { unfold as_u8. by rewrite length_map, length_encode. }
  unfold sockname_bytes. split_and!.
  - by rewrite !length_app, Hlen, H7, length_replicate.
  - apply field_sockaddr_call.
  - unfold sockaddr_bytes. rewrite <- !app_assoc, field_app_r by (simpl; lia).
    change (12 - List.length (le_bytes 2 AF_AX25))%nat with 10%nat.
    by rewrite field_app_r, H7 by lia.
  - rewrite field_app_r, Hlen by (rewrite Hlen; unfold size_of_sockaddr; lia).
    rewrite field_app_l by (unfold size_of_sockaddr; lia).
    unfold field. simpl drop. apply take_ge. lia.
Qed.

(** The local callsign [getsockname] reports is read back both as the
    address and as the only digipeater, where ax25d looks for it. *)
Theorem write_read_sockname mem avail chars ssid :
  wf_call chars → 0 ≤ ssid ≤ 15 → chars ≠ [] → (23 ≤ avail ≤ List.length mem)%nat →
  ∃ mem', write_sockname (Some mem) (Some avail) (call_text chars ssid)
            = (Some mem', Some 72%nat) ∧
    read_call (Some mem') avail = Some (call_text chars ssid) ∧
    read_digipeaters (Some mem') avail = [call_text chars ssid] ∧
    List.length mem' = List.length mem.
Proof.
  intros Hc Hs Hne Hav. eexists. split; [reflexivity|].
  change (Z.to_nat size_of_full_sockaddr) with 72%nat.
  fold (sockname_bytes (call_text chars ssid)).
  destruct (sockname_fields (call_text chars ssid)) as (Hsrc & Hcall & Hnd & Hd0).
  split_and!; [| |apply length_copy_to; lia].
  - unfold read_call. rewrite decide_False by (unfold size_of_address; lia).
    by rewrite field_copy, Hcall, decode_text by (done || lia).
  - unfold read_digipeaters, size_of_sockaddr. rewrite decide_False by lia.
    rewrite field_copy, Hnd by lia. change (read_c_int (le_bytes 4 1)) with 1.
    rewrite decide_False by done.
    assert (1 ≤ (avail - 16) / size_of_address)%nat as Hfit.
    { unfold size_of_address. apply Nat.div_le_lower_bound; lia. }
    change (Z.to_nat (Z.max 1 0)) with 1%nat. rewrite (Nat.min_l 1) by lia.
    change (Nat.min 1 AX25_MAX_DIGIS) with 1%nat. rewrite decide_False by done.
    cbn [seq map]. change (16 + 7 * 0)%nat with 16%nat.
    rewrite field_copy, Hd0, decode_text by (done || lia).
    rewrite filter_cons_True; [done|]. unfold call_text. by destruct chars.
Qed.

(** Reading an address and its digipeater path looks only at the bytes the
    caller's length covers, and yields at most eight digipeaters. *)
Theorem read_within_len mem len :
  read_call (Some mem) len = read_call (Some (take len mem)) len ∧
  read_digipeaters (Some mem) len = read_digipeaters (Some (take len mem)) len ∧
  (List.length (read_digipeaters (Some mem) len) ≤ AX25_MAX_DIGIS)%nat.
Proof.
  split_and!.
  - unfold read_call, size_of_address. case_decide; [done|]. by rewrite field_take by lia.
  - unfold read_digipeaters, size_of_sockaddr. case_decide as Hlen; [done|].
    rewrite (field_take 12 4) by lia. do 2 (case_decide; [done|]). f_equal.
    apply map_ext_in. intros i Hi%in_seq. rewrite field_take; [done|].
    unfold size_of_address in *.
    pose proof (Nat.Div0.mul_div_le (len - 16) 7). lia.
  - unfold read_digipeaters. repeat case_decide; simpl; try lia.
    etrans; [apply length_filter|]. rewrite length_map, length_seq. lia.
Qed.

(** * Witnesses *)
Lemma encode_ssid_witness :
  encode (lit "M0LTE-17") = as_i8 (addr_of (lit "M0LTE") 1) ∧
  encode (lit "m0lte") = as_i8 (addr_of (lit "M0LTE") 0).
Proof.
  destruct (encode_ssid (lit "M0LTE") (lit "17")) as (H1 & _ & _).
  - vm_compute. lia.
  - repeat constructor.
  - done.
  - repeat constructor.
  - split; [exact H1|reflexivity].
Defined.

Lemma encode_keeps_symbols_witness : decode (encode (lit "m0*te")) = lit "M0*TE".
Proof.
  apply (encode_keeps_symbols (lit "m0*te")); [vm_compute; lia|by_decide|by_decide].
Defined.

Lemma wf_call_gb7rdg : wf_call (lit "GB7RDG").
Proof. split; [vm_compute; lia|repeat constructor]. Qed.

Lemma write_read_call_witness :
  ∃ mem', write_call [7; 7; 7] (Some (replicate 12 1)) (Some 10%nat) (lit "GB7RDG-1")
            = (Some mem', Some 16%nat) ∧
    read_call (Some mem') 10 = Some (lit "GB7RDG-1").
Proof.
  destruct (write_read_call [7; 7; 7] (replicate 12 1) 10 (lit "GB7RDG") 1) as (mem' & H1 & H2 & _).
  - reflexivity.
  - exact wf_call_gb7rdg.
  - lia.
  - vm_compute. lia.
  - exists mem'. split; [exact H1|exact H2].
Defined.

Lemma write_read_sockname_witness :
  ∃ mem', write_sockname (Some (replicate 72 1)) (Some 72%nat) (lit "GB7RDG-1")
            = (Some mem', Some 72%nat) ∧
    read_digipeaters (Some mem') 72 = [lit "GB7RDG-1"].
Proof.
  destruct (write_read_sockname (replicate 72 1) 72 (lit "GB7RDG") 1) as (mem' & H1 & _ & H2 & _).
  - exact wf_call_gb7rdg.
  - lia.
  - discriminate.
  - vm_compute. lia.
  - exists mem'. split; [exact H1|exact H2].
Defined.
