(* ===== verification/Codec.v ===== *)
(** [crates/rhpv2/src/codec.rs]: the Latin-1 mapping of the [data] fields. *)
From stdpp Require Import prelude gmap.
From Stdlib Require Import ZArith Lia.
From S2P Require Import Prelude Str.
Local Open Scope Z_scope.

(** [b as char] is the code point of the byte; [c as u8] its low byte. *)
Definition to_wire_string (bytes : list Z) : str := map (λ b, b) bytes.
Definition from_wire_string (s : str) : list Z := map u8 s.

Lemma to_wire_string_id bytes : to_wire_string bytes = bytes.
Proof. apply map_id. Qed.

Lemma from_to_wire bytes : Forall is_byte bytes → from_wire_string (to_wire_string bytes) = bytes.
Proof.
  rewrite to_wire_string_id. induction 1 as [|b l Hb _ IH]; [done|]. simpl.
  rewrite u8_id by done. f_equal. exact IH.
Qed.

Lemma to_wire_scalar bytes : Forall is_byte bytes → Forall is_scalar (to_wire_string bytes).
Proof.
  rewrite to_wire_string_id. intros Hb. eapply Forall_impl; [exact Hb|].
  unfold is_byte, is_scalar. lia.
Qed.

(** Any bytes survive the wire: as a UTF-8 string of at most two bytes each
    they decode to one character per byte and back to themselves. *)
Theorem wire_roundtrip bytes : Forall is_byte bytes →
  ∃ s, from_utf8 (as_bytes (to_wire_string bytes)) = Some s ∧
    List.length s = List.length bytes ∧ from_wire_string s = bytes ∧
    (List.length (as_bytes (to_wire_string bytes)) ≤ 2 * List.length bytes)%nat.
Proof.
  intros Hb. exists (to_wire_string bytes). split_and!.
  - by apply from_utf8_as_bytes, to_wire_scalar.
  - by rewrite to_wire_string_id.
  - by apply from_to_wire.
  - rewrite to_wire_string_id. induction Hb as [|b l Hb _ IH]; [done|].
    rewrite as_bytes_cons, length_app. unfold utf8_char, is_byte in *.
    destruct (b <? 0x80); [simpl; lia|]. destruct (Z.ltb_spec b 0x800); simpl; lia.
Qed.

Lemma wire_roundtrip_witness :
  ∃ s, from_utf8 (as_bytes (to_wire_string [0; 13; 34; 92; 128; 255])) = Some s ∧
    from_wire_string s = [0; 13; 34; 92; 128; 255].
Proof.
  destruct (wire_roundtrip [0; 13; 34; 92; 128; 255]) as (s & H1 & _ & H2 & _).
  - by_decide.
  - exists s. split; [exact H1|exact H2].
Defined.
