(* ===== verification/Framing.v ===== *)
(** [crates/rhpv2/src/framing.rs]: frames of a two-byte big-endian length and
    that many bytes.

    A reader is the bytes it will still deliver and what follows them; a writer
    is the bytes written and, if it fails, after how many more. *)
From stdpp Require Import prelude gmap.
From Stdlib Require Import ZArith Lia.
From S2P Require Import Prelude Str.
Local Open Scope Z_scope.

Inductive io_error := UnexpectedEof | InvalidInput | InvalidData | BrokenPipe | OtherIo.
#[export] Instance io_error_eq_dec : EqDecision io_error.
Proof. solve_decision. Defined.

(** [rd_end] is [None] for end of stream, [Some e] for an error. *)
Record reader := mkReader { rd_bytes : list Z; rd_end : option io_error }.
(** [wr_left] is [None] for a writer that never fails. *)
Record writer := mkWriter { wr_bytes : list Z; wr_left : option nat }.

(** [Read::read_exact] and [Write::write_all]. *)
Definition read_exact (r : reader) (n : nat) : result (list Z) io_error * reader :=
  if decide (n ≤ List.length (rd_bytes r))%nat
  then (Ok (take n (rd_bytes r)), mkReader (drop n (rd_bytes r)) (rd_end r))
  else (Err (default UnexpectedEof (rd_end r)), mkReader [] (rd_end r)).

Definition write_all (w : writer) (b : list Z) : result unit io_error * writer :=
  match wr_left w with
  | None => (Ok tt, mkWriter (wr_bytes w ++ b) None)
  | Some k =>
    if decide (List.length b ≤ k)%nat
    then (Ok tt, mkWriter (wr_bytes w ++ b) (Some (k - List.length b)%nat))
    else (Err OtherIo, mkWriter (wr_bytes w ++ take k b) (Some 0%nat))
  end.

Definition MAX_FRAME : Z := 65535.

(** [(len as u16).to_be_bytes()] and [u16::from_be_bytes]. *)
Definition to_be_bytes (len : Z) : list Z := [u8 (Z.shiftr (u16 len) 8); u8 (u16 len)].
Definition from_be_bytes (b : list Z) : Z := nth 0 b 0 * 256 + nth 1 b 0.

Definition write_frame (w : writer) (payload : list Z) : result unit io_error * writer :=
  if MAX_FRAME <? Z.of_nat (List.length payload) then (Err InvalidInput, w)
  else
    let len := to_be_bytes (Z.of_nat (List.length payload)) in
    match write_all w len with
    | (Err e, w) => (Err e, w)
    | (Ok _, w) => write_all w payload
    end.

Definition read_frame (r : reader) : result (option (list Z)) io_error * reader :=
  match read_exact r 2 with
  | (Err UnexpectedEof, r) => (Ok None, r)
  | (Err e, r) => (Err e, r)
  | (Ok len_buf, r) =>
    let len := Z.to_nat (from_be_bytes len_buf) in
    match read_exact r len with
    | (Ok body, r) => (Ok (Some body), r)
    | (Err e, r) => (Err e, r)
    end
  end.

(** The bytes of a frame. *)
Definition frame_bytes (payload : list Z) : list Z :=
  to_be_bytes (Z.of_nat (List.length payload)) ++ payload.

(** A sequence of writes, and of reads up to the end of the stream. *)
Fixpoint write_frames (w : writer) (ps : list (list Z)) : result unit io_error * writer :=
  match ps with
  | [] => (Ok tt, w)
  | p :: r => match write_frame w p with
              | (Err e, w) => (Err e, w)
              | (Ok _, w) => write_frames w r
              end
  end.

Fixpoint read_frames (fuel : nat) (r : reader) : result (list (list Z)) io_error :=
  match fuel with
  | O => Ok []
  | S fuel =>
    match read_frame r with
    | (Ok None, _) => Ok []
    | (Ok (Some b), r) =>
      match read_frames fuel r with Ok bs => Ok (b :: bs) | Err e => Err e end
    | (Err e, _) => Err e
    end
  end.

Lemma from_to_be_bytes n : 0 ≤ n ≤ 65535 → from_be_bytes (to_be_bytes n) = n.
Proof.
  intros Hn. unfold from_be_bytes, to_be_bytes, u8, u16. simpl nth.
  rewrite (Z.mod_small n) by lia. rewrite Z.shiftr_div_pow2 by lia.
  change (2 ^ 8) with 256. pose proof (Z.div_mod n 256 ltac:(lia)).
  rewrite (Z.mod_small (n / 256)); [lia|].
  split; [apply Z.div_pos; lia|apply Z.div_lt_upper_bound; lia].
Qed.

Lemma read_frame_app p rest e : Z.of_nat (List.length p) ≤ MAX_FRAME →
  read_frame (mkReader (frame_bytes p ++ rest) e) = (Ok (Some p), mkReader rest e).
Proof.
  unfold MAX_FRAME. intros Hp. unfold read_frame, read_exact, frame_bytes. cbn [rd_bytes rd_end].
  rewrite <- app_assoc. rewrite decide_True by (simpl; lia).
  change (take 2 (to_be_bytes ?n ++ ?r)) with (to_be_bytes n).
  change (drop 2 (to_be_bytes (Z.of_nat (List.length p)) ++ p ++ rest)) with (p ++ rest).
  cbn [rd_bytes rd_end].
  rewrite from_to_be_bytes, Nat2Z.id by lia.
  rewrite decide_True by (rewrite length_app; lia).
  by rewrite take_app_length, drop_app_length.
Qed.

Lemma write_frame_ok w p : wr_left w = None → Z.of_nat (List.length p) ≤ MAX_FRAME →
  write_frame w p = (Ok tt, mkWriter (wr_bytes w ++ frame_bytes p) None).
Proof.
  intros Hw Hp. unfold write_frame.
  destruct (Z.ltb_spec MAX_FRAME (Z.of_nat (List.length p))); [lia|].
  unfold write_all at 1. rewrite Hw. unfold write_all. simpl.
  by rewrite <- app_assoc.
Qed.

Lemma read_frames_concat ps fuel :
  Forall (λ p, Z.of_nat (List.length p) ≤ MAX_FRAME) ps → (List.length ps < fuel)%nat →
  read_frames fuel (mkReader (ps ≫= frame_bytes) None) = Ok ps.
Proof.
  intros Hps. revert fuel.
  induction Hps as [|p ps Hp _ IH]; intros [|fuel] Hfuel; try (simpl in *; lia); [done|].
  cbn [read_frames]. change ((p :: ps) ≫= frame_bytes) with (frame_bytes p ++ (ps ≫= frame_bytes)).
  rewrite read_frame_app by done. rewrite IH; [done|]. simpl in *. lia.
Qed.

(** C34: frames written one after another to a stream are read back one by one,
    and then the clean end. *)
Theorem frames_roundtrip ps fuel :
  Forall (λ p, Z.of_nat (List.length p) ≤ MAX_FRAME) ps → (List.length ps < fuel)%nat →
  ∃ bytes, write_frames (mkWriter [] None) ps = (Ok tt, mkWriter bytes None) ∧
    read_frames fuel (mkReader bytes None) = Ok ps.
Proof.
  intros Hps Hfuel. exists (ps ≫= frame_bytes). split.
  - assert (∀ acc, write_frames (mkWriter acc None) ps
      = (Ok tt, mkWriter (acc ++ (ps ≫= frame_bytes)) None)) as Hgo; [|apply (Hgo [])].
    clear Hfuel. induction Hps as [|p ps Hp _ IH]; intros acc.
    { simpl. by rewrite app_nil_r. }
    cbn [write_frames]. rewrite write_frame_ok by done. cbn [wr_bytes]. rewrite IH.
    by rewrite <- app_assoc.
  - by apply read_frames_concat.
Qed.

(** A stream that ends inside a frame never yields that frame; it is a clean
    end when it stops inside the length, and an error when it stops later. *)
Theorem read_frame_cut p k : Z.of_nat (List.length p) ≤ MAX_FRAME →
  (k < List.length (frame_bytes p))%nat →
  fst (read_frame (mkReader (take k (frame_bytes p)) None)) =
    if decide (k < 2)%nat then Ok None else Err UnexpectedEof.
Proof.
  unfold MAX_FRAME. intros Hp Hk. unfold read_frame, read_exact. cbn [rd_bytes rd_end].
  rewrite length_take. destruct (decide (k < 2)%nat) as [H2|H2].
  { by rewrite decide_False by lia. }
  rewrite decide_True by lia.
  assert (take 2 (take k (frame_bytes p)) = to_be_bytes (Z.of_nat (List.length p))) as ->.
  { rewrite take_take, Nat.min_l by lia. done. }
  rewrite from_to_be_bytes, Nat2Z.id by lia. cbn [rd_bytes rd_end].
  rewrite decide_False; [done|]. rewrite length_drop, length_take.
  unfold frame_bytes in *. rewrite length_app in *. simpl in *. lia.
Qed.

(** A payload over the limit is refused before anything is written, and a
    frame within it is written whole or the write fails. *)
Theorem write_frame_bounds w p :
  (MAX_FRAME < Z.of_nat (List.length p) → write_frame w p = (Err InvalidInput, w)) ∧
  (Z.of_nat (List.length p) ≤ MAX_FRAME → ∀ w', write_frame w p = (Ok tt, w') →
     wr_bytes w' = wr_bytes w ++ frame_bytes p).
Proof.
  unfold write_frame. split; intros Hp.
  { destruct (Z.ltb_spec MAX_FRAME (Z.of_nat (List.length p))); [done|lia]. }
  destruct (Z.ltb_spec MAX_FRAME (Z.of_nat (List.length p))); [lia|].
  intros w'. unfold write_all, frame_bytes. destruct (wr_left w) as [k|]; simpl.
  - destruct k as [|[|k]]; simpl; [done..|].
    case_decide; simpl; [|done]. intros [= <-]. simpl. by rewrite <- app_assoc.
  - intros [= <-]. simpl. by rewrite <- app_assoc.
Qed.

(** * Witnesses *)
Lemma frames_roundtrip_witness :
  ∃ bytes, write_frames (mkWriter [] None) [[1; 2; 3]; []; [255]] = (Ok tt, mkWriter bytes None) ∧
    read_frames 4 (mkReader bytes None) = Ok [[1; 2; 3]; []; [255]].
Proof.
  apply frames_roundtrip; [|simpl; lia]. repeat constructor; simpl; unfold MAX_FRAME; lia.
Defined.

Lemma read_frame_cut_witness :
  fst (read_frame (mkReader [0] None)) = Ok None ∧
  fst (read_frame (mkReader [0; 3; 1] None)) = Err UnexpectedEof.
Proof.
  split.
  - apply (read_frame_cut [7; 7; 7] 1); simpl; [unfold MAX_FRAME|]; lia.
  - apply (read_frame_cut [1; 7; 7] 3); simpl; [unfold MAX_FRAME|]; lia.
Defined.

Lemma write_frame_bounds_witness :
  write_frame (mkWriter [] None) (replicate (Z.to_nat 65536) 0) = (Err InvalidInput, mkWriter [] None) ∧
  wr_bytes (snd (write_frame (mkWriter [9] (Some 5%nat)) [1; 2])) = [9; 0; 2; 1; 2].
Proof.
  split.
  - apply (write_frame_bounds (mkWriter [] None) (replicate (Z.to_nat 65536) 0)).
    rewrite length_replicate, Z2Nat.id by lia. unfold MAX_FRAME. lia.
  - apply (write_frame_bounds (mkWriter [9] (Some 5%nat)) [1; 2]);
      [unfold MAX_FRAME; simpl; lia|reflexivity].
Defined.
