(* ===== verification/Errors.v ===== *)
(** [crates/rhpv2/src/errors.rs]: RHPv2 error codes as POSIX errno values.

    The errno constants are the ones Linux's [errno.h] fixes; the sources take
    them by name. *)
From stdpp Require Import prelude.
From Stdlib Require Import ZArith Lia String.
From S2P Require Import Prelude Str.
Local Open Scope Z_scope.

Definition EINTR : Z := 4.
Definition EIO : Z := 5.
Definition EBADF : Z := 9.
Definition EAGAIN : Z := 11.
Definition EACCES : Z := 13.
Definition EINVAL : Z := 22.
Definition ENFILE : Z := 23.
Definition EPIPE : Z := 32.
Definition EDESTADDRREQ : Z := 89.
Definition EOPNOTSUPP : Z := 95.
Definition EAFNOSUPPORT : Z := 97.
Definition EADDRINUSE : Z := 98.
Definition EADDRNOTAVAIL : Z := 99.
Definition ECONNABORTED : Z := 103.
Definition ECONNRESET : Z := 104.
Definition ENOTCONN : Z := 107.
Definition ETIMEDOUT : Z := 110.
Definition ECONNREFUSED : Z := 111.
Definition EHOSTUNREACH : Z := 113.
Definition EINPROGRESS : Z := 115.

Definition errcode_to_errno (errcode : Z) : Z :=
  match errcode with
  | 0 => 0
  | 3 => EBADF
  | 6 => EADDRNOTAVAIL
  | 7 => EINVAL
  | 8 => EAFNOSUPPORT
  | 9 => EADDRINUSE
  | 14 => EACCES
  | 15 => EHOSTUNREACH
  | 16 => EOPNOTSUPP
  | 17 => ENOTCONN
  | 12 => EINVAL
  | _ => EIO
  end.

Definition errcode_name (errcode : Z) : str :=
  match errcode with
  | 0 => lit "Ok"
  | 3 => lit "Invalid handle"
  | 6 => lit "Invalid local address"
  | 7 => lit "Invalid remote address"
  | 8 => lit "Bad or missing family"
  | 9 => lit "Duplicate socket"
  | 12 => lit "Bad parameter"
  | 14 => lit "Unauthorised"
  | 15 => lit "No route"
  | 16 => lit "Operation not supported"
  | 17 => lit "Not connected"
  | _ => lit "Unspecified"
  end.

(** The codes both tables name. *)
Definition known_codes : list Z := [0; 3; 6; 7; 8; 9; 12; 14; 15; 16; 17].

(** Both tables fall through to their default exactly outside [known_codes]. *)
Lemma errcode_cases c :
  c ∈ known_codes ∨ (errcode_to_errno c = EIO ∧ errcode_name c = lit "Unspecified").
Proof.
  destruct c as [|p|p]; [left; by_decide| |by right].
  do 5 (destruct p as [p|p|]; try (by right); try (left; by_decide)).
Qed.

(** A decided property of every known code. *)
Lemma known_codes_decide (P : Z → Prop) `{!∀ x, Decision (P x)} c :
  bool_decide (Forall P known_codes) = true → c ∈ known_codes → P c.
Proof. rewrite bool_decide_eq_true, Forall_forall. auto. Qed.

Lemma errcode_to_errno_range c : c ≠ 0 → 1 ≤ errcode_to_errno c ≤ 133.
Proof.
  intros Hc. destruct (errcode_cases c) as [Hin|[-> _]]; [|unfold EIO; lia].
  revert Hc. by apply (known_codes_decide (λ c, c ≠ 0 → 1 ≤ errcode_to_errno c ≤ 133)).
Qed.

(** A code without a name of its own has no errno of its own either, and
    conversely: the unnamed codes are exactly those reported as [EIO]. *)
Lemma errcode_unnamed c : errcode_name c = lit "Unspecified" ↔ errcode_to_errno c = EIO.
Proof.
  destruct (errcode_cases c) as [Hin|[-> ->]]; [|done].
  by apply (known_codes_decide (λ c, errcode_name c = lit "Unspecified" ↔ errcode_to_errno c = EIO)).
Qed.
