(* ===== verification/Messages.v ===== *)
(** [crates/rhpv2/src/messages.rs]: the RHPv2 requests and the accessors over a
    parsed reply or push.

    [serde_json] is a third-party library: the type of JSON values, its
    accessors, the parser and the printer are the parameters of the class
    [SerdeJson]; [SerdeJsonLaws] states what the sources rely on.  A request is
    printed from the fields [#[derive(Serialize)]] lists, in declaration order. *)
From stdpp Require Import prelude gmap.
From Stdlib Require Import ZArith Lia String.
From S2P Require Import Prelude Str.
Local Open Scope Z_scope.

Definition OPEN_FLAG_ACTIVE : Z := 128.
Definition OPEN_FLAG_PASSIVE : Z := 0.
Definition STATUS_CONNECTED : Z := 0x02.
Definition MAX_SEND_CHUNK : Z := 8100.

(** * serde_json *)
Inductive jfield := JStr (s : str) | JNum (n : Z).

Class SerdeJson := {
  Value : Type;
  get : Value → str → option Value;
  as_str : Value → option str;
  as_u64 : Value → option Z;
  as_i64 : Value → option Z;
  from_slice : list Z → option Value;
  to_vec : list (str * jfield) → option (list Z)
}.

Definition jfield_ok (f : jfield) : Prop :=
  match f with JStr s => Forall is_scalar s | JNum n => 0 ≤ n < 2 ^ 64 end.
#[export] Instance jfield_ok_dec f : Decision (jfield_ok f).
Proof. destruct f; simpl; apply _. Defined.

(** Fields a struct can have: valid values under distinct names. *)
Definition fields_ok (fs : list (str * jfield)) : Prop :=
  Forall (λ f, Forall is_scalar f.1 ∧ jfield_ok f.2) fs ∧ NoDup fs.*1.
#[export] Instance fields_ok_dec fs : Decision (fields_ok fs).
Proof. unfold fields_ok. apply _. Defined.

(** An upper bound on the size of a field in JSON: at most six bytes for a
    character (an escape), twenty digits for a number, quotes and separators. *)
Definition json_size (f : str * jfield) : nat :=
  6 * List.length f.1 + 4 +
  match f.2 with JStr s => 6 * List.length s + 2 | JNum _ => 20 end.

(** What a value read back from the printed field is. *)
Definition reads_as `{!SerdeJson} (v : option Value) (f : option jfield) : Prop :=
  match f with
  | None => v = None
  | Some (JStr s) => (v ≫= as_str) = Some s ∧ (v ≫= as_u64) = None ∧ (v ≫= as_i64) = None
  | Some (JNum n) => (v ≫= as_u64) = Some n ∧ (v ≫= as_str) = None ∧
                     (n < 2 ^ 63 → (v ≫= as_i64) = Some n)
  end.

Fixpoint assoc (k : str) (fs : list (str * jfield)) : option jfield :=
  match fs with
  | [] => None
  | (k', v) :: r => if decide (k' = k) then Some v else assoc k r
  end.

Class SerdeJsonLaws `{!SerdeJson} : Prop := {
  to_vec_from_slice fs : fields_ok fs → ∃ bytes v,
    to_vec fs = Some bytes ∧ from_slice bytes = Some v ∧
    (∀ k, reads_as (get v k) (assoc k fs)) ∧
    (List.length bytes ≤ 2 + sum_list_with json_size fs)%nat
}.

(** * Requests *)
Record OpenReq := {
  open_typ : str; open_id : Z; open_pfam : str; open_mode : str; open_port : option str;
  open_local : str; open_remote : option str; open_via : option str; open_flags : Z }.
Record SendReq := { send_typ : str; send_id : Z; send_handle : Z; send_data : str }.
Record CloseReq := { close_typ : str; close_id : Z; close_handle : Z }.
Record SocketReq := { socket_typ : str; socket_id : Z; socket_pfam : str; socket_mode_ : str }.
Record SendToReq := {
  sendto_typ : str; sendto_id : Z; sendto_handle : Z; sendto_remote : str;
  sendto_local : str; sendto_data : str }.
Record BindReq := {
  bind_typ : str; bind_id : Z; bind_handle : Z; bind_local : str; bind_port : option str }.
Record ListenReq := { listen_typ : str; listen_id : Z; listen_handle : Z; listen_flags : Z }.
Record AuthReq := { auth_typ : str; auth_id : Z; auth_user : str; auth_pass : str }.

(** [skip_serializing_if = "Option::is_none"]. *)
Definition opt_field (k : str) (o : option str) : list (str * jfield) :=
  match o with Some s => [(k, JStr s)] | None => [] end.

Class Serialize (A : Type) := fields : A → list (str * jfield).
#[export] Instance ser_OpenReq : Serialize OpenReq := λ r,
  [(lit "type", JStr (open_typ r)); (lit "id", JNum (open_id r));
   (lit "pfam", JStr (open_pfam r)); (lit "mode", JStr (open_mode r))] ++
  opt_field (lit "port") (open_port r) ++ [(lit "local", JStr (open_local r))] ++
  opt_field (lit "remote") (open_remote r) ++ opt_field (lit "via") (open_via r) ++
  [(lit "flags", JNum (open_flags r))].
#[export] Instance ser_SendReq : Serialize SendReq := λ r,
  [(lit "type", JStr (send_typ r)); (lit "id", JNum (send_id r));
   (lit "handle", JNum (send_handle r)); (lit "data", JStr (send_data r))].
#[export] Instance ser_CloseReq : Serialize CloseReq := λ r,
  [(lit "type", JStr (close_typ r)); (lit "id", JNum (close_id r));
   (lit "handle", JNum (close_handle r))].
#[export] Instance ser_SocketReq : Serialize SocketReq := λ r,
  [(lit "type", JStr (socket_typ r)); (lit "id", JNum (socket_id r));
   (lit "pfam", JStr (socket_pfam r)); (lit "mode", JStr (socket_mode_ r))].
#[export] Instance ser_SendToReq : Serialize SendToReq := λ r,
  [(lit "type", JStr (sendto_typ r)); (lit "id", JNum (sendto_id r));
   (lit "handle", JNum (sendto_handle r)); (lit "remote", JStr (sendto_remote r));
   (lit "local", JStr (sendto_local r)); (lit "data", JStr (sendto_data r))].
#[export] Instance ser_BindReq : Serialize BindReq := λ r,
  [(lit "type", JStr (bind_typ r)); (lit "id", JNum (bind_id r));
   (lit "handle", JNum (bind_handle r)); (lit "local", JStr (bind_local r))] ++
  opt_field (lit "port") (bind_port r).
#[export] Instance ser_ListenReq : Serialize ListenReq := λ r,
  [(lit "type", JStr (listen_typ r)); (lit "id", JNum (listen_id r));
   (lit "handle", JNum (listen_handle r)); (lit "flags", JNum (listen_flags r))].
#[export] Instance ser_AuthReq : Serialize AuthReq := λ r,
  [(lit "type", JStr (auth_typ r)); (lit "id", JNum (auth_id r));
   (lit "user", JStr (auth_user r)); (lit "pass", JStr (auth_pass r))].

(** * Frames *)
Section frame.
Context `{!SerdeJson}.

Definition Frame : Type := Value.

Definition parse (bytes : list Z) : option Frame := from_slice bytes.
Definition typ (f : Frame) : str := default [] (get f (lit "type") ≫= as_str).
Definition id (f : Frame) : option Z := get f (lit "id") ≫= as_u64.
Definition handle (f : Frame) : option Z := get f (lit "handle") ≫= as_u64.
Definition child (f : Frame) : option Z := get f (lit "child") ≫= as_u64.
Definition seqno (f : Frame) : option Z := get f (lit "seqno") ≫= as_u64.

(** [Option::or_else]. *)
Definition or_else {A} (o o' : option A) : option A := match o with Some _ => o | None => o' end.

Definition errcode (f : Frame) : Z :=
  default 0 (or_else (get f (lit "errCode")) (get f (lit "errcode")) ≫= as_i64).
Definition status_flags (f : Frame) : Z :=
  default (errcode f) (or_else (get f (lit "flags")) (get f (lit "status")) ≫= as_i64).
Definition errtext (f : Frame) : option str :=
  or_else (get f (lit "errText")) (get f (lit "errtext")) ≫= as_str.
Definition data_str (f : Frame) : option str := get f (lit "data") ≫= as_str.
Definition is_dgram_recv (f : Frame) : bool :=
  bool_decide (is_Some (get f (lit "remote"))) || bool_decide (is_Some (get f (lit "port"))).
Definition remote (f : Frame) : option str := get f (lit "remote") ≫= as_str.
Definition local (f : Frame) : option str := get f (lit "local") ≫= as_str.

End frame.

(** * What the other side reads *)
Inductive request :=
| ROpen (r : OpenReq) | RSend (r : SendReq) | RClose (r : CloseReq) | RSocket (r : SocketReq)
| RSendTo (r : SendToReq) | RBind (r : BindReq) | RListen (r : ListenReq) | RAuth (r : AuthReq).

Definition request_fields (r : request) : list (str * jfield) :=
  match r with
  | ROpen r => fields r | RSend r => fields r | RClose r => fields r | RSocket r => fields r
  | RSendTo r => fields r | RBind r => fields r | RListen r => fields r | RAuth r => fields r
  end.
Definition request_typ (r : request) : str :=
  match r with
  | ROpen r => open_typ r | RSend r => send_typ r | RClose r => close_typ r
  | RSocket r => socket_typ r | RSendTo r => sendto_typ r | RBind r => bind_typ r
  | RListen r => listen_typ r | RAuth r => auth_typ r
  end.
Definition request_id (r : request) : Z :=
  match r with
  | ROpen r => open_id r | RSend r => send_id r | RClose r => close_id r
  | RSocket r => socket_id r | RSendTo r => sendto_id r | RBind r => bind_id r
  | RListen r => listen_id r | RAuth r => auth_id r
  end.
Definition request_handle (r : request) : option Z :=
  match r with
  | RSend r => Some (send_handle r) | RClose r => Some (close_handle r)
  | RSendTo r => Some (sendto_handle r) | RBind r => Some (bind_handle r)
  | RListen r => Some (listen_handle r) | _ => None
  end.
Definition request_data (r : request) : option str :=
  match r with
  | RSend r => Some (send_data r) | RSendTo r => Some (sendto_data r) | _ => None
  end.
Definition request_remote (r : request) : option str :=
  match r with
  | ROpen r => open_remote r | RSendTo r => Some (sendto_remote r) | _ => None
  end.
Definition request_local (r : request) : option str :=
  match r with
  | ROpen r => Some (open_local r) | RSendTo r => Some (sendto_local r)
  | RBind r => Some (bind_local r) | _ => None
  end.

Definition request_ok (r : request) : Prop := Forall (λ f, jfield_ok f.2) (request_fields r).
#[export] Instance request_ok_dec r : Decision (request_ok r).
Proof. unfold request_ok. apply _. Defined.

Lemma lit_scalar s : Forall is_scalar (lit s).
Proof.
  induction s as [|c s IH]; simpl; constructor; [|done].
  left. pose proof (Ascii.N_ascii_bounded c). lia.
Qed.

(** The names of a request's fields are literals, each used once. *)
Definition field_names : list str := lit <$>
  ["type"; "id"; "pfam"; "mode"; "port"; "local"; "remote"; "via"; "flags"; "handle";
   "data"; "user"; "pass"]%string.

Lemma request_names r :
  Forall (λ f, f.1 ∈ field_names) (request_fields r) ∧ NoDup (request_fields r).*1 ∧
  ∃ rest, request_fields r = (lit "type", JStr (request_typ r)) :: rest.
Proof.
  destruct r as [[? ? ? ? p ? q v ?]| | | | |[? ? ? ? p]| |];
    try destruct p; try destruct q; try destruct v;
    (split_and!; [repeat constructor; by_decide|by_decide|eexists; reflexivity]).
Qed.

Lemma request_fields_ok r : request_ok r → fields_ok (request_fields r).
Proof.
  intros Hok. destruct (request_names r) as (Hn & Hd & _). split; [|done].
  apply Forall_and. split; [|exact Hok]. eapply Forall_impl; [exact Hn|].
  simpl. intros [k v] Hk. simpl in *. unfold field_names in Hk.
  apply list_elem_of_fmap in Hk as (s & -> & _). apply lit_scalar.
Qed.

Section readback.
Context `{!SerdeJson, !SerdeJsonLaws}.

Lemma reads_str v f : reads_as v f → (v ≫= as_str) = (f ≫= λ j, match j with JStr s => Some s | JNum _ => None end).
Proof. destruct f as [[s|n]|]; simpl; [by intros (? & ? & ?)..|]. by intros ->. Qed.

Lemma reads_num v f : reads_as v f → (v ≫= as_u64) = (f ≫= λ j, match j with JStr _ => None | JNum n => Some n end).
Proof. destruct f as [[s|n]|]; simpl; [by intros (? & ? & ?)..|]. by intros ->. Qed.

(** C35: every request is printed with [type] first and each field once, and what
    the other side parses has its type, its id and its fields, an absent option
    being absent. *)
Theorem request_readback r : request_ok r →
  (∃ rest, request_fields r = (lit "type", JStr (request_typ r)) :: rest) ∧
  NoDup (request_fields r).*1 ∧
  ∃ bytes f, to_vec (request_fields r) = Some bytes ∧ parse bytes = Some f ∧
    typ f = request_typ r ∧ id f = Some (request_id r) ∧ handle f = request_handle r ∧
    data_str f = request_data r ∧ remote f = request_remote r ∧ local f = request_local r.
Proof.
  intros Hok. destruct (request_names r) as (_ & Hd & Hhead). split; [done|]. split; [done|].
  destruct (to_vec_from_slice _ (request_fields_ok r Hok)) as (bytes & v & Hb & Hv & Hget & _).
  exists bytes, v. split; [done|]. split; [done|].
  unfold typ, id, handle, data_str, remote, local.
  rewrite !(reads_str _ _ (Hget _)), !(reads_num _ _ (Hget _)).
  destruct r as [[? ? ? ? p ? q w ?]| | | | |[? ? ? ? p]| |];
    try destruct p; try destruct q; try destruct w; done.
Qed.
End readback.

(** * An instance

    A self-describing encoding that satisfies the laws: every character is four
    bytes after a tag, a number eight.  It lets the definitions be evaluated. *)
Module Tagged.

Inductive value := VObj (fs : list (str * jfield)) | VField (f : jfield).

Definition enc_char (c : Z) : list Z := [1; c mod 256; (c / 256) mod 256; c / 65536].
Definition enc_str (s : str) : list Z := (s ≫= enc_char) ++ [0].
Fixpoint enc_num (n : nat) (z : Z) : list Z :=
  match n with O => [] | S n => z mod 256 :: enc_num n (z / 256) end.
Definition enc_field (f : str * jfield) : list Z :=
  1 :: enc_str f.1 ++ match f.2 with JStr s => 1 :: enc_str s | JNum n => 2 :: enc_num 8 n end.
Definition enc (fs : list (str * jfield)) : list Z := (fs ≫= enc_field) ++ [0].

Fixpoint dec_str (b : list Z) : option (str * list Z) :=
  match b with
  | 0 :: r => Some ([], r)
  | 1 :: x :: y :: z :: r =>
    match dec_str r with Some (s, r) => Some (x + 256 * y + 65536 * z :: s, r) | None => None end
  | _ => None
  end.
Definition dec_num (b : list Z) : Z := foldr (λ x v, x + 256 * v) 0 b.
Definition dec_field (b : list Z) : option ((str * jfield) * list Z) :=
  match dec_str b with
  | Some (k, 1 :: r) =>
    match dec_str r with Some (s, r) => Some ((k, JStr s), r) | None => None end
  | Some (k, 2 :: r) => Some ((k, JNum (dec_num (take 8 r))), drop 8 r)
  | _ => None
  end.
Fixpoint dec (fuel : nat) (b : list Z) : option (list (str * jfield)) :=
  match fuel, b with
  | S fuel, 1 :: r =>
    match dec_field r with Some (f, r) => cons f <$> dec fuel r | None => None end
  | S _, [0] => Some []
  | _, _ => None
  end.

#[export] Instance serde : SerdeJson := {|
  Value := value;
  get v k := match v with VObj fs => VField <$> assoc k fs | _ => None end;
  as_str v := match v with VField (JStr s) => Some s | _ => None end;
  as_u64 v := match v with VField (JNum n) => Some n | _ => None end;
  as_i64 v := match v with VField (JNum n) => if n <? 2 ^ 63 then Some n else None | _ => None end;
  from_slice b := VObj <$> dec (List.length b) b;
  to_vec fs := Some (enc fs)
|}.

Lemma dec_enc_str s r : Forall is_scalar s → dec_str (enc_str s ++ r) = Some (s, r).
Proof.
  intros _. unfold enc_str. rewrite <- app_assoc. change ([0] ++ r) with (0 :: r).
  induction s as [|c s IH]; [done|].
  change ((c :: s) ≫= enc_char) with (enc_char c ++ (s ≫= enc_char)).
  rewrite <- app_assoc. cbn [enc_char app dec_str]. rewrite IH. do 3 f_equal.
  assert (c / 65536 = c / 256 / 256) as -> by (rewrite Z.div_div by lia; done).
  pose proof (Z.div_mod c 256 ltac:(lia)). pose proof (Z.div_mod (c / 256) 256 ltac:(lia)). lia.
Qed.

Lemma dec_enc_num n z r : 0 ≤ z < 256 ^ Z.of_nat n →
  dec_num (take n (enc_num n z ++ r)) = z ∧ drop n (enc_num n z ++ r) = r.
Proof.
  revert z. induction n as [|n IH]; intros z Hz.
  { simpl in *. change (256 ^ 0) with 1 in Hz. split; [|done]. unfold dec_num. simpl. lia. }
  rewrite Nat2Z.inj_succ, Z.pow_succ_r in Hz by lia.
  destruct (IH (z / 256)) as [H1 H2].
  { split; [apply Z.div_pos; lia|apply Z.div_lt_upper_bound; lia]. }
  simpl. split; [|done]. unfold dec_num in *. simpl. rewrite H1.
  pose proof (Z.div_mod z 256 ltac:(lia)). lia.
Qed.

Lemma dec_enc_field f r : Forall is_scalar f.1 → jfield_ok f.2 →
  ∃ b, enc_field f ++ r = 1 :: b ∧ dec_field b = Some (f, r).
Proof.
  destruct f as [k v]. simpl. intros Hk Hv. unfold enc_field. simpl. eexists. split; [done|].
  unfold dec_field. rewrite <- app_assoc, dec_enc_str by done. destruct v as [s|n]; simpl.
  - by rewrite dec_enc_str.
  - destruct (dec_enc_num 8 n r) as [H1 H2]; [simpl in Hv; lia|].
    simpl in H1, H2. by rewrite H1.
Qed.

Lemma dec_enc fs fuel : Forall (λ f, Forall is_scalar f.1 ∧ jfield_ok f.2) fs →
  (List.length fs < fuel)%nat → dec fuel (enc fs) = Some fs.
Proof.
  intros Hfs. revert fuel. induction Hfs as [|f fs [Hk Hv] _ IH]; intros [|fuel] Hf;
    try (simpl in *; lia); [done|].
  simpl in Hf. unfold enc.
  change ((f :: fs) ≫= enc_field) with (enc_field f ++ (fs ≫= enc_field)).
  rewrite <- app_assoc.
  destruct (dec_enc_field f ((fs ≫= enc_field) ++ [0]) Hk Hv) as (b & -> & Hb).
  cbn [dec]. rewrite Hb. change ((fs ≫= enc_field) ++ [0]) with (enc fs).
  rewrite IH by lia. done.
Qed.

Lemma length_enc_str s : List.length (enc_str s) = (4 * List.length s + 1)%nat.
Proof.
  unfold enc_str. rewrite length_app. induction s as [|c s IH]; [done|].
  change ((c :: s) ≫= enc_char) with (enc_char c ++ (s ≫= enc_char)).
  rewrite length_app. change (List.length (enc_char c)) with 4%nat. simpl List.length in *. lia.
Qed.

Lemma length_enc_field f : (1 ≤ List.length (enc_field f) ≤ json_size f)%nat.
Proof.
  destruct f as [k [s|n]]; unfold enc_field, json_size; cbn [fst snd List.length];
    rewrite length_app; cbn [List.length enc_num]; rewrite !length_enc_str; lia.
Qed.

Lemma length_enc fs :
  (List.length fs < List.length (enc fs) ≤ 1 + sum_list_with json_size fs)%nat.
Proof.
  unfold enc. rewrite length_app. induction fs as [|f fs IH]; [simpl; lia|].
  change ((f :: fs) ≫= enc_field) with (enc_field f ++ (fs ≫= enc_field)).
  rewrite length_app. pose proof (length_enc_field f). cbn [sum_list_with List.length] in *. lia.
Qed.

#[export] Instance laws : SerdeJsonLaws.
Proof.
  constructor. intros fs [Hok Hd]. pose proof (length_enc fs) as Hlen.
  exists (enc fs), (VObj fs). split_and!; [done| |intros k|lia].
  - simpl. rewrite dec_enc by (done || lia). done.
  - simpl. destruct (assoc k fs) as [[s|n]|] eqn:Hk; simpl; [done| |done].
    split_and!; [done..|]. intros Hn. by destruct (Z.ltb_spec n (2 ^ 63)); [|lia].
Qed.
End Tagged.

#[local] Existing Instances Tagged.serde Tagged.laws.

Lemma request_readback_witness :
  ∃ bytes f,
    to_vec (request_fields (RSendTo (Build_SendToReq (lit "sendto") 3 9
      (lit "BEACON") (lit "M0LTE-2") (0xF0 :: lit "hello")))) = Some bytes ∧
    parse bytes = Some f ∧ id f = Some 3 ∧ data_str f = Some (0xF0 :: lit "hello").
Proof.
  destruct (request_readback (RSendTo (Build_SendToReq (lit "sendto") 3 9
      (lit "BEACON") (lit "M0LTE-2") (0xF0 :: lit "hello"))))
    as (_ & _ & bytes & f & H1 & H2 & _ & H3 & _ & H4 & _); [by_decide|].
  exists bytes, f. exact (conj H1 (conj H2 (conj H3 H4))).
Defined.
