(* ===== verification/Client.v ===== *)
(** [crates/rhpv2/src/client.rs]: the synchronous RHPv2 client.

    The client runs on two threads: the caller, which blocks for replies and for
    link events, and the reader, which demultiplexes inbound frames.  A state
    [sys] is the client's shared state, the state behind its event sink and a
    script of what happens while a caller blocks: frames the reader reads, the
    end of the transport, and the points where the scheduler runs the caller
    again, because it was notified ([Wake]) or because its timer fired
    ([Expire]).  Any interleaving of the reader with one caller is a script.
    [Section concurrent] has any number of callers as a step relation. *)
From stdpp Require Import prelude gmap.
From Stdlib Require Import ZArith Lia String.
From S2P Require Import Prelude Str Errors Codec Framing Messages.
Local Open Scope Z_scope.
Local Open Scope act_scope.

(** * The sink *)
Class RhpEventSink (S : Type) := {
  on_recv : Z → list Z → S → S;
  on_dgram : Z → option str → option str → list Z → S → S;
  on_accept : Z → Z → option str → option str → S → S;
  on_status : Z → Z → S → S;
  on_close : Z → S → S;
  on_disconnect : S → S
}.

(** [NullSink]: every method is the trait's empty default. *)
#[export] Instance NullSink : RhpEventSink unit := {|
  on_recv _ _ s := s; on_dgram _ _ _ _ s := s; on_accept _ _ _ _ s := s;
  on_status _ _ s := s; on_close _ s := s; on_disconnect s := s |}.

Record HandleBuf := mkHandleBuf { data : list Z; eof : bool }.
Definition buf_default : HandleBuf := mkHandleBuf [] false.
Definition entry (handle : Z) (m : gmap Z HandleBuf) : HandleBuf := default buf_default (m !! handle).
#[export] Instance BufferingSink : RhpEventSink (gmap Z HandleBuf) := {|
  on_recv h d m := <[h := mkHandleBuf (data (entry h m) ++ d) (eof (entry h m))]> m;
  on_dgram _ _ _ _ m := m; on_accept _ _ _ _ m := m; on_status _ _ m := m;
  on_close h m := <[h := mkHandleBuf (data (entry h m)) true]> m;
  on_disconnect m := m |}.
Definition buffering_take (handle : Z) (m : gmap Z HandleBuf) : list Z * gmap Z HandleBuf :=
  match m !! handle with
  | Some b => (data b, <[handle := mkHandleBuf [] (eof b)]> m)
  | None => ([], m)
  end.
Definition is_eof (handle : Z) (m : gmap Z HandleBuf) : bool :=
  default false (eof <$> m !! handle).

(** * Errors and results *)
Inductive RhpError := Io (e : io_error) | Timeout | Server (errcode : Z) (errtext : option str).
Definition to_errno (e : RhpError) : Z :=
  match e with
  | Io _ => EIO
  | Timeout => ETIMEDOUT
  | Server errcode _ => errcode_to_errno errcode
  end.

Record OpenResult := mkOpenResult { or_handle : Z; or_errcode : Z; or_errtext : option str }.
Inductive ConnPhase := Pending | Connected | Failed (errno : Z).
#[export] Instance ConnPhase_eq_dec : EqDecision ConnPhase.
Proof. solve_decision. Defined.
Record AcceptInfo := mkAcceptInfo {
  child_handle : Z; ai_remote : option str; ai_local : option str }.

(** * The registries

    A condition variable has no state here: [notify_all] lets a scheduler run the
    waiters, which the scripts leave free; [Waiters] has them as they are. *)
Module ConnRegistry.
Abbreviation t := (gmap Z ConnPhase).

Definition set_pending (handle : Z) (m : t) : t :=
  match m !! handle with Some _ => m | None => <[handle := Pending]> m end.
Definition mark_connected (handle : Z) (m : t) : t := <[handle := Connected]> m.
Definition mark_failed (handle errno : Z) (m : t) : t :=
  match m !! handle with Some Pending => <[handle := Failed errno]> m | _ => m end.
Definition fail_all_pending (errno : Z) (m : t) : t :=
  (λ p, match p with Pending => Failed errno | _ => p end) <$> m.
Definition result (handle : Z) (m : t) : option (result unit Z) :=
  match m !! handle with
  | Some Connected => Some (Ok tt)
  | Some (Failed e) => Some (Err e)
  | _ => None
  end.
Definition take_error (handle : Z) (m : t) : Z * t :=
  match m !! handle with
  | Some p =>
    let e := match p with Failed x => x | _ => 0 end in
    (e, if e =? 0 then m else <[handle := Connected]> m)
  | None => (0, m)
  end.
Definition forget (handle : Z) (m : t) : t := delete handle m.
End ConnRegistry.

Module AcceptRegistry.
Abbreviation t := (gmap Z (list AcceptInfo)).

Definition push (listener : Z) (info : AcceptInfo) (m : t) : t :=
  <[listener := default [] (m !! listener) ++ [info]]> m.
Definition forget (listener : Z) (m : t) : t := delete listener m.
(** [get_mut(&listener).and_then(|q| q.pop_front())]. *)
Definition pop (listener : Z) (m : t) : option (AcceptInfo * t) :=
  match m !! listener with
  | Some (info :: q) => Some (info, <[listener := q]> m)
  | _ => None
  end.
End AcceptRegistry.

(** * The client's state *)
Inductive event := NetFrame (bytes : list Z) | NetEnd | Wake | Expire.

(** How a blocking wait ends. *)
Inductive waited (A : Type) := Woken (a : A) | Expired | Blocked.
Arguments Woken {A} a.
Arguments Expired {A}.
Arguments Blocked {A}.

Section client.
Context `{!SerdeJson} {S : Type} `{!RhpEventSink S}.

(** One [mpsc] channel: the messages its receiver has not taken, and whether its
    sender is still in the pending map. *)
Record chan := mkChan { queue : list Frame; sender : bool }.

Record client := mkClient {
  writer : writer;
  next_id_ : Z;
  pending : gmap Z nat;
  chans : list chan;
  conns : ConnRegistry.t;
  accepts : AcceptRegistry.t;
  closed : bool
}.

Record sys := mkSys { cl : client; sk : S; net : list event }.

Definition upd_cl (f : client → client) (st : sys) : sys := mkSys (f (cl st)) (sk st) (net st).
Definition upd_sk (f : S → S) (st : sys) : sys := mkSys (cl st) (f (sk st)) (net st).
Definition set_net (evs : list event) (st : sys) : sys := mkSys (cl st) (sk st) evs.
Definition set_writer (w : Framing.writer) (c : client) : client :=
  mkClient w (next_id_ c) (pending c) (chans c) (conns c) (accepts c) (closed c).
Definition set_next_id (n : Z) (c : client) : client :=
  mkClient (writer c) n (pending c) (chans c) (conns c) (accepts c) (closed c).
Definition set_pending_chans (p : gmap Z nat) (k : list chan) (c : client) : client :=
  mkClient (writer c) (next_id_ c) p k (conns c) (accepts c) (closed c).
Definition upd_conns (f : ConnRegistry.t → ConnRegistry.t) (c : client) : client :=
  mkClient (writer c) (next_id_ c) (pending c) (chans c) (f (conns c)) (accepts c) (closed c).
Definition upd_accepts (f : AcceptRegistry.t → AcceptRegistry.t) (c : client) : client :=
  mkClient (writer c) (next_id_ c) (pending c) (chans c) (conns c) (f (accepts c)) (closed c).
Definition set_closed (b : bool) (c : client) : client :=
  mkClient (writer c) (next_id_ c) (pending c) (chans c) (conns c) (accepts c) b.

(** Dropping a channel's sender, and sending its one message before that. *)
Definition drop_sender (ch : nat) (k : list chan) : list chan :=
  alter (λ c, mkChan (queue c) false) ch k.
Definition send_frame (ch : nat) (f : Frame) (k : list chan) : list chan :=
  alter (λ c, mkChan (queue c ++ [f]) false) ch k.

(** * The reader thread *)
Definition dispatch_push (f : Frame) (st : sys) : sys :=
  if decide (typ f = lit "recv") then
    match handle f with
    | Some h =>
      let data := default [] (from_wire_string <$> data_str f) in
      if is_dgram_recv f then upd_sk (on_dgram h (remote f) (local f) data) st
      else upd_sk (on_recv h data) st
    | None => st
    end
  else if decide (typ f = lit "accept") then
    match handle f, child f with
    | Some listener, Some c =>
      upd_sk (on_accept listener c (remote f) (local f))
        (upd_cl (upd_accepts (AcceptRegistry.push listener (mkAcceptInfo c (remote f) (local f)))) st)
    | _, _ => st
    end
  else if decide (typ f = lit "status") then
    match handle f with
    | Some h =>
      let flags := status_flags f in
      upd_sk (on_status h flags)
        (if negb (Z.land flags STATUS_CONNECTED =? 0)
         then upd_cl (upd_conns (ConnRegistry.mark_connected h)) st else st)
    | None => st
    end
  else if decide (typ f = lit "close") then
    match handle f with
    | Some h =>
      let errno := if errcode f =? 0 then ECONNREFUSED else errcode_to_errno (errcode f) in
      upd_sk (on_close h) (upd_cl (upd_conns (ConnRegistry.mark_failed h errno)) st)
    | None => st
    end
  else st.

(** The body of the loop for one frame read. *)
Definition handle_frame (bytes : list Z) (st : sys) : sys :=
  match parse bytes with
  | None => st
  | Some f =>
    match id f with
    | Some i =>
      match pending (cl st) !! i with
      | Some ch =>
        upd_cl (λ c, set_pending_chans (delete i (pending c)) (send_frame ch f (chans c)) c) st
      | None => dispatch_push f st
      end
    | None => dispatch_push f st
    end
  end.

(** What follows the loop. *)
Definition disconnect (st : sys) : sys :=
  upd_sk on_disconnect
    (upd_cl (λ c, upd_conns (ConnRegistry.fail_all_pending ECONNRESET)
      (set_pending_chans ∅ (foldr drop_sender (chans c) (snd <$> map_to_list (pending c)))
         (set_closed true c))) st).

Fixpoint reader_loop (fuel : nat) (r : reader) (st : sys) : option sys :=
  match fuel with
  | O => None
  | Datatypes.S fuel =>
    match read_frame r with
    | (Ok None, _) => Some (disconnect st)
    | (Ok (Some bytes), r) => reader_loop fuel r (handle_frame bytes st)
    | (Err _, _) => Some (disconnect st)
    end
  end.

(** One event of the script for a reader that has not ended. *)
Definition net_step (ev : event) (st : sys) : sys :=
  if closed (cl st) then st
  else match ev with
       | NetFrame bytes => handle_frame bytes st
       | NetEnd => disconnect st
       | Wake | Expire => st
       end.

(** * Blocking

    The caller's predicate is checked on entry and whenever the caller runs;
    [on_expire] is what it checks when its timer has fired.  A script that is
    exhausted lets the caller run a last time. *)
Section wait.
Context {A : Type} (cond on_expire : client → option (A * client)) (timed : bool).

Definition check_now (check : client → option (A * client)) (r : list event) (st : sys)
    (otherwise : waited A * sys) : waited A * sys :=
  match check (cl st) with
  | Some (a, c) => (Woken a, mkSys c (sk st) r)
  | None => otherwise
  end.

Fixpoint wait_go (evs : list event) (st : sys) : waited A * sys :=
  match evs with
  | [] => if timed then check_now on_expire [] st (Expired, set_net [] st)
          else check_now cond [] st (Blocked, set_net [] st)
  | Wake :: r => check_now cond r st (wait_go r st)
  | Expire :: r =>
    if timed then check_now on_expire r st (Expired, set_net r st) else wait_go r st
  | ev :: r => wait_go r (net_step ev st)
  end.

Definition wait (st : sys) : waited A * sys :=
  check_now cond (net st) st (wait_go (net st) st).
End wait.

(** The reader runs while the caller does something else, up to its next run. *)
Fixpoint elapse_go (evs : list event) (st : sys) : sys :=
  match evs with
  | [] => set_net [] st
  | (Wake | Expire) :: r => set_net r st
  | ev :: r => elapse_go r (net_step ev st)
  end.
Definition elapse (st : sys) : sys := elapse_go (net st) st.

(** * Requests *)
Definition is_closed (st : sys) : bool := closed (cl st).

(** [1 + next_id.fetch_add(1)], both wrapping as in a release build. *)
Definition next_id {E} : act sys Z E := λ st,
  (Ok (u64 (1 + next_id_ (cl st))), upd_cl (set_next_id (u64 (next_id_ (cl st) + 1))) st).

(** [pending.insert(id, tx)] for a new channel; a sender it replaces is dropped. *)
Definition begin_request (i : Z) (c : client) : nat * client :=
  let ch := List.length (chans c) in
  let k := match pending c !! i with Some old => drop_sender old (chans c) | None => chans c end in
  (ch, set_pending_chans (<[i := ch]> (pending c)) (k ++ [mkChan [] true]) c).

(** [pending.remove(&id)]. *)
Definition end_request (i : Z) (c : client) : client :=
  match pending c !! i with
  | Some ch => set_pending_chans (delete i (pending c)) (drop_sender ch (chans c)) c
  | None => c
  end.

(** What [recv_timeout] returns once it can: a message, or the hang-up. *)
Definition chan_ready (ch : nat) (c : client) : option (option Frame * client) :=
  match chans c !! ch with
  | Some (mkChan (f :: q) b) =>
    Some (Some f, set_pending_chans (pending c) (<[ch := mkChan q b]> (chans c)) c)
  | Some (mkChan [] false) => Some (None, c)
  | _ => None
  end.

Definition request (i : Z) (bytes : list Z) : act sys Frame RhpError := λ st,
  let '(ch, c) := begin_request i (cl st) in
  match write_frame (writer c) bytes with
  | (Err e, w) => (Err (Io e), upd_cl (λ _, end_request i (set_writer w c)) st)
  | (Ok _, w) =>
    let '(reply, st) := wait (chan_ready ch) (chan_ready ch) true (upd_cl (λ _, set_writer w c) st) in
    let st := upd_cl (end_request i) st in
    match reply with
    | Woken (Some f) => (Ok f, st)
    | Woken None => (Err (Io BrokenPipe), st)
    | Expired | Blocked => (Err Timeout, st)
    end
  end.

Definition send_oneway (bytes : list Z) : act sys unit RhpError := λ st,
  let '(r, w) := write_frame (writer (cl st)) bytes in
  (map_err Io r, upd_cl (set_writer w) st).

Definition check_ok (f : Frame) : result unit RhpError :=
  let code := errcode f in
  let ok_text := default false ((λ t, eq_ignore_ascii_case t (lit "ok")) <$> errtext f) in
  if negb (code =? 0) && negb ok_text then Err (Server code (errtext f)) else Ok tt.

(** [serde_json::to_vec(&req).map_err(json_io)?] and [Self::check_ok(&reply)?]. *)
Definition json_io : RhpError := Io InvalidData.
Definition to_json {A} `{!Serialize A} (req : A) : act sys (list Z) RhpError := λ st,
  (ok_or (to_vec (fields req)) json_io, st).
Definition checked (f : Frame) : act sys unit RhpError := λ st, (check_ok f, st).

Definition auth (user pass : str) : act sys unit RhpError :=
  i <-? next_id;
  bytes <-? to_json (Build_AuthReq (lit "auth") i user pass);
  reply <-? request i bytes;
  checked reply.

Definition missing_handle (text : str) : RhpError := Server 1 (Some text).

Definition open (loc : str) (rem via : option str) (flags : Z) : act sys OpenResult RhpError :=
  i <-? next_id;
  bytes <-? to_json (Build_OpenReq (lit "open") i (lit "ax25") (lit "stream") None loc rem via flags);
  reply <-? request i bytes;
  _ <-? checked reply;
  h <-? (λ st, (ok_or (handle reply) (missing_handle (lit "openReply missing handle")), st));
  aret (mkOpenResult h (errcode reply) (errtext reply)).

(** [via.join(",")]. *)
Fixpoint join (sep : str) (l : list str) : str :=
  match l with
  | [] => []
  | [s] => s
  | s :: r => s ++ sep ++ join sep r
  end.

Definition open_connect (loc rem : str) (via : list str) : act sys OpenResult RhpError :=
  let via_str := match via with [] => None | _ => Some (join (lit ",") via) end in
  res <-? open loc (Some rem) via_str OPEN_FLAG_ACTIVE;
  λ st, (Ok res, upd_cl (upd_conns (ConnRegistry.set_pending (or_handle res))) st).

Definition open_listen (loc : str) : act sys OpenResult RhpError :=
  open loc None None OPEN_FLAG_PASSIVE.

(** [slice::chunks]. *)
Fixpoint chunks_go {A} (fuel n : nat) (l : list A) : list (list A) :=
  match fuel, l with
  | Datatypes.S fuel, _ :: _ => take n l :: chunks_go fuel n (drop n l)
  | _, _ => []
  end.
Definition chunks {A} (n : nat) (l : list A) : list (list A) := chunks_go (List.length l) n l.

Definition send_chunk (h : Z) (chunk : list Z) : act sys unit RhpError :=
  i <-? next_id;
  bytes <-? to_json (Build_SendReq (lit "send") i h (to_wire_string chunk));
  reply <-? request i bytes;
  checked reply.

Fixpoint send_chunks (h : Z) (cs : list (list Z)) : act sys unit RhpError :=
  match cs with
  | [] => aret tt
  | c :: r => _ <-? send_chunk h c; send_chunks h r
  end.

Definition send (h : Z) (d : list Z) : act sys unit RhpError :=
  match d with
  | [] => send_chunk h []
  | _ => send_chunks h (chunks (Z.to_nat MAX_SEND_CHUNK) d)
  end.

Definition sendto (h : Z) (rem loc : str) (d : list Z) : act sys unit RhpError :=
  i <-? next_id;
  bytes <-? to_json (Build_SendToReq (lit "sendto") i h rem loc (to_wire_string d));
  reply <-? request i bytes;
  checked reply.

Definition close (h : Z) : act sys unit RhpError :=
  _ <-? (λ st, (Ok tt, upd_cl (λ c, upd_accepts (AcceptRegistry.forget h)
                                      (upd_conns (ConnRegistry.forget h) c)) st));
  i <-? next_id;
  bytes <-? to_json (Build_CloseReq (lit "close") i h);
  reply <-? request i bytes;
  checked reply.

Definition socket_mode (mode : str) : act sys Z RhpError :=
  i <-? next_id;
  bytes <-? to_json (Build_SocketReq (lit "socket") i (lit "ax25") mode);
  reply <-? request i bytes;
  _ <-? checked reply;
  λ st, (ok_or (handle reply) (missing_handle (lit "socketReply missing handle")), st).
Definition socket : act sys Z RhpError := socket_mode (lit "stream").
Definition socket_dgram : act sys Z RhpError := socket_mode (lit "custom").

Definition bind (h : Z) (loc : str) (port : option str) : act sys unit RhpError :=
  i <-? next_id;
  bytes <-? to_json (Build_BindReq (lit "bind") i h loc port);
  reply <-? request i bytes;
  checked reply.

Definition listen (h : Z) : act sys unit RhpError :=
  i <-? next_id;
  bytes <-? to_json (Build_ListenReq (lit "listen") i h 0);
  reply <-? request i bytes;
  checked reply.

(** * Waiting for link events *)
Definition conn_ready (h : Z) (c : client) : option (result unit Z * client) :=
  match ConnRegistry.result h (conns c) with
  | Some r => Some (r, c)
  | None => if closed c then Some (Err ECONNRESET, c) else None
  end.

(** A timer that has fired looks at the map only. *)
Definition conn_expired (h : Z) (c : client) : option (result unit Z * client) :=
  match ConnRegistry.result h (conns c) with Some r => Some (r, c) | None => None end.

(** [None]: blocked for ever, which only an untimed wait can be. *)
Definition wait_connected (h : Z) (timed : bool) (st : sys) : option (result unit Z) * sys :=
  match wait (conn_ready h) (conn_expired h) timed st with
  | (Woken r, st) => (Some r, st)
  | (Expired, st) => (Some (Err ETIMEDOUT), st)
  | (Blocked, st) => (None, st)
  end.

Definition connect_result (h : Z) (st : sys) : option (result unit Z) :=
  ConnRegistry.result h (conns (cl st)).
Definition take_connect_error (h : Z) (st : sys) : Z * sys :=
  let '(e, m) := ConnRegistry.take_error h (conns (cl st)) in (e, upd_cl (upd_conns (λ _, m)) st).

Definition accept_ready (l : Z) (c : client) : option (option AcceptInfo * client) :=
  match AcceptRegistry.pop l (accepts c) with
  | Some (info, m) => Some (Some info, upd_accepts (λ _, m) c)
  | None => if closed c then Some (None, c) else None
  end.

(** [Some None]: the transport dropped or the time elapsed; [None]: blocked. *)
Definition wait_accept (l : Z) (timed : bool) (st : sys) : option (option AcceptInfo) * sys :=
  match wait (accept_ready l) (accept_ready l) timed st with
  | (Woken r, st) => (Some r, st)
  | (Expired, st) => (Some None, st)
  | (Blocked, st) => (None, st)
  end.

Definition try_accept (l : Z) (st : sys) : option AcceptInfo * sys :=
  match AcceptRegistry.pop l (accepts (cl st)) with
  | Some (info, m) => (Some info, upd_cl (upd_accepts (λ _, m)) st)
  | None => (None, st)
  end.

(** * Connecting

    [stream] is what [TcpStream::connect] gave, [creds] the two environment
    variables when both are set. *)
Definition default_addr (env : option str) : str := default (lit "127.0.0.1:9000") env.
Definition new_client (w : Framing.writer) : client := mkClient w 0 ∅ [] ∅ ∅ false.
Definition connect_to (stream : result Framing.writer io_error) (creds : option (str * str))
    (s : S) (evs : list event) : result unit RhpError * sys :=
  match stream with
  | Err e => (Err (Io e), mkSys (new_client (mkWriter [] None)) s evs)
  | Ok w =>
    let st := mkSys (new_client w) s evs in
    match creds with
    | Some (user, pass) => auth user pass st
    | None => (Ok tt, st)
    end
  end.

End client.
