(* ===== verification/ClientSpec.v ===== *)
(** What the client of [Client.v] promises: replies reach the call that asked,
    link events are followed whatever the interleaving, sent data arrives whole. *)
From stdpp Require Import prelude gmap.
From Stdlib Require Import ZArith Lia String.
From S2P Require Import Prelude Str Errors Codec Framing Messages Client.
Local Open Scope Z_scope.
Local Open Scope act_scope.

Section spec.
Context `{!SerdeJson} {S : Type} `{!RhpEventSink S}.
Implicit Types (st : sys (S := S)) (f : Frame) (b : list Z).

(** The effect of a frame that answers no request, and of several. *)
Definition push_frame st b : sys :=
  match parse b with Some f => dispatch_push f st | None => st end.
Definition pushes (bs : list (list Z)) st : sys := foldl push_frame st bs.
Definition net_steps (evs : list event) st : sys := foldl (λ st ev, net_step ev st) st evs.

(** A frame that is not the reply to request [i]. *)
Definition not_reply (i : Z) b : Prop :=
  match parse b with Some f => id f ≠ Some i | None => True end.

(** * The reader leaves the caller's part of the state alone *)
Lemma dispatch_push_pending p k f st :
  dispatch_push f (upd_cl (set_pending_chans p k) st) =
  upd_cl (set_pending_chans p k) (dispatch_push f st).
Proof.
  unfold dispatch_push. repeat case_decide; [| | | |done];
    destruct (handle f); try done.
  - by destruct (is_dgram_recv f).
  - by destruct (child f).
  - by destruct (negb _).
Qed.

Lemma pushes_pending p k bs st :
  pushes bs (upd_cl (set_pending_chans p k) st) = upd_cl (set_pending_chans p k) (pushes bs st).
Proof.
  revert st. induction bs as [|b bs IH]; intros st; [done|]. unfold pushes in *. simpl.
  rewrite <- IH. f_equal. unfold push_frame. destruct (parse b); [|done].
  apply dispatch_push_pending.
Qed.

Lemma dispatch_push_keeps f st :
  pending (cl (dispatch_push f st)) = pending (cl st) ∧
  chans (cl (dispatch_push f st)) = chans (cl st) ∧
  closed (cl (dispatch_push f st)) = closed (cl st) ∧
  writer (cl (dispatch_push f st)) = writer (cl st) ∧
  next_id_ (cl (dispatch_push f st)) = next_id_ (cl st) ∧
  net (dispatch_push f st) = net st.
Proof.
  unfold dispatch_push. repeat case_decide; [| | | |done];
    destruct (handle f); try done.
  - by destruct (is_dgram_recv f).
  - by destruct (child f).
  - by destruct (negb _).
Qed.

Lemma pushes_keeps bs st :
  pending (cl (pushes bs st)) = pending (cl st) ∧
  chans (cl (pushes bs st)) = chans (cl st) ∧
  closed (cl (pushes bs st)) = closed (cl st) ∧
  writer (cl (pushes bs st)) = writer (cl st) ∧
  next_id_ (cl (pushes bs st)) = next_id_ (cl st) ∧
  net (pushes bs st) = net st.
Proof.
  revert st. induction bs as [|b bs IH]; intros st; [done|]. simpl.
  destruct (IH (push_frame st b)) as (-> & -> & -> & -> & -> & ->).
  unfold push_frame. destruct (parse b); [|done]. apply dispatch_push_keeps.
Qed.

Lemma pushes_app bs bs' st : pushes (bs ++ bs') st = pushes bs' (pushes bs st).
Proof. apply foldl_app. Qed.

Lemma dispatch_push_net f st evs : dispatch_push f (set_net evs st) = set_net evs (dispatch_push f st).
Proof.
  unfold dispatch_push. repeat case_decide; [| | | |done];
    destruct (handle f); try done.
  - by destruct (is_dgram_recv f).
  - by destruct (child f).
  - by destruct (negb _).
Qed.

(** A frame that answers no pending request is a push. *)
Lemma handle_frame_push b st :
  (∀ i, match parse b with Some f => id f = Some i | None => False end → pending (cl st) !! i = None) →
  handle_frame b st = push_frame st b.
Proof.
  unfold handle_frame, push_frame. destruct (parse b) as [f|]; [|done].
  destruct (id f) as [i|]; [|done]. intros Hi. by rewrite (Hi i eq_refl).
Qed.

Lemma net_steps_pushes bs st : pending (cl st) = ∅ → closed (cl st) = false →
  net_steps (map NetFrame bs) st = pushes bs st.
Proof.
  revert st. induction bs as [|b bs IH]; intros st Hp Hc; [done|].
  unfold net_steps, pushes in *. simpl. unfold net_step at 2. rewrite Hc.
  rewrite handle_frame_push by (intros; by rewrite Hp, lookup_empty).
  assert (push_frame st b = pushes [b] st) as Heq by done.
  destruct (pushes_keeps [b] st) as (Hp' & _ & Hc' & _).
  rewrite IH; [done|rewrite Heq; congruence..].
Qed.

Lemma wait_start {A} cond on_expire timed st : cond (cl st) = None →
  wait (A := A) cond on_expire timed st = wait_go cond on_expire timed (net st) st.
Proof. intros Hn. unfold wait, check_now. by rewrite Hn. Qed.

(** Waiting through a block of frames. *)
Lemma wait_go_frames {A} cond on_expire timed (bs : list (list Z)) rest st :
  wait_go (A := A) cond on_expire timed (map NetFrame bs ++ rest) st =
  wait_go cond on_expire timed rest (net_steps (map NetFrame bs) st).
Proof. revert st. induction bs as [|b bs IH]; intros st; [done|]. simpl. by rewrite IH. Qed.

(** * One request *)

(** The state while request [i] waits on channel [ch]. *)
Definition waiting (i : Z) (ch : nat) (k : list chan) st : sys :=
  upd_cl (set_pending_chans {[i := ch]} k) st.

Lemma net_steps_waiting i ch k bs st : Forall (not_reply i) bs → closed (cl st) = false →
  net_steps (map NetFrame bs) (waiting i ch k st) = waiting i ch k (pushes bs st).
Proof.
  intros Hbs. revert st. induction Hbs as [|b bs Hb _ IH]; intros st Hc; [done|].
  unfold net_steps in *. simpl. unfold net_step at 2. simpl. rewrite Hc.
  rewrite handle_frame_push.
  - assert (push_frame (waiting i ch k st) b = waiting i ch k (pushes [b] st)) as ->.
    { apply (pushes_pending {[i := ch]} k [b]). }
    destruct (pushes_keeps [b] st) as (_ & _ & Hc' & _).
    rewrite IH by congruence. unfold pushes. done.
  - intros j. unfold not_reply in Hb. destruct (parse b) as [f|]; [|done].
    intros Hj. simpl. apply lookup_singleton_ne. congruence.
Qed.

Lemma send_frame_last f k : send_frame (List.length k) f (k ++ [mkChan [] true]) = k ++ [mkChan [f] false].
Proof. unfold send_frame. by rewrite alter_app_r_alt, Nat.sub_diag by lia. Qed.

(** What follows sending: the wait for the reply and the bookkeeping. *)
Definition finish (i : Z) (r : waited (option Frame) * sys) : result Frame RhpError * sys (S := S) :=
  let '(reply, st) := r in
  let st := upd_cl (end_request i) st in
  match reply with
  | Woken (Some f) => (Ok f, st)
  | Woken None => (Err (Io BrokenPipe), st)
  | Expired | Blocked => (Err Timeout, st)
  end.

Lemma request_waiting i bytes w st :
  pending (cl st) = ∅ → write_frame (writer (cl st)) bytes = (Ok tt, w) →
  let ch := List.length (chans (cl st)) in
  request i bytes st =
  finish i (wait_go (chan_ready ch) (chan_ready ch) true (net st)
    (waiting i ch (chans (cl st) ++ [mkChan [] true]) (upd_cl (set_writer w) st))).
Proof.
  intros Hp Hw ch. unfold request, begin_request. rewrite Hp, lookup_empty.
  cbn [writer set_pending_chans]. rewrite Hw. fold ch. unfold finish.
  match goal with |- context [wait _ _ _ ?s] =>
    replace s with (waiting i ch (chans (cl st) ++ [mkChan [] true]) (upd_cl (set_writer w) st)) by done end.
  rewrite wait_start; [done|]. unfold chan_ready. cbn [cl chans waiting upd_cl set_pending_chans].
  by rewrite list_lookup_middle by done.
Qed.

Lemma request_reply_eq i bytes w st pre b post rest f :
  pending (cl st) = ∅ → closed (cl st) = false → write_frame (writer (cl st)) bytes = (Ok tt, w) →
  net st = map NetFrame (pre ++ b :: post) ++ Wake :: rest →
  Forall (not_reply i) pre → parse b = Some f → id f = Some i →
  request i bytes st =
  (Ok f, set_net rest (upd_cl (set_pending_chans ∅ (chans (cl st) ++ [mkChan [] false]))
           (pushes (pre ++ post) (upd_cl (set_writer w) st)))).
Proof.
  intros Hp Hc Hw Hnet Hpre Hb Hf. rewrite (request_waiting i bytes w) by done. cbv zeta.
  set (st0 := upd_cl (set_writer w) st). set (ch := List.length (chans (cl st))).
  set (k := chans (cl st) ++ [mkChan [] true]).
  rewrite Hnet, map_app, <- app_assoc, wait_go_frames, net_steps_waiting by done.
  destruct (pushes_keeps pre st0) as (_ & _ & Hc1 & _).
  cbn [map app wait_go].
  assert (net_step (NetFrame b) (waiting i ch k (pushes pre st0)) =
          upd_cl (set_pending_chans ∅ (chans (cl st) ++ [mkChan [f] false])) (pushes pre st0)) as ->.
  { unfold net_step. change (closed (cl (waiting i ch k ?s))) with (closed (cl s)).
    rewrite Hc1. change (closed (cl st0)) with (closed (cl st)). rewrite Hc.
    unfold handle_frame. rewrite Hb, Hf.
    change (pending (cl (waiting i ch k ?s))) with ({[i := ch]} : gmap Z nat).
    rewrite lookup_singleton_eq. unfold k, ch. rewrite <- send_frame_last.
    unfold waiting, upd_cl. cbn [cl sk net pending chans set_pending_chans].
    by rewrite delete_singleton_eq. }
  rewrite wait_go_frames, net_steps_pushes, pushes_pending, <- pushes_app;
    [|done|simpl; by rewrite Hc1].
  cbn [wait_go]. unfold check_now, chan_ready. cbn [cl chans upd_cl set_pending_chans].
  unfold ch. rewrite list_lookup_middle by done. unfold finish, end_request, upd_cl.
  cbn [cl sk net pending chans set_pending_chans]. rewrite lookup_empty.
  by rewrite insert_app_r_alt, Nat.sub_diag by done.
Qed.

(** A request whose reply arrives in time returns that reply, its pending
    entry is gone, and every other frame that arrived meanwhile, before or after
    the reply, has been dispatched as a push, in order. *)
Theorem request_reply i bytes w st pre b post rest f :
  pending (cl st) = ∅ → closed (cl st) = false → write_frame (writer (cl st)) bytes = (Ok tt, w) →
  net st = map NetFrame (pre ++ b :: post) ++ Wake :: rest →
  Forall (not_reply i) pre → parse b = Some f → id f = Some i →
  let others := pushes (pre ++ post) (upd_cl (set_writer w) st) in
  ∃ st', request i bytes st = (Ok f, st') ∧ pending (cl st') = ∅ ∧ net st' = rest ∧
    writer (cl st') = w ∧ conns (cl st') = conns (cl others) ∧
    accepts (cl st') = accepts (cl others) ∧ sk st' = sk others.
Proof.
  intros Hp Hc Hw Hnet Hpre Hb Hf others. eexists.
  split; [by apply (request_reply_eq i bytes w st pre b post rest f)|].
  split_and!; [done..| |done|done|done]. simpl.
  by destruct (pushes_keeps (pre ++ post) (upd_cl (set_writer w) st)) as (_ & _ & _ & -> & _).
Qed.

(** The states a waiting request goes through: waiting, answered, hung up. *)
Definition req_state (i : Z) (ch : nat) (evs : list event) st : Prop :=
  (pending (cl st) = {[i := ch]} ∧ chans (cl st) !! ch = Some (mkChan [] true)) ∨
  (pending (cl st) = ∅ ∧ ∃ f b, chans (cl st) !! ch = Some (mkChan [f] false) ∧
     id f = Some i ∧ parse b = Some f ∧ NetFrame b ∈ evs) ∨
  (pending (cl st) = ∅ ∧ chans (cl st) !! ch = Some (mkChan [] false) ∧ NetEnd ∈ evs).

Definition kept_by_net st st' : Prop :=
  next_id_ (cl st') = next_id_ (cl st) ∧ writer (cl st') = writer (cl st).

Lemma handle_frame_req i ch evs b st : NetFrame b ∈ evs → req_state i ch evs st →
  req_state i ch evs (handle_frame b st) ∧ kept_by_net st (handle_frame b st).
Proof.
  intros Hb Hst. unfold handle_frame. destruct (parse b) as [f|] eqn:Hp; [|by split].
  destruct (dispatch_push_keeps f st) as (Hd1 & Hd2 & _ & Hd3 & Hd4 & _).
  assert (req_state i ch evs (dispatch_push f st) ∧ kept_by_net st (dispatch_push f st)) as Hpush.
  { unfold req_state, kept_by_net. rewrite Hd1, Hd2. by split. }
  destruct (id f) as [j|] eqn:Hj; [|done].
  destruct (pending (cl st) !! j) as [ch'|] eqn:Hch; [|done].
  clear Hd1 Hd2 Hd3 Hd4 Hpush. split; [|done].
  destruct Hst as [[Hpend Hk]|[[Hpend _]|[Hpend _]]];
    rewrite Hpend in Hch; [|by rewrite lookup_empty in Hch..].
  apply lookup_singleton_Some in Hch as [<- <-]. right; left. simpl. rewrite Hpend.
  split; [apply delete_singleton_eq|]. exists f, b. split_and!; [|done..].
  unfold send_frame. by rewrite list_lookup_alter_eq, Hk.
Qed.

Lemma disconnect_req i ch evs st : NetEnd ∈ evs → req_state i ch evs st →
  req_state i ch evs (disconnect st) ∧ kept_by_net st (disconnect st).
Proof.
  intros He Hst. split; [|done]. unfold req_state, disconnect.
  cbn [cl upd_sk upd_cl upd_conns pending chans set_pending_chans].
  destruct Hst as [[Hpend Hk]|[(Hpend & f & b & Hk & Hf)|(Hpend & Hk & _)]]; rewrite Hpend; right.
  - right. rewrite map_to_list_singleton. simpl. split_and!; [done| |done].
    unfold drop_sender. by rewrite list_lookup_alter_eq, Hk.
  - left. rewrite map_to_list_empty. simpl. split; [done|]. by exists f, b.
  - right. rewrite map_to_list_empty. simpl. done.
Qed.

Lemma net_step_req i ch evs ev st : ev ∈ evs → req_state i ch evs st →
  req_state i ch evs (net_step ev st) ∧ kept_by_net st (net_step ev st).
Proof.
  intros Hev Hst. unfold net_step. destruct (closed (cl st)); [by split|].
  destruct ev; [by apply handle_frame_req|by apply disconnect_req|by split..].
Qed.

(** How the wait of a request can end. *)
Definition req_result (i : Z) (evs : list event) (r : result Frame RhpError) : Prop :=
  match r with
  | Ok f => id f = Some i ∧ ∃ b, NetFrame b ∈ evs ∧ parse b = Some f
  | Err Timeout => True
  | Err (Io e) => e = BrokenPipe ∧ NetEnd ∈ evs
  | Err (Server _ _) => False
  end.

Lemma finish_now i ch evs r st (otherwise : waited (option Frame) * sys) :
  req_state i ch evs st →
  (∃ res st', finish i (check_now (chan_ready ch) r st otherwise) = (res, st') ∧
     req_result i evs res ∧ pending (cl st') = ∅ ∧ kept_by_net st st') ∨
  (pending (cl st) = {[i := ch]} ∧ check_now (chan_ready ch) r st otherwise = otherwise).
Proof.
  intros [[Hp Hk]|[(Hp & f & b & Hk & Hf & Hb & He)|(Hp & Hk & He)]];
    unfold check_now, chan_ready; rewrite Hk; [by right|left..].
  - do 2 eexists. split; [done|]. split; [by split; [|exists b]|].
    unfold upd_cl, end_request. simpl. by rewrite Hp, lookup_empty.
  - do 2 eexists. split; [done|]. split; [done|].
    unfold upd_cl, end_request. simpl. by rewrite Hp, lookup_empty.
Qed.

Lemma finish_timeout i ch evs r st : pending (cl st) = {[i := ch]} →
  ∃ res st', finish i (Expired, set_net r st) = (res, st') ∧
    req_result i evs res ∧ pending (cl st') = ∅ ∧ kept_by_net st st'.
Proof.
  intros Hp. do 2 eexists. split; [done|]. split; [done|].
  unfold upd_cl, end_request. simpl. rewrite Hp, lookup_singleton_eq. simpl.
  split; [apply delete_singleton_eq|done].
Qed.

Lemma finish_wait i ch evs all st : evs ⊆ all → req_state i ch all st →
  ∃ res st', finish i (wait_go (chan_ready ch) (chan_ready ch) true evs st) = (res, st') ∧
    req_result i all res ∧ pending (cl st') = ∅ ∧ kept_by_net st st'.
Proof.
  revert st. induction evs as [|ev evs IH]; intros st Hsub Hst.
  { simpl. destruct (finish_now i ch all [] st (Expired, set_net [] st) Hst) as [?|[Hp ->]]; [done|].
    by apply (finish_timeout i ch). }
  assert (ev ∈ all) as Hev by (apply Hsub; left).
  assert (evs ⊆ all) as Hsub' by (intros x Hx; apply Hsub; by right).
  assert (∃ res st', finish i (wait_go (chan_ready ch) (chan_ready ch) true evs (net_step ev st)) = (res, st')
    ∧ req_result i all res ∧ pending (cl st') = ∅ ∧ kept_by_net st st') as Hnet.
  { destruct (net_step_req i ch all ev st Hev Hst) as [Hst' [Hk1 Hk2]].
    destruct (IH (net_step ev st) Hsub' Hst') as (res & st' & Heq & Hres & Hp & Hk3 & Hk4).
    exists res, st'. split_and!; try done; split; congruence. }
  destruct ev; simpl; [exact Hnet|exact Hnet| |].
  - destruct (finish_now i ch all evs st
      (wait_go (chan_ready ch) (chan_ready ch) true evs st) Hst) as [?|[Hp ->]]; [done|].
    by apply IH.
  - destruct (finish_now i ch all evs st (Expired, set_net evs st) Hst) as [?|[Hp ->]]; [done|].
    by apply (finish_timeout i ch).
Qed.

Lemma request_ends i bytes st : pending (cl st) = ∅ →
  ∃ r st', request i bytes st = (r, st') ∧
    pending (cl st') = ∅ ∧ next_id_ (cl st') = next_id_ (cl st) ∧
    writer (cl st') = snd (write_frame (writer (cl st)) bytes) ∧
    match fst (write_frame (writer (cl st)) bytes) with
    | Err e => r = Err (Io e)
    | Ok _ => req_result i (net st) r
    end.
Proof.
  intros Hp. destruct (write_frame (writer (cl st)) bytes) as [[[]|e] w] eqn:Hw; simpl.
  - rewrite (request_waiting i bytes w) by done.
    destruct (finish_wait i (List.length (chans (cl st))) (net st) (net st)
      (waiting i (List.length (chans (cl st))) (chans (cl st) ++ [mkChan [] true])
        (upd_cl (set_writer w) st))) as (r & st' & Heq & Hr & Hp' & Hk1 & Hk2); [done| |].
    { left. split; [done|]. simpl. by rewrite list_lookup_middle. }
    exists r, st'. split_and!; done.
  - unfold request, begin_request. rewrite Hp, lookup_empty.
    cbn [writer set_pending_chans]. rewrite Hw. do 2 eexists. split; [done|].
    unfold upd_cl, end_request. simpl. rewrite lookup_insert_eq. simpl.
    split_and!; try done. by rewrite delete_insert_eq, delete_empty.
Qed.

(** C23: whatever happens on the wire, a request returns: with a frame that
    arrived and carries the request's own id, with the error its write failed
    with, or, once written, with a timeout or, if the transport ended, a broken
    pipe.  Nothing of it stays pending. *)
Theorem request_sound i bytes st : pending (cl st) = ∅ →
  ∃ r st', request i bytes st = (r, st') ∧
    pending (cl st') = ∅ ∧ next_id_ (cl st') = next_id_ (cl st) ∧
    writer (cl st') = snd (write_frame (writer (cl st)) bytes) ∧
    match fst (write_frame (writer (cl st)) bytes) with
    | Err e => r = Err (Io e)
    | Ok _ => req_result i (net st) r
    end.
Proof. apply request_ends. Qed.

(** * Link events

    The specification of one link: what a frame, and a sequence of events, make
    of the state of handle [h] alone. *)
Definition link_frame (h : Z) (p : option ConnPhase) b : option ConnPhase :=
  match parse b with
  | Some f =>
    if decide (handle f = Some h) then
      if decide (typ f = lit "status" ∧ Z.land (status_flags f) STATUS_CONNECTED ≠ 0) then Some Connected
      else if decide (typ f = lit "close" ∧ p = Some Pending) then
        Some (Failed (if errcode f =? 0 then ECONNREFUSED else errcode_to_errno (errcode f)))
      else p
    else p
  | None => p
  end.

Fixpoint link_phase (h : Z) (p : option ConnPhase) (evs : list event) : option ConnPhase :=
  match evs with
  | [] => p
  | NetFrame b :: r => link_phase h (link_frame h p b) r
  | NetEnd :: _ => if decide (p = Some Pending) then Some (Failed ECONNRESET) else p
  | _ :: r => link_phase h p r
  end.

(** The parts of the registries a push touches. *)
Definition close_errno f : Z := if errcode f =? 0 then ECONNREFUSED else errcode_to_errno (errcode f).
Definition conns_frame f (m : ConnRegistry.t) : ConnRegistry.t :=
  match handle f with
  | Some h =>
    if decide (typ f = lit "status") then
      if Z.land (status_flags f) STATUS_CONNECTED =? 0 then m else ConnRegistry.mark_connected h m
    else if decide (typ f = lit "close") then ConnRegistry.mark_failed h (close_errno f) m
    else m
  | None => m
  end.
Definition accepts_frame f (m : AcceptRegistry.t) : AcceptRegistry.t :=
  match handle f, child f with
  | Some l, Some c =>
    if decide (typ f = lit "accept")
    then AcceptRegistry.push l (mkAcceptInfo c (remote f) (local f)) m else m
  | _, _ => m
  end.

Lemma dispatch_push_registries f st :
  conns (cl (dispatch_push f st)) = conns_frame f (conns (cl st)) ∧
  accepts (cl (dispatch_push f st)) = accepts_frame f (accepts (cl st)).
Proof.
  unfold dispatch_push, conns_frame, accepts_frame.
  destruct (decide (typ f = lit "recv")) as [Ht|_];
    [rewrite Ht; destruct (handle f); [destruct (child f), (is_dgram_recv f)|]; done|].
  destruct (decide (typ f = lit "accept")) as [Ht|_];
    [rewrite Ht; destruct (handle f); [destruct (child f)|]; done|].
  destruct (decide (typ f = lit "status")) as [Ht|_].
  { destruct (handle f); [|done]. destruct (child f), (Z.land _ _ =? 0); done. }
  destruct (decide (typ f = lit "close")), (handle f); try done; by destruct (child f).
Qed.

Lemma conns_frame_phase h f (m : ConnRegistry.t) b :
  parse b = Some f → conns_frame f m !! h = link_frame h (m !! h) b.
Proof.
  intros Hb. unfold conns_frame, link_frame. rewrite Hb. fold (close_errno f).
  destruct (handle f) as [h'|]; [|done].
  destruct (decide (Some h' = Some h)) as [[= ->]|Hne].
  - destruct (decide (typ f = lit "status")) as [Ht|Ht].
    + destruct (Z.eqb_spec (Z.land (status_flags f) STATUS_CONNECTED) 0).
      * rewrite (decide_False (P := typ f = lit "status" ∧ _)) by tauto.
        rewrite (decide_False (P := typ f = lit "close" ∧ _)); [done|]. rewrite Ht. by intros [? _].
      * rewrite decide_True by done. apply lookup_insert_eq.
    + rewrite (decide_False (P := typ f = lit "status" ∧ _)) by tauto.
      destruct (decide (typ f = lit "close")) as [Hc|Hc].
      * unfold ConnRegistry.mark_failed. case_decide as Hp.
        -- destruct Hp as [_ ->]. apply lookup_insert_eq.
        -- destruct (m !! h) as [[]|] eqn:Hm; try done. tauto.
      * by rewrite (decide_False (P := typ f = lit "close" ∧ _)) by tauto.
  - assert (h' ≠ h) by congruence. repeat case_decide; [case_bools; [done|]| |done].
    + by apply lookup_insert_ne.
    + unfold ConnRegistry.mark_failed. destruct (m !! h') as [[]|]; try done.
      by apply lookup_insert_ne.
Qed.

Lemma push_frame_phase h b st :
  conns (cl (push_frame st b)) !! h = link_frame h (conns (cl st) !! h) b.
Proof.
  unfold push_frame. destruct (parse b) as [f|] eqn:Hb.
  - destruct (dispatch_push_registries f st) as [-> _]. by apply conns_frame_phase.
  - unfold link_frame. by rewrite Hb.
Qed.

Lemma pushes_phase h bs st :
  conns (cl (pushes bs st)) !! h = link_phase h (conns (cl st) !! h) (map NetFrame bs).
Proof.
  revert st. induction bs as [|b bs IH]; intros st; [done|].
  change (pushes (b :: bs) st) with (pushes bs (push_frame st b)).
  rewrite IH. simpl. by rewrite push_frame_phase.
Qed.

(** Nothing is pending and the reader runs, or the reader has ended. *)
Lemma net_step_idle ev st : pending (cl st) = ∅ → pending (cl (net_step ev st)) = ∅.
Proof.
  intros Hp. unfold net_step. destruct (closed (cl st)); [done|].
  destruct ev; [|done..].
  rewrite handle_frame_push by (intros; by rewrite Hp, lookup_empty).
  destruct (pushes_keeps [bytes] st) as (Heq & _). simpl in Heq. by rewrite Heq.
Qed.

Lemma net_steps_phase h evs st : pending (cl st) = ∅ →
  conns (cl (net_steps evs st)) !! h =
  if closed (cl st) then conns (cl st) !! h else link_phase h (conns (cl st) !! h) evs.
Proof.
  revert st. induction evs as [|ev evs IH]; intros st Hp; [by destruct (closed (cl st))|].
  change (net_steps (ev :: evs) st) with (net_steps evs (net_step ev st)).
  rewrite IH by (by apply net_step_idle). unfold net_step.
  destruct (closed (cl st)) eqn:Hc; [by rewrite Hc|]. destruct ev; simpl.
  - rewrite handle_frame_push by (intros; by rewrite Hp, lookup_empty).
    destruct (pushes_keeps [bytes] st) as (_ & _ & Heq & _). simpl in Heq.
    by rewrite Heq, Hc, push_frame_phase.
  - unfold ConnRegistry.fail_all_pending. rewrite lookup_fmap. destruct (conns (cl st) !! h) as [[]|]; simpl; by repeat case_decide.
  - by rewrite Hc.
  - by rewrite Hc.
Qed.

Definition is_net (ev : event) : Prop := match ev with NetFrame _ | NetEnd => True | _ => False end.
#[local] Instance is_net_dec ev : Decision (is_net ev).
Proof. destruct ev; simpl; apply _. Defined.

Lemma wait_go_net {A} cond on_expire timed evs rest st : Forall is_net evs →
  wait_go (A := A) cond on_expire timed (evs ++ rest) st =
  wait_go cond on_expire timed rest (net_steps evs st).
Proof.
  intros Hevs. revert st. induction Hevs as [|ev evs Hev _ IH]; intros st; [done|].
  destruct ev; [apply IH|apply IH|done..].
Qed.

Lemma wait_go_decided h w rest st r :
  ConnRegistry.result h (conns (cl st)) = Some r → w = Wake ∨ w = Expire →
  wait_go (conn_ready h) (conn_expired h) true (w :: rest) st = (Woken r, set_net rest st).
Proof. by intros Hr [-> | ->]; simpl; unfold check_now, conn_ready, conn_expired; rewrite Hr. Qed.

(** C21: a caller waiting for a connect, no request being in flight, sees exactly what the link events that
    have arrived when it runs make of the handle: connected, failed with the
    errno of its close or of the dropped transport; and if its timer fires while
    the link is still undecided, a timeout. *)
Theorem wait_connected_follows h st evs w rest :
  pending (cl st) = ∅ → closed (cl st) = false → conns (cl st) !! h = Some Pending →
  Forall is_net evs → net st = evs ++ w :: rest → w = Wake ∨ w = Expire →
  match link_phase h (Some Pending) evs with
  | Some Connected => fst (wait_connected h true st) = Some (Ok tt)
  | Some (Failed e) => fst (wait_connected h true st) = Some (Err e)
  | _ => w = Expire → fst (wait_connected h true st) = Some (Err ETIMEDOUT)
  end.
Proof.
  intros Hp Hc Hh Hevs Hnet Hw.
  unfold wait_connected. rewrite wait_start, Hnet
    by (unfold conn_ready, ConnRegistry.result; by rewrite Hh, Hc).
  rewrite wait_go_net by done. pose proof (net_steps_phase h evs st Hp) as Hph.
  rewrite Hc, Hh in Hph.
  destruct (link_phase h (Some Pending) evs) as [[| |e]|] eqn:Hl; [intros ->|..|intros ->].
  - simpl. unfold check_now, conn_expired, ConnRegistry.result. by rewrite Hph.
  - rewrite (wait_go_decided h w rest _ (Ok tt)); [done| |done].
    unfold ConnRegistry.result. by rewrite Hph.
  - rewrite (wait_go_decided h w rest _ (Err e)); [done| |done].
    unfold ConnRegistry.result. by rewrite Hph.
  - simpl. unfold check_now, conn_expired, ConnRegistry.result. by rewrite Hph.
Qed.

(** * Calls

    Every method is [next_id], a request built with the id, its reply and what
    the method makes of it. *)
Lemma rpc_reply {A B} (mk : Z → A) `{!Serialize A} (k : Frame → act sys B RhpError)
    st bytes w pre b post rest f :
  let i := u64 (1 + next_id_ (cl st)) in
  pending (cl st) = ∅ → closed (cl st) = false → to_vec (fields (mk i)) = Some bytes →
  write_frame (writer (cl st)) bytes = (Ok tt, w) →
  net st = map NetFrame (pre ++ b :: post) ++ Wake :: rest →
  Forall (not_reply i) pre → parse b = Some f → id f = Some i →
  (i <-? next_id; bytes <-? to_json (mk i); reply <-? request i bytes; k reply) st =
  k f (set_net rest (upd_cl (set_pending_chans ∅ (chans (cl st) ++ [mkChan [] false]))
         (pushes (pre ++ post) (upd_cl (set_writer w) (upd_cl (set_next_id i) st))))).
Proof.
  intros i Hp Hc Hv Hw Hnet Hpre Hb Hf. unfold abind, next_id, to_json. fold i.
  rewrite Hv. simpl ok_or. rewrite (Z.add_comm _ 1). fold i.
  rewrite (request_reply_eq i bytes w (upd_cl (set_next_id i) st) pre b post rest f) by done.
  done.
Qed.

Definition connects (h : Z) b : bool :=
  match parse b with
  | Some f => bool_decide (handle f = Some h) && bool_decide (typ f = lit "status") &&
              negb (Z.land (status_flags f) STATUS_CONNECTED =? 0)
  | None => false
  end.

Lemma link_frame_unarmed h b : 
  link_frame h None b = if connects h b then Some Connected else None.
Proof.
  unfold link_frame, connects. destruct (parse b) as [f|]; [|done].
  case_decide as Hh; [|by rewrite bool_decide_false].
  rewrite bool_decide_true by done. case_decide as Hs.
  - destruct Hs as [Ht Hf]. rewrite bool_decide_true by done. by rewrite (proj2 (Z.eqb_neq _ _) Hf).
  - rewrite decide_False by (by intros [_ ?]).
    destruct (decide (typ f = lit "status")) as [Ht|Ht]; [|by rewrite bool_decide_false].
    rewrite bool_decide_true by done. simpl.
    destruct (Z.eqb_spec (Z.land (status_flags f) STATUS_CONNECTED) 0); [done|tauto].
Qed.

Lemma link_frame_connected h b : link_frame h (Some Connected) b = Some Connected.
Proof.
  unfold link_frame. destruct (parse b); [|done]. repeat case_decide; try done.
  by destruct_and?.
Qed.

Lemma link_phase_connected h bs : link_phase h (Some Connected) (map NetFrame bs) = Some Connected.
Proof. induction bs; simpl; [done|]. by rewrite link_frame_connected. Qed.

Lemma link_phase_unarmed h bs :
  link_phase h None (map NetFrame bs) = if existsb (connects h) bs then Some Connected else None.
Proof.
  induction bs as [|b bs IH]; [done|]. simpl. rewrite link_frame_unarmed.
  destruct (connects h b); [apply link_phase_connected|apply IH].
Qed.

Definition connect_req (loc rem : str) (via : list str) (i : Z) : OpenReq :=
  Build_OpenReq (lit "open") i (lit "ax25") (lit "stream") None loc (Some rem)
    (match via with [] => None | _ => Some (join (lit ",") via) end) OPEN_FLAG_ACTIVE.

(** When the engine accepts an open, the caller has the handle and tracks it:
    as connected if a status push that says so was processed before the call
    ended, as pending otherwise, even if the link's close was: that close is
    lost. *)
Theorem open_connect_arms loc rem via st bytes w pre b post rest f h :
  let i := u64 (1 + next_id_ (cl st)) in
  pending (cl st) = ∅ → closed (cl st) = false → conns (cl st) !! h = None →
  to_vec (fields (connect_req loc rem via i)) = Some bytes →
  write_frame (writer (cl st)) bytes = (Ok tt, w) →
  net st = map NetFrame (pre ++ b :: post) ++ Wake :: rest →
  Forall (not_reply i) pre → parse b = Some f → id f = Some i →
  check_ok f = Ok tt → handle f = Some h →
  ∃ st', open_connect loc rem via st = (Ok (mkOpenResult h (errcode f) (errtext f)), st') ∧
    conns (cl st') !! h = Some (if existsb (connects h) (pre ++ post) then Connected else Pending).
Proof.
  intros i Hp Hc Hh Hv Hw Hnet Hpre Hb Hf Hok Hhf. unfold open_connect, open, abind at 1.
  erewrite (rpc_reply (connect_req loc rem via)) by done.
  unfold abind, checked. rewrite Hok, Hhf. simpl ok_or. cbn iota. eexists. split; [done|].
  set (st0 := upd_cl (set_writer w) (upd_cl (set_next_id i) st)).
  pose proof (pushes_phase h (pre ++ post) st0) as Hph.
  change (conns (cl st0)) with (conns (cl st)) in Hph. rewrite Hh, link_phase_unarmed in Hph.
  simpl. unfold ConnRegistry.set_pending. simpl. fold i. fold st0. rewrite Hph.
  destruct (existsb (connects h) (pre ++ post)); [done|apply lookup_insert_eq].
Qed.

(** * Accepts *)
Definition accept_queue (l : Z) st : list AcceptInfo := default [] (accepts (cl st) !! l).

(** The child an inbound frame announces on listener [l]. *)
Definition announced (l : Z) b : list AcceptInfo :=
  match parse b with
  | Some f =>
    match child f with
    | Some c => if decide (typ f = lit "accept" ∧ handle f = Some l)
                then [mkAcceptInfo c (remote f) (local f)] else []
    | None => []
    end
  | None => []
  end.

(** Frames the reader processes, and [None] for a [try_accept] of the caller. *)
Fixpoint accept_run (l : Z) (acts : list (option (list Z))) st : list AcceptInfo * sys :=
  match acts with
  | [] => ([], st)
  | Some b :: r => accept_run l r (net_step (NetFrame b) st)
  | None :: r =>
    let '(o, st) := try_accept l st in
    let '(got, st) := accept_run l r st in (option_list o ++ got, st)
  end.

Lemma push_frame_accepts l b st :
  accept_queue l (push_frame st b) = accept_queue l st ++ announced l b.
Proof.
  unfold accept_queue, push_frame, announced. destruct (parse b) as [f|]; [|by rewrite app_nil_r].
  destruct (dispatch_push_registries f st) as [_ ->]. unfold accepts_frame.
  destruct (child f) as [c|], (handle f) as [l'|]; rewrite ?app_nil_r; try done.
  - unfold AcceptRegistry.push. destruct (decide (typ f = lit "accept")) as [Ht|Ht].
    + destruct (decide (l' = l)) as [->|Hne].
      * rewrite decide_True by done. by rewrite lookup_insert_eq.
      * rewrite decide_False by (intros [_ [= ?]]; done).
        by rewrite lookup_insert_ne, app_nil_r.
    + rewrite decide_False by tauto. by rewrite app_nil_r.
  - rewrite decide_False by (by intros [_ ?]). by rewrite app_nil_r.
Qed.

Lemma try_accept_queue l st :
  option_list (fst (try_accept l st)) ++ accept_queue l (snd (try_accept l st)) = accept_queue l st ∧
  (fst (try_accept l st) = None ↔ accept_queue l st = []).
Proof.
  unfold try_accept, AcceptRegistry.pop, accept_queue.
  destruct (accepts (cl st) !! l) as [[|x q]|] eqn:Hq; simpl; rewrite ?Hq; try done.
  by rewrite lookup_insert_eq.
Qed.

(** Accepts are first in, first out: at any point what a listener's accepts
    have returned, followed by what is queued, is the children announced for it,
    in order; and an accept finds nothing only when nothing is queued. *)
Theorem accept_fifo l acts st : pending (cl st) = ∅ → closed (cl st) = false →
  let '(got, st') := accept_run l acts st in
  got ++ accept_queue l st' =
    accept_queue l st ++ (acts ≫= λ a, match a with Some b => announced l b | None => [] end) ∧
  (fst (try_accept l st') = None ↔ accept_queue l st' = []).
Proof.
  revert st. induction acts as [|[b|] acts IH]; intros st Hp Hc.
  - simpl. split; [by rewrite app_nil_r|apply try_accept_queue].
  - cbn [accept_run]. unfold net_step. rewrite Hc.
    rewrite handle_frame_push by (intros; by rewrite Hp, lookup_empty).
    destruct (pushes_keeps [b] st) as (Hp' & _ & Hc' & _). simpl in Hp', Hc'.
    specialize (IH (push_frame st b) ltac:(congruence) ltac:(congruence)).
    destruct (accept_run l acts (push_frame st b)) as [got st'] eqn:Hrun.
    destruct IH as [IH1 IH2]. split; [|done].
    by rewrite IH1, push_frame_accepts, <- app_assoc.
  - cbn [accept_run]. destruct (try_accept l st) as [o st1] eqn:Hta.
    destruct (try_accept_queue l st) as [Hq _]. rewrite Hta in Hq. simpl in Hq.
    assert (pending (cl st1) = ∅ ∧ closed (cl st1) = false) as [Hp' Hc'].
    { unfold try_accept in Hta. destruct (AcceptRegistry.pop _ _) as [[]|]; by simplify_eq. }
    specialize (IH st1 Hp' Hc'). destruct (accept_run l acts st1) as [got st'] eqn:Hrun.
    destruct IH as [IH1 IH2]. split; [|done]. by rewrite <- app_assoc, IH1, app_assoc, Hq.
Qed.

(** * Replies that are errors *)
Lemma check_ok_errno f e : check_ok f = Err e → 1 ≤ to_errno e ≤ 133.
Proof.
  unfold check_ok. destruct (Z.eqb_spec (errcode f) 0); [done|]. simpl.
  destruct (negb _); [|done]. intros [= <-]. by apply errcode_to_errno_range.
Qed.

(** * The reader loop *)
Lemma net_steps_app evs evs' st : net_steps (evs ++ evs') st = net_steps evs' (net_steps evs st).
Proof. apply foldl_app. Qed.

Lemma handle_frame_closed b st : closed (cl (handle_frame b st)) = closed (cl st).
Proof.
  unfold handle_frame. destruct (parse b) as [f|]; [|done].
  destruct (dispatch_push_keeps f st) as (_ & _ & Hc & _).
  destruct (id f) as [i|]; [|done]. by destruct (pending (cl st) !! i).
Qed.

(** The loop over a stream is the script of its frames and its end, and it
    terminates: every iteration but the last consumes a frame. *)
Lemma reader_loop_events fuel bs st :
  Forall (λ p, Z.of_nat (List.length p) ≤ MAX_FRAME) bs → (List.length bs < fuel)%nat →
  closed (cl st) = false →
  reader_loop fuel (mkReader (bs ≫= frame_bytes) None) st =
  Some (net_steps (map NetFrame bs ++ [NetEnd]) st).
Proof.
  intros Hbs. revert fuel st.
  induction Hbs as [|b bs Hb _ IH]; intros [|fuel] st Hf Hc; try (simpl in *; lia).
  { simpl. unfold net_step. by rewrite Hc. }
  cbn [reader_loop]. change ((b :: bs) ≫= frame_bytes) with (frame_bytes b ++ (bs ≫= frame_bytes)).
  rewrite read_frame_app by done. rewrite IH; [|simpl in Hf; lia|by rewrite handle_frame_closed].
  f_equal. unfold net_steps. simpl. unfold net_step at 3. by rewrite Hc.
Qed.

(** * Sending *)
Section send.
Context `{!SerdeJsonLaws}.

Definition send_req (h : Z) (d : list Z) (i : Z) : SendReq :=
  Build_SendReq (lit "send") i h (to_wire_string d).

(** A chunk's request fits a frame, whatever its bytes, and reads back. *)
Lemma send_req_wire h d i :
  0 ≤ h < 2 ^ 64 → 0 ≤ i < 2 ^ 64 → Forall is_byte d → Z.of_nat (List.length d) ≤ MAX_SEND_CHUNK →
  ∃ bytes f, to_vec (fields (send_req h d i)) = Some bytes ∧ parse bytes = Some f ∧
    Z.of_nat (List.length bytes) ≤ MAX_FRAME ∧
    typ f = lit "send" ∧ id f = Some i ∧ handle f = Some h ∧ data_str f = Some (to_wire_string d).
Proof.
  intros Hh Hi Hd Hlen.
  assert (request_ok (RSend (send_req h d i))) as Hok.
  { unfold request_ok. simpl request_fields. unfold fields, ser_SendReq. rewrite !Forall_cons.
    split; [exact (lit_scalar "send")|]. split; [exact Hi|]. split; [exact Hh|].
    split; [by apply to_wire_scalar|constructor]. }
  destruct (to_vec_from_slice _ (request_fields_ok _ Hok)) as (bytes & v & Hb & Hv & Hget & Hsz).
  exists bytes, v. split; [done|]. split; [done|]. split.
  - unfold MAX_FRAME, MAX_SEND_CHUNK in *. simpl request_fields in Hsz.
    change (fields (send_req h d i)) with
      [(lit "type", JStr (lit "send")); (lit "id", JNum i); (lit "handle", JNum h);
       (lit "data", JStr (to_wire_string d))] in Hsz.
    rewrite to_wire_string_id in Hsz. cbn [sum_list_with] in Hsz. unfold json_size in Hsz. cbn [fst snd] in Hsz.
    change (List.length (lit "type")) with 4%nat in Hsz.
    change (List.length (lit "send")) with 4%nat in Hsz.
    change (List.length (lit "id")) with 2%nat in Hsz.
    change (List.length (lit "handle")) with 6%nat in Hsz.
    change (List.length (lit "data")) with 4%nat in Hsz. lia.
  - unfold typ, id, handle, data_str. rewrite !(reads_str _ _ (Hget _)), !(reads_num _ _ (Hget _)).
    done.
Qed.

Lemma chunks_go_spec {A} fuel n (l : list A) : (0 < n)%nat → (List.length l ≤ fuel)%nat →
  mjoin (chunks_go fuel n l) = l ∧ Forall (λ c, 0 < List.length c ≤ n)%nat (chunks_go fuel n l).
Proof.
  intros Hn. revert l. induction fuel as [|fuel IH]; intros [|x l] Hl; try done; [simpl in Hl; lia|].
  cbn [chunks_go]. destruct (IH (drop n (x :: l))) as [H1 H2].
  { rewrite length_drop. simpl in *. lia. }
  split.
  - change (mjoin (take n (x :: l) :: ?r)) with (take n (x :: l) ++ mjoin r). rewrite H1. apply take_drop.
  - constructor; [|done]. rewrite length_take. simpl. lia.
Qed.

(** The engine acknowledges each request as it comes. *)
Fixpoint acks (i : Z) (replies : list (list Z)) : Prop :=
  match replies with
  | [] => True
  | b :: r => (∃ f, parse b = Some f ∧ id f = Some i ∧ check_ok f = Ok tt) ∧ acks (i + 1) r
  end.
Definition ack_script (replies : list (list Z)) (rest : list event) : list event :=
  (replies ≫= λ b, [NetFrame b; Wake]) ++ rest.

(** What the engine reads of a [send]: consecutive requests for one handle. *)
Fixpoint sends (h i : Z) (ps : list (list Z)) (ds : list (list Z)) : Prop :=
  match ps, ds with
  | [], [] => True
  | p :: ps, d :: ds =>
    (∃ f, parse p = Some f ∧ typ f = lit "send" ∧ id f = Some i ∧ handle f = Some h ∧
       data_str f = Some (to_wire_string d)) ∧ sends h (i + 1) ps ds
  | _, _ => False
  end.

(** A client that can send: nobody waits for a reply, and the engine will
    acknowledge the requests to come. *)
Record can_send (replies : list (list Z)) (rest : list event) (st : sys (S := S)) : Prop := {
  cs_pending : pending (cl st) = ∅;
  cs_open : closed (cl st) = false;
  cs_writer : wr_left (writer (cl st)) = None;
  cs_ids : 0 ≤ next_id_ (cl st) ∧ next_id_ (cl st) + Z.of_nat (List.length replies) < 2 ^ 64;
  cs_acks : acks (next_id_ (cl st) + 1) replies;
  cs_net : net st = ack_script replies rest }.

(** What sending [ds] did: requests on the wire, and replies used up. *)
Record has_sent (h : Z) (ds : list (list Z)) (ps : list (list Z)) (st st' : sys (S := S)) : Prop := {
  hs_sends : sends h (next_id_ (cl st) + 1) ps ds;
  hs_fit : Forall (λ p, Z.of_nat (List.length p) ≤ MAX_FRAME) ps;
  hs_writer : writer (cl st') = mkWriter (wr_bytes (writer (cl st)) ++ (ps ≫= frame_bytes)) None;
  hs_ids : next_id_ (cl st') = next_id_ (cl st) + Z.of_nat (List.length ds) }.

Lemma sends_app h i ps ds ps' ds' : sends h i ps ds →
  sends h (i + Z.of_nat (List.length ds)) ps' ds' → sends h i (ps ++ ps') (ds ++ ds').
Proof.
  revert i ds. induction ps as [|p ps IH]; intros i [|d ds] H1 H2; try done.
  { simpl in *. by rewrite Z.add_0_r in H2. }
  destruct H1 as [H1 H1']. split; [done|]. apply IH; [done|].
  by replace (i + 1 + Z.of_nat (List.length ds)) with (i + Z.of_nat (List.length (d :: ds)))
    by (simpl; lia).
Qed.

Lemma sends_length h i ps ds : sends h i ps ds → List.length ps = List.length ds.
Proof.
  revert i ds. induction ps as [|p ps IH]; intros i [|d ds] Hs; try done.
  destruct Hs as [_ Hs]. simpl. f_equal. by eapply IH.
Qed.

Lemma has_sent_trans h ds1 ps1 ds2 ps2 st1 st2 st3 :
  has_sent h ds1 ps1 st1 st2 → has_sent h ds2 ps2 st2 st3 →
  has_sent h (ds1 ++ ds2) (ps1 ++ ps2) st1 st3.
Proof.
  intros [H1 H2 H3 H4] [J1 J2 J3 J4]. split.
  - apply sends_app; [done|]. by rewrite H4, <- Z.add_assoc, (Z.add_comm _ 1), Z.add_assoc in J1.
  - by apply Forall_app.
  - rewrite J3, H3. simpl. by rewrite bind_app, <- app_assoc.
  - rewrite J4, H4, length_app. lia.
Qed.

Definition chunk_ok (c : list Z) : Prop :=
  Forall is_byte c ∧ Z.of_nat (List.length c) ≤ MAX_SEND_CHUNK.

Lemma send_chunk_wire h c b replies rest st :
  0 ≤ h < 2 ^ 64 → chunk_ok c → can_send (b :: replies) rest st →
  ∃ st' p, send_chunk h c st = (Ok tt, st') ∧ has_sent h [c] [p] st st' ∧
    can_send replies rest st' ∧ sk st' = sk st.
Proof.
  intros Hh [Hcb Hcl] [Hp Hc Hw [Hn0 Hn] [(f & Hb & Hf & Hok) Hack] Hnet].
  simpl List.length in Hn.
  set (i := u64 (1 + next_id_ (cl st))).
  assert (i = next_id_ (cl st) + 1) as Hi by (unfold i, u64; rewrite Z.mod_small; lia).
  destruct (send_req_wire h c i) as (bytes & fr & Hv & Hpr & Hsz & Ht & Hid & Hhd & Hds); [lia..|done|done|].
  eexists _, bytes. split; [|split; [split|split; [split|]]].
  - unfold send_chunk. erewrite (rpc_reply (send_req h c) (λ r, checked r) st bytes _ [] b []).
    + unfold checked. rewrite Hok. reflexivity.
    + done.
    + done.
    + done.
    + by apply write_frame_ok.
    + exact Hnet.
    + done.
    + done.
    + fold i. by rewrite Hi.
  - simpl. rewrite <- Hi. split; [|done]. by exists fr.
  - by constructor.
  - simpl. by rewrite app_nil_r.
  - simpl. fold i. lia.
  - done.
  - done.
  - done.
  - simpl. fold i. lia.
  - simpl. fold i. by rewrite Hi.
  - done.
  - done.
Qed.

Lemma send_chunks_wire h cs replies rest st :
  0 ≤ h < 2 ^ 64 → Forall chunk_ok cs → (List.length cs ≤ List.length replies)%nat →
  can_send replies rest st →
  ∃ st' ps, send_chunks h cs st = (Ok tt, st') ∧ has_sent h cs ps st st' ∧
    can_send (drop (List.length cs) replies) rest st' ∧ sk st' = sk st.
Proof.
  intros Hh Hcs. revert replies st.
  induction Hcs as [|c cs Hc _ IH]; intros replies st Hlen Hst.
  { exists st, []. split_and!; [done|split|done..]; try done.
    - rewrite app_nil_r. destruct Hst as [_ _ Hw _ _ _]. destruct (writer (cl st)). simpl in *. congruence.
    - simpl. lia. }
  destruct replies as [|b replies]; simpl in Hlen; [lia|].
  destruct (send_chunk_wire h c b replies rest st) as (st1 & p & Hs1 & Hh1 & Hc1 & Hk1); [done..|].
  destruct (IH replies st1) as (st2 & ps & Hs2 & Hh2 & Hc2 & Hk2); [lia|done|].
  exists st2, (p :: ps). split_and!; [|by apply (has_sent_trans h [c] [p] cs ps st st1)|done|congruence].
  simpl. unfold abind at 1. by rewrite Hs1.
Qed.

(** The payloads of the requests [send] makes. *)
Definition send_parts (d : list Z) : list (list Z) :=
  match d with [] => [[]] | _ => chunks (Z.to_nat MAX_SEND_CHUNK) d end.

Lemma send_parts_ok d : Forall is_byte d → mjoin (send_parts d) = d ∧ Forall chunk_ok (send_parts d).
Proof.
  intros Hd. unfold send_parts. destruct d as [|x d].
  { split; [done|]. by repeat constructor. }
  set (l := x :: d) in *.
  destruct (chunks_go_spec (List.length l) (Z.to_nat MAX_SEND_CHUNK) l) as [Hj Hcl];
    [unfold MAX_SEND_CHUNK; lia|lia|]. fold (chunks (Z.to_nat MAX_SEND_CHUNK) l) in Hj, Hcl.
  split; [done|]. apply Forall_and. split.
  - apply Forall_forall. intros c Hin. apply Forall_forall. intros y Hy.
    rewrite Forall_forall in Hd. apply Hd. rewrite <- Hj. apply list_elem_of_join. eauto.
  - eapply Forall_impl; [exact Hcl|]. simpl. unfold MAX_SEND_CHUNK. lia.
Qed.

Lemma send_parts_chunks h d st : send h d st = send_chunks h (send_parts d) st.
Proof.
  unfold send, send_parts. destruct d; [|done]. simpl. unfold abind, aret.
  by destruct (send_chunk h [] st) as [[[]|e] st'].
Qed.

(** [send]: the requests carry the data, chunk by chunk. *)
Lemma send_wire h d replies rest st :
  Forall is_byte d → 0 ≤ h < 2 ^ 64 → (List.length (send_parts d) ≤ List.length replies)%nat →
  can_send replies rest st →
  ∃ st' ps, send h d st = (Ok tt, st') ∧ has_sent h (send_parts d) ps st st' ∧
    can_send (drop (List.length (send_parts d)) replies) rest st' ∧ sk st' = sk st.
Proof.
  intros Hd Hh Hlen Hst. rewrite send_parts_chunks.
  destruct (send_parts_ok d Hd) as [_ Hok]. by apply send_chunks_wire.
Qed.

(** Whatever the engine answers, if it does: the requests up to the first that
    is not acknowledged. *)
Lemma send_chunk_any h c st : 0 ≤ h < 2 ^ 64 → chunk_ok c →
  pending (cl st) = ∅ → wr_left (writer (cl st)) = None → 0 ≤ next_id_ (cl st) < 2 ^ 64 - 1 →
  ∃ p, has_sent h [c] [p] st (snd (send_chunk h c st)) ∧ pending (cl (snd (send_chunk h c st))) = ∅.
Proof.
  intros Hh [Hcb Hcl] Hp Hw Hn. set (i := u64 (1 + next_id_ (cl st))).
  assert (i = next_id_ (cl st) + 1) as Hi by (unfold i, u64; rewrite Z.mod_small; lia).
  assert (u64 (next_id_ (cl st) + 1) = next_id_ (cl st) + 1) as Hu by (unfold u64; rewrite Z.mod_small; lia).
  destruct (send_req_wire h c i) as (bytes & fr & Hv & Hpr & Hsz & Ht & Hid & Hhd & Hds); [lia..|done|done|].
  set (st1 := upd_cl (set_next_id (u64 (next_id_ (cl st) + 1))) st).
  destruct (request_ends i bytes st1 Hp) as (r & st' & Hr & Hp' & Hn' & Hw' & _).
  assert (snd (send_chunk h c st) = st') as ->.
  { unfold send_chunk, abind, next_id, to_json. cbn [fst snd]. fold st1 i.
    change (fields (Build_SendReq (lit "send") i h (to_wire_string c))) with (fields (send_req h c i)).
    rewrite Hv. cbn [ok_or]. rewrite Hr. by destruct r. }
  exists bytes. split; [|done]. split.
  - rewrite <- Hi. split; [|done]. by exists fr.
  - by constructor.
  - rewrite Hw'. change (writer (cl st1)) with (writer (cl st)). rewrite write_frame_ok by done.
    simpl. by rewrite app_nil_r.
  - rewrite Hn'. exact Hu.
Qed.

Lemma send_any h d st : Forall is_byte d → 0 ≤ h < 2 ^ 64 → pending (cl st) = ∅ →
  wr_left (writer (cl st)) = None → 0 ≤ next_id_ (cl st) →
  next_id_ (cl st) + Z.of_nat (List.length (send_parts d)) < 2 ^ 64 →
  ∃ n ps, (1 ≤ n ≤ List.length (send_parts d))%nat ∧ has_sent h (take n (send_parts d)) ps st (snd (send h d st)) ∧
    (fst (send h d st) = Ok tt → n = List.length (send_parts d)).
Proof.
  intros Hd Hh Hp Hw Hn0 Hn. rewrite send_parts_chunks. destruct (send_parts_ok d Hd) as [_ Hok].
  assert (send_parts d ≠ []) as Hne by (unfold send_parts; by destruct d).
  revert st Hp Hw Hn0 Hn. induction (send_parts d) as [|c cs IH]; intros st Hp Hw Hn0 Hn; [done|].
  apply Forall_cons in Hok as [Hc Hok]. simpl in Hn.
  destruct (send_chunk_any h c st) as (p & Hs & Hp1); [done..|lia|].
  cbn [send_chunks]. unfold abind. destruct (send_chunk h c st) as [r st1]. cbn [snd] in *.
  assert (wr_left (writer (cl st1)) = None) as Hw1 by by rewrite (hs_writer _ _ _ _ _ Hs).
  pose proof (hs_ids _ _ _ _ _ Hs) as Hi. simpl in Hi.
  destruct r as [[]|e].
  - destruct cs as [|c' cs]; [exists 1%nat, [p]; simpl; split_and!; [lia|lia|done|done]|].
    destruct (IH Hok ltac:(done) st1) as (n & ps & Hl & Hs2 & Hall); [done|done|lia|lia|].
    exists (Datatypes.S n), (p :: ps). split_and!; [lia|simpl in *; lia| |].
    + cbn [take]. by apply (has_sent_trans h [c] [p] _ ps st st1).
    + intros Hr. simpl in *. by rewrite (Hall Hr).
  - exists 1%nat, [p]. simpl. split_and!; [lia|lia|done|done].
Qed.

(** The engine reads the requests back off the wire. *)
Lemma sent_read_back h ds ps st st' : has_sent h ds ps st st' → writer (cl st) = mkWriter [] None →
  read_frames (Datatypes.S (List.length ds)) (mkReader (wr_bytes (writer (cl st'))) None) = Ok ps.
Proof.
  intros [H1 H2 H3 _] Hw. rewrite H3, Hw. cbn [wr_bytes]. rewrite app_nil_l.
  apply read_frames_concat; [done|]. rewrite (sends_length _ _ _ _ H1). lia.
Qed.

(** Data handed to [send] reaches the engine whole and in order: split into
    requests of at most 8100 bytes with consecutive ids, each within the frame
    limit whatever the bytes are, which the engine reads back one by one and
    whose payloads concatenate to the data. *)
Theorem send_stream h d replies rest st :
  let n := List.length (chunks (Z.to_nat MAX_SEND_CHUNK) d) in
  d ≠ [] → Forall is_byte d → 0 ≤ h < 2 ^ 64 →
  pending (cl st) = ∅ → closed (cl st) = false → writer (cl st) = mkWriter [] None →
  0 ≤ next_id_ (cl st) → next_id_ (cl st) + Z.of_nat n < 2 ^ 64 →
  List.length replies = n → acks (next_id_ (cl st) + 1) replies → net st = ack_script replies rest →
  ∃ st' ps ds, send h d st = (Ok tt, st') ∧
    read_frames (Datatypes.S n) (mkReader (wr_bytes (writer (cl st'))) None) = Ok ps ∧
    sends h (next_id_ (cl st) + 1) ps ds ∧ mjoin ds = d ∧
    Forall (λ c, Z.of_nat (List.length c) ≤ MAX_SEND_CHUNK) ds.
Proof.
  intros n Hne Hd Hh Hp Hc Hw Hn0 Hn Hlen Hack Hnet.
  assert (send_parts d = chunks (Z.to_nat MAX_SEND_CHUNK) d) as Hparts by by destruct d.
  destruct (send_parts_ok d Hd) as [Hj Hok].
  destruct (send_wire h d replies rest st) as (st' & ps & Hs & Hsent & _);
    [done|done|by rewrite Hparts, Hlen|split; try done; [by rewrite Hw|by rewrite Hlen]|].
  exists st', ps, (send_parts d). split_and!; try done.
  - unfold n. rewrite <- Hparts. by eapply sent_read_back.
  - apply Hsent.
  - eapply Forall_impl; [exact Hok|]. by intros c [_ ?].
Qed.
End send.

End spec.

(** * Witnesses: a client talking to an engine in [Tagged]'s encoding. *)
Module Example.
#[export] Existing Instances Tagged.serde Tagged.laws.

Definition fields_reply (i h : Z) : list (str * jfield) :=
  [(lit "type", JStr (lit "reply")); (lit "id", JNum i); (lit "handle", JNum h);
   (lit "errCode", JNum 0)].
Definition fields_push (t : str) (h : Z) : list (str * jfield) :=
  [(lit "type", JStr t); (lit "handle", JNum h); (lit "flags", JNum 2); (lit "child", JNum 50)].
Definition reply (i h : Z) : list Z := Tagged.enc (fields_reply i h).
Definition push (t : str) (h : Z) : list Z := Tagged.enc (fields_push t h).
Definition start (evs : list event) : sys (S := unit) := mkSys (new_client (mkWriter [] None)) tt evs.
End Example.

Import Example.

(** Closed equations by evaluation; the other premises are left. *)
Ltac by_eval := lazymatch goal with |- _ = _ => vm_compute; reflexivity | |- _ => idtac end.

Lemma request_reply_witness :
  ∃ st', request 1 [7] (start (map NetFrame ([push (lit "status") 9] ++ reply 1 42 :: [reply 3 0]) ++ [Wake]))
      = (Ok (Tagged.VObj (fields_reply 1 42)), st') ∧
    pending (cl st') = ∅ ∧ conns (cl st') !! 9 = Some Connected.
Proof.
  destruct (request_reply 1 [7] (mkWriter [0; 1; 7] None)
    (start (map NetFrame ([push (lit "status") 9] ++ reply 1 42 :: [reply 3 0]) ++ [Wake]))
    [push (lit "status") 9] (reply 1 42) [reply 3 0] [] (Tagged.VObj (fields_reply 1 42)))
    as (st' & H1 & H2 & _ & _ & H3 & _); by_eval.
  - repeat constructor. vm_compute. discriminate.
  - exists st'. split; [exact H1|]. split; [exact H2|]. rewrite H3. vm_compute. reflexivity.
Defined.

Lemma request_sound_witness :
  ∃ r st', request 1 [7] (start [NetFrame (reply 2 42); Wake; NetEnd; Wake]) = (r, st') ∧
    pending (cl st') = ∅ ∧ req_result 1 [NetFrame (reply 2 42); Wake; NetEnd; Wake] r.
Proof.
  destruct (request_sound 1 [7] (start [NetFrame (reply 2 42); Wake; NetEnd; Wake]))
    as (r & st' & H1 & H2 & _ & _ & H3); [reflexivity|].
  exists r, st'. split; [exact H1|]. split; [exact H2|exact H3].
Defined.

Lemma wait_connected_follows_witness :
  let st evs := mkSys (upd_conns (ConnRegistry.set_pending 9) (new_client (mkWriter [] None))) tt evs in
  fst (wait_connected 9 true (st [NetFrame (push (lit "status") 9); Wake])) = Some (Ok tt) ∧
  fst (wait_connected 9 true (st [NetFrame (push (lit "close") 9); Wake])) = Some (Err ECONNREFUSED) ∧
  fst (wait_connected 9 true (st [NetFrame (push (lit "status") 8); Expire])) = Some (Err ETIMEDOUT).
Proof.
  intros st. split; [|split].
  - assert (link_phase 9 (Some Pending) [NetFrame (push (lit "status") 9)] = Some Connected) as Hl by by_eval.
    unshelve epose proof (wait_connected_follows 9 (st [NetFrame (push (lit "status") 9); Wake])
      [NetFrame (push (lit "status") 9)] Wake [] _ _ _ _ _ _) as Hw;
      [by_eval..|repeat constructor|by_eval|by left|rewrite Hl in Hw; exact Hw].
  - assert (link_phase 9 (Some Pending) [NetFrame (push (lit "close") 9)] = Some (Failed ECONNREFUSED)) as Hl by by_eval.
    unshelve epose proof (wait_connected_follows 9 (st [NetFrame (push (lit "close") 9); Wake])
      [NetFrame (push (lit "close") 9)] Wake [] _ _ _ _ _ _) as Hw;
      [by_eval..|repeat constructor|by_eval|by left|rewrite Hl in Hw; exact Hw].
  - assert (link_phase 9 (Some Pending) [NetFrame (push (lit "status") 8)] = Some Pending) as Hl by by_eval.
    unshelve epose proof (wait_connected_follows 9 (st [NetFrame (push (lit "status") 8); Expire])
      [NetFrame (push (lit "status") 8)] Expire [] _ _ _ _ _ _) as Hw;
      [by_eval..|repeat constructor|by_eval|by right|rewrite Hl in Hw; by apply Hw].
Defined.

(** The same two frames: reply and status, reply and close. *)
Lemma open_connect_arms_witness :
  let run t := open_connect (lit "M0LTE") (lit "GB7RDG") [lit "A"; lit "B"]
    (start (map NetFrame ([] ++ reply 1 42 :: [push t 42]) ++ [Wake])) in
  (∃ st', run (lit "status") = (Ok (mkOpenResult 42 0 None), st') ∧ conns (cl st') !! 42 = Some Connected) ∧
  (∃ st', run (lit "close") = (Ok (mkOpenResult 42 0 None), st') ∧ conns (cl st') !! 42 = Some Pending).
Proof.
  intros run.
  set (bytes := Tagged.enc (fields (connect_req (lit "M0LTE") (lit "GB7RDG") [lit "A"; lit "B"] 1))).
  set (w := mkWriter (frame_bytes bytes) None).
  split.
  - destruct (open_connect_arms (lit "M0LTE") (lit "GB7RDG") [lit "A"; lit "B"]
      (start (map NetFrame ([] ++ reply 1 42 :: [push (lit "status") 42]) ++ [Wake]))
      bytes w [] (reply 1 42) [push (lit "status") 42] []
      (Tagged.VObj (fields_reply 1 42)) 42) as (st' & H1 & H2); by_eval; [constructor|].
    exists st'. split; [exact H1|]. rewrite H2. vm_compute. reflexivity.
  - destruct (open_connect_arms (lit "M0LTE") (lit "GB7RDG") [lit "A"; lit "B"]
      (start (map NetFrame ([] ++ reply 1 42 :: [push (lit "close") 42]) ++ [Wake]))
      bytes w [] (reply 1 42) [push (lit "close") 42] []
      (Tagged.VObj (fields_reply 1 42)) 42) as (st' & H1 & H2); by_eval; [constructor|].
    exists st'. split; [exact H1|]. rewrite H2. vm_compute. reflexivity.
Defined.

Lemma accept_fifo_witness :
  let '(got, st') := accept_run 3 [Some (push (lit "accept") 3); Some (push (lit "accept") 4); None;
                                   Some (push (lit "accept") 3)] (start []) in
  got ++ accept_queue 3 st' = [mkAcceptInfo 50 None None; mkAcceptInfo 50 None None] ∧
  (fst (try_accept 3 st') = None ↔ accept_queue 3 st' = []).
Proof.
  apply (accept_fifo 3 [Some (push (lit "accept") 3); Some (push (lit "accept") 4); None;
                        Some (push (lit "accept") 3)] (start [])); vm_compute; reflexivity.
Defined.

Lemma send_stream_witness :
  ∃ st' ps ds, send 42 [1; 255; 0] (start (ack_script [reply 1 0] [])) = (Ok tt, st') ∧
    read_frames 2 (mkReader (wr_bytes (writer (cl st'))) None) = Ok ps ∧
    sends 42 1 ps ds ∧ mjoin ds = [1; 255; 0].
Proof.
  destruct (send_stream 42 [1; 255; 0] [reply 1 0] [] (start (ack_script [reply 1 0] [])))
    as (st' & ps & ds & H1 & H2 & H3 & H4 & _); by_eval.
  - discriminate.
  - by_decide.
  - by_decide.
  - by_decide.
  - by_decide.
  - split; [|exact I]. exists (Tagged.VObj (fields_reply 1 0)). repeat split; vm_compute; vm_compute; reflexivity.
  - exists st', ps, ds. exact (conj H1 (conj H2 (conj H3 H4))).
Defined.
