(* ===== verification/Callers.v ===== *)
(** [RhpClient::request] called from any number of threads, with the reader
    thread: every step is one atomic access to the shared state (the counter,
    the pending map under its mutex, the writer under its mutex, the channel). *)
From stdpp Require Import prelude gmap.
From Stdlib Require Import ZArith Lia String.
From S2P Require Import Prelude Str Errors Framing Messages Client.
Local Open Scope Z_scope.

Section callers.
Context `{!SerdeJson} {S : Type} `{!RhpEventSink S}.

(** Where a call is: it has its id, its entry in the pending map, its request is
    written, it knows its outcome, it has removed its entry. *)
Inductive phase :=
| Fetched (i : Z) (bytes : list Z)
| Inserted (i : Z) (ch : nat) (bytes : list Z)
| Sent (i : Z) (ch : nat)
| Replied (i : Z) (r : result Frame RhpError)
| Done (i : Z) (r : result Frame RhpError).

Record world := mkWorld { w_sys : sys (S := S); calls : gmap nat phase }.

Definition goto (t : nat) (ph : phase) (st : sys) (w : world) : world :=
  mkWorld st (<[t := ph]> (calls w)).

(** A client makes fewer than 2^64 requests: its ids do not wrap around. *)
Inductive step (w : world) : world → Prop :=
| step_fetch t bytes i st : calls w !! t = None → next_id_ (cl (w_sys w)) + 1 < 2 ^ 64 →
    next_id (E := RhpError) (w_sys w) = (Ok i, st) → step w (goto t (Fetched i bytes) st w)
| step_insert t i bytes ch c : calls w !! t = Some (Fetched i bytes) →
    begin_request i (cl (w_sys w)) = (ch, c) →
    step w (goto t (Inserted i ch bytes) (upd_cl (λ _, c) (w_sys w)) w)
| step_write t i ch bytes wr : calls w !! t = Some (Inserted i ch bytes) →
    write_frame (writer (cl (w_sys w))) bytes = (Ok tt, wr) →
    step w (goto t (Sent i ch) (upd_cl (set_writer wr) (w_sys w)) w)
| step_write_error t i ch bytes e wr : calls w !! t = Some (Inserted i ch bytes) →
    write_frame (writer (cl (w_sys w))) bytes = (Err e, wr) →
    step w (goto t (Replied i (Err (Io e))) (upd_cl (set_writer wr) (w_sys w)) w)
| step_recv t i ch o c : calls w !! t = Some (Sent i ch) →
    chan_ready ch (cl (w_sys w)) = Some (o, c) →
    step w (goto t (Replied i (ok_or o (Io BrokenPipe))) (upd_cl (λ _, c) (w_sys w)) w)
| step_timeout t i ch : calls w !! t = Some (Sent i ch) → chan_ready ch (cl (w_sys w)) = None →
    step w (goto t (Replied i (Err Timeout)) (w_sys w) w)
| step_remove t i r : calls w !! t = Some (Replied i r) →
    step w (goto t (Done i r) (upd_cl (end_request i) (w_sys w)) w)
| step_net ev : step w (mkWorld (net_step ev (w_sys w)) (calls w)).

Definition initial (wr : Framing.writer) (s : S) (evs : list event) : world :=
  mkWorld (mkSys (new_client wr) s evs) ∅.

(** * The invariant *)
Definition call_id (ph : phase) : Z :=
  match ph with
  | Fetched i _ | Inserted i _ _ | Sent i _ | Replied i _ | Done i _ => i
  end.
Definition call_chan (ph : phase) : option nat :=
  match ph with Inserted _ ch _ | Sent _ ch => Some ch | _ => None end.

Definition chan_ok (c : client) (i : Z) (ch : nat) : Prop :=
  (pending c !! i = Some ch ∧ chans c !! ch = Some (mkChan [] true)) ∨
  (pending c !! i = None ∧ ∃ q, chans c !! ch = Some (mkChan q false) ∧ Forall (λ f, id f = Some i) q).

Definition phase_ok (c : client) (ph : phase) : Prop :=
  match ph with
  | Fetched i _ => pending c !! i = None
  | Inserted i ch _ | Sent i ch => chan_ok c i ch
  | Replied i r | Done i r => ∀ f, r = Ok f → id f = Some i
  end.

Record inv (w : world) : Prop := {
  inv_next : 0 ≤ next_id_ (cl (w_sys w)) < 2 ^ 64;
  inv_ids t ph : calls w !! t = Some ph → 0 < call_id ph ≤ next_id_ (cl (w_sys w));
  inv_ok t ph : calls w !! t = Some ph → phase_ok (cl (w_sys w)) ph;
  inv_distinct t t' ph ph' : calls w !! t = Some ph → calls w !! t' = Some ph' →
    call_id ph = call_id ph' → t = t';
  inv_chans t t' ph ph' ch : calls w !! t = Some ph → calls w !! t' = Some ph' →
    call_chan ph = Some ch → call_chan ph' = Some ch → t = t';
  inv_pending j ch : pending (cl (w_sys w)) !! j = Some ch →
    j ≤ next_id_ (cl (w_sys w)) ∧ (ch < List.length (chans (cl (w_sys w))))%nat ∧
    ∀ t ph, calls w !! t = Some ph → call_chan ph = Some ch → call_id ph = j
}.

Lemma chan_ok_lt c i ch : chan_ok c i ch → (ch < List.length (chans c))%nat.
Proof. intros [[_ Hk]|(_ & q & Hk & _)]; by eapply lookup_lt_Some. Qed.

(** The client changes while the calls stay where they are. *)
Lemma inv_client w c st : inv w → st = upd_cl (λ _, c) (w_sys w) ∨ cl st = c →
  next_id_ c = next_id_ (cl (w_sys w)) →
  List.length (chans c) = List.length (chans (cl (w_sys w))) →
  pending c ⊆ pending (cl (w_sys w)) →
  (∀ t ph, calls w !! t = Some ph → phase_ok c ph) →
  inv (mkWorld st (calls w)).
Proof.
  intros Hinv Hst Hn Hl Hp Hok. assert (cl st = c) as Hc by (by destruct Hst as [-> |]).
  destruct Hinv as [H1 H2 H3 H4 H5 H6].
  constructor; simpl; rewrite ?Hc; eauto; rewrite ?Hn, ?Hl; eauto.
  intros j ch Hj. apply H6. by eapply lookup_weaken.
Qed.

(** One call moves on: it keeps its id and at most gives up its channel. *)
Lemma inv_goto w t ph ph' : inv w → calls w !! t = Some ph →
  call_id ph' = call_id ph → call_chan ph' = None ∨ call_chan ph' = call_chan ph →
  phase_ok (cl (w_sys w)) ph' → inv (goto t ph' (w_sys w) w).
Proof.
  intros [H1 H2 H3 H4 H5 H6] Ht Hid Hch Hok. unfold goto.
  assert (∀ u q, <[t:=ph']> (calls w) !! u = Some q → ∃ q0, calls w !! u = Some q0 ∧
    call_id q = call_id q0 ∧ (call_chan q = None ∨ call_chan q = call_chan q0)) as Hback.
  { intros u q Hq. apply lookup_insert_Some in Hq as [[<- <-]|[Hne Hq]]; eauto. }
  constructor; simpl; [done| | | | |].
  - intros u q Hq. destruct (Hback u q Hq) as (q0 & Hq0 & -> & _). eauto.
  - intros u q Hq. apply lookup_insert_Some in Hq as [[<- <-]|[Hne Hq]]; eauto.
  - intros u u' q q' Hq Hq' Heq. destruct (Hback u q Hq) as (q0 & Hq0 & Hi & _).
    destruct (Hback u' q' Hq') as (q1 & Hq1 & Hi' & _). eapply H4; eauto. congruence.
  - intros u u' q q' ch Hq Hq' Hc Hc'. destruct (Hback u q Hq) as (q0 & Hq0 & _ & Hi).
    destruct (Hback u' q' Hq') as (q1 & Hq1 & _ & Hi').
    eapply (H5 u u' q0 q1 ch); eauto; [destruct Hi|destruct Hi']; congruence.
  - intros j ch Hj. destruct (H6 j ch Hj) as (? & ? & Hown). split_and!; [done..|].
    intros u q Hq Hc. destruct (Hback u q Hq) as (q0 & Hq0 & Hi & Hi').
    rewrite Hi. eapply Hown; eauto. destruct Hi'; congruence.
Qed.

Lemma phase_ok_frame c c' ph : pending c' = pending c → chans c' = chans c →
  phase_ok c ph → phase_ok c' ph.
Proof. intros Hp Hk. destruct ph; simpl; unfold chan_ok; by rewrite ?Hp, ?Hk. Qed.

Lemma inv_frame w st : inv w → pending (cl st) = pending (cl (w_sys w)) →
  chans (cl st) = chans (cl (w_sys w)) → next_id_ (cl st) = next_id_ (cl (w_sys w)) →
  inv (mkWorld st (calls w)).
Proof.
  intros Hinv Hp Hk Hn. apply (inv_client w (cl st)); auto; rewrite ?Hk, ?Hp; try done.
  intros t ph Ht. eapply phase_ok_frame; [done..|]. by eapply inv_ok.
Qed.

(** Dropping the entry of request [i], whose channel gets at most the reply. *)
Definition settle (i : Z) (ch : nat) (g : chan → chan) (c : client) : client :=
  set_pending_chans (delete i (pending c)) (alter g ch (chans c)) c.

Lemma phase_ok_settle w i ch g t ph : inv w → calls w !! t = Some ph →
  pending (cl (w_sys w)) !! i = Some ch →
  (∃ q, g (mkChan [] true) = mkChan q false ∧ Forall (λ f, id f = Some i) q) →
  phase_ok (settle i ch g (cl (w_sys w))) ph.
Proof.
  intros Hinv Ht Hi (q' & Hq' & Hall).
  pose proof (inv_ok w Hinv t ph Ht) as Hok. destruct (inv_pending w Hinv i ch Hi) as (_ & _ & Hown).
  assert (∀ j k, call_id ph = j → call_chan ph = Some k → chan_ok (cl (w_sys w)) j k →
    chan_ok (settle i ch g (cl (w_sys w))) j k) as Hchan.
  { intros j k Hid Hck Hcok. unfold chan_ok, settle; simpl.
    destruct (decide (j = i)) as [->|Hne].
    - right. rewrite lookup_delete_eq. split; [done|].
      destruct Hcok as [[Hp Hk]|[Hp _]]; [|congruence].
      assert (k = ch) as -> by congruence. exists q'. by rewrite list_lookup_alter_eq, Hk; simpl; rewrite Hq'.
    - assert (k ≠ ch) as Hkc by (intros ->; apply Hne; rewrite <- Hid; eauto).
      rewrite lookup_delete_ne, list_lookup_alter_ne by done. exact Hcok. }
  destruct ph; simpl in *; eauto. by rewrite lookup_delete_None; right.
Qed.

Lemma inv_settle w i ch g st : inv w → pending (cl (w_sys w)) !! i = Some ch →
  (∃ q, g (mkChan [] true) = mkChan q false ∧ Forall (λ f, id f = Some i) q) →
  cl st = settle i ch g (cl (w_sys w)) → inv (mkWorld st (calls w)).
Proof.
  intros Hinv Hi Hg Hst. apply (inv_client w (settle i ch g (cl (w_sys w)))); auto.
  - simpl. apply length_alter.
  - simpl. apply delete_subseteq.
  - intros t ph Ht. by eapply phase_ok_settle.
Qed.

Lemma foldr_drop_lookup l (k : list chan) n :
  foldr drop_sender k l !! n =
  (λ c, if decide (n ∈ l) then mkChan (queue c) false else c) <$> k !! n.
Proof.
  induction l as [|x l IH]; cbn [foldr].
  - destruct (k !! n) as [c|]; [|done]. change (Some c = Some (if decide (n ∈ []) then mkChan (queue c) false else c)).
    rewrite decide_False; [done|apply not_elem_of_nil].
  - unfold drop_sender at 1. destruct (decide (x = n)) as [->|Hne].
    + rewrite list_lookup_alter_eq, IH. destruct (k !! n); simpl; [|done]. f_equal.
      rewrite (decide_True (P := n ∈ n :: l)) by left. by case_decide.
    + rewrite list_lookup_alter_ne, IH by done. destruct (k !! n); simpl; [|done]. f_equal.
      destruct (decide (n ∈ l)); [by rewrite decide_True by by right|].
      rewrite decide_False; [done|]. rewrite elem_of_cons. by intros [->|?].
Qed.

Lemma foldr_drop_length l (k : list chan) : List.length (foldr drop_sender k l) = List.length k.
Proof. induction l as [|x l IH]; simpl; [done|]. unfold drop_sender at 1. by rewrite length_alter. Qed.

(** * Preservation, step by step *)
Lemma inv_disconnect w st : inv w → cl st = cl (disconnect (w_sys w)) → inv (mkWorld st (calls w)).
Proof.
  intros Hinv Hst. apply (inv_client w (cl (disconnect (w_sys w)))); auto.
  - simpl. apply foldr_drop_length.
  - simpl. apply map_empty_subseteq.
  - intros t ph Ht. pose proof (inv_ok w Hinv t ph Ht) as Hok.
    assert (∀ j k, chan_ok (cl (w_sys w)) j k → chan_ok (cl (disconnect (w_sys w))) j k) as Hchan.
    { intros j k Hc. right. simpl. split; [apply lookup_empty|]. rewrite foldr_drop_lookup.
      destruct Hc as [[Hp Hk]|(_ & q & Hk & Hq)]; rewrite Hk; simpl.
      - exists []. rewrite decide_True; [done|]. apply list_elem_of_fmap. exists (j, k).
        split; [done|]. by apply elem_of_map_to_list.
      - exists q. split; [by case_decide|done]. }
    destruct ph; simpl in *; auto.
Qed.

Lemma inv_net w ev : inv w → inv (mkWorld (net_step ev (w_sys w)) (calls w)).
Proof.
  intros Hinv. assert (inv (mkWorld (w_sys w) (calls w))) as Hsame by (by destruct w).
  unfold net_step. destruct (closed (cl (w_sys w))); [done|].
  destruct ev as [b| | |]; [|by eapply inv_disconnect|done..].
  unfold handle_frame. destruct (parse b) as [f|] eqn:Hb; [|done].
  assert (inv (mkWorld (dispatch_push f (w_sys w)) (calls w))) as Hpush.
  { assert (∀ st : sys, pending (cl (dispatch_push f st)) = pending (cl st) ∧
      chans (cl (dispatch_push f st)) = chans (cl st) ∧
      next_id_ (cl (dispatch_push f st)) = next_id_ (cl st)) as Hk.
    { intros st. unfold dispatch_push. repeat case_decide; [| | | |done];
        destruct (handle f); try done.
      - by destruct (is_dgram_recv f).
      - by destruct (child f).
      - by destruct (negb _). }
    apply inv_frame; [done|apply Hk..]. }
  destruct (id f) as [i|] eqn:Hi; [|done].
  destruct (pending (cl (w_sys w)) !! i) as [ch|] eqn:Hch; [|done].
  apply (inv_settle w i ch (λ c, mkChan (queue c ++ [f]) false)); [done|done| |done].
  exists [f]. split; [done|]. by constructor.
Qed.

Lemma inv_fetch w t bytes i st : inv w → calls w !! t = None →
  next_id_ (cl (w_sys w)) + 1 < 2 ^ 64 → next_id (E := RhpError) (w_sys w) = (Ok i, st) →
  inv (goto t (Fetched i bytes) st w).
Proof.
  intros Hinv Ht Hlt [= <- <-]. pose proof (inv_next w Hinv) as Hn.
  assert (u64 (1 + next_id_ (cl (w_sys w))) = next_id_ (cl (w_sys w)) + 1) as Hi
    by (unfold u64; rewrite Z.mod_small; lia).
  rewrite (Z.add_comm _ 1), Hi. destruct Hinv as [H1 H2 H3 H4 H5 H6].
  constructor; simpl; [lia| | | | |].
  - intros u q Hq. apply lookup_insert_Some in Hq as [[<- <-]|[Hne Hq]]; simpl; [lia|].
    specialize (H2 u q Hq). lia.
  - intros u q Hq. apply lookup_insert_Some in Hq as [[<- <-]|[Hne Hq]].
    + simpl. destruct (pending (cl (w_sys w)) !! _) as [ch|] eqn:Hp; [|done].
      destruct (H6 _ _ Hp). lia.
    + by apply (phase_ok_frame (cl (w_sys w))), (H3 u).
  - intros u u' q q' Hq Hq' Heq.
    apply lookup_insert_Some in Hq as [[<- <-]|[Hne Hq]];
      apply lookup_insert_Some in Hq' as [[<- <-]|[Hne' Hq']]; simpl in Heq; eauto.
    + specialize (H2 u' q' Hq'). lia.
    + specialize (H2 u q Hq). lia.
  - intros u u' q q' ch Hq Hq' Hc Hc'.
    apply lookup_insert_Some in Hq as [[<- <-]|[Hne Hq]]; [done|].
    apply lookup_insert_Some in Hq' as [[<- <-]|[Hne' Hq']]; [done|eauto].
  - intros j ch Hj. destruct (H6 j ch Hj) as (? & ? & Hown). split_and!; [lia|done|].
    intros u q Hq Hc. apply lookup_insert_Some in Hq as [[<- <-]|[Hne Hq]]; [done|eauto].
Qed.

Lemma inv_insert w t i bytes ch c : inv w → calls w !! t = Some (Fetched i bytes) →
  begin_request i (cl (w_sys w)) = (ch, c) →
  inv (goto t (Inserted i ch bytes) (upd_cl (λ _, c) (w_sys w)) w).
Proof.
  intros [H1 H2 H3 H4 H5 H6] Ht Hb. pose proof (H3 t _ Ht) as Hp. simpl in Hp.
  pose proof (H2 t _ Ht) as Hi. simpl in Hi.
  unfold begin_request in Hb. rewrite Hp in Hb. injection Hb as <- <-.
  assert (∀ u q k, calls w !! u = Some q → call_chan q = Some k →
    (k < List.length (chans (cl (w_sys w))))%nat) as Hlt.
  { intros u q k Hq Hk. specialize (H3 u q Hq).
    destruct q; simplify_eq/=; by eapply chan_ok_lt. }
  constructor; simpl; [done| | | | |].
  - intros u q Hq. apply lookup_insert_Some in Hq as [[<- <-]|[Hne Hq]]; eauto.
  - intros u q Hq. apply lookup_insert_Some in Hq as [[<- <-]|[Hne Hq]].
    + left. simpl. split; [apply lookup_insert_eq|]. by rewrite list_lookup_middle.
    + specialize (H3 u q Hq). assert (call_id q ≠ i) as Hqi by (intros Heq; apply Hne; eauto).
      assert (∀ k, chan_ok (cl (w_sys w)) (call_id q) k →
        chan_ok (set_pending_chans (<[i:=List.length (chans (cl (w_sys w)))]> (pending (cl (w_sys w))))
          (chans (cl (w_sys w)) ++ [mkChan [] true]) (cl (w_sys w))) (call_id q) k) as Hc.
      { intros k Hk. pose proof (chan_ok_lt _ _ _ Hk). unfold chan_ok. simpl.
        rewrite lookup_insert_ne, lookup_app_l by done. exact Hk. }
      destruct q; simpl in *; auto. by rewrite lookup_insert_ne.
  - intros u u' q q' Hq Hq' Heq.
    apply lookup_insert_Some in Hq as [[<- <-]|[Hne Hq]];
      apply lookup_insert_Some in Hq' as [[<- <-]|[Hne' Hq']]; simpl in Heq; eauto.
  - intros u u' q q' k Hq Hq' Hc Hc'.
    apply lookup_insert_Some in Hq as [[<- <-]|[Hne Hq]];
      apply lookup_insert_Some in Hq' as [[<- <-]|[Hne' Hq']]; simplify_eq/=; eauto.
    + specialize (Hlt u' q' _ Hq' Hc'). lia.
    + specialize (Hlt u q _ Hq Hc). lia.
  - intros j k Hj. rewrite length_app. simpl.
    apply lookup_insert_Some in Hj as [[<- <-]|[Hne Hj]].
    + split_and!; [lia|lia|]. intros u q Hq Hk.
      apply lookup_insert_Some in Hq as [[<- <-]|[Hne Hq]]; [done|].
      specialize (Hlt u q _ Hq Hk). lia.
    + destruct (H6 j k Hj) as (? & Hkl & Hown). split_and!; [done|lia|].
      intros u q Hq Hk. apply lookup_insert_Some in Hq as [[<- <-]|[Hne' Hq]]; [|eauto].
      simplify_eq/=. lia.
Qed.

Lemma inv_recv w t i ch o c : inv w → calls w !! t = Some (Sent i ch) →
  chan_ready ch (cl (w_sys w)) = Some (o, c) →
  inv (goto t (Replied i (ok_or o (Io BrokenPipe))) (upd_cl (λ _, c) (w_sys w)) w).
Proof.
  intros Hinv Ht Hr. pose proof (inv_ok w Hinv t _ Ht) as Hok. simpl in Hok.
  assert ((o = None ∧ c = cl (w_sys w)) ∨ ∃ f q, o = Some f ∧ id f = Some i ∧
    pending (cl (w_sys w)) !! i = None ∧
    c = set_pending_chans (pending (cl (w_sys w))) (<[ch:=mkChan q false]> (chans (cl (w_sys w)))) (cl (w_sys w)))
    as Hc.
  { unfold chan_ready in Hr. destruct Hok as [[Hp Hk]|(Hp & q & Hk & Hq)]; rewrite Hk in Hr; [done|].
    destruct q as [|f q]; simplify_eq; [by left|right]. apply Forall_cons in Hq as [Hf _]. by exists f, q. }
  assert (inv (goto t (Replied i (ok_or o (Io BrokenPipe))) (w_sys w) w)) as Hgo.
  { apply (inv_goto w t (Sent i ch)); auto. simpl. intros f Hf.
    destruct Hc as [[-> _]|(f' & q & -> & Hi & _)]; simplify_eq/=; done. }
  refine (inv_client _ c (upd_cl (λ _, c) (w_sys w)) Hgo _ _ _ _ _); [by right|..];
    destruct Hc as [[-> ->]|(f & q & -> & Hi & Hp & ->)]; try done; simpl.
  - by rewrite length_insert.
  - intros u q. apply (inv_ok _ Hgo).
  - intros u p Hu. pose proof (inv_ok _ Hgo u p Hu) as Hp'.
    assert (∀ j k, call_chan p = Some k → chan_ok (cl (w_sys w)) j k →
      chan_ok (set_pending_chans (pending (cl (w_sys w))) (<[ch:=mkChan q false]> (chans (cl (w_sys w))))
        (cl (w_sys w))) j k) as Hch.
    { intros j k Hk Hcok. unfold chan_ok. simpl. rewrite list_lookup_insert_ne; [done|].
      intros <-. apply lookup_insert_Some in Hu as [[<- <-]|[Hne Hu]]; [done|].
      by apply Hne, (inv_chans w Hinv t u _ _ ch Ht Hu). }
    destruct p; simpl in *; auto.
Qed.

Lemma inv_remove w t i r : inv w → calls w !! t = Some (Replied i r) →
  inv (goto t (Done i r) (upd_cl (end_request i) (w_sys w)) w).
Proof.
  intros Hinv Ht. pose proof (inv_ok w Hinv t _ Ht) as Hok.
  assert (inv (goto t (Done i r) (w_sys w) w)) as Hgo by (apply (inv_goto w t (Replied i r)); auto).
  unfold end_request. destruct (pending (cl (w_sys w)) !! i) as [ch|] eqn:Hp.
  - apply (inv_settle _ i ch (λ c, mkChan (queue c) false)) with
      (st := upd_cl (settle i ch (λ c, mkChan (queue c) false)) (w_sys w)) in Hgo; try done.
    + unfold goto, upd_cl, settle in *. simpl in *. by rewrite Hp.
    + by exists [].
  - unfold upd_cl. rewrite Hp. unfold goto in *. by destruct (w_sys w).
Qed.

Lemma inv_step w w' : inv w → step w w' → inv w'.
Proof.
  intros Hinv [t bytes i st Ht Hlt Hn|t i bytes ch c Ht Hb|t i ch bytes wr Ht Hw
    |t i ch bytes e wr Ht Hw|t i ch o c Ht Hr|t i ch Ht Hr|t i r Ht|ev].
  - by eapply inv_fetch.
  - by eapply inv_insert.
  - assert (inv (goto t (Sent i ch) (w_sys w) w)) as Hgo.
    { apply (inv_goto w t (Inserted i ch bytes)); auto. apply (inv_ok w Hinv t _ Ht). }
    by apply (inv_frame _ (upd_cl (set_writer wr) (w_sys w))) in Hgo.
  - assert (inv (goto t (Replied i (Err (Io e))) (w_sys w) w)) as Hgo
      by (by apply (inv_goto w t (Inserted i ch bytes)); auto).
    by apply (inv_frame _ (upd_cl (set_writer wr) (w_sys w))) in Hgo.
  - by eapply inv_recv.
  - by apply (inv_goto w t (Sent i ch)); auto.
  - by apply inv_remove.
  - by apply inv_net.
Qed.

Lemma inv_initial wr s evs : inv (initial wr s evs).
Proof. by constructor. Qed.

Lemma inv_reachable wr s evs w : rtc step (initial wr s evs) w → inv w.
Proof.
  intros Hr. assert (inv (initial wr s evs)) as Hi by apply inv_initial.
  induction Hr as [|w1 w2 w3 Hs _ IH]; [done|]. by apply IH, (inv_step w1).
Qed.

(** C12: however calls on any threads interleave with each other and with the
    reader, no two calls share an id, a call that succeeds returns a frame that
    carries its own id, and no call waits in vain: as long as one has not been
    woken its entry is in the pending map, where the reader finds it. *)
Theorem replies_correlated wr s evs w : rtc step (initial wr s evs) w →
  (∀ t t' ph ph', calls w !! t = Some ph → calls w !! t' = Some ph' →
     call_id ph = call_id ph' → t = t') ∧
  (∀ t i f, calls w !! t = Some (Done i (Ok f)) → id f = Some i) ∧
  (∀ t i ch, calls w !! t = Some (Sent i ch) →
     pending (cl (w_sys w)) !! i = Some ch ∨ is_Some (chan_ready ch (cl (w_sys w)))).
Proof.
  intros Hr%inv_reachable. split_and!.
  - apply (inv_distinct w Hr).
  - intros t i f Ht. by apply (inv_ok w Hr t _ Ht).
  - intros t i ch Ht. pose proof (inv_ok w Hr t _ Ht) as [[Hp _]|(_ & q & Hk & _)]; [by left|right].
    unfold chan_ready. rewrite Hk. by destruct q; eexists.
Qed.

End callers.

(** A parser of one-number frames is enough to run the steps. *)
#[local] Instance one_number : SerdeJson := {|
  Value := Z; get v _ := Some v; as_str _ := None; as_u64 v := Some v; as_i64 _ := None;
  from_slice b := head b; to_vec _ := None |}.

(** One step, and the world it leads to, evaluated. *)
Ltac one_step rule :=
  eapply rtc_l; [rule; reflexivity|];
  match goal with |- rtc _ ?W _ => let W' := eval vm_compute in W in change W with W' end.

(** Two calls in flight, the second answered: it has the reply. *)
Lemma replies_correlated_witness :
  let ok : Frame := 2 in
  ∃ w, rtc step (initial (S := unit) (mkWriter [] None) tt []) w ∧
    calls w !! 1%nat = Some (Done 2 (Ok ok)) ∧ calls w !! 0%nat = Some (Sent 1 0) ∧
    id ok = Some 2 ∧
    (pending (cl (w_sys w)) !! 1 = Some 0%nat ∨ is_Some (chan_ready 0 (cl (w_sys w)))).
Proof.
  intros ok.
  assert (∃ w, rtc step (initial (S := unit) (mkWriter [] None) tt []) w ∧
    calls w !! 1%nat = Some (Done 2 (Ok ok)) ∧ calls w !! 0%nat = Some (Sent 1 0)) as (w & Hr & H1 & H0).
  { eexists. split.
    - one_step ltac:(eapply (step_fetch _ 0 [1])).
      one_step ltac:(eapply (step_fetch _ 1 [2])).
      one_step ltac:(eapply (step_insert _ 0)).
      one_step ltac:(eapply (step_write _ 0)).
      one_step ltac:(eapply (step_insert _ 1)).
      one_step ltac:(eapply (step_write _ 1)).
      eapply rtc_l; [apply (step_net _ (NetFrame [2]))|].
      match goal with |- rtc _ ?W _ => let W' := eval vm_compute in W in change W with W' end.
      one_step ltac:(eapply (step_recv _ 1)).
      one_step ltac:(eapply (step_remove _ 1)). apply rtc_refl.
    - split; reflexivity. }
  destruct (replies_correlated _ _ _ w Hr) as (_ & Hid & Hwait).
  exists w. exact (conj Hr (conj H1 (conj H0 (conj (Hid _ _ _ H1) (Hwait _ _ _ H0))))).
Defined.
