(* ===== verification/Waiters.v ===== *)
(** [rhpv2/src/client.rs], the two places where a caller sleeps until the reader has
    news: [wait_connected] over the link registry and [wait_accept] over the accept
    queues, each a mutex with a condition variable and the [closed] flag beside it.

    A monitor is the protected state, what a caller finds in it, what the reader
    writes into it and what the other methods do to it; [accepting] and
    [connecting_to] are the two of the client.  Any number of threads wait, lock by
    lock: the mutex has an owner, the condition variable has its sleepers, who wake
    when notified, when their timer fires, or for no reason, and then take the mutex
    again.  The theorems: nobody sleeps through news; what is taken is what was
    queued, once each and in order; once the reader has ended every wait for a
    connect returns, but one for an accept may have gone to sleep too late to be
    told; and one thread by itself does what [Client.v] says. *)
From stdpp Require Import prelude gmap.
From Stdlib Require Import ZArith Lia String.
From S2P Require Import Prelude Str Errors Framing Messages Client ClientSpec.
Local Open Scope Z_scope.

Record monitor := mkMonitor {
  reg : Type; res : Type; upd : Type; oth : Type;
  (** What a waiter for a key takes, and what it leaves. *)
  ready : Z → reg → option (res * reg);
  (** What it returns when the transport is gone, and when its time is up. *)
  gave_up : res;
  too_late : res;
  (** The reader's writes, each followed by [notify_all]; the other methods'. *)
  tell : upd → reg → reg;
  meddle : oth → reg → reg;
  (** What another method takes out, to return it or to drop it. *)
  removes : oth → reg → list res;
  (** What is written, under the mutex, when the transport has ended. *)
  shuts : option (reg → reg) }.

(** The other methods bring no news, and taking does not either. *)
Class MonitorLaws (X : monitor) : Prop := {
  meddle_none o k m : ready X k m = None → ready X k (meddle X o m) = None;
  taken_none k a m m' k' : ready X k m = Some (a, m') → ready X k' m = None → ready X k' m' = None }.

(** * The client's two monitors *)
Inductive conn_news := MarkConnected (h : Z) | MarkFailed (h e : Z).
Inductive conn_call := SetPending (h : Z) | TakeError (h : Z) | ForgetConn (h : Z).
Definition connecting_to : monitor := {|
  reg := ConnRegistry.t; res := result unit Z; upd := conn_news; oth := conn_call;
  ready h m := (λ r, (r, m)) <$> ConnRegistry.result h m;
  gave_up := Err ECONNRESET; too_late := Err ETIMEDOUT;
  tell u m := match u with
              | MarkConnected h => ConnRegistry.mark_connected h m
              | MarkFailed h e => ConnRegistry.mark_failed h e m
              end;
  meddle o m := match o with
                | SetPending h => ConnRegistry.set_pending h m
                | TakeError h => snd (ConnRegistry.take_error h m)
                | ForgetConn h => ConnRegistry.forget h m
                end;
  removes _ _ := [];
  shuts := Some (ConnRegistry.fail_all_pending ECONNRESET) |}.

Inductive accept_call := TryAccept (l : Z) | ForgetListener (l : Z).
Definition accepting : monitor := {|
  reg := AcceptRegistry.t; res := option AcceptInfo; upd := Z * AcceptInfo; oth := accept_call;
  ready l m := (λ p : AcceptInfo * AcceptRegistry.t, (Some (fst p), snd p)) <$> AcceptRegistry.pop l m;
  gave_up := None; too_late := None;
  tell u m := AcceptRegistry.push (fst u) (snd u) m;
  meddle o m := match o with
                | TryAccept l => match AcceptRegistry.pop l m with Some (_, m) => m | None => m end
                | ForgetListener l => AcceptRegistry.forget l m
                end;
  removes o m := match o with
                 | TryAccept l => match AcceptRegistry.pop l m with Some (i, _) => [Some i] | None => [] end
                 | ForgetListener l => Some <$> default [] (m !! l)
                 end;
  shuts := None |}.

(** Where a waiting thread is: about to take the mutex; holding it, to look; to
    load [closed]; about to sleep; asleep; woken, or timed out, to take the mutex
    again; holding it, to look a last time; returned. *)
Inductive wpc (R : Type) := WEnter | WLook | WLoad | WSleep | WAsleep | WWoken | WTimedOut | WLast | WDone (r : R).
Arguments WEnter {R}. Arguments WLook {R}. Arguments WLoad {R}. Arguments WSleep {R}. Arguments WAsleep {R}.
Arguments WWoken {R}. Arguments WTimedOut {R}. Arguments WLast {R}. Arguments WDone {R} r.

(** The reader: between frames; to notify; with [closed] set, to write what the end
    of the transport means; to notify a last time; gone. *)
Inductive rdr := RRun | RTold | RShut | RFaulted | REnd.
#[export] Instance rdr_eq_dec : EqDecision rdr.
Proof. solve_decision. Defined.

Section monitor.
Variable X : monitor.

Record waiter := mkW { w_key : Z; w_timed : bool; w_pc : wpc (res X) }.
(** What has happened to the protected state, for the statements. *)
Inductive happened := Told (u : upd X) | Took (t : nat) (k : Z) (r : res X)
| Meddled (o : oth X) (rs : list (res X)) | Faulted.

Record mstate := mkM { m_reg : reg X; m_closed : bool; m_lock : option nat; m_rdr : rdr;
  m_thr : gmap nat waiter; m_log : list happened }.

Definition put_reg (m : reg X) (e : list happened) (s : mstate) : mstate :=
  mkM m (m_closed s) (m_lock s) (m_rdr s) (m_thr s) (m_log s ++ e).
Definition put_lock (l : option nat) (s : mstate) : mstate :=
  mkM (m_reg s) (m_closed s) l (m_rdr s) (m_thr s) (m_log s).
Definition put_rdr (r : rdr) (s : mstate) : mstate :=
  mkM (m_reg s) (m_closed s) (m_lock s) r (m_thr s) (m_log s).
Definition put_thr (m : gmap nat waiter) (s : mstate) : mstate :=
  mkM (m_reg s) (m_closed s) (m_lock s) (m_rdr s) m (m_log s).
Definition go (t : nat) (w : waiter) (p : wpc (res X)) (s : mstate) : mstate :=
  put_thr (<[t := mkW (w_key w) (w_timed w) p]> (m_thr s)) s.

(** [notify_all]. *)
Definition wake (w : waiter) : waiter :=
  match w_pc w with WAsleep => mkW (w_key w) (w_timed w) WWoken | _ => w end.
Definition notify_all (s : mstate) : mstate := put_thr (wake <$> m_thr s) s.

(** Taking the mutex waits for it to be free. *)
Definition take_lock (t : nat) (w : waiter) (p : wpc (res X)) (s : mstate) : mstate :=
  match m_lock s with Some _ => s | None => put_lock (Some t) (go t w p s) end.
Definition unlock_to (t : nat) (w : waiter) (p : wpc (res X)) (s : mstate) : mstate := put_lock None (go t w p s).

(** The next step of a waiting thread. *)
Definition wait_step (t : nat) (s : mstate) : mstate :=
  match m_thr s !! t with
  | None => s
  | Some w =>
    match w_pc w with
    | WEnter | WWoken => take_lock t w WLook s
    | WLook =>
      match ready X (w_key w) (m_reg s) with
      | Some (a, m) => unlock_to t w (WDone a) (put_reg m [Took t (w_key w) a] s)
      | None => go t w WLoad s
      end
    | WLoad => if m_closed s then unlock_to t w (WDone (gave_up X)) s else go t w WSleep s
    | WSleep => unlock_to t w WAsleep s
    | WTimedOut => take_lock t w WLast s
    | WLast =>
      match ready X (w_key w) (m_reg s) with
      | Some (a, m) => unlock_to t w (WDone a) (put_reg m [Took t (w_key w) a] s)
      | None => unlock_to t w (WDone (too_late X)) s
      end
    | WAsleep | WDone _ => s
    end
  end.

Definition reader_step (s : mstate) : mstate :=
  match m_rdr s with
  | RRun | REnd => s
  | RTold => put_rdr RRun (notify_all s)
  | RShut =>
    match shuts X with
    | Some f => match m_lock s with Some _ => s | None => put_rdr RFaulted (put_reg (f (m_reg s)) [Faulted] s) end
    | None => put_rdr RFaulted s
    end
  | RFaulted => put_rdr REnd (notify_all s)
  end.

Inductive mact :=
| MCall (t : nat) (k : Z) (timed : bool) | MStep (t : nat) | MTimer (t : nat) | MSpurious (t : nat)
| MTell (u : upd X) | MReader | MOther (o : oth X) | MEnd.

Definition mact_step (a : mact) (s : mstate) : mstate :=
  match a with
  | MCall t k timed =>
    match m_thr s !! t with
    | None | Some (mkW _ _ (WDone _)) => put_thr (<[t := mkW k timed WEnter]> (m_thr s)) s
    | Some _ => s
    end
  | MStep t => wait_step t s
  | MTimer t =>
    match m_thr s !! t with
    | Some (mkW k true WAsleep) => put_thr (<[t := mkW k true WTimedOut]> (m_thr s)) s
    | _ => s
    end
  | MSpurious t => put_thr (alter wake t (m_thr s)) s
  | MTell u =>
    match m_rdr s, m_lock s with
    | RRun, None => put_rdr RTold (put_reg (tell X u (m_reg s)) [Told u] s)
    | _, _ => s
    end
  | MReader => reader_step s
  | MOther o =>
    match m_lock s with Some _ => s | None => put_reg (meddle X o (m_reg s)) [Meddled o (removes X o (m_reg s))] s end
  | MEnd =>
    match m_rdr s with
    | RRun => put_rdr RShut (mkM (m_reg s) true (m_lock s) (m_rdr s) (m_thr s) (m_log s))
    | _ => s
    end
  end.
Definition mrun (acts : list mact) (s : mstate) : mstate := foldl (λ s a, mact_step a s) s acts.

(** Nobody waits, and the reader runs. *)
Definition mstart (m : reg X) : mstate := mkM m false None RRun ∅ [].
End monitor.

Arguments MCall {X} t k timed.
Arguments MStep {X} t.
Arguments MTimer {X} t.
Arguments MSpurious {X} t.
Arguments MTell {X} u.
Arguments MReader {X}.
Arguments MOther {X} o.
Arguments MEnd {X}.
Arguments mkW {X} w_key w_timed w_pc.
Arguments Told {X} u.
Arguments Took {X} t k r.
Arguments Meddled {X} o rs.
Arguments Faulted {X}.

#[export] Instance accepting_laws : MonitorLaws accepting.
Proof.
  assert (∀ l (m : AcceptRegistry.t), AcceptRegistry.pop l m = None ↔ default [] (m !! l) = []) as Hpop.
  { intros l m. unfold AcceptRegistry.pop. by destruct (m !! l) as [[|]|]. }
  assert (∀ l (m m' : AcceptRegistry.t) i k, AcceptRegistry.pop l m = Some (i, m') →
    AcceptRegistry.pop k m = None → AcceptRegistry.pop k m' = None) as Htake.
  { intros l m m' i k Hl Hk. apply Hpop. apply Hpop in Hk. unfold AcceptRegistry.pop in Hl.
    destruct (m !! l) as [[|j q]|] eqn:Hm; try done. injection Hl as <- <-.
    destruct (decide (k = l)) as [->|Hne]; [by rewrite Hm in Hk|by rewrite lookup_insert_ne]. }
  split; simpl.
  - intros [l|l] k m [=Hk]%fmap_None; apply fmap_None.
    + destruct (AcceptRegistry.pop l m) as [[i m']|] eqn:Hl; [by eapply Htake|done].
    + apply Hpop. apply Hpop in Hk. unfold AcceptRegistry.forget. destruct (decide (k = l)) as [->|Hne].
      * by rewrite lookup_delete_eq.
      * by rewrite lookup_delete_ne.
  - intros k a m m' k' ([i q] & Hl & [= _ ->])%fmap_Some [=Hk]%fmap_None. apply fmap_None. by eapply Htake.
Qed.

#[export] Instance connecting_laws : MonitorLaws connecting_to.
Proof.
  split; simpl.
  - intros o k m [=Hk]%fmap_None. apply fmap_None. unfold ConnRegistry.result in *. destruct o as [h|h|h]; simpl.
    + unfold ConnRegistry.set_pending. destruct (m !! h) eqn:Hm; [done|].
      destruct (decide (k = h)) as [->|Hne]; [by rewrite lookup_insert_eq|by rewrite lookup_insert_ne].
    + unfold ConnRegistry.take_error. destruct (m !! h) as [p|] eqn:Hm; [|done]. simpl.
      destruct (Z.eqb_spec (match p with Failed x => x | _ => 0 end) 0); [done|].
      destruct (decide (k = h)) as [->|Hne]; [|by rewrite lookup_insert_ne].
      rewrite Hm in Hk. by destruct p.
    + unfold ConnRegistry.forget. destruct (decide (k = h)) as [->|Hne];
        [by rewrite lookup_delete_eq|by rewrite lookup_delete_ne].
  - intros k a m m' k' (r & _ & [= _ ->])%fmap_Some Hk. exact Hk.
Qed.

Section invariant.
Context (X : monitor) `{!MonitorLaws X}.
Implicit Types (s : mstate X) (w : waiter X).

Definition holding (p : wpc (res X)) : bool :=
  match p with WLook | WLoad | WSleep | WLast => true | _ => false end.
Abbreviation thr s t := (m_thr X s !! t).
Abbreviation found s w := (ready X (w_key X w) (m_reg X s)).

Record minv s : Prop := {
  mi_lock t : m_lock X s = Some t ↔ ∃ w, thr s t = Some w ∧ holding (w_pc X w) = true;
  mi_looked t w : thr s t = Some w → w_pc X w = WLoad ∨ w_pc X w = WSleep → found s w = None;
  mi_asleep t w : thr s t = Some w → w_pc X w = WAsleep →
    found s w = None ∨ m_rdr X s = RTold ∨ m_rdr X s = RFaulted;
  mi_closed : m_closed X s = match m_rdr X s with RRun | RTold => false | _ => true end;
  mi_faulted t w : is_Some (shuts X) → m_rdr X s = RFaulted ∨ m_rdr X s = REnd →
    thr s t = Some w → w_pc X w ≠ WSleep;
  mi_ended t w : is_Some (shuts X) → m_rdr X s = REnd → thr s t = Some w → w_pc X w ≠ WAsleep }.

Lemma minv_start m : minv (mstart X m).
Proof.
  assert (∀ t w, (∅ : gmap nat (waiter X)) !! t = Some w → False) as He by (intros t w; by rewrite lookup_empty).
  split; simpl; [|intros ? ? ?%He; done..|done|intros ? ? ? ? ?%He; done|intros ? ? ? ? ?%He; done].
  intros t. split; [done|]. by intros (w & []%He & _).
Qed.

(** A thread moves, the mutex going with it. *)
Lemma minv_go s t w0 p l m e : minv s → thr s t = Some w0 →
  (m_lock X s = None ∨ m_lock X s = Some t) → l = (if holding p then Some t else None) →
  (p = WLoad ∨ p = WSleep → ready X (w_key X w0) m = None) →
  (p = WAsleep → ready X (w_key X w0) m = None ∧ ¬ (is_Some (shuts X) ∧ m_rdr X s = REnd)) →
  (p = WSleep → m_closed X s = false) →
  (∀ k, ready X k (m_reg X s) = None → ready X k m = None) →
  minv (put_lock X l (go X t w0 p (put_reg X m e s))).
Proof.
  intros [I1 I2 I3 I4 I5 I6] Ht Hl -> Hp Hsl Hcl Hm.
  assert (∀ x w, x ≠ t → thr s x = Some w → holding (w_pc X w) = false) as Hothers.
  { intros x w Hne Hx. destruct (holding (w_pc X w)) eqn:Hh; [|done].
    assert (m_lock X s = Some x) as Hlx by (apply I1; by exists w). destruct Hl; congruence. }
  split; simpl.
  - intros x. destruct (decide (x = t)) as [->|Hne].
    + rewrite lookup_insert_eq. split.
      * intros Hh. eexists. split; [done|]. simpl. by destruct (holding p).
      * intros (w & [= <-] & Hh). simpl in Hh. by rewrite Hh.
    + rewrite lookup_insert_ne by done. split.
      * destruct (holding p); [by intros [= ->]|done].
      * intros (w & Hx & Hh). by rewrite (Hothers x w Hne Hx) in Hh.
  - intros x w [[<- <-]|[Hne Hx]]%lookup_insert_Some Hpc; [by apply Hp|]. apply Hm. by eapply I2.
  - intros x w [[<- <-]|[Hne Hx]]%lookup_insert_Some Hpc; [left; by apply Hsl|].
    destruct (I3 x w Hx Hpc) as [?|?]; [left; by apply Hm|by right].
  - exact I4.
  - intros x w Hs Hr [[<- <-]|[Hne Hx]]%lookup_insert_Some; simpl; [|by eapply I5].
    intros ->. specialize (Hcl eq_refl). rewrite I4 in Hcl. by destruct Hr as [Hr|Hr]; rewrite Hr in Hcl.
  - intros x w Hs Hr [[<- <-]|[Hne Hx]]%lookup_insert_Some; simpl; [|by eapply I6].
    intros ->. destruct (Hsl eq_refl) as [_ Hn]. by apply Hn.
Qed.

(** A thread that has nothing to do with the mutex moves. *)
Lemma minv_put s t w : minv s → (∀ w0, thr s t = Some w0 → holding (w_pc X w0) = false) →
  holding (w_pc X w) = false → w_pc X w ≠ WAsleep → minv (put_thr X (<[t := w]> (m_thr X s)) s).
Proof.
  intros [I1 I2 I3 I4 I5 I6] H0 Hw Ha. split; simpl.
  - intros x. rewrite I1. destruct (decide (x = t)) as [->|Hne]; [|by rewrite lookup_insert_ne].
    rewrite lookup_insert_eq. split.
    + intros (w1 & H1 & Hh). by rewrite (H0 w1 H1) in Hh.
    + intros (w1 & [= <-] & Hh). congruence.
  - intros x w1 [[<- <-]|[Hne Hx]]%lookup_insert_Some Hpc; [|by eapply I2].
    by destruct Hpc as [Hpc|Hpc]; rewrite Hpc in Hw.
  - intros x w1 [[<- <-]|[Hne Hx]]%lookup_insert_Some Hpc; [done|by eapply I3].
  - exact I4.
  - intros x w1 Hs Hr [[<- <-]|[Hne Hx]]%lookup_insert_Some; [|by eapply I5].
    intros Hpc. by rewrite Hpc in Hw.
  - intros x w1 Hs Hr [[<- <-]|[Hne Hx]]%lookup_insert_Some; [done|by eapply I6].
Qed.

Lemma wake_holding w : holding (w_pc X (wake X w)) = holding (w_pc X w).
Proof. destruct w as [k b p]. by destruct p. Qed.
Lemma wake_asleep w : w_pc X (wake X w) ≠ WAsleep.
Proof. destruct w as [k b p]. by destruct p. Qed.
Lemma wake_keeps w : w_key X (wake X w) = w_key X w ∧ (w_pc X w ≠ WAsleep → wake X w = w).
Proof. destruct w as [k b p]. by destruct p. Qed.

(** Everybody who sleeps is woken. *)
Lemma minv_notify s r : minv s → m_closed X s = match r with RRun | RTold => false | _ => true end →
  (r = RFaulted ∨ r = REnd → m_rdr X s = RFaulted ∨ m_rdr X s = REnd) → minv (put_rdr X r (notify_all X s)).
Proof.
  intros [I1 I2 I3 I4 I5 I6] Hc Hr.
  assert (∀ t w, thr (put_rdr X r (notify_all X s)) t = Some w → w_pc X w ≠ WAsleep ∧
    ∃ w0, thr s t = Some w0 ∧ w = wake X w0) as Hback.
  { intros t w Hw. simpl in Hw. rewrite lookup_fmap in Hw. apply fmap_Some in Hw as (w0 & H0 & ->).
    split; [apply wake_asleep|by exists w0]. }
  split; simpl.
  - intros t. rewrite I1, lookup_fmap. split.
    + intros (w & Hw & Hh). exists (wake X w). rewrite Hw, wake_holding. done.
    + intros (w & (w0 & H0 & ->)%fmap_Some & Hh). rewrite wake_holding in Hh. by exists w0.
  - intros t w Hw Hpc. destruct (Hback t w Hw) as (Ha & w0 & H0 & ->).
    assert (w_pc X w0 ≠ WAsleep) as Hn by (destruct w0 as [k b p]; intros Hp; simpl in Hp; subst p; simpl in Hpc; by destruct Hpc).
    destruct (wake_keeps w0) as [_ ->]; [|done]. destruct (wake_keeps w0) as [_ He]. rewrite (He Hn) in Hpc. by eapply I2.
  - intros t w Hw Hpc. by destruct (Hback t w Hw).
  - done.
  - intros t w Hs Hr' Hw Hpc. destruct (Hback t w Hw) as (Ha & w0 & H0 & ->).
    assert (w_pc X w0 = WSleep) as Hp0 by (destruct w0 as [k b p]; by destruct p).
    by eapply (I5 t w0 Hs (Hr Hr')).
  - intros t w Hs Hr' Hw. by destruct (Hback t w Hw).
Qed.

(** The reader, or another method, writes while nobody holds the mutex. *)
Lemma minv_write s m e r : minv s → m_lock X s = None →
  (r = m_rdr X s ∧ (∀ k, ready X k (m_reg X s) = None → ready X k m = None) ∨
   m_closed X s = false ∧ r = RTold ∨ m_closed X s = true ∧ r = RFaulted) →
  minv (put_rdr X r (put_reg X m e s)).
Proof.
  intros [I1 I2 I3 I4 I5 I6] Hl Hr.
  assert (∀ t w, thr s t = Some w → holding (w_pc X w) = false) as Hfree.
  { intros t w Hw. destruct (holding (w_pc X w)) eqn:Hh; [|done].
    assert (m_lock X s = Some t) by (apply I1; by exists w). congruence. }
  assert (∀ t w, thr s t = Some w → w_pc X w ≠ WSleep) as Hns.
  { intros t w Hw Hp. pose proof (Hfree t w Hw) as Hh. by rewrite Hp in Hh. }
  split; simpl; try done.
  - intros t w Hw Hpc. pose proof (Hfree t w Hw) as Hh. by destruct Hpc as [Hp|Hp]; rewrite Hp in Hh.
  - intros t w Hw Hpc. destruct Hr as [[-> Hm]|[[_ ->]|[_ ->]]]; [|by right; left|by right; right].
    destruct (I3 t w Hw Hpc) as [?|?]; [left; by apply Hm|by right].
  - destruct Hr as [[-> _]|[[-> ->]|[-> ->]]]; [done|done|done].
  - intros t w _ _ Hw. by eapply Hns.
  - intros t w Hs Hre Hw. destruct Hr as [[-> _]|[[_ ->]|[_ ->]]]; [by eapply I6|done|done].
Qed.

Lemma put_reg_nil s : put_reg X (m_reg X s) [] s = s.
Proof. destruct s. unfold put_reg. simpl. by rewrite app_nil_r. Qed.
Lemma put_rdr_id s : put_rdr X (m_rdr X s) s = s.
Proof. by destruct s. Qed.

Lemma minv_wait t s : minv s → minv (wait_step X t s).
Proof.
  intros Hi. unfold wait_step. destruct (thr s t) as [w|] eqn:Hw; [|done].
  assert (holding (w_pc X w) = true → m_lock X s = Some t) as Hown by (intros Hh; apply (mi_lock s Hi); by exists w).
  assert (∀ k, ready X k (m_reg X s) = None → ready X k (m_reg X s) = None) as Hid by done.
  assert (∀ p l, (m_lock X s = None ∨ m_lock X s = Some t) → l = (if holding p then Some t else None) →
    (p = WLoad ∨ p = WSleep → found s w = None) →
    (p = WAsleep → found s w = None ∧ ¬ (is_Some (shuts X) ∧ m_rdr X s = REnd)) →
    (p = WSleep → m_closed X s = false) → minv (put_lock X l (go X t w p s))) as Hgo.
  { intros p l Hl Hp Hn Hs Hc. rewrite <- (put_reg_nil s) at 1. by apply minv_go. }
  assert (∀ p, m_lock X s = Some t → holding p = true → (p = WLoad ∨ p = WSleep → found s w = None) →
    (p = WSleep → m_closed X s = false) → minv (go X t w p s)) as Hstay.
  { intros p Hl Hp Hn Hc. assert (go X t w p s = put_lock X (m_lock X s) (go X t w p s)) as -> by done.
    rewrite Hl. apply Hgo; [by right|by rewrite Hp|done| |done]. intros ->. done. }
  assert (∀ p, holding p = true → p ≠ WLoad → p ≠ WSleep → minv (take_lock X t w p s)) as Htake.
  { intros p Hp H1 H2. unfold take_lock. destruct (m_lock X s) eqn:Hl; [done|].
    apply Hgo; [by left|by rewrite Hp|by intros [?|?]|by intros ->|by intros ->]. }
  assert (∀ r, m_lock X s = Some t → minv (unlock_to X t w (WDone r) s)) as Hdone.
  { intros r Hl. apply Hgo; [by right|done|by intros [?|?]|done|done]. }
  assert (∀ a m, m_lock X s = Some t → ready X (w_key X w) (m_reg X s) = Some (a, m) →
    minv (unlock_to X t w (WDone a) (put_reg X m [Took t (w_key X w) a] s))) as Hgot.
  { intros a m Hl Hr. apply minv_go; try done; [by right|by intros [?|?]|]. intros k. by eapply taken_none. }
  destruct (w_pc X w) eqn:Hpc.
  - by apply Htake.
  - destruct (ready X (w_key X w) (m_reg X s)) as [[a m]|] eqn:Hr; [by apply Hgot; [apply Hown|]|].
    apply Hstay; [by apply Hown|done|done|done].
  - assert (found s w = None) as Hn by (apply (mi_looked s Hi t w Hw); by left).
    destruct (m_closed X s) eqn:Hc; [apply Hdone; by apply Hown|]. apply Hstay; [by apply Hown|done|done|done].
  - assert (found s w = None) as Hn by (apply (mi_looked s Hi t w Hw); by right).
    apply Hgo; [right; by apply Hown|done|by intros [?|?]| |done]. intros _. split; [done|]. intros [Hs Hr].
    by eapply (mi_faulted s Hi t w Hs (or_intror Hr)).
  - done.
  - by apply Htake.
  - by apply Htake.
  - destruct (ready X (w_key X w) (m_reg X s)) as [[a m]|] eqn:Hr; [by apply Hgot; [apply Hown|]|].
    apply Hdone. by apply Hown.
  - done.
Qed.

Lemma minv_reader s : minv s → minv (reader_step X s).
Proof.
  intros Hi. pose proof (mi_closed s Hi) as Hc. unfold reader_step. destruct (m_rdr X s) eqn:Hr; [done| | | |done].
  - apply minv_notify; [done|by rewrite Hc|]. by intros [?|?].
  - destruct (shuts X) as [f|] eqn:Hs.
    + destruct (m_lock X s) eqn:Hl; [done|]. apply minv_write; [done|done|]. by right; right.
    + destruct Hi as [I1 I2 I3 I4 I5 I6]. rewrite Hr in *. split; simpl; try done.
      * intros t w Hw Hpc. by right; right.
      * intros t w Hs'. rewrite Hs in Hs'. by destruct Hs'.
  - apply minv_notify; [done|by rewrite Hc|]. rewrite Hr. by left.
Qed.

Lemma minv_step a s : minv s → minv (mact_step X a s).
Proof.
  intros Hi. destruct a as [t k timed|t|t|t|u| |o|]; cbn [mact_step].
  - destruct (thr s t) as [[k0 b0 []]|] eqn:Ht; try done; apply minv_put; try done.
    + intros w0. rewrite Ht. by intros [= <-].
    + intros w0. by rewrite Ht.
  - by apply minv_wait.
  - destruct (thr s t) as [[k0 [] []]|] eqn:Ht; try done. apply minv_put; try done.
    intros w0. rewrite Ht. by intros [= <-].
  - destruct (thr s t) as [w|] eqn:Ht.
    2:{ assert (alter (wake X) t (m_thr X s) = m_thr X s) as -> by (by apply alter_id; rewrite Ht). by destruct s. }
    assert (w_pc X w = WAsleep ∨ w_pc X w ≠ WAsleep) as [Ha|Ha] by (destruct (w_pc X w); first [by left|by right]).
    + assert (alter (wake X) t (m_thr X s) = <[t := wake X w]> (m_thr X s)) as ->.
      { apply map_eq. intros x. destruct (decide (x = t)) as [->|Hne];
          [by rewrite lookup_alter_eq, lookup_insert_eq, Ht|by rewrite lookup_alter_ne, lookup_insert_ne]. }
      apply minv_put; [done| |by rewrite wake_holding, Ha|apply wake_asleep].
      intros w0. rewrite Ht. intros [= <-]. by rewrite Ha.
    + assert (alter (wake X) t (m_thr X s) = m_thr X s) as ->.
      { apply alter_id. intros w0. rewrite Ht. intros [= <-]. by apply wake_keeps. }
      by destruct s.
  - destruct (m_rdr X s) eqn:Hr; try done. destruct (m_lock X s) eqn:Hl; [done|]. apply minv_write; [done|done|].
    right; left. split; [|done]. by rewrite (mi_closed s Hi), Hr.
  - by apply minv_reader.
  - destruct (m_lock X s) eqn:Hl; [done|].
    rewrite <- (put_rdr_id (put_reg X _ _ s)). apply minv_write; [done|done|]. left. split; [done|].
    intros k. apply meddle_none.
  - destruct (m_rdr X s) eqn:Hr; try done. destruct Hi as [I1 I2 I3 I4 I5 I6]. rewrite Hr in *. split; simpl; try done.
    + intros t w Hw Hpc. destruct (I3 t w Hw Hpc) as [?|[?|?]]; [by left|done|done].
    + by intros t w _ [?|?].
Qed.

Lemma minv_run acts s : minv s → minv (mrun X acts s).
Proof. revert s. induction acts as [|a acts IH]; intros s Hi; [done|]. by apply IH, minv_step. Qed.

Lemma minv_reach acts m : minv (mrun X acts (mstart X m)).
Proof. apply minv_run, minv_start. Qed.

(** * What has been done to the protected state *)
Definition effect (m : reg X) (e : happened X) (m' : reg X) : Prop :=
  match e with
  | Told u => m' = tell X u m
  | Took _ k a => ready X k m = Some (a, m')
  | Meddled o rs => m' = meddle X o m ∧ rs = removes X o m
  | Faulted => ∃ f, shuts X = Some f ∧ m' = f m
  end.

(** A step changes it in one of these ways, and only a waiter that takes returns. *)
Lemma mact_effect a s :
  (m_reg X (mact_step X a s) = m_reg X s ∧ m_log X (mact_step X a s) = m_log X s ∨
   ∃ e, m_log X (mact_step X a s) = m_log X s ++ [e] ∧ effect (m_reg X s) e (m_reg X (mact_step X a s))).
Proof.
  destruct a as [t k timed|t|t|t|u| |o|]; cbn [mact_step]; try (by left).
  - left. by destruct (thr s t) as [[? ? []]|].
  - unfold wait_step, take_lock. destruct (thr s t) as [w|]; [|by left].
    destruct (w_pc X w); try (by left); try (by destruct (m_lock X s); left); try (by destruct (m_closed X s); left).
    + destruct (ready X (w_key X w) (m_reg X s)) as [[a m]|] eqn:Hr; [|by left]. right. by eexists.
    + destruct (ready X (w_key X w) (m_reg X s)) as [[a m]|] eqn:Hr; [|by left]. right. by eexists.
  - left. by destruct (thr s t) as [[? [] []]|].
  - destruct (m_rdr X s); try (by left). destruct (m_lock X s); [by left|]. right. by eexists.
  - unfold reader_step. destruct (m_rdr X s); try (by left). destruct (shuts X) as [f|] eqn:Hs; [|by left].
    destruct (m_lock X s); [by left|]. right. eexists. split; [done|]. by exists f.
  - destruct (m_lock X s); [by left|]. right. by eexists.
  - left. by destruct (m_rdr X s).
Qed.

(** A wait that has returned took what it returns, or gave up. *)
Definition returned_logged s : Prop := ∀ t w r, thr s t = Some w → w_pc X w = WDone r →
  Took t (w_key X w) r ∈ m_log X s ∨ r = gave_up X ∨ r = too_late X.

Lemma mact_done a s t w r : thr (mact_step X a s) t = Some w → w_pc X w = WDone r →
  thr s t = Some w ∨ Took t (w_key X w) r ∈ m_log X (mact_step X a s) ∨ r = gave_up X ∨ r = too_late X.
Proof.
  assert (∀ w0, w_pc X (wake X w0) = WDone r → wake X w0 = w0) as Hwake by (by intros [k b []]).
  assert (∀ m : gmap nat (waiter X), (wake X <$> m) !! t = Some w → w_pc X w = WDone r → m !! t = Some w) as Hall.
  { intros m. rewrite lookup_fmap. intros (w0 & H0 & ->)%fmap_Some Hd. by rewrite (Hwake w0 Hd). }
  assert (∀ x w0 p (l : list (happened X)), (<[x := mkW (w_key X w0) (w_timed X w0) p]> (m_thr X s)) !! t = Some w → w_pc X w = WDone r →
    (∀ r', p = WDone r' → Took x (w_key X w0) r' ∈ l ∨ r' = gave_up X ∨ r' = too_late X) →
    thr s t = Some w ∨ Took t (w_key X w) r ∈ l ∨ r = gave_up X ∨ r = too_late X) as Hput.
  { intros x w0 p l [[<- <-]|[Hne Hx]]%lookup_insert_Some Hd Hp; [right; by apply Hp|by left]. }
  destruct a as [x k timed|x|x|x|u| |o|]; cbn [mact_step].
  - destruct (thr s x) as [[? ? []]|]; simpl; try (by left); intros Hx Hd;
      apply (Hput x (mkW k timed WEnter) WEnter _ Hx Hd); by intros ?.
  - unfold wait_step, take_lock. destruct (thr s x) as [w0|]; [|by left].
    destruct (w_pc X w0); try (by left); try (destruct (m_lock X s); [by left|]);
      try (destruct (ready X (w_key X w0) (m_reg X s)) as [[a m]|]);
      try (destruct (m_closed X s)); simpl; intros Hx Hd; eapply (Hput _ _ _ _ Hx Hd);
      intros ? Hr; try done; injection Hr as <-; try (by right; left); try (by right; right).
    all: left; apply elem_of_app; right; by apply list_elem_of_singleton.
  - destruct (thr s x) as [[k [] []]|]; simpl; try (by left). intros Hx Hd.
    apply (Hput x (mkW k true WTimedOut) WTimedOut _ Hx Hd). by intros ?.
  - simpl. intros Hx Hd. left. apply lookup_alter_Some in Hx as [(-> & w0 & H0 & ->)|[_ Hx]]; [|done].
    by rewrite (Hwake w0 Hd).
  - destruct (m_rdr X s); try (by left). destruct (m_lock X s); by left.
  - unfold reader_step. destruct (m_rdr X s); try (by left); simpl.
    + intros Hx Hd. left. by apply Hall.
    + destruct (shuts X); [|by left]. destruct (m_lock X s); by left.
    + intros Hx Hd. left. by apply Hall.
  - destruct (m_lock X s); by left.
  - destruct (m_rdr X s); by left.
Qed.

Lemma returned_step a s : returned_logged s → returned_logged (mact_step X a s).
Proof.
  intros Hl t w r Ht Hd. destruct (mact_done a s t w r Ht Hd) as [H0|?]; [|done].
  destruct (Hl t w r H0 Hd) as [Hin|?]; [left|by right].
  destruct (mact_effect a s) as [[_ ->]|(e & -> & _)]; [done|]. apply elem_of_app. by left.
Qed.

Lemma returned_run acts s : returned_logged s → returned_logged (mrun X acts s).
Proof. revert s. induction acts as [|a acts IH]; intros s Hi; [done|]. by apply IH, returned_step. Qed.

Lemma returned_start m : returned_logged (mstart X m).
Proof. intros t w r. simpl. by rewrite lookup_empty. Qed.
End invariant.

(** * After the end *)
Section ended.
Context (X : monitor) `{!MonitorLaws X}.
Implicit Types (s : mstate X) (w : waiter X).
Abbreviation thr s t := (m_thr X s !! t).

Definition calls (t : nat) (a : mact X) : bool :=
  match a with MCall x _ _ => bool_decide (x = t) | _ => false end.
(** The thread is not kept from running by another's holding the mutex. *)
Definition free (t : nat) s : bool :=
  match m_lock X s with Some o => bool_decide (o = t) | None => true end.
(** How often a thread's turn comes in a schedule. *)
Fixpoint turns (t : nat) (acts : list (mact X)) s : nat :=
  match acts with
  | [] => 0
  | a :: acts =>
    (match a with MStep x => if bool_decide (x = t) && free t s then 1 else 0 | _ => 0 end
     + turns t acts (mact_step X a s))%nat
  end.

(** The turns a thread needs once there is no more news to wait for. *)
Definition rank (p : wpc (res X)) : nat :=
  match p with
  | WEnter | WWoken => 3 | WLook | WTimedOut => 2 | WLoad | WLast => 1 | WDone _ => 0
  | WSleep | WAsleep => 4
  end.

Lemma step_elsewhere a s t w : thr s t = Some w → w_pc X w ≠ WAsleep → calls t a = false → a ≠ MStep t →
  thr (mact_step X a s) t = Some w.
Proof.
  intros Ht Ha Hc Hs. assert (wake X w = w) as Hw by (by apply wake_keeps).
  assert ((wake X <$> m_thr X s) !! t = Some w) as Hall by (by rewrite lookup_fmap, Ht; simpl; rewrite Hw).
  assert (∀ x w0, x ≠ t → <[x := w0]> (m_thr X s) !! t = Some w) as Hne by (intros x w0 Hx; by rewrite lookup_insert_ne).
  destruct a as [x k b|x|x|x|u| |o|]; cbn [mact_step].
  - simpl in Hc. apply bool_decide_eq_false in Hc. destruct (thr s x) as [[? ? []]|]; try done; by apply Hne.
  - assert (x ≠ t) as Hx by congruence. unfold wait_step, take_lock. destruct (thr s x) as [w0|]; [|done].
    destruct (w_pc X w0); try done; try (destruct (m_lock X s); [done|]);
      try (destruct (ready X (w_key X w0) (m_reg X s)) as [[? ?]|]); try (destruct (m_closed X s)); by apply Hne.
  - destruct (decide (x = t)) as [->|Hx].
    + rewrite Ht. destruct w as [k [] []]; done.
    + destruct (thr s x) as [[? [] []]|]; try done; by apply Hne.
  - simpl. destruct (decide (x = t)) as [->|Hx]; [by rewrite lookup_alter_eq, Ht; simpl; rewrite Hw|].
    by rewrite lookup_alter_ne.
  - destruct (m_rdr X s); try done. by destruct (m_lock X s).
  - unfold reader_step. destruct (m_rdr X s); try done. destruct (shuts X); [|done]. by destruct (m_lock X s).
  - by destruct (m_lock X s).
  - by destruct (m_rdr X s).
Qed.

Lemma reader_ended a s : m_rdr X s = REnd → m_rdr X (mact_step X a s) = REnd.
Proof.
  intros He. destruct a as [x k b|x|x|x|u| |o|]; cbn [mact_step]; rewrite ?He; try done.
  - by destruct (thr s x) as [[? ? []]|].
  - unfold wait_step, take_lock. destruct (thr s x) as [w0|]; [|done].
    destruct (w_pc X w0); try done; try (destruct (m_lock X s); [done|]);
      try (destruct (ready X (w_key X w0) (m_reg X s)) as [[? ?]|]); by try (destruct (m_closed X s)).
  - by destruct (thr s x) as [[? [] []]|].
  - unfold reader_step. by rewrite He.
  - by destruct (m_lock X s).
Qed.

(** Only a notification, the timer or the condition variable itself wakes. *)
Lemma asleep_elsewhere a s t k : thr s t = Some (mkW k false WAsleep) → m_rdr X s = REnd → MSpurious t ≠ a →
  thr (mact_step X a s) t = Some (mkW k false WAsleep).
Proof.
  intros Ht He Hs.
  assert (∀ x w0, x ≠ t → <[x := w0]> (m_thr X s) !! t = Some (mkW k false WAsleep)) as Hne
    by (intros x w0 Hx; by rewrite lookup_insert_ne).
  destruct a as [x k0 b|x|x|x|u| |o|]; cbn [mact_step]; rewrite ?He; try done.
  - destruct (decide (x = t)) as [->|Hx]; [by rewrite Ht|]. destruct (thr s x) as [[? ? []]|]; try done; by apply Hne.
  - unfold wait_step, take_lock. destruct (decide (x = t)) as [->|Hx]; [by rewrite Ht|]. destruct (thr s x) as [w0|]; [|done].
    destruct (w_pc X w0); try done; try (destruct (m_lock X s); [done|]);
      try (destruct (ready X (w_key X w0) (m_reg X s)) as [[? ?]|]); try (destruct (m_closed X s)); by apply Hne.
  - destruct (decide (x = t)) as [->|Hx]; [by rewrite Ht|]. destruct (thr s x) as [[? [] []]|]; try done; by apply Hne.
  - simpl. rewrite lookup_alter_ne; [done|congruence].
  - unfold reader_step. by rewrite He.
  - by destruct (m_lock X s).
Qed.

Context (Hshuts : is_Some (shuts X)).

(** A turn brings the thread nearer to its end, and nothing takes it back. *)
Lemma own_step s t w : minv X s → m_rdr X s = REnd → thr s t = Some w → free t s = true →
  ∃ w', thr (mact_step X (MStep t) s) t = Some w' ∧ (rank (w_pc X w') ≤ pred (rank (w_pc X w)))%nat.
Proof.
  intros Hi He Ht Hf. cbn [mact_step]. unfold wait_step, take_lock, free in *. rewrite Ht.
  pose proof (mi_closed X s Hi) as Hc. rewrite He in Hc.
  pose proof (mi_faulted X s Hi t w Hshuts (or_intror He) Ht) as Hns.
  pose proof (mi_ended X s Hi t w Hshuts He Ht) as Hna.
  assert (holding X (w_pc X w) = false → m_lock X s = None) as Hl.
  { intros Hh. destruct (m_lock X s) as [o|] eqn:Hl; [|done]. apply bool_decide_eq_true in Hf as ->.
    apply (mi_lock X s Hi) in Hl as (w0 & Hw0 & Hh0). congruence. }
  destruct (w_pc X w) eqn:Hpc; try done; rewrite ?(Hl eq_refl), ?Hc;
    try (destruct (ready X (w_key X w) (m_reg X s)) as [[? ?]|]); simpl;
    rewrite ?lookup_insert_eq; eexists; (split; [done|simpl; lia]) || (split; [exact Ht|rewrite Hpc; simpl; lia]).
Qed.

Lemma rank_run acts s t w : minv X s → m_rdr X s = REnd → thr s t = Some w → Forall (λ a, calls t a = false) acts →
  ∃ w', thr (mrun X acts s) t = Some w' ∧ (rank (w_pc X w') ≤ rank (w_pc X w) - turns t acts s)%nat.
Proof.
  revert s w. induction acts as [|a acts IH]; intros s w Hi He Ht Hall; [exists w; split; [done|simpl; lia]|].
  apply Forall_cons in Hall as [Ha Hall]. simpl.
  assert (∃ w', thr (mact_step X a s) t = Some w' ∧ (rank (w_pc X w') ≤ rank (w_pc X w) -
    match a with MStep x => if bool_decide (x = t) && free t s then 1 else 0 | _ => 0 end)%nat) as (w1 & H1 & Hr1).
  { assert (w_pc X w ≠ WAsleep) as Hna by (by eapply (mi_ended X s Hi)).
    assert (a ≠ MStep t → ∃ w', thr (mact_step X a s) t = Some w' ∧ (rank (w_pc X w') ≤ rank (w_pc X w) -
      match a with MStep x => if bool_decide (x = t) && free t s then 1 else 0 | _ => 0 end)%nat) as Hother.
    { intros Hne. exists w. split; [by apply step_elsewhere|]. destruct a; try lia.
      rewrite bool_decide_eq_false_2 by congruence. simpl. lia. }
    destruct a as [x k b|x|x|x|u| |o|]; try by apply Hother.
    destruct (decide (x = t)) as [->|Hx]; [|apply Hother; congruence].
    rewrite bool_decide_eq_true_2 by done. destruct (free t s) eqn:Hf; simpl.
    - destruct (own_step s t w Hi He Ht Hf) as (w1 & H1 & Hr). exists w1. split; [done|lia].
    - unfold wait_step, take_lock, free in *. rewrite Ht. destruct (m_lock X s) as [o|] eqn:Hl; [|done].
      apply bool_decide_eq_false in Hf. exists w.
      assert (holding X (w_pc X w) = false) as Hh.
      { destruct (holding X (w_pc X w)) eqn:Hh; [|done].
        assert (m_lock X s = Some t) by (apply (mi_lock X s Hi); by exists w). congruence. }
      destruct (w_pc X w) eqn:Hpc; try done; (split; [done|rewrite ?Hpc; simpl; lia]). }
  destruct (IH _ w1 (minv_step X a s Hi) (reader_ended a s He) H1 Hall) as (w2 & H2 & Hr2).
  exists w2. split; [done|lia].
Qed.

(** Whoever holds the mutex lets go of it in two turns. *)
Lemma holder_unlocks s o : minv X s → m_rdr X s = REnd → m_lock X s = Some o →
  m_lock X (mrun X [MStep o; MStep o] s) = None.
Proof.
  intros Hi He Hl. destruct (proj1 (mi_lock X s Hi o) Hl) as (w & Hw & Hh).
  pose proof (mi_closed X s Hi) as Hc. rewrite He in Hc.
  pose proof (mi_faulted X s Hi o w Hshuts (or_intror He) Hw) as Hns.
  cbn [mrun foldl mact_step]. unfold wait_step at 2. rewrite Hw.
  assert (∀ a m, m_lock X (wait_step X o (unlock_to X o w (WDone a) (put_reg X m [Took o (w_key X w) a] s))) = None) as H1.
  { intros a m. unfold wait_step. simpl. by rewrite lookup_insert_eq. }
  assert (∀ a, m_lock X (wait_step X o (unlock_to X o w (WDone a) s)) = None) as H2.
  { intros a. unfold wait_step. simpl. by rewrite lookup_insert_eq. }
  destruct (w_pc X w) eqn:Hpc; try done.
  - destruct (ready X (w_key X w) (m_reg X s)) as [[a m]|]; [apply H1|].
    unfold wait_step. simpl. rewrite lookup_insert_eq. simpl. by rewrite Hc.
  - rewrite Hc. apply H2.
  - destruct (ready X (w_key X w) (m_reg X s)) as [[a m]|]; [apply H1|apply H2].
Qed.

Lemma ended_run acts s : m_rdr X s = REnd → m_rdr X (mrun X acts s) = REnd.
Proof. revert s. induction acts as [|a acts IH]; intros s He; [done|]. by apply IH, reader_ended. Qed.
End ended.

(** * One thread by itself *)
Section alone.
Context (X : monitor) (t : nat) (k : Z) (b : bool).
Definition alone (m : reg X) (c : bool) (lk : option nat) (r : rdr) (lg : list (happened X)) (p : wpc (res X)) : mstate X :=
  mkM X m c lk r {[t := mkW k b p]} lg.

Lemma alone_step m c lk r lg p : wait_step X t (alone m c lk r lg p) =
  match p with
  | WEnter | WWoken => match lk with Some _ => alone m c lk r lg p | None => alone m c (Some t) r lg WLook end
  | WLook => match ready X k m with
             | Some (a, m') => alone m' c None r (lg ++ [Took t k a]) (WDone a)
             | None => alone m c lk r lg WLoad
             end
  | WLoad => if c then alone m c None r lg (WDone (gave_up X)) else alone m c lk r lg WSleep
  | WSleep => alone m c None r lg WAsleep
  | WTimedOut => match lk with Some _ => alone m c lk r lg p | None => alone m c (Some t) r lg WLast end
  | WLast => match ready X k m with
             | Some (a, m') => alone m' c None r (lg ++ [Took t k a]) (WDone a)
             | None => alone m c None r lg (WDone (too_late X))
             end
  | WAsleep | WDone _ => alone m c lk r lg p
  end.
Proof.
  unfold wait_step, alone at 1. cbn [m_thr]. rewrite lookup_singleton_eq. cbn [w_pc w_key].
  assert (∀ m c lk r lg p q, go X t (mkW k b p) q (alone m c lk r lg p) = alone m c lk r lg q) as Hgo.
  { intros. unfold go, put_thr, alone. cbn [m_reg m_closed m_lock m_rdr m_thr m_log w_key w_timed].
    by rewrite insert_singleton_eq. }
  unfold take_lock, unlock_to.
  destruct p; try done; try (destruct lk; [done|]);
    try (cbn [m_reg alone]; destruct (ready X k m) as [[a m']|]); try (cbn [m_closed alone]; destruct c);
    try change (put_reg X ?m' ?e (alone ?m ?c ?lk ?r ?lg ?p)) with (alone m' c lk r (lg ++ e) p);
    try by rewrite Hgo.
Qed.
End alone.

(** * One thread by itself does what the scripts of [Client.v] say *)
Section scripted.
Context `{!SerdeJson} {S : Type} `{!RhpEventSink S}.
Context (X : monitor) (t : nat) (k : Z) (timed : bool).
Context (get : client → reg X) (put : reg X → client → client).
Context (cond on_expire : client → option (res X * client)).

Definition rdr_of (c : bool) : rdr := if c then REnd else RRun.
Abbreviation at_ c p lg := (alone X t k timed (get c) (closed c) None (rdr_of (closed c)) lg p).

(** How the client's state holds the monitor's. *)
Record viewed : Prop := {
  v_frame bytes (st : sys (S := S)) : closed (cl st) = false → closed (cl (handle_frame bytes st)) = false ∧
    (get (cl (handle_frame bytes st)) = get (cl st) ∨ ∃ u, get (cl (handle_frame bytes st)) = tell X u (get (cl st)));
  v_end (st : sys (S := S)) : closed (cl (disconnect st)) = true ∧
    get (cl (disconnect st)) = match shuts X with Some f => f (get (cl st)) | None => get (cl st) end;
  v_put m c : get (put m c) = m ∧ closed (put m c) = closed c;
  v_cond c : cond c = match ready X k (get c) with
                      | Some (a, m) => Some (a, put m c)
                      | None => if closed c then Some (gave_up X, c) else None
                      end;
  v_expire c : on_expire c = match ready X k (get c) with
                             | Some (a, m) => Some (a, put m c)
                             | None => on_expire c
                             end ∧ (ready X k (get c) = None → on_expire c = None ∨ on_expire c = Some (too_late X, c)) }.

(** The timer is what the thread will wake for next. *)
Fixpoint expiring (evs : list event) : bool :=
  match evs with [] | Expire :: _ => true | Wake :: _ => false | _ :: evs => expiring evs end.
Definition parked (evs : list event) (p : wpc (res X)) : Prop :=
  if timed && expiring evs then p = WTimedOut else p = WAsleep ∨ p = WWoken.
(** Where the thread is when the script has run. *)
Definition ends_as (r : waited (res X) * sys (S := S)) (s : mstate X) : Prop := ∃ lg,
  s = at_ (cl (snd r)) (match fst r with Woken a => WDone a | Expired => WDone (too_late X) | Blocked => WAsleep end) lg.

Lemma mrun_app a1 a2 s : mrun X (a1 ++ a2) s = mrun X a2 (mrun X a1 s).
Proof. apply foldl_app. Qed.

Context (V : viewed).

Lemma look_run c p lg : p = WEnter ∨ p = WAsleep ∨ p = WWoken → ∃ acts lg', mrun X acts (at_ c p lg) =
  match cond c with Some (a, c') => at_ c' (WDone a) lg' | None => at_ c WAsleep lg' end.
Proof.
  intros Hp. assert (∃ acts lg', mrun X acts (alone X t k timed (get c) (closed c) (Some t) (rdr_of (closed c)) lg WLook) =
    match cond c with Some (a, c') => at_ c' (WDone a) lg' | None => at_ c WAsleep lg' end) as (acts & lg' & Ha).
  { rewrite (v_cond V). destruct (ready X k (get c)) as [[a m]|] eqn:Hr.
    - exists [MStep t], (lg ++ [Took t k a]). cbn [mrun foldl mact_step]. rewrite alone_step, Hr.
      by destruct (v_put V m c) as [-> ->].
    - exists [MStep t; MStep t; MStep t], lg. cbn [mrun foldl mact_step]. rewrite alone_step, Hr, alone_step. cbv beta iota.
      destruct (closed c) eqn:Hc; cbv beta iota; rewrite alone_step; cbv beta iota; by rewrite ?Hc. }
  assert (mact_step X (MSpurious t) (at_ c WAsleep lg) = at_ c WWoken lg) as Hw.
  { unfold alone. cbn [mact_step m_thr]. unfold put_thr. cbn [m_reg m_closed m_lock m_rdr m_log].
    f_equal. apply map_eq. intros x. destruct (decide (x = t)) as [->|Hx].
    - by rewrite lookup_alter_eq, !lookup_singleton_eq.
    - by rewrite lookup_alter_ne, !lookup_singleton_ne. }
  assert (∀ q, q = WEnter ∨ q = WWoken → mact_step X (MStep t) (at_ c q lg) =
    alone X t k timed (get c) (closed c) (Some t) (rdr_of (closed c)) lg WLook) as Hs.
  { intros q Hq. cbn [mact_step]. rewrite alone_step. by destruct Hq as [-> | ->]. }
  destruct Hp as [->|[->| ->]].
  - exists (MStep t :: acts), lg'. cbn [mrun foldl]. rewrite Hs by (by left). exact Ha.
  - exists (MSpurious t :: MStep t :: acts), lg'. cbn [mrun foldl]. rewrite Hw, Hs by (by right). exact Ha.
  - exists (MStep t :: acts), lg'. cbn [mrun foldl]. rewrite Hs by (by right). exact Ha.
Qed.

Lemma expire_run c lg : ∃ acts lg', mrun X acts (at_ c WTimedOut lg) =
  match on_expire c with Some (a, c') => at_ c' (WDone a) lg' | None => at_ c (WDone (too_late X)) lg' end.
Proof.
  destruct (v_expire V c) as [He Hn]. exists [MStep t; MStep t]. cbn [mrun foldl mact_step]. rewrite alone_step, alone_step.
  destruct (ready X k (get c)) as [[a m]|].
  - rewrite He. eexists. by destruct (v_put V m c) as [-> ->].
  - exists lg. by destruct (Hn eq_refl) as [-> | ->].
Qed.

(** About to sleep on, the thread's timer fires if that is what is next. *)
Lemma park_run c lg evs : ∃ acts p, parked evs p ∧ mrun X acts (at_ c WAsleep lg) = at_ c p lg.
Proof.
  unfold parked. destruct timed eqn:Htm; simpl; [destruct (expiring evs)|]; [|exists [], WAsleep; split; [by left|done]..].
  exists [MTimer t], WTimedOut. split; [done|]. unfold alone. cbn [mrun foldl mact_step m_thr]. rewrite lookup_singleton_eq.
  unfold put_thr. cbn [m_reg m_closed m_lock m_rdr m_log]. by rewrite insert_singleton_eq.
Qed.

Lemma notified m c r lg p : notify_all X (alone X t k timed m c None r lg p) =
  alone X t k timed m c None r lg (match p with WAsleep => WWoken | p => p end).
Proof.
  unfold notify_all, put_thr, alone. cbn [m_thr m_reg m_closed m_lock m_rdr m_log]. rewrite map_fmap_singleton. by destruct p.
Qed.

(** An event of the script, the thread staying where it is or being woken. *)
Lemma net_run ev (st : sys (S := S)) lg evs p : parked evs p → ∃ acts lg' p', parked evs p' ∧
  mrun X acts (at_ (cl st) p lg) = at_ (cl (net_step ev st)) p' lg'.
Proof.
  intros Hp. assert (parked evs (match p with WAsleep => WWoken | p => p end)) as Hp'.
  { unfold parked in *. destruct (timed && expiring evs); [by subst|]. right. by destruct Hp as [-> | ->]. }
  unfold net_step. destruct (closed (cl st)) eqn:Hc.
  { exists [], lg, p. split; [done|]. by rewrite Hc. }
  destruct ev as [bytes| | |]; [| |by exists [], lg, p; rewrite Hc; split..].
  - destruct (v_frame V bytes st Hc) as (Hc' & [Hg|[u Hg]]); rewrite Hg, Hc'; [by exists [], lg, p; split|].
    exists [MTell u; MReader], (lg ++ [Told u]), (match p with WAsleep => WWoken | p => p end). split; [done|].
    cbn [mrun foldl mact_step]. unfold alone at 1 2. cbn [m_rdr m_lock rdr_of].
    change (put_rdr X RTold _) with (alone X t k timed (tell X u (get (cl st))) false None RTold (lg ++ [Told u]) p).
    unfold reader_step. cbn [alone m_rdr]. rewrite notified. done.
  - destruct (v_end V st) as [Hc' Hg]. rewrite Hg, Hc'.
    exists [MEnd; MReader; MReader], (lg ++ match shuts X with Some _ => [Faulted] | None => [] end),
      (match p with WAsleep => WWoken | p => p end). split; [done|].
    cbn [mrun foldl mact_step]. unfold alone at 1. cbn [m_rdr rdr_of].
    change (put_rdr X RShut _) with (alone X t k timed (get (cl st)) true None RShut lg p).
    unfold reader_step at 2. cbn [alone m_rdr m_lock m_reg].
    destruct (shuts X) as [f|].
    + change (put_rdr X RFaulted _) with (alone X t k timed (f (get (cl st))) true None RFaulted (lg ++ [Faulted]) p).
      unfold reader_step. cbn [alone m_rdr]. by rewrite notified.
    + change (put_rdr X RFaulted _) with (alone X t k timed (get (cl st)) true None RFaulted lg p).
      unfold reader_step. cbn [alone m_rdr]. rewrite notified, app_nil_r. done.
Qed.

Lemma go_run evs st p lg : parked evs p →
  ∃ acts, ends_as (wait_go cond on_expire timed evs st) (mrun X acts (at_ (cl st) p lg)).
Proof.
  assert (∀ r st lg (F : waited (res X) * sys (S := S)),
    (∀ lg, ∃ acts, ends_as F (mrun X acts (at_ (cl st) WAsleep lg))) → ∀ p, p = WAsleep ∨ p = WWoken →
    ∃ acts, ends_as (check_now cond r st F) (mrun X acts (at_ (cl st) p lg))) as Hlook.
  { intros r st0 lg0 F HF p0 Hp0. destruct (look_run (cl st0) p0 lg0 (or_intror Hp0)) as (a1 & lg1 & H1).
    unfold check_now. destruct (cond (cl st0)) as [[a c]|]; [exists a1; rewrite H1; by exists lg1|].
    destruct (HF lg1) as (a2 & H2). exists (a1 ++ a2). by rewrite mrun_app, H1. }
  assert (∀ r st lg (E : sys (S := S)), cl E = cl st → ∃ acts, ends_as (check_now on_expire r st (Expired, E))
    (mrun X acts (at_ (cl st) WTimedOut lg))) as Hexp.
  { intros r st0 lg0 E HE. destruct (expire_run (cl st0) lg0) as (a1 & lg1 & H1). exists a1. rewrite H1. unfold check_now.
    destruct (on_expire (cl st0)) as [[a c]|]; exists lg1; [done|]. simpl. by rewrite HE. }
  revert st p lg. induction evs as [|ev evs IH]; intros st p lg Hp.
  - unfold parked in Hp. cbn [wait_go expiring] in *. destruct timed eqn:Htm; simpl in Hp; [subst p; by apply Hexp|].
    apply Hlook; [|done]. intros lg1. exists []. exists lg1. by rewrite Htm.
  - assert (parked evs p → ∃ acts, ends_as (wait_go cond on_expire timed evs (net_step ev st)) (mrun X acts (at_ (cl st) p lg))) as Hnet.
    { intros Hq. destruct (net_run ev st lg evs p Hq) as (a1 & lg1 & p1 & Hp1 & H1). destruct (IH (net_step ev st) p1 lg1 Hp1) as (a2 & H2).
      exists (a1 ++ a2). by rewrite mrun_app, H1. }
    destruct ev as [bytes| | |]; cbn [wait_go]; [by apply Hnet..| |].
    + apply Hlook; [|by unfold parked in Hp; rewrite andb_false_r in Hp]. intros lg1.
      destruct (park_run (cl st) lg1 evs) as (a1 & p1 & Hp1 & H1). destruct (IH st p1 lg1 Hp1) as (a2 & H2).
      exists (a1 ++ a2). by rewrite mrun_app, H1.
    + unfold parked in Hp. cbn [expiring] in Hp. destruct timed eqn:Htm; simpl in Hp; [subst p; by apply Hexp|].
      assert (parked evs p) as Hq by (unfold parked; by rewrite Htm).
      by apply IH.
Qed.

Lemma wait_run (st : sys (S := S)) : ∃ acts, ends_as (wait cond on_expire timed st) (mrun X acts (at_ (cl st) WEnter [])).
Proof.
  unfold wait, check_now. destruct (look_run (cl st) WEnter [] (or_introl eq_refl)) as (a1 & lg1 & H1).
  destruct (cond (cl st)) as [[a c]|]; [exists a1; rewrite H1; by exists lg1|].
  destruct (park_run (cl st) lg1 (net st)) as (a2 & p2 & Hp2 & H2). destruct (go_run (net st) st p2 lg1 Hp2) as (a3 & H3).
  exists (a1 ++ a2 ++ a3). by rewrite !mrun_app, H1, H2.
Qed.
End scripted.

(** * What the client promises *)

(** C13: Nobody sleeps through news, on either of the client's monitors and however
    the threads' and the reader's steps interleave: when a waiter is asleep although
    what it waits for is there (a connection to accept, or its link's outcome), the
    reader is about to notify, which nothing keeps it from doing, and its next step
    wakes the waiter. *)
Theorem nobody_sleeps_through X `{!MonitorLaws X} m acts t w : let s := mrun X acts (mstart X m) in
  m_thr X s !! t = Some w → w_pc X w = WAsleep → is_Some (ready X (w_key X w) (m_reg X s)) →
  (m_rdr X s = RTold ∨ m_rdr X s = RFaulted) ∧
  m_thr X (reader_step X s) !! t = Some (mkW (w_key X w) (w_timed X w) WWoken).
Proof.
  intros s Ht Hp Hr. assert (minv X s) as Hi by (apply minv_reach; apply _).
  assert (m_rdr X s = RTold ∨ m_rdr X s = RFaulted) as Hrd.
  { destruct (mi_asleep X s Hi t w Ht Hp) as [Hn|?]; [|done]. rewrite Hn in Hr. by destruct Hr. }
  split; [done|].
  assert (wake X w = mkW (w_key X w) (w_timed X w) WWoken) as Hw by (destruct w; simpl in *; by subst).
  unfold reader_step. destruct Hrd as [Hrd|Hrd]; rewrite Hrd; simpl; rewrite lookup_fmap, Ht; simpl; by rewrite Hw.
Qed.

(** C14: Once the reader has faulted the links and gone, every [wait_connected]
    returns: whatever the other threads and methods do, three of a thread's turns
    (a turn is a step it takes while nobody else holds the mutex) bring it out, and
    the mutex is free again after two turns of whoever holds it, so that the turns
    come.  Nobody sleeps for ever on a connect whose transport has died. *)
Theorem connect_waits_end m acts : let s := mrun connecting_to acts (mstart connecting_to m) in
  m_rdr connecting_to s = REnd →
  (∀ t w later, m_thr connecting_to s !! t = Some w → Forall (λ a, calls connecting_to t a = false) later →
     (3 ≤ turns connecting_to t later s)%nat →
     ∃ w' r, m_thr connecting_to (mrun connecting_to later s) !! t = Some w' ∧ w_pc connecting_to w' = WDone r) ∧
  (∀ o later, m_lock connecting_to (mrun connecting_to later s) = Some o →
     m_lock connecting_to (mrun connecting_to (later ++ [MStep o; MStep o]) s) = None).
Proof.
  intros s He. assert (minv connecting_to s) as Hi by (apply minv_reach; apply _).
  assert (is_Some (shuts connecting_to)) as Hsh by by eexists.
  split.
  - intros t w later Ht Hall Htn. destruct (rank_run connecting_to Hsh later s t w Hi He Ht Hall) as (w' & Hw' & Hr).
    assert (w_pc _ w ≠ WAsleep) as Ha by (by eapply mi_ended).
    assert (w_pc _ w ≠ WSleep) as Hs by (eapply mi_faulted; [exact Hi|exact Hsh|by right|exact Ht]).
    assert (rank connecting_to (w_pc _ w) ≤ 3)%nat as Hle by (destruct (w_pc _ w); simpl; first [lia|congruence]).
    assert (rank connecting_to (w_pc _ w') = 0)%nat as H0 by lia.
    exists w'. destruct (w_pc _ w') eqn:Hp; try done. by eexists.
  - intros o later Hl. unfold mrun. rewrite foldl_app. apply (holder_unlocks connecting_to Hsh); [exact (minv_run connecting_to later s Hi)|exact (ended_run connecting_to later s He)|exact Hl].
Qed.

(** C29: An accept may sleep for ever on a client whose transport has died.  The
    reader stores [closed] and notifies the accepts' condition variable without
    ever taking their mutex, so that both can fall between a waiter's look at the
    flag and its sleep: on any queues without a connection for the listener there
    is such a run, at the end of which the reader is gone and, whatever is done
    afterwards, the thread sleeps until the condition variable wakes it for no
    reason. *)
Theorem accept_sleeps_on m t l : AcceptRegistry.pop l m = None →
  let s := mrun accepting [MCall t l false; MStep t; MStep t; MStep t; MEnd; MReader; MReader; MStep t]
             (mstart accepting m) in
  m_rdr accepting s = REnd ∧ m_closed accepting s = true ∧ m_lock accepting s = None ∧
  ∀ later, MSpurious t ∉ later →
    m_thr accepting (mrun accepting later s) !! t = Some (mkW l false WAsleep).
Proof.
  intros Hm s.
  assert (s = alone accepting t l false m true None REnd [] WAsleep) as ->.
  { assert (mact_step accepting (MCall t l false) (mstart accepting m) = alone accepting t l false m false None RRun [] WEnter) as H0
      by (unfold mstart; cbn [mact_step m_thr]; by rewrite lookup_empty).
    assert (ready accepting l m = None) as Hr by (simpl; by rewrite Hm).
    subst s. unfold mrun. cbn [foldl]. rewrite H0. cbn [mact_step]. rewrite !alone_step, Hr, alone_step.
    change (reader_step accepting (reader_step accepting _)) with (notify_all accepting (alone accepting t l false m true (Some t) REnd [] WSleep)).
    unfold notify_all, alone at 1. cbn [m_thr]. rewrite map_fmap_singleton.
    change (put_thr accepting _ _) with (alone accepting t l false m true (Some t) REnd [] WSleep). by rewrite alone_step. }
  split_and!; [done..|]. intros later.
  assert (∀ s, m_rdr accepting s = REnd → m_thr accepting s !! t = Some (mkW l false WAsleep) → MSpurious t ∉ later →
    m_thr accepting (mrun accepting later s) !! t = Some (mkW l false WAsleep)) as Hgo; [|by apply Hgo; [|apply lookup_insert_eq]].
  induction later as [|a later IH]; intros s He Ht Hn; [done|]. apply not_elem_of_cons in Hn as [Ha Hn]. simpl.
  apply IH; [by apply reader_ended| |done]. by apply asleep_elsewhere.
Qed.

(** What an event takes from a listener's queue, and what it brings. *)
Definition taken_from (l : Z) (e : happened accepting) : list AcceptInfo :=
  match e with
  | Took _ k r => if k =? l then option_list r else []
  | Meddled (TryAccept k | ForgetListener k) rs => if k =? l then omap (λ r, r) rs else []
  | _ => []
  end.
Definition brought_to (l : Z) (e : happened accepting) : list AcceptInfo :=
  match e with Told u => if fst u =? l then [snd u] else [] | _ => [] end.
Abbreviation queue_of l m := (default [] ((m : AcceptRegistry.t) !! (l : Z))).

Lemma pop_queue l m i m' : AcceptRegistry.pop l m = Some (i, m') →
  queue_of l m = i :: queue_of l m' ∧ ∀ k, k ≠ l → queue_of k m' = queue_of k m.
Proof.
  unfold AcceptRegistry.pop. destruct (m !! l) as [[|j q]|] eqn:Hm; try done. intros [= <- <-].
  rewrite lookup_insert_eq. split; [done|]. intros k Hk. by rewrite lookup_insert_ne.
Qed.

Lemma omap_somes {A} (q : list A) : omap (λ r, r) (Some <$> q) = q.
Proof. induction q as [|i q IH]; [done|]. cbn. by rewrite IH. Qed.

Lemma effect_queue l m e m' : effect accepting m e m' →
  taken_from l e ++ queue_of l m' = queue_of l m ++ brought_to l e.
Proof.
  destruct e as [[k i]|x k r|[k|k] rs|]; simpl.
  - intros ->. unfold AcceptRegistry.push. destruct (Z.eqb_spec k l) as [->|Hne]; simpl.
    + by rewrite lookup_insert_eq.
    + by rewrite lookup_insert_ne, app_nil_r.
  - rewrite app_nil_r. intros ([i q] & Hp & [= -> ->])%fmap_Some. simpl. destruct (pop_queue k m i q Hp) as [Hk Ho].
    destruct (Z.eqb_spec k l) as [->|Hne]; simpl; [by rewrite Hk|by rewrite Ho].
  - rewrite app_nil_r. intros [-> ->]. destruct (AcceptRegistry.pop k m) as [[i q]|] eqn:Hp; simpl.
    + destruct (pop_queue k m i q Hp) as [Hk Ho].
      destruct (Z.eqb_spec k l) as [->|Hne]; simpl; [by rewrite Hk|by rewrite Ho].
    + by destruct (k =? l).
  - rewrite app_nil_r. intros [-> ->]. unfold AcceptRegistry.forget. destruct (Z.eqb_spec k l) as [->|Hne].
    + rewrite lookup_delete_eq. simpl. rewrite app_nil_r. apply omap_somes.
    + by rewrite lookup_delete_ne.
  - by intros (f & ? & _).
Qed.

(** C15: Every connection is accepted once, in the order of arrival: however
    [wait_accept]s of any number of threads, [try_accept]s, closes of the listener
    and the reader's steps interleave, what has been taken out of a listener's
    queue, by whichever of them, and what is still in it are together what was in it
    and what the reader has queued since; and a wait that returns a connection took
    it from its listener's queue. *)
Theorem accepts_once m acts l : let s := mrun accepting acts (mstart accepting m) in
  mbind (taken_from l) (m_log accepting s) ++ queue_of l (m_reg accepting s) =
    queue_of l m ++ mbind (brought_to l) (m_log accepting s) ∧
  ∀ t w i, m_thr accepting s !! t = Some w → w_pc accepting w = WDone (R := res accepting) (Some i) →
    Took (X := accepting) t (w_key accepting w) (Some i) ∈ m_log accepting s.
Proof.
  intros s. split.
  - subst s. assert (mbind (taken_from l) (m_log accepting (mstart accepting m)) ++ queue_of l (m_reg accepting (mstart accepting m)) =
      queue_of l m ++ mbind (brought_to l) (m_log accepting (mstart accepting m))) as Hs by (simpl; by rewrite app_nil_r).
    revert Hs. generalize (mstart accepting m) as s. induction acts as [|a acts IH]; intros s Hs; [done|]. simpl. apply IH.
    destruct (mact_effect accepting a s) as [[-> ->]|(e & -> & He)]; [done|].
    rewrite !bind_app, app_assoc, <- Hs, <- !app_assoc. f_equal. simpl. rewrite !app_nil_r.
    by apply effect_queue.
  - intros t w i Ht Hd.
    by destruct (returned_run accepting acts _ (returned_start accepting m) t w _ Ht Hd) as [?|[?|?]].
Qed.

Section client.
Context `{!SerdeJson} {S : Type} `{!RhpEventSink S}.

Lemma handle_frame_registries b (st : sys (S := S)) :
  (handle_frame b st = st ∨ ∃ f, handle_frame b st = dispatch_push f st) ∨
  (conns (cl (handle_frame b st)) = conns (cl st) ∧ accepts (cl (handle_frame b st)) = accepts (cl st)).
Proof.
  unfold handle_frame. destruct (parse b) as [f|]; [|by left; left].
  destruct (Messages.id f) as [i|]; [|by left; right; exists f].
  destruct (pending (cl st) !! i); [by right|by left; right; exists f].
Qed.

Lemma accepting_viewed l :
  viewed (S := S) accepting l accepts (λ m, upd_accepts (λ _, m)) (accept_ready l) (accept_ready l).
Proof.
  split.
  - intros b st Hc. rewrite handle_frame_closed. split; [done|].
    destruct (handle_frame_registries b st) as [[->|(f & ->)]|[_ ->]]; [by left| |by left].
    destruct (dispatch_push_registries f st) as [_ ->]. unfold accepts_frame.
    repeat case_match; try (by left); right; by eexists (_, _).
  - done.
  - by intros m [].
  - intros c. unfold accept_ready. simpl. by destruct (AcceptRegistry.pop l (accepts c)) as [[i m]|].
  - intros c. unfold accept_ready. simpl. destruct (AcceptRegistry.pop l (accepts c)) as [[i m]|]; [by split|].
    split; [done|]. intros _. destruct (closed c); [by right|by left].
Qed.

Lemma connecting_viewed h :
  viewed (S := S) connecting_to h conns (λ m, upd_conns (λ _, m)) (conn_ready h) (conn_expired h).
Proof.
  assert (∀ c, upd_conns (λ _, conns c) c = c) as Hid by by intros [].
  split.
  - intros b st Hc. rewrite handle_frame_closed. split; [done|].
    destruct (handle_frame_registries b st) as [[->|(f & ->)]|[-> _]]; [by left| |by left].
    destruct (dispatch_push_registries f st) as [-> _]. unfold conns_frame.
    repeat case_match; try (by left); right; first [by eexists (MarkConnected _)|by eexists (MarkFailed _ _)].
  - done.
  - by intros m [].
  - intros c. unfold conn_ready. simpl. destruct (ConnRegistry.result h (conns c)); simpl; by rewrite ?Hid.
  - intros c. unfold conn_expired. simpl. destruct (ConnRegistry.result h (conns c)); simpl; rewrite ?Hid; by auto.
Qed.

(** C22: A thread that waits by itself, with the reader handling the frames of a
    script and the script's wakeups coming from the condition variable, can do
    exactly what [Client.v] says of that script, for both waits, timed or not: some
    interleaving of its steps with the reader's leaves the registry and [closed] as
    the script does and the thread returned with the script's result, or asleep with
    the mutex free where the script ends blocked. *)
Theorem wait_threads_client t k timed (st : sys (S := S)) :
  (∃ acts lg, mrun accepting acts (alone accepting t k timed (accepts (cl st)) (closed (cl st)) None
       (rdr_of (closed (cl st))) [] WEnter) =
     let (r, st') := wait_accept k timed st in
     alone accepting t k timed (accepts (cl st')) (closed (cl st')) None (rdr_of (closed (cl st'))) lg
       (match r with Some a => WDone (R := res accepting) a | None => WAsleep end)) ∧
  (∃ acts lg, mrun connecting_to acts (alone connecting_to t k timed (conns (cl st)) (closed (cl st)) None
       (rdr_of (closed (cl st))) [] WEnter) =
     let (r, st') := wait_connected k timed st in
     alone connecting_to t k timed (conns (cl st')) (closed (cl st')) None (rdr_of (closed (cl st'))) lg
       (match r with Some a => WDone (R := res connecting_to) a | None => WAsleep end)).
Proof.
  split.
  - destruct (wait_run accepting t k timed _ _ _ _ (accepting_viewed k) st) as (acts & lg & Hr). exists acts, lg.
    rewrite Hr. unfold wait_accept. by destruct (wait _ _ timed st) as [[]].
  - destruct (wait_run connecting_to t k timed _ _ _ _ (connecting_viewed k) st) as (acts & lg & Hr). exists acts, lg.
    rewrite Hr. unfold wait_connected. by destruct (wait _ _ timed st) as [[]].
Qed.
End client.

(** * The theorems at concrete inputs *)
Definition caller : AcceptInfo := mkAcceptInfo 8 (Some (lit "G8PZT")) (Some (lit "M0LTE-1")).
(** A thread goes to sleep in an accept. *)
Definition to_sleep {X} (t : nat) (k : Z) : list (mact X) := [MCall t k false; MStep t; MStep t; MStep t; MStep t].

Lemma nobody_sleeps_through_witness :
  let s := mrun accepting (to_sleep 1 7 ++ [MTell (X := accepting) (7, caller)]) (mstart accepting ∅) in
  (m_rdr accepting s = RTold ∨ m_rdr accepting s = RFaulted) ∧
  m_thr accepting (reader_step accepting s) !! 1%nat = Some (mkW (X := accepting) 7 false WWoken).
Proof.
  exact (nobody_sleeps_through accepting ∅ (to_sleep 1 7 ++ [MTell (X := accepting) (7, caller)]) 1 (mkW (X := accepting) 7 false WAsleep)
    eq_refl eq_refl (ex_intro _ _ eq_refl)).
Defined.

(** Two threads wait for a connect, one asleep and one about to sleep, when the
    transport ends. *)
Definition drop_run : list (mact connecting_to) :=
  to_sleep 1 9 ++ [MCall 2 9 false; MStep 2; MStep 2; MStep 2; MEnd; MStep 2; MReader; MReader].
Lemma connect_waits_end_witness : let s := mrun connecting_to drop_run (mstart connecting_to {[9 := Pending]}) in
  ∃ w' r, m_thr connecting_to (mrun connecting_to [MStep 2; MStep 1; MStep 1; MStep 2; MStep 1; MStep 1; MStep 1] s) !! 1%nat = Some w' ∧
    w_pc connecting_to w' = WDone r.
Proof.
  intros s. unshelve epose proof (connect_waits_end {[9 := Pending]} drop_run _) as [H _]; [vm_compute; reflexivity|].
  apply (H 1%nat (mkW (X := connecting_to) 9 false WWoken) [MStep 2; MStep 1; MStep 1; MStep 2; MStep 1; MStep 1; MStep 1]);
    [vm_compute; reflexivity|repeat constructor|vm_compute; lia].
Defined.

Lemma accept_sleeps_on_witness :
  let s := mrun accepting [MCall 1 7 false; MStep 1; MStep 1; MStep 1; MEnd; MReader; MReader; MStep 1] (mstart accepting ∅) in
  m_thr accepting (mrun accepting [MOther (X := accepting) (ForgetListener 7); MStep 1] s) !! 1%nat =
    Some (mkW (X := accepting) 7 false WAsleep).
Proof.
  unshelve epose proof (accept_sleeps_on ∅ 1 7 _) as (_ & _ & _ & H); [vm_compute; reflexivity|]. apply H.
  intros [?|[?|?%elem_of_nil]%elem_of_cons]%elem_of_cons; done.
Defined.

Lemma accepts_once_witness :
  let s := mrun accepting (to_sleep 1 7 ++ [MTell (X := accepting) (7, caller); MReader; MStep 1; MStep 1]) (mstart accepting ∅) in
  mbind (taken_from 7) (m_log accepting s) = [caller] ∧
  Took (X := accepting) 1 7 (Some caller) ∈ m_log accepting s.
Proof.
  destruct (accepts_once ∅ (to_sleep 1 7 ++ [MTell (X := accepting) (7, caller); MReader; MStep 1; MStep 1]) 7) as [H1 H2].
  split; [vm_compute; reflexivity|].
  apply (H2 1%nat (mkW (X := accepting) 7 false (WDone (R := res accepting) (Some caller))) caller); [vm_compute; reflexivity|reflexivity].
Defined.
