(* ===== verification/Sockets.v ===== *)
(** The kernel's stream socketpairs, as the interposer uses them.

    The kernel and libc are not part of the sources: their state and calls are
    the parameters of the class [Kernel], their documented behaviour the class
    [KernelLaws].  [written k fd] is all that [fd] has accepted since it was
    created, [unread k fd] what a read of [fd] would find; the other end of [fd]
    is [peer k fd].  [Pairs] is an instance. *)
From stdpp Require Import prelude gmap.
From Stdlib Require Import ZArith Lia.
From S2P Require Import Prelude Errors.
Local Open Scope Z_scope.

Class Kernel (K : Type) := {
  (** [send(fd, data, MSG_DONTWAIT | MSG_NOSIGNAL)]: a count or an errno. *)
  ksend : Z → list Z → K → result nat Z * K;
  (** [recv(fd, buf of n bytes, MSG_DONTWAIT)]; no bytes is end of file. *)
  krecv : Z → nat → K → result (list Z) Z * K;
  (** [shutdown(fd, SHUT_WR)]. *)
  kshutdown : Z → K → K;
  (** [socketpair(AF_UNIX, SOCK_STREAM, 0)]. *)
  ksocketpair : K → option (Z * Z) * K;
  kclose : Z → K → K;
  (** [setsockopt(fd, SOL_SOCKET, SO_SNDBUF, size)]. *)
  ksndbuf : Z → Z → K → K;
  (** [fcntl(fd, F_GETFL) & O_NONBLOCK]. *)
  knonblock : K → Z → bool;
  written : K → Z → list Z;
  unread : K → Z → list Z;
  shut : K → Z → bool;
  peer : K → Z → Z;
  (** One of the ends of [fd]'s pair is closed. *)
  gone : K → Z → bool;
  (** How many more bytes [fd] may accept before its buffer is full. *)
  space : K → Z → nat
}.

(** Nothing that concerns the outgoing direction of any descriptor changed. *)
Definition same_out `{!Kernel K} (k k' : K) : Prop :=
  ∀ fd, written k' fd = written k fd ∧ shut k' fd = shut k fd.
Definition same_pairs `{!Kernel K} (k k' : K) : Prop :=
  ∀ fd, peer k' fd = peer k fd ∧ gone k' fd = gone k fd.
Definition retry (e : Z) : Prop := e = EAGAIN ∨ e = EINTR.

Class KernelLaws K `{!Kernel K} : Prop := {
  ksend_ok fd d k n k' : d ≠ [] → ksend fd d k = (Ok n, k') →
    (1 ≤ n ≤ List.length d)%nat ∧ shut k fd = false ∧
    written k' fd = written k fd ++ take n d ∧ (∀ x, x ≠ fd → written k' x = written k x) ∧
    unread k' (peer k fd) = unread k (peer k fd) ++ take n d ∧
    (∀ x, x ≠ peer k fd → unread k' x = unread k x) ∧
    (∀ x, shut k' x = shut k x) ∧ same_pairs k k';
  ksend_space fd d k n k' : d ≠ [] → ksend fd d k = (Ok n, k') → (space k' fd < space k fd)%nat;
  ksend_err fd d k e k' : ksend fd d k = (Err e, k') →
    same_out k k' ∧ (∀ x, unread k' x = unread k x) ∧ same_pairs k k' ∧
    (retry e ∨ shut k fd = true ∨ gone k fd = true);
  (** An empty buffer has room. *)
  ksend_room fd d k : d ≠ [] → shut k fd = false → gone k fd = false →
    unread k (peer k fd) = [] → ∃ n k', ksend fd d k = (Ok n, k');
  ksend_shut fd d k : shut k fd = true → fst (ksend fd d k) = Err EPIPE;
  krecv_ok fd n k b k' : (0 < n)%nat → krecv fd n k = (Ok b, k') →
    (List.length b ≤ n)%nat ∧ unread k fd = b ++ unread k' fd ∧ (b = [] → unread k fd = []) ∧
    (∀ x, x ≠ fd → unread k' x = unread k x) ∧ same_out k k' ∧ same_pairs k k';
  krecv_err fd n k e k' : (0 < n)%nat → krecv fd n k = (Err e, k') →
    unread k fd = [] ∧ (∀ x, unread k' x = unread k x) ∧ same_out k k' ∧ same_pairs k k';
  kshutdown_ok fd k : shut (kshutdown fd k) fd = true ∧
    (∀ x, x ≠ fd → shut (kshutdown fd k) x = shut k x) ∧
    (∀ x, written (kshutdown fd k) x = written k x) ∧
    (∀ x, unread (kshutdown fd k) x = unread k x) ∧ same_pairs k (kshutdown fd k);
  (** The size of a buffer says nothing of what is in it. *)
  ksndbuf_ok fd n k : same_out k (ksndbuf fd n k) ∧
    (∀ x, unread (ksndbuf fd n k) x = unread k x) ∧ same_pairs k (ksndbuf fd n k)
}.

(** * Descriptor numbers

    Which numbers are open, for the code that must not use one that is not: the
    kernel gives out numbers that are free, and may give a closed one again. *)
Class KernelFds (K : Type) := kopen : K → Z → bool.

Definition same_open `{!KernelFds K} (k k' : K) : Prop := ∀ fd, kopen k' fd = kopen k fd.

Class KernelFdsLaws K `{!Kernel K, !KernelFds K} : Prop := {
  ksend_open fd d k : same_open k (snd (ksend fd d k));
  krecv_open fd n k : same_open k (snd (krecv fd n k));
  kshutdown_open fd k : same_open k (kshutdown fd k);
  ksndbuf_open fd n k : same_open k (ksndbuf fd n k);
  ksocketpair_open k r k' : ksocketpair k = (r, k') →
    match r with
    | Some (a, b) => 0 ≤ a ∧ 0 ≤ b ∧ a ≠ b ∧ kopen k a = false ∧ kopen k b = false ∧
        ∀ x, kopen k' x = bool_decide (x = a) || bool_decide (x = b) || kopen k x
    | None => same_open k k'
    end;
  kclose_open fd k x : kopen (kclose fd k) x = negb (bool_decide (x = fd)) && kopen k x
}.

(** * An instance: socketpairs with a bounded buffer. *)
Module Pairs.

Record kernel := mkKernel {
  k_written : gmap Z (list Z); k_unread : gmap Z (list Z); k_shut : gset Z;
  k_peer : gmap Z Z; k_cap : gmap Z nat; k_nonblock : gset Z; k_open : gset Z; k_next : Z }.

Definition empty : kernel := mkKernel ∅ ∅ ∅ ∅ ∅ ∅ ∅ 3.

(** A send takes what fits the other end's buffer, or fails. *)
Definition send (fd : Z) (d : list Z) (k : kernel) : result nat Z * kernel :=
  if decide (fd ∈ k_shut k) then (Err EPIPE, k) else
  match k_peer k !! fd with
  | None => (Err EBADF, k)
  | Some p =>
    let n := Nat.min (Nat.max 1 (k_cap k !!! fd) - List.length (k_unread k !!! p)) (List.length d) in
    if decide (n = 0%nat) then (Err EAGAIN, k)
    else (Ok n, mkKernel (<[fd := k_written k !!! fd ++ take n d]> (k_written k))
                  (<[p := k_unread k !!! p ++ take n d]> (k_unread k))
                  (k_shut k) (k_peer k) (k_cap k) (k_nonblock k) (k_open k) (k_next k))
  end.

Definition recv (fd : Z) (n : nat) (k : kernel) : result (list Z) Z * kernel :=
  match k_unread k !!! fd with
  | [] => (if decide (k_peer k !!! fd ∈ k_shut k) then Ok [] else Err EAGAIN, k)
  | u => (Ok (take n u), mkKernel (k_written k) (<[fd := drop n u]> (k_unread k))
            (k_shut k) (k_peer k) (k_cap k) (k_nonblock k) (k_open k) (k_next k))
  end.

(** What the application's [fcntl] does. *)
Definition set_nonblock (fd : Z) (k : kernel) : kernel :=
  mkKernel (k_written k) (k_unread k) (k_shut k) (k_peer k) (k_cap k) ({[fd]} ∪ k_nonblock k)
    (k_open k) (k_next k).

(** The numbers are handed out in order; none is, when the next two are taken. *)
Definition socketpair (k : kernel) : option (Z * Z) * kernel :=
  let (a, b) := (k_next k, k_next k + 1) in
  if decide (a < 0 ∨ a ∈ k_open k ∨ b ∈ k_open k) then (None, k) else
  (Some (a, b), mkKernel (k_written k) (k_unread k) (k_shut k)
    (<[a := b]> (<[b := a]> (k_peer k))) (<[a := 4096%nat]> (<[b := 4096%nat]> (k_cap k)))
    (k_nonblock k) ({[a]} ∪ ({[b]} ∪ k_open k)) (b + 1)).

#[export] Instance kernel_pairs : Kernel kernel := {|
  ksend := send; krecv := recv;
  kshutdown fd k := mkKernel (k_written k) (k_unread k) ({[fd]} ∪ k_shut k) (k_peer k) (k_cap k)
    (k_nonblock k) (k_open k) (k_next k);
  ksocketpair := socketpair;
  kclose fd k := mkKernel (k_written k) (k_unread k) (k_shut k)
    (delete fd (delete (k_peer k !!! fd) (k_peer k)))
    (k_cap k) (k_nonblock k) (k_open k ∖ {[fd]}) (k_next k);
  ksndbuf fd n k := mkKernel (k_written k) (k_unread k) (k_shut k) (k_peer k)
    (<[fd := Z.to_nat n]> (k_cap k)) (k_nonblock k) (k_open k) (k_next k);
  knonblock k fd := bool_decide (fd ∈ k_nonblock k);
  written k fd := k_written k !!! fd; unread k fd := k_unread k !!! fd;
  shut k fd := bool_decide (fd ∈ k_shut k); peer k fd := k_peer k !!! fd;
  gone k fd := bool_decide (k_peer k !! fd = None);
  space k fd := (Nat.max 1 (k_cap k !!! fd) - List.length (k_unread k !!! (k_peer k !!! fd)))%nat |}.

#[export] Instance laws_pairs : KernelLaws kernel.
Proof.
  split; unfold same_out, same_pairs, retry; simpl.
  - intros fd d k n k' Hd. unfold send. case_decide as Hs; [done|].
    destruct (k_peer k !! fd) as [p|] eqn:Hp; [|done]. case_decide; [done|]. intros [= <- <-]. simpl.
    rewrite (lookup_total_correct (k_peer k) fd p) by done.
    split_and!; try lia; try done.
    + by rewrite bool_decide_false.
    + apply lookup_total_insert_eq.
    + intros x Hx. by apply lookup_total_insert_ne.
    + apply lookup_total_insert_eq.
    + intros x Hx. by apply lookup_total_insert_ne.
  - intros fd d k n k' Hd. unfold send. case_decide; [done|].
    destruct (k_peer k !! fd) as [p|] eqn:Hp; [|done]. case_decide; [done|]. intros [= <- <-]. simpl.
    rewrite (lookup_total_correct (k_peer k) fd p) by done.
    rewrite lookup_total_insert_eq, length_app, length_take. lia.
  - intros fd d k e k'. unfold send. case_decide as Hs.
    { intros [= <- <-]. split_and!; try done. right; left. by apply bool_decide_true. }
    destruct (k_peer k !! fd) as [p|] eqn:Hp.
    + case_decide; [|done]. intros [= <- <-]. split_and!; try done. by left; left.
    + intros [= <- <-]. split_and!; try done. right; right. by apply bool_decide_true.
  - intros fd d k Hd Hs%bool_decide_eq_false Hg%bool_decide_eq_false Hu. unfold send.
    rewrite decide_False by done. destruct (k_peer k !! fd) as [p|] eqn:Hp; [|done].
    rewrite (lookup_total_correct (k_peer k) fd p) in Hu by done. rewrite Hu.
    rewrite decide_False; [by do 2 eexists|]. destruct d; [done|]. simpl. lia.
  - intros fd d k Hs%bool_decide_eq_true. unfold send. by rewrite decide_True.
  - intros fd n k b k' Hn. unfold recv. destruct (k_unread k !!! fd) as [|c u] eqn:Hu.
    + case_decide; [|done]. intros [= <- <-]. split_and!; try done; simpl; lia.
    + intros [= <- <-]. simpl. rewrite lookup_total_insert_eq. split_and!; try done.
      * rewrite length_take. lia.
      * by rewrite take_drop.
      * by destruct n; [lia|].
      * intros x Hx. by apply lookup_total_insert_ne.
  - intros fd n k e k' Hn. unfold recv. destruct (k_unread k !!! fd) as [|c u] eqn:Hu; [|done].
    case_decide; [done|]. by intros [= _ <-].
  - intros fd k. split_and!; try done.
    + by apply bool_decide_true, elem_of_union_l, elem_of_singleton.
    + intros x Hx. apply bool_decide_ext. rewrite elem_of_union, elem_of_singleton.
      split; [by intros [?|?]|by right].
  - done.
Qed.

#[export] Instance fds_pairs : KernelFds kernel := λ k fd, bool_decide (fd ∈ k_open k).

#[export] Instance fds_laws_pairs : KernelFdsLaws kernel.
Proof.
  split; unfold same_open, kopen, fds_pairs; simpl.
  - intros fd d k x. unfold send. case_decide; [done|].
    destruct (k_peer k !! fd); [|done]. by case_decide.
  - intros fd n k x. unfold recv. by destruct (k_unread k !!! fd).
  - done.
  - done.
  - intros k r k'. unfold socketpair. case_decide as Ho; intros [= <- <-]; [done|].
    assert (¬ k_next k < 0 ∧ ¬ (k_next k ∈ k_open k ∨ k_next k + 1 ∈ k_open k)) as [Ha Ho'] by tauto.
    clear Ho. split_and!; [lia|lia|lia|apply bool_decide_false; tauto..|]. intros x. simpl.
    rewrite <- !bool_decide_or. apply bool_decide_ext. rewrite !elem_of_union, !elem_of_singleton; tauto.
  - intros fd k x. rewrite <- bool_decide_not, <- bool_decide_and.
    apply bool_decide_ext. rewrite elem_of_difference, elem_of_singleton; tauto.
Qed.
End Pairs.
