(* ===== verification/RecvPump.v ===== *)
(** [crates/ax25-interpose/src/state.rs], the receive pump: bytes the reader
    thread delivers go into the application's socketpair, what does not fit is
    kept and flushed later, and bytes for a handle whose descriptor is not yet
    registered are staged.

    Each method runs under the pump's mutex: it is a function of the pump's state
    and the kernel's. *)
From stdpp Require Import prelude gmap.
From Stdlib Require Import ZArith Lia.
From S2P Require Import Prelude Errors Sockets.
Local Open Scope Z_scope.

Record PendingRecv := mkPendingRecv {
  inner_fd : Z; buf : list Z; eof : bool; eof_done : bool }.
Definition EARLY_STAGE_CAP : Z := 256 * 1024.

(** [RecvPump]'s mutex-protected [PumpState]. *)
Record PumpState := mkPumpState {
  handles : gmap Z PendingRecv; early : gmap Z (list Z) }.
Definition pump_new : PumpState := mkPumpState ∅ ∅.

Inductive WriteOutcome := Wrote (n : nat) | WouldBlock | Fatal.

Section pump.
Context {K : Type} `{!Kernel K}.
(** [VecDeque::as_slices().0]: how much of a queue its first slice holds is up
    to the queue's layout. *)
Variable front_len : list Z → nat.

Definition nb_write (fd : Z) (data : list Z) (k : K) : WriteOutcome * K :=
  match data with
  | [] => (Wrote 0, k)
  | _ =>
    match ksend fd data k with
    | (Ok n, k) => (Wrote n, k)
    | (Err e, k) =>
      (if (e =? EAGAIN) || (e =? EINTR) then WouldBlock else Fatal, k)
    end
  end.

Definition register (handle fd : Z) (st : PumpState) : PumpState :=
  let staged := default [] (early st !! handle) in
  mkPumpState (<[handle := mkPendingRecv fd staged false false]> (handles st))
              (delete handle (early st)).

Definition unregister (handle : Z) (st : PumpState) : PumpState :=
  mkPumpState (delete handle (handles st)) (delete handle (early st)).

Definition set_buf (b : list Z) (e : PendingRecv) : PendingRecv :=
  mkPendingRecv (inner_fd e) b (eof e) (eof_done e).

(** Staging a push that comes before its handle's registration. *)
Definition stage (handle : Z) (data : list Z) (st : PumpState) : PumpState :=
  let q := default [] (early st !! handle) in
  let room := (Z.to_nat EARLY_STAGE_CAP - List.length q)%nat in
  mkPumpState (handles st) (<[handle := q ++ take room data]> (early st)).

Definition push (handle : Z) (data : list Z) (st : PumpState) (k : K) : PumpState * K :=
  match data with
  | [] => (st, k)
  | _ =>
    match handles st !! handle with
    | None => (stage handle data st, k)
    | Some e =>
      let put e := mkPumpState (<[handle := e]> (handles st)) (early st) in
      match buf e with
      | [] =>
        match nb_write (inner_fd e) data k with
        | (Wrote n, k) =>
          (if decide (n < List.length data)%nat then put (set_buf (drop n data) e) else st, k)
        | (WouldBlock, k) => (put (set_buf data e), k)
        | (Fatal, k) => (mkPumpState (delete handle (handles st)) (early st), k)
        end
      | b => (put (set_buf (b ++ data) e), k)
      end
    end
  end.

Definition set_eof (e : PendingRecv) : PendingRecv :=
  mkPendingRecv (inner_fd e) (buf e) true (eof_done e).
Definition mark_eof (handle : Z) (st : PumpState) : PumpState :=
  mkPumpState (alter set_eof handle (handles st)) (early st).
Definition shutdown_all (st : PumpState) : PumpState :=
  mkPumpState (set_eof <$> handles st) (early st).

(** The [while] loop over one entry's backlog, with the queue's length as fuel;
    [true]: the application's end is gone. *)
Fixpoint drain_buf (fuel : nat) (fd : Z) (b : list Z) (k : K) : bool * list Z * K :=
  match fuel, b with
  | S fuel, _ :: _ =>
    match nb_write fd (take (front_len b) b) k with
    | (Wrote n, k) => drain_buf fuel fd (drop n b) k
    | (WouldBlock, k) => (false, b, k)
    | (Fatal, k) => (true, b, k)
    end
  | _, _ => (false, b, k)
  end.

(** The body of the pass for one entry: the entry (or [None] when its end is
    gone) and whether it is blocked. *)
Definition drain_entry (e : PendingRecv) (k : K) : option PendingRecv * bool * K :=
  match drain_buf (List.length (buf e)) (inner_fd e) (buf e) k with
  | (true, _, k) => (None, false, k)
  | (false, [], k) =>
    if eof e && negb (eof_done e)
    then (Some (mkPendingRecv (inner_fd e) [] (eof e) true), false, kshutdown (inner_fd e) k)
    else (Some (set_buf [] e), false, k)
  | (false, b, k) => (Some (set_buf b e), true, k)
  end.

(** The pass over the map, in the map's order; dead entries are removed. *)
Fixpoint drain_entries (es : list (Z * PendingRecv)) (hs : gmap Z PendingRecv) (k : K)
    : gmap Z PendingRecv * list Z * K :=
  match es with
  | [] => (hs, [], k)
  | (h, e) :: es =>
    let '(r, blocked, k) := drain_entry e k in
    let hs := match r with Some e => <[h := e]> hs | None => delete h hs end in
    let '(hs, fds, k) := drain_entries es hs k in
    (hs, (if blocked then [inner_fd e] else []) ++ fds, k)
  end.
Definition drain_pass (st : PumpState) (k : K) : PumpState * list Z * K :=
  let '(hs, fds, k) := drain_entries (map_to_list (handles st)) (handles st) k in
  (mkPumpState hs (early st), fds, k).

Definition entry_work (e : PendingRecv) : bool :=
  negb (bool_decide (buf e = [])) || (eof e && negb (eof_done e)).
Definition has_work (st : PumpState) : bool :=
  existsb (λ x, entry_work x.2) (map_to_list (handles st)).

(** One round of the flusher thread: it parks unless there is work. *)
Definition flusher_round (st : PumpState) (k : K) : PumpState * K :=
  if has_work st then let '(st, _, k) := drain_pass st k in (st, k) else (st, k).

(** * Executions

    What the threads do to the pump, and what the rest of the system (the
    application reading its end, other descriptors) does to the kernel. *)
Inductive pump_op :=
| Register (handle fd : Z) | Unregister (handle : Z) | Push (handle : Z) (data : list Z)
| MarkEof (handle : Z) | ShutdownAll | Flush | Other.

Definition pump_step (op : pump_op) (st : PumpState) (k : K) : PumpState * K :=
  match op with
  | Register h fd => (register h fd st, k)
  | Unregister h => (unregister h st, k)
  | Push h d => push h d st k
  | MarkEof h => (mark_eof h st, k)
  | ShutdownAll => (shutdown_all st, k)
  | Flush => flusher_round st k
  | Other => (st, k)
  end.

(** An execution; a step of the environment leaves what the interposer's
    descriptors have accepted alone, and closed ends stay closed. *)
Inductive run : list pump_op → PumpState * K → PumpState * K → Prop :=
| run_nil s : run [] s s
| run_env k k' st ops s : same_out k k' →
    (∀ fd, gone k fd = true → gone k' fd = true) → run ops (st, k') s → run (Other :: ops) (st, k) s
| run_op op st k ops s : run ops (pump_step op st k) s → run (op :: ops) (st, k) s.

End pump.
