(* ===== verification/RecvSpec.v ===== *)
(** What the receive pump of [RecvPump.v] promises: while a handle is registered no
    byte of it is lost, repeated or reordered between the reader thread and the
    application's socketpair, and the flusher leaves no work that could be done. *)
From stdpp Require Import prelude gmap.
From Stdlib Require Import ZArith Lia.
From S2P Require Import Prelude Errors Sockets RecvPump.
Local Open Scope Z_scope.

Section spec.
Context {K : Type} `{!Kernel K, !KernelLaws K} (front_len : list Z → nat).
Hypothesis front_len_ok : ∀ b, b ≠ [] → (1 ≤ front_len b ≤ List.length b)%nat.
Implicit Types (k : K) (e : PendingRecv).

(** What a write, a drain or a pass may do to the descriptors other than [fd]. *)
Definition only_out (fd : Z) k k' : Prop :=
  (∀ x, x ≠ fd → written k' x = written k x ∧ shut k' x = shut k x) ∧
  (∀ x, gone k' x = gone k x).

Lemma only_out_refl fd k : only_out fd k k.
Proof. by split. Qed.

Lemma only_out_trans fd k1 k2 k3 : only_out fd k1 k2 → only_out fd k2 k3 → only_out fd k1 k3.
Proof.
  intros [H1 H2] [H3 H4]. split; [|congruence].
  intros x Hx. destruct (H1 x Hx), (H3 x Hx). split; congruence.
Qed.

Lemma nb_write_spec fd d k o k' : d ≠ [] → nb_write fd d k = (o, k') →
  only_out fd k k' ∧ shut k' fd = shut k fd ∧
  match o with
  | Wrote n => (1 ≤ n ≤ List.length d)%nat ∧ written k' fd = written k fd ++ take n d ∧ shut k fd = false
  | WouldBlock => written k' fd = written k fd ∧ shut k fd = false ∧
                  ∃ err, ksend fd d k = (Err err, k') ∧ retry err
  | Fatal => written k' fd = written k fd ∧ (shut k fd = true ∨ gone k fd = true)
  end.
Proof.
  intros Hd. destruct d as [|c d]; [done|]. unfold nb_write.
  destruct (ksend fd (c :: d) k) as [[n|e] k1] eqn:Hs; intros [= <- <-].
  - apply ksend_ok in Hs as (Hn & Hsh & Hw & Hw' & _ & _ & Hsh' & Hp); [|done].
    split; [split; [intros x Hx; split; auto|apply Hp]|]. split; [auto|].
    split; [lia|]. split; [exact Hw|exact Hsh].
  - pose proof (ksend_err _ _ _ _ _ Hs) as (Ho & _ & Hp & Hf).
    split; [split; [intros x _; apply Ho|apply Hp]|]. split; [apply Ho|].
    assert (shut k fd = true → e = EPIPE) as Hpipe.
    { intros Hsh. apply (ksend_shut fd (c :: d)) in Hsh. rewrite Hs in Hsh. simpl in Hsh. congruence. }
    destruct (Z.eqb_spec e EAGAIN) as [->|Ha]; [|destruct (Z.eqb_spec e EINTR) as [->|Hi]]; simpl.
    + split_and!; [apply Ho| |exists EAGAIN; split; [done|by left]].
      destruct (shut k fd); [by specialize (Hpipe eq_refl)|done].
    + split_and!; [apply Ho| |exists EINTR; split; [done|by right]].
      destruct (shut k fd); [by specialize (Hpipe eq_refl)|done].
    + split; [apply Ho|]. by destruct Hf as [[?|?]|?].
Qed.

(** The loop terminates: the fuel, the length of the queue, is enough, every
    write that does not end it taking at least a byte. *)
Lemma drain_buf_spec fuel fd b k dead b' k' : (List.length b ≤ fuel)%nat →
  drain_buf front_len fuel fd b k = (dead, b', k') →
  only_out fd k k' ∧ shut k' fd = shut k fd ∧ written k' fd ++ b' = written k fd ++ b ∧
  (dead = true → shut k fd = true ∨ gone k fd = true) ∧
  (dead = false → b' ≠ [] → ∃ k1 err, ksend fd (take (front_len b') b') k1 = (Err err, k') ∧ retry err) ∧
  (shut k fd = true → dead = false → b = []).
Proof.
  revert b k. induction fuel as [|fuel IH]; intros b k Hl.
  { destruct b; [|simpl in Hl; lia]. intros [= <- <- <-]. by split_and!. }
  destruct b as [|c b]; [intros [= <- <- <-]; by split_and!|].
  cbn [drain_buf]. set (l := c :: b) in *. pose proof (front_len_ok l ltac:(done)) as Hfl.
  assert (take (front_len l) l ≠ []) as Hne.
  { intros He%(f_equal List.length). rewrite length_take in He. simpl in He. unfold l in *. simpl in *. lia. }
  destruct (nb_write fd (take (front_len l) l) k) as [o k1] eqn:Hw.
  destruct (nb_write_spec _ _ _ _ _ Hne Hw) as (Ho & Hs & Hcase).
  destruct o as [n| |].
  - destruct Hcase as (Hn & Hwr & Hsf). rewrite length_take in Hn. intros Hd.
    destruct (IH (drop n l) k1) as (Ho' & Hs' & Hw' & Hd' & Hb' & He'); [rewrite length_drop; lia|done|].
    split_and!; [by eapply only_out_trans|congruence| | |done|congruence].
    + rewrite Hw', Hwr, <- app_assoc. f_equal. rewrite take_take, Nat.min_l by lia. apply take_drop.
    + intros Hdd. destruct Ho as [_ Hg]. rewrite <- Hs, <- Hg. auto.
  - destruct Hcase as (Hwr & Hsf & e & He & Hr). intros [= <- <- <-].
    split_and!; try done; [by rewrite Hwr| |congruence]. intros _ _. by exists k, e.
  - destruct Hcase as [Hwr Hsf]. intros [= <- <- <-]. split_and!; try done. by rewrite Hwr.
Qed.

(** * One entry of a pass *)

(** After a pass over an entry either the kernel has everything, and the end
    of file if it is due, or it refused the next piece for want of room, and the
    rest is kept in order; the entry is dropped only when an end of the pair is
    closed or was shut down. *)
Theorem drain_entry_progress e k r blocked k' :
  drain_entry front_len e k = (r, blocked, k') →
  match r with
  | None => shut k (inner_fd e) = true ∨ gone k (inner_fd e) = true
  | Some e' =>
    inner_fd e' = inner_fd e ∧ eof e' = eof e ∧
    written k' (inner_fd e) ++ buf e' = written k (inner_fd e) ++ buf e ∧
    if blocked then
      buf e' ≠ [] ∧ eof_done e' = eof_done e ∧ ∃ k1 err,
        ksend (inner_fd e) (take (front_len (buf e')) (buf e')) k1 = (Err err, k') ∧ retry err
    else buf e' = [] ∧ (eof e = true → eof_done e' = true) ∧
         (eof e = true → eof_done e = false → shut k' (inner_fd e) = true)
  end.
Proof.
  unfold drain_entry.
  destruct (drain_buf front_len (List.length (buf e)) (inner_fd e) (buf e) k) as [[dead b'] k1] eqn:Hd.
  destruct (drain_buf_spec _ _ _ _ _ _ _ (Nat.le_refl _) Hd) as (_ & Hs & Hw & Hdead & Hblk & _).
  destruct dead; [intros [= <- <- <-]; auto|]. destruct b' as [|c b'].
  - destruct (eof e && negb (eof_done e)) eqn:Hb; intros [= <- <- <-]; simpl;
      rewrite ?app_nil_r in *.
    + destruct (kshutdown_ok (inner_fd e) k1) as (H1 & _ & H3 & _). rewrite H3.
      by split_and!.
    + split_and!; try done; intros He; rewrite He in Hb; simpl in Hb; by destruct (eof_done e).
  - intros [= <- <- <-]. simpl. split_and!; try done. by apply Hblk.
Qed.

(** * A round of the flusher *)

(** What the flusher leaves of an entry: the kernel has everything, and the end
    of file if it is due; or the application has bytes to read before there is
    room for more; or an end of the pair is closed. *)
Definition flushed k e : Prop :=
  (buf e = [] ∧ (eof e = true → eof_done e = true)) ∨
  unread k (peer k (inner_fd e)) ≠ [] ∨ gone k (inner_fd e) = true.

(** Sending and shutting down take nothing from what can be read. *)
Definition grows k k' : Prop := same_pairs k k' ∧ ∀ x, unread k x ≠ [] → unread k' x ≠ [].

#[local] Instance grows_preorder : PreOrder grows.
Proof.
  split; [by intros k|]. intros k1 k2 k3 [P12 U12] [P23 U23]. split; [|by auto].
  intros x. destruct (P12 x), (P23 x). split; congruence.
Qed.

Lemma flushed_grows k k' e : grows k k' → flushed k e → flushed k' e.
Proof.
  intros [Hp Hu] Hf. destruct (Hp (inner_fd e)) as [E1 E2]. unfold flushed. rewrite E1, E2.
  destruct Hf as [?|[?|?]]; [by left|right; left; by apply Hu|by do 2 right].
Qed.

Lemma nb_write_grows fd d k : grows k (snd (nb_write fd d k)).
Proof.
  unfold nb_write. destruct d as [|c d]; [reflexivity|].
  destruct (ksend fd (c :: d) k) as [[n|err] k'] eqn:Hk; simpl.
  - destruct (ksend_ok fd (c :: d) k n k' ltac:(done) Hk) as (_ & _ & _ & _ & Hu & Ho & _ & Hp).
    split; [done|]. intros x Hx. destruct (decide (x = peer k fd)) as [->|Hne]; [|by rewrite Ho].
    rewrite Hu. by destruct (unread k (peer k fd)).
  - destruct (ksend_err _ _ _ _ _ Hk) as (_ & Hu & Hp & _). split; [done|]. intros x. by rewrite Hu.
Qed.

Lemma drain_buf_grows fuel fd b k : grows k (snd (drain_buf front_len fuel fd b k)).
Proof.
  revert b k. induction fuel as [|fuel IH]; intros b k; [reflexivity|].
  destruct b as [|c b]; [reflexivity|]. cbn [drain_buf].
  pose proof (nb_write_grows fd (take (front_len (c :: b)) (c :: b)) k) as H1.
  destruct (nb_write fd _ k) as [[n| |] k1]; simpl in *; [|done..]. etrans; [exact H1|apply IH].
Qed.

Lemma drain_entry_grows e k : grows k (snd (drain_entry front_len e k)).
Proof.
  unfold drain_entry. pose proof (drain_buf_grows (List.length (buf e)) (inner_fd e) (buf e) k) as H1.
  destruct (drain_buf _ _ _ _ k) as [[[] [|c b]] k1]; simpl in *; [done..| |done].
  destruct (eof e && negb (eof_done e)); simpl; [|done]. etrans; [exact H1|].
  destruct (kshutdown_ok (inner_fd e) k1) as (_ & _ & _ & Hu & Hp). split; [done|]. intros x. by rewrite Hu.
Qed.

(** A refusal for want of room means that the other end has bytes to read. *)
Lemma refused_full fd d k err k' : d ≠ [] → ksend fd d k = (Err err, k') → retry err →
  unread k' (peer k' fd) ≠ [] ∨ gone k' fd = true.
Proof.
  intros Hd Hk Hr. destruct (ksend_err _ _ _ _ _ Hk) as (_ & Hu & Hp & _).
  destruct (Hp fd) as [-> ->]. rewrite Hu.
  destruct (gone k fd) eqn:Hg; [by right|left]. intros Hun.
  destruct (shut k fd) eqn:Hs.
  - pose proof (ksend_shut fd d k Hs) as Hpipe. rewrite Hk in Hpipe. simpl in Hpipe.
    injection Hpipe as ->. by destruct Hr.
  - destruct (ksend_room fd d k Hd Hs Hg Hun) as (n & k2 & Hok). congruence.
Qed.

Lemma drain_entry_flushed e k e' blocked k' :
  drain_entry front_len e k = (Some e', blocked, k') → flushed k' e'.
Proof.
  intros Hd. apply drain_entry_progress in Hd as (Hf & He & _ & Hb). unfold flushed. rewrite Hf, He.
  destruct blocked; [|left; tauto]. right. destruct Hb as (Hne & _ & k1 & err & Hk & Hr).
  eapply refused_full; [|exact Hk|done]. intros Ht%(f_equal List.length).
  pose proof (front_len_ok _ Hne). rewrite length_take in Ht. simpl in Ht. lia.
Qed.

Lemma drain_entries_notin es hs k x : x ∉ es.*1 → (drain_entries front_len es hs k).1.1 !! x = hs !! x.
Proof.
  revert hs k. induction es as [|[h e] es IH]; intros hs k Hx; [done|]. apply not_elem_of_cons in Hx as [Hne Hx].
  cbn [drain_entries]. destruct (drain_entry front_len e k) as [[r blocked] k1].
  specialize (IH (match r with Some e => <[h := e]> hs | None => delete h hs end) k1 Hx).
  destruct (drain_entries front_len es _ k1) as [[hs1 fds] k2]. simpl in *. rewrite IH.
  destruct r; [by rewrite lookup_insert_ne|by rewrite lookup_delete_ne].
Qed.

Lemma drain_entries_grows es hs k : grows k (drain_entries front_len es hs k).2.
Proof.
  revert hs k. induction es as [|[h e] es IH]; intros hs k; [reflexivity|]. cbn [drain_entries].
  pose proof (drain_entry_grows e k) as H1. destruct (drain_entry front_len e k) as [[r blocked] k1].
  specialize (IH (match r with Some e => <[h := e]> hs | None => delete h hs end) k1).
  destruct (drain_entries front_len es _ k1) as [[hs1 fds] k2]. simpl in *. by etrans.
Qed.

Lemma drain_entries_flushed es hs k x e : NoDup es.*1 → x ∈ es.*1 →
  (drain_entries front_len es hs k).1.1 !! x = Some e → flushed (drain_entries front_len es hs k).2 e.
Proof.
  revert hs k. induction es as [|[h e0] es IH]; intros hs k Hnd Hx; [by apply not_elem_of_nil in Hx|].
  apply NoDup_cons in Hnd as [Hn Hnd]. apply elem_of_cons in Hx. cbn [drain_entries].
  destruct (drain_entry front_len e0 k) as [[r blocked] k1] eqn:Hd.
  set (hs1 := match r with Some e => <[h := e]> hs | None => delete h hs end).
  pose proof (drain_entries_notin es hs1 k1 x) as Hni. pose proof (drain_entries_grows es hs1 k1) as Hg.
  specialize (IH hs1 k1 Hnd). destruct (drain_entries front_len es hs1 k1) as [[hs2 fds] k2]. simpl in *.
  intros He. destruct Hx as [->|Hx]; [|by apply IH]. rewrite (Hni Hn) in He. unfold hs1 in He.
  destruct r as [e1|]; [|by rewrite lookup_delete_eq in He].
  rewrite lookup_insert_eq in He. injection He as ->. eapply flushed_grows, drain_entry_flushed; [done|exact Hd].
Qed.

(** A round of the flusher leaves no entry with work that could be done. *)
Lemma flusher_round_flushed st k x e :
  handles (flusher_round front_len st k).1 !! x = Some e → flushed (flusher_round front_len st k).2 e.
Proof.
  unfold flusher_round, drain_pass. destruct (has_work st) eqn:Hw; simpl.
  - pose proof (drain_entries_flushed (map_to_list (handles st)) (handles st) k x e) as Hf.
    pose proof (drain_entries_notin (map_to_list (handles st)) (handles st) k x) as Hni.
    destruct (drain_entries _ _ (handles st) k) as [[hs fds] k2]. simpl in *. intros He.
    apply Hf; [apply NoDup_fst_map_to_list| |done].
    destruct (decide (x ∈ (map_to_list (handles st)).*1)) as [?|Hx]; [done|]. rewrite (Hni Hx) in He.
    apply list_elem_of_fmap. exists (x, e). split; [done|]. by apply elem_of_map_to_list.
  - intros He. left. assert (entry_work e = false) as Hf.
    { destruct (entry_work e) eqn:Hf; [|done]. rewrite <- not_true_iff_false in Hw. exfalso. apply Hw.
      apply existsb_exists. exists (x, e). split; [|done]. by apply list_elem_of_In, elem_of_map_to_list. }
    unfold entry_work in Hf. apply orb_false_iff in Hf as [Hb He'].
    apply negb_false_iff, bool_decide_eq_true in Hb. split; [done|]. intros Hee. rewrite Hee in He'.
    simpl in He'. by apply negb_false_iff in He'.
Qed.

(** * The bytes of one handle *)
Section handle.
Variables (h fd : Z).

Definition data_of (op : pump_op) : list Z :=
  match op with Push h' d => if decide (h' = h) then d else [] | _ => [] end.
Definition pushed (ops : list pump_op) : list Z := ops ≫= data_of.
Definition marks (op : pump_op) : bool :=
  match op with MarkEof h' => bool_decide (h' = h) | ShutdownAll => true | _ => false end.

(** Operations on other handles and descriptors, and pushes and closes of [h]. *)
Definition op_ok (op : pump_op) : Prop :=
  match op with
  | Register h' fd' => h' ≠ h ∧ fd' ≠ fd
  | Unregister h' => h' ≠ h
  | _ => True
  end.

(** Whether something is pushed after the close. *)
Definition late_push (closed : bool) (op : pump_op) : bool :=
  closed && negb (bool_decide (data_of op = [])).
Fixpoint pushed_late (closed : bool) (ops : list pump_op) : bool :=
  match ops with
  | [] => false
  | op :: r => late_push closed op || pushed_late (closed || marks op) r
  end.

(** The entry of [h] (if it is still there) against what has been pushed. *)
Record entry_inv (total : list Z) (closed : bool) k e : Prop := {
  ei_fd : inner_fd e = fd;
  ei_bytes : written k fd ++ buf e = total;
  ei_eof : eof e = closed;
  ei_shut : shut k fd = eof_done e;
  ei_done : eof_done e = true → eof e = true ∧ buf e = []
}.

Definition others_elsewhere (hs : gmap Z PendingRecv) : Prop :=
  ∀ h' e, h' ≠ h → hs !! h' = Some e → inner_fd e ≠ fd.

Definition inv (total : list Z) (closed late : bool) (s : PumpState * K) : Prop :=
  others_elsewhere (handles s.1) ∧
  match handles s.1 !! h with
  | None => gone s.2 fd = true ∨ late = true
  | Some e => entry_inv total closed s.2 e
  end.

Lemma drain_entry_inv total closed k e r blocked k' : entry_inv total closed k e →
  drain_entry front_len e k = (r, blocked, k') →
  only_out fd k k' ∧
  match r with None => gone k' fd = true | Some e' => entry_inv total closed k' e' end.
Proof.
  intros [Hf Hb He Hs Hdn] Hd. unfold drain_entry in Hd. rewrite Hf in Hd.
  destruct (drain_buf front_len (List.length (buf e)) fd (buf e) k) as [[dead b'] k1] eqn:Hdb.
  destruct (drain_buf_spec _ _ _ _ _ _ _ (Nat.le_refl _) Hdb) as (Ho & Hsh & Hw & Hdead & _ & Hsb).
  destruct dead.
  { injection Hd as <- <- <-. split; [done|]. destruct Ho as [_ Hg]. rewrite Hg.
    destruct Hdead as [Hsd|Hgd]; [done| |done]. exfalso. rewrite Hs in Hsd.
    destruct (Hdn Hsd) as [_ Hbe]. rewrite Hbe in Hdb. simpl in Hdb. congruence. }
  assert (written k1 fd ++ b' = total) as Hw' by congruence.
  destruct b' as [|c b'].
  - destruct (eof e && negb (eof_done e)) eqn:Hc; injection Hd as <- <- <-.
    + destruct (kshutdown_ok fd k1) as (H1 & H2 & H3 & _ & H5). split.
      { eapply only_out_trans; [exact Ho|]. split; [intros x Hx; auto|apply H5]. }
      apply andb_true_iff in Hc as [Hce _]. constructor; simpl; [done|by rewrite H3|done|done|done].
    + split; [done|]. constructor; simpl; [done|done|done|congruence|].
      intros Hdd. by destruct (Hdn Hdd).
  - injection Hd as <- <- <-. split; [done|]. constructor; simpl; [done|done|done|congruence|].
    intros Hdd. destruct (Hdn Hdd) as [_ Hbe]. rewrite Hbe in Hdb. simpl in Hdb. congruence.
Qed.

Lemma only_out_other fd' k k' total closed e : fd' ≠ fd → only_out fd' k k' →
  entry_inv total closed k e → entry_inv total closed k' e.
Proof.
  intros Hne [Ho _] [Hf Hb He Hs Hd]. destruct (Ho fd) as [H1 H2]; [done|].
  by constructor; rewrite ?H1, ?H2.
Qed.

Lemma drain_entry_fd e k r blocked k' : drain_entry front_len e k = (r, blocked, k') →
  only_out (inner_fd e) k k' ∧ ∀ e', r = Some e' → inner_fd e' = inner_fd e.
Proof.
  unfold drain_entry.
  destruct (drain_buf front_len (List.length (buf e)) (inner_fd e) (buf e) k) as [[dead b'] k1] eqn:Hdb.
  destruct (drain_buf_spec _ _ _ _ _ _ _ (Nat.le_refl _) Hdb) as (Ho & _).
  destruct dead; [intros [= <- <- <-]; by split|]. destruct b' as [|c b'].
  - destruct (eof e && negb (eof_done e)); intros [= <- <- <-].
    + destruct (kshutdown_ok (inner_fd e) k1) as (H1 & H2 & H3 & _ & H5). split; [|by intros e' [= <-]].
      eapply only_out_trans; [exact Ho|]. split; [intros x Hx; auto|apply H5].
    + split; [done|by intros e' [= <-]].
  - intros [= <- <- <-]. split; [done|by intros e' [= <-]].
Qed.

(** The rest of the pump and of the system leaves the handle alone. *)
Lemma inv_other total closed late st k hs' ea k' :
  inv total closed late (st, k) → others_elsewhere hs' → hs' !! h = handles st !! h →
  written k' fd = written k fd → shut k' fd = shut k fd → (gone k fd = true → gone k' fd = true) →
  inv total closed late (mkPumpState hs' ea, k').
Proof.
  intros [_ Hi] Ho Hh Hw Hs Hg. split; [done|]. simpl in *. rewrite Hh.
  destruct (handles st !! h) as [e|].
  - destruct Hi as [H1 H2 H3 H4 H5]. by constructor; rewrite ?Hw, ?Hs.
  - destruct Hi; auto.
Qed.

Lemma others_insert_other hs h' e :
  others_elsewhere hs → (h' ≠ h → inner_fd e ≠ fd) → others_elsewhere (<[h' := e]> hs).
Proof. intros Ho He x e' Hx [[-> <-]|[_ Hl]]%lookup_insert_Some; eauto. Qed.

Lemma others_delete hs h' : others_elsewhere hs → others_elsewhere (delete h' hs).
Proof. intros Ho x e Hx [_ Hl]%lookup_delete_Some. eauto. Qed.

Lemma inv_drain_step total closed late hs ea k h0 e0 r blocked k' :
  inv total closed late (mkPumpState hs ea, k) → hs !! h0 = Some e0 →
  drain_entry front_len e0 k = (r, blocked, k') →
  inv total closed late
    (mkPumpState (match r with Some e => <[h0 := e]> hs | None => delete h0 hs end) ea, k').
Proof.
  intros Hinv He0 Hd. destruct (decide (h0 = h)) as [->|Hne].
  - destruct Hinv as [Ho Hi]. simpl in *. rewrite He0 in Hi.
    destruct (drain_entry_inv _ _ _ _ _ _ _ Hi Hd) as [_ Hr]. destruct r as [e|]; split; simpl.
    + by apply others_insert_other.
    + by rewrite lookup_insert_eq.
    + by apply others_delete.
    + rewrite lookup_delete_eq. by left.
  - destruct (drain_entry_fd _ _ _ _ _ Hd) as [[Hout Hg] Hfd].
    assert (inner_fd e0 ≠ fd) as Hf by (destruct Hinv as [Ho _]; eauto).
    destruct (Hout fd) as [Hw Hs]; [done|].
    apply (inv_other _ _ _ _ _ _ _ _ Hinv); try done; [| |by rewrite Hg].
    + destruct Hinv as [Ho _]. destruct r as [e|]; [|by apply others_delete].
      apply others_insert_other; [done|]. intros _. by rewrite (Hfd e).
    + destruct r; [by rewrite lookup_insert_ne|by rewrite lookup_delete_ne].
Qed.

Lemma inv_drain_entries total closed late es hs ea k hs' fds k' : NoDup es.*1 →
  (∀ x e, (x, e) ∈ es → hs !! x = Some e) → inv total closed late (mkPumpState hs ea, k) →
  drain_entries front_len es hs k = (hs', fds, k') → inv total closed late (mkPumpState hs' ea, k').
Proof.
  revert hs k fds. induction es as [|[h0 e0] es IH]; intros hs k fds Hnd Hl Hinv Hd; simpl in Hd.
  { by injection Hd as <- <- <-. }
  apply NoDup_cons in Hnd as [Hn Hnd].
  destruct (drain_entry front_len e0 k) as [[r blocked] k1] eqn:He.
  assert (hs !! h0 = Some e0) as Hh0 by (apply Hl; by left).
  pose proof (inv_drain_step _ _ _ _ _ _ _ _ _ _ _ Hinv Hh0 He) as Hinv'.
  destruct (drain_entries front_len es _ k1) as [[hs1 fds1] k2] eqn:Hds.
  injection Hd as <- _ <-. eapply IH; [done| |exact Hinv'|exact Hds].
  intros x e Hx. assert (x ≠ h0).
  { intros ->. apply Hn, list_elem_of_fmap. by exists (h0, e). }
  assert (hs !! x = Some e) by (apply Hl; by right).
  destruct r; [by rewrite lookup_insert_ne|by rewrite lookup_delete_ne].
Qed.

Lemma inv_flush total closed late st k :
  inv total closed late (st, k) → inv total closed late (flusher_round front_len st k).
Proof.
  destruct st as [hs0 ea]. intros Hinv. unfold flusher_round, drain_pass. cbn [handles early].
  destruct (has_work _); [|done].
  destruct (drain_entries front_len (map_to_list hs0) hs0 k) as [[hs fds] k'] eqn:Hd.
  eapply inv_drain_entries; [apply NoDup_fst_map_to_list| |exact Hinv|exact Hd].
  intros x e. apply elem_of_map_to_list.
Qed.

(** A push on another handle. *)
Lemma push_other h' d st k st' k' : h' ≠ h → others_elsewhere (handles st) → push h' d st k = (st', k') →
  others_elsewhere (handles st') ∧ handles st' !! h = handles st !! h ∧
  default [] (early st' !! h) = default [] (early st !! h) ∧
  written k' fd = written k fd ∧ shut k' fd = shut k fd ∧ gone k' fd = gone k fd.
Proof.
  intros Hne Ho. unfold push, stage. destruct d as [|c d]; [by intros [= <- <-]|].
  destruct (handles st !! h') as [e|] eqn:He; 
    [|intros [= <- <-]; simpl; by rewrite lookup_insert_ne by done].
  assert (inner_fd e ≠ fd) as Hf by eauto.
  destruct (buf e) as [|x b].
  - destruct (nb_write (inner_fd e) (c :: d) k) as [o k1] eqn:Hw.
    destruct (nb_write_spec (inner_fd e) (c :: d) _ _ _ ltac:(done) Hw) as ([Hout Hg] & _ & _).
    destruct (Hout fd) as [H1 H2]; [done|].
    destruct o; [case_decide| |]; intros [= <- <-]; simpl;
      rewrite ?lookup_insert_ne, ?lookup_delete_ne by done; split_and!; try done;
      by apply others_insert_other || by apply others_delete.
  - intros [= <- <-]. simpl. rewrite lookup_insert_ne by done. split_and!; try done.
    by apply others_insert_other.
Qed.

(** A push on the handle itself. *)
Lemma inv_push_own total closed late d st k : inv total closed late (st, k) →
  inv (total ++ d) closed (late || (closed && negb (bool_decide (d = [])))) (push h d st k).
Proof.
  intros Hinv. destruct d as [|c d].
  { simpl. by rewrite app_nil_r, andb_false_r, orb_false_r. }
  set (l := c :: d). rewrite bool_decide_false by done. simpl negb. rewrite andb_true_r.
  destruct Hinv as [Ho Hi]. unfold push. fold l. simpl in Ho, Hi.
  destruct (handles st !! h) as [e|] eqn:He.
  2:{ split; [done|]. simpl. rewrite He. destruct Hi as [?| ->]; [by left|by right]. }
  destruct Hi as [Hf Hb Heof Hs Hd]. destruct (buf e) as [|x b] eqn:Hbuf.
  - rewrite Hf. destruct (nb_write fd l k) as [o k1] eqn:Hw.
    destruct (nb_write_spec fd l _ _ _ ltac:(done) Hw) as ([_ Hg] & Hsh & Hc).
    rewrite app_nil_r in Hb. destruct o as [n| |].
    + destruct Hc as (Hn & Hwr & Hsf). case_decide; (split; simpl; [by (apply others_insert_other || apply Ho)|]).
      * rewrite lookup_insert_eq. constructor; simpl; try congruence.
        by rewrite Hwr, Hb, <- app_assoc, take_drop.
      * rewrite He. constructor; try congruence. rewrite Hbuf, app_nil_r, Hwr, Hb.
        by rewrite firstn_all2 by lia.
    + destruct Hc as (Hwr & Hsf & _). split; simpl; [by apply others_insert_other|].
      rewrite lookup_insert_eq. constructor; simpl; try congruence.
    + destruct Hc as [_ [Hsd|Hgd]]; (split; simpl; [by apply others_delete|]); rewrite lookup_delete_eq.
      * right. rewrite <- Heof. destruct (Hd ltac:(congruence)) as [-> _]. by rewrite orb_true_r.
      * left. by rewrite Hg.
  - split; simpl; [by apply others_insert_other|]. rewrite lookup_insert_eq.
    constructor; simpl; try congruence; [by rewrite <- Hb, <- app_assoc|].
    intros Hed. by destruct (Hd Hed).
Qed.

Lemma others_alter_eof hs h' : others_elsewhere hs → others_elsewhere (alter set_eof h' hs).
Proof.
  intros Ho x e Hx [(-> & e' & He' & ->)|[_ Hl]]%lookup_alter_Some; [|eauto]. simpl. eauto.
Qed.

Lemma others_fmap_eof hs : others_elsewhere hs → others_elsewhere (set_eof <$> hs).
Proof. intros Ho x e Hx (e' & <- & He')%lookup_fmap_Some. simpl. eauto. Qed.

Lemma entry_inv_eof total closed k e : entry_inv total closed k e → entry_inv total true k (set_eof e).
Proof. intros [H1 H2 H3 H4 H5]. constructor; simpl; try done. intros Hd. by destruct (H5 Hd). Qed.

Lemma pump_inv_step op total closed late st k : op_ok op → inv total closed late (st, k) →
  inv (total ++ data_of op) (closed || marks op) (late || late_push closed op) (pump_step front_len op st k).
Proof.
  intros Hop Hinv. unfold late_push.
  destruct op as [h' fd'|h'|h' d|h'| | |]; simpl in *;
    rewrite ?app_nil_r, ?andb_false_r, ?orb_false_r.
  - destruct Hop as [Hh Hf]. apply (inv_other _ _ _ _ _ _ _ _ Hinv); try done.
    + apply others_insert_other; [apply Hinv|done].
    + by rewrite lookup_insert_ne.
  - apply (inv_other _ _ _ _ _ _ _ _ Hinv); try done; [apply others_delete, Hinv|by rewrite lookup_delete_ne].
  - destruct (decide (h' = h)) as [->|Hne]; [by apply inv_push_own|].
    rewrite app_nil_r, bool_decide_true, andb_false_r, orb_false_r by done.
    destruct (push h' d st k) as [[hs ea] k'] eqn:Hp.
    destruct (push_other h' d st k _ _ Hne (proj1 Hinv) Hp) as (Ho & Hh & _ & Hw & Hs & Hg).
    apply (inv_other _ _ _ _ _ _ _ _ Hinv); try done. by rewrite Hg.
  - destruct Hinv as [Ho Hi]. split; simpl; [by apply others_alter_eof|]. case_bool_decide as Hd.
    + subst h'. rewrite lookup_alter_eq, orb_true_r. simpl in Hi.
      destruct (handles st !! h); simpl; [by eapply entry_inv_eof|done].
    + by rewrite lookup_alter_ne, orb_false_r.
  - destruct Hinv as [Ho Hi]. split; simpl; [by apply others_fmap_eof|]. simpl in Hi.
    rewrite lookup_fmap, orb_true_r. destruct (handles st !! h); simpl; [by eapply entry_inv_eof|done].
  - by apply inv_flush.
  - done.
Qed.

Lemma inv_env total closed late st k k' : same_out k k' → (∀ x, gone k x = true → gone k' x = true) →
  inv total closed late (st, k) → inv total closed late (st, k').
Proof.
  intros Hs Hg Hinv. destruct st as [hs ea]. destruct (Hs fd).
  apply (inv_other _ _ _ _ _ _ _ _ Hinv); try done; [apply Hinv|auto].
Qed.

Lemma inv_run ops s s' total closed late : Forall op_ok ops → run front_len ops s s' →
  inv total closed late s →
  inv (total ++ pushed ops) (closed || existsb marks ops) (late || pushed_late closed ops) s'.
Proof.
  intros Hok Hrun. revert total closed late Hok. induction Hrun as [s|k k' st ops s Hs Hg _ IH|op st k ops s _ IH];
    intros total closed late Hok Hinv; simpl.
  - by rewrite app_nil_r, !orb_false_r.
  - apply Forall_cons in Hok as [_ Hok]. unfold late_push. simpl. rewrite andb_false_r. simpl.
    rewrite orb_false_r. apply IH; [done|]. by eapply inv_env.
  - apply Forall_cons in Hok as [Hop Hok].
    unfold pushed. simpl. rewrite app_assoc, !orb_assoc. apply IH; [done|]. by apply pump_inv_step.
Qed.

(** Before [h] is registered: its bytes are staged, up to the cap. *)
Definition staged (total : list Z) (s : PumpState * K) : Prop :=
  others_elsewhere (handles s.1) ∧ handles s.1 !! h = None ∧
  default [] (early s.1 !! h) = take (Z.to_nat EARLY_STAGE_CAP) total ∧
  written s.2 fd = [] ∧ shut s.2 fd = false.

Lemma drain_entries_elsewhere es hs k hs' fds k' :
  (∀ x e, (x, e) ∈ es → x ≠ h ∧ inner_fd e ≠ fd) → others_elsewhere hs →
  drain_entries front_len es hs k = (hs', fds, k') →
  others_elsewhere hs' ∧ hs' !! h = hs !! h ∧ written k' fd = written k fd ∧ shut k' fd = shut k fd.
Proof.
  revert hs k fds. induction es as [|[h0 e0] es IH]; intros hs k fds Hes Ho Hd; simpl in Hd.
  { by injection Hd as <- <- <-. }
  destruct (Hes h0 e0) as [Hh Hf]; [by left|].
  destruct (drain_entry front_len e0 k) as [[r blocked] k1] eqn:He.
  destruct (drain_entry_fd _ _ _ _ _ He) as [[Hout _] Hfd]. destruct (Hout fd) as [Hw Hs]; [done|].
  destruct (drain_entries front_len es _ k1) as [[hs1 fds1] k2] eqn:Hds.
  injection Hd as <- _ <-.
  assert (others_elsewhere (match r with Some e => <[h0:=e]> hs | None => delete h0 hs end)) as Ho'.
  { destruct r as [e|]; [|by apply others_delete].
    apply others_insert_other; [done|]. intros _. by rewrite (Hfd e). }
  destruct (IH _ _ _ (λ x e Hx, Hes x e (list_elem_of_further _ _ _ Hx)) Ho' Hds) as (H1 & H2 & H3 & H4).
  split_and!; [done| |congruence|congruence].
  rewrite H2. destruct r; [by rewrite lookup_insert_ne|by rewrite lookup_delete_ne].
Qed.

Lemma staged_step op total st k : op_ok op → staged total (st, k) →
  staged (total ++ data_of op) (pump_step front_len op st k).
Proof.
  intros Hop (Ho & Hh & He & Hw & Hs). simpl in *.
  destruct op as [h' fd'|h'|h' d|h'| | |]; simpl in *; rewrite ?app_nil_r; unfold staged; simpl.
  - destruct Hop as [Hne Hf]. rewrite lookup_insert_ne, lookup_delete_ne by done.
    split_and!; try done. by apply others_insert_other.
  - rewrite !lookup_delete_ne by done. split_and!; try done. by apply others_delete.
  - destruct (decide (h' = h)) as [->|Hne].
    + unfold push. rewrite Hh. destruct d as [|c d]; simpl; rewrite ?app_nil_r; [done|].
      rewrite lookup_insert_eq, He. simpl. split_and!; try done.
      rewrite take_app, length_take. do 2 f_equal. lia.
    + destruct (push h' d st k) as [[hs ea] k'] eqn:Hp.
      destruct (push_other h' d st k _ _ Hne Ho Hp) as (Ho' & Hh' & He' & Hw' & Hs' & _).
      rewrite app_nil_r. cbn [handles early fst snd] in *. split_and!; done || congruence.
  - split_and!; try done; [by apply others_alter_eof|].
    destruct (decide (h' = h)) as [->|Hne]; [by rewrite lookup_alter_eq, Hh|by rewrite lookup_alter_ne].
  - split_and!; try done; [by apply others_fmap_eof|]. by rewrite lookup_fmap, Hh.
  - unfold flusher_round, drain_pass. destruct (has_work st); simpl; [|by split_and!].
    destruct (drain_entries front_len (map_to_list (handles st)) (handles st) k) as [[hs fds] k'] eqn:Hd.
    apply drain_entries_elsewhere in Hd as (H1 & H2 & H3 & H4); [|intros x e Hx|done].
    2:{ apply elem_of_map_to_list in Hx. assert (x ≠ h) by congruence. eauto. }
    simpl. split_and!; done || congruence.
  - by split_and!.
Qed.

Lemma staged_run ops s s' total : Forall op_ok ops → run front_len ops s s' → staged total s →
  staged (total ++ pushed ops) s'.
Proof.
  intros Hok Hrun. revert total Hok. induction Hrun as [s|k k' st ops s Hs Hg _ IH|op st k ops s _ IH];
    intros total Hok Hst.
  - by rewrite app_nil_r.
  - apply Forall_cons in Hok as [_ Hok]. apply IH; [done|].
    destruct Hst as (H1 & H2 & H3 & H4 & H5). destruct (Hs fd). unfold staged; simpl in *.
    split_and!; done || congruence.
  - apply Forall_cons in Hok as [Hop Hok]. unfold pushed. simpl. rewrite app_assoc.
    apply IH; [done|]. by apply staged_step.
Qed.

Lemma run_app ops ops' s s' : run front_len (ops ++ ops') s s' →
  ∃ s1, run front_len ops s s1 ∧ run front_len ops' s1 s'.
Proof.
  revert s. induction ops as [|op ops IH]; intros s Hr; [by eexists; split; [constructor|]|].
  inversion Hr as [|k k' st ops1 s1 Hs Hg Hr1|op1 st k ops1 s1 Hr1]; subst;
    destruct (IH _ Hr1) as (s2 & ? & ?); exists s2; split; by try econstructor.
Qed.

(** A flushed entry, by what the kernel shows of its descriptor. *)
Lemma flushed_inv total closed k e : entry_inv total closed k e → flushed k e →
  (buf e = [] ∧ (closed = true → shut k fd = true)) ∨ unread k (peer k fd) ≠ [] ∨ gone k fd = true.
Proof. intros [<- _ <- -> _] Hf. exact Hf. Qed.

Lemma run_flushed ops s st k x e : last ops = Some Flush → run front_len ops s (st, k) →
  handles st !! x = Some e → flushed k e.
Proof.
  intros [ops' ->]%last_Some ([st1 k1] & _ & Hr)%run_app He.
  inversion Hr as [| |op2 st2 k2 ops3 s2 Hr2]; subst. inversion Hr2 as [s3 Heq| |]; subst.
  simpl in *. pose proof (flusher_round_flushed st1 k1 x e) as Hf.
  destruct (flusher_round front_len st1 k1) as [st3 k3]. simplify_eq. by apply Hf.
Qed.

(** C1: from the first push to the last, registered or not, whatever the other
    handles, the application and the flusher do in between: what the handle's
    descriptor has accepted followed by the backlog is what was pushed, in
    order, except that of what came before the registration only the first 256
    KiB are kept; the end of file is due exactly when a close was marked since
    the registration, and is signalled only after the last byte.  After a round
    of the flusher either there is no backlog and the end of file that was due
    is signalled, or the application has bytes to read first, or an end of the
    pair is closed.  The handle is dropped, and nothing more said of its bytes,
    only when an end of its pair is closed or something is pushed after its
    close. *)
Theorem recv_pump_delivers ops1 ops2 k0 st k :
  run front_len (ops1 ++ Register h fd :: ops2) (pump_new, k0) (st, k) →
  Forall op_ok ops1 → Forall op_ok ops2 → written k0 fd = [] → shut k0 fd = false →
  match handles st !! h with
  | Some e =>
    written k fd ++ buf e = take (Z.to_nat EARLY_STAGE_CAP) (pushed ops1) ++ pushed ops2 ∧
    eof e = existsb marks ops2 ∧ shut k fd = eof_done e ∧
    (eof_done e = true → eof e = true ∧ buf e = []) ∧
    (last ops2 = Some Flush →
      (buf e = [] ∧ (existsb marks ops2 = true → shut k fd = true)) ∨
      unread k (peer k fd) ≠ [] ∨ gone k fd = true)
  | None => gone k fd = true ∨ pushed_late false ops2 = true
  end.
Proof.
  intros Hrun Hok1 Hok2 Hw Hs. apply run_app in Hrun as ([st1 k1] & Hr1 & Hr2).
  assert (staged (pushed ops1) (st1, k1)) as (Ho & Hh & He & Hw1 & Hs1).
  { apply (staged_run ops1 _ _ [] Hok1 Hr1). by split_and!. }
  simpl in *. inversion Hr2 as [| |op2 st2 k2 ops3 s2 Hr3]; subst.
  assert (inv (take (Z.to_nat EARLY_STAGE_CAP) (pushed ops1)) false false (register h fd st1, k1)) as Hi.
  { split; simpl; [by apply others_insert_other|]. rewrite lookup_insert_eq.
    constructor; simpl; try done. by rewrite Hw1, He. }
  apply (inv_run _ _ _ _ _ _ Hok2 Hr3) in Hi as [_ Hi]. simpl in Hi.
  destruct (handles st !! h) as [e|] eqn:Hst; [|done]. pose proof Hi as [H1 H2 H3 H4 H5]. split_and!; try done.
  intros Hl. eapply flushed_inv, run_flushed; [exact Hi|exact Hl|exact Hr3|exact Hst].
Qed.

End handle.
End spec.

(** * Witnesses *)
Import Pairs.

Definition one_pair : kernel := snd (socketpair empty).
Definition whole (b : list Z) : nat := List.length b.

Lemma whole_ok b : b ≠ [] → (1 ≤ whole b ≤ List.length b)%nat.
Proof. unfold whole. destruct b; [done|simpl; lia]. Qed.

Definition banner_ops : list pump_op := [Push 7 [108; 111]; Register 7 4; Push 7 [103]; MarkEof 7; Flush].

(** One operation, and the state it leads to, evaluated. *)
Ltac run_one := apply run_op;
  match goal with |- run _ _ ?s _ => let s' := eval vm_compute in s in change s with s' end.

Lemma recv_pump_delivers_witness :
  ∃ st k e, run whole banner_ops (pump_new, one_pair) (st, k) ∧ handles st !! 7 = Some e ∧
    written k 4 = [108; 111] ++ [103] ∧ buf e = [] ∧ shut k 4 = true.
Proof.
  assert (∃ st k e, run whole banner_ops (pump_new, one_pair) (st, k) ∧ handles st !! 7 = Some e ∧
    eof_done e = true) as (st & k & e & Hrun & He & Hd).
  { do 3 eexists. split; [unfold banner_ops; do 5 run_one; apply run_nil|].
    split; vm_compute; reflexivity. }
  exists st, k, e. pose proof (recv_pump_delivers whole whole_ok 7 4 [Push 7 [108; 111]]
    [Push 7 [103]; MarkEof 7; Flush] one_pair st k Hrun) as Hdel.
  rewrite He in Hdel. destruct Hdel as (H1 & H2 & H3 & H4 & _);
    [repeat constructor|repeat constructor|reflexivity|reflexivity|].
  destruct (H4 Hd) as [_ Hb]. rewrite Hb, app_nil_r in H1.
  split; [exact Hrun|]. split; [exact He|]. split; [exact H1|]. split; [exact Hb|by rewrite H3].
Defined.

Lemma drain_entry_progress_witness :
  ∃ e' k', drain_entry whole (mkPendingRecv 4 [1; 2; 3] true false) one_pair = (Some e', false, k') ∧
    written k' 4 = [1; 2; 3] ∧ eof_done e' = true ∧ shut k' 4 = true.
Proof.
  destruct (drain_entry whole (mkPendingRecv 4 [1; 2; 3] true false) one_pair) as [[r b] k'] eqn:Hd.
  pose proof (drain_entry_progress whole whole_ok _ _ _ _ _ Hd) as Hp.
  assert (∃ e', r = Some e') as [e' ->] by (vm_compute in Hd; injection Hd as <- _ _; eauto).
  assert (b = false) as -> by (vm_compute in Hd; by injection Hd).
  destruct Hp as (_ & _ & Hw & Hb & H1 & H2). exists e', k'.
  split; [reflexivity|]. rewrite Hb, app_nil_r in Hw.
  split; [exact Hw|]. split; [by apply H1|by apply H2].
Defined.

