(* ===== verification/DgramPump.v ===== *)
(** [crates/ax25-interpose/src/state.rs], the datagram pump: a queue of received
    UI frames per socket, and one readiness byte in the socketpair while there is
    something to report. *)
From stdpp Require Import prelude gmap.
From Stdlib Require Import ZArith Lia.
From S2P Require Import Prelude Str Errors Sockets.
Local Open Scope Z_scope.

Record Datagram := mkDatagram { source : option str; dg_data : list Z }.
Inductive DgramOutcome := Got (dg : Datagram) | Empty | Eof | NoHandle.
Definition DGRAM_QUEUE_CAP : Z := 4096.

Record DgramEntry := mkDgramEntry {
  d_app_fd : Z; d_inner_fd : Z; d_queue : list Datagram; signaled : bool; d_eof : bool }.
(** [DgramPump]'s mutex-protected map. *)
Abbreviation dgrams := (gmap Z DgramEntry).

Section pump.
Context {K : Type} `{!Kernel K}.

Definition set_queue (q : list Datagram) (e : DgramEntry) : DgramEntry :=
  mkDgramEntry (d_app_fd e) (d_inner_fd e) q (signaled e) (d_eof e).
Definition set_signaled (b : bool) (e : DgramEntry) : DgramEntry :=
  mkDgramEntry (d_app_fd e) (d_inner_fd e) (d_queue e) b (d_eof e).
Definition set_d_eof (e : DgramEntry) : DgramEntry :=
  mkDgramEntry (d_app_fd e) (d_inner_fd e) (d_queue e) (signaled e) true.

Definition dgram_register (handle app inner : Z) (st : dgrams) : dgrams :=
  <[handle := mkDgramEntry app inner [] false false]> st.
Definition dgram_unregister (handle : Z) (st : dgrams) : dgrams := delete handle st.

Definition raise (e : DgramEntry) (k : K) : DgramEntry * K :=
  if signaled e then (e, k)
  else match ksend (d_inner_fd e) [0] k with
       | (Ok 1%nat, k) => (set_signaled true e, k)
       | (_, k) => (e, k)
       end.

(** [push] once the handle is found. *)
Definition push_entry (dg : Datagram) (e : DgramEntry) (k : K) : DgramEntry * K :=
  if decide (DGRAM_QUEUE_CAP ≤ Z.of_nat (List.length (d_queue e))) then (e, k)
  else raise (set_queue (d_queue e ++ [dg]) e) k.
Definition dgram_push (handle : Z) (dg : Datagram) (st : dgrams) (k : K) : dgrams * K :=
  match st !! handle with
  | None => (st, k)
  | Some e => let '(e, k) := push_entry dg e k in (<[handle := e]> st, k)
  end.

(** [recv_one] once the handle is found. *)
Definition recv_entry (e : DgramEntry) (k : K) : DgramOutcome * DgramEntry * K :=
  match d_queue e with
  | dg :: q =>
    let e := set_queue q e in
    if bool_decide (q = []) && signaled e
    then (Got dg, set_signaled false e, snd (krecv (d_app_fd e) 1 k))
    else (Got dg, e, k)
  | [] => (if d_eof e then Eof else Empty, e, k)
  end.
Definition recv_one (handle : Z) (st : dgrams) (k : K) : DgramOutcome * dgrams * K :=
  match st !! handle with
  | None => (NoHandle, st, k)
  | Some e => let '(o, e, k) := recv_entry e k in (o, <[handle := e]> st, k)
  end.

(** The loop of [shutdown_all], in the map's order. *)
Definition eof_entry (e : DgramEntry) (k : K) : DgramEntry * K := raise (set_d_eof e) k.
Fixpoint shutdown_entries (es : list (Z * DgramEntry)) (st : dgrams) (k : K) : dgrams * K :=
  match es with
  | [] => (st, k)
  | (h, e) :: es => let '(e, k) := eof_entry e k in shutdown_entries es (<[h := e]> st) k
  end.
Definition dgram_shutdown_all (st : dgrams) (k : K) : dgrams * K :=
  shutdown_entries (map_to_list st) st k.

(** * Executions of one socket *)
Inductive dgram_op := DPush (dg : Datagram) | DRecv | DShutdown.

Definition dgram_step (op : dgram_op) (e : DgramEntry) (k : K) : option DgramOutcome * DgramEntry * K :=
  match op with
  | DPush dg => let '(e, k) := push_entry dg e k in (None, e, k)
  | DRecv => let '(o, e, k) := recv_entry e k in (Some o, e, k)
  | DShutdown => let '(e, k) := eof_entry e k in (None, e, k)
  end.
Fixpoint dgram_run (ops : list dgram_op) (e : DgramEntry) (k : K) : list DgramOutcome * DgramEntry * K :=
  match ops with
  | [] => ([], e, k)
  | op :: ops =>
    let '(o, e, k) := dgram_step op e k in
    let '(os, e, k) := dgram_run ops e k in (option_list o ++ os, e, k)
  end.
End pump.

(** * Specification: a bounded queue and a closed flag *)
Definition queue_step (op : dgram_op) (s : list Datagram * bool) : option DgramOutcome * (list Datagram * bool) :=
  let '(q, closed) := s in
  match op, q with
  | DPush dg, _ => (None, (if decide (Z.of_nat (List.length q) < DGRAM_QUEUE_CAP) then q ++ [dg] else q, closed))
  | DRecv, dg :: q => (Some (Got dg), (q, closed))
  | DRecv, [] => (Some (if closed then Eof else Empty), (q, closed))
  | DShutdown, _ => (None, (q, true))
  end.
Fixpoint queue_run (ops : list dgram_op) (s : list Datagram * bool) : list DgramOutcome * (list Datagram * bool) :=
  match ops with
  | [] => ([], s)
  | op :: ops =>
    let '(o, s) := queue_step op s in
    let '(os, s) := queue_run ops s in (option_list o ++ os, s)
  end.

Section spec.
Context {K : Type} `{!Kernel K, !KernelLaws K}.
Implicit Types (k : K) (e : DgramEntry).

(** The pair is open, and its one byte says whether there is something queued;
    once closed it may also say that. *)
Record ready e k : Prop := {
  rd_peer : peer k (d_inner_fd e) = d_app_fd e;
  rd_open : shut k (d_inner_fd e) = false ∧ gone k (d_inner_fd e) = false;
  rd_byte : unread k (d_app_fd e) = if signaled e then [0] else [];
  rd_queue : d_queue e ≠ [] → signaled e = true;
  rd_empty : d_eof e = false → signaled e = true → d_queue e ≠ []
}.

Lemma raise_spec e k : 
  peer k (d_inner_fd e) = d_app_fd e → shut k (d_inner_fd e) = false → gone k (d_inner_fd e) = false →
  unread k (d_app_fd e) = (if signaled e then [0] else []) →
  ∃ k', raise e k = (set_signaled true e, k') ∧ unread k' (d_app_fd e) = [0] ∧
    peer k' (d_inner_fd e) = d_app_fd e ∧ shut k' (d_inner_fd e) = false ∧ gone k' (d_inner_fd e) = false.
Proof.
  intros Hp Hs Hg Hu. unfold raise. destruct (signaled e) eqn:Hsg.
  - exists k. destruct e. simpl in *. by subst.
  - destruct (ksend_room (d_inner_fd e) [0] k) as (n & k' & Hk); [done|done|done|by rewrite Hp, Hu|].
    rewrite Hk. apply ksend_ok in Hk as (Hn & _ & _ & _ & Hu' & _ & Hs' & Hpr); [|done].
    simpl in Hn. assert (n = 1%nat) as -> by lia. exists k'. destruct (Hpr (d_inner_fd e)) as [H1 H2].
    rewrite Hp, Hu in Hu'. by rewrite Hs', H1, H2.
Qed.

Lemma ready_step op e k : ready e k →
  let '(o, e', k') := dgram_step op e k in
  ready e' k' ∧ (o, (d_queue e', d_eof e')) = queue_step op (d_queue e, d_eof e).
Proof.
  intros [Hp [Hs Hg] Hu Hq He]. destruct op as [dg| |]; cbn [dgram_step].
  - unfold push_entry, queue_step. case_decide as Hc.
    + rewrite decide_False by lia. by split.
    + rewrite decide_True by lia.
      destruct (raise_spec (set_queue (d_queue e ++ [dg]) e) k) as (k' & Hr & Hu' & H1 & H2 & H3); [done..|].
      rewrite Hr. simpl in *. split; [constructor; simpl; try done|done].
      intros _ _ Hn. by destruct (d_queue e).
  - unfold recv_entry, queue_step. destruct (d_queue e) as [|dg q] eqn:Hqe.
    + split; [by constructor; rewrite ?Hqe|by rewrite Hqe].
    + cbn [signaled set_queue]. assert (signaled e = true) as Hsg by auto. rewrite Hsg in *.
      rewrite andb_true_r. case_bool_decide as Hqn.
      * subst q. simpl. destruct (krecv (d_app_fd e) 1 k) as [[b|err] k'] eqn:Hk.
        -- apply krecv_ok in Hk as (Hb & Hsplit & Hnil & _ & Ho & Hpr); [|lia].
           rewrite Hu in Hsplit, Hnil. destruct b as [|x [|y b]]; [by specialize (Hnil eq_refl)| |simpl in Hb; lia].
           destruct (Hpr (d_inner_fd e)) as [H1 H2]. destruct (Ho (d_inner_fd e)) as [_ H3].
           split; [constructor; simpl; try congruence; [split; congruence|by injection Hsplit]|done].
        -- apply krecv_err in Hk as (Hnil & _); [|lia]. congruence.
      * split; [constructor; simpl; try done; by rewrite Hsg|done].
  - unfold eof_entry, queue_step.
    destruct (raise_spec (set_d_eof e) k) as (k' & Hr & Hu' & H1 & H2 & H3); [done..|].
    rewrite Hr. simpl in *. split; [by constructor|done].
Qed.

(** C24: the datagram pump is a bounded first-in first-out queue that reports end
    of file once it is closed and drained, and while it is open its descriptor is
    readable exactly when a datagram is queued. *)
Theorem dgram_pump_queue ops e k : ready e k →
  let '(os, e', k') := dgram_run ops e k in
  (os, (d_queue e', d_eof e')) = queue_run ops (d_queue e, d_eof e) ∧
  (d_queue e' ≠ [] → unread k' (d_app_fd e') = [0]) ∧
  (d_eof e' = false → d_queue e' = [] → unread k' (d_app_fd e') = []).
Proof.
  revert e k. induction ops as [|op ops IH]; intros e k Hr.
  - destruct Hr as [_ _ Hu Hq He]. cbn. split; [done|]. rewrite Hu. split.
    + intros Hne. by rewrite (Hq Hne).
    + intros Hf Hn. destruct (signaled e); [by destruct (He Hf eq_refl)|done].
  - cbn [dgram_run queue_run]. pose proof (ready_step op e k Hr) as Hst.
    destruct (dgram_step op e k) as [[o e1] k1]. destruct Hst as [Hr1 <-].
    specialize (IH e1 k1 Hr1). destruct (dgram_run ops e1 k1) as [[os e2] k2].
    destruct IH as [Hrun Hread]. destruct (queue_run ops (d_queue e1, d_eof e1)) as [os' s'].
    injection Hrun as -> <-. done.
Qed.

(** Once closed, reading the last datagram takes the readiness byte away for
    good: the descriptor never reports the end of file. *)
Lemma dgram_eof_unsignaled e k dg : ready e k → d_eof e = true → d_queue e = [dg] →
  let '(o, e', k') := recv_entry e k in
  o = Got dg ∧ unread k' (d_app_fd e') = [] ∧ fst (recv_entry e' k') = (Eof, e').
Proof.
  intros Hr He Hq. pose proof (ready_step DRecv e k Hr) as Hst. cbn [dgram_step] in Hst.
  destruct Hr as [_ _ _ Hrq _]. assert (signaled e = true) as Hsg by (apply Hrq; by rewrite Hq).
  unfold recv_entry in *. rewrite Hq in *. cbn [signaled set_queue] in *. rewrite Hsg in *.
  rewrite bool_decide_true in * by done. cbn [andb] in *. destruct Hst as [[_ _ Hu _ _] _].
  split; [done|]. split; [exact Hu|]. simpl. by rewrite He.
Qed.
End spec.

(** * Witness *)
#[local] Existing Instances Pairs.kernel_pairs Pairs.laws_pairs.

Lemma dgram_pump_queue_witness :
  let k := snd (Pairs.socketpair Pairs.empty) in
  let '(os, e', k') := dgram_run [DRecv; DPush (mkDatagram None [1]); DPush (mkDatagram None [2]); DRecv]
    (mkDgramEntry 3 4 [] false false) k in
  os = [Empty; Got (mkDatagram None [1])] ∧ d_queue e' = [mkDatagram None [2]] ∧ unread k' 3 = [0].
Proof.
  intros k.
  pose proof (dgram_pump_queue [DRecv; DPush (mkDatagram None [1]); DPush (mkDatagram None [2]); DRecv]
    (mkDgramEntry 3 4 [] false false) k) as Hq.
  assert (ready (mkDgramEntry 3 4 [] false false) k) as Hr
    by (constructor; try split; try (vm_compute; reflexivity); done).
  specialize (Hq Hr). vm_compute in Hq |- *. destruct Hq as (H1 & H2 & _).
  split; [reflexivity|]. split; [reflexivity|]. apply H2. discriminate.
Defined.
