(* ===== verification/ClientKeeps.v ===== *)
(** What a call of the client can do, seen from outside: what the reader thread's
    frames do to the link and accept registries and to the state behind the event
    sink, in some order, and what the call itself does to the registries.

    A preorder on the client's states that holds across each push and the end of
    the transport, and does not see the caller's bookkeeping, holds across every
    method of [Client.v]; in particular a preorder on the sink's states that holds
    across each of its callbacks. *)
From stdpp Require Import prelude gmap.
From Stdlib Require Import ZArith Lia String.
From S2P Require Import Prelude Str Errors Codec Framing Messages Client.
Local Open Scope Z_scope.
Local Open Scope act_scope.

Create HintDb sink.

Section keeps.
Context `{!SerdeJson} {S : Type} `{!RhpEventSink S}.
Implicit Types st : sys (S := S).

Class SysRel (R : sys (S := S) → sys (S := S) → Prop) : Prop := {
  sy_preorder :: PreOrder R;
  sy_same st st' : conns (cl st') = conns (cl st) → accepts (cl st') = accepts (cl st) →
    closed (cl st') = closed (cl st) → sk st' = sk st → R st st';
  sy_push f st : closed (cl st) = false → R st (dispatch_push f st);
  sy_end st : closed (cl st) = false → R st (disconnect st) }.

Context (R : sys (S := S) → sys (S := S) → Prop) `{!SysRel R}.

(** [m] relates the states around it. *)
Definition moves {A E} (m : act (sys (S := S)) A E) : Prop := ∀ st, R st (snd (m st)).

Ltac same := by apply sy_same.

Lemma moves_ret {A E} (a : A) : moves (aret (E := E) a).
Proof. intros st. reflexivity. Qed.

Lemma moves_bind {A B E} (m : act sys A E) (k : A → act sys B E) :
  moves m → (∀ a, moves (k a)) → moves (abind m k).
Proof.
  intros Hm Hk st. unfold abind. specialize (Hm st). destruct (m st) as [[a|e] st']; [|done].
  simpl in Hm. etrans; [exact Hm|]. apply Hk.
Qed.

Lemma net_step_moves ev st : R st (net_step ev st).
Proof.
  unfold net_step. destruct (closed (cl st)) eqn:Hc; [done|]. destruct ev; try done.
  - unfold handle_frame. destruct (parse bytes) as [f|]; [|done].
    destruct (id f) as [i|]; [|by apply sy_push].
    destruct (pending (cl st) !! i); [same|by apply sy_push].
  - by apply sy_end.
Qed.

(** A wait whose conditions, when they hold, do no more than [R] allows. *)
Definition check_moves {A} (c : client → option (A * client)) : Prop :=
  ∀ st a c', c (cl st) = Some (a, c') → ∀ evs, R st (mkSys c' (sk st) evs).

Lemma check_now_moves {A} (c : client → option (A * client)) r st0 st o : check_moves c →
  R st0 st → R st0 (snd o) → R st0 (snd (check_now c r st o)).
Proof.
  intros Hc H1 H2. unfold check_now. destruct (c (cl st)) as [[a c']|] eqn:He; [|done].
  etrans; [exact H1|]. by eapply Hc.
Qed.

Lemma wait_moves {A} (c e : client → option (A * client)) timed st : check_moves c → check_moves e →
  R st (snd (wait c e timed st)).
Proof.
  intros Hc He. unfold wait. apply check_now_moves; [done|reflexivity|]. generalize (net st) as evs.
  intros evs. assert (∀ st', R st st' → R st (snd (wait_go c e timed evs st'))) as Hgo.
  { induction evs as [|ev evs IH]; intros st' Hst; simpl.
    - destruct timed; apply check_now_moves; try done; (etrans; [exact Hst|same]).
    - destruct ev; [apply IH; etrans; [done|apply net_step_moves]..| |].
      + apply check_now_moves; [done|done|by apply IH].
      + destruct timed; [|by apply IH]. apply check_now_moves; [done..|]. etrans; [exact Hst|same]. }
  by apply Hgo.
Qed.

(** What a wait returns was there in a state on the way. *)
Lemma wait_woken {A} (c e : client → option (A * client)) timed st a st' : check_moves c → check_moves e →
  wait c e timed st = (Woken a, st') →
  ∃ st0, R st st0 ∧ ((∃ c', c (cl st0) = Some (a, c')) ∨ ∃ c', e (cl st0) = Some (a, c')).
Proof.
  intros Hc He.
  assert (∀ (k : client → option (A * client)) r st1 o, (k = c ∨ k = e) → R st st1 →
    check_now k r st1 o = (Woken a, st') → o = (Woken a, st') ∨
    ∃ st0, R st st0 ∧ ((∃ c', c (cl st0) = Some (a, c')) ∨ ∃ c', e (cl st0) = Some (a, c'))) as Hnow.
  { intros k r st1 o Hk Hst. unfold check_now. destruct (k (cl st1)) as [[a' c']|] eqn:Hkc; [|auto].
    intros [= -> _]. right. exists st1. split; [done|]. destruct Hk as [->| ->]; eauto. }
  assert (∀ evs st1, R st st1 → wait_go c e timed evs st1 = (Woken a, st') →
    ∃ st0, R st st0 ∧ ((∃ c', c (cl st0) = Some (a, c')) ∨ ∃ c', e (cl st0) = Some (a, c'))) as Hgo.
  { induction evs as [|ev evs IH]; intros st1 Hst Hw; simpl in Hw.
    - destruct timed; apply Hnow in Hw as [Hw|?]; auto; done.
    - destruct ev; [apply (IH _) in Hw; [done|by etrans; [|apply net_step_moves]]..| |].
      + apply Hnow in Hw as [Hw|?]; eauto.
      + destruct timed; [|eauto]. apply Hnow in Hw as [Hw|?]; auto; done. }
  unfold wait. intros Hw. apply Hnow in Hw as [Hw|?]; [|done|auto|reflexivity].
  eapply Hgo; [reflexivity|exact Hw].
Qed.

Lemma elapse_moves st : R st (elapse st).
Proof.
  unfold elapse. generalize (net st) as evs. intros evs. revert st.
  induction evs as [|ev evs IH]; intros st; [same|].
  destruct ev; simpl; [etrans; [apply net_step_moves|apply IH]..|same|same].
Qed.

Lemma next_id_moves {E} : moves (next_id (E := E)).
Proof. intros st. same. Qed.

Lemma lift_moves {A E} (r : sys (S := S) → result A E) : moves (λ st, (r st, st)).
Proof. intros st. same. Qed.

Lemma chan_ready_moves ch : check_moves (chan_ready ch).
Proof.
  intros st a c' Hc evs. unfold chan_ready in Hc.
  destruct (chans (cl st) !! ch) as [[[|f q] []]|]; simplify_eq; same.
Qed.

Lemma end_request_same i c : conns (end_request i c) = conns c ∧ accepts (end_request i c) = accepts c ∧
  closed (end_request i c) = closed c.
Proof. unfold end_request. by destruct (pending c !! i). Qed.

Lemma upd_end_request_moves i st : R st (upd_cl (end_request i) st).
Proof. destruct (end_request_same i (cl st)) as (? & ? & ?). same. Qed.

Lemma request_moves i bytes : moves (request i bytes).
Proof.
  intros st. unfold request. destruct (begin_request i (cl st)) as [ch c] eqn:Hb.
  unfold begin_request in Hb. injection Hb as <- <-.
  destruct (write_frame _ bytes) as [[[]|e] w].
  - match goal with |- context [wait ?a ?b ?c ?s] => set (st1 := s) end.
    pose proof (wait_moves (chan_ready (List.length (chans (cl st)))) (chan_ready (List.length (chans (cl st))))
      true st1 (chan_ready_moves _) (chan_ready_moves _)) as Hw.
    assert (R st st1) as H1 by same.
    destruct (wait _ _ _ st1) as [[[f|]| |] st2]; simpl in Hw |- *;
      (etrans; [exact H1|]; etrans; [exact Hw|]; apply upd_end_request_moves).
  - simpl. match goal with |- context [end_request i ?x] => destruct (end_request_same i x) as (? & ? & ?) end.
    same.
Qed.

Hint Resolve moves_ret next_id_moves lift_moves request_moves : sink.

(** A method: a sequence of the above. *)
Ltac moves_call :=
  repeat match goal with
  | |- moves (abind _ _) => apply moves_bind; [|intros ?]
  | |- moves (to_json _) => apply lift_moves
  | |- moves (checked _) => apply lift_moves
  | |- moves _ => solve [auto with sink]
  end.

Lemma auth_moves u p : moves (auth u p).
Proof. unfold auth. moves_call. Qed.
Lemma open_moves l r v fl : moves (open l r v fl).
Proof. unfold open. moves_call. Qed.
Lemma send_moves h d : moves (send h d).
Proof.
  assert (∀ c, moves (send_chunk h c)) as Hc by (intros c; unfold send_chunk; moves_call).
  assert (∀ cs, moves (send_chunks h cs)) as Hcs.
  { induction cs; simpl; [auto with sink|]. by apply moves_bind. }
  unfold send. destruct d; auto.
Qed.
Lemma sendto_moves h r l d : moves (sendto h r l d).
Proof. unfold sendto. moves_call. Qed.
Lemma socket_moves : moves socket.
Proof. unfold socket, socket_mode. moves_call. Qed.
Lemma socket_dgram_moves : moves socket_dgram.
Proof. unfold socket_dgram, socket_mode. moves_call. Qed.
Lemma bind_moves h l p : moves (bind h l p).
Proof. unfold bind. moves_call. Qed.
Lemma listen_moves h : moves (listen h).
Proof. unfold listen. moves_call. Qed.

(** The methods that change a registry themselves. *)
Lemma open_connect_moves l r v :
  (∀ h st, R st (upd_cl (upd_conns (ConnRegistry.set_pending h)) st)) → moves (open_connect l r v).
Proof. intros Hp. unfold open_connect. apply moves_bind; [apply open_moves|]. intros a st. apply Hp. Qed.

Lemma close_moves h :
  (∀ st, R st (upd_cl (λ c, upd_accepts (AcceptRegistry.forget h) (upd_conns (ConnRegistry.forget h) c)) st)) →
  moves (close h).
Proof.
  intros Hf. unfold close. apply moves_bind; [intros st; apply Hf|intros _]. moves_call.
Qed.

Lemma conn_ready_moves h : check_moves (conn_ready h).
Proof.
  intros st a c' Hc evs. unfold conn_ready in Hc.
  destruct (ConnRegistry.result h (conns (cl st))), (closed (cl st)) eqn:?; simplify_eq; same.
Qed.
Lemma conn_expired_moves h : check_moves (conn_expired h).
Proof.
  intros st a c' Hc evs. unfold conn_expired in Hc.
  destruct (ConnRegistry.result h (conns (cl st))); simplify_eq; same.
Qed.
Lemma wait_connected_moves h timed st : R st (snd (wait_connected h timed st)).
Proof.
  unfold wait_connected. pose proof (wait_moves (conn_ready h) (conn_expired h) timed st
    (conn_ready_moves h) (conn_expired_moves h)) as Hw.
  by destruct (wait _ _ _ st) as [[] st'].
Qed.

Lemma wait_accept_moves l timed st : (∀ m st, R st (upd_cl (upd_accepts m) st)) →
  R st (snd (wait_accept l timed st)).
Proof.
  intros Hm. unfold wait_accept.
  assert (check_moves (accept_ready l)) as H1.
  { intros st' a c' Hc evs. unfold accept_ready in Hc.
    destruct (AcceptRegistry.pop l (accepts (cl st'))) as [[info m]|].
    - simplify_eq. etrans; [apply (Hm (λ _, m))|same].
    - destruct (closed (cl st')) eqn:?; simplify_eq. same. }
  pose proof (wait_moves (accept_ready l) (accept_ready l) timed st H1 H1) as Hw.
  by destruct (wait _ _ _ st) as [[] st'].
Qed.

Lemma try_accept_moves l st : (∀ m st, R st (upd_cl (upd_accepts m) st)) → R st (snd (try_accept l st)).
Proof.
  intros Hm. unfold try_accept. destruct (AcceptRegistry.pop _ _) as [[info m]|]; [|done]. apply (Hm (λ _, m)).
Qed.

Lemma connect_to_moves d creds s evs :
  R (mkSys (new_client (match d with Ok w => w | Err _ => mkWriter [] None end)) s evs)
    (snd (connect_to d creds s evs)).
Proof.
  unfold connect_to. destruct d as [w|e]; [|done]. destruct creds as [[u p]|]; [|done].
  apply (auth_moves u p).
Qed.
End keeps.

(** * The sink's state alone *)
Section sink.
Context `{!SerdeJson} {S : Type} `{!RhpEventSink S}.

Class SinkRel (R : S → S → Prop) : Prop := {
  sr_preorder :: PreOrder R;
  sr_recv h d s : R s (on_recv h d s);
  sr_dgram h a b d s : R s (on_dgram h a b d s);
  sr_accept l c a b s : R s (on_accept l c a b s);
  sr_status h f s : R s (on_status h f s);
  sr_close h s : R s (on_close h s);
  sr_disconnect s : R s (on_disconnect s) }.

Definition on_sink (R : S → S → Prop) : relation (sys (S := S)) := λ st st', R (sk st) (sk st').

#[export] Instance on_sink_sys R : SinkRel R → SysRel (on_sink R).
Proof.
  intros HR. split.
  - split; [intros st; unfold on_sink; reflexivity|]. intros x y z. unfold on_sink. apply transitivity.
  - intros st st' _ _ _ Hs. unfold on_sink. rewrite Hs. reflexivity.
  - intros f st _. unfold on_sink, dispatch_push. repeat case_decide; destruct (handle f) as [h|]; simpl; try done.
    + destruct (is_dgram_recv f); [apply sr_dgram|apply sr_recv].
    + destruct (child f); [apply sr_accept|done].
    + destruct (negb _); apply sr_status.
    + apply sr_close.
  - intros st _. apply sr_disconnect.
Qed.
End sink.
