(* ===== verification/State.v ===== *)
(** [crates/ax25-interpose/src/state.rs]: the interposer's global state.

    The reader thread's sink works on [glob]: the three pumps, the connect gates
    and the kernel's descriptors.  A [world] adds the descriptor table, the RHP
    client with [glob] behind its sink, what becomes of the next attempts to
    reach the engine, and errno. *)
From stdpp Require Import prelude gmap.
From Stdlib Require Import ZArith Lia String.
From S2P Require Import Prelude Str Errors Framing Messages Client Sockets RecvPump DgramPump.
Local Open Scope Z_scope.

Record FdState := mkFdState {
  app_fd : Z; inner_fd : Z; handle : option Z; local : option str; remote : option str;
  digis : list str; listening : bool; dgram : bool; pidincl : bool;
  paclen : option Z; window : option Z; t1 : option Z; t2 : option Z; t3 : option Z;
  n2 : option Z; extseq : option Z }.

Definition new_fd (app inner : Z) (dg : bool) : FdState :=
  mkFdState app inner None None None [] false dg false None None None None None None None.

(** Assignments to the fields of an entry. *)
Definition set_handle (h : option Z) (s : FdState) : FdState :=
  mkFdState (app_fd s) (inner_fd s) h (local s) (remote s) (digis s) (listening s) (dgram s)
    (pidincl s) (paclen s) (window s) (t1 s) (t2 s) (t3 s) (n2 s) (extseq s).
Definition set_local (l : option str) (s : FdState) : FdState :=
  mkFdState (app_fd s) (inner_fd s) (handle s) l (remote s) (digis s) (listening s) (dgram s)
    (pidincl s) (paclen s) (window s) (t1 s) (t2 s) (t3 s) (n2 s) (extseq s).
Definition set_remote (r : option str) (s : FdState) : FdState :=
  mkFdState (app_fd s) (inner_fd s) (handle s) (local s) r (digis s) (listening s) (dgram s)
    (pidincl s) (paclen s) (window s) (t1 s) (t2 s) (t3 s) (n2 s) (extseq s).
Definition set_digis (d : list str) (s : FdState) : FdState :=
  mkFdState (app_fd s) (inner_fd s) (handle s) (local s) (remote s) d (listening s) (dgram s)
    (pidincl s) (paclen s) (window s) (t1 s) (t2 s) (t3 s) (n2 s) (extseq s).
Definition set_listening (b : bool) (s : FdState) : FdState :=
  mkFdState (app_fd s) (inner_fd s) (handle s) (local s) (remote s) (digis s) b (dgram s)
    (pidincl s) (paclen s) (window s) (t1 s) (t2 s) (t3 s) (n2 s) (extseq s).
Definition set_pidincl (b : bool) (s : FdState) : FdState :=
  mkFdState (app_fd s) (inner_fd s) (handle s) (local s) (remote s) (digis s) (listening s) (dgram s)
    b (paclen s) (window s) (t1 s) (t2 s) (t3 s) (n2 s) (extseq s).
Definition set_numbers (pl wi a b c n e : option Z) (s : FdState) : FdState :=
  mkFdState (app_fd s) (inner_fd s) (handle s) (local s) (remote s) (digis s) (listening s) (dgram s)
    (pidincl s) pl wi a b c n e.

Section state.
Context `{!SerdeJson} {K : Type} `{!Kernel K}.
Variable front_len : list Z → nat.
(** The environment variables: the engine's credentials when both are set, and
    the default source callsign. *)
Variables (creds : option (str * str)).

Record glob := mkGlob {
  g_recv : PumpState; g_dgram : dgrams; g_out : gmap Z Z; g_gates : gmap Z Z; g_kern : K }.
Definition upd_recv (f : PumpState → PumpState) (g : glob) : glob :=
  mkGlob (f (g_recv g)) (g_dgram g) (g_out g) (g_gates g) (g_kern g).
Definition upd_dgram (f : dgrams → dgrams) (g : glob) : glob :=
  mkGlob (g_recv g) (f (g_dgram g)) (g_out g) (g_gates g) (g_kern g).
Definition upd_out (f : gmap Z Z → gmap Z Z) (g : glob) : glob :=
  mkGlob (g_recv g) (g_dgram g) (f (g_out g)) (g_gates g) (g_kern g).
Definition upd_gates (f : gmap Z Z → gmap Z Z) (g : glob) : glob :=
  mkGlob (g_recv g) (g_dgram g) (g_out g) (f (g_gates g)) (g_kern g).
Definition upd_kern (f : K → K) (g : glob) : glob :=
  mkGlob (g_recv g) (g_dgram g) (g_out g) (g_gates g) (f (g_kern g)).

(** * The outbound pump's registry: [entry(handle).or_insert_with(..)]. *)
Definition out_register (h inner : Z) (g : glob) : glob :=
  upd_out (λ m, match m !! h with Some _ => m | None => <[h := inner]> m end) g.
Definition out_unregister (h : Z) (g : glob) : glob := upd_out (delete h) g.

(** * The connect gates

    Every filling send takes a byte of the buffer at least and every draining
    read one of the queue, so the free space and the queue's length bound the
    loops. *)
Fixpoint fill (fuel : nat) (app : Z) (k : K) : K :=
  match fuel with
  | O => k
  | S fuel => match ksend app (replicate 1024 0) k with
              | (Ok (S _), k) => fill fuel app k
              | (_, k) => k
              end
  end.
Definition arm_connect_gate (h app inner : Z) (g : glob) : glob :=
  upd_gates (<[h := inner]>)
    (upd_kern (λ k, let k := ksndbuf app 1024 k in fill (S (space k app)) app k) g).

Fixpoint drain (fuel : nat) (inner : Z) (k : K) : K :=
  match fuel with
  | O => k
  | S fuel => match krecv inner 1024 k with
              | (Ok (_ :: _), k) => drain fuel inner k
              | (_, k) => k
              end
  end.
Definition resolve_connect_gate (h : Z) (g : glob) : glob :=
  match g_gates g !! h with
  | Some inner =>
    out_register h inner
      (upd_kern (λ k, drain (S (List.length (unread k inner))) inner k) (upd_gates (delete h) g))
  | None => g
  end.

(** * The sink *)
#[export] Instance InterposeSink : RhpEventSink glob := {|
  on_recv h data g :=
    let '(st, k) := push h data (g_recv g) (g_kern g) in upd_kern (λ _, k) (upd_recv (λ _, st) g);
  on_dgram h src _ data g :=
    let '(st, k) := dgram_push h (mkDatagram src data) (g_dgram g) (g_kern g) in
    upd_kern (λ _, k) (upd_dgram (λ _, st) g);
  on_accept _ _ _ _ g := g;
  on_status h flags g :=
    if negb (Z.land flags STATUS_CONNECTED =? 0) then resolve_connect_gate h g else g;
  on_close h g := upd_recv (mark_eof h) (resolve_connect_gate h g);
  on_disconnect g :=
    let g := foldr resolve_connect_gate g (fst <$> map_to_list (g_gates g)) in
    let g := upd_recv shutdown_all g in
    let '(st, k) := dgram_shutdown_all (g_dgram g) (g_kern g) in
    upd_kern (λ _, k) (upd_dgram (λ _, st) g) |}.

(** The flusher thread's round. *)
Definition flusher (g : glob) : glob :=
  let '(st, k) := flusher_round front_len (g_recv g) (g_kern g) in
  upd_kern (λ _, k) (upd_recv (λ _, st) g).

(** * The outbound pump *)

(** The loop ends with a [recv] that fails, or finds the end of file; a failure
    leaves its errno in the thread that drains, which is the first result. *)
Fixpoint out_drain (fuel : nat) (h inner : Z) (st : sys (S := glob)) : option Z * sys :=
  match fuel with
  | O => (None, st)
  | S fuel =>
    match krecv inner 4096 (g_kern (sk st)) with
    | (Ok ((_ :: _) as b), k) =>
      out_drain fuel h inner (snd (Client.send h b (upd_sk (upd_kern (λ _, k)) st)))
    | (Ok [], k) => (None, upd_sk (upd_kern (λ _, k)) st)
    | (Err e, k) => (Some e, upd_sk (upd_kern (λ _, k)) st)
    end
  end.
(** Nobody writes to the application's end meanwhile. *)
Definition drain_locked (h inner : Z) (st : sys (S := glob)) : option Z * sys :=
  out_drain (S (List.length (unread (g_kern (sk st)) inner))) h inner st.
Definition drain_handle (h : Z) (st : sys (S := glob)) : option Z * sys :=
  match g_out (sk st) !! h with Some inner => drain_locked h inner st | None => (None, st) end.
(** [flush], by the poller's thread, whose errno nobody reads. *)
Definition out_flush (h : Z) (st : sys (S := glob)) : sys := snd (drain_handle h st).
(** The result of a success is the errno the drain has left. *)
Definition send_ordered (h : Z) (data : list Z) : act (sys (S := glob)) (option Z) Z := λ st,
  let '(r, st') := Client.send h data (out_flush h st) in
  (match r with Ok _ => Ok (fst (drain_handle h st)) | Err e => Err (to_errno e) end, st').

(** * The world

    [errno] is that of the application's thread, as far as the definitions follow
    it: what the calls store there, and what the drain before a send leaves.  What
    dialling, waiting and the other system calls within a call that succeeds may
    leave is not followed: a call that fails stores its error after all of them. *)
Record world := mkWorld {
  fds : gmap Z FdState; rhp : sys (S := glob);
  cached : bool;  (* the CLIENT cell holds [rhp]'s client *)
  dials : list (result Framing.writer io_error);
  errno : Z }.
Definition upd_fds (f : gmap Z FdState → gmap Z FdState) (w : world) : world :=
  mkWorld (f (fds w)) (rhp w) (cached w) (dials w) (errno w).
Definition upd_rhp (f : sys (S := glob) → sys (S := glob)) (w : world) : world :=
  mkWorld (fds w) (f (rhp w)) (cached w) (dials w) (errno w).
Definition upd_glob (f : glob → glob) (w : world) : world := upd_rhp (upd_sk f) w.
Definition set_errno (e : Z) (w : world) : world :=
  mkWorld (fds w) (rhp w) (cached w) (dials w) e.

Definition is_ax25_fd (w : world) (fd : Z) : bool := bool_decide (is_Some (fds w !! fd)).
Definition is_dgram_fd (w : world) (fd : Z) : bool := default false (dgram <$> fds w !! fd).

(** [true]: there is a client to use.  A failed connect leaves the cell alone: a
    client it made for its authentication is gone, its sink's effects stay, and the
    reader of its connection, which nobody asks anything any more, is left out. *)
Definition ensure_client (w : world) : bool * world :=
  if cached w && negb (is_closed (rhp w)) then (true, w)
  else match dials w with
       | [] => (false, w)
       | d :: r =>
         match d, connect_to d creds (sk (rhp w)) (net (rhp w)) with
         | Ok _, (Ok _, st) => (true, mkWorld (fds w) st true r (errno w))
         | Ok _, (Err _, st) =>
           (false, mkWorld (fds w) (mkSys (cl (rhp w)) (sk st) (net st)) (cached w) r (errno w))
         | Err _, _ => (false, mkWorld (fds w) (rhp w) (cached w) r (errno w))
         end
       end.

(** A method of the client. *)
Definition on_client {A E} (m : act (sys (S := glob)) A E) (w : world) : result A E * world :=
  let '(r, st) := m (rhp w) in (r, upd_rhp (λ _, st) w).

Definition create_ax25_fd (dg : bool) (w : world) : option Z * world :=
  match ksocketpair (g_kern (sk (rhp w))) with
  | (None, k) => (None, upd_glob (upd_kern (λ _, k)) w)
  | (Some (app, inner), k) =>
    (Some app, upd_fds (<[app := new_fd app inner dg]>) (upd_glob (upd_kern (λ _, k)) w))
  end.

(** One turn of [outbound_loop] with descriptors registered; [polled] is what
    poll reported, [None] when nothing is ready or it failed. *)
Definition POLLIN : Z := 1.
Definition POLLHUP : Z := 16.
Definition outbound_turn (polled : option (Z → Z)) (w : world) : world :=
  match polled with
  | None => w
  | Some revents =>
    let snapshot := map_to_list (g_out (sk (rhp w))) in
    match ensure_client w with
    | (false, w) => w
    | (true, w) =>
      foldl (λ w p, if negb (Z.land (revents (snd p)) (Z.lor POLLIN POLLHUP) =? 0)
                    then upd_rhp (out_flush (fst p)) w else w) w snapshot
    end
  end.

Definition destroy_ax25_fd (fd : Z) (w : world) : world :=
  match fds w !! fd with
  | None => w
  | Some s =>
    let w := upd_fds (delete fd) w in
    let w := match handle s with
             | Some h => upd_glob (λ g, upd_gates (delete h) (out_unregister h
                           (upd_dgram (dgram_unregister h) (upd_recv (unregister h) g)))) w
             | None => w
             end in
    upd_glob (upd_kern (λ k, kclose (app_fd s) (kclose (inner_fd s) k))) w
  end.

Lemma send_ordered_snd h d (st : sys (S := glob)) :
  snd (send_ordered h d st) = snd (Client.send h d (out_flush h st)).
Proof. unfold send_ordered. by destruct (Client.send h d (out_flush h st)). Qed.
End state.
