(* ===== verification/PumpKeeps.v ===== *)
(** What the pumps, the gates and the sink can do to the kernel's descriptors and
    to their own entries, whatever is asked of the kernel: a preorder on its
    states that holds across the sends, reads and shutdowns of the entries'
    descriptors holds across every operation of the pumps and every callback of
    the sink, which keep the entries' descriptors or drop the entries. *)
From stdpp Require Import prelude gmap.
From Stdlib Require Import ZArith Lia String.
From S2P Require Import Prelude Str Errors Framing Messages Client ClientKeeps Sockets RecvPump DgramPump State.
Local Open Scope Z_scope.

(** What is asked of the kernel, of descriptors that satisfy [ok]: to stay so,
    and to keep [R]. *)
Class KernelRel {K} `{!Kernel K} (R : relation K) (ok : K → Z → Prop) : Prop := {
  kr_preorder :: PreOrder R;
  kr_ok k k' fd : R k k' → ok k fd → ok k' fd;
  kr_send fd d k : d ≠ [] → ok k fd → R k (snd (ksend fd d k));
  kr_shutdown fd k : ok k fd → R k (kshutdown fd k) }.

Definition dgram_fds (e : DgramEntry) : Z * Z := (d_app_fd e, d_inner_fd e).

Section pumps.
Context {K : Type} `{!Kernel K} (R : relation K) (ok : K → Z → Prop) `{!KernelRel R ok}.
(** The descriptors that may be read. *)
Variable readable : Z → Prop.
Hypothesis recv_keeps : ∀ fd n k, (0 < n)%nat → readable fd → R k (snd (krecv fd n k)).
Variable front_len : list Z → nat.
Implicit Types k : K.

(** * The receive pump *)
Definition recv_fds_ok k (m : gmap Z PendingRecv) : Prop :=
  ∀ h e, m !! h = Some e → ok k (RecvPump.inner_fd e).
Definition dgram_fds_ok k (m : dgrams) : Prop := ∀ h e, m !! h = Some e → ok k (d_inner_fd e).

Lemma recv_fds_kept k k' m m' : R k k' → kept_by RecvPump.inner_fd m m' → recv_fds_ok k m → recv_fds_ok k' m'.
Proof. intros Hr Hm Hok h e He. destruct (Hm h e He) as (e0 & H0 & ->). eapply kr_ok; [done|by eapply Hok]. Qed.
Lemma dgram_fds_kept k k' m m' : R k k' → kept_by dgram_fds m m' → dgram_fds_ok k m → dgram_fds_ok k' m'.
Proof. intros Hr Hm Hok h e He. destruct (Hm h e He) as (e0 & H0 & [= _ ->]). eapply kr_ok; [done|by eapply Hok]. Qed.

Lemma nb_write_keeps fd d k : ok k fd → R k (snd (nb_write fd d k)).
Proof.
  intros Hok. unfold nb_write. destruct d as [|c d]; [reflexivity|].
  pose proof (kr_send fd (c :: d) k ltac:(done) Hok) as Hs. by destruct (ksend fd (c :: d) k) as [[n|e] k'].
Qed.

Lemma push_keeps h d st k : recv_fds_ok k (handles st) → let '(st', k') := push h d st k in
  kept_by RecvPump.inner_fd (handles st) (handles st') ∧ R k k'.
Proof.
  intros Hok. unfold push, stage. destruct d as [|c d]; [by split|].
  destruct (handles st !! h) as [e|] eqn:He; [|by split]. destruct (buf e) as [|x b].
  - pose proof (nb_write_keeps (RecvPump.inner_fd e) (c :: d) k (Hok h e He)) as Ho.
    destruct (nb_write _ (c :: d) k) as [[n| |] k']; simpl in Ho; [case_decide|..];
      (split; [|done]); simpl; eauto with ax25; done.
  - split; [simpl; eauto with ax25|reflexivity].
Qed.

Lemma drain_buf_keeps fuel fd b k : ok k fd → R k (snd (drain_buf front_len fuel fd b k)).
Proof.
  revert b k. induction fuel as [|fuel IH]; intros b k Hok; [reflexivity|]. destruct b as [|c b]; [reflexivity|].
  cbn [drain_buf]. pose proof (nb_write_keeps fd (take (front_len (c :: b)) (c :: b)) k Hok) as Ho.
  destruct (nb_write fd _ k) as [[n| |] k1]; simpl in Ho; [|done..].
  etrans; [exact Ho|]. apply IH. by eapply kr_ok.
Qed.

Lemma drain_entry_keeps e k : ok k (RecvPump.inner_fd e) →
  let '(r, _, k') := drain_entry front_len e k in
  R k k' ∧ ∀ e', r = Some e' → RecvPump.inner_fd e' = RecvPump.inner_fd e.
Proof.
  intros Hok. unfold drain_entry.
  pose proof (drain_buf_keeps (List.length (buf e)) (RecvPump.inner_fd e) (buf e) k Hok) as Hb.
  destruct (drain_buf _ _ _ _ k) as [[[] [|]] k']; simpl in Hb; [done..| |by split; [|by intros ? [= <-]]].
  destruct (_ && _); split; try (by intros ? [= <-]); [|done].
  etrans; [exact Hb|]. apply kr_shutdown. by eapply kr_ok.
Qed.

Lemma drain_entries_keeps es hs k : recv_fds_ok k hs →
  (∀ h e, (h, e) ∈ es → ∃ e0, hs !! h = Some e0 ∧ RecvPump.inner_fd e0 = RecvPump.inner_fd e) → NoDup es.*1 →
  let '(hs', _, k') := drain_entries front_len es hs k in
  kept_by RecvPump.inner_fd hs hs' ∧ R k k'.
Proof.
  revert hs k. induction es as [|[h e] es IH]; intros hs k Hok Hes Hnd; [by split|]. cbn [drain_entries].
  destruct (Hes h e) as (e0 & H0 & Hi); [by left|].
  pose proof (drain_entry_keeps e k ltac:(rewrite <- Hi; by eapply Hok)) as Hd.
  destruct (drain_entry front_len e k) as [[r blocked] k1]. destruct Hd as [Ho Hf].
  apply NoDup_cons in Hnd as [Hh Hnd].
  set (hs1 := match r with Some e => <[h := e]> hs | None => delete h hs end).
  assert (kept_by RecvPump.inner_fd hs hs1) as H1.
  { unfold hs1. destruct r as [e1|]; [|eauto with ax25].
    apply (kept_by_insert _ _ _ e0); [done|]. by rewrite (Hf e1). }
  specialize (IH hs1 k1). destruct (drain_entries front_len es hs1 k1) as [[hs2 fds2] k2].
  destruct IH as [H2 H3]; [by eapply recv_fds_kept| |done|by split; etrans].
  intros x ex Hx. assert (x ≠ h) as Hne by (intros ->; apply Hh; by apply (list_elem_of_fmap_2 fst) in Hx).
  destruct (Hes x ex) as (e1 & He1 & ?); [by right|]. exists e1. split; [|done].
  unfold hs1. destruct r; [by rewrite lookup_insert_ne|by rewrite lookup_delete_ne].
Qed.

Lemma flusher_round_keeps st k : recv_fds_ok k (handles st) → let '(st', k') := flusher_round front_len st k in
  kept_by RecvPump.inner_fd (handles st) (handles st') ∧ R k k'.
Proof.
  intros Hok. unfold flusher_round, drain_pass. destruct (has_work st); [|by split].
  pose proof (drain_entries_keeps (map_to_list (handles st)) (handles st) k Hok) as Hd.
  destruct (drain_entries _ _ _ _) as [[hs fds] k']. apply Hd; [|apply NoDup_fst_map_to_list].
  intros h e Hin%elem_of_map_to_list. by exists e.
Qed.

(** * The datagram pump *)
Lemma raise_keeps e k : ok k (d_inner_fd e) → dgram_fds (fst (raise e k)) = dgram_fds e ∧ R k (snd (raise e k)).
Proof.
  intros Hok. unfold raise. destruct (signaled e); [by split|].
  pose proof (kr_send (d_inner_fd e) [0] k ltac:(done) Hok) as Ho.
  destruct (ksend (d_inner_fd e) [0] k) as [[[|[|n]]|err] k']; by split.
Qed.

Lemma dgram_push_keeps h dg st k : dgram_fds_ok k st → let '(st', k') := dgram_push h dg st k in
  kept_by dgram_fds st st' ∧ R k k'.
Proof.
  intros Hok. unfold dgram_push. destruct (st !! h) as [e|] eqn:He; [|by split]. unfold push_entry. case_decide.
  - split; [eauto with ax25|reflexivity].
  - pose proof (raise_keeps (set_queue (d_queue e ++ [dg]) e) k (Hok h e He)) as [H1 H2].
    destruct (raise _ k) as [e' k']. simpl in *. split; [|done]. by eapply kept_by_insert.
Qed.

Lemma recv_one_keeps h st k : (∀ e, st !! h = Some e → readable (d_app_fd e)) →
  let '(_, st', k') := recv_one h st k in kept_by dgram_fds st st' ∧ R k k'.
Proof.
  intros Hr. unfold recv_one. destruct (st !! h) as [e|] eqn:He; [|by split]. unfold recv_entry.
  destruct (d_queue e) as [|dg q]; [split; [eauto with ax25|reflexivity]|].
  destruct (_ && _); (split; [by eapply kept_by_insert|]); [|reflexivity]. apply recv_keeps; [lia|exact (Hr e eq_refl)].
Qed.

Lemma shutdown_entries_keeps es st k : dgram_fds_ok k st →
  (∀ h e, (h, e) ∈ es → ∃ e0, st !! h = Some e0 ∧ dgram_fds e0 = dgram_fds e) → NoDup es.*1 →
  let '(st', k') := shutdown_entries es st k in kept_by dgram_fds st st' ∧ R k k'.
Proof.
  revert st k. induction es as [|[h e] es IH]; intros st k Hok Hes Hnd; [by split|]. cbn [shutdown_entries].
  destruct (Hes h e) as (e0 & H0 & Hi); [by left|].
  assert (ok k (d_inner_fd e)) as Hk. { injection Hi as _ <-. by eapply Hok. }
  unfold eof_entry. pose proof (raise_keeps (set_d_eof e) k Hk) as [Hf Ho].
  destruct (raise (set_d_eof e) k) as [e1 k1]. simpl in Hf, Ho. apply NoDup_cons in Hnd as [Hh Hnd].
  assert (kept_by dgram_fds st (<[h := e1]> st)) as H1.
  { apply (kept_by_insert _ _ _ e0); [done|]. by rewrite Hf. }
  specialize (IH (<[h := e1]> st) k1). destruct (shutdown_entries es _ k1) as [st2 k2].
  destruct IH as [H2 H3]; [by eapply dgram_fds_kept| |done|by split; etrans].
  intros x ex Hx. assert (x ≠ h) as Hne by (intros ->; apply Hh; by apply (list_elem_of_fmap_2 fst) in Hx).
  destruct (Hes x ex) as (e2 & He2 & ?); [by right|]. exists e2. by rewrite lookup_insert_ne.
Qed.

(** * The gates *)
Lemma drain_keeps fuel inner k : readable inner → R k (drain fuel inner k).
Proof.
  intros Hr. revert k. induction fuel as [|fuel IH]; intros k; [reflexivity|]. cbn [drain].
  pose proof (recv_keeps inner 1024 k ltac:(lia) Hr) as Ho.
  destruct (krecv inner 1024 k) as [[[|c b]|e] k']; simpl in Ho; try done. by etrans; [|apply IH].
Qed.

(** * The sink *)
Section sink.
Context `{!SerdeJson}.
Implicit Types g : glob (K := K).

Record fds_ok g : Prop := {
  fo_recv : recv_fds_ok (g_kern g) (handles (g_recv g));
  fo_dgram : dgram_fds_ok (g_kern g) (g_dgram g);
  fo_gates h x : g_gates g !! h = Some x → readable x }.

(** The sink's state after [g]: the kernel by [R], no entry for another
    descriptor, and the outbound registry grown by handles whose gate went. *)
Record moved g g' : Prop := {
  mv_kern : R (g_kern g) (g_kern g');
  mv_recv : kept_by RecvPump.inner_fd (handles (g_recv g)) (handles (g_recv g'));
  mv_dgram : kept_by dgram_fds (g_dgram g) (g_dgram g');
  mv_gates h x : g_gates g' !! h = Some x → g_gates g !! h = Some x;
  mv_out h x : g_out g !! h = Some x → g_out g' !! h = Some x;
  mv_out_new h x : g_out g' !! h = Some x → g_out g !! h = Some x ∨ g_gates g !! h = Some x }.
Definition keeps g g' : Prop := fds_ok g → moved g g'.

Lemma moved_ok g g' : moved g g' → fds_ok g → fds_ok g'.
Proof.
  intros [M1 M2 M3 M4 _ _] [F1 F2 F3]. split; [by eapply recv_fds_kept|by eapply dgram_fds_kept|].
  intros h x Hx. by eapply F3, M4.
Qed.

#[export] Instance keeps_preorder : PreOrder keeps.
Proof.
  split; [intros g _; split; by auto|]. intros g1 g2 g3 H12 H23 Hok. pose proof (H12 Hok) as M.
  destruct (H23 (moved_ok _ _ M Hok)) as [N1 N2 N3 N4 N5 N6]. destruct M as [M1 M2 M3 M4 M5 M6].
  split; [by etrans|by etrans|by etrans|by auto|by auto|].
  intros h x [Hx|Hx]%N6; [by apply M6|right; by apply M4].
Qed.

Lemma keeps_pumps fr fd k' g : (fds_ok g → R (g_kern g) k') →
  kept_by RecvPump.inner_fd (handles (g_recv g)) (handles (fr (g_recv g))) →
  kept_by dgram_fds (g_dgram g) (fd (g_dgram g)) →
  keeps g (upd_kern (λ _, k') (upd_dgram fd (upd_recv fr g))).
Proof. intros Hk Hr Hd Hok. split; simpl; auto. Qed.

Lemma keeps_recv f g : kept_by RecvPump.inner_fd (handles (g_recv g)) (handles (f (g_recv g))) →
  keeps g (upd_recv f g).
Proof. intros Hr Hok. split; simpl; try done; by auto. Qed.

Lemma keeps_flusher g : keeps g (flusher front_len g).
Proof.
  intros Hok. unfold flusher. pose proof (flusher_round_keeps (g_recv g) (g_kern g) (fo_recv g Hok)) as Hf.
  destruct (flusher_round _ _ _) as [st k]. destruct Hf as [H1 H2].
  by apply (keeps_pumps (λ _, st) (λ d, d) k).
Qed.

Lemma keeps_resolve h g : keeps g (resolve_connect_gate h g).
Proof.
  intros Hok. unfold resolve_connect_gate. destruct (g_gates g !! h) as [inner|] eqn:Hg; [|by apply keeps_preorder].
  split; try done; cbn [out_register upd_out upd_kern upd_gates g_kern g_recv g_dgram g_gates g_out].
  - apply drain_keeps. by eapply fo_gates.
  - by intros h' x [_ ?]%lookup_delete_Some.
  - intros h' x Hx. destruct (g_out g !! h) eqn:Hy; [done|]. by rewrite lookup_insert_ne by congruence.
  - intros h' x Hx. destruct (g_out g !! h) eqn:Hy; [by left|].
    apply lookup_insert_Some in Hx as [[<- <-]|[_ Hx]]; [by right|by left].
Qed.

#[export] Instance keeps_sink : SinkRel keeps.
Proof.
  split; [apply _| | | | | |]; simpl.
  - intros h d g Hok. pose proof (push_keeps h d (g_recv g) (g_kern g) (fo_recv g Hok)) as Hp.
    destruct (push _ _ _ _) as [st k]. destruct Hp. by apply (keeps_pumps (λ _, st) (λ d, d) k).
  - intros h a b d g Hok.
    pose proof (dgram_push_keeps h (mkDatagram a d) (g_dgram g) (g_kern g) (fo_dgram g Hok)) as Hp.
    destruct (dgram_push _ _ _ _) as [st k]. destruct Hp. by apply (keeps_pumps (λ r, r) (λ _, st) k).
  - done.
  - intros h f g. case_match; [apply keeps_resolve|reflexivity].
  - intros h g. etrans; [apply (keeps_resolve h)|]. apply keeps_recv. by apply kept_by_alter.
  - intros g. set (g1 := foldr _ g _).
    assert (keeps g g1) as H1.
    { unfold g1. induction (fst <$> map_to_list (g_gates g)) as [|h hs IH]; [reflexivity|].
      simpl. etrans; [exact IH|apply keeps_resolve]. }
    etrans; [exact H1|]. clearbody g1. set (g2 := upd_recv shutdown_all g1).
    assert (keeps g1 g2) as H2 by (apply keeps_recv; by apply kept_by_fmap).
    etrans; [exact H2|]. intros Hok. unfold dgram_shutdown_all.
    pose proof (shutdown_entries_keeps (map_to_list (g_dgram g2)) (g_dgram g2) (g_kern g2)
      (fo_dgram g2 Hok)) as Hs.
    destruct (shutdown_entries _ _ _) as [st k]. destruct Hs as [H3 H4].
    + intros h e Hin%elem_of_map_to_list. by exists e.
    + apply NoDup_fst_map_to_list.
    + by apply (keeps_pumps (λ r, r) (λ _, st) k).
Qed.
End sink.
End pumps.
