(* ===== verification/ReadLoop.v ===== *)
(** An application that reads its descriptor to the end, with the flusher of
    [RecvPump.v] at work: it gets every byte and then the end of file, after at most
    as many reads as there are bytes and one.  It is what the test
    [recv_pump_never_drops_data_and_eof_follows_backlog] of
    [ax25-interpose/src/state.rs] tries with a mebibyte. *)
From stdpp Require Import prelude gmap.
From Stdlib Require Import ZArith Lia.
From S2P Require Import Prelude Errors Sockets RecvPump RecvSpec PumpKeeps.
Local Open Scope Z_scope.

Section reading.
Context {K : Type} `{!Kernel K, !KernelLaws K}.
Variable front_len : list Z → nat.
Hypothesis front_len_ok : ∀ b, b ≠ [] → (1 ≤ front_len b ≤ List.length b)%nat.
(** A read finds the end of file once the other end was shut down and all was read. *)
Hypothesis at_eof : ∀ fd n (k : K), (0 < n)%nat → unread k fd = [] → shut k (peer k fd) = true →
  fst (krecv fd n k) = Ok [].
Implicit Types k : K.

(** The loop of reads of 8 KiB, the flusher running before each; [None]: an error,
    or more reads than [fuel]. *)
Fixpoint read_to_eof (fuel : nat) (app : Z) (st : PumpState) k (got : list Z) : option (list Z) :=
  match fuel with
  | O => None
  | S fuel =>
    let '(st, k) := flusher_round front_len st k in
    match krecv app (Z.to_nat 8192) k with
    | (Ok [], _) => Some got
    | (Ok b, k) => read_to_eof fuel app st k (got ++ b)
    | (Err e, k) => if decide (retry e) then read_to_eof fuel app st k got else None
    end
  end.

Variables (h app inner : Z).

(** What a write on [inner], and on descriptors that do not lead to [app], does:
    what was accepted is what was read followed by what can be. *)
Definition piped k k' : Prop :=
  same_pairs k k' ∧ (peer k inner = app → ∀ got,
    written k inner = got ++ unread k app → written k' inner = got ++ unread k' app).
Definition not_there k (x : Z) : Prop := x = inner ∨ peer k x ≠ app.

#[local] Instance piped_rel : KernelRel piped not_there.
Proof.
  split.
  - split; [by intros k|]. intros k1 k2 k3 [P1 L1] [P2 L2]. split.
    + intros x. destruct (P1 x), (P2 x). split; congruence.
    + intros Hp got Hg. apply L2; [by destruct (P1 inner) as [-> _]|by apply L1].
  - intros k k' x [Hp _] [->|Hx]; [by left|right]. by destruct (Hp x) as [-> _].
  - intros x d k Hd Hx. destruct (ksend x d k) as [[n|err] k'] eqn:Hk; simpl.
    + destruct (ksend_ok _ _ _ _ _ Hd Hk) as (_ & _ & Hw & Hwo & Hu & Huo & _ & Hp). split; [done|].
      intros Hpeer got Hg. destruct (decide (x = inner)) as [->|Hne].
      * rewrite Hpeer in Hu. by rewrite Hw, Hu, Hg, <- app_assoc.
      * destruct Hx as [?|Hx]; [done|]. by rewrite Hwo, Huo by congruence.
    + destruct (ksend_err _ _ _ _ _ Hk) as (Ho & Hu & Hp & _). split; [done|].
      intros _ got Hg. destruct (Ho inner) as [-> _]. by rewrite Hu.
  - intros x k _. destruct (kshutdown_ok x k) as (_ & _ & Hw & Hu & Hp). split; [done|].
    intros _ got Hg. by rewrite Hw, Hu.
Qed.

(** The handle's entry, the other entries, and what the application has read. *)
Record reading (data got : list Z) (st : PumpState) k : Prop := {
  rd_inv : inv h inner data true false (st, k);
  rd_fds : recv_fds_ok not_there k (handles st);
  rd_peer : peer k inner = app;
  rd_back : peer k app = inner;
  rd_here : gone k inner = false;
  rd_got : written k inner = got ++ unread k app }.

Lemma reading_flushed data got st k : reading data got st k →
  let '(st', k') := flusher_round front_len st k in
  reading data got st' k' ∧ (unread k' app = [] → got = data ∧ shut k' inner = true).
Proof.
  intros [Hi Hf Hp Hb Hg Hgot].
  pose proof (inv_flush front_len front_len_ok h inner _ _ _ _ _ Hi) as Hi'.
  pose proof (flusher_round_keeps piped not_there front_len st k Hf) as Hk.
  pose proof (flusher_round_flushed front_len front_len_ok st k h) as Hfl.
  destruct (flusher_round front_len st k) as [st' k']. destruct Hk as [Hkept Hr].
  pose proof Hr as [Hsp Hl]. destruct (Hsp inner) as [E1 E2], (Hsp app) as [E3 _].
  assert (reading data got st' k') as Hrd.
  { split; [done|exact (recv_fds_kept piped not_there _ _ _ _ Hr Hkept Hf)|congruence..|by apply Hl]. }
  split; [done|]. intros Hu. destruct Hi' as [_ Hi']. simpl in Hi', Hfl.
  destruct (handles st' !! h) as [e|]; [|destruct Hi'; congruence].
  destruct (flushed_inv inner _ _ _ _ Hi' (Hfl e eq_refl)) as [[Hbe Hs]|[Hn|Hn]];
    [|by rewrite (rd_peer _ _ _ _ Hrd) in Hn|by rewrite (rd_here _ _ _ _ Hrd) in Hn].
  split; [|by apply Hs]. pose proof (ei_bytes _ _ _ _ _ Hi') as Hby. pose proof (rd_got _ _ _ _ Hrd) as Hgot'.
  rewrite Hbe, app_nil_r in Hby. rewrite Hu, app_nil_r in Hgot'. congruence.
Qed.

Lemma reading_more data got st k b k' n : (0 < n)%nat → krecv app n k = (Ok b, k') →
  reading data got st k → reading data (got ++ b) st k'.
Proof.
  intros Hn Hr [Hi Hf Hp Hb Hg Hgot]. destruct (krecv_ok _ _ _ _ _ Hn Hr) as (_ & Hu & _ & _ & Ho & Hsp).
  destruct (Ho inner) as [E1 _], (Hsp inner) as [E2 E3], (Hsp app) as [E4 _].
  split; [|intros x e He|congruence..|].
  - apply (inv_env h inner _ _ _ _ k); [done| |done]. intros x. by destruct (Hsp x) as [_ ->].
  - destruct (Hf x e He) as [?|?]; [by left|right]. by destruct (Hsp (RecvPump.inner_fd e)) as [-> _].
  - by rewrite E1, Hgot, Hu, app_assoc.
Qed.

(** The loop ends: each read but the last takes a byte. *)
Lemma reading_ends fuel data got st k : reading data got st k →
  (List.length data < fuel + List.length got)%nat → read_to_eof fuel app st k got = Some data.
Proof.
  revert got st k. induction fuel as [|fuel IH]; intros got st k Hrd Hlt.
  - exfalso. destruct (rd_inv _ _ _ _ Hrd) as [_ Hi]. simpl in Hi.
    destruct (handles st !! h) as [e|]; [|destruct Hi; [|done]; by rewrite (rd_here _ _ _ _ Hrd) in *].
    pose proof (ei_bytes _ _ _ _ _ Hi) as Hby. rewrite (rd_got _ _ _ _ Hrd) in Hby.
    apply (f_equal List.length) in Hby. rewrite !length_app in Hby. lia.
  - cbn [read_to_eof]. pose proof (reading_flushed _ _ _ _ Hrd) as Hf.
    destruct (flusher_round front_len st k) as [st1 k1]. destruct Hf as [Hrd1 Hend].
    assert (0 < Z.to_nat 8192)%nat as Hn by lia.
    assert (unread k1 app = [] → fst (krecv app (Z.to_nat 8192) k1) = Ok [] ∧ got = data) as Heof.
    { intros Hu. destruct (Hend Hu) as [-> Hs]. split; [|done]. apply at_eof; [done|done|].
      by rewrite (rd_back _ _ _ _ Hrd1). }
    clear Hend. destruct (krecv app (Z.to_nat 8192) k1) as [[[|c b]|err] k2] eqn:Hr.
    + destruct (krecv_ok _ _ _ _ _ Hn Hr) as (_ & _ & Hu & _). by destruct (Heof (Hu eq_refl)) as [_ ->].
    + apply IH; [by eapply reading_more|]. rewrite length_app. simpl. lia.
    + destruct (krecv_err _ _ _ _ _ Hn Hr) as (Hu & _). by destruct (Heof Hu).
Qed.

Lemma read_whole data st k :
  (∀ x e, x ≠ h → handles st !! x = Some e → inner_fd e ≠ inner ∧ peer k (inner_fd e) ≠ app) →
  peer k app = inner → peer k inner = app → gone k inner = false → shut k inner = false →
  written k inner = [] → unread k app = [] →
  let all := default [] (early st !! h) ++ data in
  let '(st', k') := push h data (register h inner st) k in
  read_to_eof (S (List.length all)) app (mark_eof h st') k' [] = Some all.
Proof.
  intros Ho Hpa Hpi Hg Hs Hw Hu all. set (st0 := register h inner st).
  assert (inv h inner (default [] (early st !! h)) false false (st0, k)) as Hi0.
  { split; simpl; [intros x e Hx; rewrite lookup_insert_ne by done; intros He; by destruct (Ho x e Hx He)|].
    rewrite lookup_insert_eq. constructor; simpl; try done. by rewrite Hw. }
  assert (recv_fds_ok not_there k (handles st0)) as Hf0.
  { intros x e. simpl. intros [[_ <-]|[Hx He]]%lookup_insert_Some; [by left|right]. by destruct (Ho x e). }
  pose proof (pump_inv_step front_len front_len_ok h inner (Push h data) _ _ _ _ _ I Hi0) as Hi1.
  pose proof (push_keeps piped not_there h data st0 k Hf0) as Hk.
  unfold late_push in Hi1. simpl in Hi1. rewrite decide_True in Hi1 by done. fold all in Hi1.
  destruct (push h data st0 k) as [st1 k1]. destruct Hk as [Hkept Hr]. pose proof Hr as [Hsp Hl].
  pose proof (pump_inv_step front_len front_len_ok h inner (MarkEof h) _ _ _ _ _ I Hi1) as Hi2.
  unfold late_push in Hi2. simpl in Hi2. rewrite bool_decide_true, app_nil_r in Hi2 by done.
  apply reading_ends; [|simpl; lia]. destruct (Hsp inner) as [E1 E2], (Hsp app) as [E3 _].
  split; [exact Hi2| |congruence..|].
  - pose proof (recv_fds_kept piped not_there _ _ _ _ Hr Hkept Hf0) as Hf1. intros x e He. simpl in He.
    apply lookup_alter_Some in He as [(<- & e0 & He & ->)|[_ He]]; exact (Hf1 _ _ He).
  - apply Hl; [done|]. by rewrite Hw, Hu.
Qed.

(** C4: an application that reads its descriptor while the flusher is at work gets all
    that was staged and pushed for its handle, however much more than the kernel's
    buffers hold, and then the end of file, the close having come with a backlog
    still there; in at most a read per byte and one. *)
Theorem reader_gets_all data st k :
  (∀ x e, x ≠ h → handles st !! x = Some e → inner_fd e ≠ inner ∧ peer k (inner_fd e) ≠ app) →
  peer k app = inner → peer k inner = app → gone k inner = false → shut k inner = false →
  written k inner = [] → unread k app = [] →
  let all := default [] (early st !! h) ++ data in
  let '(st', k') := push h data (register h inner st) k in
  read_to_eof (S (List.length all)) app (mark_eof h st') k' [] = Some all.
Proof. apply read_whole. Qed.
End reading.

(** * Witness: five times what the buffers of [Pairs] hold, a banner staged. *)
#[local] Existing Instances Pairs.kernel_pairs Pairs.laws_pairs.

Lemma pairs_at_eof fd n (k : Pairs.kernel) : (0 < n)%nat → unread k fd = [] → shut k (peer k fd) = true →
  fst (krecv fd n k) = Ok [].
Proof.
  intros _ Hu Hs. simpl in *. unfold Pairs.recv. rewrite Hu. apply bool_decide_eq_true in Hs.
  by rewrite decide_True.
Qed.

(** [(i..).map(|i| (i % 251) as u8)]. *)
Fixpoint pattern (n : nat) (i : Z) : list Z :=
  match n with O => [] | S n => i mod 251 :: pattern n (i + 1) end.

Lemma length_pattern n i : List.length (pattern n i) = n.
Proof. revert i. induction n as [|n IH]; intros i; [done|]. simpl. by rewrite IH. Qed.

Lemma reader_gets_all_witness :
  let st := mkPumpState ∅ {[7 := [1; 2; 3]]} in
  let '(st', k') := push 7 (pattern (Z.to_nat 20480) 0) (register 7 4 st) one_pair in
  (List.length (written k' 4) < Z.to_nat 20480)%nat ∧
  read_to_eof whole (S (List.length ([1; 2; 3] ++ pattern (Z.to_nat 20480) 0))) 3 (mark_eof 7 st') k' [] =
    Some ([1; 2; 3] ++ pattern (Z.to_nat 20480) 0).
Proof.
  intros st. pose proof (reader_gets_all whole whole_ok pairs_at_eof 7 3 4 (pattern (Z.to_nat 20480) 0) st one_pair) as Hr.
  assert (Nat.ltb (List.length (written (snd (push 7 (pattern (Z.to_nat 20480) 0) (register 7 4 st) one_pair)) 4))
    (Z.to_nat 20480) = true) as Hl by (vm_compute; reflexivity).
  destruct (push 7 _ _ _) as [st' k']. cbn [snd] in Hl. apply Nat.ltb_lt in Hl. split; [exact Hl|].
  apply Hr; [|vm_compute; reflexivity..].
  intros x e _ He. cbn in He. by rewrite lookup_empty in He.
Defined.
