(* ===== verification/OutSpec.v ===== *)
(** What the outbound pump of [State.v] promises: bytes the application wrote past
    the interposed calls, into its socketpair, reach the engine in the order they
    were written, and before the data of a later interposed write. *)
From stdpp Require Import prelude gmap.
From Stdlib Require Import ZArith Lia String.
From S2P Require Import Prelude Str Errors Codec Framing Messages Client ClientSpec Sockets.
From S2P Require Import RecvPump DgramPump State.
Local Open Scope Z_scope.

Section spec.
Context `{!SerdeJson, !SerdeJsonLaws} {K : Type} `{!Kernel K, !KernelLaws K}.
Implicit Types st : sys (S := glob (K := K)).

Definition pending_out (inner : Z) st : list Z := unread (g_kern (sk st)) inner.

(** What draining leaves of the sink's state: everything but one queue. *)
Record drained (inner : Z) st st' : Prop := {
  dr_glob : sk st' = upd_kern (λ _, g_kern (sk st')) (sk st);
  dr_empty : pending_out inner st' = [];
  dr_others : ∀ x, x ≠ inner → unread (g_kern (sk st')) x = unread (g_kern (sk st)) x;
  dr_out : same_out (g_kern (sk st)) (g_kern (sk st'));
  dr_pairs : same_pairs (g_kern (sk st)) (g_kern (sk st')) }.

Lemma chunks_small {A} n (l : list A) : l ≠ [] → (List.length l ≤ n)%nat → chunks n l = [l].
Proof.
  intros Hl Hn. destruct l as [|x l]; [done|]. unfold chunks. cbn [List.length chunks_go].
  rewrite firstn_all2, skipn_all2 by done. by destruct (List.length l).
Qed.

Lemma can_send_sk replies rest f st :
  can_send replies rest st → can_send replies rest (upd_sk f st).
Proof. by intros []. Qed.

Lemma has_sent_sk h ds ps f st st' : has_sent h ds ps (upd_sk f st) st' → has_sent h ds ps st st'.
Proof. by intros []. Qed.

Lemma has_sent_nil h st : wr_left (writer (cl st)) = None → has_sent h [] [] st st.
Proof.
  intros Hw. split; [done|constructor| |simpl; lia].
  simpl. rewrite app_nil_r. destruct (writer (cl st)). simpl in *. congruence.
Qed.

Lemma can_send_writer replies rest st : can_send replies rest st → wr_left (writer (cl st)) = None.
Proof. by intros []. Qed.

(** A read that finds nothing. *)
Lemma drained_stop inner k st :
  unread (g_kern (sk st)) inner = [] → (∀ x, unread k x = unread (g_kern (sk st)) x) →
  same_out (g_kern (sk st)) k → same_pairs (g_kern (sk st)) k →
  drained inner st (upd_sk (upd_kern (λ _, k)) st).
Proof. intros Hu Hx Ho Hp. split; [done| |done..]. unfold pending_out. simpl. congruence. Qed.

Lemma recv_nothing inner n k r k' : (0 < n)%nat → krecv inner n k = (r, k') →
  match r with Ok (_ :: _) => False | _ => True end →
  unread k inner = [] ∧ (∀ x, unread k' x = unread k x) ∧ same_out k k' ∧ same_pairs k k'.
Proof.
  intros Hn Hr Hnone. destruct r as [[|x b]|e]; [|done|].
  - destruct (krecv_ok _ _ _ _ _ Hn Hr) as (_ & Hu & Hb & Hx & Ho & Hp).
    split_and!; [by apply Hb| |done..]. intros y. destruct (decide (y = inner)) as [->|]; [done|by apply Hx].
  - by apply (krecv_err _ _ _ _ _ Hn Hr).
Qed.

Lemma drained_step inner st1 st2 st3 k :
  sk st2 = upd_kern (λ _, k) (sk st1) →
  (∀ x, x ≠ inner → unread k x = unread (g_kern (sk st1)) x) →
  same_out (g_kern (sk st1)) k → same_pairs (g_kern (sk st1)) k →
  drained inner st2 st3 → drained inner st1 st3.
Proof.
  intros Hk Hx Ho Hp [D1 D2 D3 D4 D5]. rewrite Hk in *. simpl in *. split; try done.
  - intros x Hne. rewrite D3 by done. by apply Hx.
  - intros fd. destruct (D4 fd), (Ho fd). split; congruence.
  - intros fd. destruct (D5 fd), (Hp fd). split; congruence.
Qed.

(** The bytes of one queue go out in order, in requests the replies suffice for,
    and the fuel is enough. *)
Lemma out_drain_wire fuel h inner replies rest st :
  0 ≤ h < 2 ^ 64 → Forall is_byte (pending_out inner st) →
  (List.length (pending_out inner st) < fuel)%nat →
  (List.length (pending_out inner st) ≤ List.length replies)%nat → can_send replies rest st →
  let st' := snd (out_drain fuel h inner st) in
  ∃ ds ps, mjoin ds = pending_out inner st ∧ has_sent h ds ps st st' ∧
    (List.length ds ≤ List.length (pending_out inner st))%nat ∧
    can_send (drop (List.length ds) replies) rest st' ∧ drained inner st st'.
Proof.
  intros Hh. revert replies st.
  induction fuel as [|fuel IH]; intros replies st Hb Hf Hlen Hst; [lia|].
  cbn [out_drain]. destruct (krecv inner 4096 (g_kern (sk st))) as [r k] eqn:Hr.
  set (st1 := upd_sk (upd_kern (λ _, k)) st).
  assert (can_send replies rest st1) as Hst1 by by apply can_send_sk.
  destruct (match r with Ok (_ :: _) => true | _ => false end) eqn:Hsome.
  - destruct r as [[|x b]|]; try done. set (c := x :: b) in *.
    destruct (krecv_ok _ _ _ _ _ (Nat.lt_0_succ _) Hr) as (Hbl & Hu & _ & Hx & Ho & Hp).
    unfold pending_out in Hb, Hf, Hlen |- *. rewrite Hu in Hb, Hf, Hlen |- *.
    rewrite length_app in Hf, Hlen |- *. apply Forall_app in Hb as [Hbc Hbu].
    assert (1 ≤ List.length c)%nat as Hc1 by (unfold c; simpl; lia).
    assert (send_parts c = [c]) as Hck
      by (apply (chunks_small (Z.to_nat MAX_SEND_CHUNK) c); [done|unfold MAX_SEND_CHUNK; lia]).
    destruct (send_wire h c replies rest st1) as (st2 & ps & Hs & Hh2 & Hc2 & Hk2);
      [done|done|rewrite Hck; simpl; lia|done|]. rewrite Hck in Hh2, Hc2.
    rewrite Hs. cbn [snd].
    assert (pending_out inner st2 = unread k inner) as Hpo by (unfold pending_out; by rewrite Hk2).
    destruct (IH (drop 1 replies) st2) as (ds & ps' & Hj & Hh3 & Hl3 & Hc3 & Hd3);
      [by rewrite Hpo|rewrite Hpo; lia|rewrite Hpo, length_drop; lia|done|].
    rewrite Hpo in Hj, Hl3. exists (c :: ds), (ps ++ ps'). split_and!.
    + by rewrite <- Hj.
    + eapply (has_sent_trans h [c] ps ds ps' st st2); [by eapply has_sent_sk|done].
    + simpl in *. lia.
    + by rewrite drop_drop in Hc3.
    + by apply (drained_step inner st st2 _ k).
  - assert (snd (match r with
        | Ok ((_ :: _) as b) => out_drain fuel h inner (snd (Client.send h b (upd_sk (upd_kern (λ _, k)) st)))
        | Ok [] => (None, upd_sk (upd_kern (λ _, k)) st)
        | Err e => (Some e, upd_sk (upd_kern (λ _, k)) st) end) = st1) as Heq by by destruct r as [[|]|].
    fold st1 in Heq |- *. rewrite Heq.
    destruct (recv_nothing _ _ _ _ _ (Nat.lt_0_succ _) Hr) as (Hu & Hx & Ho & Hp);
      [by destruct r as [[|]|]|].
    exists [], []. split_and!.
    + by unfold pending_out; rewrite Hu.
    + apply (has_sent_sk h [] [] (upd_kern (λ _, k))), has_sent_nil. by eapply can_send_writer.
    + simpl. lia.
    + done.
    + by apply drained_stop.
Qed.

(** * Executions

    A connected socket, whose application's end is [app]: writes that bypass the
    interposed calls and go into the socketpair, as far as it has room; interposed
    writes; the pump's thread.  A run gives the bytes the application wrote. *)
Inductive out_op := ORaw (d : list Z) | OWrite (d : list Z) | OFlush.

Definition out_step (app h : Z) (op : out_op) st : list Z * sys :=
  match op with
  | ORaw d =>
    let '(r, k) := ksend app d (g_kern (sk st)) in
    (match r with Ok n => take n d | Err _ => [] end, upd_sk (upd_kern (λ _, k)) st)
  | OWrite d => (d, snd (send_ordered h d st))
  | OFlush => ([], out_flush h st)
  end.
Fixpoint out_run (app h : Z) (ops : list out_op) st : list Z * sys :=
  match ops with
  | [] => ([], st)
  | op :: ops =>
    let '(d, st) := out_step app h op st in
    let '(ds, st) := out_run app h ops st in (d ++ ds, st)
  end.

Definition out_op_ok (op : out_op) : Prop :=
  match op with
  | ORaw d => d ≠ [] ∧ Forall is_byte d
  | OWrite d => Forall is_byte d
  | OFlush => True
  end.
(** How many requests an operation may come to, sooner or later. *)
Definition out_cost (op : out_op) : nat :=
  match op with ORaw d => List.length d | OWrite d => List.length (send_parts d) | OFlush => 0 end.
Definition forwards (op : out_op) : bool := match op with ORaw _ => false | _ => true end.

Record connected (app inner h : Z) st : Prop := {
  cn_out : g_out (sk st) !! h = Some inner;
  cn_peer : peer (g_kern (sk st)) app = inner;
  cn_bytes : Forall is_byte (pending_out inner st) }.

(** What happened from [st] to [st'], [n] replies having been there to use. *)
Definition forwarded (app inner h : Z) (log : list Z) (n : nat) (replies : list (list Z)) rest st st' :=
  ∃ ds ps, has_sent h ds ps st st' ∧ mjoin ds ++ pending_out inner st' = pending_out inner st ++ log ∧
    (List.length ds + List.length (pending_out inner st') ≤ List.length (pending_out inner st) + n)%nat ∧
    can_send (drop (List.length ds) replies) rest st' ∧ connected app inner h st'.

Lemma connected_drained app inner h st st' :
  connected app inner h st → drained inner st st' → connected app inner h st'.
Proof.
  intros [C1 C2 C3] [D1 D2 _ _ D5]. split.
  - by rewrite D1.
  - destruct (D5 app). congruence.
  - by rewrite D2.
Qed.

Lemma connected_sk app inner h st st' :
  connected app inner h st → sk st' = sk st → connected app inner h st'.
Proof. intros [] Hk. by split; unfold pending_out; rewrite ?Hk. Qed.

Lemma out_flush_forwards app inner h replies rest st :
  0 ≤ h < 2 ^ 64 → connected app inner h st → can_send replies rest st →
  (List.length (pending_out inner st) ≤ List.length replies)%nat →
  forwarded app inner h [] 0 replies rest st (out_flush h st) ∧
  pending_out inner (out_flush h st) = [].
Proof.
  intros Hh Hcn Hst Hlen. unfold out_flush, drain_handle. rewrite (cn_out _ _ _ _ Hcn). unfold drain_locked.
  destruct (out_drain_wire (Datatypes.S (List.length (pending_out inner st))) h inner replies rest st)
    as (ds & ps & Hj & Hh1 & Hl1 & Hc1 & Hd1); [done|apply Hcn|lia|done|done|].
  pose proof (dr_empty _ _ _ Hd1) as He. split; [|done]. exists ds, ps.
  fold (pending_out inner st). rewrite He, !app_nil_r. split_and!; [done|done|simpl; lia|done|].
  by eapply connected_drained.
Qed.

Lemma forwarded_trans app inner h l1 l2 n1 n2 replies rest st1 st2 st3 :
  forwarded app inner h l1 n1 replies rest st1 st2 →
  (∀ ds : list (list Z), can_send (drop (List.length ds) replies) rest st2 →
     (List.length ds + List.length (pending_out inner st2) ≤ List.length (pending_out inner st1) + n1)%nat →
     connected app inner h st2 →
     forwarded app inner h l2 n2 (drop (List.length ds) replies) rest st2 st3) →
  forwarded app inner h (l1 ++ l2) (n1 + n2) replies rest st1 st3.
Proof.
  intros (ds & ps & H1 & H2 & H3 & H4 & H5) Hnext.
  destruct (Hnext ds H4 H3 H5) as (ds' & ps' & J1 & J2 & J3 & J4 & J5).
  exists (ds ++ ds'), (ps ++ ps'). split_and!; [by eapply has_sent_trans| | | |done].
  - by rewrite join_app, <- app_assoc, J2, app_assoc, H2, <- app_assoc.
  - rewrite length_app. lia.
  - by rewrite length_app, <- drop_drop.
Qed.

Lemma out_step_forwards app inner h op replies rest st :
  0 ≤ h < 2 ^ 64 → out_op_ok op → connected app inner h st → can_send replies rest st →
  (List.length (pending_out inner st) + out_cost op ≤ List.length replies)%nat →
  let '(d, st') := out_step app h op st in
  forwarded app inner h d (out_cost op) replies rest st st' ∧
  (forwards op = true → pending_out inner st' = []).
Proof.
  intros Hh Hop Hcn Hst Hlen. destruct op as [d|d|]; cbn [out_step out_cost] in *.
  - destruct Hop as [Hne Hd]. destruct (ksend app d (g_kern (sk st))) as [r k] eqn:Hk.
    split; [|done]. exists [], []. cbn [mjoin list_join]. rewrite app_nil_l. cbn [List.length drop].
    pose proof (can_send_sk replies rest (upd_kern (λ _, k)) st Hst) as Hst'.
    assert (has_sent h [] [] st (upd_sk (upd_kern (λ _, k)) st)) as Hhs
      by (apply (has_sent_sk h [] [] (upd_kern (λ _, k))), has_sent_nil; by eapply can_send_writer).
    destruct Hcn as [C1 C2 C3]. destruct r as [n|e].
    + destruct (ksend_ok _ _ _ _ _ Hne Hk) as (Hn & _ & _ & _ & Hu & _ & _ & Hp). rewrite C2 in Hu.
      assert (pending_out inner (upd_sk (upd_kern (λ _, k)) st) = pending_out inner st ++ take n d)
        as Hpo by exact Hu.
      rewrite Hpo, length_app, length_take. split_and!; [done|done|lia|done|]. split; [done| |].
      * simpl. destruct (Hp app). congruence.
      * rewrite Hpo. apply Forall_app. split; [done|]. by apply Forall_take.
    + destruct (ksend_err _ _ _ _ _ Hk) as (_ & Hu & Hp & _).
      assert (pending_out inner (upd_sk (upd_kern (λ _, k)) st) = pending_out inner st) as Hpo
        by exact (Hu inner).
      rewrite Hpo, app_nil_r. split_and!; [done|done|lia|done|]. split; [done| |by rewrite Hpo].
      simpl. destruct (Hp app). congruence.
  - destruct (out_flush_forwards app inner h replies rest st) as [Hf He]; [done..|lia|].
    split; [|intros _].
    + apply (forwarded_trans app inner h [] d 0 (List.length (send_parts d)) replies rest st (out_flush h st)); [exact Hf|].
      intros ds Hc Hl Hcn'.
      destruct (send_wire h d (drop (List.length ds) replies) rest (out_flush h st))
        as (st' & ps & Hs & Hh2 & Hc2 & Hk2); [done|done|rewrite length_drop; lia|done|].
      rewrite send_ordered_snd, Hs. cbn [snd].
      assert (pending_out inner st' = []) as He' by (unfold pending_out; by rewrite Hk2).
      exists (send_parts d), ps. rewrite He', He, app_nil_r. destruct (send_parts_ok d Hop) as [Hj _].
      split_and!; [done|done|cbn [List.length]; lia|done|by eapply connected_sk].
    + destruct Hf as (ds & _ & _ & _ & Hl & Hc & _).
      destruct (send_wire h d (drop (List.length ds) replies) rest (out_flush h st))
        as (st' & ps & Hs & _ & _ & Hk2); [done|done|rewrite length_drop; lia|done|].
      rewrite send_ordered_snd, Hs. cbn [snd]. unfold pending_out. by rewrite Hk2.
  - destruct (out_flush_forwards app inner h replies rest st) as [Hf He]; [done..|lia|].
    by split.
Qed.

Lemma out_run_forwards app inner h ops replies rest st :
  0 ≤ h < 2 ^ 64 → Forall out_op_ok ops → connected app inner h st → can_send replies rest st →
  (List.length (pending_out inner st) + sum_list_with out_cost ops ≤ List.length replies)%nat →
  let '(log, st') := out_run app h ops st in
  forwarded app inner h log (sum_list_with out_cost ops) replies rest st st' ∧
  (default false (forwards <$> last ops) = true → pending_out inner st' = []).
Proof.
  intros Hh Hops. revert replies st.
  induction Hops as [|op ops Hop _ IH]; intros replies st Hcn Hst Hlen.
  { split; [|done]. exists [], []. cbn [sum_list_with mjoin list_join List.length drop].
    rewrite app_nil_r, app_nil_l. split_and!; [|done|lia|done|done].
    apply has_sent_nil. by eapply can_send_writer. }
  cbn [out_run sum_list_with] in *.
  pose proof (out_step_forwards app inner h op replies rest st Hh Hop Hcn Hst ltac:(lia)) as Hstep.
  destruct (out_step app h op st) as [d st1]. destruct Hstep as [Hfw He].
  pose proof Hfw as (ds & _ & _ & _ & Hl & Hc & Hcn1).
  pose proof (IH (drop (List.length ds) replies) st1 Hcn1 Hc) as IH1.
  rewrite length_drop in IH1. specialize (IH1 ltac:(lia)).
  destruct (out_run app h ops st1) as [log st2] eqn:Hrun. destruct IH1 as [IH1 IH2]. split.
  - eapply (forwarded_trans app inner h d log _ _ replies rest st st1); [exact Hfw|].
    intros ds' Hc' Hl' _. pose proof (IH (drop (List.length ds') replies) st1 Hcn1 Hc') as IH'.
    rewrite length_drop, Hrun in IH'. apply IH'. lia.
  - destruct ops as [|op' ops]; [|exact IH2]. injection Hrun as <- <-. exact He.
Qed.

(** C16: what the application writes reaches the engine in the order it was
    written, whichever way each write went, the interposed calls or the
    socketpair behind them: over any sequence of both and of the pump's turns,
    the payloads of the requests on the wire, with the bytes still in the
    socketpair, are the bytes written so far, and after an interposed write or
    a turn of the pump nothing is left in the socketpair.  The engine acknowledges
    the requests, and nothing else arrives meanwhile. *)
Theorem outbound_order app inner h ops replies rest st :
  0 ≤ h < 2 ^ 64 → Forall out_op_ok ops → connected app inner h st → can_send replies rest st →
  writer (cl st) = mkWriter [] None →
  (List.length (pending_out inner st) + sum_list_with out_cost ops ≤ List.length replies)%nat →
  let '(log, st') := out_run app h ops st in
  ∃ ps ds, read_frames (Datatypes.S (List.length ds)) (mkReader (wr_bytes (writer (cl st'))) None) = Ok ps ∧
    sends h (next_id_ (cl st) + 1) ps ds ∧
    mjoin ds ++ pending_out inner st' = pending_out inner st ++ log ∧
    (default false (forwards <$> last ops) = true → pending_out inner st' = []).
Proof.
  intros Hh Hops Hcn Hst Hw Hlen.
  pose proof (out_run_forwards app inner h ops replies rest st Hh Hops Hcn Hst Hlen) as Hrun.
  destruct (out_run app h ops st) as [log st']. destruct Hrun as [(ds & ps & Hs & Hj & _) He].
  exists ps, ds. split_and!; [by eapply sent_read_back|apply Hs|done|done].
Qed.
End spec.

(** * Witness *)
Import Example.
#[local] Existing Instances Pairs.kernel_pairs Pairs.laws_pairs.
Local Open Scope string_scope.

Definition out_replies : list (list Z) := [reply 1 0; reply 2 0; reply 3 0; reply 4 0].
Definition out_ops : list out_op := [ORaw [1; 2]; OWrite [3]; ORaw [4]; OFlush].
Definition out_start : sys (S := glob) :=
  mkSys (new_client (mkWriter [] None))
    (mkGlob pump_new ∅ {[7 := 4]} ∅ (snd (Pairs.socketpair Pairs.empty)))
    (ack_script out_replies []).

Ltac ack_by i :=
  split; [exists (Tagged.VObj (fields_reply i 0)); repeat split; vm_compute; vm_compute; reflexivity|].

Lemma outbound_order_witness :
  ∃ log st' ps ds, out_run 3 7 out_ops out_start = (log, st') ∧
    read_frames (Datatypes.S (List.length ds)) (mkReader (wr_bytes (writer (cl st'))) None) = Ok ps ∧
    sends 7 1 ps ds ∧ mjoin ds = [1; 2; 3; 4].
Proof.
  assert (fst (out_run 3 7 out_ops out_start) = [1; 2; 3; 4]) as Hlog by (vm_compute; reflexivity).
  pose proof (outbound_order 3 4 7 out_ops out_replies [] out_start) as Ho.
  destruct (out_run 3 7 out_ops out_start) as [log st']. simpl in Hlog.
  destruct Ho as (ps & ds & Hr & Hs & Hj & He).
  - by_decide.
  - repeat constructor; by_decide.
  - split; [vm_compute; reflexivity|vm_compute; reflexivity|constructor].
  - split; [reflexivity|reflexivity|reflexivity|by_decide| |reflexivity].
    ack_by 1. ack_by 2. ack_by 3. ack_by 4. exact I.
  - reflexivity.
  - apply Nat.leb_le. vm_compute. reflexivity.
  - exists log, st', ps, ds. rewrite (He eq_refl), app_nil_r in Hj.
    change (pending_out 4 out_start) with (@nil Z) in Hj. rewrite Hlog in Hj. by split_and!.
Defined.
