(* ===== verification/OutThreads.v ===== *)
(** [crates/ax25-interpose/src/state.rs], the outbound pump with its threads: any
    number of interposed writes and flushes of one connected socket, at once.

    Each looks the entry up, waits for the entry's [serial] lock, drains the
    socketpair into the client chunk by chunk, and a write then sends its own
    data; the application's bypassed writes, the reader, the flusher, the other
    sockets and the rest of the process run between any two of its steps.  A
    request to the engine is one step: [Client.v] gives requests of different
    threads different ids.  The theorems: the lock keeps the bytes in the order
    they were written, and is always released. *)
From stdpp Require Import prelude gmap.
From Stdlib Require Import ZArith Lia String.
From S2P Require Import Prelude Str Errors Framing Messages Client ClientSpec ClientKeeps Sockets.
From S2P Require Import RecvPump DgramPump State PumpKeeps OutSpec.
Local Open Scope Z_scope.

(** A turn of the pump's thread for the handle, or an interposed write. *)
Inductive job := JFlush | JWrite (d : list Z).

(** Where a thread is: it has the entry and waits for its lock; it holds the lock
    and will read the socketpair; it has read [b]; it has drained, and will send
    its data; there was no entry. *)
Inductive pc :=
| Waiting (inner : Z) (j : job)
| Draining (inner : Z) (j : job)
| Forwarding (inner : Z) (j : job) (b : list Z)
| Sending (inner : Z) (d : list Z)
| Bare (d : list Z).

(** What has happened, for the statements: a job has begun; the application has
    written past the interposed calls; what was read has been handed to the
    client; a write's data has. *)
Inductive happening :=
| Began (t : nat) (j : job) | Bypassed (d : list Z) | Forwarded (b : list Z) | Sent (t : nat) (d : list Z).

Section threads.
Context `{!SerdeJson} {K : Type} `{!Kernel K}.
Variable front_len : list Z → nat.
(** The socket's handle and the application's end. *)
Variables (h app : Z).
Implicit Types st : sys (S := glob (K := K)).

Record ostate := mkO { pcs : gmap nat pc; serial : option nat; osys : sys (S := glob (K := K));
  hist : list happening }.

Definition goto (t : nat) (p : pc) (o : ostate) : ostate := mkO (<[t := p]> (pcs o)) (serial o) (osys o) (hist o).
Definition leave (t : nat) (o : ostate) : ostate := mkO (delete t (pcs o)) (serial o) (osys o) (hist o).
Definition set_serial (l : option nat) (o : ostate) : ostate := mkO (pcs o) l (osys o) (hist o).
Definition upd_osys (f : sys → sys) (o : ostate) : ostate := mkO (pcs o) (serial o) (f (osys o)) (hist o).
Definition happen (e : happening) (o : ostate) : ostate := mkO (pcs o) (serial o) (osys o) (hist o ++ [e]).

(** [flush] or [send_ordered] is called by a thread that does neither yet. *)
Definition begin (t : nat) (j : job) (o : ostate) : ostate :=
  match pcs o !! t with
  | Some _ => o
  | None =>
    match g_out (sk (osys o)) !! h, j with
    | Some inner, _ => happen (Began t j) (goto t (Waiting inner j) o)
    | None, JFlush => o
    | None, JWrite d => happen (Began t j) (goto t (Bare d) o)
    end
  end.

(** The next step of a thread; a thread that waits for a lock another holds
    does not move. *)
Definition advance (t : nat) (o : ostate) : ostate :=
  match pcs o !! t with
  | None => o
  | Some (Waiting inner j) =>
    match serial o with
    | Some _ => o
    | None => set_serial (Some t) (goto t (Draining inner j) o)
    end
  | Some (Draining inner j) =>
    let '(r, k) := krecv inner 4096 (g_kern (sk (osys o))) in
    let o := upd_osys (upd_sk (upd_kern (λ _, k))) o in
    match r, j with
    | Ok ((_ :: _) as b), _ => goto t (Forwarding inner j b) o
    | _, JFlush => set_serial None (leave t o)
    | _, JWrite d => goto t (Sending inner d) o
    end
  | Some (Forwarding inner j b) =>
    happen (Forwarded b) (goto t (Draining inner j) (upd_osys (λ st, snd (Client.send h b st)) o))
  | Some (Sending _ d) =>
    happen (Sent t d) (set_serial None (leave t (upd_osys (λ st, snd (Client.send h d st)) o)))
  | Some (Bare d) => happen (Sent t d) (leave t (upd_osys (λ st, snd (Client.send h d st)) o))
  end.

(** The application writes to its end itself. *)
Definition bypass (d : list Z) (o : ostate) : ostate :=
  let '(r, k) := ksend app d (g_kern (sk (osys o))) in
  let o := upd_osys (upd_sk (upd_kern (λ _, k))) o in
  match r with Ok n => happen (Bypassed (take n d)) o | Err _ => o end.

Inductive oact :=
| OBegin (t : nat) (j : job) | OAdvance (t : nat) | OBypass (d : list Z)
| ONet (ev : event) | OFlusher | OOther (x : Z) (d : list Z) | OEnv (k : K).

Definition oact_step (a : oact) (o : ostate) : ostate :=
  match a with
  | OBegin t j => begin t j o
  | OAdvance t => advance t o
  | OBypass d => bypass d o
  | ONet ev => upd_osys (net_step ev) o
  | OFlusher => upd_osys (upd_sk (flusher front_len)) o
  | OOther x d => upd_osys (λ st, snd (Client.send x d st)) o
  | OEnv k => upd_osys (upd_sk (upd_kern (λ _, k))) o
  end.
Definition oact_run (acts : list oact) (o : ostate) : ostate := foldl (λ o a, oact_step a o) o acts.

(** The bytes that were written past the calls, that went to the client from the
    socketpair, and that a thread has in hand. *)
Definition bypassed (hs : list happening) : list Z := hs ≫= λ e, match e with Bypassed d => d | _ => [] end.
Definition passed_on (hs : list happening) : list Z := hs ≫= λ e, match e with Forwarded b => b | _ => [] end.
Definition in_hand (o : ostate) : list Z :=
  match serial o ≫= λ t, pcs o !! t with Some (Forwarding _ _ b) => b | _ => [] end.
End threads.

Section spec.
Context `{!SerdeJson} {K : Type} `{!Kernel K, !KernelLaws K}.
Variable front_len : list Z → nat.
Variables (h app inner : Z).
Implicit Types (st : sys (S := glob (K := K))) (g : glob (K := K)) (k : K) (o : ostate (K := K)).

(** * What the rest leaves alone: what is queued at the library's end *)
Definition leaves k k' : Prop := unread k' inner = unread k inner ∧ ∀ x, peer k' x = peer k x.

#[local] Instance leaves_preorder : PreOrder leaves.
Proof.
  split; [by intros k|]. intros x y z [H1 H2] [H3 H4]. split; [congruence|]. intros fd. by rewrite H4.
Qed.

Lemma leaves_send fd d k : d ≠ [] → peer k fd ≠ inner → leaves k (snd (ksend fd d k)).
Proof.
  intros Hd Hp. destruct (ksend fd d k) as [[n|e] k'] eqn:Hk; simpl.
  - destruct (ksend_ok _ _ _ _ _ Hd Hk) as (_ & _ & _ & _ & _ & Hu & _ & Hs).
    split; [by apply Hu|]. intros x. apply Hs.
  - destruct (ksend_err _ _ _ _ _ Hk) as (_ & Hu & Hs & _). split; [done|]. intros x. apply Hs.
Qed.

Lemma leaves_recv fd n k : (0 < n)%nat → fd ≠ inner → leaves k (snd (krecv fd n k)).
Proof.
  intros Hn Hf. destruct (krecv fd n k) as [[b|e] k'] eqn:Hk; simpl.
  - destruct (krecv_ok _ _ _ _ _ Hn Hk) as (_ & _ & _ & Hu & _ & Hs).
    split; [by apply Hu|]. intros x. apply Hs.
  - destruct (krecv_err _ _ _ _ _ Hn Hk) as (_ & Hu & _ & Hs). split; [done|]. intros x. apply Hs.
Qed.

(** The library's other descriptors: those it writes into lead elsewhere, and it
    reads this queue for this socket only. *)
Definition leads_away k (x : Z) : Prop := peer k x ≠ inner.
Definition other_end (x : Z) : Prop := x ≠ inner.

#[local] Instance leaves_rel : KernelRel leaves leads_away.
Proof.
  split; [apply _| | |].
  - intros k k' fd [_ Hp]. unfold leads_away. by rewrite Hp.
  - intros fd d k. apply leaves_send.
  - intros fd k _. destruct (kshutdown_ok fd k) as (_ & _ & _ & Hu & Hp).
    split; [apply Hu|]. intros x. apply Hp.
Qed.

(** The socket is registered, and no other has its descriptors. *)
Record alone g : Prop := {
  al_fds : fds_ok leads_away other_end g;
  al_out : g_out g !! h = Some inner;
  al_peer : peer (g_kern g) app = inner }.
Definition aside g g' : Prop := alone g → alone g' ∧ leaves (g_kern g) (g_kern g').

Lemma keeps_aside g g' : keeps leaves leads_away other_end g g' → aside g g'.
Proof.
  intros Hk [A1 A2 A3]. pose proof (Hk A1) as M. split; [|by apply (mv_kern _ _ _ M)]. split.
  - exact (moved_ok leaves leads_away other_end g g' M A1).
  - by apply (mv_out _ _ _ M).
  - destruct (mv_kern _ _ _ M) as [_ Hp]. by rewrite Hp.
Qed.

#[local] Instance aside_sink : SinkRel aside.
Proof.
  pose proof (keeps_sink leaves leads_away other_end leaves_recv) as Hs.
  split; [|intros; apply keeps_aside; apply Hs..].
  split; [by intros g|]. intros x y z Hxy Hyz Hx. destruct (Hxy Hx) as [Hy Hl].
  destruct (Hyz Hy) as [Hz Hl']. split; [done|]. by etrans.
Qed.

Lemma flusher_aside g : aside g (flusher front_len g).
Proof. apply keeps_aside. by apply (keeps_flusher leaves leads_away). Qed.

(** A client's method runs the reader while it waits. *)
Lemma send_aside x d st : aside (sk st) (sk (snd (Client.send x d st))).
Proof. apply (send_moves (on_sink aside) x d st). Qed.

(** * The invariant *)
Definition holds (p : pc) : bool := match p with Waiting _ _ | Bare _ => false | _ => true end.
Definition inner_of (p : pc) : option Z :=
  match p with Waiting i _ | Draining i _ | Forwarding i _ _ | Sending i _ => Some i | Bare _ => None end.
Abbreviation queue st := (unread (g_kern (sk st)) inner).

(** What was written past the calls before [t]'s last beginning has been passed
    on by the end of [hs]. *)
Definition caught_up (u0 : list Z) (t : nat) (hs : list happening) : Prop :=
  ∀ p j q, hs = p ++ Began t j :: q → (u0 ++ bypassed p) `prefix_of` passed_on hs.

Record oinv (u0 : list Z) o : Prop := {
  oi_alone : alone (sk (osys o));
  oi_inner t p : pcs o !! t = Some p → inner_of p = Some inner;
  oi_lock t : serial o = Some t ↔ ∃ p, pcs o !! t = Some p ∧ holds p = true;
  oi_stream : passed_on (hist o) ++ in_hand o ++ queue (osys o) = u0 ++ bypassed (hist o);
  oi_sending t i d : pcs o !! t = Some (Sending i d) → caught_up u0 t (hist o);
  oi_sent t d p q : hist o = p ++ Sent t d :: q → caught_up u0 t p }.

Lemma caught_up_snoc u0 t e hs : (∀ j, e ≠ Began t j) → caught_up u0 t hs → caught_up u0 t (hs ++ [e]).
Proof.
  intros He Hc p j q Heq. destruct q as [|x q _] using rev_ind.
  - apply app_inj_tail in Heq as [_ Heq]. by apply He in Heq.
  - rewrite app_comm_cons, app_assoc in Heq. apply app_inj_tail in Heq as [Heq _].
    etrans; [by eapply Hc|]. unfold passed_on. rewrite bind_app. by apply prefix_app_r.
Qed.

Lemma sent_snoc u0 e hs : (∀ t d, e = Sent t d → caught_up u0 t hs) →
  (∀ t d p q, hs = p ++ Sent t d :: q → caught_up u0 t p) →
  ∀ t d p q, hs ++ [e] = p ++ Sent t d :: q → caught_up u0 t p.
Proof.
  intros He Hs t d p q Heq. destruct q as [|x q _] using rev_ind.
  - apply app_inj_tail in Heq as [<- ->]. by eapply He.
  - rewrite app_comm_cons, app_assoc in Heq. apply app_inj_tail in Heq as [Heq _]. by eapply Hs.
Qed.

(** With nothing in hand and nothing queued, all has been passed on. *)
Lemma drained_caught_up u0 t hs : passed_on hs = u0 ++ bypassed hs → caught_up u0 t hs.
Proof.
  intros Heq p j q ->. rewrite Heq. unfold bypassed. rewrite bind_app, app_assoc. by apply prefix_app_r.
Qed.

Lemma in_hand_holder t p o : serial o = Some t → pcs o !! t = Some p →
  in_hand o = match p with Forwarding _ _ b => b | _ => [] end.
Proof. intros Hs Hp. unfold in_hand. rewrite Hs. simpl. by rewrite Hp. Qed.

Lemma in_hand_free o : serial o = None → in_hand o = [].
Proof. unfold in_hand. by intros ->. Qed.

Lemma alone_kern k' g : (∀ x, peer k' x = peer (g_kern g) x) → alone g → alone (upd_kern (λ _, k') g).
Proof.
  intros Hp [[F1 F2 F3] A2 A3]. split; [split|done|]; simpl.
  - intros x e He. unfold leads_away. rewrite Hp. by eapply F1.
  - intros x e He. unfold leads_away. rewrite Hp. by eapply F2.
  - done.
  - by rewrite Hp.
Qed.

(** Steps that are not about the queue. *)
Lemma oinv_aside u0 f o : (∀ st, aside (sk st) (sk (f st))) → oinv u0 o → oinv u0 (upd_osys f o).
Proof.
  intros Hf [I1 I2 I3 I4 I5 I6]. destruct (Hf (osys o) I1) as [Ha [Hu _]]. split; try done.
  simpl. by rewrite Hu.
Qed.

(** A step of [t] to [p], which keeps the lock as it is. *)
Lemma lock_goto (m : gmap nat pc) (l : option nat) t p p' : m !! t = Some p → holds p' = holds p →
  (∀ x, l = Some x ↔ ∃ p, m !! x = Some p ∧ holds p = true) →
  ∀ x, l = Some x ↔ ∃ p, <[t := p']> m !! x = Some p ∧ holds p = true.
Proof.
  intros Hp Hh Hl x. rewrite Hl. destruct (decide (x = t)) as [->|Hne].
  - rewrite lookup_insert_eq. split; intros (q & Hq & Hqh); simplify_eq; eauto; eexists; split; eauto; congruence.
  - by rewrite lookup_insert_ne.
Qed.

Lemma oinv_begin u0 t j o : oinv u0 o → oinv u0 (begin h t j o).
Proof.
  intros [I1 I2 I3 I4 I5 I6]. unfold begin. destruct (pcs o !! t) eqn:Hp; [by split|].
  rewrite (al_out _ I1). assert (serial o ≠ Some t) as Hns by (intros (p & ? & _)%I3; congruence).
  split; simpl; try done.
  - intros x p [[<- <-]|[_ Hx]]%lookup_insert_Some; [done|by eapply I2].
  - intros x. rewrite I3. destruct (decide (x = t)) as [->|Hne]; [|by rewrite lookup_insert_ne].
    rewrite lookup_insert_eq, Hp. split; intros (q & [=] & Hh); by subst.
  - unfold passed_on, bypassed in *. rewrite !bind_app, !app_nil_r. rewrite <- I4. f_equal. f_equal.
    unfold in_hand. simpl. destruct (serial o) as [x|]; [|done]. simpl.
    by rewrite lookup_insert_ne by congruence.
  - intros x i d [[_ [=]]|[Hne Hx]]%lookup_insert_Some. apply caught_up_snoc; [congruence|by eapply I5].
  - by apply sent_snoc.
Qed.

Lemma oinv_bypass u0 d o : d ≠ [] → oinv u0 o → oinv u0 (bypass app d o).
Proof.
  intros Hd [I1 I2 I3 I4 I5 I6]. unfold bypass. destruct (ksend app d (g_kern (sk (osys o)))) as [[n|e] k] eqn:Hk.
  - destruct (ksend_ok _ _ _ _ _ Hd Hk) as (_ & _ & _ & _ & Hu & _ & _ & Hs). rewrite (al_peer _ I1) in Hu.
    split; simpl; try done.
    + apply alone_kern; [|done]. intros x. apply Hs.
    + unfold passed_on, bypassed in *. rewrite !bind_app, !app_nil_r, Hu. simpl.
      by rewrite app_nil_r, (app_assoc u0), <- I4, <- !app_assoc.
    + intros t i d' Ht. apply caught_up_snoc; [done|by eapply I5].
    + by apply sent_snoc.
  - destruct (ksend_err _ _ _ _ _ Hk) as (_ & Hu & Hs & _). split; simpl; try done.
    + apply alone_kern; [|done]. intros x. apply Hs.
    + by rewrite Hu.
Qed.

(** * The steps of a thread *)
Lemma inner_goto (m : gmap nat pc) t p' : inner_of p' = Some inner →
  (∀ t p, m !! t = Some p → inner_of p = Some inner) →
  ∀ x p, <[t := p']> m !! x = Some p → inner_of p = Some inner.
Proof. intros Hi Hm x p [[_ <-]|[_ Hx]]%lookup_insert_Some; [done|by eapply Hm]. Qed.

(** The lock is taken, and given back. *)
Lemma lock_take (m : gmap nat pc) t p' : holds p' = true →
  (∀ x, None = Some x ↔ ∃ p, m !! x = Some p ∧ holds p = true) →
  ∀ x, Some t = Some x ↔ ∃ p, <[t := p']> m !! x = Some p ∧ holds p = true.
Proof.
  intros Hh Hl x. destruct (decide (x = t)) as [->|Hne].
  - rewrite lookup_insert_eq. split; [by eauto|done].
  - rewrite lookup_insert_ne by done. split; [congruence|]. intros Hx%Hl. done.
Qed.
Lemma lock_give (m : gmap nat pc) t :
  (∀ x, Some t = Some x ↔ ∃ p, m !! x = Some p ∧ holds p = true) →
  ∀ x, None = Some x ↔ ∃ p, delete t m !! x = Some p ∧ holds p = true.
Proof.
  intros Hl x. split; [done|]. intros (p & [Hne Hp]%lookup_delete_Some & Hh).
  assert (Some t = Some x) as [=] by (apply Hl; by exists p). done.
Qed.

Lemma oinv_holder u0 o t p : oinv u0 o → pcs o !! t = Some p → holds p = true → serial o = Some t.
Proof. intros Hi Hp Hh. apply (oi_lock _ _ Hi). by exists p. Qed.

Lemma oinv_take u0 t j o : oinv u0 o → pcs o !! t = Some (Waiting inner j) → serial o = None →
  oinv u0 (set_serial (Some t) (goto t (Draining inner j) o)).
Proof.
  intros [I1 I2 I3 I4 I5 I6] Hp Hs. split; simpl; try done.
  - by apply inner_goto.
  - apply lock_take; [done|]. by rewrite <- Hs.
  - rewrite (in_hand_holder t (Draining inner j)) by (simpl; by rewrite ?lookup_insert_eq).
    by rewrite (in_hand_free o Hs) in I4.
  - intros x i d [[_ [=]]|[_ Hx]]%lookup_insert_Some. by eapply I5.
Qed.

Lemma oinv_read u0 t j b k o : oinv u0 o → pcs o !! t = Some (Draining inner j) →
  unread (g_kern (sk (osys o))) inner = b ++ unread k inner →
  (∀ x, peer k x = peer (g_kern (sk (osys o))) x) →
  oinv u0 (goto t (Forwarding inner j b) (upd_osys (upd_sk (upd_kern (λ _, k))) o)).
Proof.
  intros Hi Hp Hu Hk. pose proof (oinv_holder _ _ _ _ Hi Hp eq_refl) as Hs.
  destruct Hi as [I1 I2 I3 I4 I5 I6]. split; simpl; try done.
  - by apply alone_kern.
  - by apply inner_goto.
  - by apply (lock_goto _ _ _ (Draining inner j)).
  - rewrite (in_hand_holder t (Forwarding inner j b)) by (simpl; by rewrite ?lookup_insert_eq).
    rewrite (in_hand_holder t (Draining inner j) o), Hu in I4 by done. exact I4.
  - intros x i d [[_ [=]]|[_ Hx]]%lookup_insert_Some. by eapply I5.
Qed.

(** A read that finds nothing. *)
Lemma oinv_dry u0 t j k o : oinv u0 o → pcs o !! t = Some (Draining inner j) →
  unread (g_kern (sk (osys o))) inner = [] → unread k inner = [] →
  (∀ x, peer k x = peer (g_kern (sk (osys o))) x) →
  oinv u0 (match j with
           | JFlush => set_serial None (leave t (upd_osys (upd_sk (upd_kern (λ _, k))) o))
           | JWrite d => goto t (Sending inner d) (upd_osys (upd_sk (upd_kern (λ _, k))) o)
           end).
Proof.
  intros Hi Hp Hu Hu' Hk. pose proof (oinv_holder _ _ _ _ Hi Hp eq_refl) as Hs.
  destruct Hi as [I1 I2 I3 I4 I5 I6].
  rewrite (in_hand_holder t (Draining inner j) o), Hu in I4 by done. simpl in I4. rewrite app_nil_r in I4.
  destruct j as [|d]; split; simpl; try done; try by apply alone_kern.
  - intros x p [_ Hx]%lookup_delete_Some. by eapply I2.
  - apply lock_give. by rewrite <- Hs.
  - change (in_hand _) with (@nil Z). simpl. by rewrite Hu', app_nil_r.
  - intros x i d [_ Hx]%lookup_delete_Some. by eapply I5.
  - by apply inner_goto.
  - by apply (lock_goto _ _ _ (Draining inner (JWrite d))).
  - rewrite (in_hand_holder t (Sending inner d)) by (simpl; by rewrite ?lookup_insert_eq).
    by rewrite Hu', app_nil_r.
  - intros x i d' [[<- [= <- <-]]|[_ Hx]]%lookup_insert_Some; [by apply drained_caught_up|by eapply I5].
Qed.

Lemma oinv_forward u0 t j b o : oinv u0 o → pcs o !! t = Some (Forwarding inner j b) →
  oinv u0 (happen (Forwarded b) (goto t (Draining inner j) (upd_osys (λ st, snd (Client.send h b st)) o))).
Proof.
  intros Hi Hp. pose proof (oinv_holder _ _ _ _ Hi Hp eq_refl) as Hs.
  destruct Hi as [I1 I2 I3 I4 I5 I6].
  destruct (send_aside h b (osys o) I1) as [Ha [Hu _]]. split; simpl; try done.
  - by apply inner_goto.
  - by apply (lock_goto _ _ _ (Forwarding inner j b)).
  - rewrite (in_hand_holder t (Draining inner j)) by (simpl; by rewrite ?lookup_insert_eq).
    rewrite (in_hand_holder t (Forwarding inner j b) o) in I4 by done.
    unfold passed_on, bypassed in *. rewrite !bind_app, Hu, <- !app_assoc. simpl. by rewrite !app_nil_r.
  - intros x i d [[_ [=]]|[_ Hx]]%lookup_insert_Some. apply caught_up_snoc; [done|by eapply I5].
  - by apply sent_snoc.
Qed.

Lemma oinv_send u0 t d o : oinv u0 o → pcs o !! t = Some (Sending inner d) →
  oinv u0 (happen (Sent t d) (set_serial None (leave t (upd_osys (λ st, snd (Client.send h d st)) o)))).
Proof.
  intros Hi Hp. pose proof (oinv_holder _ _ _ _ Hi Hp eq_refl) as Hs.
  destruct Hi as [I1 I2 I3 I4 I5 I6].
  destruct (send_aside h d (osys o) I1) as [Ha [Hu _]]. split; simpl; try done.
  - intros x p [_ Hx]%lookup_delete_Some. by eapply I2.
  - apply lock_give. by rewrite <- Hs.
  - rewrite (in_hand_holder t (Sending inner d) o) in I4 by done.
    unfold passed_on, bypassed in *. by rewrite !bind_app, Hu, !app_nil_r.
  - intros x i d' [_ Hx]%lookup_delete_Some. apply caught_up_snoc; [done|by eapply I5].
  - apply sent_snoc; [|done]. intros t' d' [= <- <-]. by eapply I5.
Qed.

Lemma oinv_advance u0 t o : oinv u0 o → oinv u0 (advance h t o).
Proof.
  intros Hi. unfold advance. destruct (pcs o !! t) as [p|] eqn:Hp; [|done].
  pose proof (oi_inner _ _ Hi _ _ Hp) as Hin. destruct p as [i j|i j|i j b|i d|d]; simplify_eq/=.
  - destruct (serial o) eqn:Hs; [done|by apply oinv_take].
  - destruct (krecv inner 4096 (g_kern (sk (osys o)))) as [r k] eqn:Hr.
    destruct (match r with Ok (_ :: _) => true | _ => false end) eqn:Hsome.
    + destruct r as [[|x b]|]; try done.
      destruct (krecv_ok _ _ _ _ _ (Nat.lt_0_succ _) Hr) as (_ & Hu & _ & _ & _ & Hk).
      apply oinv_read; [done|done|done|intros y; apply Hk].
    + destruct (recv_nothing _ _ _ _ _ (Nat.lt_0_succ _) Hr) as (Hu & Hu' & _ & Hk); [by destruct r as [[|]|]|].
      pose proof (oinv_dry u0 t j k o Hi Hp Hu ltac:(by rewrite Hu') ltac:(intros y; apply Hk)) as Hd.
      by destruct r as [[|]|], j.
  - by apply oinv_forward.
  - by apply oinv_send.
Qed.

Definition act_ok (a : oact) o : Prop :=
  match a with OBypass d => d ≠ [] | OEnv k => leaves (g_kern (sk (osys o))) k | _ => True end.
Fixpoint acts_ok (acts : list oact) o : Prop :=
  match acts with
  | [] => True
  | a :: acts => act_ok a o ∧ acts_ok acts (oact_step front_len h app a o)
  end.

Lemma oinv_step u0 a o : act_ok a o → oinv u0 o → oinv u0 (oact_step front_len h app a o).
Proof.
  intros Ha Hi. destruct a; simpl.
  - by apply oinv_begin.
  - by apply oinv_advance.
  - by apply oinv_bypass.
  - apply oinv_aside; [|done]. intros st. apply (net_step_moves (on_sink aside)).
  - apply oinv_aside; [|done]. intros st. apply flusher_aside.
  - apply oinv_aside; [|done]. intros st. apply send_aside.
  - destruct Hi as [I1 I2 I3 I4 I5 I6], Ha as [Hu Hk]. split; try done; simpl.
    + by apply alone_kern.
    + by rewrite Hu.
Qed.

Lemma oinv_run u0 acts o : acts_ok acts o → oinv u0 o → oinv u0 (oact_run front_len h app acts o).
Proof.
  revert o. induction acts as [|a acts IH]; intros o Ha Hi; [done|]. destruct Ha as [Ha Has].
  simpl. apply IH; [done|by apply oinv_step].
Qed.

(** Nobody is at it yet. *)
Definition idle st : ostate := mkO ∅ None st [].

Lemma oinv_idle st : alone (sk st) → oinv (queue st) (idle st).
Proof.
  intros Ha. split; simpl; try done.
  - intros t. split; [done|]. by intros (p & Hp & _).
  - by rewrite app_nil_r.
  - intros t d p q Heq. by destruct p.
Qed.

(** How many steps the holder of the lock still takes. *)
Definition steps_left (p : pc) st : nat :=
  match p with
  | Sending _ _ => 1
  | Forwarding _ _ _ => 2 * List.length (queue st) + 3
  | _ => 2 * List.length (queue st) + 2
  end.

Lemma holder_step u0 t p o : oinv u0 o → pcs o !! t = Some p → holds p = true →
  serial (advance h t o) = None ∧ pcs (advance h t o) !! t = None ∨
  ∃ p', pcs (advance h t o) !! t = Some p' ∧ holds p' = true ∧
    (steps_left p' (osys (advance h t o)) < steps_left p (osys o))%nat.
Proof.
  intros Hi Hp Hh. pose proof (oi_inner _ _ Hi _ _ Hp) as Hin. unfold advance. rewrite Hp.
  destruct p as [i j|i j|i j b|i d|d]; simplify_eq/=.
  - destruct (krecv inner 4096 (g_kern (sk (osys o)))) as [r k] eqn:Hr.
    destruct (match r with Ok (_ :: _) => true | _ => false end) eqn:Hsome.
    + destruct r as [[|x b]|]; try done. right. eexists. split; [simpl; by rewrite lookup_insert_eq|].
      split; [done|]. destruct (krecv_ok _ _ _ _ _ (Nat.lt_0_succ _) Hr) as (_ & Hu & _).
      simpl. rewrite Hu. simpl. rewrite length_app. lia.
    + destruct j as [|d].
      * left. by destruct r as [[|]|]; simpl; rewrite ?lookup_delete_eq.
      * right. exists (Sending inner d).
        destruct r as [[|]|]; simpl; rewrite ?lookup_insert_eq; split_and!; done || lia.
  - right. eexists. split; [simpl; by rewrite lookup_insert_eq|]. split; [done|].
    destruct (send_aside h b (osys o) (oi_alone _ _ Hi)) as [_ [Hu _]]. simpl. rewrite Hu. lia.
  - left. simpl. by rewrite lookup_delete_eq.
Qed.

Lemma holder_ends n u0 t p o : oinv u0 o → pcs o !! t = Some p → holds p = true →
  (steps_left p (osys o) ≤ n)%nat →
  ∃ m, (m ≤ n)%nat ∧ serial (Nat.iter m (advance h t) o) = None ∧ pcs (Nat.iter m (advance h t) o) !! t = None.
Proof.
  revert p o. induction n as [|n IH]; intros p o Hi Hp Hh Hn; [destruct p; simpl in *; lia|].
  destruct (holder_step u0 t p o Hi Hp Hh) as [[H1 H2]|(p' & H1 & H2 & H3)].
  - exists 1%nat. split; [lia|by split].
  - destruct (IH p' (advance h t o) (oinv_advance _ _ _ Hi) H1 H2) as (m & Hm & Hs & Hd); [lia|].
    exists (Datatypes.S m). rewrite !Nat.iter_succ_r. split; [lia|by split].
Qed.

(** C6: any number of interposed writes and of turns of the outbound pump may run
    at once for a registered handle whose pair no other has, with bypassed writes, the reader and the rest of the process between
    any two of their steps: the bytes written past the interposed calls go to the
    engine once each and in the order written (passed on, in one thread's hand, or
    still queued), and when a write's own data is sent, all that was written before
    the write began has gone before it; at most one thread drains at a time. *)
Theorem outbound_serialized acts st : alone (sk st) → acts_ok acts (idle st) →
  let o := oact_run front_len h app acts (idle st) in
  passed_on (hist o) ++ in_hand o ++ queue (osys o) = queue st ++ bypassed (hist o) ∧
  (∀ p q r t j d, hist o = p ++ Began t j :: q ++ Sent t d :: r →
     (queue st ++ bypassed p) `prefix_of` passed_on (p ++ Began t j :: q)) ∧
  (∀ t1 t2 p1 p2, pcs o !! t1 = Some p1 → pcs o !! t2 = Some p2 →
     holds p1 = true → holds p2 = true → t1 = t2).
Proof.
  intros Ha Hok o. pose proof (oinv_run _ acts _ Hok (oinv_idle st Ha)) as Hi. fold o in Hi.
  split_and!; [by apply oi_stream| |].
  - intros p q r t j d Heq. rewrite app_comm_cons, app_assoc in Heq.
    by apply (oi_sent _ _ Hi _ _ _ _ Heq p j q).
  - intros t1 t2 p1 p2 H1 H2 Hh1 Hh2. pose proof (oinv_holder _ _ _ _ Hi H1 Hh1).
    pose proof (oinv_holder _ _ _ _ Hi H2 Hh2). congruence.
Qed.

(** C26: the lock is always given back: whenever a thread holds it, that thread's
    own steps lead it through what is queued, and out, within twice the queue's
    length and three steps more. *)
Theorem outbound_lock_released acts st t : alone (sk st) → acts_ok acts (idle st) →
  let o := oact_run front_len h app acts (idle st) in
  serial o = Some t →
  ∃ n, (n ≤ 2 * List.length (queue (osys o)) + 3)%nat ∧
    serial (Nat.iter n (advance h t) o) = None ∧ pcs (Nat.iter n (advance h t) o) !! t = None.
Proof.
  intros Ha Hok o Hs. pose proof (oinv_run _ acts _ Hok (oinv_idle st Ha)) as Hi. fold o in Hi.
  apply (oi_lock _ _ Hi) in Hs as (p & Hp & Hh).
  destruct (holder_ends (steps_left p (osys o)) _ _ _ _ Hi Hp Hh) as (n & Hn & Hsd); [done|].
  exists n. split; [|done]. destruct p; simpl in *; lia.
Qed.
End spec.

(** * Witnesses: a write and a turn of the pump at once, bypassed writes between
    their steps. *)
#[local] Existing Instances Tagged.serde Pairs.kernel_pairs Pairs.laws_pairs.

Definition all_front (b : list Z) : nat := List.length b.
Definition threads_start : sys (S := glob (K := Pairs.kernel)) :=
  mkSys (new_client (mkWriter [] None))
    (mkGlob pump_new ∅ {[7 := 4]} ∅ (snd (Pairs.socketpair Pairs.empty))) [].
Definition threads_acts : list (oact (K := Pairs.kernel)) :=
  [OBypass [1; 2]; OBegin 0 (JWrite [9]); OAdvance 0; OBegin 1 JFlush; OAdvance 1; OAdvance 0;
   OBypass [3]; OAdvance 1; OAdvance 0; OAdvance 0].

Lemma threads_alone : alone 7 3 4 (sk threads_start).
Proof.
  split; [split|vm_compute; reflexivity|vm_compute; reflexivity]; intros x e He;
    vm_compute in He; discriminate.
Qed.
Lemma threads_ok acts o : Forall (λ a, match a with OBypass [] | OEnv _ => False | _ => True end) acts →
  acts_ok all_front 7 3 4 acts o.
Proof.
  intros Hf. revert o. induction Hf as [|a acts Ha _ IH]; intros o; [exact I|]. split; [|apply IH].
  destruct a as [| |[|]| | | |]; done.
Qed.

Lemma outbound_serialized_witness :
  let o := oact_run all_front 7 3 threads_acts (idle threads_start) in
  passed_on (hist o) = [1; 2] ∧ in_hand o = [3] ∧ pcs o !! 1%nat = Some (Waiting 4 JFlush) ∧
  passed_on (hist o) ++ in_hand o ++ unread (g_kern (sk (osys o))) 4 = [1; 2; 3].
Proof.
  intros o. pose proof (outbound_serialized all_front 7 3 4 threads_acts threads_start threads_alone) as Hs.
  destruct Hs as [Hs _]; [apply threads_ok; repeat constructor|].
  split; [vm_compute; reflexivity|]. split; [vm_compute; reflexivity|]. split; [vm_compute; reflexivity|].
  etrans; [exact Hs|]. vm_compute. reflexivity.
Defined.

Lemma outbound_lock_released_witness :
  let o := oact_run all_front 7 3 threads_acts (idle threads_start) in
  serial o = Some 0%nat ∧ ∃ n, serial (Nat.iter n (advance 7 0) o) = None.
Proof.
  intros o. assert (serial o = Some 0%nat) as Hs by (vm_compute; reflexivity). split; [exact Hs|].
  destruct (outbound_lock_released all_front 7 3 4 threads_acts threads_start 0 threads_alone) as (n & _ & Hn & _);
    [apply threads_ok; repeat constructor|exact Hs|].
  exists n. exact Hn.
Defined.
