(* ===== verification/Interpose.v ===== *)
(** [crates/ax25-interpose/src/lib.rs]: the interposed libc calls.

    A call returns to the application what the interposer computes ([Val]),
    passes to libc ([Libc]), or blocks for ever ([Hang]).  Pointers are buffers,
    null being [None]; a call's out-parameters are returned with its result.
    While a call blocks, the reader thread runs, by the script of the client. *)
From stdpp Require Import prelude gmap.
From Stdlib Require Import ZArith Lia String.
From S2P Require Import Prelude Str Errors Addr IAddr Framing Messages Client Sockets RecvPump DgramPump State.
Local Open Scope Z_scope.

Definition SOCK_DGRAM : Z := 2.
Definition SOCK_SEQPACKET : Z := 5.
Definition SOL_AX25 : Z := 257.
Definition AX25_WINDOW : Z := 1.
Definition AX25_T1 : Z := 2.
Definition AX25_N2 : Z := 3.
Definition AX25_T3 : Z := 4.
Definition AX25_T2 : Z := 5.
Definition AX25_EXTSEQ : Z := 7.
Definition AX25_PIDINCL : Z := 8.
Definition AX25_PACLEN : Z := 10.
Definition AX25_PID_NO_L3 : Z := 0xF0.

(** Linux's values of libc's constants. *)
Definition SOCK_CLOEXEC : Z := 0x80000.
Definition SOCK_NONBLOCK : Z := 0x800.
Definition SOL_SOCKET : Z := 1.
Definition SO_ERROR : Z := 4.
Definition MSG_DONTWAIT : Z := 0x40.

Inductive ret := Libc | Val (n : Z) | Hang.

Section interpose.
Context `{!SerdeJson} {K : Type} `{!Kernel K}.
Variable creds : option (str * str).
(** [AX25_SRC_CALL]. *)
Variable src_call : option str.
Implicit Types w : world (K := K).

Definition fail {A} (e : Z) (a : A) w : ret * A * world := (Val (-1), a, set_errno e w).
Definition failed (e : Z) w : ret * world := (Val (-1), set_errno e w).
Definition upd_fd (fd : Z) (f : FdState → FdState) w : world := upd_fds (alter f fd) w.
Definition is_nonblocking (fd : Z) w : bool := knonblock (g_kern (sk (rhp w))) fd.
Definition source_call (loc : option str) : str :=
  default (lit "NOCALL") (or_else loc src_call).

(** * socket, bind, listen, connect *)
Definition socket (domain ty : Z) w : ret * world :=
  let base := Z.land ty (Z.lnot (Z.lor SOCK_CLOEXEC SOCK_NONBLOCK)) in
  if (domain =? AF_AX25) && ((base =? SOCK_SEQPACKET) || (base =? SOCK_DGRAM)) then
    match create_ax25_fd (base =? SOCK_DGRAM) w with
    | (Some fd, w) => (Val fd, w)
    | (None, w) => failed ENFILE w
    end
  else (Libc, w).

(** What follows a successful bind of the fresh handle. *)
Definition store_dgram_handle (fd h : Z) w : result Z Z * world :=
  match fds w !! fd with
  | None => (Err EBADF, snd (on_client (Client.close h) w))
  | Some s =>
    match handle s with
    | Some h' => (Ok h', snd (on_client (Client.close h) w))
    | None =>
      let w := upd_fd fd (set_handle (Some h)) w in
      (Ok h, upd_glob (upd_dgram (dgram_register h (app_fd s) (inner_fd s))) w)
    end
  end.

Definition ensure_dgram_handle (fd : Z) w : result Z Z * world :=
  match fds w !! fd with
  | None => (Err EBADF, w)
  | Some s =>
    match handle s with
    | Some h => (Ok h, w)
    | None =>
      match ensure_client creds w with
      | (false, w) => (Err ECONNREFUSED, w)
      | (true, w) =>
        match on_client socket_dgram w with
        | (Err e, w) => (Err (to_errno e), w)
        | (Ok h, w) =>
          match local s with
          | None => store_dgram_handle fd h w
          | Some loc =>
            match on_client (Client.bind h loc None) w with
            | (Err e, w) => (Err (to_errno e), snd (on_client (Client.close h) w))
            | (Ok _, w) => store_dgram_handle fd h w
            end
          end
        end
      end
    end
  end.

Definition bind (fd : Z) (addr : option (list Z)) (len : nat) w : ret * world :=
  if negb (is_ax25_fd w fd) then (Libc, w)
  else
    let w := match read_call addr len with
             | Some call => upd_fd fd (set_local (Some call)) w
             | None => w
             end in
    if is_dgram_fd w fd then
      match ensure_dgram_handle fd w with
      | (Ok _, w) => (Val 0, w)
      | (Err e, w) => failed e w
      end
    else (Val 0, w).

Definition listen_ops (loc : str) : act (sys (S := glob)) Z RhpError :=
  (h <-? Client.socket; _ <-? Client.bind h loc None; _ <-? Client.listen h; aret h)%act.

Definition listen (fd : Z) w : ret * world :=
  if negb (is_ax25_fd w fd) then (Libc, w)
  else
    match fds w !! fd ≫= local with
    | None => failed EINVAL w
    | Some loc =>
      match ensure_client creds w with
      | (false, w) => failed ECONNREFUSED w
      | (true, w) =>
        match on_client (listen_ops loc) w with
        | (Ok h, w) => (Val 0, upd_fd fd (λ s, set_listening true (set_handle (Some h) s)) w)
        | (Err e, w) => failed (to_errno e) w
        end
      end
    end.

(** What follows a successful open. *)
Definition connect_opened (fd h : Z) (rem : str) (dg : list str) w : ret * world :=
  match fds w !! fd with
  | None => failed EBADF w
  | Some s =>
    let w := upd_fd fd (λ s, set_digis dg (set_remote (Some rem) (set_handle (Some h) s))) w in
    let w := upd_glob (upd_recv (register h (inner_fd s))) w in
    if is_nonblocking fd w then
      let w := upd_glob (arm_connect_gate h (app_fd s) (inner_fd s)) w in
      let w := match connect_result h (rhp w) with
               | Some _ => upd_glob (resolve_connect_gate h) w
               | None => w
               end in
      failed EINPROGRESS w
    else
      let '(r, st) := wait_connected h true (rhp w) in
      let w := upd_rhp (λ _, st) w in
      match r with
      | Some (Ok _) => (Val 0, upd_glob (out_register h (inner_fd s)) w)
      | Some (Err e) => failed e w
      | None => (Hang, w)
      end
  end.

Definition connect (fd : Z) (addr : option (list Z)) (len : nat) w : ret * world :=
  if negb (is_ax25_fd w fd) then (Libc, w)
  else
    match read_call addr len with
    | None => failed EINVAL w
    | Some rem =>
      let dg := read_digipeaters addr len in
      if is_dgram_fd w fd then
        match ensure_dgram_handle fd w with
        | (Err e, w) => failed e w
        | (Ok _, w) => (Val 0, upd_fd fd (set_remote (Some rem)) w)
        end
      else
        let loc := source_call (fds w !! fd ≫= local) in
        match ensure_client creds w with
        | (false, w) => failed ECONNREFUSED w
        | (true, w) =>
          match on_client (open_connect loc rem dg) w with
          | (Err e, w) => failed (to_errno e) w
          | (Ok res, w) => connect_opened fd (or_handle res) rem dg w
          end
        end
    end.

(** * accept, getsockname, getpeername *)
Abbreviation sockbuf := (option (list Z) * option nat)%type.
(** The uninitialised padding of the address [write_call] copies. *)
Variable pad : list Z.

Definition accept_child (listener_local : option str) (info : AcceptInfo) (out : sockbuf) w
    : ret * sockbuf * world :=
  match create_ax25_fd false w with
  | (None, w) => fail ENFILE out w
  | (Some child, w) =>
    let w := upd_fd child (λ s, set_local (or_else (ai_local info) listener_local)
               (set_remote (ai_remote info) (set_handle (Some (child_handle info)) s))) w in
    let inner := default 0 (inner_fd <$> fds w !! child) in
    let w := upd_glob (upd_recv (register (child_handle info) inner)) w in
    let w := upd_glob (out_register (child_handle info) inner) w in
    (Val child, match ai_remote info with
                | Some rem => write_call pad (fst out) (snd out) rem
                | None => out
                end, w)
  end.

Definition accept (fd : Z) (out : sockbuf) w : ret * sockbuf * world :=
  match fds w !! fd with
  | None => (Libc, out, w)
  | Some s =>
    match handle s with
    | None => fail EINVAL out w
    | Some l =>
      match ensure_client creds w with
      | (false, w) => fail ECONNABORTED out w
      | (true, w) =>
        if is_nonblocking fd w then
          let '(o, st) := try_accept l (rhp w) in
          let w := upd_rhp (λ _, st) w in
          match o with
          | Some info => accept_child (local s) info out w
          | None => fail EAGAIN out w
          end
        else
          let '(o, st) := wait_accept l false (rhp w) in
          let w := upd_rhp (λ _, st) w in
          match o with
          | Some (Some info) => accept_child (local s) info out w
          | Some None => fail ECONNABORTED out w
          | None => (Hang, out, w)
          end
      end
    end
  end.

Definition getsockname (fd : Z) (out : sockbuf) w : ret * sockbuf :=
  if is_ax25_fd w fd
  then (Val 0, write_sockname (fst out) (snd out) (default [] (fds w !! fd ≫= local)))
  else (Libc, out).
Definition getpeername (fd : Z) (out : sockbuf) w : ret * sockbuf :=
  if is_ax25_fd w fd
  then (Val 0, write_call pad (fst out) (snd out) (default [] (fds w !! fd ≫= remote)))
  else (Libc, out).

(** * setsockopt, getsockopt *)
Definition set_option (optname v : Z) (s : FdState) : FdState :=
  if optname =? AX25_WINDOW then set_numbers (paclen s) (Some v) (t1 s) (t2 s) (t3 s) (n2 s) (extseq s) s
  else if optname =? AX25_PACLEN then set_numbers (Some v) (window s) (t1 s) (t2 s) (t3 s) (n2 s) (extseq s) s
  else if optname =? AX25_PIDINCL then set_pidincl (negb (v =? 0)) s
  else if optname =? AX25_T1 then set_numbers (paclen s) (window s) (Some v) (t2 s) (t3 s) (n2 s) (extseq s) s
  else if optname =? AX25_T2 then set_numbers (paclen s) (window s) (t1 s) (Some v) (t3 s) (n2 s) (extseq s) s
  else if optname =? AX25_T3 then set_numbers (paclen s) (window s) (t1 s) (t2 s) (Some v) (n2 s) (extseq s) s
  else if optname =? AX25_N2 then set_numbers (paclen s) (window s) (t1 s) (t2 s) (t3 s) (Some v) (extseq s) s
  else if optname =? AX25_EXTSEQ then set_numbers (paclen s) (window s) (t1 s) (t2 s) (t3 s) (n2 s) (Some v) s
  else s.

Definition setsockopt (fd level optname : Z) (optval : option (list Z)) (optlen : Z) w : ret * world :=
  if is_ax25_fd w fd then
    match optval with
    | Some mem =>
      if (level =? SOL_AX25) && (4 <=? optlen)
      then (Val 0, upd_fd fd (set_option optname (u32 (read_c_int (field 0 4 mem)))) w)
      else (Val 0, w)
    | None => (Val 0, w)
    end
  else (Libc, w).

Definition get_option (optname : Z) (s : FdState) : Z :=
  if optname =? AX25_WINDOW then i32 (default 0 (window s))
  else if optname =? AX25_PACLEN then i32 (default 0 (paclen s))
  else if optname =? AX25_T1 then i32 (default 0 (t1 s))
  else if optname =? AX25_T2 then i32 (default 0 (t2 s))
  else if optname =? AX25_T3 then i32 (default 0 (t3 s))
  else if optname =? AX25_N2 then i32 (default 0 (n2 s))
  else if optname =? AX25_EXTSEQ then i32 (default 0 (extseq s))
  else if optname =? AX25_PIDINCL then (if pidincl s then 1 else 0)
  else 0.

(** [*(optval as *mut c_int) = v; *optlen = 4]. *)
Abbreviation optbuf := (option (list Z) * option Z)%type.
Definition put_int (v : Z) (mem : list Z) : optbuf := (Some (le_bytes 4 v ++ drop 4 mem), Some 4).

Definition getsockopt (fd level optname : Z) (out : optbuf) w : ret * optbuf * world :=
  if is_ax25_fd w fd then
    if (level =? SOL_SOCKET) && (optname =? SO_ERROR) then
      match out with
      | (Some mem, Some len) =>
        if len <? 4 then fail EINVAL out w
        else
          match fds w !! fd ≫= handle with
          | Some h =>
            match ensure_client creds w with
            | (true, w) =>
              let '(e, st) := take_connect_error h (rhp w) in
              (Val 0, put_int e mem, upd_rhp (λ _, st) w)
            | (false, w) => (Val 0, put_int 0 mem, w)
            end
          | None => (Val 0, put_int 0 mem, w)
          end
      | _ => fail EINVAL out w
      end
    else if level =? SOL_AX25 then
      match out with
      | (Some mem, Some len) =>
        if 4 <=? len
        then (Val 0, put_int (default 0 (get_option optname <$> fds w !! fd)) mem, w)
        else (Val 0, out, w)
      | _ => (Val 0, out, w)
      end
    else (Libc, out, w)
  else (Libc, out, w).

(** * Connectionless sockets *)
Definition dgram_wire (pid : bool) (app : list Z) : list Z :=
  if pid then app else u8 AX25_PID_NO_L3 :: app.

Definition ax25_dgram_send (fd : Z) (data : list Z) (dest : option (list Z)) (destlen : nat) w
    : ret * world :=
  match ensure_dgram_handle fd w with
  | (Err e, w) => failed e w
  | (Ok h, w) =>
    match fds w !! fd with
    | None => failed EBADF w
    | Some s =>
      let target :=
        match dest with
        | Some _ => ok_or (read_call dest destlen) EINVAL
        | None => ok_or (remote s) EDESTADDRREQ
        end in
      match target with
      | Err e => failed e w
      | Ok rem =>
        let loc := source_call (local s) in
        let wire := dgram_wire (pidincl s) data in
        if bool_decide (wire = []) then failed EINVAL w
        else
          match ensure_client creds w with
          | (false, w) => failed EIO w
          | (true, w) =>
            match on_client (Client.sendto h rem loc wire) w with
            | (Ok _, w) => (Val (Z.of_nat (List.length data)), w)
            | (Err e, w) => failed (to_errno e) w
            end
          end
      end
    end
  end.

(** The bytes received, and the source address. *)
Definition dgram_payload (pid : bool) (data : list Z) : list Z :=
  if pid || bool_decide (data = []) then data else drop 1 data.
Definition dgram_source (dg : Datagram) (src : sockbuf) : sockbuf :=
  match fst src with
  | Some _ => write_call pad (fst src) (snd src) (default [] (source dg))
  | None => src
  end.

(** One iteration per run of the caller; every wait consumes an event. *)
Fixpoint dgram_recv_loop (fuel : nat) (h : Z) (pid nonblock : bool) (len : nat) (src : sockbuf) w
    : ret * (list Z * sockbuf) * world :=
  match fuel with
  | O => (Hang, ([], src), w)
  | S fuel =>
    let '(o, st, k) := recv_one h (g_dgram (sk (rhp w))) (g_kern (sk (rhp w))) in
    let w := upd_glob (λ g, upd_kern (λ _, k) (upd_dgram (λ _, st) g)) w in
    match o with
    | Got dg =>
      let payload := dgram_payload pid (dg_data dg) in
      let n := Nat.min (List.length payload) len in
      (Val (Z.of_nat n), (take n payload, dgram_source dg src), w)
    | Eof => (Val 0, ([], src), w)
    | NoHandle => fail ENOTCONN ([], src) w
    | Empty =>
      if nonblock then fail EAGAIN ([], src) w
      else match net (rhp w) with
           | [] => (Hang, ([], src), w)
           | _ => dgram_recv_loop fuel h pid nonblock len src (upd_rhp elapse w)
           end
    end
  end.

Definition ax25_dgram_recv (fd : Z) (len : nat) (flags : Z) (src : sockbuf) w
    : ret * (list Z * sockbuf) * world :=
  match ensure_dgram_handle fd w with
  | (Err e, w) => fail e ([], src) w
  | (Ok h, w) =>
    let pid := default false (pidincl <$> fds w !! fd) in
    let nonblock := is_nonblocking fd w || negb (Z.land flags MSG_DONTWAIT =? 0) in
    dgram_recv_loop (S (List.length (net (rhp w)))) h pid nonblock len src w
  end.

(** * read, recv, recvfrom, write, send, sendto *)
Definition read (fd : Z) (count : nat) w : ret * list Z * world :=
  if is_dgram_fd w fd then
    let '(r, (b, _), w) := ax25_dgram_recv fd count 0 (None, None) w in (r, b, w)
  else (Libc, [], w).

(** [real_recv] is what libc's recv on a connected descriptor returned. *)
Definition recvfrom (real_recv fd : Z) (len : nat) (flags : Z) (src : sockbuf) w
    : ret * (list Z * sockbuf) * world :=
  if is_dgram_fd w fd then ax25_dgram_recv fd len flags src w
  else if is_ax25_fd w fd then
    (Val real_recv,
     ([], match fst src, fds w !! fd ≫= remote with
          | Some _, Some rem =>
            if 0 <=? real_recv then write_call pad (fst src) (snd src) rem else src
          | _, _ => src
          end), w)
  else (Libc, ([], src), w).

Definition recv (fd : Z) (len : nat) (flags : Z) w : ret * list Z * world :=
  if is_dgram_fd w fd then
    let '(r, (b, _), w) := recvfrom 0 fd len flags (None, None) w in (r, b, w)
  else (Libc, [], w).

Definition ax25_send (fd : Z) (data : list Z) w : ret * world :=
  match fds w !! fd ≫= handle with
  | None => failed ENOTCONN w
  | Some h =>
    match ensure_client creds w with
    | (false, w) => failed EIO w
    | (true, w) =>
      match on_client (send_ordered h data) w with
      | (Ok drained, w) => (Val (Z.of_nat (List.length data)), match drained with Some e => set_errno e w | None => w end)
      | (Err e, w) => failed e w
      end
    end
  end.

Definition write (fd : Z) (data : list Z) w : ret * world :=
  if is_dgram_fd w fd then ax25_dgram_send fd data None 0 w
  else if is_ax25_fd w fd then ax25_send fd data w
  else (Libc, w).
(** [send] is [write] for the interposer: its flags only reach libc. *)
Definition send (fd : Z) (data : list Z) (flags : Z) w : ret * world :=
  if is_dgram_fd w fd then ax25_dgram_send fd data None 0 w
  else if is_ax25_fd w fd then ax25_send fd data w
  else (Libc, w).
Definition sendto (fd : Z) (data : list Z) (flags : Z) (dest : option (list Z)) (destlen : nat) w
    : ret * world :=
  if is_dgram_fd w fd then ax25_dgram_send fd data dest destlen w
  else if is_ax25_fd w fd then ax25_send fd data w
  else (Libc, w).

(** * select, poll: what is ready is the kernel's to say. *)
Definition select (nfds : Z) (readfds writefds exceptfds timeout : option (list Z)) : ret := Libc.
Definition poll (pfds : option (list Z)) (nfds timeout : Z) : ret := Libc.

(** * close *)
Definition close (fd : Z) w : ret * world :=
  if is_ax25_fd w fd then
    let w := match fds w !! fd ≫= handle with
             | Some h =>
               match ensure_client creds w with
               | (true, w) => snd (on_client (Client.close h) w)
               | (false, w) => w
               end
             | None => w
             end in
    (Val 0, destroy_ax25_fd fd w)
  else (Libc, w).

End interpose.
