(* ===== verification/InterposeSpec.v ===== *)
(** What the interposed calls of [Interpose.v] promise the application. *)
From stdpp Require Import prelude gmap.
From Stdlib Require Import ZArith Lia String.
From S2P Require Import Prelude Str Errors Addr IAddr Codec Framing Messages Client Sockets.
From S2P Require Import RecvPump DgramPump State Interpose.
Local Open Scope Z_scope.

(** * Integers in buffers *)
Lemma le_value_bytes v : le_value (le_bytes 4 v) = u32 v.
Proof.
  unfold le_value, le_bytes. cbn [seq map foldr]. unfold u8, u32.
  rewrite !Z.shiftr_div_pow2 by lia.
  change (2 ^ (8 * Z.of_nat 0)) with 1. change (2 ^ (8 * Z.of_nat 1)) with 256.
  change (2 ^ (8 * Z.of_nat 2)) with (256 * 256). change (2 ^ (8 * Z.of_nat 3)) with (256 * (256 * 256)).
  change (2 ^ 8) with 256. change (2 ^ 32) with (256 * (256 * (256 * 256))).
  rewrite Z.div_1_r, <- !Z.div_div, !(Z.rem_mul_r _ 256) by lia. lia.
Qed.

Lemma i32_u32 v : -2 ^ 31 ≤ v < 2 ^ 31 → i32 (u32 v) = v.
Proof.
  intros Hv. unfold i32, u32. rewrite Zplus_mod_idemp_l. fold (i32 v). by apply i32_id.
Qed.

Lemma u32_i32 v : u32 (i32 v) = u32 v.
Proof. unfold i32, u32. rewrite Zminus_mod_idemp_l. f_equal. lia. Qed.

Lemma read_c_int_bytes v r : field 0 4 (le_bytes 4 v ++ r) = le_bytes 4 v.
Proof. reflexivity. Qed.

Lemma take_min {A} (l : list A) n : take (Nat.min (List.length l) n) l = take n l.
Proof. rewrite <- take_take. apply firstn_all2. rewrite length_take. lia. Qed.

Section spec.
Context `{!SerdeJson} {K : Type} `{!Kernel K}.
Variable creds : option (str * str).
Variable src_call : option str.
Variable pad : list Z.
Implicit Types w : world (K := K).

Lemma ensure_client_fds w : fds (snd (ensure_client creds w)) = fds w.
Proof.
  unfold ensure_client. destruct (cached w && _); [done|].
  destruct (dials w) as [|d r]; [done|].
  destruct d as [wr|e]; [|done]. by destruct (connect_to _ _ _ _) as [[[]|e] st].
Qed.

Lemma on_client_fds {A E} (m : act (sys (S := glob)) A E) w : fds (snd (on_client m w)) = fds w.
Proof. unfold on_client. by destruct (m (rhp w)). Qed.

(** * Socket options *)
Definition numeric_options : list Z :=
  [AX25_WINDOW; AX25_PACLEN; AX25_T1; AX25_T2; AX25_T3; AX25_N2; AX25_EXTSEQ].

Lemma numeric_options_decide (P : Z → Prop) x :
  Forall P numeric_options → x ∈ numeric_options → P x.
Proof. rewrite Forall_forall. auto. Qed.

Lemma get_set_option o v s : o ∈ numeric_options → get_option o (set_option o v s) = i32 v.
Proof.
  apply (numeric_options_decide (λ o, get_option o (set_option o v s) = i32 v)).
  repeat constructor.
Qed.

Lemma get_set_pidincl v s :
  get_option AX25_PIDINCL (set_option AX25_PIDINCL v s) = if v =? 0 then 0 else 1.
Proof. cbn. by destruct (v =? 0). Qed.

Lemma get_set_other o o' v s : o' ≠ o → o ∈ AX25_PIDINCL :: numeric_options →
  get_option o' (set_option o v s) = get_option o' s.
Proof.
  intros Hne Ho. unfold get_option, set_option.
  repeat match goal with
  | |- context [o =? ?c] => destruct (Z.eqb_spec o c) as [->|?]
  end; try done;
  repeat match goal with
  | |- context [o' =? ?c] => destruct (Z.eqb_spec o' c) as [->|?]
  end; done.
Qed.

(** An AX.25 option set to any [int] reads back as that value (as 0 or 1 for
    PIDINCL), both calls succeeding, and no other option and no other descriptor
    sees a difference. *)
Theorem sockopt_roundtrip fd o v r mem len w s :
  fds w !! fd = Some s → o ∈ AX25_PIDINCL :: numeric_options → -2 ^ 31 ≤ v < 2 ^ 31 → 4 ≤ len →
  ∃ w', setsockopt fd SOL_AX25 o (Some (le_bytes 4 v ++ r)) 4 w = (Val 0, w') ∧
    getsockopt creds fd SOL_AX25 o (Some mem, Some len) w' =
      (Val 0, put_int (if o =? AX25_PIDINCL then (if v =? 0 then 0 else 1) else v) mem, w') ∧
    (∀ o' out, o' ≠ o → (getsockopt creds fd SOL_AX25 o' out w').1 = (getsockopt creds fd SOL_AX25 o' out w).1) ∧
    (∀ fd', fd' ≠ fd → fds w' !! fd' = fds w !! fd').
Proof.
  intros Hs Ho Hv Hlen. unfold setsockopt, is_ax25_fd. rewrite Hs, bool_decide_true by done.
  rewrite read_c_int_bytes. unfold read_c_int. rewrite le_value_bytes, u32_i32. simpl.
  assert (u32 (u32 v) = u32 v) as -> by apply Zmod_mod.
  eexists. split; [reflexivity|]. unfold getsockopt, is_ax25_fd, upd_fd, upd_fds. simpl.
  rewrite lookup_alter_eq, Hs. simpl.
  split_and!.
  - destruct (Z.leb_spec 4 len); [|lia]. do 3 f_equal.
    destruct (Z.eqb_spec o AX25_PIDINCL) as [->|Hne].
    + rewrite get_set_pidincl. destruct (Z.eqb_spec v 0) as [->|Hv0]; [done|].
      destruct (Z.eqb_spec (u32 v) 0) as [Hu|]; [|done]. exfalso. apply Hv0.
      rewrite <- (i32_u32 v Hv), Hu. done.
    + apply elem_of_cons in Ho as [?|Ho]; [done|]. rewrite get_set_option by done. by apply i32_u32.
  - intros o' [m l] Hne. simpl. destruct m as [m|], l as [l|]; try done.
    destruct (4 <=? l); [|done]. simpl. by rewrite get_set_other.
  - intros fd' Hne. by apply lookup_alter_ne.
Qed.

(** * The datagram handle *)

(** The handle of a connectionless socket is made once: when it could be made
    it is the socket's, registered for datagrams, and asking again changes
    nothing; when it could not the descriptor table is untouched. *)
Theorem ensure_dgram_handle_once fd s w : fds w !! fd = Some s →
  match ensure_dgram_handle creds fd w with
  | (Ok h, w') =>
    fds w' = <[fd := set_handle (Some h) s]> (fds w) ∧
    (handle s = None → g_dgram (sk (rhp w')) !! h = Some (mkDgramEntry (app_fd s) (inner_fd s) [] false false)) ∧
    ensure_dgram_handle creds fd w' = (Ok h, w')
  | (Err e, w') => handle s = None ∧ fds w' = fds w
  end.
Proof.
  intros Hs. unfold ensure_dgram_handle. rewrite Hs. destruct (handle s) as [h|] eqn:Hh.
  { rewrite Hs, Hh. split_and!; [|done|done]. rewrite insert_id; [done|].
    rewrite Hs. f_equal. destruct s. simpl in *. by subst. }
  assert (∀ h w1, fds w1 = fds w → store_dgram_handle fd h w1 =
    (Ok h, upd_glob (upd_dgram (dgram_register h (app_fd s) (inner_fd s))) (upd_fd fd (set_handle (Some h)) w1)))
    as Hstore.
  { intros h w1 Hf. unfold store_dgram_handle. by rewrite Hf, Hs, Hh. }
  assert (∀ h w1, fds w1 = fds w →
    let w2 := upd_glob (upd_dgram (dgram_register h (app_fd s) (inner_fd s))) (upd_fd fd (set_handle (Some h)) w1) in
    fds w2 = <[fd := set_handle (Some h) s]> (fds w) ∧
    g_dgram (sk (rhp w2)) !! h = Some (mkDgramEntry (app_fd s) (inner_fd s) [] false false) ∧
    fds w2 !! fd = Some (set_handle (Some h) s)) as Hdone.
  { intros h w1 Hf w2. simpl. rewrite Hf. split_and!.
    - apply map_eq. intros x. destruct (decide (x = fd)) as [->|Hne].
      + by rewrite lookup_alter_eq, lookup_insert_eq, Hs.
      + by rewrite lookup_alter_ne, lookup_insert_ne.
    - apply lookup_insert_eq.
    - by rewrite lookup_alter_eq, Hs. }
  pose proof (ensure_client_fds w) as Hec. destruct (ensure_client creds w) as [[] w1]; [|done]. simpl in Hec.
  pose proof (on_client_fds socket_dgram w1) as Hsd.
  destruct (on_client socket_dgram w1) as [[h|e] w2]; simpl in Hsd; [|split; [done|congruence]].
  destruct (local s) as [loc|].
  - pose proof (on_client_fds (Client.bind h loc None) w2) as Hb.
    destruct (on_client (Client.bind h loc None) w2) as [[[]|e] w3]; simpl in Hb.
    + rewrite Hstore by congruence. destruct (Hdone h w3) as (H1 & H2 & H3); [congruence|].
      split_and!; [done|done|]. by rewrite H3.
    + split; [done|]. rewrite on_client_fds. congruence.
  - rewrite Hstore by congruence. destruct (Hdone h w2) as (H1 & H2 & H3); [congruence|].
    split_and!; [done|done|]. by rewrite H3.
Qed.

(** A connectionless socket bound after its handle was made (by a send, a receive
    or a connect) is not bound at the engine: nothing is sent, and bind succeeds. *)
Lemma bind_late fd s h a n c w : fds w !! fd = Some s → dgram s = true → handle s = Some h →
  read_call a n = Some c → bind creds fd a n w = (Val 0, upd_fd fd (set_local (Some c)) w) ∧
  rhp (snd (bind creds fd a n w)) = rhp w.
Proof.
  intros Hs Hd Hh Hc. assert (bind creds fd a n w = (Val 0, upd_fd fd (set_local (Some c)) w)) as ->; [|done].
  unfold bind, is_ax25_fd. rewrite bool_decide_true by (by rewrite Hs). simpl. rewrite Hc.
  unfold is_dgram_fd, ensure_dgram_handle. simpl. rewrite lookup_alter_eq, Hs. simpl. by rewrite Hd, Hh.
Qed.

(** * Datagrams *)
Lemma raise_queue e (k : K) : d_queue (fst (raise e k)) = d_queue e.
Proof.
  unfold raise. destruct (signaled e); [done|].
  destruct (ksend (d_inner_fd e) [0] k) as [[[|[|n]]|err] k']; done.
Qed.

(** C27: a datagram one application sends is what another with the same PIDINCL
    setting, registered and with nothing queued, receives, cut to its buffer: the PID octet is added and taken off, or
    carried through, and every byte survives the wire. *)
Theorem dgram_roundtrip pid app h source dest e w fuel nonblock len src :
  Forall is_byte app → g_dgram (sk (rhp w)) !! h = Some e → d_queue e = [] →
  let data := from_wire_string (to_wire_string (dgram_wire pid app)) in
  let w1 := upd_glob (on_dgram h source dest data) w in
  ∃ w2, dgram_recv_loop pad (S fuel) h pid nonblock len src w1 =
    (Val (Z.of_nat (Nat.min (List.length app) len)),
     (take len app, dgram_source pad (mkDatagram source data) src), w2) ∧
    fds w2 = fds w.
Proof.
  intros Hb He Hq data w1.
  assert (data = dgram_wire pid app) as Hd.
  { apply from_to_wire. unfold dgram_wire. destruct pid; [done|]. constructor; [apply u8_byte|done]. }
  assert (dgram_payload pid data = app) as Hp by (rewrite Hd; by destruct pid).
  assert (∃ e1, g_dgram (sk (rhp w1)) !! h = Some e1 ∧ d_queue e1 = [mkDatagram source data]) as (e1 & He1 & Hq1).
  { unfold w1. simpl. unfold dgram_push. rewrite He.
    pose proof (raise_queue (set_queue (d_queue e ++ [mkDatagram source data]) e) (g_kern (sk (rhp w)))) as Hr.
    unfold push_entry. rewrite decide_False by (rewrite Hq; unfold DGRAM_QUEUE_CAP; simpl; lia).
    revert Hr. destruct (raise _ _) as [e2 k2]. simpl. intros Hr. exists e2. by rewrite lookup_insert_eq, Hr, Hq. }
  cbn [dgram_recv_loop]. unfold recv_one. rewrite He1. unfold recv_entry. rewrite Hq1.
  destruct (bool_decide _ && _).
  - eexists. cbn [dg_data]. rewrite Hp. split; [by rewrite take_min|done].
  - eexists. cbn [dg_data]. rewrite Hp. split; [by rewrite take_min|done].
Qed.

(** * The connect gate *)
Section gate.
Context `{!KernelLaws K}.

Lemma fill_refused fuel app (k : K) : (space k app < fuel)%nat →
  ∃ e k0, ksend app (replicate 1024 0) k0 = (Err e, fill fuel app k).
Proof.
  revert k. induction fuel as [|fuel IH]; intros k Hf; [lia|].
  cbn [fill]. destruct (ksend app (replicate 1024 0) k) as [[n|e] k'] eqn:Hs; [|by exists e, k].
  assert (replicate 1024 0 ≠ []) as Hne by done.
  pose proof (ksend_space _ _ _ _ _ Hne Hs) as Hsp.
  pose proof (ksend_ok _ _ _ _ _ Hne Hs) as (Hn & _).
  destruct n as [|n]; [lia|]. apply IH. lia.
Qed.

Lemma drain_empty fuel inner (k : K) : (List.length (unread k inner) < fuel)%nat →
  unread (drain fuel inner k) inner = [] ∧
  (∀ x, written (drain fuel inner k) x = written k x) ∧ same_pairs k (drain fuel inner k).
Proof.
  revert k. induction fuel as [|fuel IH]; intros k Hf; [lia|].
  assert (0 < 1024)%nat as Hpos by lia. cbn [drain]. destruct (krecv inner 1024 k) as [[b|e] k'] eqn:Hr.
  - pose proof (krecv_ok _ _ _ _ _ Hpos Hr) as (_ & Hu & Hn & _ & Ho & Hp).
    destruct b as [|c b].
    + rewrite Hn in Hu by done. split_and!; [by simpl in Hu|intros x; apply Ho|done].
    + destruct (IH k') as (H1 & H2 & H3); [rewrite Hu in Hf; simpl in Hf; rewrite length_app in Hf; lia|].
      split_and!; [done|intros x; rewrite H2; apply Ho|].
      intros x. destruct (H3 x), (Hp x). split; congruence.
  - pose proof (krecv_err _ _ _ _ _ Hpos Hr) as (Hu & Hu' & Ho & Hp).
    split_and!; [by rewrite Hu'|intros x; apply Ho|done].
Qed.

(** Arming the gate of a connect fills the application's descriptor until the
    kernel refuses a write to it; resolving it, which removes the gate and starts
    forwarding for the handle, leaves nothing of the filler to read, so that the
    descriptor, still open, takes a write again.  What the other end has
    accepted, the data for the application, is not touched. *)
Theorem connect_gate_blocks h app inner (g : glob (K := K)) :
  let k1 := ksndbuf app 1024 (g_kern g) in
  let g1 := arm_connect_gate h app inner g in
  (∃ e k0, ksend app (replicate 1024 0) k0 = (Err e, g_kern g1)) ∧ g_gates g1 !! h = Some inner ∧
  ∀ g2, g_gates g2 !! h = Some inner →
    let g3 := resolve_connect_gate h g2 in
    unread (g_kern g3) inner = [] ∧ g_gates g3 !! h = None ∧ is_Some (g_out g3 !! h) ∧
    (∀ x, written (g_kern g3) x = written (g_kern g2) x) ∧
    (peer (g_kern g2) app = inner → gone (g_kern g2) app = false → shut (g_kern g3) app = false →
     ∃ n k', ksend app [0] (g_kern g3) = (Ok n, k')) ∧
    resolve_connect_gate h g3 = g3.
Proof.
  intros k1 g1. split; [|split].
  - apply fill_refused. lia.
  - apply lookup_insert_eq.
  - intros g2 Hg g3. unfold g3, resolve_connect_gate. rewrite Hg.
    cbn [out_register upd_out upd_gates upd_kern g_gates g_out g_kern].
    destruct (drain_empty (S (List.length (unread (g_kern g2) inner))) inner (g_kern g2)) as (H1 & H2 & H3);
      [lia|]. rewrite lookup_delete_eq. split_and!; try done.
    + destruct (g_out g2 !! h) eqn:Ho; [by rewrite Ho|by rewrite lookup_insert_eq].
    + intros Hp Hgo Hs. destruct (H3 app) as [Hp' Hg'].
      apply ksend_room; [done|done|congruence|]. by rewrite Hp', Hp.
Qed.
End gate.

(** * Accepting *)

(** C25: accepting a queued call, the client being up and the socketpair made, takes it
    off the queue, blocking or not, and gives the application a fresh descriptor that has the caller and the called
    station, delivers what the caller sends, starting with what it has already
    sent, forwards what the application writes, and names the caller. *)
Theorem accept_wires fd s l info q out w app inner k' :
  fds w !! fd = Some s → handle s = Some l → cached w = true → closed (cl (rhp w)) = false →
  accepts (cl (rhp w)) !! l = Some (info :: q) →
  ksocketpair (g_kern (sk (rhp w))) = (Some (app, inner), k') →
  ∃ w', accept creds pad fd out w =
      (Val app, match ai_remote info with Some rem => write_call pad out.1 out.2 rem | None => out end, w') ∧
    fds w' = <[app := set_local (or_else (ai_local info) (local s)) (set_remote (ai_remote info)
                 (set_handle (Some (child_handle info)) (new_fd app inner false)))]> (fds w) ∧
    accepts (cl (rhp w')) !! l = Some q ∧
    handles (g_recv (sk (rhp w'))) !! child_handle info =
      Some (mkPendingRecv inner (default [] (early (g_recv (sk (rhp w))) !! child_handle info)) false false) ∧
    (g_out (sk (rhp w)) !! child_handle info = None → g_out (sk (rhp w')) !! child_handle info = Some inner).
Proof.
  intros Hs Hh Hca Hcl Hq Hk. unfold accept. rewrite Hs, Hh.
  unfold ensure_client. rewrite Hca. unfold is_closed. rewrite Hcl. cbn [andb negb].
  set (w1 := upd_rhp (λ _, upd_cl (upd_accepts (λ _, <[l:=q]> (accepts (cl (rhp w))))) (rhp w)) w).
  assert (∃ w', accept_child pad (local s) info out w1 =
      (Val app, match ai_remote info with Some rem => write_call pad out.1 out.2 rem | None => out end, w') ∧
    fds w' = <[app := set_local (or_else (ai_local info) (local s)) (set_remote (ai_remote info)
                 (set_handle (Some (child_handle info)) (new_fd app inner false)))]> (fds w) ∧
    accepts (cl (rhp w')) !! l = Some q ∧
    handles (g_recv (sk (rhp w'))) !! child_handle info =
      Some (mkPendingRecv inner (default [] (early (g_recv (sk (rhp w))) !! child_handle info)) false false) ∧
    (g_out (sk (rhp w)) !! child_handle info = None → g_out (sk (rhp w')) !! child_handle info = Some inner))
    as (w' & Hac & Hrest).
  { unfold accept_child, create_ax25_fd, w1. simpl. rewrite Hk. eexists. split; [reflexivity|].
    simpl. rewrite !lookup_insert_eq. simpl. rewrite !lookup_alter_eq, !lookup_insert_eq. simpl.
    split_and!; try done; [apply map_eq; intros x|].
    - destruct (decide (x = app)) as [->|Hne].
      + by rewrite lookup_alter_eq, !lookup_insert_eq.
      + by rewrite lookup_alter_ne, !lookup_insert_ne.
    - intros Hn. rewrite Hn. apply lookup_insert_eq. }
  exists w'. split; [|exact Hrest]. destruct (is_nonblocking fd w).
  - unfold try_accept, AcceptRegistry.pop. rewrite Hq. exact Hac.
  - unfold wait_accept, wait, check_now, accept_ready, AcceptRegistry.pop. rewrite Hq. exact Hac.
Qed.

(** * Closing *)

(** What is left when a descriptor has been closed. *)
Lemma close_released fd s w : fds w !! fd = Some s →
  let '(r, w') := close creds fd w in
  r = Val 0 ∧ fds w' = delete fd (fds w) ∧
  ∀ h, handle s = Some h →
    handles (g_recv (sk (rhp w'))) !! h = None ∧ early (g_recv (sk (rhp w'))) !! h = None ∧
    g_dgram (sk (rhp w')) !! h = None ∧ g_out (sk (rhp w')) !! h = None ∧
    g_gates (sk (rhp w')) !! h = None.
Proof.
  intros Hs. unfold close, is_ax25_fd. rewrite Hs. simpl.
  set (w1 := match handle s with Some h => _ | None => w end).
  assert (fds w1 = fds w) as Hf.
  { unfold w1. destruct (handle s) as [h|]; [|done].
    pose proof (ensure_client_fds w) as He. destruct (ensure_client creds w) as [[] w2]; simpl in He; [|done].
    by rewrite on_client_fds. }
  split; [done|]. unfold destroy_ax25_fd. rewrite Hf, Hs. split.
  - simpl. by destruct (handle s); simpl; rewrite Hf.
  - intros h Hh. rewrite Hh. simpl. unfold dgram_unregister. by rewrite !lookup_delete_eq.
Qed.


End spec.

(** * Witnesses: a world with one descriptor. *)
#[local] Existing Instances Tagged.serde Pairs.kernel_pairs Pairs.laws_pairs Pairs.fds_pairs Pairs.fds_laws_pairs.

Definition kern1 : Pairs.kernel := snd (Pairs.socketpair Pairs.empty).
Definition glob1 (ds : dgrams) : glob := mkGlob pump_new ds ∅ ∅ kern1.
Definition world1 (s : FdState) (ds : dgrams) (acc : AcceptRegistry.t) : world :=
  mkWorld {[3 := s]} (mkSys (upd_accepts (λ _, acc) (new_client (mkWriter [] None))) (glob1 ds) [])
    true [] 0.

Lemma sockopt_roundtrip_witness :
  ∃ w', setsockopt 3 SOL_AX25 AX25_PACLEN (Some (le_bytes 4 (-7) ++ [])) 4 (world1 (new_fd 3 4 false) ∅ ∅)
      = (Val 0, w') ∧
    getsockopt None 3 SOL_AX25 AX25_PACLEN (Some [0; 0; 0; 0], Some 4) w' =
      (Val 0, put_int (-7) [0; 0; 0; 0], w').
Proof.
  destruct (sockopt_roundtrip None 3 AX25_PACLEN (-7) [] [0; 0; 0; 0] 4
    (world1 (new_fd 3 4 false) ∅ ∅) (new_fd 3 4 false)) as (w' & H1 & H2 & _);
    [reflexivity|by_decide|lia|lia|].
  exists w'. split; [exact H1|exact H2].
Defined.

Lemma ensure_dgram_handle_once_witness :
  let w := world1 (set_handle (Some 7) (new_fd 3 4 true)) ∅ ∅ in
  ∃ w', ensure_dgram_handle None 3 w = (Ok 7, w') ∧ ensure_dgram_handle None 3 w' = (Ok 7, w').
Proof.
  intros w.
  pose proof (ensure_dgram_handle_once None 3 (set_handle (Some 7) (new_fd 3 4 true)) w eq_refl) as Ho.
  assert (ensure_dgram_handle None 3 w = (Ok 7, w)) as He by reflexivity.
  rewrite He in Ho. destruct Ho as (_ & _ & Ho). exists w. split; [exact He|exact Ho].
Defined.

Lemma dgram_roundtrip_witness :
  let w := world1 (new_fd 3 4 true) {[7 := mkDgramEntry 3 4 [] false false]} ∅ in
  ∃ w2, dgram_recv_loop [0; 0; 0] 1 7 false true 2 (None, None)
      (upd_glob (on_dgram 7 (Some (lit "G0ABC")) None
        (from_wire_string (to_wire_string (dgram_wire false [1; 2; 3])))) w) =
      (Val 2, ([1; 2], (None, None)), w2).
Proof.
  intros w.
  destruct (dgram_roundtrip [0; 0; 0] false [1; 2; 3] 7 (Some (lit "G0ABC")) None
    (mkDgramEntry 3 4 [] false false) w 0 true 2 (None, None)) as (w2 & H & _);
    [by_decide|reflexivity|reflexivity|].
  exists w2. exact H.
Defined.

Lemma connect_gate_blocks_witness :
  let g1 := arm_connect_gate 7 3 4 (glob1 ∅) in
  g_gates g1 !! 7 = Some 4 ∧ unread (g_kern (resolve_connect_gate 7 g1)) 4 = [].
Proof.
  intros g1. destruct (connect_gate_blocks 7 3 4 (glob1 ∅)) as (_ & Hg & Hr).
  split; [exact Hg|]. destruct (Hr g1 Hg) as [Hu _]. exact Hu.
Defined.

Lemma accept_wires_witness :
  let info := mkAcceptInfo 50 (Some (lit "M0ABC-2")) None in
  let s := set_local (Some (lit "GB7RDG-1")) (set_handle (Some 3) (new_fd 3 4 false)) in
  ∃ w', accept None [0; 0; 0] 3 (None, None) (world1 s ∅ {[3 := [info]]}) = (Val 5, (None, None), w') ∧
    (fds w' !! 5 ≫= remote) = Some (lit "M0ABC-2") ∧ (fds w' !! 5 ≫= local) = Some (lit "GB7RDG-1") ∧
    accepts (cl (rhp w')) !! 3 = Some [].
Proof.
  intros info s.
  destruct (accept_wires None [0; 0; 0] 3 s 3 info [] (None, None) (world1 s ∅ {[3 := [info]]}) 5 6
    (snd (Pairs.socketpair kern1))) as (w' & H1 & H2 & H3 & _); try reflexivity.
  exists w'. split; [exact H1|]. rewrite H2. split; [reflexivity|]. split; [reflexivity|exact H3].
Defined.

