(* ===== verification/DgramThreads.v ===== *)
(** [crates/ax25-interpose/src/lib.rs], [ensure_dgram_handle], by any number of
    threads at once on one connectionless socket.

    A call takes the descriptor table's lock twice, to look the entry up and to
    store the handle it made in between, and the datagram pump's lock once, to
    register it; the datagram pump works, [bind] writes the entry and the socket
    may be closed between any two of its steps.  What the engine answers is left
    open: each answer is an argument of the step that asks.  The theorems: the
    calls agree on one handle and no other is left open, and what can happen
    between the storing of the handle and its registration. *)
From stdpp Require Import prelude gmap.
From Stdlib Require Import ZArith Lia String.
From S2P Require Import Prelude Str Errors Framing Messages Client Sockets DgramPump State PumpKeeps.
From S2P Require Import Interpose InterposeSpec.
Local Open Scope Z_scope.

(** Where a call is: at its start; with the local callsign, and no handle found;
    with a client; with a handle of its own, to be bound; bound, to be stored;
    with a handle to be closed before it fails; having lost the race, with a
    handle to be closed; having stored its handle, to be registered; returned. *)
Inductive epc :=
| EStart | ELooked (loc : option str) | EClient (loc : option str) | EOpened (loc : str) (h : Z)
| EBound (h : Z) | EFailed (h e : Z) | ELost (mine h : Z) | EWon (h app inner : Z) | EDone (r : result Z Z).

Section threads.
Context {K : Type} `{!Kernel K}.
Variable fd : Z.

(** The table, the datagram pump, and for the statements, which call made and
    which call closed which handle. *)
Record dstate := mkD { epcs : gmap nat epc; d_fds : gmap Z FdState; d_pump : dgrams; d_kern : K;
  made : list (nat * Z); closed : list (nat * Z) }.

Definition at_pc (t : nat) (p : epc) (d : dstate) : dstate :=
  mkD (<[t := p]> (epcs d)) (d_fds d) (d_pump d) (d_kern d) (made d) (closed d).
Definition set_fds (m : gmap Z FdState) (d : dstate) : dstate :=
  mkD (epcs d) m (d_pump d) (d_kern d) (made d) (closed d).
Definition set_pump (m : dgrams) (k : K) (d : dstate) : dstate :=
  mkD (epcs d) (d_fds d) m k (made d) (closed d).
Definition note_made (t : nat) (h : Z) (d : dstate) : dstate :=
  mkD (epcs d) (d_fds d) (d_pump d) (d_kern d) ((t, h) :: made d) (closed d).
Definition note_closed (t : nat) (h : Z) (d : dstate) : dstate :=
  mkD (epcs d) (d_fds d) (d_pump d) (d_kern d) (made d) ((t, h) :: closed d).

(** The next step of a call; [ans] is what [ensure_client], [socket_dgram] or
    [bind] came to, for the steps that ask one of them. *)
Definition epc_step (t : nat) (p : epc) (ans : result Z Z) (d : dstate) : dstate :=
  match p with
  | EStart =>
    match d_fds d !! fd with
    | Some s => match handle s with
                | Some h => at_pc t (EDone (Ok h)) d
                | None => at_pc t (ELooked (local s)) d
                end
    | None => at_pc t (EDone (Err EBADF)) d
    end
  | ELooked loc =>
    match ans with Ok _ => at_pc t (EClient loc) d | Err _ => at_pc t (EDone (Err ECONNREFUSED)) d end
  | EClient loc =>
    match ans, loc with
    | Ok h, Some l => note_made t h (at_pc t (EOpened l h) d)
    | Ok h, None => note_made t h (at_pc t (EBound h) d)
    | Err e, _ => at_pc t (EDone (Err e)) d
    end
  | EOpened _ h =>
    match ans with Ok _ => at_pc t (EBound h) d | Err e => at_pc t (EFailed h e) d end
  | EBound h =>
    match d_fds d !! fd with
    | None => at_pc t (EFailed h EBADF) d
    | Some s =>
      match handle s with
      | Some h' => at_pc t (ELost h h') d
      | None => at_pc t (EWon h (app_fd s) (inner_fd s)) (set_fds (<[fd := set_handle (Some h) s]> (d_fds d)) d)
      end
    end
  | EFailed h e => note_closed t h (at_pc t (EDone (Err e)) d)
  | ELost mine h => note_closed t mine (at_pc t (EDone (Ok h)) d)
  | EWon h app inner =>
    at_pc t (EDone (Ok h)) (set_pump (dgram_register h app inner (d_pump d)) (d_kern d) d)
  | EDone _ => d
  end.
Definition estep (t : nat) (ans : result Z Z) (d : dstate) : dstate :=
  match epcs d !! t with Some p => epc_step t p ans d | None => d end.

(** A call begins; the datagram pump's operations; [bind] sets the entry's
    callsign; the socket is closed; the rest of the process. *)
Inductive dact :=
| ACall (t : nat) | AStep (t : nat) (ans : result Z Z)
| APush (h : Z) (dg : Datagram) | ARecv (h : Z) | AShutdown
| ALocal (l : str) | ADestroy | AKern (k : K).

Definition dact_step (a : dact) (d : dstate) : dstate :=
  match a with
  | ACall t => match epcs d !! t with None => at_pc t EStart d | Some _ => d end
  | AStep t ans => estep t ans d
  | APush h dg => let '(m, k) := dgram_push h dg (d_pump d) (d_kern d) in set_pump m k d
  | ARecv h => let '(_, m, k) := recv_one h (d_pump d) (d_kern d) in set_pump m k d
  | AShutdown => let '(m, k) := dgram_shutdown_all (d_pump d) (d_kern d) in set_pump m k d
  | ALocal l => set_fds (alter (set_local (Some l)) fd (d_fds d)) d
  | ADestroy =>
    match d_fds d !! fd with
    | None => d
    | Some s =>
      set_pump (match handle s with Some h => dgram_unregister h (d_pump d) | None => d_pump d end)
        (kclose (app_fd s) (kclose (inner_fd s) (d_kern d))) (set_fds (delete fd (d_fds d)) d)
    end
  | AKern k => set_pump (d_pump d) k d
  end.
Definition dact_run (acts : list dact) (d : dstate) : dstate := foldl (λ d a, dact_step a d) d acts.

(** A connectionless socket nobody has used. *)
Definition unused (m : gmap Z FdState) (p : dgrams) (k : K) : dstate := mkD ∅ m p k [] [].

(** * The invariant, while the socket is open *)
Definition own (p : epc) : option Z :=
  match p with EOpened _ h | EBound h | EFailed h _ | ELost h _ | EWon h _ _ => Some h | _ => None end.

(** The entry has handle [o], is registered as [(app, inner)] or a call is about
    to do that; what a call knows of it. *)
Definition settled (o : option Z) (p : epc) (app inner : Z) : Prop :=
  match p with
  | ELost _ h | EDone (Ok h) => o = Some h
  | EWon h a i => o = Some h ∧ a = app ∧ i = inner
  | _ => True
  end.

Record dinv (app inner : Z) (d : dstate) : Prop := {
  di_entry : ∃ s, d_fds d !! fd = Some s ∧ app_fd s = app ∧ inner_fd s = inner ∧
    (∀ t p, epcs d !! t = Some p → settled (handle s) p app inner) ∧
    (∀ h, handle s = Some h →
       (∃ t, epcs d !! t = Some (EWon h app inner)) ∨
       ∃ e, d_pump d !! h = Some e ∧ dgram_fds e = (app, inner));
  di_made t h : (t, h) ∈ made d → (t, h) ∈ closed d ∨ ∃ p, epcs d !! t = Some p ∧
    (own p = Some h ∨ p = EDone (Ok h)) }.

(** ** The pump keeps its entries' descriptors *)
Lemma fds_insert (m : dgrams) h e e' : m !! h = Some e → dgram_fds e' = dgram_fds e →
  dgram_fds <$> <[h := e']> m = dgram_fds <$> m.
Proof. intros Hm He. rewrite fmap_insert, He. apply insert_id. by rewrite lookup_fmap, Hm. Qed.

Lemma raise_same e (k : K) : dgram_fds (fst (raise e k)) = dgram_fds e.
Proof. unfold raise. destruct (signaled e); [done|]. by destruct (ksend _ _ _) as [[[|[|n]]|err] k']. Qed.

Lemma dgram_push_same h dg m (k : K) : dgram_fds <$> fst (dgram_push h dg m k) = dgram_fds <$> m.
Proof.
  unfold dgram_push. destruct (m !! h) as [e|] eqn:Hm; [|done]. unfold push_entry. case_decide.
  - by apply (fds_insert m h e).
  - pose proof (raise_same (set_queue (d_queue e ++ [dg]) e) k) as Hr. destruct (raise _ k) as [e' k'].
    by apply (fds_insert m h e).
Qed.

Lemma recv_one_same h m (k : K) : dgram_fds <$> (recv_one h m k).1.2 = dgram_fds <$> m.
Proof.
  unfold recv_one. destruct (m !! h) as [e|] eqn:Hm; [|done]. unfold recv_entry.
  destruct (d_queue e) as [|dg q]; [by apply (fds_insert m h e)|].
  destruct (_ && _); by apply (fds_insert m h e).
Qed.

Lemma shutdown_same es m (k : K) : (∀ h e, (h, e) ∈ es → (dgram_fds <$> m) !! h = Some (dgram_fds e)) →
  dgram_fds <$> fst (shutdown_entries es m k) = dgram_fds <$> m.
Proof.
  revert m k. induction es as [|[h e] es IH]; intros m k Hes; [done|]. cbn [shutdown_entries].
  unfold eof_entry. pose proof (raise_same (set_d_eof e) k) as Hr. destruct (raise _ k) as [e1 k1].
  simpl in Hr. assert (dgram_fds <$> <[h := e1]> m = dgram_fds <$> m) as Hi.
  { rewrite fmap_insert. apply insert_id. rewrite Hr.
    change (dgram_fds (set_d_eof e)) with (dgram_fds e). apply Hes. by left. }
  rewrite IH; [done|]. intros x y Hx. rewrite Hi. apply Hes. by right.
Qed.

Lemma shutdown_all_same m (k : K) : dgram_fds <$> fst (dgram_shutdown_all m k) = dgram_fds <$> m.
Proof.
  apply shutdown_same. intros h e Hin%elem_of_map_to_list. by rewrite lookup_fmap, Hin.
Qed.

Lemma pc_some t p d x q : epcs (at_pc t p d) !! x = Some q → t = x ∧ p = q ∨ t ≠ x ∧ epcs d !! x = Some q.
Proof. simpl. by rewrite lookup_insert_Some. Qed.

(** ** Steps *)
Definition registered (app inner : Z) (h : Z) (d : dstate) : Prop :=
  ∃ e, d_pump d !! h = Some e ∧ dgram_fds e = (app, inner).

Lemma registered_pump app inner h m k d : dgram_fds <$> m = dgram_fds <$> d_pump d →
  registered app inner h d → registered app inner h (set_pump m k d).
Proof.
  intros Hm (e & He & Hf). assert ((dgram_fds <$> m) !! h = Some (app, inner)) as Hl
    by (rewrite Hm, lookup_fmap, He; simpl; by rewrite Hf).
  rewrite lookup_fmap in Hl. apply fmap_Some in Hl as (e' & He' & Hf'). by exists e'.
Qed.

Lemma dinv_pump app inner m k d : dgram_fds <$> m = dgram_fds <$> d_pump d →
  dinv app inner d → dinv app inner (set_pump m k d).
Proof.
  intros Hm [(s & H1 & H2 & H3 & H4 & H5) H6]. split; [|done]. exists s. split_and!; try done.
  intros h [Ht|Hr]%H5; [by left|right]. by apply registered_pump.
Qed.

(** A call moves from [p] to [p'], neither of which is about the registration. *)
Lemma dinv_move app inner t p p' d :
  epcs d !! t = Some p → (∀ h a i, p ≠ EWon h a i) → (∀ h, own p = Some h → own p' = Some h) →
  (∀ r, p ≠ EDone r) →
  (∀ s, d_fds d !! fd = Some s → settled (handle s) p app inner → settled (handle s) p' app inner) →
  dinv app inner d → dinv app inner (at_pc t p' d).
Proof.
  intros Hp Hw Ho Hd Hs [(s & H1 & H2 & H3 & H4 & H5) H6]. split.
  - exists s. split_and!; [done..| |].
    + intros x q [[_ <-]|[_ Hx]]%pc_some; [|by eapply H4]. apply Hs; [done|by eapply H4].
    + intros h [[x Hx]|Hr]%H5; [|by right]. left. exists x. simpl.
      rewrite lookup_insert_ne; [done|]. intros ->. rewrite Hx in Hp. injection Hp as <-. by eapply Hw.
  - intros x h [?|(q & Hq & Hqh)]%H6; [by left|]. right. simpl. destruct (decide (x = t)) as [->|Hne].
    + exists p'. rewrite lookup_insert_eq. split; [done|]. rewrite Hp in Hq. injection Hq as <-.
      destruct Hqh as [Hqh|Hqh]; [left; by apply Ho|by apply Hd in Hqh].
    + exists q. by rewrite lookup_insert_ne.
Qed.

(** A call makes a handle; a call gives its own up. *)
Lemma dinv_make app inner t p' h d : own p' = Some h → dinv app inner (at_pc t p' d) →
  dinv app inner (note_made t h (at_pc t p' d)).
Proof.
  intros Ho [H5 H6]. split; [done|]. simpl in *. intros x y [[= -> ->]|Hin]%elem_of_cons; [|by apply H6].
  right. exists p'. rewrite lookup_insert_eq. auto.
Qed.

Lemma dinv_close app inner t p p' h d :
  epcs d !! t = Some p → (∀ h a i, p ≠ EWon h a i) → own p = Some h → (∀ r, p ≠ EDone r) →
  (∀ s, d_fds d !! fd = Some s → settled (handle s) p app inner → settled (handle s) p' app inner) →
  dinv app inner d → dinv app inner (note_closed t h (at_pc t p' d)).
Proof.
  intros Hp Hw Ho Hd Hs [(s & H1 & H2 & H3 & H4 & H5) H6]. split.
  - exists s. split_and!; [done..| |].
    + intros x q [[_ <-]|[_ Hx]]%pc_some; [|by eapply H4]. apply Hs; [done|by eapply H4].
    + intros y [[x Hx]|Hr]%H5; [|by right]. left. exists x. simpl.
      rewrite lookup_insert_ne; [done|]. intros ->. rewrite Hx in Hp. injection Hp as <-. by eapply Hw.
  - intros x y [?|(q & Hq & Hqh)]%H6; [left; by right|]. simpl. destruct (decide (x = t)) as [->|Hne].
    + rewrite Hp in Hq. injection Hq as <-. destruct Hqh as [Hqh|Hqh]; [|by apply Hd in Hqh].
      rewrite Ho in Hqh. injection Hqh as ->. left. by left.
    + right. exists q. by rewrite lookup_insert_ne.
Qed.

Lemma dinv_store app inner t h s d : epcs d !! t = Some (EBound h) → d_fds d !! fd = Some s →
  handle s = None → dinv app inner d →
  dinv app inner (at_pc t (EWon h (app_fd s) (inner_fd s))
    (set_fds (<[fd := set_handle (Some h) s]> (d_fds d)) d)).
Proof.
  intros Hp Hs Hh [(s0 & H1 & H2 & H3 & H4 & H5) H6]. rewrite Hs in H1. injection H1 as <-.
  rewrite Hh in H4. split.
  - exists (set_handle (Some h) s). simpl. rewrite lookup_insert_eq. split_and!; [done..| |].
    + intros x q [[_ <-]|[_ Hx]]%pc_some; [done|]. apply H4 in Hx. destruct q as [| | | | | | |y a i|[]]; try done.
      by destruct Hx.
    + intros y [= <-]. left. exists t. rewrite lookup_insert_eq. by subst.
  - intros x y [?|(q & Hq & Hqh)]%H6; [by left|]. right. simpl. destruct (decide (x = t)) as [->|Hne].
    + rewrite lookup_insert_eq. eexists. split; [done|]. rewrite Hp in Hq. injection Hq as <-. by destruct Hqh; [left|].
    + exists q. by rewrite lookup_insert_ne.
Qed.

Lemma dinv_register app inner t h a i d : epcs d !! t = Some (EWon h a i) → dinv app inner d →
  dinv app inner (at_pc t (EDone (Ok h)) (set_pump (dgram_register h a i (d_pump d)) (d_kern d) d)).
Proof.
  intros Hp [(s & H1 & H2 & H3 & H4 & H5) H6]. destruct (H4 _ _ Hp) as (Ho & -> & ->). split.
  - exists s. split_and!; [done..| |].
    + intros x q [[_ <-]|[_ Hx]]%pc_some; [done|by eapply H4].
    + intros y Hy. rewrite Ho in Hy. injection Hy as <-. right. simpl. unfold dgram_register.
      rewrite lookup_insert_eq. by eexists.
  - intros x y [?|(q & Hq & Hqh)]%H6; [by left|]. right. simpl. destruct (decide (x = t)) as [->|Hne].
    + rewrite lookup_insert_eq. eexists. split; [done|]. rewrite Hp in Hq. injection Hq as <-.
      destruct Hqh as [[= ->]|[=]]. by right.
    + exists q. by rewrite lookup_insert_ne.
Qed.

Lemma dinv_estep app inner t ans d : dinv app inner d → dinv app inner (estep t ans d).
Proof.
  intros Hi. unfold estep. destruct (epcs d !! t) as [p|] eqn:Hp; [|done].
  pose proof Hi as [(s & Hs & Ha & Hn & Hse & _) _]. specialize (Hse _ _ Hp).
  assert (∀ p', (∀ h a i, p ≠ EWon h a i) → (∀ h, own p = Some h → own p' = Some h) → (∀ r, p ≠ EDone r) →
    (settled (handle s) p app inner → settled (handle s) p' app inner) → dinv app inner (at_pc t p' d)) as Hmv.
  { intros p' ???? . eapply dinv_move; try done. intros s' Hs'. by replace s' with s by congruence. }
  destruct p as [|loc|loc|l h|h|h e|mine h|h a i|r]; try done; cbn [epc_step].
  - rewrite Hs. destruct (handle s) as [h|] eqn:Hh; by apply Hmv.
  - destruct ans; by apply Hmv.
  - destruct ans as [h|e]; [|by apply Hmv].
    destruct loc; (apply dinv_make; [done|]); by apply Hmv.
  - destruct ans; by apply Hmv.
  - rewrite Hs. destruct (handle s) as [h'|] eqn:Hh; [by apply Hmv|by apply dinv_store].
  - by eapply dinv_close.
  - by eapply dinv_close.
  - by apply dinv_register.
Qed.

Definition no_destroy (a : dact) : Prop := match a with ADestroy => False | _ => True end.

Lemma dinv_step app inner a d : no_destroy a → dinv app inner d → dinv app inner (dact_step a d).
Proof.
  intros Ha Hi. destruct a as [t|t ans|h dg|h| |l| |k]; try done; cbn [dact_step].
  - destruct (epcs d !! t) eqn:Hp; [done|]. destruct Hi as [(s & H1 & H2 & H3 & H4 & H5) H6]. split.
    + exists s. split_and!; [done..| |].
      * intros x q [[_ <-]|[_ Hx]]%pc_some; [done|by eapply H4].
      * intros h [[x Hx]|Hr]%H5; [|by right]. left. exists x. simpl. rewrite lookup_insert_ne; [done|congruence].
    + intros x h [?|(q & Hq & Hqh)]%H6; [by left|]. right. exists q. simpl.
      rewrite lookup_insert_ne; [done|congruence].
  - by apply dinv_estep.
  - pose proof (dgram_push_same h dg (d_pump d) (d_kern d)). destruct (dgram_push _ _ _ _). by apply dinv_pump.
  - pose proof (recv_one_same h (d_pump d) (d_kern d)). destruct (recv_one _ _ _) as [[??]?]. by apply dinv_pump.
  - pose proof (shutdown_all_same (d_pump d) (d_kern d)). destruct (dgram_shutdown_all _ _). by apply dinv_pump.
  - destruct Hi as [(s & H1 & H2 & H3 & H4 & H5) H6]. split; [|done]. exists (set_local (Some l) s). simpl.
    by rewrite lookup_alter_eq, H1.
  - by apply dinv_pump.
Qed.

Lemma dinv_run app inner acts d : Forall no_destroy acts → dinv app inner d → dinv app inner (dact_run acts d).
Proof.
  intros Ha. revert d. induction Ha as [|a acts Ha _ IH]; intros d Hi; [done|]. simpl. apply IH. by apply dinv_step.
Qed.

(** C17: however many threads need the handle of a connectionless socket at once,
    in any order of their steps and of the datagram pump's, and whatever the engine
    answers, while the socket stays open: the calls that succeed return one handle, the socket's; a handle made
    by a call that has returned is that one, or the call has closed it; and when
    no call is about to register it the socket's handle is registered for
    datagrams with the socket's descriptors. *)
Theorem dgram_handle_agreed acts m p k s : m !! fd = Some s → handle s = None → Forall no_destroy acts →
  let d := dact_run acts (unused m p k) in
  ∃ s', d_fds d !! fd = Some s' ∧
    (∀ t h, epcs d !! t = Some (EDone (Ok h)) → handle s' = Some h) ∧
    (∀ t h r, (t, h) ∈ made d → epcs d !! t = Some (EDone r) → handle s' = Some h ∨ (t, h) ∈ closed d) ∧
    (∀ h, handle s' = Some h → (∀ t a i, epcs d !! t ≠ Some (EWon h a i)) →
       ∃ e, d_pump d !! h = Some e ∧ d_app_fd e = app_fd s ∧ d_inner_fd e = inner_fd s).
Proof.
  intros Hs Hh Ha d. assert (dinv (app_fd s) (inner_fd s) (unused m p k)) as H0.
  { split; [|intros t h Hin; by apply elem_of_nil in Hin]. exists s. split_and!; [done..| |].
    - intros t q Hq. simpl in Hq. by rewrite lookup_empty in Hq.
    - congruence. }
  destruct (dinv_run _ _ acts _ Ha H0) as [(s' & H1 & H2 & H3 & H4 & H5) H6]. fold d in H1, H4, H5, H6.
  exists s'. split_and!; [done| | |].
  - intros t h Ht. by apply (H4 _ _ Ht).
  - intros t h r [Hc|(q & Hq & Hqh)]%H6 Ht; [by right|left]. rewrite Ht in Hq. injection Hq as <-.
    destruct Hqh as [[=]|[= ->]]. by apply (H4 _ _ Ht).
  - intros h Hh' Hw. destruct (H5 h Hh') as [[t Ht]|(e & He & [= Hea Hei])]; [by apply Hw in Ht|by exists e].
Qed.

(** A call that has stored its handle and not yet registered it leaves a window:
    another call returns the handle at once, and receiving with it fails, as for a
    socket with no handle; and if the socket is closed then, the handle is
    registered all the same, with the descriptors that were closed. *)
Theorem dgram_handle_window t1 t2 h a i s d : epcs d !! t1 = Some (EWon h a i) → epcs d !! t2 = None →
  d_fds d !! fd = Some s → handle s = Some h → d_pump d !! h = None →
  let d2 := dact_run [ACall t2; AStep t2 (Ok 0)] d in
  epcs d2 !! t2 = Some (EDone (Ok h)) ∧ (recv_one h (d_pump d2) (d_kern d2)).1.1 = NoHandle ∧
  let d3 := dact_run [ADestroy; AStep t1 (Ok 0)] d in
  d_fds d3 !! fd = None ∧ d_pump d3 !! h = Some (mkDgramEntry a i [] false false).
Proof.
  intros H1 H2 Hs Hh Hp d2.
  assert (d2 = at_pc t2 (EDone (Ok h)) (at_pc t2 EStart d)) as ->.
  { unfold d2, dact_run. simpl. rewrite H2. unfold estep. simpl. rewrite lookup_insert_eq. simpl.
    by rewrite Hs, Hh. }
  split; [simpl; by rewrite lookup_insert_eq|]. split; [unfold recv_one; simpl; by rewrite Hp|].
  intros d3. assert (d3 = at_pc t1 (EDone (Ok h)) (set_pump (dgram_register h a i (delete h (d_pump d)))
    (kclose (app_fd s) (kclose (inner_fd s) (d_kern d))) (set_fds (delete fd (d_fds d)) d))) as ->.
  { unfold d3, dact_run. simpl. rewrite Hs, Hh. unfold estep. simpl. by rewrite H1. }
  simpl. unfold dgram_register. by rewrite lookup_insert_eq, lookup_delete_eq.
Qed.
End threads.

(** * One call by itself is [Interpose.ensure_dgram_handle]. *)
Section solo.
Context `{!SerdeJson} {K : Type} `{!Kernel K}.
Variable creds : option (str * str).
Implicit Types w : world (K := K).

Definition solo (fd : Z) (answers : list (result Z Z)) w : dstate :=
  dact_run fd (ACall 0 :: map (AStep 0) answers) (unused (fds w) (g_dgram (sk (rhp w))) (g_kern (sk (rhp w)))).

Lemma solo_start fd answers w : solo fd answers w = dact_run fd (map (AStep 0) answers)
  (at_pc 0 EStart (unused (fds w) (g_dgram (sk (rhp w))) (g_kern (sk (rhp w))))).
Proof. done. Qed.

Lemma solo_step fd p ans answers (d : dstate (K := K)) : epcs d !! 0%nat = Some p →
  dact_run fd (map (AStep 0) (ans :: answers)) d = dact_run fd (map (AStep 0) answers) (epc_step fd 0 p ans d).
Proof. intros Hp. unfold dact_run. simpl. unfold estep. by rewrite Hp. Qed.

(** Run the call on its answers, with the facts [rew] rewrites with. *)
Ltac solo_by answers rew :=
  exists answers; rewrite solo_start;
  repeat (erewrite solo_step by (simpl; apply lookup_insert_eq);
          cbn [epc_step d_fds at_pc unused note_made note_closed set_fds]; rew);
  unfold dact_run; simpl; rewrite ?lookup_insert_eq.

Lemma solo_call fd w : let '(r, w') := ensure_dgram_handle creds fd w in
  ∃ answers, epcs (solo fd answers w) !! 0%nat = Some (EDone r) ∧ d_fds (solo fd answers w) = fds w'.
Proof.
  unfold ensure_dgram_handle. destruct (fds w !! fd) as [s|] eqn:Hs.
  2:{ solo_by [Ok 0 : result Z Z] ltac:(rewrite ?Hs). done. }
  destruct (handle s) as [h|] eqn:Hh.
  { solo_by [Ok 0 : result Z Z] ltac:(rewrite ?Hs, ?Hh). done. }
  pose proof (ensure_client_fds creds w) as Hf. destruct (ensure_client creds w) as [[] w1]; simpl in Hf.
  2:{ solo_by [Ok 0; Err 0 : result Z Z] ltac:(rewrite ?Hs, ?Hh). by rewrite Hf. }
  assert (∀ h w2 l, fds w2 = fds w → local s = l →
    let '(r, w') := store_dgram_handle fd h w2 in
    ∃ answers, epcs (solo fd answers w) !! 0%nat = Some (EDone r) ∧ d_fds (solo fd answers w) = fds w') as Hstore.
  { intros h w2 l Hf2 Hl. unfold store_dgram_handle. rewrite Hf2, Hs, Hh.
    assert (fds (upd_fd fd (set_handle (Some h)) w2) = <[fd := set_handle (Some h) s]> (fds w)) as Hu.
    { simpl. rewrite Hf2. apply map_eq. intros x. destruct (decide (x = fd)) as [->|Hne].
      - by rewrite lookup_alter_eq, lookup_insert_eq, Hs.
      - by rewrite lookup_alter_ne, lookup_insert_ne. }
    destruct l as [l|].
    - solo_by [Ok 0; Ok 0; Ok h; Ok 0; Ok 0; Ok 0 : result Z Z] ltac:(rewrite ?Hs, ?Hh, ?Hl).
      split; [done|]. by rewrite <- Hu.
    - solo_by [Ok 0; Ok 0; Ok h; Ok 0; Ok 0 : result Z Z] ltac:(rewrite ?Hs, ?Hh, ?Hl).
      split; [done|]. by rewrite <- Hu. }
  pose proof (on_client_fds socket_dgram w1) as Hf1.
  destruct (on_client socket_dgram w1) as [[h|e] w2]; simpl in Hf1.
  2:{ solo_by [Ok 0; Ok 0; Err (to_errno e) : result Z Z] ltac:(rewrite ?Hs, ?Hh). split; [done|congruence]. }
  destruct (local s) as [l|] eqn:Hl; [|apply (Hstore h w2 None); congruence].
  pose proof (on_client_fds (Client.bind h l None) w2) as Hf2.
  destruct (on_client (Client.bind h l None) w2) as [[[]|e] w3]; simpl in Hf2.
  - apply (Hstore h w3 (Some l)); congruence.
  - pose proof (on_client_fds (Client.close h) w3) as Hf3.
    solo_by [Ok 0; Ok 0; Ok h; Err (to_errno e); Ok 0 : result Z Z] ltac:(rewrite ?Hs, ?Hh, ?Hl).
    split; [done|congruence].
Qed.
End solo.

(** * Witnesses: two calls at once, the second gets to the table first. *)
#[local] Existing Instances Pairs.kernel_pairs.

Definition race_fds : gmap Z FdState := {[3 := set_local (Some (lit "M0LTE")) (new_fd 3 4 true)]}.
Definition race_acts : list (dact (K := Pairs.kernel)) :=
  [ACall 0; ACall 1; AStep 0 (Ok 0); AStep 1 (Ok 0); AStep 0 (Ok 0); AStep 1 (Ok 0); AStep 0 (Ok 7);
   AStep 1 (Ok 8); AStep 0 (Ok 0); AStep 1 (Ok 0); AStep 1 (Ok 0)].
Definition race_end : list (dact (K := Pairs.kernel)) :=
  race_acts ++ [AStep 0 (Ok 0); AStep 0 (Ok 0); AStep 1 (Ok 0)].

Lemma dgram_handle_agreed_witness :
  let d := dact_run 3 race_end (unused race_fds ∅ Pairs.empty) in
  epcs d !! 0%nat = Some (EDone (Ok 8)) ∧ epcs d !! 1%nat = Some (EDone (Ok 8)) ∧
  ∃ s', d_fds d !! 3 = Some s' ∧ handle s' = Some 8 ∧ (handle s' = Some 7 ∨ (0%nat, 7) ∈ closed d).
Proof.
  intros d. assert (epcs d !! 0%nat = Some (EDone (Ok 8))) as H0 by (vm_compute; reflexivity).
  split; [exact H0|]. split; [vm_compute; reflexivity|].
  destruct (dgram_handle_agreed 3 race_end race_fds ∅ Pairs.empty (set_local (Some (lit "M0LTE")) (new_fd 3 4 true)))
    as (s' & Hs & H1 & H2 & _); [reflexivity|reflexivity|repeat constructor|].
  exists s'. split; [exact Hs|]. split; [exact (H1 _ _ H0)|]. apply (H2 0%nat 7 (Ok 8)); [|exact H0].
  vm_compute. right. left.
Defined.

Lemma dgram_handle_window_witness :
  let d := dact_run 3 race_acts (unused race_fds ∅ Pairs.empty) in
  let d2 := dact_run 3 [ACall 2; AStep 2 (Ok 0)] d in
  epcs d2 !! 2%nat = Some (EDone (Ok 8)) ∧ (recv_one 8 (d_pump d2) (d_kern d2)).1.1 = NoHandle.
Proof.
  intros d d2. destruct (dgram_handle_window 3 1 2 8 3 4
    (set_handle (Some 8) (set_local (Some (lit "M0LTE")) (new_fd 3 4 true))) d) as (H1 & H2 & _);
    [vm_compute; reflexivity..|].
  split; [exact H1|exact H2].
Defined.
