(* ===== verification/Process.v ===== *)
(** The preloaded process: every interposed call of [Interpose.v] and every
    thread of the library as the steps of one system.

    A step is one call by the application, one frame or the end of the stream
    handled by the reader thread, a round of the flusher, a turn of the outbound
    pump, or what the rest of the process does: it may read and write its
    descriptors, open and close others and reuse their numbers, and what the
    engine will send and whether it will be reachable is settled anew.  While a
    call blocks, the reader's frames are taken from the script. *)
From stdpp Require Import prelude gmap.
From Stdlib Require Import ZArith Lia String.
From S2P Require Import Prelude Str Errors Framing Messages Client Sockets.
From S2P Require Import RecvPump DgramPump State Interpose.
Local Open Scope Z_scope.

(** The calls on descriptors, with their arguments; [CRecvfrom] has what libc's
    [recv] returns on a connected descriptor. *)
Inductive call :=
| CSocket (domain ty : Z)
| CBind (fd : Z) (addr : option (list Z)) (len : nat)
| CListen (fd : Z)
| CConnect (fd : Z) (addr : option (list Z)) (len : nat)
| CAccept (fd : Z) (out : option (list Z) * option nat)
| CGetsockname (fd : Z) (out : option (list Z) * option nat)
| CGetpeername (fd : Z) (out : option (list Z) * option nat)
| CSetsockopt (fd level optname : Z) (optval : option (list Z)) (optlen : Z)
| CGetsockopt (fd level optname : Z) (out : option (list Z) * option Z)
| CRead (fd : Z) (count : nat)
| CRecv (fd : Z) (len : nat) (flags : Z)
| CRecvfrom (real_recv fd : Z) (len : nat) (flags : Z) (src : option (list Z) * option nat)
| CWrite (fd : Z) (data : list Z)
| CSend (fd : Z) (data : list Z) (flags : Z)
| CSendto (fd : Z) (data : list Z) (flags : Z) (dest : option (list Z)) (destlen : nat)
| CSelect (nfds : Z) (readfds writefds exceptfds timeout : option (list Z))
| CPoll (pfds : option (list Z)) (nfds timeout : Z)
| CClose (fd : Z).

Section process.
Context `{!SerdeJson} {K : Type} `{!Kernel K, !KernelFds K}.
Variable front_len : list Z → nat.
Variable creds : option (str * str).
Variable src_call : option str.
Variable pad : list Z.
Implicit Types w : world (K := K).

(** What a call returns and does; what it writes through its pointers is left
    out. *)
Definition do_call (c : call) w : ret * world :=
  match c with
  | CSocket d t => socket d t w
  | CBind fd a n => bind creds fd a n w
  | CListen fd => listen creds fd w
  | CConnect fd a n => connect creds src_call fd a n w
  | CAccept fd out => let '(r, _, w) := accept creds pad fd out w in (r, w)
  | CGetsockname fd out => (fst (getsockname fd out w), w)
  | CGetpeername fd out => (fst (getpeername pad fd out w), w)
  | CSetsockopt fd l o v n => setsockopt fd l o v n w
  | CGetsockopt fd l o out => let '(r, _, w) := getsockopt creds fd l o out w in (r, w)
  | CRead fd n => let '(r, _, w) := read creds pad fd n w in (r, w)
  | CRecv fd n f => let '(r, _, w) := recv creds pad fd n f w in (r, w)
  | CRecvfrom rr fd n f src => let '(r, _, w) := recvfrom creds pad rr fd n f src w in (r, w)
  | CWrite fd d => write creds src_call fd d w
  | CSend fd d f => send creds src_call fd d f w
  | CSendto fd d f a n => sendto creds src_call fd d f a n w
  | CSelect n r wr e t => (select n r wr e t, w)
  | CPoll p n t => (poll p n t, w)
  | CClose fd => close creds fd w
  end.

(** What the rest of the process may do to the kernel's state: the descriptors
    of the library's sockets stay open. *)
Definition env_ok w (k' : K) : Prop := ∀ fd s, fds w !! fd = Some s →
  kopen k' (app_fd s) = kopen (g_kern (sk (rhp w))) (app_fd s) ∧
  kopen k' (inner_fd s) = kopen (g_kern (sk (rhp w))) (inner_fd s).

(** A connected socket is connected, or made to listen, once. *)
Definition fresh_call (c : call) w : Prop :=
  match c with
  | CListen fd => ∀ s, fds w !! fd = Some s → handle s = None
  | CConnect fd _ _ => ∀ s, fds w !! fd = Some s → dgram s = false → handle s = None
  | _ => True
  end.

(** Who takes a step. *)
Inductive label :=
| LCall (c : call) | LReader (ev : event) | LFlusher | LOutbound (polled : option (Z → Z))
| LEnv (k' : K) | LFuture (evs : list event) (ds : list (result Framing.writer io_error)).

Definition do_step (l : label) w : world :=
  match l with
  | LCall c => snd (do_call c w)
  | LReader ev => upd_rhp (net_step ev) w
  | LFlusher => upd_glob (flusher front_len) w
  | LOutbound polled => outbound_turn creds polled w
  | LEnv k' => upd_glob (upd_kern (λ _, k')) w
  | LFuture evs ds => mkWorld (fds w) (set_net evs (rhp w)) (cached w) ds (errno w)
  end.
Definition step_ok (l : label) w : Prop :=
  match l with LEnv k' => env_ok w k' | _ => True end.
Definition fresh (l : label) w : Prop :=
  match l with LCall c => fresh_call c w | _ => True end.

Definition step : relation (world (K := K)) := λ w w', ∃ l, step_ok l w ∧ w' = do_step l w.
(** The steps in which sockets are used once. *)
Definition fresh_step : relation (world (K := K)) := λ w w',
  ∃ l, step_ok l w ∧ fresh l w ∧ w' = do_step l w.

(** The library when the process starts. *)
Definition initial (k : K) (evs : list event) (ds : list (result Framing.writer io_error)) : world :=
  mkWorld ∅ (mkSys (new_client (mkWriter [] None)) (mkGlob pump_new ∅ ∅ ∅ k) evs) false ds 0.
End process.
