(* ===== verification/DescSpec.v ===== *)
(** Which descriptors the library's threads can touch: in every state the system
    of [Process.v] reaches with sockets used once, the pumps and the gates refer
    to open descriptors of live sockets only, so that no thread writes to, reads
    from or shuts down a descriptor that has been closed, or that something else
    in the process has been given since. *)
From stdpp Require Import prelude gmap.
From Stdlib Require Import ZArith Lia String.
From S2P Require Import Prelude Str Errors Addr IAddr Framing Messages Client ClientSpec ClientKeeps Sockets.
From S2P Require Import RecvPump DgramPump State PumpKeeps Interpose InterposeSpec Process.
Local Open Scope Z_scope.

Create HintDb wok.

(** Where the library keeps descriptors: the three pumps and the gates. *)
Inductive registry := InRecv | InOut | InGates | InDgram.

Section spec.
Context `{!SerdeJson} {K : Type} `{!Kernel K, !KernelFds K, !KernelFdsLaws K}.
Variable front_len : list Z → nat.
Variable creds : option (str * str).
Variable src_call : option str.
Variable pad : list Z.
Implicit Types (w : world (K := K)) (g : glob (K := K)).

(** [x] is a descriptor the pump, or the gate, holds for handle [h]. *)
Definition within g (r : registry) (h x : Z) : Prop :=
  match r with
  | InRecv => ∃ e, handles (g_recv g) !! h = Some e ∧ RecvPump.inner_fd e = x
  | InOut => g_out g !! h = Some x
  | InGates => g_gates g !! h = Some x
  | InDgram => ∃ e, g_dgram g !! h = Some e ∧ (d_app_fd e = x ∨ d_inner_fd e = x)
  end.
Definition refers g (h x : Z) : Prop := ∃ r, within g r h x.

(** What the threads do: forget references, hand a gate's over to the outbound
    pump, open and close nothing. *)
Definition settles g g' : Prop :=
  (∀ r h x, within g' r h x → within g r h x ∨ (r = InOut ∧ within g InGates h x)) ∧
  same_open (g_kern g) (g_kern g').

#[export] Instance settles_preorder : PreOrder settles.
Proof.
  split; [by intros g; split; [left|]|]. intros g1 g2 g3 [H1 H2] [H3 H4]. split.
  - intros r h x [Hr|[-> Hr]]%H3; [by apply H1|]. right. split; [done|]. by apply H1 in Hr as [?|[? _]].
  - intros x. by rewrite H4, H2.
Qed.

(** * The pumps *)
Lemma settles_pumps fr fd k' g :
  kept_by RecvPump.inner_fd (handles (g_recv g)) (handles (fr (g_recv g))) →
  kept_by dgram_fds (g_dgram g) (fd (g_dgram g)) → same_open (g_kern g) k' →
  settles g (upd_kern (λ _, k') (upd_dgram fd (upd_recv fr g))).
Proof.
  intros Hr Hd Hk. split; [|done]. intros r h x Hin. left. destruct r; simpl in Hin; [|done|done|].
  - destruct Hin as (e & He & Hx). destruct (Hr _ _ He) as (e0 & H0 & Hi). exists e0. split; [done|congruence].
  - destruct Hin as (e & He & Hx). destruct (Hd _ _ He) as (e0 & H0 & [= Ha Hi]). exists e0.
    split; [done|]. destruct Hx; [left|right]; congruence.
Qed.

Lemma settles_dgram f k' g :
  kept_by dgram_fds (g_dgram g) (f (g_dgram g)) → same_open (g_kern g) k' →
  settles g (upd_kern (λ _, k') (upd_dgram f g)).
Proof. intros Hd Hk. by apply (settles_pumps (λ r, r) f). Qed.

Lemma settles_kern k' g : same_open (g_kern g) k' → settles g (upd_kern (λ _, k') g).
Proof. intros Hk. split; [|done]. intros r h x Hx. left. by destruct r. Qed.

(** Nothing is opened or closed, whichever descriptors are used. *)
#[local] Instance same_open_rel : KernelRel same_open (λ (_ : K) _, True).
Proof.
  split; [|done|by intros; apply ksend_open|by intros; apply kshutdown_open].
  split; [by intros k x|]. intros k1 k2 k3 H12 H23 x. by rewrite H23, H12.
Qed.
Lemma recv_same_open fd n (k : K) : (0 < n)%nat → True → same_open k (snd (krecv fd n k)).
Proof. intros _ _. apply krecv_open. Qed.

Lemma keeps_settles g g' : keeps same_open (λ _ _, True) (λ _, True) g g' → settles g g'.
Proof.
  intros Hk. destruct Hk as [M1 M2 M3 M4 M5 M6]; [by split|]. split; [|exact M1].
  intros r h x Hin. destruct r; simpl in Hin.
  - left. destruct Hin as (e & He & Hx). destruct (M2 _ _ He) as (e0 & H0 & Hi). exists e0. split; [done|congruence].
  - apply M6 in Hin as [?|?]; [by left|by right].
  - left. by apply M4.
  - left. destruct Hin as (e & He & Hx). destruct (M3 _ _ He) as (e0 & H0 & [= Ha Hi]). exists e0.
    split; [done|]. destruct Hx; [left|right]; congruence.
Qed.

Lemma resolve_settles h g : settles g (resolve_connect_gate h g).
Proof. apply keeps_settles, (keeps_resolve same_open (λ _ _, True) (λ _, True) recv_same_open). Qed.

Lemma flusher_settles g : settles g (flusher front_len g).
Proof. by apply keeps_settles, (keeps_flusher same_open (λ _ _, True)). Qed.

Lemma resolve_recv h g : g_recv (resolve_connect_gate h g) = g_recv g.
Proof. unfold resolve_connect_gate. by destruct (g_gates g !! h). Qed.

#[export] Instance settles_sink : SinkRel settles.
Proof.
  pose proof (keeps_sink same_open (λ _ _, True) (λ _, True) recv_same_open) as Hs.
  split; [apply _|..]; intros; apply keeps_settles; apply Hs.
Qed.

Lemma fill_open fuel app (k : K) : same_open k (fill fuel app k).
Proof.
  revert k. induction fuel as [|fuel IH]; intros k; [done|]. cbn [fill].
  pose proof (ksend_open app (replicate 1024 0) k) as Ho.
  destruct (ksend app _ k) as [[[|n]|e] k']; simpl in Ho; try done. intros x. by rewrite IH.
Qed.

(** * The invariant *)
Definition pumps w : glob := sk (rhp w).

(** What threads that are closing sockets still hold: the references they have yet
    to remove, the descriptors they have yet to close. *)
Variable lent : registry → Z → Z → Prop.
Variable kept : Z → Prop.
Hypothesis lent_out : ∀ h x, lent InGates h x → lent InOut h x.

Definition live w (h x : Z) : Prop :=
  ∃ fd s, fds w !! fd = Some s ∧ handle s = Some h ∧ (x = app_fd s ∨ x = inner_fd s).

(** What a pump or a gate holds for a handle is the socketpair of a live socket
    with that handle, or lent; live sockets have open descriptors of their own. *)
Record world_ok w : Prop := {
  wo_refs r h x : within (pumps w) r h x → live w h x ∨ lent r h x;
  wo_open fd s : fds w !! fd = Some s → app_fd s = fd ∧ app_fd s ≠ inner_fd s ∧
    kopen (g_kern (pumps w)) (app_fd s) = true ∧ kopen (g_kern (pumps w)) (inner_fd s) = true;
  wo_distinct fd1 s1 fd2 s2 : fds w !! fd1 = Some s1 → fds w !! fd2 = Some s2 → fd1 ≠ fd2 →
    inner_fd s1 ≠ inner_fd s2 ∧ app_fd s1 ≠ inner_fd s2;
  wo_kept x : kept x → kopen (g_kern (pumps w)) x = true ∧
    ∀ fd s, fds w !! fd = Some s → x ≠ app_fd s ∧ x ≠ inner_fd s }.

Lemma world_ok_settles w w' : fds w' = fds w → settles (pumps w) (pumps w') → world_ok w → world_ok w'.
Proof.
  intros Hf [Hr Hk] [H1 H2 H3 H4]. unfold live in *. split; rewrite ?Hf.
  - intros r h x [Hx|[-> Hx]]%Hr; unfold live; rewrite Hf; [by apply H1|].
    destruct (H1 _ _ _ Hx) as [?|?]; [by left|by right; apply lent_out].
  - intros fd s Hs. rewrite !Hk. by apply H2.
  - exact H3.
  - intros x Hx. rewrite Hk, ?Hf. by apply H4.
Qed.

(** Assignments to a socket's entry. *)
Lemma upd_fd_ok fd f w :
  (∀ s, fds w !! fd = Some s → app_fd (f s) = app_fd s ∧ inner_fd (f s) = inner_fd s ∧
     (handle s = None ∨ handle (f s) = handle s)) → world_ok w → world_ok (upd_fd fd f w).
Proof.
  intros Hf [H1 H2 H3 H4].
  assert (∀ x s', fds (upd_fd fd f w) !! x = Some s' → ∃ s, fds w !! x = Some s ∧
    app_fd s' = app_fd s ∧ inner_fd s' = inner_fd s) as Hback.
  { intros x s' Hs'. simpl in Hs'. apply lookup_alter_Some in Hs' as [(-> & s & Hs & ->)|[_ Hs]];
      [|by exists s'].
    exists s. destruct (Hf s Hs) as (? & ? & _). done. }
  split.
  - intros r h x Hx. destruct (H1 r h x Hx) as [(y & s & Hs & Hh & Ho)|?]; [left|by right].
    destruct (decide (y = fd)) as [->|Hne].
    + exists fd, (f s). destruct (Hf s Hs) as (-> & -> & [?| ->]); [congruence|].
      split_and!; [|done|done]. simpl. by rewrite lookup_alter_eq, Hs.
    + exists y, s. split_and!; [|done|done]. simpl. by rewrite lookup_alter_ne.
  - intros x s' Hs'. destruct (Hback _ _ Hs') as (s & Hs & -> & ->). by apply H2.
  - intros x s1' y s2' Hs1 Hs2 Hne. destruct (Hback _ _ Hs1) as (s1 & Hs1' & -> & ->).
    destruct (Hback _ _ Hs2) as (s2 & Hs2' & _ & ->). by eapply H3.
  - intros x Hx. destruct (H4 x Hx) as [Ho Ha]. split; [done|]. intros y s' Hs'.
    destruct (Hback _ _ Hs') as (s & Hs & -> & ->). by eapply Ha.
Qed.

(** A reference to the socketpair of the handle's socket. *)
Definition adds (h app inner : Z) g g' : Prop :=
  (∀ r h' x, within g' r h' x → within g r h' x ∨ h' = h ∧ (x = app ∨ x = inner)) ∧
  same_open (g_kern g) (g_kern g').

Lemma adds_ok fd s h f w : fds w !! fd = Some s → handle s = Some h →
  adds h (app_fd s) (inner_fd s) (pumps w) (f (pumps w)) → world_ok w → world_ok (upd_glob f w).
Proof.
  intros Hs Hh [Ha Hk] [H1 H2 H3 H4]. split.
  - intros r h' x Hx. destruct (Ha r h' x Hx) as [Hr|[-> Hx']]; [by apply H1|left; by exists fd, s].
  - intros x sx Hsx. unfold pumps. simpl. rewrite !Hk. by apply H2.
  - exact H3.
  - intros x Hx. unfold pumps. simpl. rewrite Hk. by apply H4.
Qed.

Lemma recv_register_adds h app inner g : adds h app inner g (upd_recv (register h inner) g).
Proof.
  split; [|done]. intros [] h' x Hin; try by left. destruct Hin as (e & He & Hx).
  simpl in He. apply lookup_insert_Some in He as [[<- <-]|[_ He]]; [by right; split; [|right]|].
  left. by exists e.
Qed.

Lemma out_register_adds h app inner g : adds h app inner g (out_register h inner g).
Proof.
  split; [|done]. intros [] h' x Ho; try by left.
  simpl in *. destruct (g_out g !! h); [by left|].
  apply lookup_insert_Some in Ho as [[<- <-]|[_ Ho]]; [by right; split; [|right]|by left].
Qed.

Lemma dgram_register_adds h app inner g : adds h app inner g (upd_dgram (dgram_register h app inner) g).
Proof.
  split; [|done]. intros [] h' x Hin; try by left. destruct Hin as (e & He & Hx).
  simpl in He. unfold dgram_register in He. apply lookup_insert_Some in He as [[<- <-]|[_ He]].
  - right. split; [done|]. simpl in Hx. destruct Hx as [<-|<-]; [by left|by right].
  - left. by exists e.
Qed.

Lemma arm_adds h app inner g : adds h app inner g (arm_connect_gate h app inner g).
Proof.
  split.
  - intros [] h' x Hg; try by left.
    simpl in Hg. apply lookup_insert_Some in Hg as [[<- <-]|[_ Hg]]; [by right; split; [|right]|by left].
  - intros x. unfold arm_connect_gate. cbn [upd_gates upd_kern g_kern].
    by rewrite fill_open, ksndbuf_open.
Qed.

(** * The operations of the state *)
Lemma create_ok dg w : world_ok w →
  let '(r, w') := create_ax25_fd dg w in
  world_ok w' ∧ (∀ fd, r = Some fd → ∃ inner, fds w' !! fd = Some (new_fd fd inner dg)).
Proof.
  intros [H1 H2 H3 H4]. unfold create_ax25_fd.
  destruct (ksocketpair (g_kern (sk (rhp w)))) as [[[a b]|] k'] eqn:Hk; apply ksocketpair_open in Hk.
  - destruct Hk as (_ & _ & Hab & Ha & Hb & Hx).
    assert (∀ fd s, fds w !! fd = Some s → fd ≠ a ∧ inner_fd s ≠ a ∧ inner_fd s ≠ b ∧ app_fd s ≠ b) as Hfr.
    { intros fd s Hs. destruct (H2 fd s Hs) as (Hfd & _ & Hoa & Hoi). unfold pumps in *.
      split_and!; intros He; congruence. }
    split; [|intros fd [= <-]; exists b; apply lookup_insert_eq]. split.
    + intros r h x Hr. destruct (H1 r h x) as [(fd & s & Hs & ? & ?)|?]; [by destruct r|left|by right].
      exists fd, s. split_and!; [|done|done]. simpl. rewrite lookup_insert_ne; [done|].
      destruct (Hfr fd s Hs); congruence.
    + intros fd s Hfs. simpl in Hfs. apply lookup_insert_Some in Hfs as [[<- <-]|[Hne Hs]];
        unfold pumps; simpl; rewrite !Hx.
      * split_and!; [done|done|by rewrite bool_decide_true|].
        rewrite (bool_decide_true (b = b)) by done. by rewrite orb_true_r.
      * destruct (H2 fd s Hs) as (? & ? & Ho1 & Ho2). unfold pumps in *. rewrite Ho1, Ho2, !orb_true_r. done.
    + intros x s1 y s2 Hx1 Hx2 Hne. simpl in Hx1, Hx2.
      apply lookup_insert_Some in Hx1 as [[<- <-]|[Hn1 Hs1]];
        apply lookup_insert_Some in Hx2 as [[<- <-]|[Hn2 Hs2]]; [done|..]; simpl.
      * destruct (Hfr y s2 Hs2) as (? & ? & ? & ?). split; congruence.
      * destruct (Hfr x s1 Hs1) as (? & ? & ? & ?). split; congruence.
      * by eapply H3.
    + intros x Hkx. destruct (H4 x Hkx) as [Ho Hap]. unfold pumps in *. simpl. rewrite Hx, Ho, orb_true_r.
      split; [done|]. intros fd s Hfs. apply lookup_insert_Some in Hfs as [[<- <-]|[_ Hs]]; [|by eapply Hap].
      simpl. split; congruence.
  - split; [|done]. apply (world_ok_settles w); [done| |by split].
    split; [|done]. intros r h x Hr. left. by destruct r.
Qed.

Lemma destroy_ok fd w : world_ok w → world_ok (destroy_ax25_fd fd w).
Proof.
  intros [H1 H2 H3 H4]. unfold destroy_ax25_fd. destruct (fds w !! fd) as [s|] eqn:Hs; [|done].
  set (w1 := match handle s with Some h => _ | None => _ end).
  assert (fds w1 = delete fd (fds w)) as Hf by (unfold w1; by destruct (handle s)).
  assert (g_kern (pumps w1) = g_kern (pumps w)) as Hk by (unfold w1; by destruct (handle s)).
  assert (∀ r h x, within (pumps w1) r h x → within (pumps w) r h x ∧ handle s ≠ Some h) as Href.
  { intros r h x. unfold w1, pumps. destruct (handle s) as [h'|]; simpl; [|by intros ?].
    destruct r; cbn [within upd_glob upd_rhp upd_sk rhp sk upd_gates upd_out out_unregister upd_dgram upd_recv unregister handles g_recv g_dgram g_out g_gates];
      unfold dgram_unregister; intros Hin.
    - destruct Hin as (e & [? He]%lookup_delete_Some & Hx). split; [by exists e|congruence].
    - apply lookup_delete_Some in Hin as [??]. split; [done|congruence].
    - apply lookup_delete_Some in Hin as [??]. split; [done|congruence].
    - destruct Hin as (e & [? He]%lookup_delete_Some & Hx). split; [by exists e|congruence]. }
  split.
  - intros r h x Hr. destruct (Href r h x) as [Hr' Hne]; [by destruct r|].
    destruct (H1 r h x Hr') as [(y & sy & Hy & Hh & Ho)|?]; [left|by right]. exists y, sy. split_and!; [|done|done].
    simpl. rewrite Hf, lookup_delete_ne; [done|]. congruence.
  - intros y sy Hy. simpl in Hy. rewrite Hf in Hy. apply lookup_delete_Some in Hy as [Hne Hy].
    destruct (H2 y sy Hy) as (Ha & Hai & Ho1 & Ho2). destruct (H2 fd s Hs) as (Ha' & _).
    destruct (H3 y sy fd s Hy Hs) as [Hd1 Hd2]; [done|]. destruct (H3 fd s y sy Hs Hy) as [_ Hd3]; [done|].
    unfold pumps. cbn [upd_glob upd_rhp upd_sk upd_kern g_kern rhp sk]. fold (pumps w1). rewrite !kclose_open, Hk, Ho1, Ho2.
    rewrite !bool_decide_false by congruence. done.
  - intros x s1 y s2. simpl. rewrite Hf. intros [_ Hx]%lookup_delete_Some [_ Hy]%lookup_delete_Some.
    by eapply H3.
  - intros x Hx. destruct (H4 x Hx) as [Ho Hap]. destruct (Hap fd s Hs) as [? ?].
    unfold pumps. cbn [upd_glob upd_rhp upd_sk upd_kern g_kern rhp sk]. fold (pumps w1).
    rewrite !kclose_open, Hk, Ho, !bool_decide_false by congruence. split; [done|].
    intros y sy. simpl. rewrite Hf. intros [_ Hy]%lookup_delete_Some. by eapply Hap.
Qed.

(** * The calls *)
#[local] Instance settles_sys : SysRel (on_sink settles) := on_sink_sys settles settles_sink.
Definition harmless {A E} (m : act (sys (S := glob)) A E) : Prop := moves (on_sink settles) m.

Lemma rhp_ok st' w : settles (pumps w) (sk st') → world_ok w → world_ok (upd_rhp (λ _, st') w).
Proof. by apply (world_ok_settles w (upd_rhp (λ _, st') w)). Qed.

Lemma glob_ok f w : settles (pumps w) (f (pumps w)) → world_ok w → world_ok (upd_glob f w).
Proof. by apply (world_ok_settles w (upd_glob f w)). Qed.

Lemma errno_ok e w : world_ok w → world_ok (set_errno e w).
Proof. by apply (world_ok_settles w (set_errno e w)). Qed.

Lemma ensure_client_ok w : world_ok w → world_ok (snd (ensure_client creds w)).
Proof.
  unfold ensure_client. destruct (cached w && _); [done|]. destruct (dials w) as [|d r]; [done|].
  pose proof (connect_to_moves (on_sink settles) d creds (sk (rhp w)) (net (rhp w))) as Hc.
  destruct d as [wr|e]; [|by apply world_ok_settles].
  destruct (connect_to (Ok wr) creds (sk (rhp w)) (net (rhp w))) as [[[]|e] st];
    by apply world_ok_settles.
Qed.

Lemma on_client_ok {A E} (m : act (sys (S := glob)) A E) w : harmless m → world_ok w →
  world_ok (snd (on_client m w)).
Proof.
  intros Hm. unfold on_client. specialize (Hm (rhp w)). destruct (m (rhp w)) as [r st].
  by apply rhp_ok.
Qed.

Lemma close_harmless h : harmless (Client.close h).
Proof. apply (close_moves (on_sink settles)). intros st. unfold on_sink. reflexivity. Qed.
Lemma open_connect_harmless l r v : harmless (open_connect l r v).
Proof. apply (open_connect_moves (on_sink settles)). intros h st. unfold on_sink. reflexivity. Qed.
Lemma listen_ops_harmless loc : harmless (listen_ops loc).
Proof.
  unfold listen_ops. apply moves_bind; [apply _|apply socket_moves, _|intros h].
  apply moves_bind; [apply _|apply bind_moves, _|intros _].
  apply moves_bind; [apply _|apply listen_moves, _|intros _]. apply moves_ret, _.
Qed.

Lemma out_flush_settles h (st : sys (S := glob)) : settles (sk st) (sk (out_flush h st)).
Proof.
  unfold out_flush, drain_handle. destruct (g_out (sk st) !! h) as [inner|]; [|done]. unfold drain_locked.
  generalize (S (List.length (unread (g_kern (sk st)) inner))) as fuel. intros fuel. revert st.
  induction fuel as [|fuel IH]; intros st; [done|]. cbn [out_drain].
  pose proof (krecv_open inner 4096 (g_kern (sk st))) as Ho.
  destruct (krecv inner 4096 (g_kern (sk st))) as [r k]. simpl in Ho.
  assert (settles (sk st) (sk (upd_sk (upd_kern (λ _, k)) st))) as H1 by by apply settles_kern.
  destruct r as [[|c b]|e]; [done| |done]. etrans; [exact H1|]. etrans; [|apply IH].
  apply (send_moves (on_sink settles) h (c :: b) _).
Qed.

Lemma send_ordered_harmless h d : harmless (send_ordered h d).
Proof.
  intros st. rewrite send_ordered_snd. unfold on_sink.
  etrans; [apply out_flush_settles|]. apply (send_moves (on_sink settles) h d).
Qed.

Hint Resolve ensure_client_ok on_client_ok errno_ok close_harmless open_connect_harmless
  listen_ops_harmless send_ordered_harmless destroy_ok : wok.
Hint Extern 1 (harmless _) =>
  solve [apply (socket_moves _)|apply (socket_dgram_moves _)|apply (bind_moves _)|apply (sendto_moves _)] : wok.

Lemma create_fresh_ok dg w r w' : create_ax25_fd dg w = (r, w') → world_ok w → world_ok w'.
Proof. intros Hc Hok. pose proof (create_ok dg w Hok) as H1. rewrite Hc in H1. apply H1. Qed.

Lemma socket_ok d t w : world_ok w → world_ok (snd (socket d t w)).
Proof.
  intros Hok. unfold socket. destruct (_ && _); [|done].
  destruct (create_ax25_fd _ w) as [[fd|] w'] eqn:Hc; simpl; [|apply errno_ok]; by eapply create_fresh_ok.
Qed.


(** Running a subcall: its result, and the invariant after it. *)
Ltac run_ok t Hok :=
  let H := fresh in
  assert (world_ok (snd t)) as H by (eauto with wok);
  destruct t as [? ?]; cbn [snd] in H; clear Hok; rename H into Hok.

Lemma upd_fd_same_ok fd f w :
  (∀ s, app_fd (f s) = app_fd s ∧ inner_fd (f s) = inner_fd s ∧ handle (f s) = handle s) →
  world_ok w → world_ok (upd_fd fd f w).
Proof. intros Hf. apply upd_fd_ok. intros s _. destruct (Hf s) as (? & ? & ?). auto. Qed.

Lemma failed_ok e w : world_ok w → world_ok (snd (failed e w)).
Proof. apply errno_ok. Qed.

Lemma store_dgram_ok fd h w : world_ok w → world_ok (snd (store_dgram_handle fd h w)).
Proof.
  intros Hok. unfold store_dgram_handle. destruct (fds w !! fd) as [s|] eqn:Hs; [|eauto with wok].
  destruct (handle s) as [h'|] eqn:Hh; [eauto with wok|]. cbn [snd].
  apply (adds_ok fd (set_handle (Some h) s) h).
  - simpl. by rewrite lookup_alter_eq, Hs.
  - done.
  - apply dgram_register_adds.
  - apply upd_fd_ok; [|done]. intros s' Hs'. replace s' with s by congruence. auto.
Qed.
Hint Resolve failed_ok store_dgram_ok : wok.

Lemma ensure_dgram_ok fd w : world_ok w → world_ok (snd (ensure_dgram_handle creds fd w)).
Proof.
  intros Hok. unfold ensure_dgram_handle. destruct (fds w !! fd) as [s|]; [|done].
  destruct (handle s); [done|]. run_ok (ensure_client creds w) Hok. case_match; [|done].
  run_ok (on_client socket_dgram w0) Hok. case_match; [|done].
  destruct (local s) as [loc|]; [|eauto with wok].
  run_ok (on_client (Client.bind a loc None) w1) Hok. case_match; cbn [snd]; eauto with wok.
Qed.
Hint Resolve ensure_dgram_ok : wok.

Lemma bind_ok fd a n w : world_ok w → world_ok (snd (bind creds fd a n w)).
Proof.
  intros Hok. unfold bind. destruct (negb _); [done|].
  set (w1 := match read_call a n with Some _ => _ | None => _ end).
  assert (world_ok w1) as Hok1 by (unfold w1; destruct (read_call a n); [by apply upd_fd_same_ok|done]).
  clearbody w1. destruct (is_dgram_fd w1 fd); [|done].
  run_ok (ensure_dgram_handle creds fd w1) Hok1. case_match; [done|]. eauto with wok.
Qed.

Lemma listen_ok fd w : fresh_call (CListen fd) w → world_ok w → world_ok (snd (listen creds fd w)).
Proof.
  intros Hfr Hok. unfold listen. destruct (negb _); [done|].
  destruct (fds w !! fd ≫= local) as [loc|]; [|eauto with wok].
  pose proof (ensure_client_fds creds w) as Hf. run_ok (ensure_client creds w) Hok.
  case_match; [|eauto with wok].
  pose proof (on_client_fds (listen_ops loc) w0) as Hf'. run_ok (on_client (listen_ops loc) w0) Hok.
  simpl in Hf, Hf'. case_match; [|eauto with wok]. cbn [snd].
  apply upd_fd_ok; [|done]. intros s Hs. rewrite Hf', Hf in Hs. split_and!; [done|done|]. left. by apply Hfr.
Qed.

Lemma gate_ok fd s h w : fds w !! fd = Some s → handle s = Some h → world_ok w →
  world_ok (upd_glob (arm_connect_gate h (app_fd s) (inner_fd s)) w).
Proof. intros Hs Hh. apply (adds_ok fd s h); [done|done|apply arm_adds]. Qed.

Lemma connect_opened_ok fd h rem dg w :
  (∀ s, fds w !! fd = Some s → handle s = None) → world_ok w →
  world_ok (snd (connect_opened fd h rem dg w)).
Proof.
  intros Hfr Hok. unfold connect_opened. destruct (fds w !! fd) as [s|] eqn:Hs; [|eauto with wok].
  set (s1 := set_digis dg (set_remote (Some rem) (set_handle (Some h) s))).
  set (w1 := upd_fd fd _ w).
  assert (fds w1 !! fd = Some s1) as Hs1 by (unfold w1; simpl; by rewrite lookup_alter_eq, Hs).
  assert (world_ok w1) as Hok1.
  { apply upd_fd_ok; [|done]. intros s' Hs'. split_and!; [done|done|]. left. apply Hfr. congruence. }
  clearbody w1. clear Hok. set (w2 := upd_glob (upd_recv (register h (inner_fd s))) w1).
  assert (world_ok w2) as Hok2 by (apply (adds_ok fd s1 h); [done|done|apply recv_register_adds|done]).
  assert (fds w2 !! fd = Some s1) as Hs2 by done. clearbody w2. destruct (is_nonblocking fd w2).
  - assert (world_ok (upd_glob (arm_connect_gate h (app_fd s) (inner_fd s)) w2)) as Hok3
      by (by apply (gate_ok fd s1)).
    apply failed_ok. case_match; [|done]. apply glob_ok; [apply resolve_settles|done].
  - pose proof (wait_connected_moves (on_sink settles) h true (rhp w2)) as Hw.
    destruct (wait_connected h true (rhp w2)) as [r st]. simpl in Hw.
    assert (world_ok (upd_rhp (λ _, st) w2)) as Hok3 by by apply rhp_ok.
    destruct r as [[[]|e]|]; [|eauto with wok|done].
    apply (adds_ok fd s1 h); [done|done|apply out_register_adds|done].
Qed.

Lemma connect_ok fd a n w : fresh_call (CConnect fd a n) w → world_ok w →
  world_ok (snd (connect creds src_call fd a n w)).
Proof.
  intros Hfr Hok. unfold connect. destruct (negb _); [done|].
  destruct (read_call a n) as [rem|]; [|eauto with wok]. destruct (is_dgram_fd w fd) eqn:Hdg.
  - run_ok (ensure_dgram_handle creds fd w) Hok. case_match; [|eauto with wok]. by apply upd_fd_same_ok.
  - pose proof (ensure_client_fds creds w) as Hf. run_ok (ensure_client creds w) Hok.
    case_match; [|eauto with wok]. set (m := open_connect _ _ _).
    pose proof (on_client_fds m w0) as Hf'. assert (harmless m) as Hm by apply open_connect_harmless.
    run_ok (on_client m w0) Hok. simpl in Hf, Hf'. case_match; [|eauto with wok].
    apply connect_opened_ok; [|done]. intros s Hs. apply Hfr; [congruence|].
    unfold is_dgram_fd in Hdg. by rewrite <- Hf, <- Hf', Hs in Hdg.
Qed.

Lemma accept_child_ok loc info out w : world_ok w → world_ok (snd (accept_child pad loc info out w)).
Proof.
  intros Hok. unfold accept_child. pose proof (create_ok false w Hok) as Hc.
  destruct (create_ax25_fd false w) as [[child|] w1]; destruct Hc as [Hok1 Hc]; [|by apply errno_ok].
  destruct (Hc child eq_refl) as [inner Hnew]. cbn [snd].
  set (f := λ s, set_local _ (set_remote _ (set_handle _ s))). set (w2 := upd_fd child f w1).
  assert (fds w2 !! child = Some (f (new_fd child inner false))) as Hs
    by (unfold w2; simpl; by rewrite lookup_alter_eq, Hnew).
  assert (world_ok w2) as Hok2.
  { apply upd_fd_ok; [|done]. intros s Hs'. split_and!; [done|done|]. left.
    rewrite Hnew in Hs'. by injection Hs' as <-. }
  rewrite Hs. simpl. set (h := child_handle info) in *.
  apply (adds_ok child (f (new_fd child inner false)) h);
    [done|done|apply out_register_adds|].
  apply (adds_ok child (f (new_fd child inner false)) h); [done|done|apply recv_register_adds|done].
Qed.

Lemma accept_ok fd out w : world_ok w → world_ok (snd (accept creds pad fd out w)).
Proof.
  intros Hok. unfold accept. destruct (fds w !! fd) as [s|]; [|done].
  destruct (handle s) as [l|]; [|by apply errno_ok].
  run_ok (ensure_client creds w) Hok. case_match; [|by apply errno_ok].
  destruct (is_nonblocking fd w0).
  - pose proof (try_accept_moves (on_sink settles) l (rhp w0)) as Hm. destruct (try_accept l (rhp w0)) as [o st].
    assert (world_ok (upd_rhp (λ _, st) w0)) as Hok1.
    { apply rhp_ok; [|done]. apply Hm. intros m st'. unfold on_sink. reflexivity. }
    destruct o; [by apply accept_child_ok|by apply errno_ok].
  - pose proof (wait_accept_moves (on_sink settles) l false (rhp w0)) as Hm.
    destruct (wait_accept l false (rhp w0)) as [o st].
    assert (world_ok (upd_rhp (λ _, st) w0)) as Hok1.
    { apply rhp_ok; [|done]. apply Hm. intros m st'. unfold on_sink. reflexivity. }
    destruct o as [[info|]|]; [by apply accept_child_ok|by apply errno_ok|done].
Qed.

Lemma setsockopt_ok fd l o v n w : world_ok w → world_ok (snd (setsockopt fd l o v n w)).
Proof.
  intros Hok. unfold setsockopt. destruct (is_ax25_fd w fd); [|done]. destruct v; [|done].
  destruct (_ && _); [|done]. apply upd_fd_same_ok; [|done]. intros s.
  unfold set_option. by repeat case_match.
Qed.

Lemma getsockopt_ok fd l o out w : world_ok w → world_ok (snd (getsockopt creds fd l o out w)).
Proof.
  intros Hok. unfold getsockopt. destruct (is_ax25_fd w fd); [|done].
  destruct (_ && _).
  - destruct out as [[mem|] [len|]]; try by apply errno_ok. destruct (len <? 4); [by apply errno_ok|].
    destruct (fds w !! fd ≫= handle) as [h|]; [|done].
    run_ok (ensure_client creds w) Hok. case_match; [|done].
    unfold take_connect_error. destruct (ConnRegistry.take_error h _) as [e m]. by apply rhp_ok.
  - destruct (l =? SOL_AX25); [|done]. destruct out as [[mem|] [len|]]; try done.
    by destruct (4 <=? len).
Qed.

Lemma dgram_send_ok fd d a n w : world_ok w → world_ok (snd (ax25_dgram_send creds src_call fd d a n w)).
Proof.
  intros Hok. unfold ax25_dgram_send. run_ok (ensure_dgram_handle creds fd w) Hok.
  case_match; [|eauto with wok]. destruct (fds w0 !! fd) as [s|]; [|eauto with wok].
  destruct (match a with Some _ => _ | None => _ end) as [rem|e]; [|eauto with wok].
  case_bool_decide; [eauto with wok|]. run_ok (ensure_client creds w0) Hok.
  case_match; [|eauto with wok]. set (m := Client.sendto _ _ _ _).
  assert (harmless m) as Hm by apply (sendto_moves _). run_ok (on_client m w1) Hok.
  case_match; [done|eauto with wok].
Qed.

Lemma dgram_recv_loop_ok fuel h pid nb len src w : world_ok w →
  world_ok (snd (dgram_recv_loop pad fuel h pid nb len src w)).
Proof.
  revert w. induction fuel as [|fuel IH]; intros w Hok; [done|]. cbn [dgram_recv_loop].
  pose proof (recv_one_keeps same_open (λ _ _, True) (λ _, True) recv_same_open h (g_dgram (sk (rhp w)))
    (g_kern (sk (rhp w))) ltac:(done)) as Hr.
  destruct (recv_one h _ _) as [[o st] k]. destruct Hr as [H1 H2].
  set (w1 := upd_glob _ w). assert (world_ok w1) as Hok1.
  { apply glob_ok; [|done]. by apply (settles_dgram (λ _, st) k). }
  clearbody w1. destruct o; [done| |done|by apply errno_ok]. destruct nb; [by apply errno_ok|].
  destruct (net (rhp w1)) eqn:Hn; [done|]. apply IH.
  apply (world_ok_settles w1); [done| |done]. apply (elapse_moves (on_sink settles)).
Qed.

Lemma dgram_recv_ok fd len fl src w : world_ok w →
  world_ok (snd (ax25_dgram_recv creds pad fd len fl src w)).
Proof.
  intros Hok. unfold ax25_dgram_recv. run_ok (ensure_dgram_handle creds fd w) Hok.
  case_match; [by apply dgram_recv_loop_ok|by apply errno_ok].
Qed.

Lemma ax25_send_ok fd d w : world_ok w → world_ok (snd (ax25_send creds fd d w)).
Proof.
  intros Hok. unfold ax25_send. destruct (fds w !! fd ≫= handle) as [h|]; [|eauto with wok].
  run_ok (ensure_client creds w) Hok. case_match; [|eauto with wok].
  set (m := send_ordered h d). assert (harmless m) as Hm by apply send_ordered_harmless.
  run_ok (on_client m w0) Hok. case_match; [|eauto with wok]. cbn [snd]. case_match; [by apply errno_ok|done].
Qed.

Lemma write_ok fd d a n w : world_ok w →
  world_ok (snd (if is_dgram_fd w fd then ax25_dgram_send creds src_call fd d a n w
                 else if is_ax25_fd w fd then ax25_send creds fd d w else (Libc, w))).
Proof. intros Hok. repeat case_match; [by apply dgram_send_ok|by apply ax25_send_ok|done]. Qed.

Lemma recvfrom_ok rr fd n fl src w : world_ok w → world_ok (snd (recvfrom creds pad rr fd n fl src w)).
Proof. intros Hok. unfold recvfrom. repeat case_match; [by apply dgram_recv_ok|done..]. Qed.

Lemma close_ok fd w : world_ok w → world_ok (snd (close creds fd w)).
Proof.
  intros Hok. unfold close. destruct (is_ax25_fd w fd); [|done]. cbn [snd]. apply destroy_ok.
  destruct (fds w !! fd ≫= handle) as [h|]; [|done].
  run_ok (ensure_client creds w) Hok. case_match; [|done]. eauto with wok.
Qed.

Lemma do_call_ok c w : fresh_call c w → world_ok w → world_ok (snd (do_call creds src_call pad c w)).
Proof.
  intros Hfr Hok. destruct c; simpl.
  - by apply socket_ok.
  - by apply bind_ok.
  - by apply listen_ok.
  - by apply connect_ok.
  - pose proof (accept_ok fd out w Hok). by destruct (accept _ _ _ _ _) as [[? ?] ?].
  - done.
  - done.
  - by apply setsockopt_ok.
  - pose proof (getsockopt_ok fd level optname out w Hok). by destruct (getsockopt _ _ _ _ _ _) as [[? ?] ?].
  - unfold read. destruct (is_dgram_fd w fd); [|done]. pose proof (dgram_recv_ok fd count 0 (None, None) w Hok).
    by destruct (ax25_dgram_recv _ _ _ _ _ _ _) as [[? [? ?]] ?].
  - unfold recv. destruct (is_dgram_fd w fd); [|done]. pose proof (recvfrom_ok 0 fd len flags (None, None) w Hok).
    by destruct (recvfrom _ _ _ _ _ _ _ _) as [[? [? ?]] ?].
  - pose proof (recvfrom_ok real_recv fd len flags src w Hok).
    by destruct (recvfrom _ _ _ _ _ _ _ _) as [[? ?] ?].
  - by apply write_ok.
  - by apply write_ok.
  - by apply write_ok.
  - done.
  - done.
  - by apply close_ok.
Qed.

(** * The threads *)
Lemma outbound_ok polled w : world_ok w → world_ok (outbound_turn creds polled w).
Proof.
  intros Hok. unfold outbound_turn. destruct polled as [rev|]; [|done].
  generalize (map_to_list (g_out (sk (rhp w)))) as l. intros l.
  run_ok (ensure_client creds w) Hok. case_match; [|done]. revert w0 Hok.
  induction l as [|[h x] l IH]; intros w0 Hok; [done|]. simpl. apply IH.
  case_match; [|done]. apply (world_ok_settles w0); [done| |done]. apply out_flush_settles.
Qed.

(** The rest of the process spares the descriptors that are being closed. *)
Definition spares_kept (l : label) w : Prop :=
  match l with LEnv k' => ∀ x, kept x → kopen k' x = kopen (g_kern (pumps w)) x | _ => True end.

Lemma step_ok_world l w : step_ok l w → spares_kept l w → fresh l w → world_ok w →
  world_ok (do_step front_len creds src_call pad l w).
Proof.
  intros Hstep Hsp Hfr Hok. destruct l as [c|ev| |polled|k'|evs ds]; simpl.
  - by apply do_call_ok.
  - apply (world_ok_settles w); [done| |done]. apply (net_step_moves (on_sink settles)).
  - apply glob_ok; [apply flusher_settles|done].
  - by apply outbound_ok.
  - destruct Hok as [H1 H2 H3 H4]. split; [|intros fd s Hs|exact H3|].
    + intros r h x Hx. apply (H1 r h x). by destruct r.
    + destruct (H2 fd s Hs) as (? & ? & Ho1 & Ho2). destruct (Hstep fd s Hs) as [He1 He2].
      unfold pumps in *. simpl. split_and!; [done|done|congruence|congruence].
    + intros x Hx. destruct (H4 x Hx) as [Ho Hap]. unfold pumps in *. simpl. rewrite Hsp; [done|done].
  - by apply (world_ok_settles w).
Qed.

Lemma initial_ok k evs ds : (∀ x, ¬ kept x) → world_ok (initial k evs ds).
Proof.
  intros Hno. split.
  - intros [] h x He; simpl in He; try destruct He as (e & He & _);
      [change (handles (g_recv _)) with (∅ : gmap Z PendingRecv) in He
      |change (g_out _) with (∅ : gmap Z Z) in He|change (g_gates _) with (∅ : gmap Z Z) in He
      |change (g_dgram _) with (∅ : dgrams) in He]; by rewrite lookup_empty in He.
  - intros fd s Hs. change (fds _) with (∅ : gmap Z FdState) in Hs. by rewrite lookup_empty in Hs.
  - intros fd1 s1 fd2 s2 Hs. change (fds _) with (∅ : gmap Z FdState) in Hs. by rewrite lookup_empty in Hs.
  - by intros x ?%Hno.
Qed.

(** A live socket's descriptors are open, and no other live socket has them. *)
Lemma live_open w h x : world_ok w → live w h x → kopen (g_kern (pumps w)) x = true ∧
  ∃ fd s, fds w !! fd = Some s ∧ handle s = Some h ∧ (x = app_fd s ∨ x = inner_fd s) ∧
    ∀ fd' s', fds w !! fd' = Some s' → fd' ≠ fd → x ≠ app_fd s' ∧ x ≠ inner_fd s'.
Proof.
  intros [_ H2 H3 _] (fd & s & Hs & Hh & Hx). destruct (H2 fd s Hs) as (Ha & _ & Ho1 & Ho2).
  split; [by destruct Hx as [->| ->]|]. exists fd, s. split_and!; [done..|].
  intros fd' s' Hs' Hne. destruct (H2 fd' s' Hs') as (Ha' & _).
  destruct (H3 fd s fd' s' Hs Hs') as [? ?]; [done|]. destruct (H3 fd' s' fd s Hs' Hs) as [_ ?]; [done|].
  destruct Hx as [->| ->]; split; congruence.
Qed.
End spec.

(** * The process whose calls run to their end *)
Section reachable.
Context `{!SerdeJson} {K : Type} `{!Kernel K, !KernelFds K, !KernelFdsLaws K}.
Variable front_len : list Z → nat.
Variable creds : option (str * str).
Variable src_call : option str.
Variable pad : list Z.
Implicit Types (w : world (K := K)).

(** No socket is half closed. *)
Definition none_lent (_ : registry) (_ _ : Z) : Prop := False.
Definition none_kept (_ : Z) : Prop := False.

Lemma reachable_ok k evs ds w :
  rtc (fresh_step front_len creds src_call pad) (initial k evs ds) w → world_ok none_lent none_kept w.
Proof.
  intros Hr. remember (initial k evs ds) as w0 eqn:Hw0.
  assert (world_ok none_lent none_kept w0) as Hok by (subst; apply initial_ok; by intros x ?). clear Hw0.
  induction Hr as [|w1 w2 w3 (l & Hs & Hf & ->) _ IH]; [done|].
  apply IH. apply step_ok_world; try done. destruct l; try done. by intros x [].
Qed.

(** C5: while every connected socket is connected or made to listen once, every
    descriptor a pump or a gate holds, in any state the process can reach, is
    open and is an end of the socketpair of a socket that has that handle: no
    thread of the library writes to, reads from or shuts down a descriptor that
    was closed and may be something else by now.  *)
Theorem pumps_hold_live_descriptors k evs ds w h x :
  rtc (fresh_step front_len creds src_call pad) (initial k evs ds) w → refers (pumps w) h x →
  kopen (g_kern (pumps w)) x = true ∧
  ∃ fd s, fds w !! fd = Some s ∧ handle s = Some h ∧ (x = app_fd s ∨ x = inner_fd s) ∧
    ∀ fd' s', fds w !! fd' = Some s' → fd' ≠ fd → x ≠ app_fd s' ∧ x ≠ inner_fd s'.
Proof.
  intros Hr [r Href]. pose proof (reachable_ok _ _ _ _ Hr) as Hok.
  destruct (wo_refs _ _ _ Hok r h x Href) as [Hl|[]]. by apply (live_open none_lent none_kept).
Qed.

(** It is not so when a socket is connected again: the handle of the first
    connect stays registered, and closing the socket, which forgets the second
    handle only, leaves the receive pump with a descriptor that is closed. *)
Theorem reconnect_outlives_close fd s h1 h2 e rem dg w :
  fds w !! fd = Some s → handles (g_recv (pumps w)) !! h1 = Some e →
  RecvPump.inner_fd e = inner_fd s → h1 ≠ h2 → is_nonblocking fd w = true →
  let w1 := snd (connect_opened fd h2 rem dg w) in
  let w2 := destroy_ax25_fd fd w1 in
  fds w2 !! fd = None ∧ refers (pumps w2) h1 (inner_fd s) ∧
  kopen (g_kern (pumps w2)) (inner_fd s) = false.
Proof.
  intros Hs He Hi Hne Hnb w1 w2.
  assert (∃ s1, fds w1 !! fd = Some s1 ∧ handle s1 = Some h2 ∧ inner_fd s1 = inner_fd s ∧
    handles (g_recv (pumps w1)) !! h1 = Some e) as (s1 & Hs1 & Hh1 & Hi1 & He1).
  { unfold w1, connect_opened. rewrite Hs.
    match goal with |- context [is_nonblocking fd ?x] =>
      change (is_nonblocking fd x) with (is_nonblocking fd w) end. rewrite Hnb. simpl.
    eexists. split; [|split; [|split]].
    - assert (∀ (b : bool) (g : world (K := K)), fds (if b then upd_glob (resolve_connect_gate h2) g else g) = fds g)
        as Hif by (by intros []). case_match; simpl; by rewrite lookup_alter_eq, Hs.
    - done.
    - done.
    - case_match; unfold pumps; cbn [upd_glob upd_rhp upd_sk rhp sk set_errno]; rewrite ?resolve_recv;
        cbn [arm_connect_gate upd_gates upd_kern upd_recv g_recv register handles];
        by rewrite lookup_insert_ne. }
  unfold w2, destroy_ax25_fd. rewrite Hs1, Hh1. unfold pumps. simpl.
  split_and!; [apply lookup_delete_eq| |].
  - exists InRecv, e. simpl. by rewrite lookup_delete_ne.
  - rewrite !kclose_open, Hi1. rewrite (bool_decide_true (inner_fd s = inner_fd s)) by done. simpl.
    apply andb_false_r.
Qed.
End reachable.

(** * Witnesses: a process that opens a socket and connects it. *)
Import Example.
#[local] Existing Instances Pairs.kernel_pairs Pairs.laws_pairs Pairs.fds_pairs Pairs.fds_laws_pairs.

Definition whole (b : list Z) : nat := List.length b.
Definition call_addr (call : str) : list Z := sockaddr_bytes [0; 0; 0] (encode call) 0.

(** The engine accepts the open with handle 7, then the link comes up. *)
Definition open_script : list event :=
  [NetFrame (reply 1 7); Wake; NetFrame (push (lit "status") 7); Wake].

Lemma take_step l (w w1 w2 : world (K := Pairs.kernel)) :
  step_ok l w → fresh l w → do_step whole None None [0; 0; 0] l w = w1 →
  rtc (fresh_step whole None None [0; 0; 0]) w1 w2 → rtc (fresh_step whole None None [0; 0; 0]) w w2.
Proof. intros Hs Hf <- Hr. eapply rtc_l; [by exists l|done]. Qed.

(** One step, and the state it leads to, evaluated. *)
Ltac run_step l := match goal with |- rtc _ ?w _ =>
  let w1 := eval vm_compute in (do_step whole None None [0; 0; 0] l w) in
  apply (take_step l w w1);
    [exact I | first [exact I | intros ? Hs; vm_compute in Hs; injection Hs as <-; reflexivity]
    |vm_cast_no_check (eq_refl w1)|] end.

Lemma pumps_hold_live_descriptors_witness : ∃ w,
  rtc (fresh_step whole None None [0; 0; 0]) (initial Pairs.empty [] []) w ∧
  refers (pumps w) 7 4 ∧ kopen (g_kern (pumps w)) 4 = true.
Proof.
  assert (∃ w, rtc (fresh_step whole None None [0; 0; 0]) (initial Pairs.empty [] []) w ∧
    refers (pumps w) 7 4) as (w & Hr & Href).
  { eexists. split.
    - run_step (LCall (K := Pairs.kernel) (CSocket AF_AX25 SOCK_SEQPACKET)).
      run_step (LFuture (K := Pairs.kernel) open_script [Ok (mkWriter [] None)]).
      run_step (LCall (K := Pairs.kernel) (CConnect 3 (Some (call_addr (lit "GB7RDG"))) 16)).
      apply rtc_refl.
    - exists InRecv. eexists. split; vm_compute; reflexivity. }
  exists w. split; [exact Hr|]. split; [exact Href|].
  exact (proj1 (pumps_hold_live_descriptors whole None None [0; 0; 0] Pairs.empty [] [] w 7 4 Hr Href)).
Defined.

(** A non-blocking socket whose first connect got handle 7, and failed. *)
Definition kern_nonblock : Pairs.kernel := Pairs.set_nonblock 3 (snd (Pairs.socketpair Pairs.empty)).
Definition world_again : world :=
  mkWorld {[3 := set_handle (Some 7) (new_fd 3 4 false)]}
    (mkSys (upd_conns (λ _, {[9 := Pending]}) (new_client (mkWriter [] None)))
       (mkGlob (mkPumpState {[7 := mkPendingRecv 4 [] true true]} ∅) ∅ ∅ ∅ kern_nonblock) [])
    true [] 0.

Lemma reconnect_outlives_close_witness :
  let w2 := destroy_ax25_fd 3 (snd (connect_opened 3 9 (lit "GB7RDG") [] world_again)) in
  refers (pumps w2) 7 4 ∧ kopen (g_kern (pumps w2)) 4 = false.
Proof.
  destruct (reconnect_outlives_close 3 (set_handle (Some 7) (new_fd 3 4 false)) 7 9
    (mkPendingRecv 4 [] true true) (lit "GB7RDG") [] world_again) as (_ & H1 & H2);
    [reflexivity|reflexivity|reflexivity|discriminate|reflexivity|].
  split; [exact H1|exact H2].
Defined.
