(* ===== verification/ErrnoSpec.v ===== *)
(** The interposed calls follow libc's convention: in every state the process can
    reach a call that fails returns -1 and has stored an error in errno, and a call
    that succeeds returns a number that is not negative; what errno is then POSIX
    leaves open, and so do the calls. *)
From stdpp Require Import prelude gmap.
From Stdlib Require Import ZArith Lia String.
From S2P Require Import Prelude Str Errors Addr IAddr Framing Messages Client ClientSpec ClientKeeps Sockets.
From S2P Require Import RecvPump DgramPump State Interpose Process.
Local Open Scope Z_scope.
Local Open Scope act_scope.

Create HintDb errno.

(** Linux's errors. *)
Definition errno_ok (e : Z) : Prop := 1 ≤ e ≤ 133.
Lemma errno_ok_dec e : bool_decide (1 ≤ e ∧ e ≤ 133) = true → errno_ok e.
Proof. intros H%bool_decide_eq_true. unfold errno_ok. lia. Qed.
#[export] Hint Extern 1 (errno_ok _) => (apply errno_ok_dec; reflexivity) : errno.

(** * The client's errors *)
Section client.
Context `{!SerdeJson} {S : Type} `{!RhpEventSink S}.
Implicit Types st : sys (S := S).

(** No method fails with an error that has no errno. *)
Definition fails_well {A} (m : act (sys (S := S)) A RhpError) : Prop :=
  ∀ st e, fst (m st) = Err e → errno_ok (to_errno e).

Lemma fails_bind {A B} (m : act sys A RhpError) (k : A → act sys B RhpError) :
  fails_well m → (∀ a, fails_well (k a)) → fails_well (abind m k).
Proof.
  intros Hm Hk st e. unfold abind. specialize (Hm st). destruct (m st) as [[a|e'] st']; [apply Hk|].
  intros [= ->]. by apply Hm.
Qed.

Lemma fails_never {A} (r : A) (f : sys → sys) : fails_well (λ st, (Ok r, f st)).
Proof. by intros st e [=]. Qed.

Lemma fails_json {A} `{!Serialize A} (r : A) : fails_well (to_json r).
Proof.
  intros st e. unfold to_json. simpl. destruct (to_vec (fields r)); [done|]. intros [= <-]. simpl.
  auto with errno.
Qed.

Lemma fails_request i b : fails_well (request i b).
Proof.
  intros st e. unfold request. destruct (begin_request i (cl st)) as [ch c].
  destruct (write_frame _ b) as [[[]|io] w]; [|intros [= <-]; simpl; auto with errno].
  destruct (wait _ _ _ _) as [[[f|]| |] st']; intros [= <-]; simpl; auto with errno.
Qed.

Lemma fails_checked f : fails_well (checked f).
Proof. intros st e He. by apply (check_ok_errno f). Qed.

Lemma fails_handle (o : option Z) text : fails_well (λ st : sys (S := S), (ok_or o (missing_handle text), st)).
Proof. intros st e. simpl. destruct o; [done|]. intros [= <-]. simpl. auto with errno. Qed.

Lemma fails_next_id : fails_well next_id.
Proof. by intros st e [=]. Qed.
Lemma fails_ret {A} (a : A) : fails_well (aret a).
Proof. by intros st e [=]. Qed.
#[local] Hint Resolve fails_json fails_request fails_checked fails_handle fails_next_id fails_ret : errno.

Ltac fails_call := repeat match goal with
  | |- fails_well (abind _ _) => apply fails_bind; [|intros ?]
  | |- fails_well _ => solve [auto with errno | apply fails_never]
  end.

Lemma fails_open_connect l r v : fails_well (open_connect l r v).
Proof. unfold open_connect, open. fails_call. Qed.
Lemma fails_send h d : fails_well (Client.send h d).
Proof.
  assert (∀ c, fails_well (send_chunk h c)) as Hc by (intros c; unfold send_chunk; fails_call).
  assert (∀ cs, fails_well (send_chunks h cs)) as Hcs.
  { induction cs; simpl; [auto with errno|]. by apply fails_bind. }
  unfold Client.send. destruct d; auto.
Qed.
Lemma fails_sendto h r l d : fails_well (Client.sendto h r l d).
Proof. unfold Client.sendto. fails_call. Qed.
Lemma fails_socket : fails_well Client.socket.
Proof. unfold Client.socket, socket_mode. fails_call. Qed.
Lemma fails_socket_dgram : fails_well socket_dgram.
Proof. unfold socket_dgram, socket_mode. fails_call. Qed.
Lemma fails_bind_call h l p : fails_well (Client.bind h l p).
Proof. unfold Client.bind. fails_call. Qed.
Lemma fails_listen h : fails_well (Client.listen h).
Proof. unfold Client.listen. fails_call. Qed.

(** * The errors kept for later *)
Definition conns_ok st : Prop := ∀ h e, conns (cl st) !! h = Some (Failed e) → errno_ok e.
Definition stays_ok : relation (sys (S := S)) := λ st st', conns_ok st → conns_ok st'.

Lemma mark_failed_ok x h e e' (m : ConnRegistry.t) : errno_ok e' →
  ConnRegistry.mark_failed x e' m !! h = Some (Failed e) → m !! h = Some (Failed e) ∨ errno_ok e.
Proof.
  intros He. unfold ConnRegistry.mark_failed. destruct (m !! x) as [[]|]; auto.
  intros [[_ [= <-]]|[_ ?]]%lookup_insert_Some; auto.
Qed.

Lemma close_errno_ok f : errno_ok (close_errno f).
Proof.
  unfold close_errno. destruct (Z.eqb_spec (errcode f) 0); [auto with errno|].
  by apply errcode_to_errno_range.
Qed.

#[export] Instance stays_ok_rel : SysRel stays_ok.
Proof.
  unfold stays_ok. split.
  - split; [by intros st|]. intros x y z H1 H2 Hx. auto.
  - intros st st' Hc _ _ _ Hok h e. rewrite Hc. apply Hok.
  - intros f st _ Hok h e. destruct (dispatch_push_registries f st) as [-> _]. unfold conns_frame.
    destruct (Messages.handle f) as [x|]; [|apply Hok]. case_decide.
    + case_match; [apply Hok|]. unfold ConnRegistry.mark_connected.
      intros [[_ [=]]|[_ Hl]]%lookup_insert_Some. by apply (Hok h).
    + case_decide; [|apply Hok].
      intros [Hl|?]%mark_failed_ok; [by apply (Hok h)|done|apply close_errno_ok].
  - intros st _ Hok h e Hl. simpl in Hl. apply lookup_fmap_Some in Hl as (q & Hq & Hl).
    destruct q as [| |x]; simplify_eq; [auto with errno|by apply (Hok h)].
Qed.

Lemma wait_connected_errno h timed st e st' : conns_ok st →
  wait_connected h timed st = (Some (Err e), st') → errno_ok e.
Proof.
  intros Hok. unfold wait_connected.
  destruct (wait (conn_ready h) (conn_expired h) timed st) as [[r| |] st1] eqn:Hw;
    [intros [= -> <-]|intros [= <- <-]; auto with errno|done].
  destruct (wait_woken stays_ok _ _ _ _ _ _ (conn_ready_moves stays_ok h) (conn_expired_moves stays_ok h) Hw)
    as (st0 & H0 & Hr).
  assert (ConnRegistry.result h (conns (cl st0)) = Some (Err e) ∨ e = ECONNRESET) as [Hres| ->].
  { destruct Hr as [[c' Hr]|[c' Hr]]; unfold conn_ready, conn_expired in Hr;
      destruct (ConnRegistry.result h (conns (cl st0))); simplify_eq; auto.
    destruct (closed (cl st0)); simplify_eq; auto. }
  - unfold ConnRegistry.result in Hres. destruct (conns (cl st0) !! h) as [[]|] eqn:Hl; simplify_eq.
    apply H0 in Hok. by apply (Hok h).
  - auto with errno.
Qed.
End client.

(** * The calls *)
Section spec.
Context `{!SerdeJson} {K : Type} `{!Kernel K, !KernelFds K, !KernelFdsLaws K}.
Variable front_len : list Z → nat.
Variable creds : option (str * str).
Variable src_call : option str.
Variable pad : list Z.
Implicit Types w : world (K := K).

Definition good (e0 : Z) w : Prop := errno w = e0 ∧ conns_ok (rhp w).

(** libc's convention. *)
Definition conventional (r : ret) w : Prop :=
  conns_ok (rhp w) ∧
  match r with
  | Val n => n = -1 ∧ errno_ok (errno w) ∨ 0 ≤ n
  | Libc | Hang => True
  end.

Lemma good_rhp e0 st w : conns_ok st → good e0 w → good e0 (upd_rhp (λ _, st) w).
Proof. by intros Hs [He _]. Qed.

Lemma failed_conv e0 e w : errno_ok e → good e0 w → conventional (fst (failed e w)) (snd (failed e w)).
Proof. intros He [_ Hc]. split; [done|]. by left. Qed.

Lemma val_conv e0 n w : 0 ≤ n → good e0 w → conventional (Val n) w.
Proof. intros Hn [He Hc]. split; [done|]. by right. Qed.

Lemma ensure_client_good e0 w : good e0 w → good e0 (snd (ensure_client creds w)).
Proof.
  intros [He Hc]. unfold ensure_client. destruct (cached w && _); [done|].
  destruct (dials w) as [|d r]; [done|]. destruct d as [wr|e]; [|done].
  pose proof (connect_to_moves stays_ok (Ok wr) creds (sk (rhp w)) (net (rhp w))) as Hm.
  destruct (connect_to (Ok wr) creds (sk (rhp w)) (net (rhp w))) as [[[]|e] st]; [|done].
  split; [done|]. apply Hm. intros h x Hl. simpl in Hl. by rewrite lookup_empty in Hl.
Qed.

Definition tame {A E} (m : act (sys (S := glob (K := K))) A E) : Prop := moves stays_ok m.

Lemma on_client_good {A E} (m : act (sys (S := glob)) A E) e0 w : tame m → good e0 w →
  good e0 (snd (on_client m w)).
Proof.
  intros Hm [He Hc]. unfold on_client. specialize (Hm (rhp w) Hc). by destruct (m (rhp w)) as [r st].
Qed.

Lemma on_client_fails {A} (m : act (sys (S := glob)) A RhpError) w e : fails_well m →
  fst (on_client m w) = Err e → errno_ok (to_errno e).
Proof. intros Hf. unfold on_client. specialize (Hf (rhp w)). destruct (m (rhp w)) as [r st]. apply Hf. Qed.

Lemma forget_ok h (st : sys (S := glob (K := K))) : stays_ok st
  (upd_cl (λ c, upd_accepts (AcceptRegistry.forget h) (upd_conns (ConnRegistry.forget h) c)) st).
Proof.
  intros Hok x e Hl. simpl in Hl. unfold ConnRegistry.forget in Hl.
  apply lookup_delete_Some in Hl as [_ Hl]. by apply (Hok x).
Qed.
Lemma set_pending_ok h (st : sys (S := glob (K := K))) :
  stays_ok st (upd_cl (upd_conns (ConnRegistry.set_pending h)) st).
Proof.
  intros Hok x e Hl. simpl in Hl. unfold ConnRegistry.set_pending in Hl.
  destruct (conns (cl st) !! h); [by apply (Hok x)|].
  apply lookup_insert_Some in Hl as [[_ [=]]|[_ Hl]]. by apply (Hok x).
Qed.

Lemma tame_close h : tame (Client.close h).
Proof. apply (close_moves stays_ok), forget_ok. Qed.
Lemma tame_open_connect l r v : tame (open_connect l r v).
Proof. apply (open_connect_moves stays_ok), set_pending_ok. Qed.
Lemma tame_listen_ops loc : tame (listen_ops loc).
Proof.
  unfold listen_ops. apply moves_bind; [apply _|apply socket_moves, _|intros h].
  apply moves_bind; [apply _|apply bind_moves, _|intros _].
  apply moves_bind; [apply _|apply listen_moves, _|intros _]. apply moves_ret, _.
Qed.
Lemma fails_listen_ops loc : fails_well (listen_ops (K := K) loc).
Proof.
  unfold listen_ops. apply fails_bind; [apply fails_socket|intros h].
  apply fails_bind; [apply fails_bind_call|intros _].
  apply fails_bind; [apply fails_listen|intros _]. apply fails_ret.
Qed.
Lemma out_flush_ok h (st : sys (S := glob (K := K))) : stays_ok st (out_flush h st).
Proof.
  unfold out_flush, drain_handle. destruct (g_out (sk st) !! h) as [inner|]; [|by intros ?]. unfold drain_locked.
  generalize (S (List.length (unread (g_kern (sk st)) inner))) as fuel. intros fuel. revert st.
  induction fuel as [|fuel IH]; intros st; [by intros ?|]. cbn [out_drain].
  destruct (krecv inner 4096 (g_kern (sk st))) as [[[|c b]|e] k]; [by intros ?| |by intros ?].
  etrans; [|apply IH]. apply (send_moves stays_ok h (c :: b) (upd_sk _ st)).
Qed.
Lemma tame_send_ordered h d : tame (send_ordered h d).
Proof.
  intros st. rewrite send_ordered_snd. etrans; [apply (out_flush_ok h)|].
  apply (send_moves stays_ok h d).
Qed.
Lemma send_ordered_errno h d (st : sys (S := glob)) e : fst (send_ordered h d st) = Err e → errno_ok e.
Proof.
  unfold send_ordered. pose proof (fails_send h d (out_flush h st)) as Hf.
  destruct (Client.send h d (out_flush h st)) as [[[]|x] st']; [done|]. intros [= <-]. by apply Hf.
Qed.
#[local] Hint Resolve ensure_client_good on_client_good tame_close tame_open_connect tame_listen_ops
  tame_send_ordered failed_conv val_conv : errno.
#[local] Hint Extern 1 (tame _) =>
  solve [apply (socket_moves _)|apply (socket_dgram_moves _)|apply (bind_moves _)|apply (sendto_moves _)] : errno.

(** Running a subcall: its result, and what is known after it. *)
Ltac run_good t e0 Hg :=
  let H := fresh in
  assert (good e0 (snd t)) as H by (eauto with errno);
  destruct t as [? ?] eqn:?; cbn [snd] in H; clear Hg; rename H into Hg.

Lemma store_dgram_good fd h e0 w : good e0 w → good e0 (snd (store_dgram_handle fd h w)) ∧
  ∀ e, fst (store_dgram_handle fd h w) = Err e → errno_ok e.
Proof.
  intros Hg. unfold store_dgram_handle. destruct (fds w !! fd) as [s|].
  - destruct (handle s) as [h'|]; [|done]. split; [|done]. cbn [snd]. eauto with errno.
  - split; [cbn [snd]; eauto with errno|]. intros e [= <-]. auto with errno.
Qed.

Lemma ensure_dgram_good fd e0 w : good e0 w → good e0 (snd (ensure_dgram_handle creds fd w)) ∧
  ∀ e, fst (ensure_dgram_handle creds fd w) = Err e → errno_ok e.
Proof.
  intros Hg. unfold ensure_dgram_handle.
  destruct (fds w !! fd) as [s|]; [|split; [done|intros e [= <-]; auto with errno]].
  destruct (handle s); [done|]. run_good (ensure_client creds w) e0 Hg.
  destruct b; [|split; [done|intros e [= <-]; auto with errno]].
  pose proof (on_client_fails socket_dgram w0) as Hf. run_good (on_client socket_dgram w0) e0 Hg.
  destruct r as [h|e]; [|split; [done|intros e' [= <-]; apply (Hf e); [apply fails_socket_dgram|done]]].
  destruct (local s) as [loc|]; [|by apply store_dgram_good].
  set (m := Client.bind h loc None). assert (tame m) as Hm by apply (bind_moves _).
  pose proof (on_client_fails m w1) as Hf'. run_good (on_client m w1) e0 Hg.
  destruct r as [[]|e]; [by apply store_dgram_good|].
  split; [cbn [snd]; eauto with errno|]. intros e' [= <-]. apply (Hf' e); [apply fails_bind_call|done].
Qed.

Lemma bind_conv fd a n e0 w : good e0 w → let '(r, w') := bind creds fd a n w in conventional r w'.
Proof.
  intros Hg. unfold bind. destruct (negb _); [by destruct Hg|].
  set (w1 := match read_call a n with Some _ => _ | None => _ end).
  assert (good e0 w1) as Hg1 by (unfold w1; by destruct (read_call a n)). clearbody w1.
  destruct (is_dgram_fd w1 fd); [|by eapply val_conv].
  pose proof (ensure_dgram_good fd e0 w1 Hg1) as [Hg2 Hf].
  destruct (ensure_dgram_handle creds fd w1) as [[h|e] w2]; [by eapply val_conv|].
  apply (failed_conv e0 e w2); [by apply Hf|done].
Qed.

Lemma socket_conv d t e0 w : good e0 w → let '(r, w') := socket d t w in conventional r w'.
Proof.
  intros Hg. unfold socket. destruct (_ && _); [|by destruct Hg]. unfold create_ax25_fd.
  destruct (ksocketpair (g_kern (sk (rhp w)))) as [[[a b]|] k] eqn:Hk.
  - apply ksocketpair_open in Hk as (Ha & _). eapply val_conv; [done|by destruct Hg].
  - apply (failed_conv e0 ENFILE); [auto with errno|by destruct Hg].
Qed.

Lemma listen_conv fd e0 w : good e0 w → let '(r, w') := listen creds fd w in conventional r w'.
Proof.
  intros Hg. unfold listen. destruct (negb _); [by destruct Hg|].
  destruct (fds w !! fd ≫= local) as [loc|]; [|apply (failed_conv e0 EINVAL); [auto with errno|done]].
  run_good (ensure_client creds w) e0 Hg.
  destruct b; [|apply (failed_conv e0 ECONNREFUSED); [auto with errno|done]].
  pose proof (on_client_fails (listen_ops loc) w0) as Hf. run_good (on_client (listen_ops loc) w0) e0 Hg.
  destruct r as [h|e]; [by eapply val_conv|]. apply (failed_conv e0 (to_errno e)); [|done].
  apply Hf; [apply fails_listen_ops|done].
Qed.

Lemma connect_opened_conv fd h rem dg e0 w : good e0 w →
  let '(r, w') := connect_opened fd h rem dg w in conventional r w'.
Proof.
  intros Hg. unfold connect_opened.
  destruct (fds w !! fd) as [s|]; [|apply (failed_conv e0 EBADF); [auto with errno|done]].
  set (w1 := upd_glob _ (upd_fd fd _ w)). assert (good e0 w1) as Hg1 by done. clearbody w1.
  destruct (is_nonblocking fd w1).
  - apply (failed_conv e0 EINPROGRESS); [auto with errno|]. by destruct (connect_result h _).
  - pose proof (wait_connected_moves stays_ok h true (rhp w1)) as Hm.
    pose proof (wait_connected_errno h true (rhp w1)) as He.
    destruct (wait_connected h true (rhp w1)) as [r st] eqn:Hw. destruct Hg1 as [Hg1 Hc1].
    specialize (Hm Hc1). simpl in Hm. destruct r as [[[]|e]|].
    + by eapply val_conv.
    + apply (failed_conv e0 e); [by eapply He|done].
    + done.
Qed.

Lemma connect_conv fd a n e0 w : good e0 w →
  let '(r, w') := connect creds src_call fd a n w in conventional r w'.
Proof.
  intros Hg. unfold connect. destruct (negb _); [by destruct Hg|].
  destruct (read_call a n) as [rem|]; [|apply (failed_conv e0 EINVAL); [auto with errno|done]].
  destruct (is_dgram_fd w fd).
  - pose proof (ensure_dgram_good fd e0 w Hg) as [Hg2 Hf].
    destruct (ensure_dgram_handle creds fd w) as [[h|e] w2]; [by eapply val_conv|].
    apply (failed_conv e0 e w2); [by apply Hf|done].
  - run_good (ensure_client creds w) e0 Hg.
    destruct b; [|apply (failed_conv e0 ECONNREFUSED); [auto with errno|done]].
    set (m := open_connect _ _ _). assert (tame m) as Hm by apply tame_open_connect.
    pose proof (on_client_fails m w0) as Hf. run_good (on_client m w0) e0 Hg.
    destruct r as [res|e]; [by eapply connect_opened_conv|].
    apply (failed_conv e0 (to_errno e)); [|done]. apply Hf; [apply fails_open_connect|done].
Qed.

(** The rest of a call, after the client has been made sure of. *)
Lemma accept_child_conv ll info out e0 w : good e0 w →
  let '(r, _, w') := accept_child pad ll info out w in conventional r w'.
Proof.
  intros Hg. unfold accept_child, create_ax25_fd.
  destruct (ksocketpair (g_kern (sk (rhp w)))) as [[[a b]|] k] eqn:Hk.
  - apply ksocketpair_open in Hk as (Ha & _). by eapply val_conv.
  - by apply (failed_conv e0 ENFILE); [auto with errno|].
Qed.

Lemma accepts_ok (m : AcceptRegistry.t → AcceptRegistry.t) (st : sys (S := glob (K := K))) :
  stays_ok st (upd_cl (upd_accepts m) st).
Proof. by intros Hok. Qed.

Lemma accept_conv fd out e0 w : good e0 w →
  let '(r, _, w') := accept creds pad fd out w in conventional r w'.
Proof.
  intros Hg. unfold accept. destruct (fds w !! fd) as [s|]; [|by destruct Hg].
  destruct (handle s) as [l|]; [|apply (failed_conv e0 EINVAL); [auto with errno|done]].
  run_good (ensure_client creds w) e0 Hg.
  destruct b; [|apply (failed_conv e0 ECONNABORTED); [auto with errno|done]].
  destruct (is_nonblocking fd w0).
  - pose proof (try_accept_moves stays_ok l (rhp w0) accepts_ok) as Hm.
    destruct (try_accept l (rhp w0)) as [o st]. simpl in Hm.
    assert (good e0 (upd_rhp (λ _, st) w0)) as Hg' by (destruct Hg; split; auto).
    destruct o as [info|]; [by eapply accept_child_conv|].
    apply (failed_conv e0 EAGAIN); [auto with errno|done].
  - pose proof (wait_accept_moves stays_ok l false (rhp w0) accepts_ok) as Hm.
    destruct (wait_accept l false (rhp w0)) as [o st]. simpl in Hm.
    assert (good e0 (upd_rhp (λ _, st) w0)) as Hg' by (destruct Hg; split; auto).
    destruct o as [[info|]|]; [by eapply accept_child_conv|..].
    + apply (failed_conv e0 ECONNABORTED); [auto with errno|done].
    + by destruct Hg'.
Qed.

Lemma setsockopt_conv fd l o v n e0 w : good e0 w →
  let '(r, w') := setsockopt fd l o v n w in conventional r w'.
Proof.
  intros Hg. unfold setsockopt. destruct (is_ax25_fd w fd); [|by destruct Hg].
  destruct v; [destruct (_ && _)|]; by eapply val_conv.
Qed.

Lemma take_connect_error_ok h (st : sys (S := glob (K := K))) : stays_ok st (snd (take_connect_error h st)).
Proof.
  intros Hok. unfold take_connect_error, ConnRegistry.take_error.
  destruct (conns (cl st) !! h) as [q|]; [|done]. simpl. case_match; [done|]. intros x e' Hx. simpl in Hx.
  apply lookup_insert_Some in Hx as [[_ [=]]|[_ Hx]]. by apply (Hok x).
Qed.

Lemma getsockopt_conv fd l o out e0 w : good e0 w →
  let '(r, _, w') := getsockopt creds fd l o out w in conventional r w'.
Proof.
  intros Hg. unfold getsockopt. destruct (is_ax25_fd w fd); [|by destruct Hg].
  assert (conventional (Val (-1)) (set_errno EINVAL w)) as Hinv
    by (apply (failed_conv e0 EINVAL); [auto with errno|done]).
  destruct (_ && _); [|destruct (l =? SOL_AX25); [|by destruct Hg]].
  - destruct out as [[mem|] [len|]]; try done. destruct (len <? 4); [done|].
    destruct (fds w !! fd ≫= handle) as [h|]; [|by eapply val_conv].
    run_good (ensure_client creds w) e0 Hg. destruct b; [|by eapply val_conv].
    pose proof (take_connect_error_ok h (rhp w0)) as Hm. destruct (take_connect_error h (rhp w0)) as [e st].
    eapply val_conv; [done|]. destruct Hg. split; [done|]. by apply Hm.
  - destruct out as [[mem|] [len|]]; try by eapply val_conv. destruct (4 <=? len); by eapply val_conv.
Qed.

Lemma dgram_send_conv fd d a n e0 w : good e0 w →
  let '(r, w') := ax25_dgram_send creds src_call fd d a n w in conventional r w'.
Proof.
  intros Hg. unfold ax25_dgram_send. pose proof (ensure_dgram_good fd e0 w Hg) as [Hg2 Hf].
  destruct (ensure_dgram_handle creds fd w) as [[h|e] w2]; cbn [fst snd] in *;
    [|apply (failed_conv e0 e w2); [by apply Hf|done]].
  destruct (fds w2 !! fd) as [s|]; [|apply (failed_conv e0 EBADF); [auto with errno|done]].
  assert (∀ t e, (match a with Some _ => ok_or (read_call a n) EINVAL | None => ok_or (remote s) EDESTADDRREQ end
    = t) → t = Err e → errno_ok e) as Ht.
  { intros t e <-. unfold ok_or. destruct a; [destruct (read_call _ n)|destruct (remote s)]; intros [= <-];
      auto with errno. }
  destruct (match a with Some _ => _ | None => _ end) as [rem|e];
    [|apply (failed_conv e0 e); [by eapply Ht|done]].
  case_bool_decide; [apply (failed_conv e0 EINVAL); [auto with errno|done]|].
  run_good (ensure_client creds w2) e0 Hg2.
  destruct b; [|apply (failed_conv e0 EIO); [auto with errno|done]].
  set (m := Client.sendto _ _ _ _). assert (tame m) as Hm by apply (sendto_moves _).
  pose proof (on_client_fails m w0) as He. run_good (on_client m w0) e0 Hg2.
  destruct r as [[]|e]; [eapply val_conv; [lia|done]|].
  apply (failed_conv e0 (to_errno e)); [|done]. apply (He e); [apply fails_sendto|done].
Qed.

Lemma dgram_recv_conv fuel h pid nb len src e0 w : good e0 w →
  let '(r, _, w') := dgram_recv_loop pad fuel h pid nb len src w in conventional r w'.
Proof.
  revert w. induction fuel as [|fuel IH]; intros w Hg; [by destruct Hg|]. cbn [dgram_recv_loop].
  destruct (recv_one h _ _) as [[o st] k]. set (w1 := upd_glob _ w).
  assert (good e0 w1) as Hg1 by done. clearbody w1. destruct o.
  - eapply val_conv; [lia|done].
  - destruct nb; [apply (failed_conv e0 EAGAIN); [auto with errno|done]|].
    destruct (net (rhp w1)); [by destruct Hg1|]. apply IH. destruct Hg1 as [H1 H2]. split; [done|].
    by apply (elapse_moves stays_ok).
  - by eapply val_conv.
  - apply (failed_conv e0 ENOTCONN); [auto with errno|done].
Qed.

Lemma dgram_receive_conv fd len fl src e0 w : good e0 w →
  let '(r, _, w') := ax25_dgram_recv creds pad fd len fl src w in conventional r w'.
Proof.
  intros Hg. unfold ax25_dgram_recv. pose proof (ensure_dgram_good fd e0 w Hg) as [Hg2 Hf].
  destruct (ensure_dgram_handle creds fd w) as [[h|e] w2]; cbn [fst snd] in *;
    [|apply (failed_conv e0 e w2); [by apply Hf|done]].
  by eapply dgram_recv_conv.
Qed.

Lemma ax25_send_conv fd d e0 w : good e0 w →
  let '(r, w') := ax25_send creds fd d w in conventional r w'.
Proof.
  intros Hg. unfold ax25_send.
  destruct (fds w !! fd ≫= handle) as [h|]; [|apply (failed_conv e0 ENOTCONN); [auto with errno|done]].
  run_good (ensure_client creds w) e0 Hg.
  destruct b; [|apply (failed_conv e0 EIO); [auto with errno|done]].
  pose proof (send_ordered_errno h d (rhp w0)) as He. unfold on_client.
  pose proof (tame_send_ordered h d (rhp w0)) as Hm. destruct (send_ordered h d (rhp w0)) as [r st].
  assert (good e0 (upd_rhp (λ _, st) w0)) as Hg' by (destruct Hg; split; auto).
  destruct r as [e|e]; [|apply (failed_conv e0 e); [by apply He|done]].
  assert (conns_ok (rhp (match e with Some e => set_errno e (upd_rhp (λ _, st) w0) | None => upd_rhp (λ _, st) w0 end))) as Hc
    by (destruct e; apply Hg').
  split; [done|right; lia].
Qed.

Lemma close_conv fd e0 w : good e0 w → let '(r, w') := close creds fd w in conventional r w'.
Proof.
  intros Hg. unfold close. destruct (is_ax25_fd w fd); [|by destruct Hg].
  set (w1 := match fds w !! fd ≫= handle with Some _ => _ | None => _ end).
  assert (good e0 w1) as Hg1.
  { unfold w1. destruct (fds w !! fd ≫= handle) as [h|]; [|done].
    run_good (ensure_client creds w) e0 Hg. destruct b; eauto with errno. }
  clearbody w1. eapply val_conv; [done|]. unfold destroy_ax25_fd.
  destruct (fds w1 !! fd) as [s|]; [|done]. by destruct (handle s).
Qed.

(** * Every call, in every state *)
Lemma do_call_conv c e0 w : good e0 w → (∀ rr fd n f src, c = CRecvfrom rr fd n f src → 0 ≤ rr) →
  let '(r, w') := do_call creds src_call pad c w in conventional r w'.
Proof.
  intros Hg Hrr. destruct c as [d t|fd a n|fd|fd a n|fd out|fd out|fd out|fd l o v n|fd l o out|fd n
    |fd n f|rr fd n f src|fd d|fd d f|fd d f a n|? ? ? ? ?|? ? ?|fd]; cbn [do_call].
  - by eapply socket_conv.
  - by eapply bind_conv.
  - by eapply listen_conv.
  - by eapply connect_conv.
  - pose proof (accept_conv fd out e0 w Hg) as Hd. by destruct (accept _ _ _ _ _) as [[??]?].
  - unfold getsockname. destruct (is_ax25_fd w fd); [by eapply val_conv|by destruct Hg].
  - unfold getpeername. destruct (is_ax25_fd w fd); [by eapply val_conv|by destruct Hg].
  - by eapply setsockopt_conv.
  - pose proof (getsockopt_conv fd l o out e0 w Hg) as Hd. by destruct (getsockopt _ _ _ _ _ _) as [[??]?].
  - unfold read. destruct (is_dgram_fd w fd); [|by destruct Hg].
    pose proof (dgram_receive_conv fd n 0 (None, None) e0 w Hg) as Hd.
    by destruct (ax25_dgram_recv _ _ _ _ _ _ _) as [[?[??]]?].
  - unfold recv, recvfrom. destruct (is_dgram_fd w fd); [|by destruct Hg].
    pose proof (dgram_receive_conv fd n f (None, None) e0 w Hg) as Hd.
    by destruct (ax25_dgram_recv _ _ _ _ _ _ _) as [[?[??]]?].
  - unfold recvfrom. destruct (is_dgram_fd w fd).
    + pose proof (dgram_receive_conv fd n f src e0 w Hg) as Hd.
      by destruct (ax25_dgram_recv _ _ _ _ _ _ _) as [[??]?].
    + destruct (is_ax25_fd w fd); [|by destruct Hg]. eapply val_conv; [by eapply Hrr|done].
  - unfold write. destruct (is_dgram_fd w fd); [by eapply dgram_send_conv|].
    destruct (is_ax25_fd w fd); [by eapply ax25_send_conv|by destruct Hg].
  - unfold send. destruct (is_dgram_fd w fd); [by eapply dgram_send_conv|].
    destruct (is_ax25_fd w fd); [by eapply ax25_send_conv|by destruct Hg].
  - unfold sendto. destruct (is_dgram_fd w fd); [by eapply dgram_send_conv|].
    destruct (is_ax25_fd w fd); [by eapply ax25_send_conv|by destruct Hg].
  - by destruct Hg.
  - by destruct Hg.
  - by eapply close_conv.
Qed.

Lemma call_keeps c w : conns_ok (rhp w) → conns_ok (rhp (snd (do_call creds src_call pad c w))).
Proof.
  intros Hc. assert (good (errno w) w) as Hg by done.
  assert (∃ c', snd (do_call creds src_call pad c' w) = snd (do_call creds src_call pad c w) ∧
    ∀ rr fd n f src, c' = CRecvfrom rr fd n f src → 0 ≤ rr) as (c' & <- & Hrr).
  { destruct c as [| | | | | | | | | | |rr fd n f src| | | | | |]; try by eexists.
    exists (CRecvfrom 0 fd n f src). split; [|by intros ????? [= <- _ _ _ _]].
    cbn [do_call]. unfold recvfrom. destruct (is_dgram_fd w fd); [done|]. by destruct (is_ax25_fd w fd). }
  pose proof (do_call_conv c' (errno w) w Hg Hrr) as Hd. destruct (do_call _ _ _ c' w) as [r w']. apply Hd.
Qed.

Lemma outbound_keeps polled w : conns_ok (rhp w) → conns_ok (rhp (outbound_turn creds polled w)).
Proof.
  intros Hc. unfold outbound_turn. destruct polled as [rev|]; [|done].
  generalize (map_to_list (g_out (sk (rhp w)))) as ps. intros ps.
  assert (good (errno w) w) as Hg by done. run_good (ensure_client creds w) (errno w) Hg.
  destruct Hg as [_ Hc0]. destruct b; [|done]. clear -Hc0. revert w0 Hc0.
  induction ps as [|p ps IH]; intros w0 Hc0; [done|]. simpl. apply IH.
  destruct (negb _); [|done]. simpl. by apply out_flush_ok.
Qed.

Lemma step_keeps_errors w w' : step front_len creds src_call pad w w' → conns_ok (rhp w) → conns_ok (rhp w').
Proof.
  intros (l & _ & ->) Hc. destruct l; simpl; [by apply call_keeps| |done|by apply outbound_keeps|done..].
  by apply (net_step_moves stays_ok).
Qed.

(** C19: in every state the process can reach, whatever the engine has sent and the
    threads have done and whatever errno was before, a call the interposer answers
    itself either returns -1 having stored one of Linux's errors in errno, or
    returns a number that is not negative.  ([recvfrom] on a connected socket
    returns what libc returns: here it succeeds.) *)
Theorem calls_set_errno c e0 k evs ds w :
  rtc (step front_len creds src_call pad) (initial k evs ds) w →
  (∀ rr fd n f src, c = CRecvfrom rr fd n f src → 0 ≤ rr) →
  let '(r, w') := do_call creds src_call pad c (set_errno e0 w) in
  match r with
  | Val n => n = -1 ∧ errno_ok (errno w') ∨ 0 ≤ n
  | Libc | Hang => True
  end.
Proof.
  intros Hr Hrr. assert (conns_ok (rhp w)) as Hc.
  { assert (conns_ok (rhp (initial (K := K) k evs ds))) as H0 by (intros h e Hl; simpl in Hl; by rewrite lookup_empty in Hl).
    revert H0. induction Hr as [w|w w1 w2 Hs _ IH]; [done|]. intros H0. apply IH. by eapply step_keeps_errors. }
  assert (good e0 (set_errno e0 w)) as Hg by done. pose proof (do_call_conv c e0 (set_errno e0 w) Hg Hrr) as Hd.
  destruct (do_call _ _ _ c (set_errno e0 w)) as [r w']. apply Hd.
Qed.
End spec.

(** * Witness: the engine takes the open, and is gone before the link is up. *)
Import Example.
#[local] Existing Instances Pairs.kernel_pairs Pairs.laws_pairs Pairs.fds_pairs Pairs.fds_laws_pairs.

Definition all (b : list Z) : nat := List.length b.
Definition lost_script : list event := [NetFrame (reply 1 7); Wake; NetEnd; Wake].
Definition gb7rdg : list Z := sockaddr_bytes [0; 0; 0] (encode (lit "GB7RDG")) 0.
Abbreviation example_step := (step (K := Pairs.kernel) all None None [0; 0; 0]).

Ltac reach l := match goal with |- rtc _ ?w _ =>
  let w1 := eval vm_compute in (do_step all None None [0; 0; 0] l w) in
  apply (rtc_l _ w w1); [exists l; split; [exact I|vm_cast_no_check (eq_refl w1)]|] end.

Lemma calls_set_errno_witness : ∃ w,
  rtc example_step (initial Pairs.empty [] []) w ∧
  let '(r, w') := do_call None None [0; 0; 0] (CConnect 3 (Some gb7rdg) 16) (set_errno 0 w) in
  r = Val (-1) ∧ errno_ok (errno w').
Proof.
  assert (∃ w, rtc example_step (initial Pairs.empty [] []) w ∧
    fst (do_call None None [0; 0; 0] (CConnect 3 (Some gb7rdg) 16) (set_errno 0 w)) = Val (-1)) as (w & Hr & Hv).
  { eexists. split.
    - reach (LCall (K := Pairs.kernel) (CSocket AF_AX25 SOCK_SEQPACKET)).
      reach (LFuture (K := Pairs.kernel) lost_script [Ok (mkWriter [] None)]). apply rtc_refl.
    - vm_compute. reflexivity. }
  exists w. split; [exact Hr|].
  pose proof (calls_set_errno all None None [0; 0; 0] (CConnect 3 (Some gb7rdg) 16) 0 Pairs.empty [] [] w Hr)
    as H. specialize (H ltac:(intros ????? [=])).
  destruct (do_call _ _ _ _ (set_errno 0 w)) as [r w']. simpl in Hv. subst r. split; [reflexivity|].
  destruct H as [[_ H]|H]; [exact H|lia].
Defined.
