(* ===== verification/TypeSpec.v ===== *)
(** The data the interposer keeps has the types the code declares: in every state
    the process can reach, each entry of the descriptor table and each announced
    connection holds numbers of their width and valid strings, whatever the
    application passed through its pointers and whatever the engine sent. *)
From stdpp Require Import prelude gmap.
From Stdlib Require Import ZArith Lia String.
From S2P Require Import Prelude Str Errors Addr IAddr Framing Messages Client ClientSpec ClientKeeps Sockets.
From S2P Require Import RecvPump DgramPump State Interpose InterposeSpec Process.
Local Open Scope Z_scope.
Local Open Scope act_scope.

Create HintDb typed.

Definition u64_ok (n : Z) : Prop := 0 ≤ n < 2 ^ 64.
Definition u32_ok (n : Z) : Prop := 0 ≤ n < 2 ^ 32.
Definition str_ok (s : str) : Prop := Forall is_scalar s.
(** Of an [Option]. *)
Definition opt {A} (P : A → Prop) (o : option A) : Prop := ∀ a, o = Some a → P a.

(** serde_json's accessors return values of their types. *)
Class SerdeJsonTypes `{!SerdeJson} : Prop := {
  as_u64_ok v n : as_u64 v = Some n → u64_ok n;
  as_str_ok v s : as_str v = Some s → str_ok s }.

Lemma opt_none {A} (P : A → Prop) : opt P None.
Proof. by intros a. Qed.
Lemma opt_some {A} (P : A → Prop) a : P a → opt P (Some a).
Proof. by intros Ha b [= <-]. Qed.
Lemma opt_or_else {A} (P : A → Prop) a b : opt P a → opt P b → opt P (or_else a b).
Proof. by destruct a. Qed.
#[export] Hint Resolve opt_none opt_some opt_or_else : typed.

(** [FdState] under the key [fd]. *)
Record fd_typed (fd : Z) (s : FdState) : Prop := {
  ft_app : app_fd s = fd ∧ 0 ≤ fd;
  ft_inner : 0 ≤ inner_fd s ∧ inner_fd s ≠ fd;
  ft_handle : opt u64_ok (handle s);
  ft_local : opt str_ok (local s);
  ft_remote : opt str_ok (remote s);
  ft_digis : Forall str_ok (digis s) ∧ (List.length (digis s) ≤ AX25_MAX_DIGIS)%nat;
  ft_numbers : Forall (opt u32_ok) [paclen s; window s; t1 s; t2 s; t3 s; n2 s; extseq s] }.

Definition info_ok (i : AcceptInfo) : Prop :=
  u64_ok (child_handle i) ∧ opt str_ok (ai_remote i) ∧ opt str_ok (ai_local i).

(** * What comes in through pointers *)
Lemma u32_range v : u32_ok (u32 v).
Proof. unfold u32_ok, u32. apply Z.mod_pos_bound. lia. Qed.

Lemma decode_ok call : str_ok (decode call).
Proof.
  unfold decode, str_ok. apply Forall_app. split.
  - apply Forall_forall. intros c [_ Hc]%list_elem_of_filter. apply list_elem_of_fmap in Hc as (b & -> & _).
    change 0x7F with (Z.ones 7). rewrite Z.land_ones by lia.
    pose proof (Z.mod_pos_bound (Z.shiftr (u8 b) 1) (2 ^ 7) ltac:(lia)). left. lia.
  - destruct (negb _); [|constructor]. constructor; [by_decide|].
    eapply Forall_impl; [apply u8_to_string_digits|].
    + change 0x0F with (Z.ones 4). rewrite Z.land_ones by lia.
      pose proof (Z.mod_pos_bound (Z.shiftr (u8 (nth 6 call 0)) 1) (2 ^ 4) ltac:(lia)). lia.
    + intros c Hc. unfold is_ascii_digit in Hc. rewrite andb_true_iff, !Z.leb_le in Hc. left. lia.
Qed.

Lemma read_call_ok a n : opt str_ok (read_call a n).
Proof.
  unfold read_call. destruct a as [mem|]; [|apply opt_none]. destruct (decide _); [apply opt_none|].
  apply opt_some, decode_ok.
Qed.

Lemma read_digipeaters_ok a n :
  Forall str_ok (read_digipeaters a n) ∧ (List.length (read_digipeaters a n) ≤ AX25_MAX_DIGIS)%nat.
Proof.
  unfold read_digipeaters. destruct a as [mem|]; [|split; [constructor|simpl; lia]].
  repeat (destruct (decide _); [split; [constructor|simpl; lia]|]). split.
  - apply Forall_forall. intros s [_ Hs]%list_elem_of_filter. apply list_elem_of_fmap in Hs as (i & -> & _).
    apply decode_ok.
  - etrans; [apply length_filter|]. rewrite length_map, length_seq. lia.
Qed.

(** * What the engine sends *)
Section client.
Context `{!SerdeJson, !SerdeJsonTypes} {S : Type} `{!RhpEventSink S}.
Implicit Types st : sys (S := S).

Lemma handle_ok f : opt u64_ok (Messages.handle f).
Proof.
  intros n Hn. unfold Messages.handle in Hn. apply bind_Some in Hn as (v & _ & Hv). by eapply as_u64_ok.
Qed.

Definition accepts_typed st : Prop := ∀ l q, accepts (cl st) !! l = Some q → Forall info_ok q.
Definition stays_typed : relation (sys (S := S)) := λ st st', accepts_typed st → accepts_typed st'.

#[export] Instance stays_typed_rel : SysRel stays_typed.
Proof.
  unfold stays_typed. split.
  - split; [by intros st|]. intros x y z H1 H2 Hx. auto.
  - intros st st' _ Ha _ _ Ht l q. rewrite Ha. apply Ht.
  - intros f st _ Ht l q. destruct (dispatch_push_registries f st) as [_ ->]. unfold accepts_frame.
    destruct (Messages.handle f) as [x|]; [|apply Ht].
    destruct (child f) as [c|] eqn:Hc; [|apply Ht]. destruct (decide _); [|apply Ht].
    unfold AcceptRegistry.push. intros [[<- <-]|[_ Hl]]%lookup_insert_Some; [|by eapply Ht].
    apply Forall_app. split.
    + destruct (accepts (cl st) !! x) as [q|] eqn:Hx; [by eapply Ht|constructor].
    + constructor; [|constructor]. split_and!; simpl.
      * unfold child in Hc. apply bind_Some in Hc as (v & _ & Hv). by eapply as_u64_ok.
      * intros s Hs. unfold Messages.remote in Hs. apply bind_Some in Hs as (v & _ & Hv). by eapply as_str_ok.
      * intros s Hs. unfold Messages.local in Hs. apply bind_Some in Hs as (v & _ & Hv). by eapply as_str_ok.
  - by intros st _ Ht.
Qed.

(** A method that returns values that satisfy [P]. *)
Definition yields {A E} (P : A → Prop) (m : act (sys (S := S)) A E) : Prop := ∀ st a, fst (m st) = Ok a → P a.

Lemma yields_bind {A B E} (P : B → Prop) (m : act sys A E) (k : A → act sys B E) :
  (∀ a, yields P (k a)) → yields P (abind m k).
Proof. intros Hk st b. unfold abind. destruct (m st) as [[a|e] st']; [apply Hk|done]. Qed.

Lemma yields_bind_with {A B E} (Q : A → Prop) (P : B → Prop) (m : act sys A E) (k : A → act sys B E) :
  yields Q m → (∀ a, Q a → yields P (k a)) → yields P (abind m k).
Proof.
  intros Hm Hk st b. unfold abind. specialize (Hm st). destruct (m st) as [[a|e] st']; [|done].
  apply Hk. by apply Hm.
Qed.

Lemma yields_handle f text : yields u64_ok (λ st, (ok_or (Messages.handle f) (missing_handle text), st)).
Proof. intros st h. simpl. pose proof (handle_ok f) as Hf. destruct (Messages.handle f); [|done]. intros [= ->]. by apply Hf. Qed.

Lemma yields_socket : yields u64_ok Client.socket.
Proof. unfold Client.socket, socket_mode. repeat (apply yields_bind; intros ?). apply yields_handle. Qed.
Lemma yields_socket_dgram : yields u64_ok socket_dgram.
Proof. unfold socket_dgram, socket_mode. repeat (apply yields_bind; intros ?). apply yields_handle. Qed.
Lemma yields_open_connect l r v : yields (λ res, u64_ok (or_handle res)) (open_connect l r v).
Proof.
  unfold open_connect. apply yields_bind_with with (λ res, u64_ok (or_handle res)).
  - unfold open. do 4 (apply yields_bind; intros ?). eapply yields_bind_with; [apply yields_handle|].
    by intros h Hh st res [= <-].
  - by intros res Hr st res' [= <-].
Qed.

Lemma accepts_pop l (m m' : AcceptRegistry.t) info : AcceptRegistry.pop l m = Some (info, m') →
  (∀ x q, m !! x = Some q → Forall info_ok q) → info_ok info ∧ ∀ x q, m' !! x = Some q → Forall info_ok q.
Proof.
  unfold AcceptRegistry.pop. destruct (m !! l) as [[|i q]|] eqn:Hl; [done| |done]. intros [= <- <-] Hm.
  specialize (Hm l) as Hml. rewrite Hl in Hml. specialize (Hml _ eq_refl). apply Forall_cons in Hml as [Hi Hq].
  split; [done|]. intros x q' [[<- <-]|[_ Hx]]%lookup_insert_Some; [done|by eapply Hm].
Qed.

Lemma accept_ready_typed l : check_moves stays_typed (accept_ready l).
Proof.
  intros st a c Hc evs Ht. unfold accept_ready in Hc.
  destruct (AcceptRegistry.pop l (accepts (cl st))) as [[info m]|] eqn:Hp.
  - injection Hc as <- <-. exact (proj2 (accepts_pop _ _ _ _ Hp Ht)).
  - destruct (closed (cl st)); [|done]. by injection Hc as <- <-.
Qed.

Lemma wait_accept_typed l timed st : accepts_typed st →
  accepts_typed (snd (wait_accept l timed st)) ∧ ∀ i, fst (wait_accept l timed st) = Some (Some i) → info_ok i.
Proof.
  intros Ht. unfold wait_accept.
  pose proof (wait_moves stays_typed (accept_ready l) (accept_ready l) timed st
    (accept_ready_typed l) (accept_ready_typed l) Ht) as Hw.
  destruct (wait (accept_ready l) (accept_ready l) timed st) as [[r| |] st1] eqn:He; simpl in Hw; [|done..].
  split; [done|]. intros i [= ->].
  destruct (wait_woken stays_typed _ _ _ _ _ _ (accept_ready_typed l) (accept_ready_typed l) He)
    as (st0 & Hst0 & Hr). specialize (Hst0 Ht).
  assert (∀ c', accept_ready l (cl st0) = Some (Some i, c') → info_ok i) as Hi.
  { intros c'. unfold accept_ready. destruct (AcceptRegistry.pop _ _) as [[info m]|] eqn:Hp.
    - intros [= <- _]. exact (proj1 (accepts_pop _ _ _ _ Hp Hst0)).
    - by destruct (closed (cl st0)). }
  destruct Hr as [[c' Hc]|[c' Hc]]; by eapply Hi.
Qed.

Lemma try_accept_typed l st : accepts_typed st →
  accepts_typed (snd (try_accept l st)) ∧ ∀ i, fst (try_accept l st) = Some i → info_ok i.
Proof.
  intros Ht. unfold try_accept. destruct (AcceptRegistry.pop _ _) as [[info m]|] eqn:Hp; [|done].
  destruct (accepts_pop _ _ _ _ Hp Ht) as [Hi Hm]. split; [done|]. by intros i [= <-].
Qed.
End client.

(** * The calls *)
Section spec.
Context `{!SerdeJson, !SerdeJsonTypes} {K : Type} `{!Kernel K, !KernelFds K, !KernelFdsLaws K}.
Variable front_len : list Z → nat.
Variable creds : option (str * str).
Variable src_call : option str.
Variable pad : list Z.
Implicit Types w : world (K := K).

Record typed w : Prop := {
  ty_fds fd s : fds w !! fd = Some s → fd_typed fd s;
  ty_accepts : accepts_typed (rhp w) }.

Lemma rhp_typed st w : stays_typed (rhp w) st → typed w → typed (upd_rhp (λ _, st) w).
Proof. intros Hs [T1 T2]. split; [done|]. by apply Hs. Qed.
Lemma glob_typed f w : typed w → typed (upd_glob f w).
Proof. by intros [T1 T2]. Qed.
Lemma errno_typed e w : typed w → typed (set_errno e w).
Proof. by intros [T1 T2]. Qed.
Lemma failed_typed e w : typed w → typed (snd (failed e w)).
Proof. by intros [T1 T2]. Qed.

Lemma upd_fd_typed fd f w : (∀ s, fds w !! fd = Some s → fd_typed fd s → fd_typed fd (f s)) →
  typed w → typed (upd_fd fd f w).
Proof.
  intros Hf [T1 T2]. split; [|done]. simpl. intros x s Hx.
  apply lookup_alter_Some in Hx as [(-> & s0 & Hs0 & ->)|[_ Hx]]; [|by apply T1].
  apply Hf; [done|]. by apply T1.
Qed.

(** Assignments of values that fit. *)
Lemma set_handle_typed fd h s : opt u64_ok h → fd_typed fd s → fd_typed fd (set_handle h s).
Proof. intros Hh []. by split. Qed.
Lemma set_local_typed fd l s : opt str_ok l → fd_typed fd s → fd_typed fd (set_local l s).
Proof. intros Hh []. by split. Qed.
Lemma set_remote_typed fd r s : opt str_ok r → fd_typed fd s → fd_typed fd (set_remote r s).
Proof. intros Hh []. by split. Qed.
Lemma set_digis_typed fd d s : Forall str_ok d → (List.length d ≤ AX25_MAX_DIGIS)%nat →
  fd_typed fd s → fd_typed fd (set_digis d s).
Proof. intros H1 H2 []. by split. Qed.
Lemma set_listening_typed fd b s : fd_typed fd s → fd_typed fd (set_listening b s).
Proof. intros []. by split. Qed.
Lemma set_option_typed fd o v s : u32_ok v → fd_typed fd s → fd_typed fd (set_option o v s).
Proof.
  intros Hv [H1 H2 H3 H4 H5 H6 H7]. pose proof (opt_some u32_ok v Hv) as Hs.
  rewrite !Forall_cons in H7. destruct H7 as (? & ? & ? & ? & ? & ? & ? & _).
  unfold set_option. repeat (destruct (_ =? _)); split; simpl; try done;
    (repeat (apply Forall_cons_2; [done|])); constructor.
Qed.
Hint Resolve set_handle_typed set_local_typed set_remote_typed set_listening_typed errno_typed
  failed_typed glob_typed : typed.

Lemma ensure_client_typed w : typed w → typed (snd (ensure_client creds w)).
Proof.
  intros [T1 T2]. unfold ensure_client. destruct (cached w && _); [done|].
  destruct (dials w) as [|d r]; [done|]. destruct d as [wr|e]; [|done].
  pose proof (connect_to_moves stays_typed (Ok wr) creds (sk (rhp w)) (net (rhp w))) as Hm.
  destruct (connect_to (Ok wr) creds (sk (rhp w)) (net (rhp w))) as [[[]|e] st]; [|done].
  split; [done|]. apply Hm. intros h x Hl. simpl in Hl. by rewrite lookup_empty in Hl.
Qed.

Definition gentle {A E} (m : act (sys (S := glob (K := K))) A E) : Prop := moves stays_typed m.

Lemma on_client_typed {A E} (m : act (sys (S := glob)) A E) w : gentle m → typed w →
  typed (snd (on_client m w)).
Proof. intros Hm. unfold on_client. specialize (Hm (rhp w)). destruct (m (rhp w)) as [r st]. by apply rhp_typed. Qed.

Lemma on_client_yields {A E} (P : A → Prop) (m : act (sys (S := glob)) A E) w a : yields P m →
  fst (on_client m w) = Ok a → P a.
Proof. intros Hy. unfold on_client. specialize (Hy (rhp w)). destruct (m (rhp w)) as [r st]. apply Hy. Qed.

Lemma gentle_close h : gentle (Client.close h).
Proof.
  apply (close_moves stays_typed). intros st Ht l q Hl. simpl in Hl.
  unfold AcceptRegistry.forget in Hl. apply lookup_delete_Some in Hl as [_ Hl]. by eapply Ht.
Qed.
Lemma gentle_open_connect l r v : gentle (open_connect l r v).
Proof. apply (open_connect_moves stays_typed). by intros h st Ht. Qed.
Lemma gentle_listen_ops loc : gentle (listen_ops loc).
Proof.
  unfold listen_ops. apply moves_bind; [apply _|apply socket_moves, _|intros h].
  apply moves_bind; [apply _|apply bind_moves, _|intros _].
  apply moves_bind; [apply _|apply listen_moves, _|intros _]. apply moves_ret, _.
Qed.
Lemma yields_listen_ops loc : yields u64_ok (listen_ops (K := K) loc).
Proof.
  unfold listen_ops. eapply yields_bind_with; [apply yields_socket|]. intros h Hh.
  do 2 (apply yields_bind; intros _). by intros st a [= <-].
Qed.
Lemma out_flush_typed h (st : sys (S := glob (K := K))) : stays_typed st (out_flush h st).
Proof.
  unfold out_flush, drain_handle. destruct (g_out (sk st) !! h) as [inner|]; [|by intros ?]. unfold drain_locked.
  generalize (S (List.length (unread (g_kern (sk st)) inner))) as fuel. intros fuel. revert st.
  induction fuel as [|fuel IH]; intros st; [by intros ?|]. cbn [out_drain].
  destruct (krecv inner 4096 (g_kern (sk st))) as [[[|c b]|e] k]; [by intros ?| |by intros ?].
  etrans; [|apply IH]. apply (send_moves stays_typed h (c :: b) (upd_sk _ st)).
Qed.
Lemma gentle_send_ordered h d : gentle (send_ordered h d).
Proof.
  intros st. rewrite send_ordered_snd. etrans; [apply (out_flush_typed h)|].
  apply (send_moves stays_typed h d).
Qed.
Hint Resolve ensure_client_typed on_client_typed gentle_close gentle_open_connect gentle_listen_ops
  gentle_send_ordered : typed.
Hint Extern 1 (gentle _) =>
  solve [apply (socket_moves _)|apply (socket_dgram_moves _)|apply (bind_moves _)|apply (sendto_moves _)] : typed.

(** Running a subcall. *)
Ltac run_typed t Ht :=
  let H := fresh in
  assert (typed (snd t)) as H by (eauto with typed);
  destruct t as [? ?] eqn:?; cbn [snd] in H; clear Ht; rename H into Ht.

Lemma create_typed dg w : typed w → typed (snd (create_ax25_fd dg w)) ∧
  ∀ fd, fst (create_ax25_fd dg w) = Some fd → ∃ s, fds (snd (create_ax25_fd dg w)) !! fd = Some s.
Proof.
  intros [T1 T2]. unfold create_ax25_fd.
  destruct (ksocketpair (g_kern (sk (rhp w)))) as [[[a b]|] k] eqn:Hk; [|by split].
  apply ksocketpair_open in Hk as (Ha & Hb & Hab & _). split.
  - split; [|done]. simpl. intros fd s Hs.
    apply lookup_insert_Some in Hs as [[<- <-]|[_ Hs]]; [|by apply T1]. split; simpl.
    + by split.
    + split; [done|congruence].
    + apply opt_none.
    + apply opt_none.
    + apply opt_none.
    + split; [constructor|lia].
    + repeat (apply Forall_cons_2; [apply opt_none|]). constructor.
  - intros fd [= <-]. simpl. rewrite lookup_insert_eq. eauto.
Qed.

Lemma destroy_typed fd w : typed w → typed (destroy_ax25_fd fd w).
Proof.
  intros [T1 T2]. unfold destroy_ax25_fd. destruct (fds w !! fd) as [s|]; [|done].
  assert (∀ x y, delete fd (fds w) !! x = Some y → fd_typed x y) as Hd
    by (intros x y [_ Hx]%lookup_delete_Some; by apply T1).
  by destruct (handle s); split.
Qed.

Lemma store_dgram_typed fd h w : u64_ok h → typed w → typed (snd (store_dgram_handle fd h w)).
Proof.
  intros Hh Ht. unfold store_dgram_handle. destruct (fds w !! fd) as [s|]; [|eauto with typed].
  destruct (handle s) as [h'|]; [eauto with typed|]. cbn [snd]. apply glob_typed, upd_fd_typed; [|done].
  eauto with typed.
Qed.
Hint Resolve store_dgram_typed : typed.

Lemma ensure_dgram_typed fd w : typed w → typed (snd (ensure_dgram_handle creds fd w)).
Proof.
  intros Ht. unfold ensure_dgram_handle. destruct (fds w !! fd) as [s|]; [|done].
  destruct (handle s); [done|]. run_typed (ensure_client creds w) Ht. destruct b; [|done].
  pose proof (on_client_yields u64_ok socket_dgram w0) as Hy. run_typed (on_client socket_dgram w0) Ht.
  destruct r as [h|e]; [|done]. specialize (Hy h yields_socket_dgram eq_refl).
  destruct (local s) as [loc|]; [|eauto with typed].
  run_typed (on_client (Client.bind h loc None) w1) Ht. destruct r; cbn [snd]; eauto with typed.
Qed.
Hint Resolve ensure_dgram_typed : typed.

Lemma bind_typed fd a n w : typed w → typed (snd (bind creds fd a n w)).
Proof.
  intros Ht. unfold bind. destruct (negb _); [done|]. pose proof (read_call_ok a n) as Hr.
  set (w1 := match read_call a n with Some _ => _ | None => _ end).
  assert (typed w1) as Ht1
    by (unfold w1; destruct (read_call a n) as [c|]; [apply upd_fd_typed; eauto with typed|done]).
  clearbody w1. destruct (is_dgram_fd w1 fd); [|done].
  run_typed (ensure_dgram_handle creds fd w1) Ht1. destruct r; [done|]. eauto with typed.
Qed.

Lemma listen_typed fd w : typed w → typed (snd (listen creds fd w)).
Proof.
  intros Ht. unfold listen. destruct (negb _); [done|].
  destruct (fds w !! fd ≫= local) as [loc|]; [|eauto with typed].
  run_typed (ensure_client creds w) Ht. destruct b; [|eauto with typed].
  pose proof (on_client_yields u64_ok (listen_ops loc) w0) as Hy. run_typed (on_client (listen_ops loc) w0) Ht.
  destruct r as [h|e]; [|eauto with typed]. specialize (Hy h (yields_listen_ops loc) eq_refl).
  apply upd_fd_typed; [|done]. eauto with typed.
Qed.

Lemma connect_opened_typed fd h rem dg w : u64_ok h → str_ok rem → Forall str_ok dg →
  (List.length dg ≤ AX25_MAX_DIGIS)%nat → typed w → typed (snd (connect_opened fd h rem dg w)).
Proof.
  intros Hh Hr Hd Hl Ht. unfold connect_opened. destruct (fds w !! fd) as [s|]; [|eauto with typed].
  set (w1 := upd_glob _ (upd_fd fd _ w)). assert (typed w1) as Ht1.
  { apply glob_typed, upd_fd_typed; [|done]. intros s' _ Hs'. apply set_digis_typed; auto with typed. }
  clearbody w1. destruct (is_nonblocking fd w1).
  - apply failed_typed. case_match; auto with typed.
  - pose proof (wait_connected_moves stays_typed h true (rhp w1)) as Hm.
    destruct (wait_connected h true (rhp w1)) as [r st]. simpl in Hm.
    pose proof (rhp_typed st w1 Hm Ht1). destruct r as [[[]|e]|]; cbn [snd]; auto with typed.
Qed.

Lemma connect_typed fd a n w : typed w → typed (snd (connect creds src_call fd a n w)).
Proof.
  intros Ht. unfold connect. destruct (negb _); [done|]. pose proof (read_call_ok a n) as Hr.
  destruct (read_call a n) as [rem|]; [|eauto with typed]. specialize (Hr rem eq_refl).
  destruct (is_dgram_fd w fd).
  - run_typed (ensure_dgram_handle creds fd w) Ht. destruct r; [|eauto with typed].
    apply upd_fd_typed; eauto with typed.
  - run_typed (ensure_client creds w) Ht. destruct b; [|eauto with typed]. set (m := open_connect _ _ _).
    assert (gentle m) as Hm by apply gentle_open_connect.
    pose proof (on_client_yields (λ res, u64_ok (or_handle res)) m w0) as Hy. run_typed (on_client m w0) Ht.
    destruct r as [res|e]; [|eauto with typed]. destruct (read_digipeaters_ok a n) as [Hd Hl].
    apply connect_opened_typed; [|done..]. apply (Hy res); [apply yields_open_connect|done].
Qed.

Lemma accept_child_typed l info out w : opt str_ok l → info_ok info → typed w →
  typed (snd (accept_child pad l info out w)).
Proof.
  intros Hl (Hi1 & Hi2 & Hi3) Ht. unfold accept_child. pose proof (create_typed false w Ht) as [Hc _].
  destruct (create_ax25_fd false w) as [[c|] w1]; cbn [snd] in *; [|by apply errno_typed].
  do 2 apply glob_typed. apply upd_fd_typed; [|done]. eauto 6 with typed.
Qed.

Lemma accept_typed fd out w : typed w → typed (snd (accept creds pad fd out w)).
Proof.
  intros Ht. unfold accept. destruct (fds w !! fd) as [s|] eqn:Hs; [|done].
  pose proof (ft_local _ _ (ty_fds w Ht fd s Hs)) as Hloc.
  destruct (handle s) as [l|]; [|by apply errno_typed]. run_typed (ensure_client creds w) Ht.
  destruct b; [|by apply errno_typed]. destruct (is_nonblocking fd w0).
  - destruct (try_accept_typed l (rhp w0) (ty_accepts _ Ht)) as [H1 H2].
    destruct (try_accept l (rhp w0)) as [o st]. cbn [fst snd] in *.
    assert (typed (upd_rhp (λ _, st) w0)) as Ht' by (by destruct Ht).
    destruct o as [info|]; [apply accept_child_typed; auto|by apply errno_typed].
  - destruct (wait_accept_typed l false (rhp w0) (ty_accepts _ Ht)) as [H1 H2].
    destruct (wait_accept l false (rhp w0)) as [o st]. cbn [fst snd] in *.
    assert (typed (upd_rhp (λ _, st) w0)) as Ht' by (by destruct Ht).
    destruct o as [[info|]|]; [apply accept_child_typed; auto|by apply errno_typed|done].
Qed.

Lemma setsockopt_typed fd l o v n w : typed w → typed (snd (setsockopt fd l o v n w)).
Proof.
  intros Ht. unfold setsockopt. destruct (is_ax25_fd w fd); [|done].
  destruct v; [destruct (_ && _)|]; try done. apply upd_fd_typed; [|done].
  intros s _. apply set_option_typed, u32_range.
Qed.

Lemma getsockopt_typed fd l o out w : typed w → typed (snd (getsockopt creds fd l o out w)).
Proof.
  intros Ht. unfold getsockopt. destruct (is_ax25_fd w fd); [|done].
  destruct (_ && _); [|destruct (l =? SOL_AX25); [|done]].
  - destruct out as [[mem|] [len|]]; try by apply errno_typed. destruct (len <? 4); [by apply errno_typed|].
    destruct (fds w !! fd ≫= handle) as [h|]; [|done].
    run_typed (ensure_client creds w) Ht. destruct b; [|done]. unfold take_connect_error.
    destruct (ConnRegistry.take_error h _) as [e m]. by destruct Ht.
  - destruct out as [[mem|] [len|]]; try done. by destruct (4 <=? len).
Qed.

Lemma dgram_send_typed fd d a n w : typed w → typed (snd (ax25_dgram_send creds src_call fd d a n w)).
Proof.
  intros Ht. unfold ax25_dgram_send. run_typed (ensure_dgram_handle creds fd w) Ht.
  destruct r; [|eauto with typed]. destruct (fds w0 !! fd) as [s|]; [|eauto with typed].
  destruct (match a with Some _ => _ | None => _ end) as [rem|e]; [|eauto with typed].
  case_bool_decide; [eauto with typed|]. run_typed (ensure_client creds w0) Ht.
  destruct b; [|eauto with typed]. set (m := Client.sendto _ _ _ _).
  assert (gentle m) as Hm by apply (sendto_moves _). run_typed (on_client m w1) Ht.
  destruct r; [done|eauto with typed].
Qed.

Lemma dgram_recv_loop_typed fuel h pid nb len src w : typed w →
  typed (snd (dgram_recv_loop pad fuel h pid nb len src w)).
Proof.
  revert w. induction fuel as [|fuel IH]; intros w Ht; [done|]. cbn [dgram_recv_loop].
  destruct (recv_one h _ _) as [[o st] k]. set (w1 := upd_glob _ w).
  assert (typed w1) as Ht1 by by apply glob_typed. clearbody w1.
  destruct o; [done| |done|by apply errno_typed]. destruct nb; [by apply errno_typed|].
  destruct (net (rhp w1)); [done|]. apply IH. apply (rhp_typed (elapse (rhp w1))); [|done].
  apply (elapse_moves stays_typed).
Qed.

Lemma dgram_recv_typed fd len fl src w : typed w → typed (snd (ax25_dgram_recv creds pad fd len fl src w)).
Proof.
  intros Ht. unfold ax25_dgram_recv. run_typed (ensure_dgram_handle creds fd w) Ht.
  destruct r; [by apply dgram_recv_loop_typed|by apply errno_typed].
Qed.

Lemma ax25_send_typed fd d w : typed w → typed (snd (ax25_send creds fd d w)).
Proof.
  intros Ht. unfold ax25_send. destruct (fds w !! fd ≫= handle) as [h|]; [|eauto with typed].
  run_typed (ensure_client creds w) Ht. destruct b; [|eauto with typed].
  run_typed (on_client (send_ordered h d) w0) Ht. destruct r as [[e|]|e]; [by apply errno_typed|done|eauto with typed].
Qed.

Lemma close_typed fd w : typed w → typed (snd (close creds fd w)).
Proof.
  intros Ht. unfold close. destruct (is_ax25_fd w fd); [|done]. apply destroy_typed.
  destruct (fds w !! fd ≫= handle) as [h|]; [|done]. run_typed (ensure_client creds w) Ht.
  destruct b; eauto with typed.
Qed.

Lemma recvfrom_typed rr fd n fl src w : typed w → typed (snd (recvfrom creds pad rr fd n fl src w)).
Proof.
  intros Ht. unfold recvfrom. destruct (is_dgram_fd w fd); [by apply dgram_recv_typed|].
  by destruct (is_ax25_fd w fd).
Qed.

Lemma do_call_typed c w : typed w → typed (snd (do_call creds src_call pad c w)).
Proof.
  intros Ht. destruct c as [d t|fd a n|fd|fd a n|fd out|fd out|fd out|fd l o v n|fd l o out|fd n
    |fd n f|rr fd n f src|fd d|fd d f|fd d f a n|? ? ? ? ?|? ? ?|fd]; cbn [do_call]; try done.
  - unfold socket. destruct (_ && _); [|done]. pose proof (create_typed (Z.land t (Z.lnot (Z.lor SOCK_CLOEXEC SOCK_NONBLOCK)) =? SOCK_DGRAM) w Ht) as [Hc _].
    destruct (create_ax25_fd _ w) as [[fd|] w']; simpl in Hc; [done|by apply failed_typed].
  - by apply bind_typed.
  - by apply listen_typed.
  - by apply connect_typed.
  - pose proof (accept_typed fd out w Ht). by destruct (accept _ _ _ _ _) as [[??]?].
  - by apply setsockopt_typed.
  - pose proof (getsockopt_typed fd l o out w Ht). by destruct (getsockopt _ _ _ _ _ _) as [[??]?].
  - unfold read. destruct (is_dgram_fd w fd); [|done]. pose proof (dgram_recv_typed fd n 0 (None, None) w Ht).
    by destruct (ax25_dgram_recv _ _ _ _ _ _ _) as [[?[??]]?].
  - unfold recv. destruct (is_dgram_fd w fd); [|done]. pose proof (recvfrom_typed 0 fd n f (None, None) w Ht).
    by destruct (recvfrom _ _ _ _ _ _ _ _) as [[?[??]]?].
  - pose proof (recvfrom_typed rr fd n f src w Ht). by destruct (recvfrom _ _ _ _ _ _ _ _) as [[??]?].
  - unfold write. destruct (is_dgram_fd w fd); [by apply dgram_send_typed|].
    destruct (is_ax25_fd w fd); [by apply ax25_send_typed|done].
  - unfold send. destruct (is_dgram_fd w fd); [by apply dgram_send_typed|].
    destruct (is_ax25_fd w fd); [by apply ax25_send_typed|done].
  - unfold sendto. destruct (is_dgram_fd w fd); [by apply dgram_send_typed|].
    destruct (is_ax25_fd w fd); [by apply ax25_send_typed|done].
  - by apply close_typed.
Qed.

Lemma outbound_typed polled w : typed w → typed (outbound_turn creds polled w).
Proof.
  intros Ht. unfold outbound_turn. destruct polled as [rev|]; [|done].
  generalize (map_to_list (g_out (sk (rhp w)))) as ps. intros ps.
  run_typed (ensure_client creds w) Ht. destruct b; [|done].
  match goal with H : ensure_client _ _ = _ |- _ => clear H end. revert w0 Ht.
  induction ps as [|p ps IH]; intros w0 Ht; [done|]. simpl. apply IH.
  destruct (negb _); [|done]. apply (rhp_typed (out_flush (fst p) (rhp w0))); [apply out_flush_typed|done].
Qed.

Lemma step_typed w w' : step front_len creds src_call pad w w' → typed w → typed w'.
Proof.
  intros (l & _ & ->) Ht. destruct l; simpl.
  - by apply do_call_typed.
  - apply (rhp_typed (net_step ev (rhp w))); [apply (net_step_moves stays_typed)|done].
  - by apply glob_typed.
  - by apply outbound_typed.
  - by apply glob_typed.
  - by destruct Ht.
Qed.

(** C20: in every state the process can reach, every entry of the descriptor table
    has its key for its application's descriptor, another descriptor, not negative,
    for its inner end, an RHP handle that is a u64, valid strings for its
    callsigns, at most eight digipeaters, and socket options that are u32s;
    and so has every connection announced and not yet accepted. *)
Theorem tables_typed k evs ds w :
  rtc (step front_len creds src_call pad) (initial k evs ds) w →
  (∀ fd s, fds w !! fd = Some s → fd_typed fd s) ∧
  (∀ l q, accepts (cl (rhp w)) !! l = Some q → Forall info_ok q).
Proof.
  intros Hr. assert (typed (initial (K := K) k evs ds)) as Hinit
    by (split; intros x y Hx; simpl in Hx; by rewrite lookup_empty in Hx).
  assert (typed w) as [T1 T2]; [|done].
  revert Hinit. induction Hr as [w|w w1 w2 Hs _ IH]; [done|]. intros Hinit. apply IH. by eapply step_typed.
Qed.
End spec.

(** * Witness: a parser whose accessors are typed, and a socket that connects. *)
#[local] Existing Instances Pairs.kernel_pairs Pairs.laws_pairs Pairs.fds_pairs Pairs.fds_laws_pairs.

#[local] Instance typed_serde : SerdeJson := {|
  Value := Tagged.value;
  get v k := match v with Tagged.VObj fs => Tagged.VField <$> assoc k fs | _ => None end;
  as_str v := match v with Tagged.VField (JStr s) => if decide (Forall is_scalar s) then Some s else None | _ => None end;
  as_u64 v := match v with Tagged.VField (JNum n) => if decide (0 ≤ n < 2 ^ 64) then Some n else None | _ => None end;
  as_i64 v := match v with Tagged.VField (JNum n) => if decide (0 ≤ n < 2 ^ 63) then Some n else None | _ => None end;
  from_slice b := Tagged.VObj <$> Tagged.dec (List.length b) b;
  to_vec fs := Some (Tagged.enc fs) |}.
#[local] Instance typed_serde_types : SerdeJsonTypes.
Proof. split; intros [|[]] x; simpl; try done; case_decide; by intros [= <-]. Qed.

Definition every (b : list Z) : nat := List.length b.
Definition up_script : list event :=
  [NetFrame (Example.reply 1 7); Wake; NetFrame (Example.push (lit "status") 7); Wake].
Definition to_gb7rdg : call :=
  CConnect 3 (Some (sockaddr_bytes [0; 0; 0] (encode (lit "GB7RDG")) 0)) 16.

Ltac onward l := match goal with |- rtc _ ?w _ =>
  let w1 := eval vm_compute in (do_step every None None [0; 0; 0] l w) in
  apply (rtc_l _ w w1); [exists l; split; [exact I|vm_cast_no_check (eq_refl w1)]|] end.

Lemma tables_typed_witness : ∃ (w : world (K := Pairs.kernel)) s,
  rtc (step every None None [0; 0; 0]) (initial Pairs.empty [] []) w ∧
  fds w !! 3 = Some s ∧ handle s = Some 7 ∧ fd_typed 3 s.
Proof.
  assert (∃ (w : world (K := Pairs.kernel)) s, rtc (step every None None [0; 0; 0]) (initial Pairs.empty [] []) w ∧
    fds w !! 3 = Some s ∧ handle s = Some 7) as (w & s & Hr & Hs & Hh).
  { do 2 eexists. split.
    - onward (LCall (K := Pairs.kernel) (CSocket AF_AX25 SOCK_SEQPACKET)).
      onward (LFuture (K := Pairs.kernel) up_script [Ok (mkWriter [] None)]).
      onward (LCall (K := Pairs.kernel) to_gb7rdg). apply rtc_refl.
    - split; vm_compute; reflexivity. }
  destruct (tables_typed every None None [0; 0; 0] Pairs.empty [] [] w Hr) as [Ht _].
  exists w, s. split; [exact Hr|]. split; [exact Hs|]. split; [exact Hh|]. exact (Ht 3 s Hs).
Defined.
