(* ===== verification/ConnectSpec.v ===== *)
(** A connect from the call to its outcome: the gate of a non-blocking connect is
    closed exactly while the link is undecided, and SO_ERROR then reads the
    outcome; and what happens to both when the transport is lost, or when a
    descriptor is connected again. *)
From stdpp Require Import prelude gmap.
From Stdlib Require Import ZArith Lia String.
From S2P Require Import Prelude Str Errors Addr IAddr Framing Messages Client ClientSpec ClientKeeps Sockets.
From S2P Require Import RecvPump RecvSpec DgramPump State Interpose InterposeSpec.
Local Open Scope Z_scope.

Section spec.
Context `{!SerdeJson} {K : Type} `{!Kernel K}.
Variable creds : option (str * str).
Implicit Types (w : world (K := K)) (st : sys (S := glob (K := K))).

Definition gate st (h : Z) : option Z := g_gates (sk st) !! h.

(** * The gates and the reader *)
Lemma resolve_gate h h' (g : glob (K := K)) :
  g_gates (resolve_connect_gate h g) !! h' = if decide (h' = h) then None else g_gates g !! h'.
Proof.
  unfold resolve_connect_gate. destruct (g_gates g !! h) as [inner|] eqn:Hg.
  - simpl. case_decide; [subst; apply lookup_delete_eq|by apply lookup_delete_ne].
  - by case_decide; subst.
Qed.

Lemma resolve_all hs (g : glob (K := K)) h :
  g_gates (foldr resolve_connect_gate g hs) !! h = if decide (h ∈ hs) then None else g_gates g !! h.
Proof.
  induction hs as [|h' hs IH]; [done|]. simpl. rewrite resolve_gate, IH.
  destruct (decide (h = h')) as [->|Hne].
  - rewrite decide_True; [done|by left].
  - destruct (decide (h ∈ hs)); [rewrite decide_True; [done|by right]|].
    rewrite decide_False; [done|]. intros Hin%elem_of_cons. tauto.
Qed.

(** The frames that release a gate. *)
Definition decides (h : Z) (f : Frame) : Prop :=
  Messages.handle f = Some h ∧
  (typ f = lit "status" ∧ Z.land (status_flags f) STATUS_CONNECTED ≠ 0 ∨ typ f = lit "close").
#[local] Instance decides_dec h f : Decision (decides h f).
Proof. unfold decides. apply _. Defined.

Lemma dispatch_push_gate f st h :
  gate (dispatch_push f st) h = if decide (decides h f) then None else gate st h.
Proof.
  unfold gate, dispatch_push.
  destruct (Messages.handle f) as [x|] eqn:Hh.
  2:{ rewrite (decide_False (P := decides h f)) by (intros [? _]; congruence). by repeat case_decide. }
  destruct (decide (typ f = lit "recv")) as [Ht|Ht].
  { rewrite (decide_False (P := decides h f)) by (unfold decides; rewrite Ht; intros (_ & [[? _]|?]); done).
    destruct (is_dgram_recv f); simpl; [by destruct (dgram_push _ _ _ _)|by destruct (push _ _ _ _)]. }
  destruct (decide (typ f = lit "accept")) as [Ha|Ha].
  { rewrite (decide_False (P := decides h f)) by (unfold decides; rewrite Ha; intros (_ & [[? _]|?]); done).
    by destruct (child f). }
  destruct (decide (typ f = lit "status")) as [Hs|Hs]; [|destruct (decide (typ f = lit "close")) as [Hc|Hc]].
  - destruct (Z.eqb_spec (Z.land (status_flags f) STATUS_CONNECTED) 0) as [Hf|Hf]; simpl.
    + rewrite Hf. simpl. rewrite decide_False; [done|]. unfold decides. rewrite Hs. by intros (_ & [[_ ?]|?]).
    + rewrite (proj2 (Z.eqb_neq _ _) Hf). simpl. rewrite resolve_gate. apply decide_ext.
      unfold decides. rewrite Hh. split; [intros ->; auto|by intros [[= ->] _]].
  - simpl. rewrite resolve_gate. apply decide_ext.
    unfold decides. rewrite Hh. split; [intros ->; auto|by intros [[= ->] _]].
  - rewrite decide_False; [done|]. intros (_ & [[? _]|?]); congruence.
Qed.

(** A gate of a handle that is being followed is closed while it is pending. *)
Definition gate_follows (inner : Z) (p : option ConnPhase) : option Z :=
  if decide (p = Some Pending) then Some inner else None.

Lemma link_frame_gate h inner p b :
  gate_follows inner (link_frame h p b) =
  match parse b with
  | Some f => if decide (decides h f) then None else gate_follows inner p
  | None => gate_follows inner p
  end.
Proof.
  unfold link_frame, gate_follows. destruct (parse b) as [f|]; [|done].
  destruct (decide (Messages.handle f = Some h)) as [Hh|Hh];
    [|by rewrite (decide_False (P := decides h f)) by (intros [? _]; done)].
  destruct (decide (typ f = lit "status" ∧ Z.land (status_flags f) STATUS_CONNECTED ≠ 0)) as [Hs|Hs].
  { rewrite (decide_True (P := decides h f)) by (split; [done|by left]). by rewrite decide_False. }
  destruct (decide (typ f = lit "close" ∧ p = Some Pending)) as [[Hc Hp]|Hc].
  - rewrite (decide_True (P := decides h f)) by (split; [done|by right]). by rewrite decide_False.
  - destruct (decide (p = Some Pending)) as [Hp|Hp]; [|by repeat case_decide].
    rewrite decide_False; [done|]. intros (_ & [?|?]); tauto.
Qed.

(** * The whole of the link's life *)

(** Over any events of a reader that runs: the registry follows the link, and
    the gate is closed while the registry says pending. *)
Lemma net_steps_gate h inner evs st : pending (cl st) = ∅ → closed (cl st) = false →
  gate st h = gate_follows inner (conns (cl st) !! h) →
  gate (net_steps evs st) h = gate_follows inner (link_phase h (conns (cl st) !! h) evs).
Proof.
  revert st. induction evs as [|ev evs IH]; intros st Hp Hc Hg; [done|].
  change (net_steps (ev :: evs) st) with (net_steps evs (net_step ev st)).
  pose proof (net_step_idle ev st Hp) as Hp'. destruct ev as [b| | |]; simpl link_phase.
  - assert (net_step (NetFrame b) st = push_frame st b) as Heq.
    { unfold net_step. rewrite Hc. apply handle_frame_push. intros. by rewrite Hp, lookup_empty. }
    rewrite Heq in *. rewrite <- (push_frame_phase h b st). apply IH; [done| |].
    + destruct (pushes_keeps [b] st) as (_ & _ & Hc' & _). simpl in Hc'. by rewrite Hc'.
    + rewrite push_frame_phase, link_frame_gate. unfold push_frame.
      destruct (parse b) as [f|]; [|done]. by rewrite dispatch_push_gate, Hg.
  - assert (net_step NetEnd st = disconnect st) as -> by (unfold net_step; by rewrite Hc).
    assert (∀ evs' st', closed (cl st') = true → net_steps evs' st' = st') as Hend.
    { intros evs'. induction evs' as [|ev evs' IH']; intros st' Hc'; [done|].
      change (net_steps (ev :: evs') st') with (net_steps evs' (net_step ev st')).
      unfold net_step. rewrite Hc'. by apply IH'. }
    rewrite Hend by done. unfold gate, disconnect. cbn [sk upd_sk on_disconnect InterposeSink].
    destruct (dgram_shutdown_all _ _) as [ds k]. cbn [upd_kern upd_dgram g_gates]. 
    change (g_gates (upd_recv shutdown_all ?g)) with (g_gates g). rewrite resolve_all.
    cbn [sk upd_cl]. unfold gate in Hg. unfold gate_follows.
    rewrite (decide_False (P := (if decide _ then _ else _) = _)) by (by case_decide).
    case_decide as Hin; [done|]. rewrite Hg. unfold gate_follows. case_decide as Hpe; [|done]. exfalso.
    apply Hin. unfold gate_follows in Hg. rewrite decide_True in Hg by done.
    apply list_elem_of_fmap. exists (h, inner). split; [done|]. by apply elem_of_map_to_list.
  - assert (net_step Wake st = st) as -> by (unfold net_step; by rewrite Hc). by apply IH.
  - assert (net_step Expire st = st) as -> by (unfold net_step; by rewrite Hc). by apply IH.
Qed.

(** * A non-blocking connect *)
Definition link_errno (p : option ConnPhase) : Z := match p with Some (Failed e) => e | _ => 0 end.

(** SO_ERROR with a client that is connected. *)
Lemma so_error_open fd s h mem len w : fds w !! fd = Some s → handle s = Some h →
  cached w = true → closed (cl (rhp w)) = false → 4 ≤ len →
  getsockopt creds fd SOL_SOCKET SO_ERROR (Some mem, Some len) w =
    (Val 0, put_int (link_errno (conns (cl (rhp w)) !! h)) mem,
     upd_rhp (upd_cl (upd_conns (λ _, snd (ConnRegistry.take_error h (conns (cl (rhp w))))))) w).
Proof.
  intros Hs Hh Hca Hcl Hlen. unfold getsockopt, is_ax25_fd. rewrite Hs, bool_decide_true by done.
  cbn [Z.eqb SOL_SOCKET SO_ERROR andb]. simpl. destruct (Z.ltb_spec len 4); [lia|]. rewrite Hh.
  unfold ensure_client, is_closed. rewrite Hca, Hcl. cbn [andb negb]. unfold take_connect_error.
  unfold ConnRegistry.take_error. by destruct (conns (cl (rhp w)) !! h) as [[]|].
Qed.

Lemma take_error_clears h (m : ConnRegistry.t) :
  link_errno (snd (ConnRegistry.take_error h m) !! h) = 0.
Proof.
  unfold ConnRegistry.take_error. destruct (m !! h) as [p|] eqn:Hm; simpl; [|by rewrite Hm].
  destruct p as [| |e]; simpl; [by rewrite Hm..|].
  destruct (Z.eqb_spec e 0) as [->|]; simpl; [by rewrite Hm|by rewrite lookup_insert_eq].
Qed.

(** The state a non-blocking connect leaves once its open was accepted. *)
Lemma connect_opened_gated fd s h rem dg p w : fds w !! fd = Some s → is_nonblocking fd w = true →
  conns (cl (rhp w)) !! h = Some p →
  ∃ w1, connect_opened fd h rem dg w = (Val (-1), w1) ∧ errno w1 = EINPROGRESS ∧
    cl (rhp w1) = cl (rhp w) ∧ cached w1 = cached w ∧ gate (rhp w1) h = gate_follows (inner_fd s) (Some p) ∧
    ∃ s1, fds w1 !! fd = Some s1 ∧ handle s1 = Some h.
Proof.
  intros Hs Hnb Hp. unfold connect_opened. rewrite Hs.
  match goal with |- context [is_nonblocking fd ?x] =>
    change (is_nonblocking fd x) with (is_nonblocking fd w) end.
  rewrite Hnb. unfold connect_result, ConnRegistry.result. cbn [upd_glob upd_rhp upd_sk rhp cl].
  cbn [upd_fd upd_fds rhp cl]. rewrite Hp. unfold failed.
  eexists. split; [reflexivity|]. split; [done|].
  assert (∃ s1, alter (λ s, set_digis dg (set_remote (Some rem) (set_handle (Some h) s))) fd (fds w) !! fd
    = Some s1 ∧ handle s1 = Some h) as (s1 & Hs1 & Hh1).
  { rewrite lookup_alter_eq, Hs. by eexists. }
  unfold gate, gate_follows. destruct p; simpl;
    (split; [done|]; split; [done|]; split; [|by exists s1]); rewrite ?lookup_insert_eq; [done|..];
    rewrite resolve_gate; by rewrite decide_True.
Qed.

(** C18: a non-blocking connect whose open was accepted, the client having no other
    request in flight and its transport being up, returns EINPROGRESS, and from
    then on, whatever the reader handles, the end of the transport too, the
    descriptor's gate is closed exactly while the link is undecided.  As long as
    that client is the cached one and its transport is still up, SO_ERROR reads the
    outcome, the errno of the close or 0, and 0 from then on; what it reads once the
    transport is lost is [so_error_after_disconnect]'s. *)
Theorem nonblocking_connect fd s h rem dg p evs mem len w :
  fds w !! fd = Some s → is_nonblocking fd w = true → pending (cl (rhp w)) = ∅ →
  closed (cl (rhp w)) = false → conns (cl (rhp w)) !! h = Some p → 4 ≤ len →
  let '(r, w1) := connect_opened fd h rem dg w in
  let phase := link_phase h (Some p) evs in
  let w2 := upd_rhp (net_steps evs) w1 in
  r = Val (-1) ∧ errno w1 = EINPROGRESS ∧
  gate (rhp w2) h = (if decide (phase = Some Pending) then Some (inner_fd s) else None) ∧
  (cached w = true → closed (cl (rhp w2)) = false → ∃ w3,
     getsockopt creds fd SOL_SOCKET SO_ERROR (Some mem, Some len) w2 =
       (Val 0, put_int (link_errno phase) mem, w3) ∧
     (getsockopt creds fd SOL_SOCKET SO_ERROR (Some mem, Some len) w3).1 = (Val 0, put_int 0 mem)).
Proof.
  intros Hs Hnb Hpe Hcl Hp Hlen.
  destruct (connect_opened_gated fd s h rem dg p w Hs Hnb Hp) as (w1 & -> & He & Hc1 & Hca1 & Hg & s1 & Hs1 & Hh1).
  intros phase w2. split_and!; [done|done| |].
  - change (rhp w2) with (net_steps evs (rhp w1)). rewrite (net_steps_gate h (inner_fd s));
      rewrite ?Hc1; rewrite ?Hp; done.
  - intros Hca Hcl2.
    assert (conns (cl (rhp w2)) !! h = phase) as Hph.
    { change (rhp w2) with (net_steps evs (rhp w1)). rewrite net_steps_phase by (by rewrite Hc1).
      by rewrite Hc1, Hcl, Hp. }
    assert (cached w2 = true) as Hca2 by (change (cached w1 = true); congruence).
    eexists. split; [by rewrite (so_error_open fd s1 h), Hph by done|].
    rewrite (so_error_open fd s1 h) by done. cbn [upd_rhp upd_cl upd_conns rhp cl conns].
    by rewrite take_error_clears.
Qed.

(** * When the transport is lost *)

(** Only a handle that was armed can fail. *)
Definition unarmed st : Prop := ∀ h p, conns (cl st) !! h = Some p → p = Connected.
Definition stays_unarmed : relation (sys (S := glob (K := K))) := λ st st', unarmed st → unarmed st'.

#[local] Instance stays_unarmed_rel : SysRel stays_unarmed.
Proof.
  unfold stays_unarmed. split.
  - split; [by intros st|]. intros x y z H1 H2 Hx. auto.
  - intros st st' Hc _ _ _ Hu h p. rewrite Hc. apply Hu.
  - intros f st _ Hu h p. destruct (dispatch_push_registries f st) as [-> _]. unfold conns_frame.
    destruct (Messages.handle f) as [x|]; [|apply Hu]. case_decide.
    + case_match; [apply Hu|]. unfold ConnRegistry.mark_connected. intros [[_ <-]|[_ Hl]]%lookup_insert_Some; [done|by eapply Hu].
    + case_decide; [|apply Hu]. unfold ConnRegistry.mark_failed.
      destruct (conns (cl st) !! x) as [[]|] eqn:Hx; try apply Hu. by apply Hu in Hx.
  - intros st _ Hu h p Hl. simpl in Hl. apply lookup_fmap_Some in Hl as (q & <- & Hq).
    by rewrite (Hu _ _ Hq).
Qed.

Lemma take_error_unarmed h st : unarmed st → fst (take_connect_error h st) = 0.
Proof.
  intros Hu. unfold take_connect_error, ConnRegistry.take_error.
  destruct (conns (cl st) !! h) as [p|] eqn:Hp; [|done]. by rewrite (Hu _ _ Hp).
Qed.

(** Once the transport is lost SO_ERROR is 0 for every descriptor, whatever
    became of its connect: the call makes a new client, whose registry is empty,
    or cannot, and reports success either way. *)
Theorem so_error_after_disconnect fd s mem len w :
  fds w !! fd = Some s → closed (cl (rhp w)) = true → 4 ≤ len →
  (getsockopt creds fd SOL_SOCKET SO_ERROR (Some mem, Some len) w).1 = (Val 0, put_int 0 mem).
Proof.
  intros Hs Hcl Hlen. unfold getsockopt, is_ax25_fd. rewrite Hs, bool_decide_true by done.
  cbn [Z.eqb SOL_SOCKET SO_ERROR andb]. simpl. destruct (Z.ltb_spec len 4); [lia|].
  destruct (handle s) as [h|]; [|done].
  unfold ensure_client, is_closed. rewrite Hcl, andb_false_r.
  destruct (dials w) as [|d r]; [done|]. destruct d as [wr|e]; [|done].
  pose proof (connect_to_moves stays_unarmed (Ok wr) creds (sk (rhp w)) (net (rhp w))) as Hm.
  destruct (connect_to (Ok wr) creds (sk (rhp w)) (net (rhp w))) as [[[]|e] st]; [|done].
  assert (unarmed st) as Hu. { apply Hm. intros x p Hl. simpl in Hl. by rewrite lookup_empty in Hl. }
  pose proof (take_error_unarmed h st Hu) as Hte. simpl.
  destruct (take_connect_error h st) as [x st']. simpl in Hte. by subst.
Qed.

Lemma net_steps_closed evs st : closed (cl st) = true → net_steps evs st = st.
Proof.
  induction evs as [|ev evs IH]; intros Hc; [done|].
  change (net_steps (ev :: evs) st) with (net_steps evs (net_step ev st)).
  unfold net_step. rewrite Hc. by apply IH.
Qed.

(** When the transport is lost before the connect has armed its handle, the
    gate is closed all the same and nothing the reader does ever opens it: the
    application waits for its descriptor to be writable for ever. *)
Theorem connect_gate_stuck fd s h rem dg evs w :
  fds w !! fd = Some s → is_nonblocking fd w = true → closed (cl (rhp w)) = true →
  conns (cl (rhp w)) !! h = Some Pending →
  let '(r, w1) := connect_opened fd h rem dg w in
  r = Val (-1) ∧ errno w1 = EINPROGRESS ∧ gate (net_steps evs (rhp w1)) h = Some (inner_fd s).
Proof.
  intros Hs Hnb Hcl Hp.
  destruct (connect_opened_gated fd s h rem dg Pending w Hs Hnb Hp) as (w1 & -> & He & Hc1 & _ & Hg & _).
  split_and!; [done|done|]. rewrite net_steps_closed by congruence. exact Hg.
Qed.
End spec.

(** * A descriptor connected again *)
Section again.
Context {K : Type} `{!Kernel K, !KernelLaws K} (front_len : list Z → nat).
Hypothesis front_len_ok : ∀ b, b ≠ [] → (1 ≤ front_len b ≤ List.length b)%nat.
Implicit Types k : K.

(** Nothing takes a shut direction back. *)
Lemma drain_entry_shut e k fd : shut k fd = true → shut (snd (drain_entry front_len e k)) fd = true.
Proof.
  intros Hs. pose proof (drain_entry_fd front_len front_len_ok e k) as Hd.
  destruct (drain_entry front_len e k) as [[r b] k'] eqn:He. destruct (Hd r b k' eq_refl) as [[Ho _] _].
  simpl. destruct (decide (fd = RecvPump.inner_fd e)) as [->|Hne]; [|by destruct (Ho fd Hne) as [_ ->]].
  unfold drain_entry in He.
  destruct (drain_buf front_len (List.length (buf e)) (RecvPump.inner_fd e) (buf e) k) as [[dead b'] k1] eqn:Hdb.
  destruct (drain_buf_spec front_len front_len_ok _ _ _ _ _ _ _ (Nat.le_refl _) Hdb) as (_ & Hsh & _).
  rewrite Hs in Hsh. destruct dead; [by simplify_eq|]. destruct b'; [|by simplify_eq].
  destruct (_ && _); simplify_eq; [|done]. by destruct (kshutdown_ok (RecvPump.inner_fd e) k1) as (-> & _).
Qed.

Lemma drain_entries_shut es hs k fd :
  shut k fd = true ∨ (∃ h, (h, mkPendingRecv fd [] true false) ∈ es) →
  shut (snd (drain_entries front_len es hs k)) fd = true.
Proof.
  revert hs k. induction es as [|[h e] es IH]; intros hs k Hs.
  { destruct Hs as [Hs|[h Hin]]; [done|]. by apply elem_of_nil in Hin. }
  cbn [drain_entries].
  assert (shut (snd (drain_entry front_len e k)) fd = true ∨ (∃ h, (h, mkPendingRecv fd [] true false) ∈ es)) as Hs'.
  { destruct Hs as [Hs|[h' [[= -> <-]|Hin]%elem_of_cons]].
    - left. by apply drain_entry_shut.
    - left. unfold drain_entry. simpl. by destruct (kshutdown_ok fd k) as (-> & _).
    - right. by exists h'. }
  destruct (drain_entry front_len e k) as [[r b] k1]. simpl in Hs'.
  specialize (IH (match r with Some e => <[h := e]> hs | None => delete h hs end) k1 Hs').
  by destruct (drain_entries front_len es _ k1) as [[hs2 fds2] k2].
Qed.

(** A connect that fails by a close push shuts its descriptor for good: after
    the flusher's round, a handle that is registered for the same descriptor (the
    application connects again) gets nothing through to it, however the new link
    fares: the first push is dropped, and the handle with it. *)
Theorem reconnect_is_deaf st k h1 h2 fd d :
  handles st !! h1 = Some (mkPendingRecv fd [] false false) → early st !! h2 = None → d ≠ [] →
  let '(st1, k1) := flusher_round front_len (mark_eof h1 st) k in
  let '(st2, k2) := push h2 d (register h2 fd st1) k1 in
  shut k1 fd = true ∧ handles st2 !! h2 = None ∧ written k2 fd = written k1 fd.
Proof.
  intros H1 He Hd. unfold flusher_round.
  assert (handles (mark_eof h1 st) !! h1 = Some (mkPendingRecv fd [] true false)) as Hm
    by (simpl; by rewrite lookup_alter_eq, H1).
  assert (has_work (mark_eof h1 st) = true) as ->.
  { unfold has_work. apply existsb_exists. exists (h1, mkPendingRecv fd [] true false).
    split; [|done]. apply list_elem_of_In. by apply elem_of_map_to_list. }
  unfold drain_pass.
  pose proof (drain_entries_shut (map_to_list (handles (mark_eof h1 st))) (handles (mark_eof h1 st)) k fd) as Hsh.
  destruct (drain_entries _ _ _ k) as [[hs fds] k1]. simpl in Hsh.
  assert (shut k1 fd = true) as Hsd.
  { apply Hsh. right. exists h1. by apply elem_of_map_to_list. }
  unfold push, register. simpl. rewrite lookup_insert_eq, He. simpl.
  destruct d as [|c d]; [done|].
  destruct (nb_write fd (c :: d) k1) as [o k2] eqn:Hw.
  destruct (nb_write_spec fd (c :: d) k1 o k2 ltac:(done) Hw) as (_ & _ & Ho).
  destruct o as [n| |]; [destruct Ho as (_ & _ & ?); congruence|destruct Ho as (_ & ? & _); congruence|].
  split_and!; [done| |apply Ho]. simpl. by rewrite lookup_delete_eq.
Qed.
End again.

(** * Witnesses: a non-blocking socket, connecting with handle 7. *)
Import Example.
#[local] Existing Instances Pairs.kernel_pairs Pairs.laws_pairs.

Definition kern_nb : Pairs.kernel := Pairs.set_nonblock 3 (snd (Pairs.socketpair Pairs.empty)).
Definition connecting (gone : bool) : world :=
  mkWorld {[3 := new_fd 3 4 false]}
    (mkSys (set_closed gone (upd_conns (λ _, {[7 := Pending]}) (new_client (mkWriter [] None))))
       (mkGlob pump_new ∅ ∅ ∅ kern_nb) [])
    true [] 0.
Definition close_push : event := NetFrame (push (lit "close") 7).

Lemma nonblocking_connect_witness :
  let '(r, w1) := connect_opened 3 7 (lit "GB7RDG") [] (connecting false) in
  r = Val (-1) ∧ errno w1 = EINPROGRESS ∧
  gate (rhp w1) 7 = Some 4 ∧ gate (net_steps [close_push] (rhp w1)) 7 = None.
Proof.
  pose proof (nonblocking_connect None 3 (new_fd 3 4 false) 7 (lit "GB7RDG") [] Pending [] [] 4
    (connecting false) eq_refl eq_refl eq_refl eq_refl eq_refl) as H1.
  pose proof (nonblocking_connect None 3 (new_fd 3 4 false) 7 (lit "GB7RDG") [] Pending [close_push] [] 4
    (connecting false) eq_refl eq_refl eq_refl eq_refl eq_refl) as H2.
  destruct (connect_opened 3 7 (lit "GB7RDG") [] (connecting false)) as [r w1].
  destruct H1 as (H11 & H12 & H13 & _); [lia|]. destruct H2 as (_ & _ & H23 & _); [lia|].
  split; [exact H11|]. split; [exact H12|]. split; [exact H13|]. exact H23.
Defined.

(** The connect failed for the lost transport; SO_ERROR says it succeeded. *)
Lemma so_error_after_disconnect_witness :
  let w := mkWorld {[3 := set_handle (Some 7) (new_fd 3 4 false)]}
    (mkSys (set_closed true (upd_conns (λ _, {[7 := Failed ECONNRESET]}) (new_client (mkWriter [] None))))
       (mkGlob pump_new ∅ ∅ ∅ kern_nb) [])
    true [Ok (mkWriter [] None)] 0 in
  connect_result 7 (rhp w) = Some (Err ECONNRESET) ∧
  (getsockopt None 3 SOL_SOCKET SO_ERROR (Some [1; 1; 1; 1], Some 4) w).1 = (Val 0, (Some [0; 0; 0; 0], Some 4)).
Proof.
  intros w. split; [reflexivity|].
  apply (so_error_after_disconnect None 3 (set_handle (Some 7) (new_fd 3 4 false)) [1; 1; 1; 1] 4 w);
    [reflexivity|reflexivity|lia].
Defined.

Lemma connect_gate_stuck_witness :
  let '(r, w1) := connect_opened 3 7 (lit "GB7RDG") [] (connecting true) in
  r = Val (-1) ∧ errno w1 = EINPROGRESS ∧ gate (net_steps [close_push; NetEnd] (rhp w1)) 7 = Some 4.
Proof.
  exact (connect_gate_stuck 3 (new_fd 3 4 false) 7 (lit "GB7RDG") [] [close_push; NetEnd]
    (connecting true) eq_refl eq_refl eq_refl eq_refl).
Defined.

(** The connect itself gets there, when the reply is the last thing the engine
    sends. *)
Definition lost_script : list event := [NetFrame (reply 1 7); NetEnd; Wake].
Definition about_to_connect : world :=
  mkWorld {[3 := new_fd 3 4 false]}
    (mkSys (new_client (mkWriter [] None)) (mkGlob pump_new ∅ ∅ ∅ kern_nb) lost_script) true [] 0.
Example connect_reaches_stuck_gate :
  let '(r, w1) := connect None None 3 (Some (sockaddr_bytes [0; 0; 0] (encode (lit "GB7RDG")) 0)) 16
                    about_to_connect in
  (r, errno w1, closed (cl (rhp w1)), gate (rhp w1) 7) = (Val (-1), EINPROGRESS, true, Some 4).
Proof. vm_compute. reflexivity. Qed.

Lemma reconnect_is_deaf_witness :
  let st := mkPumpState {[7 := mkPendingRecv 4 [] false false]} ∅ in
  let '(st1, k1) := flusher_round whole (mark_eof 7 st) one_pair in
  let '(st2, k2) := RecvPump.push 9 [72; 105] (register 9 4 st1) k1 in
  handles st2 !! 9 = None ∧ written k2 4 = [].
Proof.
  intros st.
  pose proof (reconnect_is_deaf whole whole_ok st one_pair 7 9 4 [72; 105] eq_refl eq_refl
    ltac:(discriminate)) as Hd.
  assert (written (snd (flusher_round whole (mark_eof 7 st) one_pair)) 4 = []) as Hw by (vm_compute; reflexivity).
  destruct (flusher_round whole (mark_eof 7 st) one_pair) as [st1 k1]. simpl in Hw.
  destruct (RecvPump.push 9 [72; 105] (register 9 4 st1) k1) as [st2 k2].
  destruct Hd as (_ & H1 & H2). split; [exact H1|]. exact (eq_trans H2 Hw).
Defined.
