(* ===== verification/ConnectThreads.v ===== *)
(** [crates/ax25-interpose/src/lib.rs], [connect], against the threads it runs
    beside: a connect whose open was accepted, lock by lock and system call by
    system call, with the reader thread's handling of status and close frames and
    of the end of the transport, the outbound pump's reads, SO_ERROR, the
    application's own writes and the rest of the process between any two steps.

    The gate of a non-blocking connect is filler in the socketpair, a registration
    in [connect_gates] and a re-check of the link's registry, against the reader,
    which writes the registry first and takes the gate after.  The theorems: once
    both are done the gate is closed exactly while the link is pending; on a socket
    that is new to the pumps the filler is never forwarded; what the application
    writes while the gate is drained is lost; and each thread by itself is the
    sequential definition, a blocking connect included. *)
From stdpp Require Import prelude gmap.
From Stdlib Require Import ZArith Lia String.
From S2P Require Import Prelude Str Errors Framing Messages Client ClientSpec Sockets.
From S2P Require Import RecvPump RecvSpec DgramPump State PumpKeeps OutThreads Interpose InterposeSpec ConnectSpec.
Local Open Scope Z_scope.

(** Where a thread is in [resolve_connect_gate]: about to take the gate, reading
    the filler, about to register the descriptor for forwarding. *)
Inductive rs := RTake | RDrain (inner : Z) | ROut (inner : Z).
#[export] Instance rs_eq_dec : EqDecision rs.
Proof. solve_decision. Defined.

(** What the reader goes on with: nothing, after a status frame; the end of file,
    after a close frame; the rest of the gates, after the transport's end. *)
Inductive after := AStatus | AClose | ADisc (hs : list Z).

(** The reader: between frames; to mark a handle connected; to mark it failed; in
    [resolve_connect_gate]; to mark its end of file; in what follows the loop. *)
Inductive rpc :=
| RIdle | RMark (x : Z) | RFail (x e : Z) | RResolve (x : Z) (p : rs) (a : after) | REof (x : Z)
| RClear | RFault | RGates | RShutRecv | RShutDgram | REnded.

(** The caller: its handle armed in the registry, to store it in the entry; to
    register it for receiving; to ask for O_NONBLOCK; to shrink the send buffer;
    filling it; to store the gate; to re-check the registry; in
    [resolve_connect_gate]; returned with EINPROGRESS; or waiting for the link; to
    register for forwarding; returned. *)
Inductive cpc :=
| CArmed | CStored (app inner : Z) | CWired (app inner : Z) | CShrink (app inner : Z) | CFill (app inner : Z)
| CGate (inner : Z) | CRecheck | CResolve (p : rs) | CProgress
| CWait (inner : Z) | COut (inner : Z) | CReturned (r : result unit Z).

Section threads.
Context `{!SerdeJson} {K : Type} `{!Kernel K}.
Variable front_len : list Z → nat.
(** The descriptor, the handle, the address and the digipeaters of the call; the
    ends of the descriptor's socketpair. *)
Variables (fd h : Z) (rem : str) (dg : list str) (app inner : Z).

(** For the statements: what is in the socketpair towards the library, every byte
    with whether it is filler; all that was put there; all that was taken out,
    with whether the outbound pump did. *)
Record cstate := mkC { cpos : cpc; rpos : rpc; c_fds : gmap Z FdState; csys : sys (S := glob (K := K));
  piped : list (Z * bool); sent : list (Z * bool); taken : list (bool * (Z * bool)) }.

Definition cgoto (p : cpc) (c : cstate) : cstate :=
  mkC p (rpos c) (c_fds c) (csys c) (piped c) (sent c) (taken c).
Definition rgoto (p : rpc) (c : cstate) : cstate :=
  mkC (cpos c) p (c_fds c) (csys c) (piped c) (sent c) (taken c).
Definition upd_csys (f : sys (S := glob (K := K)) → sys (S := glob (K := K))) (c : cstate) : cstate :=
  mkC (cpos c) (rpos c) (c_fds c) (f (csys c)) (piped c) (sent c) (taken c).
Definition set_c_fds (m : gmap Z FdState) (c : cstate) : cstate :=
  mkC (cpos c) (rpos c) m (csys c) (piped c) (sent c) (taken c).
Definition upd_reg (f : ConnRegistry.t → ConnRegistry.t) : cstate → cstate := upd_csys (upd_cl (upd_conns f)).
Definition upd_cglob (f : glob (K := K) → glob (K := K)) : cstate → cstate := upd_csys (upd_sk f).
Definition c_glob (c : cstate) : glob (K := K) := sk (csys c).
Definition c_kern (c : cstate) : K := g_kern (c_glob c).
Definition set_c_kern (k : K) : cstate → cstate := upd_cglob (upd_kern (λ _, k)).
Definition link (c : cstate) : option ConnPhase := conns (cl (csys c)) !! h.
Definition gated (c : cstate) : option Z := g_gates (c_glob c) !! h.

Definition put (filler : bool) (d : list Z) (c : cstate) : cstate :=
  let b := (λ x, (x, filler)) <$> d in
  mkC (cpos c) (rpos c) (c_fds c) (csys c) (piped c ++ b) (sent c ++ b) (taken c).
(** [n] bytes were read of the descriptor [i]. *)
Definition note_read (forwarded : bool) (i : Z) (n : nat) (c : cstate) : cstate :=
  if decide (i = inner)
  then mkC (cpos c) (rpos c) (c_fds c) (csys c) (drop n (piped c)) (sent c)
         (taken c ++ (pair forwarded <$> take n (piped c)))
  else c.
Definition read_fd (forwarded : bool) (i : Z) (n : nat) (c : cstate) : result (list Z) Z * cstate :=
  let '(r, k) := krecv i n (c_kern c) in
  (r, note_read forwarded i (match r with Ok b => List.length b | Err _ => O end) (set_c_kern k c)).

(** * resolve_connect_gate, by either thread; [None]: it has returned. *)
Definition rs_step (x : Z) (p : rs) (c : cstate) : option rs * cstate :=
  match p with
  | RTake =>
    match g_gates (c_glob c) !! x with
    | Some i => (Some (RDrain i), upd_cglob (upd_gates (delete x)) c)
    | None => (None, c)
    end
  | RDrain i =>
    match read_fd false i 1024 c with
    | (Ok (_ :: _), c) => (Some (RDrain i), c)
    | (_, c) => (Some (ROut i), c)
    end
  | ROut i => (None, upd_cglob (out_register x i) c)
  end.

(** * The reader thread *)
Definition next_gate (hs : list Z) : rpc :=
  match hs with [] => RShutRecv | x :: hs => RResolve x RTake (ADisc hs) end.
Definition resolved (x : Z) (a : after) : rpc :=
  match a with AStatus => RIdle | AClose => REof x | ADisc hs => next_gate hs end.

Definition reader_step (c : cstate) : cstate :=
  match rpos c with
  | RIdle | REnded => c
  | RMark x => rgoto (RResolve x RTake AStatus) (upd_reg (ConnRegistry.mark_connected x) c)
  | RFail x e => rgoto (RResolve x RTake AClose) (upd_reg (ConnRegistry.mark_failed x e) c)
  | RResolve x p a =>
    match rs_step x p c with
    | (Some p, c) => rgoto (RResolve x p a) c
    | (None, c) => rgoto (resolved x a) c
    end
  | REof x => rgoto RIdle (upd_cglob (upd_recv (mark_eof x)) c)
  | RClear => rgoto RFault (upd_csys (upd_cl (λ cl,
      set_pending_chans ∅ (foldr drop_sender (chans cl) (snd <$> map_to_list (pending cl))) cl)) c)
  | RFault => rgoto RGates (upd_reg (ConnRegistry.fail_all_pending ECONNRESET) c)
  | RGates => rgoto (next_gate (reverse (fst <$> map_to_list (g_gates (c_glob c))))) c
  | RShutRecv => rgoto RShutDgram (upd_cglob (upd_recv shutdown_all) c)
  | RShutDgram =>
    let '(st, k) := dgram_shutdown_all (g_dgram (c_glob c)) (c_kern c) in
    rgoto REnded (upd_cglob (λ g, upd_kern (λ _, k) (upd_dgram (λ _, st) g)) c)
  end.

(** A frame that makes the reader take more than one lock. *)
Definition link_event (f : Frame) : option rpc :=
  match Messages.handle f with
  | Some x =>
    if decide (typ f = lit "status") then
      if Z.land (status_flags f) STATUS_CONNECTED =? 0 then None else Some (RMark x)
    else if decide (typ f = lit "close") then
      Some (RFail x (if errcode f =? 0 then ECONNREFUSED else errcode_to_errno (errcode f)))
    else None
  | None => None
  end.
Definition is_reply (f : Frame) (st : sys (S := glob (K := K))) : bool :=
  match id f with Some i => bool_decide (is_Some (pending (cl st) !! i)) | None => false end.

Definition frame_in (bytes : list Z) (c : cstate) : cstate :=
  match rpos c, parse bytes with
  | RIdle, Some f =>
    if is_reply f (csys c) then upd_csys (handle_frame bytes) c
    else match link_event f with
         | Some p => rgoto p c
         | None => upd_csys (dispatch_push f) c
         end
  | _, _ => c
  end.
Definition end_in (c : cstate) : cstate :=
  match rpos c with RIdle => rgoto RClear (upd_csys (upd_cl (set_closed true)) c) | _ => c end.

(** * The caller, from where the handle is armed *)
Definition caller_step (c : cstate) : cstate :=
  match cpos c with
  | CArmed =>
    match c_fds c !! fd with
    | None => cgoto (CReturned (Err EBADF)) c
    | Some s => cgoto (CStored (State.app_fd s) (State.inner_fd s))
        (set_c_fds (<[fd := set_digis dg (set_remote (Some rem) (set_handle (Some h) s))]> (c_fds c)) c)
    end
  | CStored a i => cgoto (CWired a i) (upd_cglob (upd_recv (register h i)) c)
  | CWired a i => cgoto (if knonblock (c_kern c) fd then CShrink a i else CWait i) c
  | CShrink a i => cgoto (CFill a i) (set_c_kern (ksndbuf a 1024 (c_kern c)) c)
  | CFill a i =>
    let '(r, k) := ksend a (replicate 1024 0) (c_kern c) in
    match r with
    | Ok (S n) => put true (replicate (S n) 0) (set_c_kern k c)
    | _ => cgoto (CGate i) (set_c_kern k c)
    end
  | CGate i => cgoto CRecheck (upd_cglob (upd_gates (<[h := i]>)) c)
  | CRecheck =>
    cgoto (match connect_result h (csys c) with Some _ => CResolve RTake | None => CProgress end) c
  | CResolve p =>
    match rs_step h p c with (Some p, c) => cgoto (CResolve p) c | (None, c) => cgoto CProgress c end
  | CWait i =>
    match conn_ready h (cl (csys c)) with
    | Some (Ok _, _) => cgoto (COut i) c
    | Some (Err e, _) => cgoto (CReturned (Err e)) c
    | None => c
    end
  | COut i => cgoto (CReturned (Ok tt)) (upd_cglob (out_register h i) c)
  | CProgress | CReturned _ => c
  end.

(** The timer of a blocking connect has fired. *)
Definition timer (c : cstate) : cstate :=
  match cpos c with
  | CWait i =>
    match conn_expired h (cl (csys c)) with
    | Some (Ok _, _) => cgoto (COut i) c
    | Some (Err e, _) => cgoto (CReturned (Err e)) c
    | None => cgoto (CReturned (Err ETIMEDOUT)) c
    end
  | _ => c
  end.

(** * Everybody *)

(** The outbound pump, at an entry: it reads what there is and hands it on. *)
Definition pump_out (x : Z) (c : cstate) : cstate :=
  match g_out (c_glob c) !! x with
  | Some i => snd (read_fd true i 4096 c)
  | None => c
  end.
(** The application writes to its end, past the interposed calls. *)
Definition bypass_in (d : list Z) (c : cstate) : cstate :=
  let '(r, k) := ksend app d (c_kern c) in
  match r with Ok n => put false (take n d) (set_c_kern k c) | Err _ => set_c_kern k c end.

Inductive cact :=
| ACaller | ATimer | AReader | AFrame (bytes : list Z) | AEnd
| APump (x : Z) | AFlush | ABypass (d : list Z) | ASoError (x : Z) | AEnv (k : K).

Definition cact_step (a : cact) (c : cstate) : cstate :=
  match a with
  | ACaller => caller_step c
  | ATimer => timer c
  | AReader => reader_step c
  | AFrame bytes => frame_in bytes c
  | AEnd => end_in c
  | APump x => pump_out x c
  | AFlush => upd_cglob (flusher front_len) c
  | ABypass d => bypass_in d c
  | ASoError x => upd_csys (λ st, snd (take_connect_error x st)) c
  | AEnv k => set_c_kern k c
  end.
Definition cact_run (acts : list cact) (c : cstate) : cstate := foldl (λ c a, cact_step a c) c acts.
End threads.

(** * The gate and the registry *)
Section gate.
Context `{!SerdeJson} {K : Type} `{!Kernel K}.
Variables (fd h : Z) (rem : str) (dg : list str) (app inner : Z).
Implicit Types c : cstate (K := K).

(** The caller has stored the gate; the reader is going to take it, if it is
    there, and nothing it waits for comes before. *)
Definition past (p : cpc) : bool := match p with CRecheck | CResolve _ | CProgress => true | _ => false end.
Definition will (r : rpc) : Prop :=
  match r with
  | RResolve x p a => x = h ∧ p = RTake ∨ match a with ADisc hs => h ∈ hs | _ => False end
  | RGates => True
  | _ => False
  end.
(** What the caller knows of the entry is so. *)
Definition knows (p : cpc) : Prop :=
  match p with
  | CStored a i | CWired a i | CShrink a i | CFill a i => a = app ∧ i = inner
  | CGate i | CWait i | COut i => i = inner
  | _ => True
  end.

Record linked (p : cpc) (r : rpc) (l : option ConnPhase) (g : option Z) : Prop := {
  li_knows : knows p;
  li_tracked : l ≠ None;
  li_before : past p = false → g = None;
  li_armed i : g = Some i →
    i = inner ∧ (l = Some Pending ∨ will r ∨ p = CRecheck ∨ p = CResolve RTake);
  li_open : past p = true → g = None → l ≠ Some Pending;
  li_will : will r → l ≠ Some Pending;
  li_resolve q : p = CResolve q → l ≠ Some Pending }.

Definition entry_ok (m : gmap Z FdState) : Prop :=
  ∃ s, m !! fd = Some s ∧ State.app_fd s = app ∧ State.inner_fd s = inner.
Definition cinv c : Prop := entry_ok (c_fds c) ∧ linked (cpos c) (rpos c) (link h c) (gated h c).

Lemma will_next hs : will (next_gate hs) ↔ h ∈ hs.
Proof.
  destruct hs as [|x hs]; simpl; [by rewrite elem_of_nil|]. rewrite elem_of_cons.
  split; intros [Hx|Hx]; try (by right); left; [by destruct Hx|by split].
Qed.

(** ** The steps of resolve_connect_gate *)
Lemma note_read_same b i n c : cpos (note_read inner b i n c) = cpos c ∧ rpos (note_read inner b i n c) = rpos c ∧
  c_fds (note_read inner b i n c) = c_fds c ∧ csys (note_read inner b i n c) = csys c.
Proof. unfold note_read. by case_decide. Qed.

Lemma read_fd_same b i n c : let '(_, c') := read_fd inner b i n c in
  cpos c' = cpos c ∧ rpos c' = rpos c ∧ c_fds c' = c_fds c ∧ link h c' = link h c ∧
  g_gates (c_glob c') = g_gates (c_glob c) ∧ g_out (c_glob c') = g_out (c_glob c) ∧
  cl (csys c') = cl (csys c).
Proof.
  unfold read_fd. destruct (krecv i n (c_kern c)) as [r k]. unfold link, c_glob.
  destruct (note_read_same b i (match r with Ok b => List.length b | Err _ => O end) (set_c_kern k c))
    as (-> & -> & -> & ->). by split_and!.
Qed.

Lemma rs_step_same x p c : let '(o, c') := rs_step inner x p c in
  o ≠ Some RTake ∧ cpos c' = cpos c ∧ rpos c' = rpos c ∧ c_fds c' = c_fds c ∧ link h c' = link h c ∧
  gated h c' = (if decide (x = h ∧ p = RTake) then None else gated h c).
Proof.
  destruct p as [|i|i]; simpl.
  - destruct (g_gates (c_glob c) !! x) as [i|] eqn:Hg; (split_and!; [done..|]).
    + unfold gated. simpl. case_decide as Hd.
      * destruct Hd as [-> _]. apply lookup_delete_eq.
      * apply lookup_delete_ne. naive_solver.
    + unfold gated. case_decide as Hd; [|done]. by destruct Hd as [-> _].
  - pose proof (read_fd_same false i 1024 c) as Hr. destruct (read_fd inner false i 1024 c) as [r c'].
    destruct Hr as (H1 & H2 & H3 & H4 & H5 & _). rewrite decide_False by (by intros [_ ?]).
    destruct r as [[|b r]|e]; (split_and!; [done..|]); unfold gated; by rewrite H5.
  - rewrite decide_False by (by intros [_ ?]). by split_and!.
Qed.

(** ** The other steps *)
Lemma link_event_None f (st : sys (S := glob (K := K))) : link_event f = None →
  conns (cl (dispatch_push f st)) = conns (cl st) ∧
  g_gates (sk (dispatch_push f st)) = g_gates (sk st) ∧ g_out (sk (dispatch_push f st)) = g_out (sk st).
Proof.
  unfold link_event, dispatch_push. destruct (Messages.handle f) as [x|]; [|by repeat case_decide].
  destruct (decide (typ f = lit "status")) as [Ht|Ht].
  - rewrite Ht. do 2 (rewrite decide_False by done). case_match eqn:Hf; [|done]. intros _. cbn [negb upd_sk sk cl on_status InterposeSink]. by rewrite Hf.
  - case_decide; [done|]. intros _.
    case_decide; [destruct (is_dgram_recv f); simpl; [by destruct (dgram_push _ _ _ _)|by destruct (push _ _ _ _)]|].
    case_decide; [by destruct (child f)|]. done.
Qed.

Lemma is_reply_frame f bytes (st : sys (S := glob (K := K))) : parse bytes = Some f → is_reply f st = true →
  conns (cl (handle_frame bytes st)) = conns (cl st) ∧ sk (handle_frame bytes st) = sk st.
Proof.
  unfold is_reply, handle_frame. intros ->. destruct (id f) as [i|]; [|done].
  intros [ch Hch]%bool_decide_eq_true. by rewrite Hch.
Qed.

(** ** What the steps do to what is linked *)
Lemma linked_reader p r r' l g g' : linked p r l g → (will r' → will r) →
  g' = None ∧ will r ∨ g' = g ∧ (g ≠ None → will r → will r') → linked p r' l g'.
Proof.
  intros [L1 L2 L3 L4 L5 L6 L7] Hw Hg. split; try done.
  - intros Hp. destruct Hg as [[-> _]|[-> _]]; auto.
  - intros i ->. destruct Hg as [[? _]|[<- Hg]]; [done|]. destruct (L4 i eq_refl) as (Hi & [?|[?|?]]); auto.
  - intros Hp Hn. destruct Hg as [[_ Hr]|[-> _]]; auto.
  - auto.
Qed.

(** The link is decided, and the reader is about to take the gate. *)
Lemma linked_decided p r l l' g r' : linked p r l g → l' ≠ None → l' ≠ Some Pending → will r' → linked p r' l' g.
Proof.
  intros [L1 L2 L3 L4 L5 L6 L7] Hn Hl Hw. split; try done.
  intros i Hi. destruct (L4 i Hi) as [? _]. auto.
Qed.

(** The registry changes, but not from or to pending. *)
Lemma linked_link p r l l' g : linked p r l g → l' ≠ None → (l' = Some Pending ↔ l = Some Pending) → linked p r l' g.
Proof. intros [L1 L2 L3 L4 L5 L6 L7] Hn Hl. split; try done; setoid_rewrite Hl; done. Qed.

(** The caller goes on before the gate is stored, and elsewhere than by it. *)
Lemma linked_caller p p' r l g : linked p r l g → past p = false → past p' = false → knows p' → linked p' r l g.
Proof.
  intros [L1 L2 L3 L4 L5 L6 L7] Hp Hp' Hk. split; try done.
  - auto.
  - intros i Hi. rewrite L3 in Hi; done.
  - by rewrite Hp'.
  - by intros q ->.
Qed.

Lemma linked_stored i r l g : linked (CGate i) r l g → linked CRecheck r l (Some i).
Proof. intros [L1 L2 L3 L4 L5 L6 L7]. split; try done. intros j [= <-]. auto. Qed.

Lemma linked_recheck r l g : linked CRecheck r l g →
  linked (if decide (l = Some Pending) then CProgress else CResolve RTake) r l g.
Proof.
  intros [L1 L2 L3 L4 L5 L6 L7]. case_decide; split; try done.
  - intros i Hi. destruct (L4 i Hi). auto.
  - intros i Hi. destruct (L4 i Hi). auto.
Qed.

Lemma linked_resolving q p' r l g : linked (CResolve q) r l g → p' = CProgress ∨ (∃ q', p' = CResolve q') →
  linked p' r l (if decide (q = RTake) then None else g).
Proof.
  intros [L1 L2 L3 L4 L5 L6 L7] Hp. specialize (L7 q eq_refl). assert (past p' = true ∧ knows p') as [Hp' Hk].
  { by destruct Hp as [->|[? ->]]. }
  split; try done.
  - by rewrite Hp'.
  - intros i Hi. case_decide as Hq; [done|]. destruct (L4 i Hi) as (? & [?|[?|[?|[= ->]]]]); auto; done.
Qed.

Lemma take_error_link x (m : ConnRegistry.t) l : m !! h = Some l →
  ∃ l', snd (ConnRegistry.take_error x m) !! h = Some l' ∧ (l' = Pending ↔ l = Pending).
Proof.
  intros Hl. unfold ConnRegistry.take_error. destruct (m !! x) as [q|] eqn:Hx; [|by exists l]. simpl.
  destruct q as [| |e]; simpl; [by exists l; split..|]. destruct (e =? 0); [by exists l; split|].
  destruct (decide (x = h)) as [->|Hne].
  - exists Connected. rewrite lookup_insert_eq. split; [done|]. rewrite Hl in Hx. by injection Hx as ->.
  - exists l. by rewrite lookup_insert_ne.
Qed.

Lemma mark_failed_link x e (m : ConnRegistry.t) :
  ConnRegistry.mark_failed x e m !! h =
    if decide (x = h ∧ m !! h = Some Pending) then Some (Failed e) else m !! h.
Proof.
  unfold ConnRegistry.mark_failed. destruct (decide (x = h)) as [->|Hne].
  - case_decide as Hd; [destruct Hd as [_ ->]; by rewrite lookup_insert_eq|].
    destruct (m !! h) as [[]|] eqn:Hm; try done. exfalso. by apply Hd.
  - rewrite decide_False by (by intros [? _]). destruct (m !! x) as [[]|]; try done. by rewrite lookup_insert_ne.
Qed.

(** ** The invariant *)
Lemma cinv_reader c r : linked (cpos c) r (link h c) (gated h c) → cinv c → cinv (rgoto r c).
Proof. by intros Hl [He _]. Qed.

Lemma cinv_reader_step c : cinv c → cinv (reader_step inner c).
Proof.
  intros [He Hl]. unfold reader_step. destruct (rpos c) as [|x|x e|x q a|x| | | | | |] eqn:Hr; try by (split; [done|by rewrite ?Hr]).
  - split; [done|]. unfold gated. cbn [cpos rpos rgoto upd_reg upd_csys]. unfold link. simpl.
    unfold ConnRegistry.mark_connected. destruct (decide (x = h)) as [->|Hne].
    + rewrite lookup_insert_eq. by eapply linked_decided; [exact Hl|done..|left].
    + rewrite lookup_insert_ne by done. eapply linked_reader; [exact Hl|by intros [[? _]|]|right; by split].
  - split; [done|]. unfold gated, link. simpl. rewrite mark_failed_link. destruct (decide (x = h)) as [->|Hne].
    + eapply linked_decided; [exact Hl| | |by left].
      * pose proof (li_tracked _ _ _ _ Hl). by case_decide.
      * case_decide as Hd; [done|]. by intros Hp; apply Hd.
    + rewrite decide_False by (by intros [? _]). eapply linked_reader; [exact Hl|by intros [[? _]|]|right; by split].
  - pose proof (rs_step_same x q c) as Hs. destruct (rs_step inner x q c) as [[q'|] c'];
      destruct Hs as (H0 & H1 & H2 & H3 & H4 & H5);
      (split; [by rewrite <- H3 in He|]); cbn [cpos rpos rgoto].
    + change (linked (cpos c') (RResolve x q' a) (link h c') (gated h c')). rewrite H1, H4, H5.
      eapply linked_reader; [exact Hl| |].
      * intros [[_ ->]|Hw]; [done|by right].
      * case_decide as Hd; [destruct Hd as [-> ->]; left; split; [done|by left]|].
        right. split; [done|]. intros _ [[-> ->]|Hw]; [by destruct Hd|by right].
    + change (linked (cpos c') (resolved x a) (link h c') (gated h c')). rewrite H1, H4, H5.
      assert (will (resolved x a) ↔ match a with ADisc hs => h ∈ hs | _ => False end) as Hw.
      { destruct a; [done|done|apply will_next]. }
      eapply linked_reader; [exact Hl|rewrite Hw; by right|].
      case_decide as Hd; [destruct Hd as [-> ->]; left; split; [done|by left]|].
      right. split; [done|]. rewrite Hw. by intros _ [?|?].
  - split; [done|]. eapply linked_reader; [exact Hl|done|right; by split].
  - split; [done|]. eapply linked_reader; [exact Hl|done|right; by split].
  - split; [done|]. unfold link. simpl. unfold ConnRegistry.fail_all_pending. rewrite lookup_fmap.
    pose proof (li_tracked _ _ _ _ Hl) as Ht. unfold link in Ht.
    eapply linked_decided; [exact Hl|..]; [| |done]; by destruct (conns (cl (csys c)) !! h) as [[]|].
  - split; [done|]. eapply linked_reader; [exact Hl|done|]. right. split; [done|]. intros Hg _.
    apply will_next. change (gated h c ≠ None) in Hg. unfold gated in Hg.
    destruct (g_gates (c_glob c) !! h) as [i|] eqn:Hi; [|done].
    apply elem_of_reverse. apply list_elem_of_fmap. exists (h, i). split; [done|]. by apply elem_of_map_to_list.
  - split; [done|]. eapply linked_reader; [exact Hl|done|right; by split].
  - destruct (dgram_shutdown_all _ _) as [st k]. split; [done|]. eapply linked_reader; [exact Hl|done|right; by split].
Qed.

(** [p] and the state of everything else are those of [c], but for what [cinv] is
    about. *)
Lemma cinv_same c c' : c_fds c' = c_fds c → cpos c' = cpos c → rpos c' = rpos c → link h c' = link h c →
  gated h c' = gated h c → cinv c → cinv c'.
Proof. unfold cinv. by intros -> -> -> -> ->. Qed.

Lemma cinv_caller p' c : past (cpos c) = false → past p' = false → knows p' → cinv c → cinv (cgoto p' c).
Proof. intros Hp Hp' Hk [He Hl]. split; [done|]. by eapply linked_caller. Qed.

Lemma cinv_read b i n c : let '(_, c') := read_fd inner b i n c in cinv c → cinv c'.
Proof.
  pose proof (read_fd_same b i n c) as Hr. destruct (read_fd inner b i n c) as [r c'].
  destruct Hr as (H1 & H2 & H3 & H4 & H5 & _). apply cinv_same; try done. unfold gated. by rewrite H5.
Qed.

Lemma cinv_caller_step c : cinv c → cinv (caller_step fd h rem dg inner c).
Proof.
  intros Hc. pose proof Hc as [(s & Hs & Ha & Hi) Hl]. unfold caller_step.
  assert (∀ q, cpos c = q → knows q) as Hk by (intros q <-; apply Hl).
  destruct (cpos c) as [|a i|a i|a i|a i|i| |q| |i|i|r] eqn:Hp; try done; specialize (Hk _ eq_refl); simpl in Hk.
  - rewrite Hs. split; simpl.
    + eexists. rewrite lookup_insert_eq. split; [done|]. by split.
    + rewrite ?Hp in Hl. eapply linked_caller; [exact Hl|done..].
  - apply cinv_caller; [simpl; by rewrite ?Hp|done|done|]. by apply (cinv_same c).
  - apply cinv_caller; [simpl; by rewrite ?Hp|by case_match|by case_match; [|destruct Hk]|done].
  - apply cinv_caller; [simpl; by rewrite ?Hp|done|done|]. by apply (cinv_same c).
  - destruct Hk as [-> ->]. destruct (ksend app _ _) as [[[|n]|e] k];
      [apply cinv_caller; [simpl; by rewrite ?Hp|done|done|]|..|apply cinv_caller; [simpl; by rewrite ?Hp|done|done|]];
      by apply (cinv_same c).
  - subst i. split; [by exists s|]. rewrite ?Hp in Hl. unfold gated. simpl. rewrite lookup_insert_eq.
    by eapply linked_stored.
  - split; [by exists s|]. rewrite ?Hp in Hl. apply linked_recheck in Hl.
    change (linked (match connect_result h (csys c) with Some _ => CResolve RTake | None => CProgress end)
      (rpos c) (link h c) (gated h c)).
    pose proof (li_tracked _ _ _ _ Hl) as Ht. unfold connect_result, ConnRegistry.result. unfold link in *.
    by destruct (conns (cl (csys c)) !! h) as [[]|].
  - pose proof (rs_step_same h q c) as Hr. rewrite ?Hp in Hl. destruct (rs_step inner h q c) as [o c'].
    destruct Hr as (_ & _ & H2 & H3 & H4 & H5). destruct o as [q'|]; split; simpl; try (rewrite H3; by exists s).
    + change (linked (CResolve q') (rpos c') (link h c') (gated h c')). rewrite H2, H4, H5.
      erewrite decide_ext; [eapply linked_resolving; [exact Hl|right; by exists q']|by split; [intros [_ ?]|]].
    + change (linked CProgress (rpos c') (link h c') (gated h c')). rewrite H2, H4, H5.
      erewrite decide_ext; [eapply linked_resolving; [exact Hl|by left]|by split; [intros [_ ?]|]].
  - destruct (conn_ready h (cl (csys c))) as [[[[]|e] ?]|]; [..|done]; (apply cinv_caller; [simpl; by rewrite ?Hp|done|done|done]).
  - apply cinv_caller; [simpl; by rewrite ?Hp|done|done|]. by apply (cinv_same c).
Qed.

Lemma cinv_timer c : cinv c → cinv (timer h c).
Proof.
  intros Hc. unfold timer. pose proof (li_knows _ _ _ _ (proj2 Hc)) as Hk.
  destruct (cpos c) as [| | | | | | | | |i| |] eqn:Hp; try done.
  destruct (conn_expired h (cl (csys c))) as [[[[]|e] ?]|]; (apply cinv_caller; [simpl; by rewrite ?Hp|done|done|done]).
Qed.

Lemma cinv_sys f c : link h (upd_csys f c) = link h c → gated h (upd_csys f c) = gated h c → cinv c → cinv (upd_csys f c).
Proof. intros. by apply (cinv_same c). Qed.

Lemma cinv_frame_in bytes c : cinv c → cinv (frame_in bytes c).
Proof.
  intros Hc. unfold frame_in. destruct (rpos c) eqn:Hr; try done. destruct (parse bytes) as [f|] eqn:Hf; [|done].
  destruct (is_reply f (csys c)) eqn:Hi.
  - destruct (is_reply_frame f bytes (csys c) Hf Hi) as [Hcn Hsk].
    apply cinv_sys; [unfold link; simpl; by rewrite Hcn|unfold gated, c_glob; simpl; by rewrite Hsk|done].
  - destruct (link_event f) as [p|] eqn:Hp.
    + apply cinv_reader; [|done]. destruct Hc as [_ Hl]. eapply linked_reader; [exact Hl| |right; split; [done|]].
      * unfold link_event in Hp. destruct (Messages.handle f); [|done].
        case_decide; [case_match; by simplify_eq|case_decide; by simplify_eq].
      * by rewrite Hr.
    + destruct (link_event_None f (csys c) Hp) as (H1 & H2 & _).
      apply cinv_sys; [unfold link; simpl; by rewrite H1|unfold gated, c_glob; simpl; by rewrite H2|done].
Qed.

Variable front_len : list Z → nat.

Lemma cinv_step a c : cinv c → cinv (cact_step front_len fd h rem dg app inner a c).
Proof.
  intros Hc. destruct a as [| | |bytes| |x| |d|x|k]; simpl.
  - by apply cinv_caller_step.
  - by apply cinv_timer.
  - by apply cinv_reader_step.
  - by apply cinv_frame_in.
  - unfold end_in. destruct (rpos c) eqn:Hr; try done. destruct Hc as [He Hl]. split; [done|]. rewrite ?Hr in Hl.
    eapply linked_reader; [exact Hl|done|right; by split].
  - unfold pump_out. destruct (g_out (c_glob c) !! x) as [i|]; [|done].
    pose proof (cinv_read true i 4096 c) as Hr. destruct (read_fd inner true i 4096 c) as [r c']. by apply Hr.
  - apply cinv_sys; [done| |done]. unfold gated, c_glob. simpl. unfold flusher. by destruct (flusher_round _ _ _).
  - unfold bypass_in. destruct (ksend app d (c_kern c)) as [[n|e] k]; by apply (cinv_same c).
  - destruct Hc as [He Hl]. split; [done|]. pose proof (li_tracked _ _ _ _ Hl) as Ht.
    assert (gated h (upd_csys (λ st, snd (take_connect_error x st)) c) = gated h c) as ->.
    { unfold gated, c_glob. simpl. unfold take_connect_error. by destruct (ConnRegistry.take_error x _). }
    assert (link h (upd_csys (λ st, snd (take_connect_error x st)) c) =
      snd (ConnRegistry.take_error x (conns (cl (csys c)))) !! h) as ->.
    { unfold link. simpl. unfold take_connect_error. by destruct (ConnRegistry.take_error x _). }
    unfold link in *. destruct (conns (cl (csys c)) !! h) as [l|] eqn:Hlk; [|done].
    destruct (take_error_link x _ l Hlk) as (l' & -> & Hl'). eapply linked_link; [exact Hl|done|].
    split; intros [= ->]; f_equal; by apply Hl'.
  - by apply (cinv_same c).
Qed.

Lemma cinv_run acts c : cinv c → cinv (cact_run front_len fd h rem dg app inner acts c).
Proof. revert c. induction acts as [|a acts IH]; intros c Hc; [done|]. by apply IH, cinv_step. Qed.
End gate.

(** * The filler *)
Section filler.
Context `{!SerdeJson} {K : Type} `{!Kernel K, !KernelLaws K}.
Variables (fd h : Z) (rem : str) (dg : list str) (app inner : Z).
Implicit Types (c : cstate (K := K)) (g : glob (K := K)) (k : K).

(** The descriptor's socketpair is this handle's: what the library writes goes
    elsewhere, and no other handle's gate or registration reads it. *)
Record apart g : Prop := {
  ap_recv : recv_fds_ok (leads_away inner) (g_kern g) (handles (g_recv g));
  ap_dgram : dgram_fds_ok (leads_away inner) (g_kern g) (g_dgram g);
  ap_gates x i : g_gates g !! x = Some i → (x = h ↔ i = inner);
  ap_out x i : g_out g !! x = Some i → (x = h ↔ i = inner);
  ap_peer : peer (g_kern g) app = inner;
  ap_own : peer (g_kern g) inner ≠ inner }.

Definition filling (p : cpc) : bool := match p with CFill _ _ | CGate _ => true | _ => false end.
Definition draining (p : cpc) (r : rpc) : Prop :=
  p = CResolve (RDrain inner) ∨ ∃ a, r = RResolve h (RDrain inner) a.
(** The caller will not fill any more. *)
Definition filled (p : cpc) : bool := match p with CReturned _ => true | _ => past p end.

(** Where filler may be ([fl]) and when the handle may be registered ([o]). *)
Record placed (p : cpc) (r : rpc) (g o : option Z) (fl : Prop) : Prop := {
  pl_filler : fl → filling p = true ∨ g = Some inner ∨ draining p r;
  pl_out : o ≠ None → filled p = true ∧ ¬ fl;
  pl_reader q a : r = RResolve h q a → q ≠ RTake → past p = true;
  pl_rout i a : r = RResolve h (ROut i) a → ¬ fl;
  pl_cout i : p = CResolve (ROut i) → ¬ fl }.

(** What a thread in [resolve_connect_gate] reads and will register. *)
Definition rs_fd (q : rs) : option Z := match q with RTake => None | RDrain i | ROut i => Some i end.
Definition reads_own (p : cpc) (r : rpc) : Prop :=
  (∀ q i, p = CResolve q → rs_fd q = Some i → i = inner) ∧
  (∀ x q a i, r = RResolve x q a → rs_fd q = Some i → (x = h ↔ i = inner)).

Definition has_filler (l : list (Z * bool)) : Prop := ∃ b, (b, true) ∈ l.

(** The socketpair holds what was put there and not taken, and the pump took no
    filler. *)
Record piping c : Prop := {
  pi_apart : apart (c_glob c);
  pi_piped : fst <$> piped c = unread (c_kern c) inner;
  pi_sent : sent c = (snd <$> taken c) ++ piped c;
  pi_taken b : (true, (b, true)) ∉ taken c }.

Record finv c : Prop := {
  fi_piping : piping c;
  fi_placed : placed (cpos c) (rpos c) (gated h c) (g_out (c_glob c) !! h) (has_filler (piped c));
  fi_reads : reads_own (cpos c) (rpos c) }.

(** ** The kernel *)
Lemma apart_kern k' g : (∀ x, peer k' x = peer (g_kern g) x) → apart g → apart (upd_kern (λ _, k') g).
Proof.
  intros Hp [A1 A2 A3 A4 A5 A6]. split; simpl; try done; rewrite ?Hp; try done.
  - intros x e He. unfold leads_away. rewrite Hp. by eapply A1.
  - intros x e He. unfold leads_away. rewrite Hp. by eapply A2.
Qed.

(** The pumps' operations keep to their descriptors. *)
Lemma apart_pumps fr fdg k' g : leaves inner (g_kern g) k' →
  kept_by RecvPump.inner_fd (handles (g_recv g)) (handles (fr (g_recv g))) →
  kept_by dgram_fds (g_dgram g) (fdg (g_dgram g)) → apart g →
  apart (upd_kern (λ _, k') (upd_dgram fdg (upd_recv fr g))).
Proof.
  intros Hk Hr Hd [A1 A2 A3 A4 A5 A6]. pose proof (leaves_rel inner) as Hrel. pose proof Hk as [Hu Hp].
  split; simpl; try done; rewrite ?Hp; try done.
  - by eapply (recv_fds_kept (leaves inner) (leads_away inner)).
  - by eapply (dgram_fds_kept (leaves inner) (leads_away inner)).
Qed.

(** ** What is read and put *)
Lemma snd_tagged {A B} (b : A) (l : list B) : snd <$> (pair b <$> l) = l.
Proof. induction l as [|x l IH]; [done|]. csimpl. by rewrite IH. Qed.
Lemma fst_tagged {A B} (b : B) (l : list A) : fst <$> ((λ x, (x, b)) <$> l) = l.
Proof. induction l as [|x l IH]; [done|]. csimpl. by rewrite IH. Qed.

Lemma piping_same c c' : c_glob c' = c_glob c → piped c' = piped c → sent c' = sent c → taken c' = taken c →
  piping c → piping c'.
Proof.
  intros Hg Hp Hs Ht [P1 P2 P3 P4]. split; rewrite ?Hg, ?Hp, ?Hs, ?Ht; try done.
  unfold c_kern. by rewrite Hg.
Qed.

(** The rest of the state behind the sink changes. *)
Lemma piping_glob f c : (apart (c_glob c) → apart (f (c_glob c)) ∧ leaves inner (c_kern c) (g_kern (f (c_glob c)))) →
  piping c → piping (upd_cglob f c).
Proof. intros Hf [P1 P2 P3 P4]. destruct (Hf P1) as [Ha [Hu _]]. split; try done. simpl. by rewrite P2, <- Hu. Qed.

Lemma piping_kern k c : leaves inner (c_kern c) k → piping c → piping (set_c_kern k c).
Proof. intros Hk. apply piping_glob. intros Ha. split; [apply apart_kern; [apply Hk|done]|done]. Qed.

Lemma filler_drop n (l : list (Z * bool)) : has_filler (drop n l) → has_filler l.
Proof. intros [b Hb]. exists b. rewrite <- (take_drop n l). apply elem_of_app. by right. Qed.

(** A read of the library's end, or of another. *)
Lemma piping_read fwd i n c : (0 < n)%nat → (fwd = true → i = inner → ¬ has_filler (piped c)) → piping c →
  let '(r, c') := read_fd inner fwd i n c in
  piping c' ∧ (has_filler (piped c') → has_filler (piped c)) ∧
  (i = inner → match r with Ok (_ :: _) => False | _ => True end → piped c' = []).
Proof.
  intros Hn Hf Hp. unfold read_fd. destruct (krecv i n (c_kern c)) as [r k] eqn:Hk. unfold note_read.
  destruct (decide (i = inner)) as [->|Hne].
  2:{ split_and!; [|done|done]. apply piping_kern; [|done].
      pose proof (leaves_recv inner i n (c_kern c) Hn Hne) as Hl. by rewrite Hk in Hl. }
  pose proof Hp as [P1 P2 P3 P4]. destruct r as [b|e].
  - destruct (krecv_ok _ _ _ _ _ Hn Hk) as (_ & Hu & Hb & _ & _ & Hs).
    assert (drop (List.length b) (piped c) = [] ∨ b ≠ []) as Hd.
    { destruct b; [left|by right]. simpl. rewrite Hb in P2 by done. by apply fmap_nil_inv in P2. }
    split_and!.
    + split; simpl.
      * apply apart_kern; [|done]. intros x. apply Hs.
      * rewrite fmap_drop, P2, Hu. by rewrite drop_app_length.
      * by rewrite P3, fmap_app, <- app_assoc, snd_tagged, take_drop.
      * intros b0 [Hin|(x & [= <- <-] & Hx)%list_elem_of_fmap]%elem_of_app; [by apply P4 in Hin|].
        apply Hf; [done|done|]. exists b0. rewrite <- (take_drop (List.length b) (piped c)). apply elem_of_app. by left.
    + apply filler_drop.
    + intros _ Hr. destruct Hd as [Hd|Hd]; [done|by destruct b].
  - destruct (krecv_err _ _ _ _ _ Hn Hk) as (Hu & Hu' & _ & Hs). rewrite Hu in P2. apply fmap_nil_inv in P2.
    split_and!; simpl; [|by rewrite P2|by rewrite P2].
    split; simpl; rewrite ?P2, ?app_nil_r; try done.
    + apply apart_kern; [|done]. intros x. apply Hs.
    + by rewrite Hu'.
    + by rewrite P3, P2, app_nil_r.
Qed.

(** A write to the application's end. *)
Lemma piping_put b d n k c : d ≠ [] → ksend app d (c_kern c) = (Ok n, k) → piping c →
  piping (put b (take n d) (set_c_kern k c)).
Proof.
  intros Hd Hk [P1 P2 P3 P4]. destruct (ksend_ok _ _ _ _ _ Hd Hk) as (_ & _ & _ & _ & Hu & _ & _ & Hs).
  pose proof (ap_peer _ P1) as Hpe. change (g_kern (c_glob c)) with (c_kern c) in Hpe. rewrite Hpe in Hu.
  split; simpl; try done.
  - apply apart_kern; [|done]. intros x. apply Hs.
  - rewrite fmap_app, fst_tagged, P2. symmetry. exact Hu.
  - by rewrite P3, app_assoc.
Qed.

(** ** A thread in resolve_connect_gate *)
Lemma piping_rs x q c : (∀ i, rs_fd q = Some i → (x = h ↔ i = inner)) → piping c →
  let '(o, c') := rs_step inner x q c in
  piping c' ∧ (has_filler (piped c') → has_filler (piped c)) ∧
  (∀ q' i, o = Some q' → rs_fd q' = Some i → (x = h ↔ i = inner)) ∧
  (∀ i, o = Some (ROut i) → x = h → ¬ has_filler (piped c')) ∧
  (o = None → q = RTake ∧ g_gates (c_glob c) !! x = None ∨ ∃ i, q = ROut i) ∧
  (q = RTake → o ≠ None → g_gates (c_glob c) !! x ≠ None ∧ ∃ i, o = Some (RDrain i)) ∧
  (g_out (c_glob c') !! h ≠ None → g_out (c_glob c) !! h ≠ None ∨ x = h ∧ o = None ∧ ∃ i, q = ROut i).
Proof.
  intros Hq Hp. pose proof Hp as [[A1 A2 A3 A4 A5 A6] P2 P3 P4]. destruct q as [|i|i]; simpl.
  - destruct (g_gates (c_glob c) !! x) as [i|] eqn:Hg; split_and!; try done; eauto.
    + split; try done. split; try done. simpl. intros y j [_ Hy]%lookup_delete_Some. by eapply A3.
    + intros q' j [= <-] [= <-]. by apply A3.
  - pose proof (piping_read false i 1024 c ltac:(lia) ltac:(done) Hp) as Hr.
    pose proof (read_fd_same h inner false i 1024 c) as Hsame.
    destruct (read_fd inner false i 1024 c) as [r c'].
    destruct Hr as (H1 & H2 & H3). destruct Hsame as (_ & _ & _ & _ & _ & Ho & _).
    specialize (Hq i eq_refl). destruct r as [[|b r]|e]; rewrite ?Ho; split_and!; try done; auto;
      try (by intros q' j [= <-] [= <-]); intros j _ Hx; rewrite H3 by (done || by apply Hq); by intros [b0 Hb]; apply elem_of_nil in Hb.
  - specialize (Hq i eq_refl). unfold out_register. split_and!; try done; eauto.
    + split; try done. split; try done. simpl. change (sk (csys c)) with (c_glob c). intros y j.
      destruct (g_out (c_glob c) !! x) eqn:Hx; [apply A4|].
      intros [[<- <-]|[_ Hy]]%lookup_insert_Some; [done|by apply A4].
    + simpl. change (sk (csys c)) with (c_glob c). destruct (g_out (c_glob c) !! x) eqn:Hx; [by left|]. destruct (decide (x = h)) as [->|Hne]; [right; eauto|].
      rewrite lookup_insert_ne by done. by left.
Qed.

(** ** Where the filler is *)
Lemma placed_reader p r r' (g o : option Z) fl : placed p r g o fl → (∀ a, r ≠ RResolve h (RDrain inner) a) →
  (∀ q a, r' = RResolve h q a → q = RTake) → placed p r' g o fl.
Proof.
  intros [P1 P2 P3 P4 P5] Hr Hr'. split; try done.
  - intros [?|[?|[?|[a Ha]]]]%P1; [by left|by right; left|right; right; by left|by apply Hr in Ha].
  - intros q a Hq Hn. by apply Hr' in Hq.
  - intros i a Hq. by apply Hr' in Hq.
Qed.
Lemma placed_caller p p' r (g o : option Z) fl : placed p r g o fl → (filling p = true → filling p' = true) →
  (past p = true → past p' = true) → (filled p = true → filled p' = true) → (∀ q, p = CResolve q → q = RTake) →
  (∀ q, p' = CResolve q → q = RTake) → placed p' r g o fl.
Proof.
  intros [P1 P2 P3 P4 P5] H1 H2 H3 H4 H5. split; try done.
  - intros [?|[?|[Hd|[a ?]]]]%P1; [left; auto|by right; left|by apply H4 in Hd|right; right; right; by exists a].
  - intros [? ?]%P2. auto.
  - eauto.
  - intros i Hi. by apply H5 in Hi.
Qed.
Lemma placed_less p r (g o : option Z) (fl fl' : Prop) : (fl' → fl) → placed p r g o fl → placed p r g o fl'.
Proof.
  intros Hf [P1 P2 P3 P4 P5]. split; auto.
  - intros Ho. destruct (P2 Ho) as [? ?]. auto.
  - intros i a Hr. specialize (P4 i a Hr). auto.
  - intros i Hp. specialize (P5 i Hp). auto.
Qed.
Lemma next_gate_take hs y q a : next_gate hs = RResolve y q a → q = RTake.
Proof. destruct hs; simpl; congruence. Qed.
Lemma resolved_take x a y q a' : resolved x a = RResolve y q a' → q = RTake.
Proof. destruct a; simpl; [done|done|apply next_gate_take]. Qed.

(** Everything but where the threads are. *)
Lemma finv_same c c' : piping c' → cpos c' = cpos c → rpos c' = rpos c → gated h c' = gated h c →
  (g_out (c_glob c') !! h ≠ None → g_out (c_glob c) !! h ≠ None) →
  (has_filler (piped c') → has_filler (piped c)) → finv c → finv c'.
Proof.
  intros Hp H1 H2 H3 H4 H5 [_ Hl Hr]. split; [done| |by rewrite H1, H2].
  rewrite H1, H2, H3. apply placed_less with (2 := Hl) in H5. destruct H5 as [Q1 Q2 Q3 Q4 Q5].
  split; auto.
Qed.

Lemma finv_rgoto r c : (∀ x a, rpos c ≠ RResolve x (RDrain inner) a) → (∀ x q a, r = RResolve x q a → q = RTake) →
  finv c → finv (rgoto r c).
Proof.
  intros Hr Hr' [P1 P2 P3]. split; [by apply (piping_same c)| |].
  - eapply placed_reader; [exact P2|intros a; apply Hr|intros q a; apply Hr'].
  - split; [apply P3|]. intros x q a i Hq Hi. apply Hr' in Hq. by subst.
Qed.

Lemma finv_reader_resolve x q a c : cinv fd h app inner c → finv c → rpos c = RResolve x q a →
  finv (match rs_step inner x q c with
        | (Some q, c) => rgoto (RResolve x q a) c
        | (None, c) => rgoto (resolved x a) c
        end).
Proof.
  intros [_ Hl] [P1 P2 P3] Hr.
  pose proof (piping_rs x q c ltac:(intros i; by apply (proj2 P3 x q a i)) P1) as Hs.
  pose proof (rs_step_same h inner x q c) as Ht. destruct (rs_step inner x q c) as [o c'].
  destruct Hs as (H1 & H2 & H3 & H4 & H5 & H6 & H7), Ht as (H0 & T1 & T2 & T3 & T4 & T5).
  rewrite Hr in P2. destruct P2 as [Q1 Q2 Q3 Q4 Q5]. destruct o as [q'|].
  - split; [by apply (piping_same c')| |].
    + cbn [cpos rpos rgoto piped]. change (gated h (rgoto _ c')) with (gated h c'). rewrite T1, T5.
      change (c_glob (rgoto _ c')) with (c_glob c'). split.
      * intros Hf. destruct (Q1 (H2 Hf)) as [?|[Hg|[?|[a0 [= -> -> <-]]]]]; [by left| |by right; right; left|].
        -- case_decide as Hd; [destruct Hd as [-> ->]|by right; left]. destruct (H6 eq_refl) as (_ & i & [= ->]); [done|].
           right; right; right. exists a. by rewrite (proj1 (H3 _ i eq_refl eq_refl) eq_refl).
        -- right; right; right. exists a. destruct q' as [|i|i]; [done| |by destruct (H4 i eq_refl eq_refl)].
           by rewrite (proj1 (H3 _ i eq_refl eq_refl) eq_refl).
      * intros [Ho|(_ & [=] & _)]%H7. destruct (Q2 Ho). auto.
      * intros q0 a0 [= -> -> ->] Hn. destruct (decide (q = RTake)) as [->|Hq]; [|by eapply Q3].
        destruct (H6 eq_refl) as [Hg _]; [done|]. destruct (past (cpos c)) eqn:Hp; [done|].
        by apply (li_before _ _ _ _ _ _ _ Hl) in Hp.
      * intros i a0 [= -> -> ->]. by eapply H4.
      * intros i Hi. specialize (Q5 i Hi). auto.
    + split; [|intros y q0 a0 i [= <- <- <-]; by apply H3]. simpl. rewrite T1. apply P3.
  - split; [by apply (piping_same c')| |].
    + cbn [cpos rpos rgoto piped]. change (gated h (rgoto _ c')) with (gated h c'). rewrite T1, T5.
      change (c_glob (rgoto _ c')) with (c_glob c').
      assert (∀ i, q ≠ RDrain i) as Hnd by (intros i ->; by destruct (H5 eq_refl) as [[? _]|[? ?]]).
      split.
      * intros Hf. destruct (Q1 (H2 Hf)) as [?|[Hg|[?|[a0 [= -> -> <-]]]]];
          [by left| |by right; right; left|by destruct (Hnd _ eq_refl)].
        case_decide as Hd; [destruct Hd as [-> ->]|by right; left].
        destruct (H5 eq_refl) as [[_ Hn]|[? ?]]; [|done]. change (gated h c = None) in Hn. congruence.
      * intros [Ho|(-> & _ & i & ->)]%H7; [destruct (Q2 Ho); auto|].
        pose proof (Q4 i a eq_refl). pose proof (Q3 (ROut i) a eq_refl ltac:(done)) as Hp.
        split; [unfold filled; by destruct (cpos c)|auto].
      * by intros q0 a0 ->%resolved_take.
      * by intros i a0 [=]%resolved_take.
      * intros i Hi. specialize (Q5 i Hi). auto.
    + split; [simpl; rewrite T1; apply P3|]. intros y q0 a0 i Hy. simpl in Hy.
      by apply resolved_take in Hy as ->.
Qed.

(** The state behind the sink changes by an operation of the pumps. *)
Lemma finv_pumps fr fdg k' c :
  (apart (c_glob c) → kept_by RecvPump.inner_fd (handles (g_recv (c_glob c))) (handles (fr (g_recv (c_glob c)))) ∧
    kept_by dgram_fds (g_dgram (c_glob c)) (fdg (g_dgram (c_glob c))) ∧ leaves inner (c_kern c) k') →
  finv c → finv (upd_cglob (λ g, upd_kern (λ _, k') (upd_dgram fdg (upd_recv fr g))) c).
Proof.
  intros Hk Hf. apply (finv_same c); try done. apply piping_glob; [|apply Hf].
  intros Ha. destruct (Hk Ha) as (H1 & H2 & H3). split; [by apply apart_pumps|done].
Qed.
Lemma finv_recv fr c : kept_by RecvPump.inner_fd (handles (g_recv (c_glob c))) (handles (fr (g_recv (c_glob c)))) →
  finv c → finv (upd_cglob (upd_recv fr) c).
Proof.
  intros Hk Hf. pose proof (leaves_rel inner) as Hrel. apply (finv_pumps fr (λ m, m) (c_kern c) c); [|done].
  intros _. split_and!; [done|reflexivity|apply kr_preorder].
Qed.

Lemma finv_reader_step c : cinv fd h app inner c → finv c → finv (reader_step inner c).
Proof.
  intros Hc Hf. unfold reader_step. pose proof (leaves_rel inner) as Hrel.
  assert (∀ f, finv (upd_reg f c)) as Hreg by (intros f; apply (finv_same c); [by apply (piping_same c), Hf|done..]).
  destruct (rpos c) as [|x|x e|x q a|x| | | | | |] eqn:Hr; try done.
  - apply finv_rgoto; [simpl; by rewrite Hr|by intros y q a [=]|apply Hreg].
  - apply finv_rgoto; [simpl; by rewrite Hr|by intros y q a [=]|apply Hreg].
  - by apply finv_reader_resolve.
  - apply finv_rgoto; [simpl; by rewrite Hr|done|]. apply finv_recv; [|done]. by apply kept_by_alter.
  - apply finv_rgoto; [simpl; by rewrite Hr|done|]. apply (finv_same c); [by apply (piping_same c), Hf|done..].
  - apply finv_rgoto; [simpl; by rewrite Hr|done|apply Hreg].
  - apply finv_rgoto; [by rewrite Hr| |done]. intros y q a. apply next_gate_take.
  - apply finv_rgoto; [simpl; by rewrite Hr|done|]. apply finv_recv; [|done]. by apply kept_by_fmap.
  - destruct (dgram_shutdown_all (g_dgram (c_glob c)) (c_kern c)) as [st k] eqn:Hd.
    apply finv_rgoto; [simpl; by rewrite Hr|done|].
    apply (finv_pumps (λ r, r) (λ _, st) k c); [|done]. intros Ha. split; [reflexivity|].
    pose proof (shutdown_entries_keeps (leaves inner) (leads_away inner) (map_to_list (g_dgram (c_glob c)))
      (g_dgram (c_glob c)) (c_kern c) (ap_dgram _ Ha)) as Hs. unfold dgram_shutdown_all in Hd. rewrite Hd in Hs.
    apply Hs; [|apply NoDup_fst_map_to_list]. intros y e Hin%elem_of_map_to_list. by exists e.
Qed.

Lemma finv_cgoto p' c : (filling (cpos c) = true → filling p' = true) → (past (cpos c) = true → past p' = true) →
  (filled (cpos c) = true → filled p' = true) → (∀ q, cpos c = CResolve q → q = RTake) →
  (∀ q, p' = CResolve q → q = RTake) → finv c → finv (cgoto p' c).
Proof.
  intros H1 H2 H3 H4 H5 [P1 P2 P3]. split; [by apply (piping_same c)|by eapply placed_caller|].
  split; [|apply P3]. intros q i Hq Hi. simpl in Hq. apply H5 in Hq as ->. done.
Qed.

Lemma finv_caller_resolve q c : finv c → cpos c = CResolve q →
  finv (match rs_step inner h q c with (Some q, c) => cgoto (CResolve q) c | (None, c) => cgoto CProgress c end).
Proof.
  intros [P1 P2 P3] Hp.
  pose proof (piping_rs h q c ltac:(intros i Hi; by rewrite (proj1 P3 q i Hp Hi)) P1) as Hs.
  pose proof (rs_step_same h inner h q c) as Ht. destruct (rs_step inner h q c) as [o c'].
  destruct Hs as (H1 & H2 & H3 & H4 & H5 & H6 & H7), Ht as (H0 & T1 & T2 & T3 & T4 & T5).
  rewrite Hp in P2. destruct P2 as [Q1 Q2 Q3 Q4 Q5].
  assert (has_filler (piped c') → g_gates (c_glob c) !! h = Some inner ∧ q = RTake ∨
    gated h c' = Some inner ∨ q = RDrain inner ∨ ∃ a, rpos c = RResolve h (RDrain inner) a) as Hfl.
  { intros Hf. destruct (Q1 (H2 Hf)) as [?|[Hg|[[= ->]|?]]]; [done| |by right; right; left|by right; right; right].
    destruct (decide (q = RTake)) as [->|Hq]; [by left|right; left]. rewrite T5. by rewrite decide_False by (by intros [_ ?]). }
  assert (∀ p', (has_filler (piped c') → gated h c' = Some inner ∨ draining p' (rpos c)) → past p' = true →
    (∀ i, p' = CResolve (ROut i) → ¬ has_filler (piped c')) → (∀ q i, p' = CResolve q → rs_fd q = Some i → i = inner) →
    finv (cgoto p' c')) as Hdone.
  { intros p' Hd Hpa Hno Hrd. split; [by apply (piping_same c')| |].
    - cbn [cpos rpos cgoto piped]. change (gated h (cgoto _ c')) with (gated h c'). rewrite T2.
      change (c_glob (cgoto _ c')) with (c_glob c'). split.
      + intros Hf. right. by apply Hd.
      + intros Ho. split; [destruct p'; done|]. apply H7 in Ho as [Ho|(_ & _ & i & ->)]; [destruct (Q2 Ho); auto|].
        specialize (Q5 i eq_refl). auto.
      + done.
      + intros i a Hr. specialize (Q4 i a Hr). auto.
      + done.
    - split; [exact Hrd|]. simpl. rewrite T2. apply P3. }
  destruct o as [q'|]; apply Hdone; try done.
  - intros Hf. destruct (Hfl Hf) as [[Hg ->]|[?|[->|?]]]; [|by left| |by right; right].
    + destruct (H6 eq_refl) as (_ & i & [= ->]); [done|]. right; left. by rewrite (proj1 (H3 _ i eq_refl eq_refl) eq_refl).
    + destruct q' as [|i|i]; [done| |by destruct (H4 i eq_refl eq_refl)].
      right; left. by rewrite (proj1 (H3 _ i eq_refl eq_refl) eq_refl).
  - intros i [= ->]. exact (H4 i eq_refl eq_refl).
  - intros q0 i [= <-] Hi. by apply (proj1 (H3 q' i eq_refl Hi)).
  - intros Hf. assert (∀ i, q ≠ RDrain i) as Hnd by (intros i ->; by destruct (H5 eq_refl) as [[? _]|[? ?]]).
    destruct (Hfl Hf) as [[Hg ->]|[?|[->|?]]]; [|by left|by destruct (Hnd inner)|by right; right].
    destruct (H5 eq_refl) as [[_ Hn]|[? ?]]; [congruence|done].
Qed.

Lemma finv_sys f c : sk (f (csys c)) = sk (csys c) → finv c → finv (upd_csys f c).
Proof.
  intros Hsk Hf. assert (c_glob (upd_csys f c) = c_glob c) as Hg by done.
  apply (finv_same c); try done; [by apply (piping_same c), Hf|unfold gated; by rewrite Hg|by rewrite Hg].
Qed.

(** The caller's own registrations: nothing else has the descriptor. *)
Lemma finv_register c : finv c → finv (upd_cglob (upd_recv (register h inner)) c).
Proof.
  intros Hf. apply (finv_same c); try done. pose proof (fi_piping _ Hf) as [[A1 A2 A3 A4 A5 A6] P2 P3 P4].
  split; try done. split; try done. simpl. intros x e [[_ <-]|[_ He]]%lookup_insert_Some; [done|by eapply A1].
Qed.
Lemma piping_gate c : piping c → piping (upd_cglob (upd_gates (<[h := inner]>)) c).
Proof.
  intros [[A1 A2 A3 A4 A5 A6] P2 P3 P4]. split; try done. split; try done. simpl.
  intros x i [[<- <-]|[_ He]]%lookup_insert_Some; [done|by eapply A3].
Qed.
Lemma piping_out c : piping c → piping (upd_cglob (out_register h inner) c).
Proof.
  intros [[A1 A2 A3 A4 A5 A6] P2 P3 P4]. split; try done. split; try done. simpl. change (sk (csys c)) with (c_glob c).
  intros x i. destruct (g_out (c_glob c) !! h) eqn:Ho; [apply A4|].
  intros [[<- <-]|[_ He]]%lookup_insert_Some; [done|by eapply A4].
Qed.

(** A blocking connect has put nothing there. *)
Lemma blocking_clean c : cinv fd h app inner c → finv c → past (cpos c) = false → filling (cpos c) = false →
  ¬ has_filler (piped c).
Proof.
  intros [_ Hl] [_ [Q1 _ Q3 _ _] _] Hp Hfi Hf. destruct (Q1 Hf) as [?|[Hg|[Hd|[a Ha]]]]; [congruence| | |].
  - rewrite (li_before _ _ _ _ _ _ _ Hl Hp) in Hg. done.
  - by rewrite Hd in Hp.
  - pose proof (Q3 _ _ Ha ltac:(done)). congruence.
Qed.

Lemma finv_fill n k c : cinv fd h app inner c → finv c → cpos c = CFill app inner →
  ksend app (replicate 1024 0) (c_kern c) = (Ok (S n), k) → finv (put true (replicate (S n) 0) (set_c_kern k c)).
Proof.
  intros [_ Hl] [P1 [Q1 Q2 Q3 Q4 Q5] P3] Hp Hk. assert (replicate 1024 0 ≠ []) as Hne by done.
  assert (replicate (S n) 0 = take (S n) (replicate 1024 0)) as ->.
  { destruct (ksend_ok _ _ _ _ _ Hne Hk) as (Hn & _). rewrite length_replicate in Hn.
    rewrite take_replicate. f_equal. lia. }
  split; [exact (piping_put true _ _ _ c Hne Hk P1)| |done]. cbn [put set_c_kern upd_cglob upd_csys cpos rpos].
  change (gated h (put true _ _)) with (gated h c). change (g_out (c_glob (put true _ _))) with (g_out (c_glob c)).
  rewrite Hp in *. split; try done.
  - by left.
  - by intros [? _]%Q2.
  - intros i a Hr. by pose proof (Q3 _ _ Hr ltac:(done)).
Qed.

Lemma finv_kern k c : leaves inner (c_kern c) k → finv c → finv (set_c_kern k c).
Proof. intros Hk Hf. apply (finv_same c); try done. by apply piping_kern, Hf. Qed.

Lemma send_err_leaves fd' d k e k' : ksend fd' d k = (Err e, k') → leaves inner k k'.
Proof. intros Hk. destruct (ksend_err _ _ _ _ _ Hk) as (_ & Hu & Hs & _). split; [done|]. intros x. apply Hs. Qed.

Lemma finv_stored c : cinv fd h app inner c → finv c → cpos c = CGate inner →
  finv (cgoto CRecheck (upd_cglob (upd_gates (<[h := inner]>)) c)).
Proof.
  intros [_ Hl] [P1 [Q1 Q2 Q3 Q4 Q5] P3] Hp. rewrite Hp in *. split; [|..|split; [done|apply P3]].
  - apply (piping_same (upd_cglob (upd_gates (<[h := inner]>)) c)); [done..|by apply piping_gate].
  - split; try done.
    + intros _. right; left. apply lookup_insert_eq.
    + by intros [? _]%Q2.
Qed.

Lemma finv_up c : cinv fd h app inner c → finv c → cpos c = COut inner →
  finv (cgoto (CReturned (Ok tt)) (upd_cglob (out_register h inner) c)).
Proof.
  intros Hc Hf Hp. pose proof (blocking_clean c Hc Hf) as Hn. rewrite Hp in Hn.
  destruct Hf as [P1 [Q1 Q2 Q3 Q4 Q5] P3]. rewrite Hp in *. split; [|..|split; [done|apply P3]].
  - apply (piping_same (upd_cglob (out_register h inner) c)); [done..|by apply piping_out].
  - split; try done.
    + intros Hfi. by destruct (Hn eq_refl eq_refl).
    + intros _. split; [done|]. by apply Hn.
Qed.

Lemma finv_caller_step c : cinv fd h app inner c → finv c → finv (caller_step fd h rem dg inner c).
Proof.
  intros Hc Hf. pose proof Hc as [(s & Hs & _) Hl]. unfold caller_step.
  assert (∀ q, cpos c = q → knows app inner q) as Hk by (intros q <-; apply Hl).
  assert (∀ p', past (cpos c) = false → filling (cpos c) = false → filled (cpos c) = false →
    (∀ q, p' ≠ CResolve q) → finv (cgoto p' c)) as Hgo.
  { intros p' H1 H2 H3 H4. apply finv_cgoto; try congruence. intros q Hq. by rewrite Hq in H1. }
  destruct (cpos c) as [|a i|a i|a i|a i|i| |q| |i|i|r] eqn:Hp; try done; specialize (Hk _ eq_refl); simpl in Hk.
  - rewrite Hs. apply (finv_same (cgoto (CStored (State.app_fd s) (State.inner_fd s)) c)); try done;
      [by apply (piping_same c), Hf|by apply Hgo].
  - destruct Hk as [-> ->]. apply (finv_register (cgoto (CWired app inner) c)). by apply Hgo.
  - apply Hgo; [done..|]. by destruct (knonblock _ _).
  - apply (finv_kern (ksndbuf a 1024 (c_kern c)) (cgoto (CFill a i) c)); [|by apply Hgo].
    destruct (ksndbuf_ok a 1024 (c_kern c)) as (_ & Hu & Hpp). split; [done|]. intros x. apply Hpp.
  - destruct Hk as [-> ->]. assert (replicate 1024 0 ≠ []) as Hne by done.
    destruct (ksend app (replicate 1024 0) (c_kern c)) as [[[|n]|e] k] eqn:Hks.
    + destruct (ksend_ok _ _ _ _ _ Hne Hks) as [Hn _]. lia.
    + by apply finv_fill.
    + apply finv_cgoto; simpl; rewrite ?Hp; try done. apply finv_kern; [by eapply send_err_leaves|done].
  - subst i. by apply finv_stored.
  - destruct (connect_result h (csys c)); apply finv_cgoto; rewrite ?Hp; try done; naive_solver.
  - by apply finv_caller_resolve.
  - destruct (conn_ready h (cl (csys c))) as [[[[]|e] ?]|]; [by apply Hgo..|done].
  - subst i. by apply finv_up.
Qed.

Lemma finv_timer c : finv c → finv (timer h c).
Proof.
  intros Hf. unfold timer. destruct (cpos c) as [| | | | | | | | |i| |] eqn:Hp; try done.
  destruct (conn_expired h (cl (csys c))) as [[[[]|e] ?]|]; apply finv_cgoto;
    rewrite ?Hp; try done; by intros ? [=].
Qed.

(** A frame that takes one lock only: what its push does behind the sink. *)
Lemma finv_push x d c : finv c → finv (upd_csys (upd_sk (on_recv x d)) c).
Proof.
  intros Hf. pose proof (leaves_rel inner) as Hrel.
  pose proof (λ Ha, push_keeps (leaves inner) (leads_away inner) x d (g_recv (c_glob c)) (c_kern c) (ap_recv (c_glob c) Ha)) as Hs.
  assert (upd_csys (upd_sk (on_recv x d)) c =
    upd_cglob (λ g, upd_kern (λ _, snd (push x d (g_recv (c_glob c)) (c_kern c)))
      (upd_dgram (λ m, m) (upd_recv (λ _, fst (push x d (g_recv (c_glob c)) (c_kern c))) g))) c) as ->.
  { unfold upd_cglob, upd_csys, upd_sk. simpl. change (sk (csys c)) with (c_glob c).
    change (g_kern (c_glob c)) with (c_kern c). by destruct (push x d _ _). }
  apply finv_pumps; [|done]. intros Ha. specialize (Hs Ha). destruct (push x d _ _) as [st k].
  destruct Hs. by split_and!.
Qed.
Lemma finv_dgram_push x a b d c : finv c → finv (upd_csys (upd_sk (on_dgram x a b d)) c).
Proof.
  intros Hf. pose proof (leaves_rel inner) as Hrel.
  pose proof (λ Ha, dgram_push_keeps (leaves inner) (leads_away inner) x (mkDatagram a d) (g_dgram (c_glob c)) (c_kern c)
    (ap_dgram (c_glob c) Ha)) as Hs.
  assert (upd_csys (upd_sk (on_dgram x a b d)) c =
    upd_cglob (λ g, upd_kern (λ _, snd (dgram_push x (mkDatagram a d) (g_dgram (c_glob c)) (c_kern c)))
      (upd_dgram (λ _, fst (dgram_push x (mkDatagram a d) (g_dgram (c_glob c)) (c_kern c)))
        (upd_recv (λ r, r) g))) c) as ->.
  { unfold upd_cglob, upd_csys, upd_sk. simpl. change (sk (csys c)) with (c_glob c).
    change (g_kern (c_glob c)) with (c_kern c). by destruct (dgram_push _ _ _ _). }
  apply finv_pumps; [|done]. intros Ha. specialize (Hs Ha). destruct (dgram_push _ _ _ _) as [st k].
  destruct Hs. by split_and!.
Qed.

Lemma quiet_dispatch f (st : sys (S := glob (K := K))) : link_event f = None →
  sk (dispatch_push f st) = sk st ∨ (∃ x d, sk (dispatch_push f st) = on_recv x d (sk st)) ∨
  ∃ x a b d, sk (dispatch_push f st) = on_dgram x a b d (sk st).
Proof.
  intros Hle. unfold link_event in Hle. unfold dispatch_push.
  destruct (Messages.handle f) as [x|] eqn:Hh; [|left; by repeat case_decide].
  destruct (decide (typ f = lit "recv")) as [Ht|Ht].
  { right. destruct (is_dgram_recv f); [right; by do 4 eexists|left; by do 2 eexists]. }
  left. destruct (decide (typ f = lit "accept")) as [Ha|Ha]; [by destruct (child f)|].
  destruct (decide (typ f = lit "status")) as [Hs|Hs]; [|by case_decide].
  case_match eqn:Hz; [|done]. cbn [negb upd_sk sk on_status InterposeSink]. by rewrite Hz.
Qed.

Lemma finv_frame_in bytes c : finv c → finv (frame_in bytes c).
Proof.
  intros Hf. unfold frame_in. destruct (rpos c) eqn:Hr; try done. destruct (parse bytes) as [f|] eqn:Hp; [|done].
  destruct (is_reply f (csys c)) eqn:Hi.
  { apply finv_sys; [|done]. by destruct (is_reply_frame f bytes (csys c) Hp Hi). }
  destruct (link_event f) as [p|] eqn:Hl.
  - apply finv_rgoto; [by rewrite Hr| |done]. unfold link_event in Hl. destruct (Messages.handle f); [|done].
    intros y q a ->. case_decide; [case_match; by simplify_eq|case_decide; by simplify_eq].
  - assert (∀ F, sk (dispatch_push f (csys c)) = F (sk (csys c)) → finv (upd_csys (upd_sk F) c) →
      finv (upd_csys (dispatch_push f) c)) as Hext.
    { intros F HF Hff. assert (c_glob (upd_csys (dispatch_push f) c) = c_glob (upd_csys (upd_sk F) c)) as Hg by done.
      apply (finv_same (upd_csys (upd_sk F) c)); try done; [|unfold gated; by rewrite Hg|by rewrite Hg].
      by apply (piping_same (upd_csys (upd_sk F) c)), Hff. }
    destruct (quiet_dispatch f (csys c) Hl) as [Hs|[(x & d & Hs)|(x & a & b & d & Hs)]].
    + by apply finv_sys.
    + apply (Hext _ Hs). by apply finv_push.
    + apply (Hext _ Hs). by apply finv_dgram_push.
Qed.

Definition cact_ok (a : cact (K := K)) c : Prop :=
  match a with ABypass d => d ≠ [] | AEnv k => leaves inner (c_kern c) k | _ => True end.
Variable front_len : list Z → nat.
Fixpoint cacts_ok (acts : list (cact (K := K))) c : Prop :=
  match acts with
  | [] => True
  | a :: acts => cact_ok a c ∧ cacts_ok acts (cact_step front_len fd h rem dg app inner a c)
  end.

Lemma filler_false l (d : list Z) : has_filler (l ++ ((λ x, (x, false)) <$> d)) → has_filler l.
Proof.
  intros [b [Hb|(x & [=] & _)%list_elem_of_fmap]%elem_of_app]. by exists b.
Qed.

Lemma finv_step a c : cact_ok a c → cinv fd h app inner c → finv c →
  finv (cact_step front_len fd h rem dg app inner a c).
Proof.
  intros Ha Hc Hf. pose proof (leaves_rel inner) as Hrel. destruct a as [| | |bytes| |x| |d|x|k]; simpl.
  - by apply finv_caller_step.
  - by apply finv_timer.
  - by apply finv_reader_step.
  - by apply finv_frame_in.
  - unfold end_in. destruct (rpos c) eqn:Hr; try done. apply finv_rgoto; [simpl; by rewrite Hr|done|by apply finv_sys].
  - unfold pump_out. destruct (g_out (c_glob c) !! x) as [i|] eqn:Ho; [|done].
    assert (true = true → i = inner → ¬ has_filler (piped c)) as Hno.
    { intros _ Hi. apply (ap_out _ (pi_apart _ (fi_piping _ Hf)) x i) in Hi as ->; [|done].
      apply (pl_out _ _ _ _ _ (fi_placed _ Hf)). by rewrite Ho. }
    pose proof (piping_read true i 4096 c ltac:(lia) Hno (fi_piping _ Hf)) as Hp.
    pose proof (read_fd_same h inner true i 4096 c) as Hs.
    destruct (read_fd inner true i 4096 c) as [r c']. destruct Hp as (H1 & H2 & _), Hs as (S1 & S2 & _ & _ & S5 & S6 & _).
    cbn [snd]. apply (finv_same c); try done; [unfold gated; by rewrite S5|by rewrite S6].
  - pose proof (λ Hok, flusher_round_keeps (leaves inner) (leads_away inner) front_len
      (g_recv (c_glob c)) (c_kern c) Hok) as Hk.
    assert (upd_cglob (flusher front_len) c =
      upd_cglob (λ g, upd_kern (λ _, snd (flusher_round front_len (g_recv (c_glob c)) (c_kern c)))
        (upd_dgram (λ m, m) (upd_recv (λ _, fst (flusher_round front_len (g_recv (c_glob c)) (c_kern c))) g))) c) as ->.
    { unfold upd_cglob, upd_csys, upd_sk, flusher. simpl. change (sk (csys c)) with (c_glob c).
      change (g_kern (c_glob c)) with (c_kern c). by destruct (flusher_round _ _ _). }
    apply finv_pumps; [|done]. intros Hap. specialize (Hk (ap_recv _ Hap)).
    destruct (flusher_round _ _ _) as [st k]. destruct Hk. by split_and!.
  - unfold bypass_in. destruct (ksend app d (c_kern c)) as [[n|e] k] eqn:Hs.
    + apply (finv_same c); try done; [by apply piping_put, Hf|apply filler_false].
    + apply finv_kern; [by eapply send_err_leaves|done].
  - apply finv_sys; [|done]. unfold take_connect_error. by destruct (ConnRegistry.take_error _ _).
  - by apply finv_kern.
Qed.

Lemma both_run acts c : cacts_ok acts c → cinv fd h app inner c → finv c →
  cinv fd h app inner (cact_run front_len fd h rem dg app inner acts c) ∧
  finv (cact_run front_len fd h rem dg app inner acts c).
Proof.
  revert c. induction acts as [|a acts IH]; intros c Hok Hc Hf; [done|]. destruct Hok as [Ha Hok].
  apply IH; [done|by apply cinv_step|by apply finv_step].
Qed.

(** * The theorems *)

(** A connect whose handle has just been armed: its socket is new to the pumps,
    nothing is in its socketpair and the reader is between frames. *)
Record armed c : Prop := {
  ar_entry : entry_ok fd app inner (c_fds c);
  ar_caller : cpos c = CArmed;
  ar_reader : rpos c = RIdle;
  ar_link : link h c ≠ None;
  ar_apart : apart (c_glob c);
  ar_gate : gated h c = None;
  ar_out : g_out (c_glob c) !! h = None;
  ar_empty : unread (c_kern c) inner = [];
  ar_ghost : piped c = [] ∧ sent c = [] ∧ taken c = [] }.

Lemma armed_cinv c : armed c → cinv fd h app inner c.
Proof.
  intros [A1 A2 A3 A4 A5 A6 A7 A8 A9]. split; [done|]. rewrite A2, A3, A6. split; try done.
Qed.
Lemma armed_finv c : armed c → finv c.
Proof.
  intros [A1 A2 A3 A4 A5 A6 A7 A8 (P1 & P2 & P3)]. split; [split|..]; rewrite ?P1, ?P2, ?P3, ?A2, ?A3, ?A6, ?A7; try done.
  - intros b Hb. by apply elem_of_nil in Hb.
  - split; try done. intros [b Hb]. by apply elem_of_nil in Hb.
Qed.

(** C7: a non-blocking connect whose handle is armed, on a socket that is new to the
    pumps, against the reader and everything else, in any order: once the call has returned and the reader is
    between frames, the gate is closed exactly while the link is pending, and no
    filler is left when it is not; it is closed while the link is pending whatever
    the reader is at; and closed with the link decided only while one of the two is
    about to take it away. *)
Theorem connect_gate_settled acts c : armed c → cacts_ok acts c →
  let c' := cact_run front_len fd h rem dg app inner acts c in
  (cpos c' = CProgress → rpos c' = RIdle ∨ rpos c' = REnded →
   gated h c' = (if decide (link h c' = Some Pending) then Some inner else None) ∧
   (link h c' ≠ Some Pending → ¬ has_filler (piped c'))) ∧
  (cpos c' = CProgress → link h c' = Some Pending → gated h c' = Some inner) ∧
  (∀ i, gated h c' = Some i → link h c' ≠ Some Pending →
   will h (rpos c') ∨ cpos c' = CRecheck ∨ cpos c' = CResolve RTake).
Proof.
  intros Ha Hok c'. destruct (both_run acts c Hok (armed_cinv c Ha) (armed_finv c Ha)) as [[_ Hl] Hf].
  fold c' in Hl, Hf. destruct Hl as [L1 L2 L3 L4 L5 L6 L7].
  assert (cpos c' = CProgress → link h c' = Some Pending → gated h c' = Some inner) as Hgate.
  { intros Hp Hpe. rewrite Hp in L5. destruct (gated h c') as [i|] eqn:Hg.
    - by destruct (L4 i eq_refl) as [-> _].
    - by apply L5 in Hpe. }
  split_and!; [|done|].
  - intros Hp Hr. assert (link h c' ≠ Some Pending → gated h c' = None) as Hno.
    { intros Hn. destruct (gated h c') as [i|] eqn:Hg; [|done]. exfalso. rewrite Hp in L4.
      destruct (L4 i eq_refl) as (_ & [?|[Hw|[?|?]]]); try done. by destruct Hr as [Hr|Hr]; rewrite Hr in Hw. }
    split; [case_decide; auto|]. intros Hn Hfi. apply (pl_filler _ _ _ _ _ (fi_placed _ Hf)) in Hfi.
    rewrite Hp, Hno in Hfi by done. destruct Hfi as [?|[?|[?|[a Hd]]]]; try done.
    destruct Hr as [Hr|Hr]; congruence.
  - intros i Hi Hn. destruct (L4 i Hi) as (_ & [?|?]); done.
Qed.

(** What the application wrote past the calls, of what was put into the
    socketpair; what the outbound pump took. *)
Definition by_app (l : list (Z * bool)) : list Z := l ≫= λ x : Z * bool, if snd x then [] else [fst x].
Definition pumped (l : list (bool * (Z * bool))) : list Z := l ≫= λ x : bool * (Z * bool), if fst x then [fst (snd x)] else [].

Lemma pumped_by_app l : (∀ b, (true, (b, true)) ∉ l) → pumped l `sublist_of` by_app (snd <$> l).
Proof.
  induction l as [|[f [b fl]] l IH]; intros Hl; [done|]. csimpl.
  assert (pumped l `sublist_of` by_app (snd <$> l)) as Hs.
  { apply IH. intros b' Hb. apply (Hl b'). by right. }
  destruct f, fl; simpl; [|by apply sublist_skip|done|by apply sublist_cons].
  destruct (Hl b). by left.
Qed.

(** C9: on a socket that is new to the pumps, no other handle's entry being for its
    descriptors as one left by an earlier connect of it is, whatever the order of
    the steps: what the outbound pump takes from the socketpair for the engine is
    what the application wrote past the calls, in the order it wrote it; the gate's
    filler is not forwarded, and none is in the socketpair once the handle is
    registered for forwarding.  On a socket connected before it may be forwarded:
    [reconnect_gate_forwarded]. *)
Theorem filler_confined acts c : armed c → cacts_ok acts c →
  let c' := cact_run front_len fd h rem dg app inner acts c in
  pumped (taken c') `sublist_of` by_app (sent c') ∧
  (g_out (c_glob c') !! h ≠ None → ∀ b, (b, true) ∉ piped c') ∧
  fst <$> piped c' = unread (c_kern c') inner.
Proof.
  intros Ha Hok c'. destruct (both_run acts c Hok (armed_cinv c Ha) (armed_finv c Ha)) as [_ [[_ P2 P3 P4] Q _]].
  fold c' in P2, P3, P4, Q. split_and!; [| |done].
  - rewrite P3. unfold by_app. rewrite bind_app. apply sublist_inserts_r. by apply pumped_by_app.
  - intros Ho b Hb. apply (pl_out _ _ _ _ _ Q) in Ho as [_ Hn]. apply Hn. by exists b.
Qed.

(** A read of the library's end, as far as its notes go. *)
Lemma read_own fwd n c r c1 : (0 < n)%nat → fst <$> piped c = unread (c_kern c) inner →
  read_fd inner fwd inner n c = (r, c1) →
  sent c1 = sent c ∧ fst <$> piped c1 = unread (c_kern c1) inner ∧
  ∃ n1, piped c1 = drop n1 (piped c) ∧ taken c1 = taken c ++ (pair fwd <$> take n1 (piped c)) ∧
    match r with Ok (_ :: _) => (0 < n1)%nat ∧ piped c ≠ [] | _ => piped c = [] end.
Proof.
  intros Hn Hp. unfold read_fd. destruct (krecv inner n (c_kern c)) as [r0 k] eqn:Hk. intros [= -> <-].
  unfold note_read. rewrite decide_True by done. split; [done|]. destruct r as [b|e].
  - destruct (krecv_ok _ _ _ _ _ Hn Hk) as (_ & Hu & Hb & _). split.
    + change (fst <$> drop (List.length b) (piped c) = unread k inner). rewrite fmap_drop, Hp, Hu. apply drop_app_length.
    + exists (List.length b). split_and!; [done..|]. destruct b as [|x b].
      * rewrite Hb in Hp by done. by apply fmap_nil_inv in Hp.
      * split; [simpl; lia|]. intros Hn0. by rewrite Hn0, Hu in Hp.
  - destruct (krecv_err _ _ _ _ _ Hn Hk) as (Hu & Hu' & _). rewrite Hu in Hp. apply fmap_nil_inv in Hp.
    split; [change (fst <$> drop 0 (piped c) = unread k inner); by rewrite Hp, Hu', Hu|]. by exists O.
Qed.

(** ** The reader, draining *)
Lemma run_reader m c : cact_run front_len fd h rem dg app inner (replicate m AReader) c = Nat.iter m (reader_step inner) c.
Proof. revert c. induction m as [|m IH]; intros c; [done|]. rewrite Nat.iter_succ_r. apply IH. Qed.

Lemma reader_drains a c : piping c → rpos c = RResolve h (RDrain inner) a →
  ∃ m, let c' := Nat.iter m (reader_step inner) c in
  piping c' ∧ rpos c' = RResolve h (ROut inner) a ∧ piped c' = [] ∧ sent c' = sent c ∧
  taken c' = taken c ++ (pair false <$> piped c).
Proof.
  remember (List.length (piped c)) as n eqn:Hn. revert c Hn.
  induction n as [n IH] using lt_wf_ind. intros c Hn Hp Hr.
  pose proof (piping_read false inner 1024 c ltac:(lia) ltac:(done) Hp) as Hd.
  destruct (read_fd inner false inner 1024 c) as [r c1] eqn:Hrd. destruct Hd as (Hp1 & _ & _).
  destruct (read_own _ _ _ _ _ (Nat.lt_0_succ _) (pi_piped _ Hp) Hrd) as (Hs1 & _ & n1 & Hq1 & Ht1 & Hn1).
  assert (reader_step inner c = match r with Ok (_ :: _) => rgoto (RResolve h (RDrain inner) a) c1 | _ => rgoto (RResolve h (ROut inner) a) c1 end) as Hst.
  { unfold reader_step. rewrite Hr. simpl. rewrite Hrd. by destruct r as [[|]|]. }
  destruct (match r with Ok (_ :: _) => true | _ => false end) eqn:Hmore.
  - destruct r as [[|b r]|]; try done. destruct Hn1 as [Hpos Hne].
    destruct (IH (List.length (piped c1))) with (c := rgoto (RResolve h (RDrain inner) a) c1) as (m & H0 & H1 & H2 & H3 & H4); try done.
    { rewrite Hq1, length_drop. subst n. destruct (piped c); [done|]. simpl. lia. }
    { by apply (piping_same c1). }
    exists (S m). rewrite Nat.iter_succ_r, Hst. split_and!; [done|done|done|by rewrite H3|].
    rewrite H4. simpl. by rewrite Ht1, Hq1, <- app_assoc, <- fmap_app, take_drop.
  - exists 1%nat. simpl. rewrite Hst. assert (piped c = []) as He1 by (by destruct r as [[|]|]).
    rewrite He1, take_nil, drop_nil in *. assert (∀ q, piping (rgoto q c1)) as Hp2 by (intros q; by apply (piping_same c1)).
    by destruct r as [[|]|].
Qed.

(** What the application writes past the calls while the reader drains the gate
    of its connect, when the link is up and the descriptor writable again, is
    drained with the filler: it was accepted, the reader finishes, the handle is
    registered, and the bytes are neither in the socketpair nor with the pump. *)
Theorem drain_discards acts a d n k c : armed c → cacts_ok acts c → d ≠ [] →
  let c1 := cact_run front_len fd h rem dg app inner acts c in
  rpos c1 = RResolve h (RDrain inner) a → ksend app d (c_kern c1) = (Ok n, k) →
  ∃ m, let c2 := cact_run front_len fd h rem dg app inner (ABypass d :: replicate m AReader) c1 in
  by_app (sent c2) = by_app (sent c1) ++ take n d ∧ (0 < n)%nat ∧
  pumped (taken c2) = pumped (taken c1) ∧ unread (c_kern c2) inner = [] ∧
  is_Some (g_out (c_glob c2) !! h).
Proof.
  intros Ha Hok Hd c1 Hr Hk.
  destruct (both_run acts c Hok (armed_cinv c Ha) (armed_finv c Ha)) as [_ [Hp _ _]]. fold c1 in Hp.
  destruct (ksend_ok _ _ _ _ _ Hd Hk) as [Hn _]. pose proof (piping_put false d n k c1 Hd Hk Hp) as Hp1.
  destruct (reader_drains a _ Hp1 Hr) as (m & H0 & H1 & H2 & H3 & H4). exists (m + 1)%nat.
  assert (cact_run front_len fd h rem dg app inner (ABypass d :: replicate (m + 1) AReader) c1 =
    reader_step inner (Nat.iter m (reader_step inner) (put false (take n d) (set_c_kern k c1)))) as ->.
  { rewrite replicate_add, app_comm_cons. unfold cact_run. rewrite foldl_app. simpl. unfold bypass_in. rewrite Hk.
    f_equal. apply (run_reader m). }
  set (c2 := Nat.iter m (reader_step inner) _) in *.
  assert (reader_step inner c2 = rgoto (resolved h a) (upd_cglob (out_register h inner) c2)) as ->.
  { unfold reader_step. by rewrite H1. }
  pose proof H0 as [_ P2 _ _]. rewrite H2 in P2. cbn [sent taken rgoto upd_cglob upd_csys].
  rewrite H3, H4. unfold by_app, pumped. simpl. rewrite !bind_app. split_and!.
  - f_equal. generalize (take n d). intros l. induction l as [|x l IH]; [done|]. csimpl. by rewrite IH.
  - lia.
  - rewrite <- (app_nil_r (_ ≫= _)) at 2. f_equal. generalize (piped c1 ++ ((λ x, (x, false)) <$> take n d)).
    intros l. induction l as [|x l IH]; [done|]. exact IH.
  - symmetry. exact P2.
  - simpl. change (sk (csys c2)) with (c_glob c2). destruct (g_out (c_glob c2) !! h) eqn:Ho; [by rewrite Ho|].
    by rewrite lookup_insert_eq.
Qed.

Lemma pump_drains x c : fst <$> piped c = unread (c_kern c) inner → g_out (c_glob c) !! x = Some inner →
  ∃ m, let c' := cact_run front_len fd h rem dg app inner (replicate m (APump x)) c in
  [] = unread (c_kern c') inner ∧ taken c' = taken c ++ (pair true <$> piped c) ∧
  gated h c' = gated h c ∧ link h c' = link h c.
Proof.
  remember (List.length (piped c)) as n eqn:Hn. revert c Hn.
  induction n as [n IH] using lt_wf_ind. intros c Hn Hp Ho.
  destruct (decide (piped c = [])) as [He|He].
  { exists O. rewrite He in *. split_and!; [done| |done..]. simpl. by rewrite app_nil_r. }
  destruct (read_fd inner true inner 4096 c) as [r c1] eqn:Hr.
  destruct (read_own _ _ _ _ _ (Nat.lt_0_succ _) Hp Hr) as (_ & Hp1 & n1 & Hq & Ht & Hn1).
  pose proof (read_fd_same h inner true inner 4096 c) as Hs. rewrite Hr in Hs.
  destruct Hs as (_ & _ & _ & S4 & S5 & S6 & _).
  destruct (IH (List.length (piped c1))) with (c := c1) as (m & H1 & H2 & H3 & H4); [|done|done|by rewrite S6|].
  { destruct r as [[|y b]|]; [by destruct He|destruct Hn1 as [Hpos _]|by destruct He].
    rewrite Hq, length_drop. subst n. destruct (piped c); [done|]. simpl. lia. }
  exists (S m). change (replicate (S m) (APump x)) with ([APump x] ++ replicate m (APump (K := K) x)).
  unfold cact_run. rewrite foldl_app. simpl. unfold pump_out. rewrite Ho, Hr. cbn [snd].
  unfold cact_run in H1, H2, H3, H4. split_and!; [done| |by rewrite H3; unfold gated; rewrite S5|by rewrite H4].
  by rewrite H2, Ht, Hq, <- app_assoc, <- fmap_app, take_drop.
Qed.

(** When another handle is registered for the descriptor, as after an earlier
    connect on it, even one that was refused, the outbound pump forwards the filler
    of the gate to that handle, and goes on until nothing of it is left: the
    descriptor is writable while its link is pending. *)
Theorem reconnect_gate_forwarded x b c : fst <$> piped c = unread (c_kern c) inner →
  g_out (c_glob c) !! x = Some inner → (b, true) ∈ piped c →
  ∃ m, let c' := cact_run front_len fd h rem dg app inner (replicate m (APump x)) c in
  (true, (b, true)) ∈ taken c' ∧ unread (c_kern c') inner = [] ∧ gated h c' = gated h c ∧ link h c' = link h c.
Proof.
  intros Hp Ho Hb. destruct (pump_drains x c Hp Ho) as (m & H1 & H2 & H3 & H4). exists m.
  split_and!; [|by rewrite <- H1|done|done]. rewrite H2. apply elem_of_app. right. apply list_elem_of_fmap. eauto.
Qed.
End filler.

(** * One thread by itself is the sequential definition. *)
Section solo.
Context `{!SerdeJson} {K : Type} `{!Kernel K, !KernelLaws K}.
Variables (fd h : Z) (rem : str) (dg : list str) (inner : Z).
Implicit Types c : cstate (K := K).

(** Some number of a thread's steps. *)
Definition steps (f : cstate (K := K) → cstate (K := K)) c c' : Prop := ∃ m, c' = Nat.iter m f c.

#[local] Instance steps_preorder f : PreOrder (steps f).
Proof.
  split; [intros c; by exists O|]. intros c1 c2 c3 [m ->] [n ->]. exists (n + m)%nat.
  by rewrite Nat.iter_add.
Qed.
Lemma steps_one f c : steps f c (f c).
Proof. by exists 1%nat. Qed.
Lemma steps_to f c c1 c2 : f c = c1 → steps f c1 c2 → steps f c c2.
Proof. intros <-. intros H2. etrans; [apply steps_one|done]. Qed.

(** The state apart from the notes. *)
Definition stands c (p : cpc) (r : rpc) (m : gmap Z FdState) (st : sys (S := glob (K := K))) : Prop :=
  cpos c = p ∧ rpos c = r ∧ c_fds c = m ∧ csys c = st.

Lemma read_fd_stands b i n c : let '(r, c') := read_fd inner b i n c in
  r = fst (krecv i n (c_kern c)) ∧
  stands c' (cpos c) (rpos c) (c_fds c) (upd_sk (upd_kern (λ _, snd (krecv i n (c_kern c)))) (csys c)).
Proof.
  unfold read_fd. destruct (krecv i n (c_kern c)) as [r k]. split; [done|]. unfold stands.
  destruct (note_read_same inner b i (match r with Ok b => List.length b | Err _ => O end) (set_c_kern k c))
    as (-> & -> & -> & ->). done.
Qed.

(** A thread that takes steps [f] and is at point [q] of [resolve_connect_gate x]
    when [At_ q] holds, and has returned when [Done] does. *)
Section resolving.
Variables (f : cstate (K := K) → cstate (K := K)) (x : Z).
Variables (At_ : rs → sys (S := glob (K := K)) → cstate (K := K) → Prop).
Variables (Done : sys (S := glob (K := K)) → cstate (K := K) → Prop).
Hypothesis at_take : ∀ c st, At_ RTake st c →
  match g_gates (sk st) !! x with
  | Some i => At_ (RDrain i) (upd_sk (upd_gates (delete x)) st) (f c)
  | None => Done st (f c)
  end.
Hypothesis at_drain : ∀ i c st, At_ (RDrain i) st c → let '(r, k) := krecv i 1024 (g_kern (sk st)) in
  At_ (match r with Ok (_ :: _) => RDrain i | _ => ROut i end) (upd_sk (upd_kern (λ _, k)) st) (f c).
Hypothesis at_out : ∀ i c st, At_ (ROut i) st c → Done (upd_sk (out_register x i) st) (f c).

Lemma drain_solo i fuel c st : At_ (RDrain i) st c → (List.length (unread (g_kern (sk st)) i) < fuel)%nat →
  ∃ c', steps f c c' ∧ At_ (ROut i) (upd_sk (upd_kern (drain fuel i)) st) c'.
Proof.
  revert c st. induction fuel as [|fuel IH]; intros c st Hat Hlt; [lia|].
  specialize (at_drain i c st Hat). destruct (krecv i 1024 (g_kern (sk st))) as [r k] eqn:Hk.
  assert (∀ g : glob (K := K), g_kern g = g_kern (sk st) → upd_kern (drain (S fuel) i) g =
    upd_kern (λ _, match r with Ok (_ :: _) => drain fuel i k | _ => k end) g) as Hdr.
  { intros g Hg. unfold upd_kern. rewrite Hg. cbn [drain]. rewrite Hk. by destruct r as [[|]|]. }
  assert (upd_sk (upd_kern (drain (S fuel) i)) st =
    upd_sk (upd_kern (λ _, match r with Ok (_ :: _) => drain fuel i k | _ => k end)) st) as ->.
  { unfold upd_sk. by rewrite Hdr. }
  assert (match r with Ok (_ :: _) => True | _ => False end ∨ match r with Ok (_ :: _) => False | _ => True end) as [Hm|Hm]
    by (destruct r as [[|]|]; auto).
  - destruct r as [[|b r]|]; try done.
    destruct (krecv_ok _ _ _ _ _ (Nat.lt_0_succ _) Hk) as (_ & Hu & _).
    destruct (IH (f c) _ at_drain) as (c' & Hst & Hc'). { simpl. rewrite Hu in Hlt. simpl in Hlt. rewrite length_app in Hlt. lia. }
    exists c'. split; [by eapply steps_to|exact Hc'].
  - exists (f c). split; [apply steps_one|]. by destruct r as [[|]|].
Qed.

Lemma resolve_solo c st : At_ RTake st c → ∃ c', steps f c c' ∧ Done (upd_sk (resolve_connect_gate x) st) c'.
Proof.
  intros Hat. pose proof (at_take c st Hat) as Ht.
  destruct (g_gates (sk st) !! x) as [i|] eqn:Hg.
  - destruct (drain_solo i (S (List.length (unread (g_kern (sk st)) i))) (f c) _ Ht) as (c' & Hst & Hc'); [simpl; lia|].
    exists (f c'). split; [eapply steps_to; [done|]; etrans; [done|apply steps_one]|].
    apply at_out in Hc'. unfold upd_sk in *. simpl in *. unfold resolve_connect_gate. by rewrite Hg.
  - exists (f c). split; [apply steps_one|]. unfold upd_sk, resolve_connect_gate. rewrite Hg. by destruct st.
Qed.
End resolving.

(** ** The reader *)
Lemma rs_stands x q c : let '(o, c') := rs_step inner x q c in
  stands c' (cpos c) (rpos c) (c_fds c) (csys c') ∧
  match q with
  | RTake => csys c' = upd_sk (match g_gates (c_glob c) !! x with Some _ => upd_gates (delete x) | None => λ g, g end) (csys c) ∧
      o = RDrain <$> g_gates (c_glob c) !! x
  | RDrain i => csys c' = upd_sk (upd_kern (λ _, snd (krecv i 1024 (c_kern c)))) (csys c) ∧
      o = Some (match fst (krecv i 1024 (c_kern c)) with Ok (_ :: _) => RDrain i | _ => ROut i end)
  | ROut i => csys c' = upd_sk (out_register x i) (csys c) ∧ o = None
  end.
Proof.
  destruct q as [|i|i]; simpl.
  - destruct (g_gates (c_glob c) !! x); split; try done. split; [|done]. unfold upd_sk. by destruct (csys c).
  - pose proof (read_fd_stands false i 1024 c) as Hr. destruct (read_fd inner false i 1024 c) as [r c'].
    destruct Hr as [-> (H1 & H2 & H3 & H4)].
    destruct (fst (krecv i 1024 (c_kern c))) as [[|b r]|]; (split; [by split_and!|]); by rewrite H4.
  - done.
Qed.

Lemma reader_resolves x a p m c st : stands c p (RResolve x RTake a) m st →
  ∃ c', steps (reader_step inner) c c' ∧ stands c' p (resolved x a) m (upd_sk (resolve_connect_gate x) st).
Proof.
  apply (resolve_solo (reader_step inner) x (λ q st c, stands c p (RResolve x q a) m st) (λ st c, stands c p (resolved x a) m st)).
  - intros c0 st0 (H1 & H2 & H3 & <-). unfold reader_step. rewrite H2. pose proof (rs_stands x RTake c0) as Hr.
    destruct (rs_step inner x RTake c0) as [o c']. destruct Hr as ((R1 & R2 & R3 & _) & R4 & ->).
    unfold c_glob in *. destruct (g_gates (sk (csys c0)) !! x); split_and!; simpl; try congruence.
    rewrite R4. unfold upd_sk. by destruct (csys c0).
  - intros i c0 st0 (H1 & H2 & H3 & <-). unfold reader_step. rewrite H2. pose proof (rs_stands x (RDrain i) c0) as Hr.
    destruct (rs_step inner x (RDrain i) c0) as [o c']. destruct Hr as ((R1 & R2 & R3 & _) & R4 & ->).
    unfold c_kern, c_glob in *. destruct (krecv i 1024 (g_kern (sk (csys c0)))) as [r k].
    simpl in R4. split_and!; simpl; try done; congruence.
  - intros i c0 st0 (H1 & H2 & H3 & <-). unfold reader_step. rewrite H2. pose proof (rs_stands x (ROut i) c0) as Hr.
    destruct (rs_step inner x (ROut i) c0) as [o c']. destruct Hr as ((R1 & R2 & R3 & _) & R4 & ->).
    simpl in R4. split_and!; simpl; try done; congruence.
Qed.

Lemma reader_solo_frame bytes c : rpos c = RIdle → closed (cl (csys c)) = false →
  ∃ c', steps (reader_step inner) (frame_in bytes c) c' ∧
    stands c' (cpos c) RIdle (c_fds c) (net_step (NetFrame bytes) (csys c)).
Proof.
  intros Hr Hcl. unfold frame_in, net_step. rewrite Hr, Hcl.
  destruct (parse bytes) as [f|] eqn:Hp.
  2:{ exists c. split; [by exists O|]. split_and!; try done. unfold handle_frame. by rewrite Hp. }
  destruct (is_reply f (csys c)) eqn:Hi.
  { exists (upd_csys (handle_frame bytes) c). split; [by exists O|]. by split_and!. }
  assert (handle_frame bytes (csys c) = dispatch_push f (csys c)) as ->.
  { unfold handle_frame, is_reply in *. rewrite Hp. destruct (id f) as [i|]; [|done].
    by destruct (pending (cl (csys c)) !! i). }
  destruct (link_event f) as [p|] eqn:Hl.
  2:{ exists (upd_csys (dispatch_push f) c). split; [by exists O|by split_and!]. }
  unfold link_event in Hl. destruct (Messages.handle f) as [x|] eqn:Hh; [|done].
  assert (lit "recv" ≠ lit "status" ∧ lit "accept" ≠ lit "status" ∧ lit "recv" ≠ lit "close" ∧
    lit "accept" ≠ lit "close" ∧ lit "status" ≠ lit "close") as (N1 & N2 & N3 & N4 & N5) by done.
  destruct (decide (typ f = lit "status")) as [Ht|Ht].
  - destruct (Z.land (status_flags f) STATUS_CONNECTED =? 0) eqn:Hz; [done|]. injection Hl as <-.
    destruct (reader_resolves x AStatus (cpos c) (c_fds c) (reader_step inner (rgoto (RMark x) c)) _
      ltac:(split_and!; simpl; done)) as (c' & Hs & Hc'). exists c'. split; [by eapply steps_to|].
    unfold dispatch_push. rewrite Hh, Ht. do 2 (rewrite decide_False by done). rewrite decide_True by done.
    rewrite Hz. cbn [negb]. unfold upd_sk at 1. cbn [on_status InterposeSink]. rewrite Hz. exact Hc'.
  - destruct (decide (typ f = lit "close")) as [Hc|Hc]; [|done]. injection Hl as <-.
    set (e := if errcode f =? 0 then _ else _).
    destruct (reader_resolves x AClose (cpos c) (c_fds c) (reader_step inner (rgoto (RFail x e) c)) _
      ltac:(split_and!; simpl; done)) as (c' & Hs & (H1 & H2 & H3 & H4)).
    exists (reader_step inner c'). split; [eapply steps_to; [done|]; etrans; [done|apply steps_one]|].
    unfold reader_step. rewrite H2. unfold dispatch_push. rewrite Hh, Hc. do 3 (rewrite decide_False by done).
    rewrite decide_True by done. split_and!; [done..|]. simpl. by rewrite H4.
Qed.

Lemma reader_gates hs p m c st : stands c p (next_gate hs) m st →
  ∃ c', steps (reader_step inner) c c' ∧
    stands c' p RShutRecv m (upd_sk (λ g, foldl (λ g x, resolve_connect_gate x g) g hs) st).
Proof.
  revert c st. induction hs as [|x hs IH]; intros c st Hc.
  - exists c. split; [by exists O|]. by destruct st.
  - destruct (reader_resolves x (ADisc hs) p m c st Hc) as (c1 & H1 & Hc1).
    destruct (IH c1 _ Hc1) as (c' & H2 & Hc'). exists c'. split; [by etrans|exact Hc'].
Qed.

Lemma foldl_reverse {A B} (f : A → B → B) b (l : list A) : foldl (λ b x, f x b) b (reverse l) = foldr f b l.
Proof. induction l as [|x l IH]; [done|]. by rewrite reverse_cons, foldl_app, IH. Qed.

Lemma reader_solo_end c : rpos c = RIdle → closed (cl (csys c)) = false →
  ∃ c', steps (reader_step inner) (end_in c) c' ∧
    stands c' (cpos c) REnded (c_fds c) (net_step NetEnd (csys c)).
Proof.
  intros Hr Hcl. unfold end_in, net_step. rewrite Hr, Hcl.
  set (st1 := upd_cl (λ y, upd_conns (ConnRegistry.fail_all_pending ECONNRESET)
    (set_pending_chans ∅ (foldr drop_sender (chans y) (snd <$> map_to_list (pending y))) (set_closed true y))) (csys c)).
  set (c3 := reader_step inner (reader_step inner (reader_step inner (rgoto RClear (upd_csys (upd_cl (set_closed true)) c))))).
  assert (stands c3 (cpos c) (next_gate (reverse (fst <$> map_to_list (g_gates (c_glob c))))) (c_fds c) st1) as H3
    by (by split_and!).
  destruct (reader_gates _ _ _ _ _ H3) as (c4 & Hs & (E1 & E2 & E3 & E4)).
  exists (reader_step inner (reader_step inner c4)). split.
  - etrans; [|etrans; [exact Hs|etrans; apply steps_one]]. by exists 3%nat.
  - unfold reader_step at 2. rewrite E2. unfold reader_step. cbn [rpos rgoto].
    unfold c_kern, c_glob. cbn [csys upd_cglob upd_csys rgoto]. rewrite E4. unfold disconnect, upd_sk.
    cbn [sk on_disconnect InterposeSink cl net upd_cl]. unfold c_glob in *.
    rewrite (foldl_reverse resolve_connect_gate). simpl.
    destruct (dgram_shutdown_all _ _) as [ds k]. split_and!; simpl; try done.
    rewrite E4. unfold upd_sk. simpl. by rewrite (foldl_reverse resolve_connect_gate).
Qed.

(** ** The caller *)
Lemma caller_resolves r m c st : stands c (CResolve RTake) r m st →
  ∃ c', steps (caller_step fd h rem dg inner) c c' ∧ stands c' CProgress r m (upd_sk (resolve_connect_gate h) st).
Proof.
  apply (resolve_solo (caller_step fd h rem dg inner) h (λ q st c, stands c (CResolve q) r m st) (λ st c, stands c CProgress r m st)).
  - intros c0 st0 (H1 & H2 & H3 & <-). unfold caller_step. rewrite H1. pose proof (rs_stands h RTake c0) as Hr.
    destruct (rs_step inner h RTake c0) as [o c']. destruct Hr as ((R1 & R2 & R3 & _) & R4 & ->).
    unfold c_glob in *. destruct (g_gates (sk (csys c0)) !! h); split_and!; simpl; try congruence.
    rewrite R4. unfold upd_sk. by destruct (csys c0).
  - intros i c0 st0 (H1 & H2 & H3 & <-). unfold caller_step. rewrite H1. pose proof (rs_stands h (RDrain i) c0) as Hr.
    destruct (rs_step inner h (RDrain i) c0) as [o c']. destruct Hr as ((R1 & R2 & R3 & _) & R4 & ->).
    unfold c_kern, c_glob in *. destruct (krecv i 1024 (g_kern (sk (csys c0)))) as [r0 k].
    simpl in R4. split_and!; simpl; try done; congruence.
  - intros i c0 st0 (H1 & H2 & H3 & H4). unfold caller_step. rewrite H1. pose proof (rs_stands h (ROut i) c0) as Hr.
    destruct (rs_step inner h (ROut i) c0) as [o c']. destruct Hr as ((R1 & R2 & R3 & _) & R4 & ->).
    split_and!; simpl; congruence.
Qed.

Lemma caller_fills a i fuel r m c st : stands c (CFill a i) r m st → (space (g_kern (sk st)) a < fuel)%nat →
  ∃ c', steps (caller_step fd h rem dg inner) c c' ∧
    stands c' (CGate i) r m (upd_sk (upd_kern (fill fuel a)) st).
Proof.
  revert c st. induction fuel as [|fuel IH]; intros c st (H1 & H2 & H3 & <-) Hlt; [lia|].
  destruct (ksend a (replicate 1024 0) (g_kern (sk (csys c)))) as [res k] eqn:Hk.
  assert (∀ g : glob (K := K), g_kern g = g_kern (sk (csys c)) → upd_kern (fill (S fuel) a) g =
    upd_kern (λ _, match res with Ok (S _) => fill fuel a k | _ => k end) g) as Hf.
  { intros g Hg. unfold upd_kern. rewrite Hg. cbn [fill]. rewrite Hk. by destruct res as [[|]|]. }
  assert (caller_step fd h rem dg inner c = match res with
    | Ok (S n) => put true (replicate (S n) 0) (set_c_kern k c) | _ => cgoto (CGate i) (set_c_kern k c) end) as Hst.
  { unfold caller_step. rewrite H1. unfold c_kern, c_glob. by rewrite Hk. }
  assert (upd_sk (upd_kern (fill (S fuel) a)) (csys c) =
    upd_sk (upd_kern (λ _, match res with Ok (S _) => fill fuel a k | _ => k end)) (csys c)) as ->.
  { unfold upd_sk. by rewrite Hf. }
  destruct res as [[|n]|e]; [eexists; split; [apply steps_one|]; rewrite Hst; by split_and!| |
    eexists; split; [apply steps_one|]; rewrite Hst; by split_and!].
  assert (replicate 1024 0 ≠ []) as Hne by done. pose proof (ksend_space _ _ _ _ _ Hne Hk) as Hsp.
  destruct (IH (put true (replicate (S n) 0) (set_c_kern k c)) (upd_sk (upd_kern (λ _, k)) (csys c))) as (c' & Hs & Hc').
  { by split_and!. }
  { simpl. lia. }
  exists c'. split; [by eapply steps_to|exact Hc'].
Qed.

Lemma alter_some {A} (f : A → A) (m : gmap Z A) k a : m !! k = Some a → alter f k m = <[k := f a]> m.
Proof.
  intros Hm. apply map_eq. intros x. destruct (decide (x = k)) as [->|Hne].
  - by rewrite lookup_alter_eq, Hm, lookup_insert_eq.
  - by rewrite lookup_alter_ne, lookup_insert_ne.
Qed.

(** As far as the filling. *)
Lemma caller_starts c m st s : stands c CArmed (rpos c) m st → m !! fd = Some s → knonblock (g_kern (sk st)) fd = true →
  stands (Nat.iter 4 (caller_step fd h rem dg inner) c) (CFill (State.app_fd s) (State.inner_fd s)) (rpos c)
    (<[fd := set_digis dg (set_remote (Some rem) (set_handle (Some h) s))]> m)
    (upd_sk (λ g, upd_kern (λ k, ksndbuf (State.app_fd s) 1024 k) (upd_recv (register h (State.inner_fd s)) g)) st).
Proof.
  destruct c as [cp rp m0 st0 pp q t]. intros (H1 & _ & H3 & H4) Hs Hnb. simpl in *. subst.
  cbn [Nat.iter caller_step cpos c_fds]. rewrite Hs. cbn. unfold c_kern, c_glob. cbn. rewrite Hnb. by split_and!.
Qed.

Lemma caller_solo w c s : fds w !! fd = Some s → is_nonblocking fd w = true →
  stands c CArmed (rpos c) (fds w) (rhp w) →
  let '(r, w') := connect_opened fd h rem dg w in
  r = Val (-1) ∧ errno w' = EINPROGRESS ∧
  ∃ c', steps (caller_step fd h rem dg inner) c c' ∧ stands c' CProgress (rpos c) (fds w') (rhp w').
Proof.
  intros Hs Hnb Hc. unfold connect_opened. rewrite Hs.
  match goal with |- context [is_nonblocking fd ?x] => change (is_nonblocking fd x) with (is_nonblocking fd w) end.
  rewrite Hnb. pose proof (caller_starts c (fds w) (rhp w) s Hc Hs Hnb) as H1.
  set (a := State.app_fd s) in *. set (i := State.inner_fd s) in *.
  set (k1 := ksndbuf a 1024 (g_kern (sk (rhp w)))).
  destruct (caller_fills a i (S (space k1 a)) _ _ _ _ H1) as (c2 & Hs2 & (E1 & E2 & E3 & E4)); [simpl; unfold k1; lia|].
  set (st3 := upd_sk (arm_connect_gate h a i) (upd_sk (upd_recv (register h i)) (rhp w))).
  assert (stands (caller_step fd h rem dg inner c2) CRecheck (rpos c)
    (<[fd := set_digis dg (set_remote (Some rem) (set_handle (Some h) s))]> (fds w)) st3) as H3.
  { unfold caller_step. rewrite E1. split_and!; try done. simpl. by rewrite E4. }
  change (connect_result h (rhp _)) with (connect_result h st3). pose proof (alter_some
    (λ s, set_digis dg (set_remote (Some rem) (set_handle (Some h) s))) _ _ _ Hs) as Hal.
  set (c3 := caller_step fd h rem dg inner c2) in *. destruct H3 as (F1 & F2 & F3 & F4).
  assert (caller_step fd h rem dg inner c3 = cgoto (match connect_result h st3 with Some _ => CResolve RTake | None => CProgress end) c3) as Hst.
  { unfold caller_step. by rewrite F1, F4. }
  assert (steps (caller_step fd h rem dg inner) c (caller_step fd h rem dg inner c3)) as Hsteps.
  { etrans; [by exists 4%nat|]. etrans; [exact Hs2|]. etrans; apply steps_one. }
  destruct (connect_result h st3) as [res|].
  - destruct (caller_resolves (rpos c) (<[fd := set_digis dg (set_remote (Some rem) (set_handle (Some h) s))]> (fds w))
      (caller_step fd h rem dg inner c3) st3) as (c' & Hc1 & Hc2); [rewrite Hst; by split_and!|].
    split_and!; [done..|]. exists c'. split; [by etrans|]. destruct Hc2 as (G1 & G2 & G3 & G4).
    split_and!; [done|done|by rewrite G3, <- Hal|exact G4].
  - split_and!; [done..|]. eexists. split; [exact Hsteps|]. rewrite Hst.
    split_and!; [done|done|by simpl; rewrite F3, <- Hal|exact F4].
Qed.

(** ** A blocking connect

    The reader between frames, or past the transport's end. *)
Definition reader_at c : Prop := rpos c = if closed (cl (csys c)) then REnded else RIdle.

(** The threads take their steps in the order of a script, the whole of a frame
    at a time, the timer when the script says so or has nothing left: what is
    left of the script after them. *)
Inductive scripted : list event → cstate (K := K) → list event → cstate (K := K) → Prop :=
| sc_done evs c : scripted evs c evs c
| sc_caller evs c evs' c' : scripted evs (caller_step fd h rem dg inner c) evs' c' → scripted evs c evs' c'
| sc_frame b evs c c1 evs' c' : steps (reader_step inner) (frame_in b c) c1 → reader_at c1 →
    scripted evs c1 evs' c' → scripted (NetFrame b :: evs) c evs' c'
| sc_end evs c c1 evs' c' : steps (reader_step inner) (end_in c) c1 → reader_at c1 →
    scripted evs c1 evs' c' → scripted (NetEnd :: evs) c evs' c'
| sc_wake evs c evs' c' : scripted evs (caller_step fd h rem dg inner c) evs' c' → scripted (Wake :: evs) c evs' c'
| sc_expire evs c evs' c' : scripted evs (timer h c) evs' c' → scripted (Expire :: evs) c evs' c'
| sc_over c evs' c' : scripted [] (timer h c) evs' c' → scripted [] c evs' c'.

Lemma scripted_caller n evs c evs' c' :
  scripted evs (Nat.iter n (caller_step fd h rem dg inner) c) evs' c' → scripted evs c evs' c'.
Proof.
  revert c. induction n as [|n IH]; intros c Hs; [done|].
  apply sc_caller, IH. by rewrite <- Nat.iter_succ_r.
Qed.

Lemma scripted_trans evs c evs1 c1 evs2 c2 :
  scripted evs c evs1 c1 → scripted evs1 c1 evs2 c2 → scripted evs c evs2 c2.
Proof. intros H1 H2. induction H1; eauto using scripted. Qed.

(** A frame, or the transport's end, between two of the caller's steps. *)
Lemma scripted_frame b c : reader_at c → ∃ c1, steps (reader_step inner) (frame_in b c) c1 ∧ reader_at c1 ∧
  stands c1 (cpos c) (rpos c) (c_fds c) (net_step (NetFrame b) (csys c)).
Proof.
  unfold reader_at. destruct (closed (cl (csys c))) eqn:Hc; intros Hr.
  - exists c. unfold frame_in, net_step. rewrite Hr, Hc. split; [by exists O|]. by split_and!.
  - destruct (reader_solo_frame b c Hr Hc) as (c1 & Hs & Hc1). exists c1. split; [done|].
    pose proof Hc1 as (_ & -> & _ & E). rewrite Hr. split; [|done]. rewrite E. unfold net_step.
    by rewrite Hc, handle_frame_closed, Hc.
Qed.
Lemma scripted_end c : reader_at c → ∃ c1, steps (reader_step inner) (end_in c) c1 ∧ reader_at c1 ∧
  cpos c1 = cpos c ∧ c_fds c1 = c_fds c ∧ csys c1 = net_step NetEnd (csys c).
Proof.
  unfold reader_at. destruct (closed (cl (csys c))) eqn:Hc; intros Hr.
  - exists c. unfold end_in, net_step. rewrite Hr, Hc. split; [by exists O|]. by split_and!.
  - destruct (reader_solo_end c Hr Hc) as (c1 & Hs & (E1 & E2 & E3 & E4)). exists c1. split; [done|].
    split; [|done]. rewrite E2, E4. unfold net_step. by rewrite Hc.
Qed.

(** Where the caller is once it has stopped waiting. *)
Definition waited_to (i : Z) (o : waited (result unit Z)) : cpc :=
  match o with
  | Woken (Ok _) => COut i
  | Woken (Err e) => CReturned (Err e)
  | Expired => CReturned (Err ETIMEDOUT)
  | Blocked => CWait i
  end.
Definition stopped i m (o : waited (result unit Z)) (st' : sys (S := glob (K := K))) c : Prop :=
  o ≠ Blocked ∧ reader_at c ∧ cpos c = waited_to i o ∧ c_fds c = m ∧ set_net (net st') (csys c) = st'.

(** The caller runs, and its predicate holds; or it does not. *)
Lemma caller_wakes i r c : cpos c = CWait i → reader_at c →
  match conn_ready h (cl (csys c)) with
  | Some (res, cl') => stopped i (c_fds c) (Woken res) (mkSys cl' (sk (csys c)) r) (caller_step fd h rem dg inner c)
  | None => caller_step fd h rem dg inner c = c
  end.
Proof.
  intros Hc Hr. unfold caller_step, conn_ready. rewrite Hc. unfold ConnRegistry.result.
  destruct (conns (cl (csys c)) !! h) as [[| |e]|]; simpl; try destruct (closed (cl (csys c))) eqn:Hcl;
    done || (split_and!; done || exact Hr).
Qed.
Lemma timer_fires i r c : cpos c = CWait i → reader_at c →
  let '(o, st') := check_now (conn_expired h) r (csys c) (Expired, set_net r (csys c)) in
  stopped i (c_fds c) o st' (timer h c).
Proof.
  intros Hc Hr. unfold timer, check_now, conn_expired. rewrite Hc. unfold ConnRegistry.result.
  destruct (conns (cl (csys c)) !! h) as [[| |e]|]; simpl; split_and!; done || exact Hr.
Qed.

Lemma caller_waits i evs c : cpos c = CWait i → reader_at c →
  let '(o, st') := wait_go (conn_ready h) (conn_expired h) true evs (csys c) in
  ∃ c', scripted evs c (net st') c' ∧ stopped i (c_fds c) o st' c'.
Proof.
  revert c. induction evs as [|ev evs IH]; intros c Hc Hr.
  - cbn [wait_go]. pose proof (timer_fires i [] c Hc Hr) as Ht.
    assert (net (check_now (conn_expired h) [] (csys c) (Expired, set_net [] (csys c))).2 = []) as Hn
      by (unfold check_now; by destruct (conn_expired h _) as [[]|]).
    destruct (check_now _ _ _ _) as [o st']. simpl in Hn. exists (timer h c).
    split; [rewrite Hn; apply sc_over, sc_done|exact Ht].
  - destruct ev as [b| | |]; cbn [wait_go].
    + destruct (scripted_frame b c Hr) as (c1 & Hs & Hr1 & (E1 & _ & E3 & <-)). rewrite Hc in E1.
      specialize (IH c1 E1 Hr1). rewrite E3 in IH. destruct (wait_go _ _ _ _ _) as [o st'].
      destruct IH as (c' & H1 & H2). exists c'. split; [by eapply sc_frame|done].
    + destruct (scripted_end c Hr) as (c1 & Hs & Hr1 & E1 & E3 & <-). rewrite Hc in E1.
      specialize (IH c1 E1 Hr1). rewrite E3 in IH. destruct (wait_go _ _ _ _ _) as [o st'].
      destruct IH as (c' & H1 & H2). exists c'. split; [by eapply sc_end|done].
    + pose proof (caller_wakes i evs c Hc Hr) as Hw. specialize (IH c Hc Hr). unfold check_now.
      destruct (conn_ready h (cl (csys c))) as [[res cl']|].
      * exists (caller_step fd h rem dg inner c). split; [apply sc_wake, sc_done|exact Hw].
      * destruct (wait_go _ _ _ _ _) as [o st']. destruct IH as (c' & H1 & H2). exists c'.
        split; [|done]. apply sc_wake. by rewrite Hw.
    + pose proof (timer_fires i evs c Hc Hr) as Ht.
      assert (net (check_now (conn_expired h) evs (csys c) (Expired, set_net evs (csys c))).2 = evs) as Hn
        by (unfold check_now; by destruct (conn_expired h _) as [[]|]).
      destruct (check_now _ _ _ _) as [o st']. simpl in Hn. exists (timer h c).
      split; [rewrite Hn; apply sc_expire, sc_done|exact Ht].
Qed.

Lemma caller_wait i c : cpos c = CWait i → reader_at c →
  let '(o, st') := wait (conn_ready h) (conn_expired h) true (csys c) in
  ∃ c', scripted (net (csys c)) c (net st') c' ∧ stopped i (c_fds c) o st' c'.
Proof.
  intros Hc Hr. unfold wait, check_now at 1. pose proof (caller_wakes i (net (csys c)) c Hc Hr) as Hw.
  destruct (conn_ready h (cl (csys c))) as [[res cl']|]; [|by apply caller_waits].
  exists (caller_step fd h rem dg inner c). split; [apply sc_caller, sc_done|exact Hw].
Qed.

Lemma caller_blocks w c s : fds w !! fd = Some s → is_nonblocking fd w = false →
  stands c CArmed (rpos c) (fds w) (rhp w) → reader_at c →
  let '(r, w') := connect_opened fd h rem dg w in
  ∃ res c', r = Val (match res with Ok _ => 0 | Err _ => -1 end) ∧ (∀ e, res = Err e → errno w' = e) ∧
    scripted (net (rhp w)) c (net (rhp w')) c' ∧ cpos c' = CReturned res ∧ reader_at c' ∧
    c_fds c' = fds w' ∧ set_net (net (rhp w')) (csys c') = rhp w'.
Proof.
  intros Hs Hnb Hc Hr. unfold connect_opened. rewrite Hs.
  match goal with |- context [is_nonblocking fd ?x] => change (is_nonblocking fd x) with (is_nonblocking fd w) end.
  rewrite Hnb. set (i := State.inner_fd s).
  set (c3 := Nat.iter 3 (caller_step fd h rem dg inner) c).
  assert (stands c3 (CWait i) (rpos c) (alter (λ s, set_digis dg (set_remote (Some rem) (set_handle (Some h) s))) fd (fds w))
    (upd_sk (upd_recv (register h i)) (rhp w))) as (E1 & E2 & E3 & E4).
  { rewrite (alter_some _ _ _ _ Hs). unfold c3. destruct c as [cp rp m0 st0 pp q t].
    destruct Hc as (H1 & _ & H3 & H4). simpl in *. subst.
    cbn [Nat.iter caller_step cpos c_fds]. rewrite Hs. cbn. unfold c_kern, c_glob. cbn.
    unfold is_nonblocking in Hnb. rewrite Hnb. by split_and!. }
  assert (reader_at c3) as Hr3.
  { unfold reader_at in *. rewrite E2, E4, Hr. destruct Hc as (_ & _ & _ & ->). done. }
  pose proof (caller_wait i c3 E1 Hr3) as Hw. rewrite E3, E4 in Hw. unfold wait_connected.
  change (rhp (upd_glob (upd_recv (register h i)) ?x)) with (upd_sk (upd_recv (register h i)) (rhp w)).
  destruct (wait _ _ _ _) as [o st']. destruct Hw as (c' & Hsc & (Hb & Hr' & Hp & Hf & Hsys)).
  assert (scripted (net (rhp w)) c (net st') c') as Hsc' by exact (scripted_caller 3 _ c _ _ Hsc).
  destruct o as [[[]|e]| |]; [| | |done].
  - exists (Ok tt), (caller_step fd h rem dg inner c'). unfold caller_step. rewrite Hp. simpl.
    split_and!; try done.
    + eapply scripted_trans; [exact Hsc'|]. apply sc_caller. unfold caller_step. rewrite Hp. apply sc_done.
    + by rewrite <- Hsys.
  - by exists (Err e), c'; split_and!; simpl; try done; intros e' [= ->].
  - by exists (Err ETIMEDOUT), c'; split_and!; simpl; try done; intros e' [= ->].
Qed.

(** C8: taken by itself each thread is the sequential definition: the reader's
    steps for a frame and for the transport's end come to what [net_step] does;
    the caller's, from the arming of its handle, come to what [connect_opened]
    does: by themselves on a non-blocking socket; on a blocking one with the
    reader's steps and the timer in the order of the script the sequential
    definition is given, with the same result, errno, descriptors and state, and
    as much left of the script. *)
Theorem connect_threads_sequential c :
  (rpos c = RIdle → closed (cl (csys c)) = false →
   (∀ bytes, ∃ c', steps (reader_step inner) (frame_in bytes c) c' ∧
      stands c' (cpos c) RIdle (c_fds c) (net_step (NetFrame bytes) (csys c))) ∧
   (∃ c', steps (reader_step inner) (end_in c) c' ∧
      stands c' (cpos c) REnded (c_fds c) (net_step NetEnd (csys c)))) ∧
  (∀ w s, fds w !! fd = Some s → stands c CArmed (rpos c) (fds w) (rhp w) →
   let '(r, w') := connect_opened fd h rem dg w in
   if is_nonblocking fd w then
     r = Val (-1) ∧ errno w' = EINPROGRESS ∧
     ∃ c', steps (caller_step fd h rem dg inner) c c' ∧ stands c' CProgress (rpos c) (fds w') (rhp w')
   else reader_at c →
     ∃ res c', r = Val (match res with Ok _ => 0 | Err _ => -1 end) ∧ (∀ e, res = Err e → errno w' = e) ∧
       scripted (net (rhp w)) c (net (rhp w')) c' ∧ cpos c' = CReturned res ∧ reader_at c' ∧
       c_fds c' = fds w' ∧ set_net (net (rhp w')) (csys c') = rhp w').
Proof.
  split; [intros Hr Hcl; split|].
  - intros bytes. by apply reader_solo_frame.
  - by apply reader_solo_end.
  - intros w s Hs Hc. pose proof (caller_solo w c s Hs) as H1. pose proof (caller_blocks w c s Hs) as H2.
    destruct (connect_opened fd h rem dg w) as [r w']. destruct (is_nonblocking fd w); [by apply H1|].
    intros Hr. by apply H2.
Qed.
End solo.

(** * Witnesses: a close frame between the storing of the gate and the re-check;
    an application that writes while the reader drains. *)
Import Example.
#[local] Existing Instances Pairs.kernel_pairs Pairs.laws_pairs.

Definition at_arming : cstate := mkC CArmed RIdle (fds (connecting false)) (rhp (connecting false)) [] [] [].
Lemma at_arming_armed : armed 3 7 3 4 at_arming.
Proof.
  assert (apart 7 3 4 (c_glob at_arming)) as Hap.
  { split; try (vm_compute; congruence); intros x i; simpl; by rewrite lookup_empty. }
  split; try done. exists (new_fd 3 4 false). by split_and!.
Qed.

Abbreviation connect_run := (cact_run whole 3 7 (lit "GB7RDG") [] 3 4).
Definition refused_acts : list (cact (K := Pairs.kernel)) :=
  replicate 7 ACaller ++ [AFrame (push (lit "close") 7); AReader; ACaller; AReader; ACaller] ++ replicate 4 AReader.
Definition draining_acts : list (cact (K := Pairs.kernel)) :=
  replicate 8 ACaller ++ [AFrame (push (lit "status") 7); AReader; AReader; AReader].

Lemma connect_gate_settled_witness :
  let c := connect_run refused_acts at_arming in
  cpos c = CProgress ∧ rpos c = RIdle ∧ link 7 c = Some (Failed ECONNREFUSED) ∧ gated 7 c = None ∧
  ¬ has_filler (piped c).
Proof.
  intros c. assert (cpos c = CProgress) as H1 by (vm_compute; reflexivity).
  assert (rpos c = RIdle) as H2 by (vm_compute; reflexivity).
  assert (link 7 c = Some (Failed ECONNREFUSED)) as H3 by (vm_compute; reflexivity).
  destruct (connect_gate_settled 3 7 (lit "GB7RDG") [] 3 4 whole refused_acts at_arming at_arming_armed) as [Hs _];
    [repeat split|]. fold c in Hs. destruct (Hs H1 (or_introl H2)) as [Hg Hf]. rewrite H3 in Hg, Hf.
  split; [exact H1|]. split; [exact H2|]. split; [exact H3|]. split; [exact Hg|]. by apply Hf.
Defined.

Lemma filler_confined_witness :
  let c := connect_run (draining_acts ++ [AReader; AReader; ABypass [72; 105]; APump 7]) at_arming in
  pumped (taken c) = [72; 105] ∧ sublist (pumped (taken c)) (by_app (sent c)) ∧ (List.length (sent c) = 1026)%nat.
Proof.
  intros c. split; [vm_compute; reflexivity|]. split; [|vm_compute; reflexivity].
  apply (filler_confined 3 7 (lit "GB7RDG") [] 3 4 whole
    (draining_acts ++ [AReader; AReader; ABypass [72; 105]; APump 7]) at_arming at_arming_armed).
  repeat split. discriminate.
Defined.

Lemma drain_discards_witness :
  let c1 := connect_run draining_acts at_arming in
  link 7 c1 = Some Connected ∧
  ∃ m, let c2 := connect_run (ABypass [72; 105] :: replicate m AReader) c1 in
    by_app (sent c2) = [72; 105] ∧ pumped (taken c2) = [] ∧ unread (c_kern c2) 4 = [].
Proof.
  intros c1. split; [vm_compute; reflexivity|].
  destruct (drain_discards 3 7 (lit "GB7RDG") [] 3 4 whole draining_acts AStatus [72; 105] 2
    (snd (ksend 3 [72; 105] (c_kern c1))) at_arming at_arming_armed) as (m & H1 & _ & H2 & H3 & _);
    [repeat split|done|vm_compute; reflexivity|vm_compute; reflexivity|].
  exists m. split; [refine (eq_trans H1 _); vm_compute; reflexivity|].
  split; [refine (eq_trans H2 _); vm_compute; reflexivity|exact H3].
Defined.

(** A blocking socket, and what the engine and the timer do in the meantime. *)
Definition waiting_world : world :=
  mkWorld {[3 := new_fd 3 4 false]}
    (mkSys (upd_conns (λ _, {[7 := Pending]}) (new_client (mkWriter [] None)))
       (mkGlob pump_new ∅ ∅ ∅ one_pair) [close_push; Wake; Expire])
    true [] 0.
Definition at_waiting : cstate := mkC CArmed RIdle (fds waiting_world) (rhp waiting_world) [] [] [].

Lemma connect_threads_sequential_witness :
  (let '(r, w') := connect_opened 3 7 (lit "GB7RDG") [] (connecting false) in
   r = Val (-1) ∧ ∃ c', steps (caller_step 3 7 (lit "GB7RDG") [] 4) at_arming c' ∧ csys c' = rhp w') ∧
  (let '(r, w') := connect_opened 3 7 (lit "GB7RDG") [] waiting_world in
   r = Val (-1) ∧ errno w' = ECONNREFUSED ∧
   ∃ c', scripted 3 7 (lit "GB7RDG") [] 4 [close_push; Wake; Expire] at_waiting [Expire] c' ∧
     cpos c' = CReturned (Err ECONNREFUSED)).
Proof.
  split.
  - destruct (connect_threads_sequential 3 7 (lit "GB7RDG") [] 4 at_arming) as [_ Hs].
    specialize (Hs (connecting false) (new_fd 3 4 false) eq_refl ltac:(repeat split)).
    assert (is_nonblocking 3 (connecting false) = true) as Hnb by (vm_compute; reflexivity).
    rewrite Hnb in Hs. destruct (connect_opened 3 7 (lit "GB7RDG") [] (connecting false)) as [r w'].
    destruct Hs as (H1 & _ & c' & H2 & (_ & _ & _ & H3)). split; [exact H1|]. exists c'. split; [exact H2|exact H3].
  - destruct (connect_threads_sequential 3 7 (lit "GB7RDG") [] 4 at_waiting) as [_ Hs].
    specialize (Hs waiting_world (new_fd 3 4 false) eq_refl ltac:(repeat split)).
    assert (is_nonblocking 3 waiting_world = false) as Hnb by (vm_compute; reflexivity).
    assert (errno (connect_opened 3 7 (lit "GB7RDG") [] waiting_world).2 = ECONNREFUSED) as He
      by (vm_compute; reflexivity).
    assert ((connect_opened 3 7 (lit "GB7RDG") [] waiting_world).1 = Val (-1)) as Hv by (vm_compute; reflexivity).
    assert (net (rhp (connect_opened 3 7 (lit "GB7RDG") [] waiting_world).2) = [Expire]) as Hn
      by (vm_compute; reflexivity).
    rewrite Hnb in Hs. destruct (connect_opened 3 7 (lit "GB7RDG") [] waiting_world) as [r w'].
    simpl in He, Hv, Hn. destruct (Hs eq_refl) as (res & c' & H1 & H2 & H3 & H4 & _).
    rewrite Hn in H3. rewrite Hv in H1. destruct res as [u|e]; [discriminate|].
    specialize (H2 e eq_refl). rewrite He in H2. rewrite <- H2 in H4.
    split; [exact Hv|]. split; [exact He|]. exists c'. split; [exact H3|exact H4].
Defined.

(** The socket of the refused connect, connected again with handle 9. *)
Definition retried : cstate :=
  let c := connect_run refused_acts at_arming in
  cact_run whole 3 9 (lit "GB7RDG") [] 3 4 (replicate 8 ACaller)
    (mkC CArmed RIdle (c_fds c) (upd_cl (upd_conns (ConnRegistry.set_pending 9)) (csys c)) [] [] []).

Lemma reconnect_gate_forwarded_witness :
  link 9 retried = Some Pending ∧ gated 9 retried = Some 4 ∧
  ∃ m, let c' := cact_run whole 3 9 (lit "GB7RDG") [] 3 4 (replicate m (APump 7)) retried in
    (true, (0, true)) ∈ taken c' ∧ unread (c_kern c') 4 = [] ∧ link 9 c' = Some Pending.
Proof.
  split; [vm_compute; reflexivity|]. split; [vm_compute; reflexivity|].
  destruct (reconnect_gate_forwarded 3 9 (lit "GB7RDG") [] 3 4 whole 7 0 retried) as (m & H1 & H2 & _ & H3);
    [vm_compute; reflexivity|vm_compute; reflexivity|vm_compute; left|].
  exists m. split; [exact H1|]. split; [exact H2|]. refine (eq_trans H3 _). vm_compute. reflexivity.
Defined.
