(* ===== verification/CloseThreads.v ===== *)
(** [crates/ax25-interpose/src/lib.rs], [close], and [destroy_ax25_fd] of
    [state.rs] against the threads they run beside: any number of closes, lock by
    lock and system call by system call, with the outbound pump's and the
    interposed writes' reads of a socketpair, and the reader, the flusher, the
    other calls and the rest of the process between any two of the steps.

    [destroy_ax25_fd] takes the entry out of the table, then the handle out of the
    pumps and the gates one after the other, and closes the two descriptors last.
    The theorems: by then nothing refers to them, unless a gate was left when the
    outbound pump had been seen to; and a thread that looked its entry up before
    reads from them all the same. *)
From stdpp Require Import prelude gmap.
From Stdlib Require Import ZArith Lia String.
From S2P Require Import Prelude Str Errors Addr IAddr Framing Messages Client ClientSpec ClientKeeps Sockets.
From S2P Require Import RecvPump DgramPump State PumpKeeps Interpose InterposeSpec Process DescSpec ConnectSpec.
Local Open Scope Z_scope.

(** Where a close is: it asks whether the descriptor is the library's; for its
    handle; it tells the engine; takes the entry out of the table; the handle out
    of the receive pump, the datagram pump, the outbound pump, the gates; closes
    the library's end; the application's; it has returned. *)
Inductive kpc :=
| KAsk | KHandle | KClient (h : Z) | KRemove
| KRecv (s : FdState) (h : Z) | KDgram (s : FdState) (h : Z) | KOut (s : FdState) (h : Z) | KGates (s : FdState) (h : Z)
| KInner (s : FdState) | KApp (s : FdState) | KDone (r : ret).

Section threads.
Context `{!SerdeJson} {K : Type} `{!Kernel K, !KernelFds K}.
Variable front_len : list Z → nat.
Variable creds : option (str * str).
Variable src_call : option str.
Variable pad : list Z.
Implicit Types w : world (K := K).

(** The next step of a close of [fd].  Telling the engine is one step, with the
    wait for its answer; [Client.v] lets the reader run in it. *)
Definition close_step (fd : Z) (pw : kpc * world (K := K)) : kpc * world (K := K) :=
  let '(p, w) := pw in
  match p with
  | KAsk => (if is_ax25_fd w fd then KHandle else KDone Libc, w)
  | KHandle => (match fds w !! fd ≫= handle with Some h => KClient h | None => KRemove end, w)
  | KClient h =>
    (KRemove, match ensure_client creds w with
              | (true, w) => snd (on_client (Client.close h) w)
              | (false, w) => w
              end)
  | KRemove =>
    match fds w !! fd with
    | None => (KDone (Val 0), w)
    | Some s => (match handle s with Some h => KRecv s h | None => KInner s end, upd_fds (delete fd) w)
    end
  | KRecv s h => (KDgram s h, upd_glob (upd_recv (unregister h)) w)
  | KDgram s h => (KOut s h, upd_glob (upd_dgram (dgram_unregister h)) w)
  | KOut s h => (KGates s h, upd_glob (out_unregister h) w)
  | KGates s h => (KInner s, upd_glob (upd_gates (delete h)) w)
  | KInner s => (KApp s, upd_glob (upd_kern (kclose (State.inner_fd s))) w)
  | KApp s => (KDone (Val 0), upd_glob (upd_kern (kclose (app_fd s))) w)
  | KDone r => (KDone r, w)
  end.

(** The closes by thread, each with its descriptor, and the threads that have
    looked an entry of the outbound pump up and drain its descriptor.  (The lock
    of the entry, in [OutThreads], is left out: any number may drain one.) *)
Record kstate := mkK { kw : world (K := K); closers : gmap nat (Z * kpc); inhand : gmap nat (Z * Z) }.

Inductive kact :=
| KClose (t : nat) (fd : Z) | KStep (t : nat) | KLookup (t : nat) (h : Z) | KDrain (t : nat)
| KThread (l : label (K := K)).

Definition kact_step (a : kact) (c : kstate) : kstate :=
  match a with
  | KClose t fd =>
    match closers c !! t with
    | None | Some (_, KDone _) => mkK (kw c) (<[t := (fd, KAsk)]> (closers c)) (inhand c)
    | Some _ => c
    end
  | KStep t =>
    match closers c !! t with
    | Some (fd, p) => let '(p, w) := close_step fd (p, kw c) in mkK w (<[t := (fd, p)]> (closers c)) (inhand c)
    | None => c
    end
  | KLookup t h =>
    match inhand c !! t, g_out (pumps (kw c)) !! h with
    | None, Some i => mkK (kw c) (closers c) (<[t := (h, i)]> (inhand c))
    | _, _ => c
    end
  | KDrain t =>
    match inhand c !! t with
    | Some (h, i) =>
      let '(r, k) := krecv i 4096 (g_kern (pumps (kw c))) in
      let w := upd_glob (upd_kern (λ _, k)) (kw c) in
      match r with
      | Ok ((_ :: _) as b) => mkK (upd_rhp (λ st, snd (Client.send h b st)) w) (closers c) (inhand c)
      | _ => mkK w (closers c) (delete t (inhand c))
      end
    | None => c
    end
  | KThread l => mkK (do_step front_len creds src_call pad l (kw c)) (closers c) (inhand c)
  end.
Definition krun (acts : list kact) (c : kstate) : kstate := foldl (λ c a, kact_step a c) c acts.

(** * What a close still has to forget, and to close *)
Definition ends (s : FdState) (x : Z) : Prop := x = app_fd s ∨ x = State.inner_fd s.
Definition to_close (p : kpc) (x : Z) : Prop :=
  match p with
  | KRecv s _ | KDgram s _ | KOut s _ | KGates s _ | KInner s => ends s x
  | KApp s => x = app_fd s
  | _ => False
  end.
Definition to_forget (p : kpc) (r : registry) (h x : Z) : Prop :=
  match p with
  | KRecv s h' => h = h' ∧ ends s x
  | KDgram s h' => r ≠ InRecv ∧ h = h' ∧ ends s x
  | KOut s h' => (r = InOut ∨ r = InGates) ∧ h = h' ∧ ends s x
  | _ => False
  end.
Definition lent (m : gmap nat (Z * kpc)) (r : registry) (h x : Z) : Prop :=
  ∃ t fd p, m !! t = Some (fd, p) ∧ to_forget p r h x.
Definition kept (m : gmap nat (Z * kpc)) (x : Z) : Prop := ∃ t fd p, m !! t = Some (fd, p) ∧ to_close p x.

(** The calls of [Process.v] with sockets used once, the rest of the process
    sparing the descriptors of the library's sockets, half-closed ones included;
    and no gate holds the ends of a socket whose close takes its handle out of the
    outbound pump. *)
Definition kact_ok (a : kact) (c : kstate) : Prop :=
  match a with
  | KThread l => step_ok l (kw c) ∧ fresh l (kw c) ∧ spares_kept (kept (closers c)) l (kw c)
  | KStep t =>
    match closers c !! t with
    | Some (_, KOut s h) => ∀ x, ends s x → g_gates (pumps (kw c)) !! h ≠ Some x
    | _ => True
    end
  | _ => True
  end.
Fixpoint kacts_ok (acts : list kact) (c : kstate) : Prop :=
  match acts with
  | [] => True
  | a :: acts => kact_ok a c ∧ kacts_ok acts (kact_step a c)
  end.
End threads.

Section spec.
Context `{!SerdeJson} {K : Type} `{!Kernel K, !KernelFds K, !KernelFdsLaws K}.
Implicit Types (w : world (K := K)) (c : kstate (K := K)) (m : gmap nat (Z * kpc)).

(** * The closes' share *)
Lemma lent_out m h x : lent m InGates h x → lent m InOut h x.
Proof.
  intros (t & fd & p & Hp & Hf). exists t, fd, p. split; [done|].
  destruct p; simpl in *; try done.
  - destruct Hf as (_ & Hf). done.
  - split; [by left|apply Hf].
Qed.

Lemma lent_step m t fd p' r h x : lent m r h x →
  (∀ fd p, m !! t = Some (fd, p) → to_forget p r h x → to_forget p' r h x) →
  lent (<[t := (fd, p')]> m) r h x.
Proof.
  intros (t0 & fd0 & p0 & H0 & Hf) Hstep. destruct (decide (t0 = t)) as [->|Hne].
  - exists t, fd, p'. rewrite lookup_insert_eq. split; [done|]. by eapply Hstep.
  - exists t0, fd0, p0. by rewrite lookup_insert_ne.
Qed.

Lemma kept_step m t fd p' x : kept (<[t := (fd, p')]> m) x →
  to_close p' x ∨ ∃ t0 fd0 p0, t0 ≠ t ∧ m !! t0 = Some (fd0, p0) ∧ to_close p0 x.
Proof.
  intros (t0 & fd0 & p0 & [[<- [= <- <-]]|[Hne H0]]%lookup_insert_Some & Hc); [by left|right].
  exists t0, fd0, p0. by split_and!.
Qed.

(** No two closes have a descriptor in common. *)
Definition apart m : Prop := ∀ t1 fd1 p1 t2 fd2 p2 x, m !! t1 = Some (fd1, p1) → m !! t2 = Some (fd2, p2) →
  t1 ≠ t2 → to_close p1 x → ¬ to_close p2 x.

Lemma apart_step m t fd p' : apart m →
  (∀ x t0 fd0 p0, to_close p' x → t0 ≠ t → m !! t0 = Some (fd0, p0) → ¬ to_close p0 x) →
  apart (<[t := (fd, p')]> m).
Proof.
  intros Ha Hn t1 fd1 p1 t2 fd2 p2 x [[<- [= <- <-]]|[Hn1 H1]]%lookup_insert_Some
    [[<- [= <- <-]]|[Hn2 H2]]%lookup_insert_Some Hne Hc1 Hc2; [done|by eapply Hn|by eapply (Hn x t1)|].
  by eapply (Ha t1 _ _ t2).
Qed.

Definition two_ends (p : kpc) : Prop :=
  match p with
  | KRecv s _ | KDgram s _ | KOut s _ | KGates s _ | KInner s => app_fd s ≠ State.inner_fd s
  | _ => True
  end.

Record kinv c : Prop := {
  ki_world : world_ok (lent (closers c)) (kept (closers c)) (kw c);
  ki_apart : apart (closers c);
  ki_two t fd p : closers c !! t = Some (fd, p) → two_ends p }.

Lemma two_step m t fd p' : two_ends p' → (∀ t fd p, m !! t = Some (fd, p) → two_ends p) →
  ∀ t0 fd0 p0, <[t := (fd, p')]> m !! t0 = Some (fd0, p0) → two_ends p0.
Proof. intros Hp Hm t0 fd0 p0 [[_ [= _ <-]]|[_ H0]]%lookup_insert_Some; [done|by eapply Hm]. Qed.

(** A close that has no more to close than before; what it need not forget any
    more is not there. *)
Lemma kinv_move c w' t fd p p' inh : kinv c → closers c !! t = Some (fd, p) →
  world_ok (lent (closers c)) (kept (closers c)) w' →
  (∀ r h x, within (pumps w') r h x → to_forget p r h x → to_forget p' r h x) →
  (∀ x, to_close p' x → to_close p x) → two_ends p' →
  kinv (mkK w' (<[t := (fd, p')]> (closers c)) inh).
Proof.
  intros [_ I2 I3] Hp [W1 W2 W3 W4] Hf Hc H2. split; simpl; [split| |].
  - intros r h x Hx. destruct (W1 r h x Hx) as [?|Hl]; [by left|right]. apply lent_step; [done|].
    intros fd0 p0 H0 Hf0. rewrite Hp in H0. injection H0 as <- <-. by apply Hf.
  - exact W2.
  - exact W3.
  - intros x [Hx|(t0 & fd0 & p0 & _ & H0 & Hx)]%kept_step; apply W4.
    + exists t, fd, p. split; [done|by apply Hc].
    + by exists t0, fd0, p0.
  - apply apart_step; [done|]. intros x t0 fd0 p0 Hx Hne H0. eapply (I2 t); [done|done|done|by apply Hc].
  - by apply two_step.
Qed.

(** A close closes one of its descriptors, when it has nothing to forget. *)
Lemma kinv_kclose c t fd p p' x0 inh : kinv c → closers c !! t = Some (fd, p) →
  (∀ r h x, ¬ to_forget p r h x) → to_close p x0 →
  (∀ x, to_close p' x → to_close p x ∧ x ≠ x0) → two_ends p' →
  kinv (mkK (upd_glob (upd_kern (kclose x0)) (kw c)) (<[t := (fd, p')]> (closers c)) inh).
Proof.
  intros [[W1 W2 W3 W4] I2 I3] Hp Hf H0 Hc H2. destruct (W4 x0) as [_ Hap]; [by exists t, fd, p|].
  split; simpl; [split| |].
  - intros r h x Hx. destruct (W1 r h x) as [?|Hl]; [by destruct r|by left|right]. apply lent_step; [done|].
    intros fd1 p1 H1 Hf1. rewrite Hp in H1. injection H1 as <- <-. by apply Hf in Hf1.
  - intros fd1 s Hs. destruct (W2 fd1 s Hs) as (? & ? & Ho1 & Ho2). destruct (Hap fd1 s Hs) as [? ?].
    unfold pumps in *. simpl. rewrite !kclose_open, Ho1, Ho2, !bool_decide_false by congruence. done.
  - exact W3.
  - assert (∀ x, kept (closers c) x → x ≠ x0 → kopen (g_kern (pumps (upd_glob (upd_kern (kclose x0)) (kw c)))) x = true ∧
      ∀ fd s, fds (kw c) !! fd = Some s → x ≠ app_fd s ∧ x ≠ State.inner_fd s) as Hk.
    { intros x Hx Hne. destruct (W4 x Hx) as [Ho ?]. unfold pumps in *. simpl.
      rewrite kclose_open, Ho, bool_decide_false by done. done. }
    intros x [Hx|(t1 & fd1 & p1 & Hne & H1 & Hx)]%kept_step; apply Hk.
    + exists t, fd, p. split; [done|by apply Hc].
    + by apply Hc.
    + by exists t1, fd1, p1.
    + intros ->. by eapply (I2 t1 _ _ t).
  - apply apart_step; [done|]. intros x t1 fd1 p1 Hx Hne H1. eapply (I2 t); [done|done|done|by apply Hc].
  - by apply two_step.
Qed.

(** The entry leaves the table: its descriptors, and what the pumps have of it,
    are the close's. *)
Lemma kinv_remove c t fd s inh : kinv c → closers c !! t = Some (fd, KRemove) → fds (kw c) !! fd = Some s →
  let p' := match handle s with Some h => KRecv s h | None => KInner s end in
  kinv (mkK (upd_fds (delete fd) (kw c)) (<[t := (fd, p')]> (closers c)) inh).
Proof.
  intros [[W1 W2 W3 W4] I2 I3] Hp Hs p'. destruct (W2 fd s Hs) as (Ha & Hne & Ho1 & Ho2).
  assert (∀ x, to_close p' x ↔ ends s x) as Hc by (intros x; unfold p'; by destruct (handle s)).
  assert (two_ends p') as H2 by (unfold p'; by destruct (handle s)).
  split; simpl; [split| |].
  - intros r h x Hx. destruct (W1 r h x Hx) as [(fd1 & s1 & H1 & Hh & Hx1)|Hl].
    + destruct (decide (fd1 = fd)) as [->|Hn].
      * right. rewrite Hs in H1. injection H1 as <-. exists t, fd, p'. rewrite lookup_insert_eq.
        split; [done|]. unfold p'. rewrite Hh. done.
      * left. exists fd1, s1. simpl. by rewrite lookup_delete_ne.
    + right. apply lent_step; [done|]. intros fd1 p1 H1. rewrite Hp in H1. by injection H1 as <- <-.
  - intros fd1 s1. simpl. intros [_ H1]%lookup_delete_Some. by apply W2.
  - intros fd1 s1 fd2 s2. simpl. intros [_ H1]%lookup_delete_Some [_ H3]%lookup_delete_Some. by eapply W3.
  - intros x [Hx|(t1 & fd1 & p1 & _ & H1 & Hx)]%kept_step.
    + apply Hc in Hx. split; [by destruct Hx as [->| ->]|]. intros fd1 s1. simpl. intros [Hn H1]%lookup_delete_Some.
      destruct (W2 fd1 s1 H1) as (Ha1 & _). destruct (W3 fd s fd1 s1 Hs H1 Hn) as [? ?].
      destruct (W3 fd1 s1 fd s H1 Hs) as [_ ?]; [done|]. destruct Hx as [->| ->]; split; congruence.
    + destruct (W4 x) as [Ho Hap]; [by exists t1, fd1, p1|]. split; [done|].
      intros fd2 s2. simpl. intros [_ H3]%lookup_delete_Some. by eapply Hap.
  - apply apart_step; [done|]. intros x t1 fd1 p1 Hx Hn H1 Hx1. apply Hc in Hx.
    destruct (W4 x) as [_ Hap]; [by exists t1, fd1, p1|]. destruct (Hap fd s Hs). by destruct Hx.
  - by apply two_step.
Qed.

(** * Taking the handle out of the pumps and the gates *)
Lemma forget_recv h (g : glob (K := K)) r h' x : within (upd_recv (unregister h) g) r h' x →
  within g r h' x ∧ (r = InRecv → h' ≠ h).
Proof.
  destruct r; [|by intros ?..]. intros (e & He & Hx). simpl in He.
  apply lookup_delete_Some in He as [Hn He]. split; [by exists e|by intros _ ->].
Qed.
Lemma forget_dgram h (g : glob (K := K)) r h' x : within (upd_dgram (dgram_unregister h) g) r h' x →
  within g r h' x ∧ (r = InDgram → h' ≠ h).
Proof.
  destruct r; [by intros ?..|]. intros (e & He & Hx). simpl in He; unfold dgram_unregister in He.
  apply lookup_delete_Some in He as [Hn He]. split; [by exists e|by intros _ ->].
Qed.
Lemma forget_out h (g : glob (K := K)) r h' x : within (out_unregister h g) r h' x →
  within g r h' x ∧ (r = InOut → h' ≠ h).
Proof.
  destruct r; [by intros ?| |by intros ?..]. simpl. intros [Hn He]%lookup_delete_Some. split; [done|by intros _ ->].
Qed.
Lemma forget_gate h (g : glob (K := K)) r h' x : within (upd_gates (delete h) g) r h' x → within g r h' x.
Proof. destruct r; [by intros ?..| |by intros ?]. simpl. by intros [_ He]%lookup_delete_Some. Qed.

Lemma world_forgets l k f w : (∀ h x, l InGates h x → l InOut h x) → world_ok l k w →
  (∀ r h x, within (f (pumps w)) r h x → within (pumps w) r h x) → g_kern (f (pumps w)) = g_kern (pumps w) →
  world_ok l k (upd_glob f w).
Proof.
  intros Hl Hok Hf Hk. apply glob_ok; [done| |done]. split; [intros r h x Hx; left; by apply Hf|].
  intros fd. by rewrite Hk.
Qed.

Variable front_len : list Z → nat.
Variable creds : option (str * str).
Variable src_call : option str.
Variable pad : list Z.

Lemma client_close_ok l k h w : (∀ h x, l InGates h x → l InOut h x) → world_ok l k w →
  world_ok l k (match ensure_client creds w with
                | (true, w) => snd (on_client (Client.close h) w)
                | (false, w) => w
                end).
Proof.
  intros Hl Hok. pose proof (ensure_client_ok creds l k Hl w Hok) as H1.
  destruct (ensure_client creds w) as [[] w1]; [|done]. apply on_client_ok; [done|apply close_harmless|done].
Qed.

Lemma kinv_close_step c t fd p inh : kinv c → closers c !! t = Some (fd, p) →
  (∀ s h, p = KOut s h → ∀ x, ends s x → g_gates (pumps (kw c)) !! h ≠ Some x) →
  let '(p', w') := close_step creds fd (p, kw c) in kinv (mkK w' (<[t := (fd, p')]> (closers c)) inh).
Proof.
  intros Hi Hp Hg. pose proof (ki_world c Hi) as W. pose proof (lent_out (closers c)) as Hl.
  pose proof (ki_two c Hi t fd p Hp) as H2.
  assert (∀ f p', (∀ r h x, within (f (pumps (kw c))) r h x → within (pumps (kw c)) r h x) →
    g_kern (f (pumps (kw c))) = g_kern (pumps (kw c)) →
    (∀ r h x, within (f (pumps (kw c))) r h x → to_forget p r h x → to_forget p' r h x) →
    (∀ x, to_close p' x → to_close p x) → two_ends p' →
    kinv (mkK (upd_glob f (kw c)) (<[t := (fd, p')]> (closers c)) inh)) as Hforget.
  { intros f p' Hf Hk Hfo Hcl Htw. apply (kinv_move c _ t fd p); [done|done| |exact Hfo|done|done].
    by apply world_forgets. }
  destruct p as [| |h| |s h|s h|s h|s h|s|s|r]; cbn [close_step].
  - destruct (is_ax25_fd _ _); by eapply kinv_move.
  - destruct (fds (kw c) !! fd ≫= handle); by eapply kinv_move.
  - eapply kinv_move; try done. by apply client_close_ok.
  - destruct (fds (kw c) !! fd) as [s|] eqn:Hs; [by apply kinv_remove|by eapply kinv_move].
  - apply Hforget; try done.
    + intros r h' x Hx. by apply forget_recv in Hx as [? _].
    + intros r h' x [_ Hn]%forget_recv [-> He]. split; [|done]. intros ->. by apply Hn.
  - apply Hforget; try done.
    + intros r h' x Hx. by apply forget_dgram in Hx as [? _].
    + intros r h' x [_ Hn]%forget_dgram (Hr & -> & He). split; [|done].
      destruct r; [done|by left|by right|]. by destruct Hn.
  - apply Hforget; try done.
    + intros r h' x Hx. by apply forget_out in Hx as [? _].
    + intros r h' x [Hx Hn]%forget_out ([-> | ->] & -> & He); [by destruct Hn|]. by apply (Hg s h eq_refl x He).
  - apply Hforget; try done. intros r h' x. apply forget_gate.
  - apply (kinv_kclose c t fd (KInner s) (KApp s)); simpl; [done|done|tauto|by right| |done].
    intros x ->. split; [by left|done].
  - apply (kinv_kclose c t fd (KApp s) (KDone (Val 0))); simpl; try done. tauto.
  - by eapply kinv_move.
Qed.

Lemma kinv_step a c : kact_ok a c → kinv c → kinv (kact_step front_len creds src_call pad a c).
Proof.
  intros Ha Hi. pose proof (lent_out (closers c)) as Hl. destruct a as [t fd|t|t h|t|l]; cbn [kact_step].
  - assert (∀ e, closers c !! t = e → match e with None | Some (_, KDone _) => True | _ => False end →
      kinv (mkK (kw c) (<[t := (fd, KAsk)]> (closers c)) (inhand c))) as Hb.
    { intros e He Hq. destruct Hi as [[W1 W2 W3 W4] I2 I3]. split; simpl; [split| |].
      - intros r h x Hx. destruct (W1 r h x Hx) as [?|?]; [by left|right]. apply lent_step; [done|].
        intros fd1 p1 H1. rewrite H1 in He. subst e. by destruct p1.
      - exact W2.
      - exact W3.
      - intros x [[]|(t1 & fd1 & p1 & _ & H1 & Hx)]%kept_step. apply W4. by exists t1, fd1, p1.
      - by apply apart_step.
      - by apply two_step. }
    destruct (closers c !! t) as [[fd1 []]|] eqn:He; try done; exact (Hb _ eq_refl I).
  - destruct (closers c !! t) as [[fd p]|] eqn:Hp; [|done].
    assert (∀ s h, p = KOut s h → ∀ x, ends s x → g_gates (pumps (kw c)) !! h ≠ Some x) as Hg.
    { intros s h ->. simpl in Ha. by rewrite Hp in Ha. }
    pose proof (kinv_close_step c t fd p (inhand c) Hi Hp Hg) as Hs. revert Hs. destruct (close_step creds fd (p, kw c)) as [p1 w1]. intros Hs. exact Hs.
  - destruct (inhand c !! t); [done|]. destruct (g_out (pumps (kw c)) !! h); [|done]. by destruct Hi.
  - destruct (inhand c !! t) as [[h i]|]; [|done].
    pose proof (krecv_open i 4096 (g_kern (pumps (kw c)))) as Ho.
    destruct (krecv i 4096 (g_kern (pumps (kw c)))) as [r k]. simpl in Ho. destruct Hi as [W I2 I3].
    assert (world_ok (lent (closers c)) (kept (closers c)) (upd_glob (upd_kern (λ _, k)) (kw c))) as W1.
    { apply glob_ok; [done| |done]. by apply settles_kern. }
    destruct r as [[|y b]|e]; [by split| |by split]. split; [|done|done]. cbn [kw closers].
    apply (world_ok_settles _ _ Hl (upd_glob (upd_kern (λ _, k)) (kw c))); [done| |exact W1]. apply (send_moves (on_sink settles) h (y :: b) _).
  - destruct Ha as (H1 & H2 & H3). destruct Hi as [W I2 I3]. split; [|done|done]. cbn [kw closers].
    by apply step_ok_world.
Qed.

Lemma kinv_run acts c : kacts_ok front_len creds src_call pad acts c → kinv c →
  kinv (krun front_len creds src_call pad acts c).
Proof.
  revert c. induction acts as [|a acts IH]; intros c; [done|]. intros [Ha Hok] Hi.
  apply IH; [done|]. by apply kinv_step.
Qed.

(** The process as it starts. *)
Definition kinitial (k : K) (evs : list event) (ds : list (result Framing.writer io_error)) : kstate :=
  mkK (initial k evs ds) ∅ ∅.
Lemma kinv_initial k evs ds : kinv (kinitial k evs ds).
Proof.
  split; simpl; [|by intros ??????? ?%lookup_empty_Some|by intros ??? ?%lookup_empty_Some].
  apply initial_ok. intros x (t & fd & p & Hp%lookup_empty_Some & _). done.
Qed.

Lemma lent_kept m r h x : lent m r h x → ∃ t fd p, m !! t = Some (fd, p) ∧ to_close p x ∧ to_forget p r h x.
Proof. intros (t & fd & p & Hp & Hf). exists t, fd, p. split_and!; [done| |done]. by destruct p; simpl in *; destruct_and?. Qed.

(** C10: however closes by any number of threads, of one descriptor or several,
    interleave with the reader, the pumps, the other calls and the rest of the
    process, each connected socket being used once and none closed with its gate
    up: at every step what a pump or a gate holds is open, and is an end of a live
    socket with that handle or of one whose close has yet to forget it; and what a
    close has yet to close is open, is nobody else's, another close's of the same
    descriptor included, and nothing refers to it once its turn has come. *)
Theorem close_threads_safe acts k evs ds :
  kacts_ok front_len creds src_call pad acts (kinitial k evs ds) →
  let c := krun front_len creds src_call pad acts (kinitial k evs ds) in
  (∀ h x, refers (pumps (kw c)) h x →
     kopen (g_kern (pumps (kw c))) x = true ∧ (live (kw c) h x ∨ ∃ r, lent (closers c) r h x)) ∧
  (∀ t fd p x, closers c !! t = Some (fd, p) → to_close p x →
     kopen (g_kern (pumps (kw c))) x = true ∧
     (∀ fd' s, fds (kw c) !! fd' = Some s → x ≠ app_fd s ∧ x ≠ State.inner_fd s) ∧
     (∀ t' fd' p', closers c !! t' = Some (fd', p') → t' ≠ t → ¬ to_close p' x) ∧
     match p with KInner _ | KApp _ => ∀ h, ¬ refers (pumps (kw c)) h x | _ => True end).
Proof.
  intros Hok c. destruct (kinv_run acts _ Hok (kinv_initial k evs ds)) as [W I2 I3]. fold c in W, I2, I3.
  split.
  - intros h x [r Hr]. destruct (wo_refs _ _ _ W r h x Hr) as [Hl|Hl].
    + split; [by eapply live_open|by left].
    + split; [|right; by exists r]. destruct (lent_kept _ _ _ _ Hl) as (t & fd & p & Hp & Hc & _).
      apply (wo_kept _ _ _ W). by exists t, fd, p.
  - intros t fd p x Hp Hc. destruct (wo_kept _ _ _ W x) as [Ho Hap]; [by exists t, fd, p|].
    split_and!; [done|done|intros t' fd' p' Hp' Hne Hc'; exact (I2 t' fd' p' t fd p x Hp' Hp Hne Hc' Hc)|].
    assert ((∀ r h, ¬ to_forget p r h x) → ∀ h, ¬ refers (pumps (kw c)) h x) as Hno.
    { intros Hf h [r Hr]. destruct (wo_refs _ _ _ W r h x Hr) as [(fd' & s & Hs & _ & Hx)|Hl].
      - destruct (Hap fd' s Hs). by destruct Hx.
      - destruct (lent_kept _ _ _ _ Hl) as (t' & fd' & p' & Hp' & Hc' & Hf').
        destruct (decide (t' = t)) as [->|Hne]; [|exact (I2 t' fd' p' t fd p x Hp' Hp Hne Hc' Hc)].
        rewrite Hp in Hp'. injection Hp' as <- <-. by apply Hf in Hf'. }
    destruct p; try done; apply Hno; by intros ? ? [].
Qed.

(** * By itself a close is [Interpose.close]. *)

Lemma close_done n fd r w : Nat.iter n (close_step creds fd) (KDone r, w) = (KDone r, w).
Proof. induction n as [|n IH]; [done|]. simpl. by rewrite IH. Qed.

Ltac one_step := rewrite Nat.iter_succ_r; cbn [close_step].

(** Ten steps of a close by itself, or fewer, are the interposed [close]: it
    returns what that returns and leaves the process as that does. *)
Lemma close_threads_sequential fd w :
  Nat.iter 10 (close_step creds fd) (KAsk, w) = (KDone (fst (close creds fd w)), snd (close creds fd w)).
Proof.
  unfold close. one_step. destruct (is_ax25_fd w fd); [|apply close_done]. one_step. cbn [fst snd].
  destruct (fds w !! fd ≫= handle) as [h|]; one_step; unfold destroy_ax25_fd.
  - set (w1 := match ensure_client creds w with (true, _) => _ | (false, _) => _ end).
    one_step. destruct (fds w1 !! fd) as [s|]; [|apply close_done].
    destruct (handle s); do 2 one_step; [do 4 one_step|]; apply close_done.
  - destruct (fds w !! fd) as [s|]; [|apply close_done].
    destruct (handle s); do 2 one_step; [do 4 one_step|]; apply close_done.
Qed.

(** A close that runs by itself for a while. *)
Lemma close_alone n t fd p c : closers c !! t = Some (fd, p) →
  krun front_len creds src_call pad (replicate n (KStep t)) c =
  let pw := Nat.iter n (close_step creds fd) (p, kw c) in mkK (snd pw) (<[t := (fd, fst pw)]> (closers c)) (inhand c).
Proof.
  revert p c. induction n as [|n IH]; intros p [w m inh] Hp; simpl in Hp; [simpl; by rewrite insert_id|].
  rewrite Nat.iter_succ_r. unfold krun in *. cbn [replicate foldl]. cbn [kact_step closers kw]. rewrite Hp.
  destruct (close_step creds fd (p, w)) as [p1 w1]. rewrite (IH p1) by apply lookup_insert_eq.
  cbn [closers kw inhand]. by rewrite insert_insert_eq.
Qed.

(** * What is left when a gate, or a thread, was in the way *)
Lemma dispatch_out f (st : sys (S := glob (K := K))) h i : decides h f →
  g_gates (sk st) !! h = Some i → g_out (sk st) !! h = None → g_out (sk (dispatch_push f st)) !! h = Some i.
Proof.
  intros [Hh Hf] Hg Ho. unfold dispatch_push. rewrite Hh.
  assert (∀ g : glob (K := K), g_gates g !! h = Some i → g_out g !! h = None →
    g_out (resolve_connect_gate h g) !! h = Some i) as Hres.
  { intros g Hg1 Ho1. unfold resolve_connect_gate, out_register. rewrite Hg1. simpl. rewrite Ho1. apply lookup_insert_eq. }
  destruct Hf as [[Ht Hfl]|Ht]; rewrite Ht; repeat (rewrite decide_False by done); rewrite decide_True by done.
  - rewrite (proj2 (Z.eqb_neq _ _) Hfl). simpl.
    rewrite (proj2 (Z.eqb_neq _ _) Hfl). by apply Hres.
  - by apply Hres.
Qed.

(** A gate whose link the reader sees decided, or closed, after a close has
    taken the handle out of the outbound pump and before it has taken it out of
    the gates puts it back there: the close ends with the outbound pump holding a
    descriptor that is closed. *)
Theorem close_gate_window t fd s h f bytes c :
  closers c !! t = Some (fd, KOut s h) → g_gates (pumps (kw c)) !! h = Some (State.inner_fd s) →
  parse bytes = Some f → id f = None → decides h f → closed (cl (rhp (kw c))) = false →
  let c' := krun front_len creds src_call pad
    [KStep t; KThread (LReader (NetFrame bytes)); KStep t; KStep t; KStep t] c in
  closers c' !! t = Some (fd, KDone (Val 0)) ∧ refers (pumps (kw c')) h (State.inner_fd s) ∧
  kopen (g_kern (pumps (kw c'))) (State.inner_fd s) = false.
Proof.
  intros Hp Hg Hb Hi Hd Hcl. unfold krun. cbn [foldl].
  set (w1 := upd_glob (out_unregister h) (kw c)).
  assert (kact_step front_len creds src_call pad (KStep t) c =
    mkK w1 (<[t := (fd, KGates s h)]> (closers c)) (inhand c)) as -> by (cbn [kact_step]; by rewrite Hp).
  cbn [kact_step do_step kw]. set (w2 := upd_rhp _ w1).
  assert (g_out (pumps w2) !! h = Some (State.inner_fd s)) as Ho.
  { unfold w2, pumps. cbn [upd_rhp rhp]. unfold net_step. change (cl (rhp w1)) with (cl (rhp (kw c))).
    rewrite Hcl. unfold handle_frame. rewrite Hb, Hi. apply dispatch_out; [done|exact Hg|apply lookup_delete_eq]. }
  cbn [closers inhand]. clearbody w2. rewrite lookup_insert_eq. cbn [close_step closers]. rewrite insert_insert_eq, lookup_insert_eq.
  cbn [close_step closers]. rewrite insert_insert_eq, lookup_insert_eq. cbn [close_step closers kw].
  split_and!; [apply lookup_insert_eq|by exists InOut|].
  unfold pumps. simpl. rewrite !kclose_open, (bool_decide_true (State.inner_fd s = State.inner_fd s)) by done.
  apply andb_false_r.
Qed.

(** C28: a thread that looked the entry of the outbound pump up before the close
    took it out drains the descriptor after it is closed: what is there when its
    number has been given to another socket is read, and sent for the handle that
    was closed. *)
Theorem drain_outlives_close t t' fd s h c :
  closers c !! t = Some (fd, KRemove) → fds (kw c) !! fd = Some s → handle s = Some h →
  inhand c !! t' = Some (h, State.inner_fd s) →
  let c1 := krun front_len creds src_call pad (replicate 7 (KStep t)) c in
  closers c1 !! t = Some (fd, KDone (Val 0)) ∧ g_out (pumps (kw c1)) !! h = None ∧
  kopen (g_kern (pumps (kw c1))) (State.inner_fd s) = false ∧
  ∀ k1 k2 b, b ≠ [] → krecv (State.inner_fd s) 4096 k1 = (Ok b, k2) →
    let c2 := krun front_len creds src_call pad [KThread (LEnv k1); KDrain t'] c1 in
    rhp (kw c2) = snd (Client.send h b (upd_sk (upd_kern (λ _, k2)) (rhp (kw c1)))).
Proof.
  intros Hp Hs Hh Ht c1.
  assert (∃ w1, c1 = mkK w1 (<[t := (fd, KDone (Val 0))]> (closers c)) (inhand c) ∧
    g_out (pumps w1) !! h = None ∧ kopen (g_kern (pumps w1)) (State.inner_fd s) = false) as (w1 & -> & Ho & Hk).
  { unfold c1. rewrite (close_alone 7 t fd KRemove) by done. one_step. rewrite Hs, Hh.
    do 6 one_step. cbn [Nat.iter fst snd].
    eexists. split_and!; [done|unfold pumps; simpl; apply lookup_delete_eq|].
    unfold pumps. simpl. rewrite !kclose_open, (bool_decide_true (State.inner_fd s = State.inner_fd s)) by done.
    apply andb_false_r. }
  cbn [closers kw]. split_and!; [apply lookup_insert_eq|done|done|].
  intros k1 k2 b Hb Hr. unfold krun. cbn [foldl kact_step do_step kw inhand]. rewrite Ht.
  change (g_kern (pumps (upd_glob (upd_kern (λ _, k1)) w1))) with k1. rewrite Hr.
  destruct b as [|y b]; [done|]. cbn [kw upd_rhp rhp].
  change (upd_sk (upd_kern (λ _, k2)) (upd_sk (upd_kern (λ _, k1)) (rhp w1))) with (upd_sk (upd_kern (λ _, k2)) (rhp w1)).
  reflexivity.
Qed.
End spec.

(** * Witnesses *)
Import Example.
#[local] Existing Instances Pairs.kernel_pairs Pairs.laws_pairs Pairs.fds_pairs Pairs.fds_laws_pairs.

Abbreviation kdo := (kact_step (K := Pairs.kernel) whole None None [0; 0; 0]).
Lemma take_kstep a acts (c c1 : kstate (K := Pairs.kernel)) :
  kact_ok a c → kdo a c = c1 → kacts_ok whole None None [0; 0; 0] acts c1 →
  kacts_ok whole None None [0; 0; 0] (a :: acts) c.
Proof. intros Ha <- Hok. by split. Qed.

(** One step, its condition and the state it leads to evaluated. *)
Ltac run_kstep := lazymatch goal with
  | |- kacts_ok _ _ _ _ (?a :: ?acts) ?c =>
    let c1 := eval vm_compute in (kdo a c) in
    apply (take_kstep a acts c c1);
      [first [exact I
             |vm_compute; intros ? _ [=]
             |split; [exact I|split; [first [exact I|intros ? Hs; vm_compute in Hs; injection Hs as <-; reflexivity]|exact I]]]
      |vm_cast_no_check (eq_refl c1)|]
  | |- kacts_ok _ _ _ _ [] _ => exact I
  end.

(** A socket is opened and connected; two threads close it, and both find it in the
    table; the pump takes its entry; the first close goes on to where it will close
    the descriptors, and the second returns. *)
Definition closing_acts : list (kact (K := Pairs.kernel)) :=
  [KThread (LCall (CSocket AF_AX25 SOCK_SEQPACKET));
   KThread (LFuture open_script [Ok (mkWriter [] None)]);
   KThread (LCall (CConnect 3 (Some (call_addr (lit "GB7RDG"))) 16));
   KClose 0 3; KClose 1 3; KStep 0; KStep 1; KLookup 2 7; KStep 0; KStep 1; KStep 0; KStep 1;
   KStep 0; KStep 1; KStep 0; KStep 0; KStep 0; KStep 0].

Lemma close_threads_safe_witness : ∃ c s,
  c = krun whole None None [0; 0; 0] closing_acts (kinitial Pairs.empty [] []) ∧
  closers c !! 0%nat = Some (3, KInner s) ∧ closers c !! 1%nat = Some (3, KDone (Val 0)) ∧
  kopen (g_kern (pumps (kw c))) 4 = true ∧ ∀ h, ¬ refers (pumps (kw c)) h 4.
Proof.
  assert (kacts_ok whole None None [0; 0; 0] closing_acts (kinitial Pairs.empty [] [])) as Hok
    by (unfold closing_acts, kinitial; repeat run_kstep).
  destruct (close_threads_safe whole None None [0; 0; 0] closing_acts Pairs.empty [] [] Hok) as [_ H].
  set (c := krun whole None None [0; 0; 0] closing_acts (kinitial Pairs.empty [] [])) in *.
  assert (∃ s, closers c !! 0%nat = Some (3, KInner s) ∧ State.inner_fd s = 4) as (s & Hs & Hi).
  { eexists. split; [vm_compute; reflexivity|reflexivity]. }
  exists c, s. split; [reflexivity|]. split; [exact Hs|]. split; [vm_compute; reflexivity|].
  destruct (H 0%nat 3 (KInner s) 4 Hs) as (Ho & _ & _ & Hn); [right; symmetry; exact Hi|].
  split; [exact Ho|exact Hn].
Defined.

Definition closing_socket : FdState := set_handle (Some 7) (new_fd 3 4 false).
Definition closing_world (gates outs : gmap Z Z) (tab : gmap Z FdState) : world (K := Pairs.kernel) :=
  mkWorld tab (mkSys (new_client (mkWriter [] None))
    (mkGlob pump_new ∅ outs gates (snd (Pairs.socketpair Pairs.empty))) []) true [] 0.

Definition status_frame : Frame := default (Tagged.VObj []) (parse (push (lit "status") 7)).
Lemma close_gate_window_witness :
  let c := mkK (closing_world {[7 := 4]} ∅ ∅) {[0%nat := (3, KOut closing_socket 7)]} ∅ in
  let c' := krun whole None None [0; 0; 0] [KStep 0; KThread (LReader (NetFrame (push (lit "status") 7)));
    KStep 0; KStep 0; KStep 0] c in
  refers (pumps (kw c')) 7 4 ∧ kopen (g_kern (pumps (kw c'))) 4 = false.
Proof.
  intros c c'.
  destruct (close_gate_window whole None None [0; 0; 0] 0 3 closing_socket 7 status_frame
    (push (lit "status") 7) c) as (_ & H1 & H2);
    [reflexivity|reflexivity|vm_compute; reflexivity|vm_compute; reflexivity| |reflexivity|].
  - split; [vm_compute; reflexivity|]. left. split; [vm_compute; reflexivity|]. vm_compute. discriminate.
  - split; [exact H1|exact H2].
Defined.

(** The numbers 3 and 4 are given to another pair, and [hi] is written into it. *)
Definition reused_kern : Pairs.kernel := snd (Pairs.send 3 [104; 105] (snd (Pairs.socketpair Pairs.empty))).
Lemma drain_outlives_close_witness :
  let c := mkK (closing_world ∅ {[7 := 4]} {[3 := closing_socket]}) {[0%nat := (3, KRemove)]} {[1%nat := (7, 4)]} in
  let c1 := krun whole None None [0; 0; 0] (replicate 7 (KStep 0)) c in
  let c2 := krun whole None None [0; 0; 0] [KThread (LEnv reused_kern); KDrain 1] c1 in
  kopen (g_kern (pumps (kw c1))) 4 = false ∧
  rhp (kw c2) = snd (Client.send 7 [104; 105] (upd_sk (upd_kern (λ _, snd (Pairs.recv 4 4096 reused_kern))) (rhp (kw c1)))).
Proof.
  intros c c1 c2.
  destruct (drain_outlives_close whole None None [0; 0; 0] 0 1 3 closing_socket 7 c) as (_ & _ & H1 & H2);
    [reflexivity|reflexivity|reflexivity|reflexivity|]. split; [exact H1|].
  apply (H2 reused_kern _ [104; 105]); [discriminate|vm_compute; reflexivity].
Defined.
