(* ===== verification/InboundSpec.v ===== *)
(** From the engine's frames to the application's descriptor: the reader thread's
    JSON, the client's dispatch, the sink and the receive pump together deliver
    what the engine sent on a handle, in order, and then the end of file. *)
From stdpp Require Import prelude gmap.
From Stdlib Require Import ZArith Lia String.
From S2P Require Import Prelude Str Errors Codec Framing Messages Client ClientSpec Sockets.
From S2P Require Import RecvPump RecvSpec DgramPump State PumpKeeps.
Local Open Scope Z_scope.

Section spec.
Context `{!SerdeJson} {K : Type} `{!Kernel K, !KernelLaws K} (front_len : list Z → nat).
Hypothesis front_len_ok : ∀ b, b ≠ [] → (1 ≤ front_len b ≤ List.length b)%nat.
Variables (h fd : Z).
Implicit Types (g : glob (K := K)) (st : sys (S := glob (K := K))) (k : K).

(** * What the engine said *)

(** The bytes a frame carries for the handle, and whether it closes it. *)
Definition frame_data (b : list Z) : list Z :=
  match parse b with
  | Some f =>
    if decide (typ f = lit "recv" ∧ Messages.handle f = Some h ∧ is_dgram_recv f = false)
    then default [] (from_wire_string <$> data_str f) else []
  | None => []
  end.
Definition frame_closes (b : list Z) : bool :=
  match parse b with
  | Some f => bool_decide (typ f = lit "close" ∧ Messages.handle f = Some h)
  | None => false
  end.

(** Steps of the reader, of the flusher and of the rest of the process. *)
Inductive inbound := IFrame (b : list Z) | IEnd | IFlush | IEnv (k : K).

Definition inbound_step (a : inbound) st : sys :=
  match a with
  | IFrame b => net_step (NetFrame b) st
  | IEnd => net_step NetEnd st
  | IFlush => upd_sk (flusher front_len) st
  | IEnv k => upd_sk (upd_kern (λ _, k)) st
  end.
Definition inbound_run (acts : list inbound) st : sys := foldl (λ st a, inbound_step a st) st acts.

(** The rest of the process does not write to the library's end, and does not
    reopen a socketpair. *)
Definition inbound_ok (a : inbound) st : Prop :=
  match a with
  | IEnv k => let k0 := g_kern (sk st) in
      written k fd = written k0 fd ∧ shut k fd = shut k0 fd ∧ (gone k0 fd = true → gone k fd = true)
  | _ => True
  end.
Fixpoint all_ok (acts : list inbound) st : Prop :=
  match acts with
  | [] => True
  | a :: r => inbound_ok a st ∧ all_ok r (inbound_step a st)
  end.

(** What has been sent on the handle, whether it was closed, and whether
    something came after that, as long as the stream lasted. *)
Record told := mkTold { t_data : list Z; t_closed : bool; t_late : bool; t_over : bool }.
Definition hear (t : told) (a : inbound) : told :=
  if t_over t then t else
  match a with
  | IFrame b => mkTold (t_data t ++ frame_data b) (t_closed t || frame_closes b)
      (t_late t || (t_closed t && negb (bool_decide (frame_data b = [])))) false
  | IEnd => mkTold (t_data t) true (t_late t) true
  | _ => t
  end.

(** * The invariant *)

(** What leaves the stream alone, on the descriptors it does not go to. *)
Definition spares k k' : Prop :=
  written k' fd = written k fd ∧ shut k' fd = shut k fd ∧
  (gone k fd = true → gone k' fd = true).
Definition elsewhere (_ : K) (x : Z) : Prop := x ≠ fd.

#[local] Instance spares_rel : KernelRel spares elsewhere.
Proof.
  split; [|done| |].
  - split; [by intros k|]. intros x y z (? & ? & ?) (? & ? & ?). split_and!; [congruence..|auto].
  - intros x d k Hd Hne. destruct (ksend x d k) as [[n|err] k'] eqn:Hk; simpl.
    + destruct (ksend_ok _ _ _ _ _ Hd Hk) as (_ & _ & _ & Hw & _ & _ & Hs & Hp).
      destruct (Hp fd). split_and!; [by apply Hw|apply Hs|congruence].
    + destruct (ksend_err _ _ _ _ _ Hk) as (Ho & _ & Hp & _). destruct (Ho fd), (Hp fd). split_and!; congruence.
  - intros x k Hne. destruct (kshutdown_ok x k) as (_ & Hs & Hw & _ & Hp).
    destruct (Hp fd). split_and!; [apply Hw|by apply Hs|congruence].
Qed.

(** Reading is not seen on the other side. *)
Lemma recv_spares x n k : (0 < n)%nat → True → spares k (snd (krecv x n k)).
Proof.
  intros Hn _. destruct (krecv x n k) as [[b|e] k'] eqn:Hk; simpl.
  - destruct (krecv_ok _ _ _ _ _ Hn Hk) as (_ & _ & _ & _ & Ho & Hp). destruct (Ho fd), (Hp fd). split_and!; congruence.
  - destruct (krecv_err _ _ _ _ _ Hn Hk) as (_ & _ & Ho & Hp). destruct (Ho fd), (Hp fd). split_and!; congruence.
Qed.

Definition tracks (t : told) g : Prop :=
  inv h fd (t_data t) (t_closed t) (t_late t) (g_recv g, g_kern g) ∧ dgram_fds_ok elsewhere (g_kern g) (g_dgram g).

(** Steps that are not about the stream. *)
Lemma tracks_quiet t g k' ds out gates :
  kept_by dgram_fds (g_dgram g) ds → spares (g_kern g) k' → tracks t g →
  tracks t (mkGlob (g_recv g) ds out gates k').
Proof.
  intros Hd Hsp [Hi He]. split; [|exact (dgram_fds_kept spares elsewhere _ _ _ _ Hsp Hd He)].
  destruct Hsp as (Hw & Hs & Hg). simpl. destruct (g_recv g) as [hs ea].
  apply (inv_other h fd _ _ _ _ _ hs ea k' Hi); try done. apply Hi.
Qed.

Lemma tracks_dgram t g x dg : tracks t g →
  tracks t (let '(ds, k) := dgram_push x dg (g_dgram g) (g_kern g) in
            upd_kern (λ _, k) (upd_dgram (λ _, ds) g)).
Proof.
  intros Ht. pose proof (dgram_push_keeps spares elsewhere x dg (g_dgram g) (g_kern g) (proj2 Ht)) as Hp.
  destruct (dgram_push _ _ _ _) as [ds k]. destruct Hp. by apply (tracks_quiet t g).
Qed.

Lemma tracks_resolve t x g : tracks t g → tracks t (resolve_connect_gate x g).
Proof.
  intros Ht. unfold resolve_connect_gate. destruct (g_gates g !! x) as [inner|]; [|done].
  apply (tracks_quiet t g); [reflexivity| |done].
  by apply (drain_keeps spares elsewhere (λ _, True) recv_spares).
Qed.

(** The pump's operations. *)
Lemma tracks_pump op t g : op_ok h fd op → tracks t g →
  let '(ps, k) := pump_step front_len op (g_recv g) (g_kern g) in
  tracks (mkTold (t_data t ++ data_of h op) (t_closed t || marks h op)
            (t_late t || late_push h (t_closed t) op) (t_over t))
    (upd_kern (λ _, k) (upd_recv (λ _, ps) g)).
Proof.
  intros Hop [Hi Hd].
  pose proof (pump_inv_step front_len front_len_ok h fd op _ _ _ _ _ Hop Hi) as H1.
  destruct (pump_step front_len op (g_recv g) (g_kern g)) as [ps k]. by split.
Qed.

Lemma tracks_disconnect t g : tracks t g →
  tracks (mkTold (t_data t) true (t_late t) true) (on_disconnect g).
Proof.
  intros Ht. cbn [on_disconnect InterposeSink]. set (g1 := foldr _ g _).
  assert (tracks t g1) as H1.
  { unfold g1. induction (fst <$> map_to_list (g_gates g)) as [|x xs IH]; [done|]. by apply tracks_resolve. }
  clearbody g1. pose proof (tracks_pump ShutdownAll t g1 I H1) as H2. simpl in H2.
  rewrite app_nil_r, orb_true_r in H2. unfold late_push in H2. simpl in H2.
  rewrite andb_false_r, orb_false_r in H2. unfold dgram_shutdown_all.
  pose proof (shutdown_entries_keeps spares elsewhere (map_to_list (g_dgram g1)) (g_dgram g1) (g_kern g1)
    (proj2 H1)) as Hs.
  cbn [upd_recv g_dgram g_kern].
  destruct (shutdown_entries _ _ _) as [ds k]. destruct Hs as [J1 J2].
  - intros x e Hin%elem_of_map_to_list. by exists e.
  - apply NoDup_fst_map_to_list.
  - by apply (tracks_quiet _ _ k ds (g_out g1) (g_gates g1)) in H2.
Qed.

Lemma tracks_push f b t st : parse b = Some f → t_over t = false → tracks t (sk st) →
  tracks (hear t (IFrame b)) (sk (dispatch_push f st)).
Proof.
  intros Hb Hov Ht. unfold hear, frame_data, frame_closes. rewrite Hov, Hb.
  assert (∀ g, tracks t g → tracks (mkTold (t_data t ++ []) (t_closed t || false)
    (t_late t || (t_closed t && negb (bool_decide (([] : list Z) = [])))) false) g) as Hnone.
  { intros g [Hi Hd]. split; [|done]. simpl. by rewrite app_nil_r, !andb_false_r, !orb_false_r. }
  unfold dispatch_push.
  destruct (decide (typ f = lit "recv")) as [Hty|Hty].
  { rewrite (bool_decide_false (typ f = lit "close" ∧ _)) by (rewrite Hty; by intros [? _]).
    destruct (Messages.handle f) as [x|].
    2:{ rewrite decide_False by (by intros (_ & ? & _)). by apply Hnone. }
    destruct (is_dgram_recv f).
    { rewrite decide_False by (by intros (_ & _ & ?)). apply Hnone. simpl. by apply tracks_dgram. }
    simpl. pose proof (tracks_pump (Push x (default [] (from_wire_string <$> data_str f))) t (sk st) I Ht) as H1.
    simpl in H1. destruct (push x _ _ _) as [ps k]. unfold late_push in H1. simpl in H1.
    destruct (decide (x = h)) as [->|Hne].
    - rewrite decide_True by done. by rewrite Hov in H1.
    - rewrite decide_False by (intros (_ & [= ?] & _); done). by rewrite Hov in H1. }
  rewrite (decide_False (P := typ f = lit "recv" ∧ _)) by tauto.
  destruct (decide (typ f = lit "accept")) as [Ha|Ha].
  { rewrite (bool_decide_false (typ f = lit "close" ∧ _)) by (rewrite Ha; by intros [? _]).
    apply Hnone. destruct (Messages.handle f), (child f); done. }
  destruct (decide (typ f = lit "status")) as [Hs|Hs].
  { rewrite (bool_decide_false (typ f = lit "close" ∧ _)) by (rewrite Hs; by intros [? _]).
    apply Hnone. destruct (Messages.handle f) as [x|]; [|done]. simpl.
    destruct (Z.land _ _ =? 0); simpl; [done|by apply tracks_resolve]. }
  destruct (decide (typ f = lit "close")) as [Hc|Hc].
  - destruct (Messages.handle f) as [x|];
      [|rewrite bool_decide_false by (by intros [_ ?]); by apply Hnone].
    pose proof (tracks_pump (MarkEof x) t _ I (tracks_resolve t x _ Ht)) as H1. simpl in H1.
    unfold late_push in H1. simpl in H1. rewrite Hov in H1.
    assert (bool_decide (x = h) = bool_decide (typ f = lit "close" ∧ Some x = Some h)) as <-.
    { apply bool_decide_ext. split; [by intros ->|by intros [_ [= ?]]]. }
    exact H1.
  - rewrite bool_decide_false by tauto. by apply Hnone.
Qed.

Record hears (t : told) st : Prop := {
  he_tracks : tracks t (sk st);
  he_idle : pending (cl st) = ∅;
  he_over : closed (cl st) = t_over t }.

Lemma hear_nothing t g b : parse b = None → t_over t = false → tracks t g → tracks (hear t (IFrame b)) g.
Proof.
  intros Hb Hov [Hi Hd]. split; [|done]. unfold hear, frame_data, frame_closes. rewrite Hov, Hb. simpl.
  by rewrite app_nil_r, !andb_false_r, !orb_false_r.
Qed.

Lemma hears_step a t st : inbound_ok a st → hears t st → hears (hear t a) (inbound_step a st).
Proof.
  intros Hok [Ht Hp Hc]. destruct a as [b| | |k]; simpl.
  - destruct (t_over t) eqn:Hov.
    { assert (net_step (NetFrame b) st = st) as -> by (unfold net_step; by rewrite Hc).
      unfold hear. rewrite Hov. by split; rewrite ?Hov. }
    assert (net_step (NetFrame b) st = push_frame st b) as ->.
    { unfold net_step. rewrite Hc. apply handle_frame_push. intros. by rewrite Hp, lookup_empty. }
    destruct (pushes_keeps [b] st) as (Hp' & _ & Hc' & _). simpl in Hp', Hc'.
    assert (t_over (hear t (IFrame b)) = false) as Ho by (unfold hear; by rewrite Hov).
    split; [|congruence|congruence]. unfold push_frame.
    destruct (parse b) as [f|] eqn:Hb; [by apply tracks_push|by apply hear_nothing].
  - unfold net_step. rewrite Hc. unfold hear. destruct (t_over t) eqn:Hov; [by split; rewrite ?Hov|].
    split; [|done|done]. by apply (tracks_disconnect t (sk st)).
  - pose proof (tracks_pump Flush t (sk st) I Ht) as H1. unfold late_push in H1. simpl in H1.
    rewrite app_nil_r, orb_false_r, andb_false_r, orb_false_r in H1.
    assert (hear t IFlush = t) as -> by (unfold hear; by destruct (t_over t)).
    split; [|done|done]. simpl. unfold flusher.
    destruct (flusher_round front_len _ _) as [ps k]. by destruct t.
  - assert (hear t (IEnv k) = t) as -> by (unfold hear; by destruct (t_over t)).
    destruct Hok as (Hw & Hs & Hg). split; [|done|done]. simpl.
    by apply (tracks_quiet t (sk st) k).
Qed.

Lemma hears_run acts t st : all_ok acts st → hears t st →
  hears (foldl hear t acts) (inbound_run acts st).
Proof.
  revert t st. induction acts as [|a acts IH]; intros t st Hok Ht; [done|].
  destruct Hok as [Ha Hok]. simpl. apply IH; [done|]. by apply hears_step.
Qed.

(** After the flusher's round. *)
Lemma flush_last acts st e : last acts = Some IFlush →
  handles (g_recv (sk (inbound_run acts st))) !! h = Some e → flushed (g_kern (sk (inbound_run acts st))) e.
Proof.
  intros [acts' ->]%last_Some. unfold inbound_run. rewrite foldl_app. simpl.
  set (st1 := foldl _ st acts'). clearbody st1. unfold flusher.
  pose proof (flusher_round_flushed front_len front_len_ok (g_recv (sk st1)) (g_kern (sk st1)) h e) as Hf.
  destruct (flusher_round _ _ _) as [ps k]. exact Hf.
Qed.

(** C3: what the engine sends on a handle is what the application's descriptor
    gets: over any frames, on this handle and others, the end of the stream, the
    flusher's rounds and what the rest of the process does, no request being in
    flight: as long as the handle is there, the bytes its end has accepted
    followed by the backlog are those that were staged followed by the data of
    the handle's frames, decoded, in order; the end of file is due once the
    handle was closed or the stream ended, and is given only when nothing is
    left.  Once the flusher has made a round, either nothing is left and the end
    of file, if it is due, has been given, or the application has bytes to read
    before there is room, or an end of the pair is closed.  The handle is
    dropped, and nothing more said of its bytes, only when an end of the pair is
    closed or the engine sends data after its close. *)
Theorem inbound_stream staged acts st :
  handles (g_recv (sk st)) !! h = Some (mkPendingRecv fd staged false false) →
  others_elsewhere h fd (handles (g_recv (sk st))) → (∀ x e, g_dgram (sk st) !! x = Some e → d_inner_fd e ≠ fd) →
  written (g_kern (sk st)) fd = [] → shut (g_kern (sk st)) fd = false →
  pending (cl st) = ∅ → closed (cl st) = false → all_ok acts st →
  let t := foldl hear (mkTold [] false false false) acts in
  let st' := inbound_run acts st in let k' := g_kern (sk st') in
  match handles (g_recv (sk st')) !! h with
  | Some e =>
    written k' fd ++ buf e = staged ++ t_data t ∧ eof e = t_closed t ∧
    shut k' fd = eof_done e ∧ (eof_done e = true → eof e = true ∧ buf e = []) ∧
    (last acts = Some IFlush →
      (buf e = [] ∧ (t_closed t = true → shut k' fd = true)) ∨
      unread k' (peer k' fd) ≠ [] ∨ gone k' fd = true)
  | None => gone k' fd = true ∨ t_late t = true
  end.
Proof.
  intros Hh Ho Hd Hw Hs Hp Hc Hok t st' k'.
  assert (∀ acts s, let t1 := foldl hear (mkTold s false false false) acts in
    let t0 := foldl hear (mkTold [] false false false) acts in
    t_data t1 = s ++ t_data t0 ∧ t_closed t1 = t_closed t0 ∧ t_late t1 = t_late t0) as Hshift.
  { clear. intros acts s.
    assert (∀ d c l o, let t1 := foldl hear (mkTold (s ++ d) c l o) acts in
      let t0 := foldl hear (mkTold d c l o) acts in
      t_data t1 = s ++ t_data t0 ∧ t_closed t1 = t_closed t0 ∧ t_late t1 = t_late t0) as Hgen.
    { induction acts as [|a acts IH]; intros d c l o; [done|]. simpl. unfold hear at 2 4 6 8 10 12. simpl.
      destruct o; [apply IH|]. destruct a; try apply IH. rewrite <- app_assoc. apply IH. }
    specialize (Hgen [] false false false). by rewrite app_nil_r in Hgen. }
  destruct (Hshift acts staged) as (E1 & E2 & E3). fold t in E1, E2, E3.
  assert (hears (mkTold staged false false false) st) as Hst.
  { split; [|done|done]. split; [|done]. split; [done|]. simpl. rewrite Hh. by constructor; rewrite ?Hw. }
  destruct (hears_run acts _ st Hok Hst) as [[[_ Hi] _] _ _]. fold st' in Hi. simpl in Hi. fold k' in Hi.
  rewrite E1, E2, E3 in Hi. pose proof (flush_last acts st) as Hfl. fold st' in Hfl. fold k' in Hfl.
  destruct (handles (g_recv (sk st')) !! h) as [e|]; [|exact Hi].
  pose proof Hi as [H1 H2 H3 H4 H5]. split_and!; try done.
  intros Hl. eapply flushed_inv; [exact Hi|by apply Hfl].
Qed.
End spec.

(** * Witness: a banner that came early, some data, a close. *)
Import Example.
#[local] Existing Instances Pairs.kernel_pairs Pairs.laws_pairs.

Definition data_push (h : Z) (d : list Z) : list Z :=
  Tagged.enc [(lit "type", JStr (lit "recv")); (lit "handle", JNum h); (lit "data", JStr (to_wire_string d))].
Definition inbound_start : sys (S := glob) :=
  mkSys (new_client (mkWriter [] None))
    (mkGlob (mkPumpState {[7 := mkPendingRecv 4 [108; 111] false false]} ∅) ∅ ∅ ∅ one_pair) [].
Definition inbound_acts : list (inbound (K := Pairs.kernel)) :=
  [IFrame (data_push 7 [103; 255]); IFrame (data_push 8 [1]); IFrame (push (lit "close") 7); IFlush].

Lemma inbound_stream_witness :
  let st' := inbound_run whole inbound_acts inbound_start in
  written (g_kern (sk st')) 4 = [108; 111; 103; 255] ∧ shut (g_kern (sk st')) 4 = true.
Proof.
  intros st'.
  pose proof (inbound_stream whole whole_ok 7 4 [108; 111] inbound_acts inbound_start eq_refl) as Hi.
  assert (∃ e, handles (g_recv (sk st')) !! 7 = Some e ∧ eof_done e = true) as (e & He & Hed)
    by (eexists; split; vm_compute; reflexivity).
  cbv zeta in Hi. fold st' in Hi. rewrite He in Hi.
  assert (t_data (foldl (hear 7) (mkTold [] false false false) inbound_acts) = [103; 255]) as Hd
    by (vm_compute; reflexivity).
  destruct Hi as (H1 & _ & H3 & H4 & _).
  - intros x e' Hx Hl. cbn in Hl. apply lookup_singleton_Some in Hl as [<- _]. done.
  - intros x e' Hl. cbn in Hl. by rewrite lookup_empty in Hl.
  - reflexivity.
  - reflexivity.
  - reflexivity.
  - reflexivity.
  - repeat split.
  - destruct (H4 Hed) as [_ Hb]. rewrite Hb, app_nil_r, Hd in H1.
    split; [exact H1|by rewrite H3].
Defined.
