(* ===== verification/LinkSpec.v ===== *)
(** Two processes at the ends of a link: what one application writes, by the
    interposed calls or past them, is what the other's descriptor gets, through the
    client's requests, the engine, the other reader's frames and its receive pump.

    [OutSpec] and [InboundSpec] composed.  The engine is a hypothesis: a [send] for
    a handle at one end comes out as a [recv] of the handle at the other end, with
    its data, in order. *)
From stdpp Require Import prelude gmap.
From Stdlib Require Import ZArith Lia String.
From S2P Require Import Prelude Str Errors Codec Framing Messages Client ClientSpec Sockets.
From S2P Require Import RecvPump RecvSpec DgramPump State OutSpec InboundSpec.
Local Open Scope Z_scope.

Section spec.
Context `{!SerdeJson, !SerdeJsonLaws} {K1 K2 : Type} `{!Kernel K1, !KernelLaws K1, !Kernel K2, !KernelLaws K2}.
Variable front_len : list Z → nat.
Hypothesis front_len_ok : ∀ b, b ≠ [] → (1 ≤ front_len b ≤ List.length b)%nat.
(** The handles of the link's ends; the socketpairs' descriptors. *)
Variables (h1 h2 app inner fd : Z).

(** * The engine *)
Definition sends_data (h : Z) (p d : list Z) : Prop := ∃ f, parse p = Some f ∧
  typ f = lit "send" ∧ Messages.handle f = Some h ∧ data_str f = Some (to_wire_string d).
Definition carries (h : Z) (q : list Z) : Prop :=
  match parse q with
  | Some f => typ f = lit "recv" ∧ Messages.handle f = Some h ∧ is_dgram_recv f = false
  | None => False
  end.
#[local] Instance carries_dec h q : Decision (carries h q).
Proof. unfold carries. destruct (parse q); apply _. Defined.
Definition recv_data (q : list Z) : option str := parse q ≫= data_str.

(** A request it was sent, and what it sends the other end for it. *)
Definition relays (p q : list Z) : Prop :=
  ∀ d, Forall is_byte d → sends_data h1 p d → carries h2 q ∧ recv_data q = Some (to_wire_string d).

(** The stream frames of a handle, while the transport lasts. *)
Fixpoint recvs (h : Z) (acts : list (inbound (K := K2))) : list (list Z) :=
  match acts with
  | IEnd :: _ | [] => []
  | IFrame b :: acts => if decide (carries h b) then b :: recvs h acts else recvs h acts
  | _ :: acts => recvs h acts
  end.

Lemma frame_data_carries b : frame_data h2 b = if decide (carries h2 b) then default [] (from_wire_string <$> recv_data b) else [].
Proof.
  destruct (decide (carries h2 b)) as [Hc|Hc]; unfold carries in Hc; unfold frame_data, recv_data;
    destruct (parse b) as [f|]; simpl; [by rewrite decide_True|done|by rewrite decide_False|done].
Qed.

Lemma heard_recvs acts d c l : t_data (foldl (hear h2) (mkTold d c l false) acts) = d ++ (recvs h2 acts ≫= frame_data h2).
Proof.
  revert d c l. induction acts as [|a acts IH]; intros d c l; [by rewrite app_nil_r|].
  simpl. unfold hear at 2. cbn [t_over t_data t_closed t_late]. destruct a as [b| | |k].
  - rewrite IH, frame_data_carries. destruct (decide (carries h2 b)) as [Hc|Hc]; [|by rewrite app_nil_r].
    rewrite <- app_assoc. f_equal. csimpl. rewrite frame_data_carries. by rewrite decide_True.
  - simpl. rewrite app_nil_r. clear IH. induction acts as [|a acts IH]; [done|]. exact IH.
  - apply IH.
  - apply IH.
Qed.

Lemma relayed_data i ps ds qs : sends h1 i ps ds → Forall (Forall is_byte) ds → Forall2 relays ps qs →
  qs ≫= frame_data h2 = mjoin ds.
Proof.
  intros Hs Hb Hr. revert i ds Hs Hb. induction Hr as [|p q ps qs Hpq _ IH]; intros i [|d ds] Hs Hb; try done.
  destruct Hs as [(f & Hp & Ht & _ & Hh & Hd) Hs]. apply Forall_cons in Hb as [Hb Hbs].
  destruct (Hpq d Hb) as [Hc Hq]; [by exists f|]. csimpl. rewrite (IH _ _ Hs Hbs).
  rewrite frame_data_carries, decide_True, Hq by done. simpl. by rewrite from_to_wire.
Qed.

Lemma out_log_bytes ops (st : sys (S := glob (K := K1))) : Forall out_op_ok ops →
  Forall is_byte (fst (out_run app h1 ops st)).
Proof.
  intros Hops. revert st. induction Hops as [|op ops Hop _ IH]; intros st; [constructor|]. cbn [out_run].
  assert (Forall is_byte (fst (out_step app h1 op st))) as Hd.
  { destruct op as [d|d|]; simpl in *; [|done|constructor]. destruct (ksend app d _) as [[n|e] k]; simpl; [|constructor].
    by apply Forall_take, Hop. }
  specialize (IH (snd (out_step app h1 op st))). destruct (out_step app h1 op st) as [d st1]. simpl in *.
  destruct (out_run app h1 ops st1). simpl in *. by apply Forall_app.
Qed.

Lemma frames_short ps : (List.length ps ≤ List.length (ps ≫= frame_bytes))%nat.
Proof.
  induction ps as [|p ps IH]; [done|]. csimpl. rewrite length_app.
  assert (1 ≤ List.length (frame_bytes p))%nat by (unfold frame_bytes, to_be_bytes; simpl; lia). lia.
Qed.

(** C2: with an engine that hands on, in order, what it is sent for one end of a
    link to the other end: the bytes the descriptor of the receiving application
    has accepted, then the backlog of its pump, then what the sending library has
    yet to read of its socketpair, are together the bytes the sending application
    has written, by interposed writes and past them, in the order it wrote them,
    whatever frames on other handles, turns of the pumps and events in either
    process come between.  The engine acknowledges every request with nothing else
    arriving at the sender in between, the receiver has no request in flight, and
    nothing is said once the receiving handle is dropped. *)
Theorem link_stream ops replies rest (st1 : sys (S := glob (K := K1))) acts (st2 : sys (S := glob (K := K2))) :
  0 ≤ h1 < 2 ^ 64 → Forall out_op_ok ops → connected app inner h1 st1 → can_send replies rest st1 →
  writer (cl st1) = mkWriter [] None →
  (List.length (pending_out inner st1) + sum_list_with out_cost ops ≤ List.length replies)%nat →
  handles (g_recv (sk st2)) !! h2 = Some (mkPendingRecv fd [] false false) →
  others_elsewhere h2 fd (handles (g_recv (sk st2))) → (∀ x e, g_dgram (sk st2) !! x = Some e → d_inner_fd e ≠ fd) →
  written (g_kern (sk st2)) fd = [] → shut (g_kern (sk st2)) fd = false →
  pending (cl st2) = ∅ → closed (cl st2) = false → all_ok front_len fd acts st2 →
  let '(log, st1') := out_run app h1 ops st1 in
  let wire := wr_bytes (writer (cl st1')) in
  (∀ ps, read_frames (S (List.length wire)) (mkReader wire None) = Ok ps → Forall2 relays ps (recvs h2 acts)) →
  let st2' := inbound_run front_len acts st2 in
  match handles (g_recv (sk st2')) !! h2 with
  | Some e => written (g_kern (sk st2')) fd ++ buf e ++ pending_out inner st1' = pending_out inner st1 ++ log
  | None => gone (g_kern (sk st2')) fd = true ∨ t_late (foldl (hear h2) (mkTold [] false false false) acts) = true
  end.
Proof.
  intros Hh Hops Hcn Hst Hw Hlen Hh2 Ho Hd Hw2 Hs2 Hp2 Hc2 Hok.
  pose proof (out_run_forwards app inner h1 ops replies rest st1 Hh Hops Hcn Hst Hlen) as Hrun.
  pose proof (out_log_bytes ops st1 Hops) as Hlog. destruct (out_run app h1 ops st1) as [log st1'].
  destruct Hrun as [(ds & ps & Hs & Hj & _ & _ & Hcn') _]. intros wire Hrel st2'.
  assert (read_frames (S (List.length wire)) (mkReader wire None) = Ok ps) as Hread.
  { unfold wire. rewrite (hs_writer _ _ _ _ _ Hs), Hw. cbn [wr_bytes]. rewrite app_nil_l.
    apply read_frames_concat; [apply Hs|]. pose proof (frames_short ps). lia. }
  assert (Forall (Forall is_byte) ds) as Hb.
  { assert (Forall is_byte (mjoin ds)) as Hm.
    { assert (Forall is_byte (mjoin ds ++ pending_out inner st1')) as Ha.
      { rewrite Hj. apply Forall_app. split; [apply Hcn|done]. }
      by apply Forall_app in Ha as [? _]. }
    clear -Hm. induction ds as [|d ds IH]; [done|]. change (mjoin (d :: ds)) with (d ++ mjoin ds) in Hm.
    apply Forall_app in Hm as [? ?]. constructor; [done|by apply IH]. }
  assert (hears h2 fd (mkTold [] false false false) st2) as Hst2.
  { split; [|done|done]. split; [|done]. split; [done|]. simpl. rewrite Hh2. by constructor; rewrite ?Hw2. }
  destruct (hears_run front_len front_len_ok h2 fd acts _ st2 Hok Hst2) as [[[_ Hi] _] _ _]. fold st2' in Hi.
  simpl in Hi. destruct (handles (g_recv (sk st2')) !! h2) as [e|]; [|exact Hi].
  destruct Hi as [_ Hdata _ _ _]. rewrite app_assoc, Hdata, heard_recvs, app_nil_l.
  by rewrite (relayed_data _ ps ds _ (hs_sends _ _ _ _ _ Hs) Hb (Hrel ps Hread)).
Qed.
End spec.

(** * Witness: the writes of [OutSpec], and a frame of another handle on the way. *)
Import Example.
#[local] Existing Instances Pairs.kernel_pairs Pairs.laws_pairs.

Definition link_end : sys (S := glob (K := Pairs.kernel)) :=
  mkSys (new_client (mkWriter [] None))
    (mkGlob (mkPumpState {[8 := mkPendingRecv 4 [] false false]} ∅) ∅ ∅ ∅ one_pair) [].
Definition link_acts : list (inbound (K := Pairs.kernel)) :=
  [IFrame (data_push 8 [1; 2]); IFrame (data_push 9 [7]); IFrame (data_push 8 [3]); IFrame (data_push 8 [4]); IFlush].

Lemma relays_by h1 h2 p q :
  (∀ f s, parse p = Some f → data_str f = Some s → carries h2 q ∧ recv_data q = Some s) → relays h1 h2 p q.
Proof. intros Hpq d _ (f & Hp & _ & _ & Hd). by apply (Hpq f). Qed.

Lemma link_stream_witness :
  let st' := inbound_run whole link_acts link_end in
  ∃ e, handles (g_recv (sk st')) !! 8 = Some e ∧
    written (g_kern (sk st')) 4 ++ buf e ++ pending_out 4 (snd (out_run 3 7 out_ops out_start)) = [1; 2; 3; 4].
Proof.
  intros st'.
  assert (fst (out_run 3 7 out_ops out_start) = [1; 2; 3; 4]) as Hlog by (vm_compute; reflexivity).
  assert (∀ ps, read_frames (Datatypes.S (List.length (wr_bytes (writer (cl (snd (out_run 3 7 out_ops out_start)))))))
      (mkReader (wr_bytes (writer (cl (snd (out_run 3 7 out_ops out_start))))) None) = Ok ps →
    Forall2 (relays 7 8) ps (recvs 8 link_acts)) as Hrel.
  { intros ps Hps. vm_compute in Hps. injection Hps as <-.
    assert (recvs 8 link_acts = [data_push 8 [1; 2]; data_push 8 [3]; data_push 8 [4]]) as ->
      by (vm_compute; reflexivity).
    repeat (apply Forall2_cons; split; [apply relays_by; intros f s Hp Hs; vm_compute in Hp; injection Hp as <-;
      vm_compute in Hs; injection Hs as <-; split; vm_compute; [repeat split; reflexivity|reflexivity]|]).
    apply Forall2_nil; exact I. }
  pose proof (link_stream whole whole_ok 7 8 3 4 4 out_ops out_replies [] out_start link_acts link_end) as Hl.
  assert (∃ e, handles (g_recv (sk st')) !! 8 = Some e) as [e He] by (eexists; vm_compute; reflexivity).
  destruct (out_run 3 7 out_ops out_start) as [log st1']. simpl in Hlog, Hrel. subst log.
  cbv zeta in Hl. fold st' in Hl. rewrite He in Hl. exists e. split; [exact He|].
  change [1; 2; 3; 4] with (pending_out 4 out_start ++ [1; 2; 3; 4]). apply Hl.
  - by_decide.
  - repeat constructor; by_decide.
  - split; [vm_compute; reflexivity|vm_compute; reflexivity|constructor].
  - split; [reflexivity|reflexivity|reflexivity|by_decide| |reflexivity].
    ack_by 1. ack_by 2. ack_by 3. ack_by 4. exact I.
  - reflexivity.
  - apply Nat.leb_le. vm_compute. reflexivity.
  - reflexivity.
  - intros x e' Hx Hl'. cbn in Hl'. apply lookup_singleton_Some in Hl' as [<- _]. destruct (Hx eq_refl).
  - intros x e' Hl'. cbn in Hl'. rewrite lookup_empty in Hl'. discriminate Hl'.
  - reflexivity.
  - reflexivity.
  - reflexivity.
  - reflexivity.
  - repeat split.
  - exact Hrel.
Defined.
