(* ===== verification/UnitTests.v ===== *)
(** The repository's unit tests, run on the definitions: [libax25/src/addr.rs] and
    [config.rs], [rhpv2/src/codec.rs], [framing.rs], [errors.rs], [messages.rs] and
    [client.rs], [ax25-interpose/src/addr.rs] and [state.rs].

    One Definition per test function, under its name: the conjunction of its
    assertions.  A JSON text in a test is the encoding of its fields by the instance
    [Tagged]; the socketpairs are those of [Pairs].  The mock engine of the client's
    tests is a function from the requests it has read to what it has sent by then
    ([Mock]), and a sleep is a moment at which the scheduler lets the other side
    run.  The test with a mebibyte of data is not run but proved to pass. *)
From stdpp Require Import prelude gmap.
From Stdlib Require Import ZArith Lia String.
From S2P Require Import Prelude Str Addr Config IAddr Codec Framing Errors Messages Client ClientSpec.
From S2P Require Import Sockets RecvPump RecvSpec ReadLoop.
Local Open Scope Z_scope.
Import Example.
#[local] Existing Instances Pairs.kernel_pairs Pairs.laws_pairs.

Definition assert_eq {A} `{EqDecision A} (a b : A) : bool := bool_decide (a = b).
Definition ret_is {A} (o : outcome A) (P : A → bool) : bool := match o with Ret a => P a | _ => false end.
(** [unwrap]. *)
Definition unwrap {A} (o : option A) (P : A → bool) : bool := match o with Some a => P a | None => false end.

(** * libax25/src/addr.rs *)
Module AddrTests.
Definition encoded (call : string) (P : list Z → bool) : bool :=
  ret_is (Addr.encode_entry (lit call)) (λ e, unwrap e P).
Definition rejected (call : string) : bool := ret_is (Addr.encode_entry (lit call)) (λ e, assert_eq e None).
(** [roundtrip(call)]. *)
Definition roundtrip (call res : string) : bool := encoded call (λ e, assert_eq (Addr.decode_entry e) (lit res)).

Definition m0lte_1_round_trips : bool :=
  encoded "M0LTE-1" (λ e,
    assert_eq e [Z.shiftl 77 1; Z.shiftl 48 1; Z.shiftl 76 1; Z.shiftl 84 1; Z.shiftl 69 1; Z.shiftl 32 1;
                 Z.shiftl 1 1] &&
    assert_eq (Addr.decode_entry e) (lit "M0LTE-1")).
Definition ssid_zero_is_omitted_on_decode : bool := roundtrip "M0LTE" "M0LTE" && roundtrip "M0LTE-0" "M0LTE".
Definition high_ssid_round_trips : bool :=
  roundtrip "GB7RDG-15" "GB7RDG-15" && roundtrip "GB7RDG-10" "GB7RDG-10".
Definition six_char_callsign_round_trips : bool := roundtrip "GB7RDG" "GB7RDG".
Definition invalid_symbol_rejected : bool := rejected "M0*TE" && rejected "M0LTE-16" && rejected "M0LTE-99".
Definition cmp_detects_ssid_only_difference : bool :=
  encoded "M0LTE-1" (λ a, encoded "M0LTE-2" (λ b, encoded "M0LTE-1" (λ c, encoded "G0ABC-1" (λ d,
    assert_eq (Addr.cmp_entry a c) 0 && assert_eq (Addr.cmp_entry a b) 2 && assert_eq (Addr.cmp_entry a d) 1)))).
Definition validate_accepts_real_and_rejects_garbage : bool :=
  encoded "M0LTE-1" Addr.validate_entry && negb (Addr.validate_entry [1; 2; 3; 4; 5; 6; 0]).
Definition null_address_decodes_empty : bool :=
  assert_eq (Addr.decode_entry (Addr.as_u8 (Addr.ax25_call Addr.null_ax25_address))) [].
Definition all : list bool := [m0lte_1_round_trips; ssid_zero_is_omitted_on_decode; high_ssid_round_trips;
  six_char_callsign_round_trips; invalid_symbol_rejected; cmp_detects_ssid_only_difference;
  validate_accepts_real_and_rejects_garbage; null_address_decodes_empty].
End AddrTests.

(** * libax25/src/config.rs *)
Module ConfigTests.
Definition SAMPLE : str := Config.sample.
Definition ports_of (s : str) (P : list ParsedPort → bool) : bool := ret_is (Config.parse_axports s) P.
Definition calls_of (s : str) (P : list CallEntry → bool) : bool := ret_is (Config.parse_calls s) P.

Definition parses_all_valid_lines_without_netdevice_filter : bool :=
  ports_of SAMPLE (λ ports, assert_eq (List.length ports) 3%nat &&
    unwrap (ports !! 0%nat) (λ p, assert_eq (pp_name p) (lit "radio") && assert_eq (pp_call p) (lit "M0LTE-1") &&
      assert_eq (pp_baud p) 9600 && assert_eq (pp_paclen p) 255 && assert_eq (pp_window p) 4 &&
      assert_eq (pp_description p) (lit "2m packet via pdn"))).
Definition strips_trailing_dash_zero_from_callsign : bool :=
  ports_of SAMPLE (λ ports, unwrap (ports !! 1%nat) (λ p, assert_eq (pp_call p) (lit "GB7RDG"))).
Definition skips_comments_blank_lines_and_bad_lines : bool :=
  ports_of (lit "# comment
good   M0LTE   9600 255 4 ok desc

bad_missing_fields   M0LTE
zerowin   G0XYZ   9600 255 0 window is zero
") (λ ports, assert_eq (List.length ports) 1%nat &&
      unwrap (ports !! 0%nat) (λ p, assert_eq (pp_name p) (lit "good"))).
Definition rejects_duplicate_name_and_callsign : bool :=
  ports_of (lit "p1   M0LTE   9600 255 4 first
p1   G0XYZ   9600 255 4 dup name
p2   M0LTE   9600 255 4 dup call
") (λ ports, assert_eq (List.length ports) 1%nat).
Definition parses_uid_callsign_lines : bool :=
  calls_of (lit "# uid callsign
1000 M0LTE-1
1001 g0abc
") (λ es, assert_eq (List.length es) 2%nat &&
      unwrap (es !! 0%nat) (λ e, assert_eq (ce_uid e) 1000 && assert_eq (ce_call e) (lit "M0LTE-1")) &&
      unwrap (es !! 1%nat) (λ e, assert_eq (ce_uid e) 1001 && assert_eq (ce_call e) (lit "G0ABC"))).
Definition skips_comments_blanks_and_invalid_lines : bool :=
  calls_of (lit "# comment
0 M0LTE

notanum G0XYZ
1000
1001 !!!invalid!!!
") (λ es, assert_eq (List.length es) 1%nat &&
      unwrap (es !! 0%nat) (λ e, assert_eq (ce_uid e) 0 && assert_eq (ce_call e) (lit "M0LTE"))).
Definition rejects_duplicate_uid : bool :=
  calls_of (lit "1000 M0LTE
1000 G0XYZ
") (λ es, assert_eq (List.length es) 1%nat &&
      unwrap (es !! 0%nat) (λ e, assert_eq (ce_call e) (lit "M0LTE"))).
Definition all : list bool := [parses_all_valid_lines_without_netdevice_filter;
  strips_trailing_dash_zero_from_callsign; skips_comments_blank_lines_and_bad_lines;
  rejects_duplicate_name_and_callsign; parses_uid_callsign_lines; skips_comments_blanks_and_invalid_lines;
  rejects_duplicate_uid].
End ConfigTests.

(** * ax25-interpose/src/addr.rs *)
Module IAddrTests.
Definition encode_decode_round_trips : bool :=
  forallb (λ call, assert_eq (IAddr.decode (IAddr.encode (lit call))) (lit call))
    ["M0LTE"; "M0LTE-1"; "GB7RDG-15"; "G0ABC"]%string.
(** The fields of the address by their offsets. *)
Definition write_sockname_puts_local_call_in_digipeater0 : bool :=
  let size := Z.to_nat Addr.size_of_full_sockaddr in
  match IAddr.write_sockname (Some (replicate size 0)) (Some size) (lit "GB7RDG-1") with
  | (Some buf, Some len) =>
    assert_eq (le_value (IAddr.field 0 2 buf)) Addr.AF_AX25 &&
    assert_eq (IAddr.decode (Addr.as_i8 (IAddr.field 16 7 buf))) (lit "GB7RDG-1") &&
    assert_eq (IAddr.decode (Addr.as_i8 (IAddr.field 2 7 buf))) (lit "GB7RDG-1") && assert_eq len size
  | _ => false
  end.
Definition all : list bool := [encode_decode_round_trips; write_sockname_puts_local_call_in_digipeater0].
End IAddrTests.

(** * rhpv2/src/codec.rs, errors.rs, framing.rs *)
Module CodecTests.
Definition all_bytes : list Z := seqZ 0 256.
Definition round_trips_all_256_byte_values : bool :=
  let wire := Codec.to_wire_string all_bytes in
  assert_eq (List.length wire) 256%nat && assert_eq (Codec.from_wire_string wire) all_bytes.
Definition round_trips_awkward_control_and_high_bytes : bool :=
  forallb (λ b, let wire := Codec.to_wire_string [b] in
    assert_eq (List.length wire) 1%nat && assert_eq (Codec.from_wire_string wire) [b])
    [0x00; 0x0D; 0x0A; 0x22; 0x5C; 0x7F; 0x80; 0xA0; 0xFF].
Definition survives_json_serialization_round_trip : bool :=
  unwrap (to_vec [(lit "data", JStr (Codec.to_wire_string all_bytes))]) (λ json,
    unwrap (from_slice json) (λ parsed, unwrap (Messages.get parsed (lit "data") ≫= as_str) (λ wire,
      assert_eq (Codec.from_wire_string wire) all_bytes))).
Definition all : list bool := [round_trips_all_256_byte_values; round_trips_awkward_control_and_high_bytes;
  survives_json_serialization_round_trip].
End CodecTests.

Module ErrorsTests.
Definition maps_known_codes : bool :=
  assert_eq (errcode_to_errno 0) 0 && assert_eq (errcode_to_errno 3) EBADF &&
  assert_eq (errcode_to_errno 8) EAFNOSUPPORT && assert_eq (errcode_to_errno 17) ENOTCONN.
Definition unknown_codes_map_to_eio : bool :=
  assert_eq (errcode_to_errno 9999) EIO && assert_eq (errcode_to_errno 1) EIO.
Definition all : list bool := [maps_known_codes; unknown_codes_map_to_eio].
End ErrorsTests.

Module FramingTests.
Definition ping : list Z := [123; 34] ++ lit "type" ++ [34; 58; 34] ++ lit "ping" ++ [34; 125].
Definition write_then_read_round_trips : bool :=
  match write_frame (mkWriter [] None) ping with
  | (Ok _, w) =>
    let buf := wr_bytes w in
    assert_eq (take 2 buf) [0x00; 0x0F] &&
    match read_frame (mkReader buf None) with (Ok (Some frame), _) => assert_eq frame ping | _ => false end
  | _ => false
  end.
Definition clean_eof_returns_none : bool :=
  match read_frame (mkReader [] None) with (Ok None, _) => true | _ => false end.
Definition oversize_payload_is_rejected : bool :=
  match write_frame (mkWriter [] None) (replicate (Z.to_nat (MAX_FRAME + 1)) 0) with (Err _, _) => true | _ => false end.
Definition all : list bool := [write_then_read_round_trips; clean_eof_returns_none; oversize_payload_is_rejected].
End FramingTests.

(** * rhpv2/src/messages.rs *)
Module MessagesTests.
(** [Frame::parse] of a text with these fields. *)
Definition frame (fs : list (string * jfield)) (P : Frame → bool) : bool :=
  unwrap (Messages.parse (Tagged.enc ((λ f, (lit f.1, f.2)) <$> fs))) P.
Abbreviation S s := (JStr (lit s)).

(** [s.contains(..)] of a field is that the request has it. *)
Definition open_request_serialises_type_first_and_omits_none : bool :=
  let s := fields (Build_OpenReq (lit "open") 7 (lit "ax25") (lit "stream") None (lit "M0LTE")
             (Some (lit "GB7RDG")) None OPEN_FLAG_ACTIVE) in
  match s with (k, JStr t) :: _ => assert_eq k (lit "type") && assert_eq t (lit "open") | _ => false end &&
  match assoc (lit "port") s with None => true | Some _ => false end &&
  match assoc (lit "flags") s with Some (JNum n) => assert_eq n 128 | _ => false end &&
  match assoc (lit "remote") s with Some (JStr r) => assert_eq r (lit "GB7RDG") | _ => false end.
Definition reply_reads_capitalised_errcode : bool :=
  frame [("type", S "openReply"); ("id", JNum 7); ("handle", JNum 42); ("errCode", JNum 0); ("errText", S "Ok")]%string
    (λ f, assert_eq (typ f) (lit "openReply") && assert_eq (Messages.id f) (Some 7) &&
          assert_eq (Messages.handle f) (Some 42) && assert_eq (errcode f) 0 && assert_eq (errtext f) (Some (lit "Ok"))).
Definition push_has_seqno_and_no_id : bool :=
  frame [("type", S "recv"); ("handle", JNum 42); ("data", S "hi"); ("seqno", JNum 3)]%string
    (λ f, assert_eq (Messages.id f) None && assert_eq (seqno f) (Some 3) && assert_eq (data_str f) (Some (lit "hi"))).
Definition sendto_serialises_type_first_with_pid_in_data_and_no_pid_field : bool :=
  let data := 0xF0 :: lit "hello" in
  let s := fields (Build_SendToReq (lit "sendto") 3 9 (lit "BEACON") (lit "M0LTE-2") data) in
  match s with (k, JStr t) :: _ => assert_eq k (lit "type") && assert_eq t (lit "sendto") | _ => false end &&
  match assoc (lit "pid") s with None => true | Some _ => false end &&
  unwrap (to_vec s) (λ b, unwrap (from_slice b) (λ v,
    let str_of k := Messages.get v (lit k) ≫= as_str in
    assert_eq (str_of "remote"%string) (Some (lit "BEACON")) && assert_eq (str_of "local"%string) (Some (lit "M0LTE-2")) &&
    assert_eq (str_of "data"%string) (Some data))).
Definition dgram_recv_push_is_detected_by_remote_or_port : bool :=
  frame [("type", S "recv"); ("handle", JNum 7); ("remote", S "G0ABC-1"); ("local", S "M0LTE"); ("port", S "1");
         ("data", S "hi")]%string
    (λ f, is_dgram_recv f && assert_eq (Messages.remote f) (Some (lit "G0ABC-1"))) &&
  frame [("type", S "recv"); ("handle", JNum 7); ("data", S "hi"); ("seqno", JNum 1)]%string
    (λ f, negb (is_dgram_recv f)).
Definition status_flags_reads_flags_then_falls_back_to_errcode : bool :=
  forallb (λ k, frame [("type", S "status"); ("handle", JNum 7); (k, JNum 2)]%string
    (λ f, assert_eq (status_flags f) STATUS_CONNECTED)) ["flags"; "status"; "errCode"]%string.
Definition all : list bool := [open_request_serialises_type_first_and_omits_none; reply_reads_capitalised_errcode;
  push_has_seqno_and_no_id; sendto_serialises_type_first_with_pid_in_data_and_no_pid_field;
  dgram_recv_push_is_detected_by_remote_or_port; status_flags_reads_flags_then_falls_back_to_errcode].
End MessagesTests.

(** * The mock engine

    [handler] is the thread of [spawn_mock]: what it has sent once it has read these
    requests.  A test is run on what the engine sends in answer to its requests, the
    requests on what was sent before them: each round of [served] lets the engine
    read one more. *)
Module Mock.
Definition requests_of (w : Framing.writer) : list Frame :=
  match read_frames (List.length (wr_bytes w)) (mkReader (wr_bytes w) None) with
  | Ok bs => omap Messages.parse bs
  | Err _ => []
  end.
Fixpoint served {A} (rounds : nat) (handler : list Frame → list event) (test : list event → A * list Frame)
    (sent : list event) : A :=
  match rounds with
  | O => fst (test sent)
  | Datatypes.S rounds => served rounds handler test (handler (snd (test sent)))
  end.

Definition text (fs : list (string * jfield)) : event :=
  NetFrame (Tagged.enc ((λ f, (lit f.1, f.2)) <$> fs)).
(** The reply [{typ}Reply] with id and handle. *)
Definition reply_to (f : Frame) (h : Z) : event :=
  NetFrame (Tagged.enc [(lit "type", JStr (typ f ++ lit "Reply")); (lit "id", JNum (default 0 (Messages.id f)));
    (lit "handle", JNum h); (lit "errCode", JNum 0); (lit "errText", JStr (lit "Ok"))]).
(** Answers the first request and goes on to send [pushes]; between sends it sleeps. *)
Definition answers_one (h : Z) (pushes : list event) (reqs : list Frame) : list event :=
  match reqs with f :: _ => reply_to f h :: Wake :: pushes | [] => [] end.
End Mock.

(** * rhpv2/src/client.rs *)
Module ClientTests.
Import Mock.
Section tests.
Context {S : Type} `{!RhpEventSink S}.
(** [RhpClient::connect_to(addr, sink)], then the test's calls. *)
Definition with_client {A} (sink : S) (calls : sys (S := S) → A * sys (S := S)) (evs : list event) : A * list Frame :=
  let '(a, st) := calls (mkSys (new_client (mkWriter [] None)) sink evs) in (a, requests_of (writer (cl st))).
End tests.

Definition open_connect_from (loc : string) : act (sys (S := unit)) OpenResult RhpError :=
  open_connect (lit loc) (lit "GB7RDG") [].

Definition open_correlates_reply_by_id : bool :=
  served 1 (λ reqs, match reqs with
                    | f :: _ => if assert_eq (typ f) (lit "open") then answers_one 42 [] reqs else []
                    | [] => [] end)
    (with_client tt (λ st, match open_connect_from "M0LTE-1" st with
                           | (Ok res, st) => (assert_eq (or_handle res) 42, st)
                           | (Err _, st) => (false, st) end)) [].

Definition recv_push_routes_to_sink : bool :=
  served 1 (answers_one 7 [text [("type", JStr (lit "recv")); ("handle", JNum 7); ("data", JStr (lit "AB"));
                                 ("seqno", JNum 0)]%string])
    (with_client (∅ : gmap Z HandleBuf) (λ st,
       match open_connect (lit "M0LTE") (lit "GB7RDG") [] st with
       | (Ok res, st) => let st := elapse st in
         (assert_eq (or_handle res) 7 && assert_eq (fst (buffering_take 7 (sk st))) [0x41; 0x42], st)
       | (Err _, st) => (false, st) end)) [].

Definition server_error_maps_to_errno : bool :=
  served 1 (λ reqs, match reqs with
                    | f :: _ => [text [("type", JStr (lit "openReply")); ("id", JNum (default 0 (Messages.id f)));
                                       ("errCode", JNum 8); ("errText", JStr (lit "Bad family"))]%string; Wake]
                    | [] => [] end)
    (with_client tt (λ st, match open_connect_from "M0LTE" st with
                           | (Err e, st) => (assert_eq (to_errno e) EAFNOSUPPORT, st)
                           | (Ok _, st) => (false, st) end)) [].

Definition ok_is (o : option (result unit Z)) : bool := match o with Some (Ok _) => true | _ => false end.
Definition err_is (o : option (result unit Z)) (e : Z) : bool := match o with Some (Err e') => assert_eq e' e | _ => false end.

(** That the wait was for the push: before it the result is none. *)
Definition connect_completes_only_after_status_connected_push : bool :=
  served 1 (answers_one 5 [text [("type", JStr (lit "status")); ("handle", JNum 5); ("flags", JNum 2)]%string; Wake])
    (with_client tt (λ st,
       match open_connect_from "M0LTE" st with
       | (Ok res, st) =>
         let before := connect_result 5 st in
         let '(outcome, st) := wait_connected 5 true st in
         (assert_eq (or_handle res) 5 && match before with None => true | Some _ => false end &&
          ok_is outcome && ok_is (connect_result 5 st), st)
       | (Err _, st) => (false, st) end)) [].

Definition connect_fails_on_close_push : bool :=
  served 1 (answers_one 9 [text [("type", JStr (lit "close")); ("handle", JNum 9)]%string; Wake])
    (with_client tt (λ st,
       match open_connect_from "M0LTE" st with
       | (Ok res, st) =>
         let '(outcome, st) := wait_connected 9 true st in
         let '(e1, st) := take_connect_error 9 st in
         let '(e2, st) := take_connect_error 9 st in
         (assert_eq (or_handle res) 9 && err_is outcome ECONNREFUSED && assert_eq e1 ECONNREFUSED && assert_eq e2 0, st)
       | (Err _, st) => (false, st) end)) [].

Definition connect_failure_uses_close_reason_errcode : bool :=
  served 1 (answers_one 4 [text [("type", JStr (lit "close")); ("handle", JNum 4); ("errCode", JNum 15)]%string; Wake])
    (with_client tt (λ st,
       match open_connect_from "M0LTE" st with
       | (Ok res, st) => let '(outcome, st) := wait_connected 4 true st in
         (assert_eq (or_handle res) 4 && err_is outcome EHOSTUNREACH, st)
       | (Err _, st) => (false, st) end)) [].

Definition listener : act (sys (S := unit)) Z RhpError :=
  (h <-? Client.socket; _ <-? Client.bind h (lit "GB7RDG-1") None; _ <-? Client.listen h; aret h)%act.
Definition accept_push_surfaces_child_with_peer_callsign : bool :=
  served 3 (λ reqs, (take 3 reqs ≫= λ f, [reply_to f 3; Wake]) ++
      (if (3 <=? Z.of_nat (List.length reqs))
       then [text [("type", JStr (lit "accept")); ("handle", JNum 3); ("child", JNum 77);
                   ("remote", JStr (lit "M0ABC-2")); ("local", JStr (lit "GB7RDG-1"))]%string; Wake] else []))
    (with_client tt (λ st,
       match listener st with
       | (Ok h, st) =>
         let '(none, st) := try_accept h st in
         match wait_accept h true st with
         | (Some (Some info), st) =>
           (match none with None => true | Some _ => false end && assert_eq (child_handle info) 77 &&
            assert_eq (ai_remote info) (Some (lit "M0ABC-2")) && assert_eq (ai_local info) (Some (lit "GB7RDG-1")), st)
         | (_, st) => (false, st)
         end
       | (Err _, st) => (false, st) end)) [].

(** [seen[i]["key"]]. *)
Definition seen_str (seen : list Frame) (i : nat) (k : string) : option str :=
  seen !! i ≫= λ f, Messages.get f (lit k) ≫= as_str.
Definition socket_dgram_requests_custom_mode_and_sendto_carries_pid_in_data : bool :=
  let wire := 0xF0 :: lit "de M0LTE" in
  served 2 (λ reqs, take 2 reqs ≫= λ f, [reply_to f 21; Wake])
    (with_client tt (λ st,
       match socket_dgram st with
       | (Ok h, st) =>
         let '(r, st) := Client.sendto h (lit "BEACON") (lit "M0LTE-2") wire st in
         let seen := requests_of (writer (cl st)) in
         (assert_eq h 21 && match r with Ok _ => true | Err _ => false end &&
          assert_eq (seen_str seen 0 "type") (Some (lit "socket")) && assert_eq (seen_str seen 0 "mode") (Some (lit "custom")) &&
          assert_eq (seen_str seen 1 "type") (Some (lit "sendto")) && assert_eq (seen_str seen 1 "remote") (Some (lit "BEACON")) &&
          assert_eq (seen_str seen 1 "local") (Some (lit "M0LTE-2")) &&
          match seen !! 1%nat ≫= λ f, Messages.get f (lit "pid") with None => true | Some _ => false end &&
          assert_eq (seen_str seen 1 "data") (Some wire), st)
       | (Err _, st) => (false, st) end)) [].

(** A sink that keeps the last datagram. *)
Definition DgramSink : Type := option (option str * option str * list Z).
#[local] Instance DgramSink_sink : RhpEventSink DgramSink := {|
  on_recv _ _ s := s; on_dgram _ source dest data _ := Some (source, dest, data); on_accept _ _ _ _ s := s;
  on_status _ _ s := s; on_close _ s := s; on_disconnect s := s |}.
Definition dgram_recv_push_routes_to_on_dgram_with_source_and_pid_in_data : bool :=
  served 1 (answers_one 8 [text [("type", JStr (lit "recv")); ("handle", JNum 8); ("remote", JStr (lit "G0ABC-1"));
      ("local", JStr (lit "APRS")); ("port", JStr (lit "0")); ("data", JStr (0xF0 :: lit "!pos"))]%string])
    (with_client (None : DgramSink) (λ st,
       match socket_dgram st with
       | (Ok h, st) => let st := elapse st in
         (assert_eq h 8 && match sk st with
          | Some (src, dst, d) => assert_eq src (Some (lit "G0ABC-1")) && assert_eq dst (Some (lit "APRS")) &&
                                  assert_eq d (0xF0 :: lit "!pos")
          | None => false end, st)
       | (Err _, st) => (false, st) end)) [].

Definition transport_drop_faults_blocked_connect_and_accept : bool :=
  served 1 (answers_one 11 [NetEnd; Wake])
    (with_client tt (λ st,
       match open_connect_from "M0LTE" st with
       | (Ok res, st) =>
         let '(outcome, st) := wait_connected (or_handle res) false st in
         let '(accepted, st) := wait_accept 999 false st in
         (match outcome with Some (Err _) => true | _ => false end && match accepted with Some None => true | _ => false end, st)
       | (Err _, st) => (false, st) end)) [].

Definition all : list bool := [open_correlates_reply_by_id; recv_push_routes_to_sink; server_error_maps_to_errno;
  connect_completes_only_after_status_connected_push; connect_fails_on_close_push;
  connect_failure_uses_close_reason_errcode; accept_push_surfaces_child_with_peer_callsign;
  socket_dgram_requests_custom_mode_and_sendto_carries_pid_in_data;
  dgram_recv_push_routes_to_on_dgram_with_source_and_pid_in_data;
  transport_drop_faults_blocked_connect_and_accept].
End ClientTests.

(** * ax25-interpose/src/state.rs *)
Module StateTests.
(** The test with [total] bytes; the loop is that of [ReadLoop.v]. *)
Definition bulk_follows (total : nat) : bool :=
  match ksocketpair Pairs.empty with
  | (Some (app, inner), k) =>
    let handle := 0x5EED0001 in
    let data := pattern total 0 in
    let '(st, k) := RecvPump.push handle data (register handle inner pump_new) k in
    unwrap (read_to_eof whole (S total) app (mark_eof handle st) k []) (λ got, assert_eq got data)
  | (None, _) => false
  end.
Definition recv_pump_never_drops_data_and_eof_follows_backlog : bool := bulk_follows (Z.to_nat (1024 * 1024)).

Definition early_recv_before_register_is_delivered_not_dropped : bool :=
  match ksocketpair Pairs.empty with
  | (Some (app, inner), k) =>
    let handle := 0x5EED0004 in
    let banner := lit "login: " in
    let '(st, k) := RecvPump.push handle banner pump_new k in
    let '(st, k) := flusher_round whole (register handle inner st) k in
    match krecv app 64 k with (Ok b, _) => assert_eq b banner | (Err _, _) => false end
  | (None, _) => false
  end.
(** It passes with any number of bytes, too many to run it as the others are. *)
Lemma bulk_follows_all total : bulk_follows total = true.
Proof.
  assert (ksocketpair Pairs.empty = (Some (3, 4), one_pair)) as Hp by (vm_compute; reflexivity).
  unfold bulk_follows. rewrite Hp. pose proof (read_whole whole whole_ok pairs_at_eof 0x5EED0001 3 4 (pattern total 0)
    pump_new one_pair) as Hr.
  assert (default [] (early pump_new !! 0x5EED0001) = []) as He by (vm_compute; reflexivity).
  cbv zeta in Hr. rewrite He, app_nil_l, length_pattern in Hr.
  destruct (RecvPump.push _ (pattern total 0) _ _) as [st k].
  rewrite Hr; [|intros x e _ Hx; cbn in Hx; by rewrite lookup_empty in Hx|vm_compute; reflexivity..].
  simpl. by apply bool_decide_true.
Qed.
End StateTests.
