(* ===== verification/EndToEnd.v ===== *)
(** The end-to-end tests of [ax25-interpose/src/lib.rs], run on the definitions.

    [mock] is the mock engine of [spawn_mock], from the requests it has read to what
    it has sent by then; the test is the application's calls, in the order of the
    source, with its assertions.  The engine's answers depend on the requests and
    the requests on the answers, so the test is run in rounds, as in [UnitTests]:
    in each the engine has read one request more.  A push that the engine delays is
    sent after its reply has been seen, and waiting ([poll_writable] with a timeout)
    lets the reader run up to it. *)
From stdpp Require Import prelude gmap.
From Stdlib Require Import ZArith Lia String.
From S2P Require Import Prelude Str Addr IAddr Codec Framing Errors Messages Client ClientSpec Sockets.
From S2P Require Import RecvPump RecvSpec DgramPump State Interpose Process UnitTests.
Local Open Scope Z_scope.
Import Example.
#[local] Existing Instances Pairs.kernel_pairs.

#[local] Instance ret_eq_dec : EqDecision ret.
Proof. solve_decision. Defined.

(** * The mock engine *)
Definition reply_body (i : Z) (h : option Z) : event :=
  NetFrame (Tagged.enc ([(lit "type", JStr (lit "reply")); (lit "id", JNum i)] ++
    match h with Some h => [(lit "handle", JNum h)] | None => [] end ++
    [(lit "errCode", JNum 0); (lit "errText", JStr (lit "Ok"))])).

Definition mock_answer (next : Z) (f : Frame) : list event * Z :=
  let i := default 0 (Messages.id f) in
  if decide (typ f = lit "open") then
    ([reply_body i (Some next); Wake;
      Mock.text [("type", JStr (lit "status")); ("handle", JNum next); ("flags", JNum 2)]%string; Wake], next + 1)
  else if decide (typ f = lit "socket") then ([reply_body i (Some next); Wake], next + 1)
  else if decide (typ f = lit "sendto") then
    ([reply_body i None; Wake] ++
     match Messages.handle f with
     | Some h => [Mock.text [("type", JStr (lit "recv")); ("handle", JNum h); ("remote", JStr (lit "G0ABC-1"));
                   ("local", JStr (lit "GB7RDG-2")); ("port", JStr (lit "0"));
                   ("data", JStr (0xF0 :: lit "beacon-rx"))]%string; Wake]
     | None => []
     end, next)
  else if decide (typ f = lit "listen") then
    ([reply_body i None; Wake;
      Mock.text [("type", JStr (lit "accept")); ("handle", JNum (default 0 (Messages.handle f))); ("child", JNum next);
        ("remote", JStr (lit "M0ABC-2")); ("local", JStr (lit "GB7RDG-1"))]%string; Wake], next + 1)
  else ([reply_body i None; Wake], next).
Fixpoint mock (next : Z) (reqs : list Frame) : list event :=
  match reqs with
  | [] => []
  | f :: reqs => let '(evs, next) := mock_answer next f in evs ++ mock next reqs
  end.

(** * The test's steps: calls on the process, and assertions that end it. *)
Abbreviation proc := (world (K := Pairs.kernel)).
Definition tm (A : Type) : Type := proc → option A * proc.
Definition tret {A} (a : A) : tm A := λ w, (Some a, w).
Definition tbind {A B} (m : tm A) (f : A → tm B) : tm B := λ w,
  match m w with (Some a, w) => f a w | (None, w) => (None, w) end.
Definition call {A} (f : proc → A * proc) : tm A := λ w, let '(a, w) := f w in (Some a, w).
Definition look {A} (f : proc → A) : tm A := λ w, (Some (f w), w).
Definition assert (b : bool) : tm unit := λ w, (if b then Some tt else None, w).
Notation "x <-- m ;; k" := (tbind m (λ x, k)) (at level 60, m at next level, right associativity).
Notation "m ;;; k" := (tbind m (λ _, k)) (at level 60, right associativity).

Definition sax25 (c : string) : option (list Z) := Some (sockaddr_bytes [0; 0; 0] (IAddr.encode (lit c)) 0).
Definition fd_of (r : ret) : tm Z := match r with Val n => assert (0 <=? n) ;;; tret n | _ => assert false ;;; tret 0 end.
Definition returns (n : Z) (r : ret) : tm unit := assert (bool_decide (r = Val n)).
Definition kern_of (w : proc) : Pairs.kernel := g_kern (sk (rhp w)).
Definition poll_writable (fd : Z) : tm bool := look (λ w, (0 <? Z.of_nat (space (kern_of w) fd))).
Definition so_error (fd : Z) : tm Z :=
  x <-- call (getsockopt None fd SOL_SOCKET SO_ERROR (Some [255; 255; 255; 255], Some 4)) ;;
  tret (read_c_int (default [] (fst (snd x)))).
Definition requests : tm (list Frame) := look (λ w, Mock.requests_of (writer (cl (rhp w)))).
(** What the mock keeps of the frames of a type. *)
Definition captured (t : string) : tm (list Frame) :=
  l <-- requests ;; tret (filter (λ f, typ f = lit t) l).

(** (a) A blocking connect ends only after the status push. *)
Definition blocking_connect : tm unit :=
  r <-- call (Interpose.socket AF_AX25 SOCK_SEQPACKET) ;; fd <-- fd_of r ;;
  r <-- call (connect None None fd (sax25 "GB7RDG") size_of_sockaddr) ;; returns 0 r ;;;
  l <-- look (λ w, fds w !! fd ≫= State.handle) ;; c <-- look (λ w, conns (cl (rhp w))) ;;
  assert (bool_decide (l ≫= (λ h, c !! h) = Some Connected)) ;;;
  _ <-- call (Interpose.close None fd) ;; tret tt.

(** (b) A non-blocking connect: EINPROGRESS, writable once connected, SO_ERROR 0. *)
Definition nonblocking_connect_test : tm unit :=
  r <-- call (Interpose.socket AF_AX25 SOCK_SEQPACKET) ;; nfd <-- fd_of r ;;
  _ <-- call (λ w, (tt, upd_glob (upd_kern (Pairs.set_nonblock nfd)) w)) ;;
  r <-- call (connect None None nfd (sax25 "GB7RDG") size_of_sockaddr) ;; returns (-1) r ;;;
  e <-- look errno ;; assert (e =? EINPROGRESS) ;;;
  b <-- poll_writable nfd ;; assert (negb b) ;;;
  e <-- so_error nfd ;; assert (e =? 0) ;;;
  _ <-- call (λ w, (tt, upd_rhp elapse w)) ;;
  b <-- poll_writable nfd ;; assert b ;;;
  e <-- so_error nfd ;; assert (e =? 0) ;;;
  _ <-- call (Interpose.close None nfd) ;; tret tt.

(** (c) Accepting: the child and the addresses. *)
Definition zeroed (n : nat) : option (list Z) * option nat := (Some (replicate n 0), Some n).
Definition full_size : nat := Z.to_nat size_of_full_sockaddr.
Definition call_at (o : nat) (buf : option (list Z)) : str := IAddr.decode (as_i8 (IAddr.field o 7 (default [] buf))).
Definition accept_test : tm (Z * Z) :=
  r <-- call (Interpose.socket AF_AX25 SOCK_SEQPACKET) ;; lfd <-- fd_of r ;;
  r <-- call (Interpose.bind None lfd (sax25 "GB7RDG-1") size_of_sockaddr) ;; returns 0 r ;;;
  r <-- call (Interpose.listen None lfd) ;; returns 0 r ;;;
  x <-- call (accept None [0; 0; 0] lfd (zeroed full_size)) ;;
  child <-- fd_of (fst x) ;; assert (bool_decide (call_at 2 (fst (snd x)) = lit "M0ABC-2")) ;;;
  y <-- look (getsockname child (zeroed full_size)) ;; returns 0 (fst y) ;;;
  assert (bool_decide (call_at 16 (fst (snd y)) = lit "GB7RDG-1")) ;;; tret (lfd, child).

(** (c2) A write to the child at once, (c3) one past the interposed calls. *)
Definition sent_data (s : str) : tm unit :=
  l <-- captured "send" ;; assert (existsb (λ f, bool_decide (data_str f = Some s)) l).
Definition early_send (child : Z) : tm unit :=
  let banner := lit "Welcome to GB7RDG BBS" in
  r <-- call (Interpose.write None None child banner) ;; returns (Z.of_nat (List.length banner)) r ;;;
  sent_data banner.
Definition readable (w : proc) (x : Z) : Z := match unread (kern_of w) x with [] => 0 | _ => POLLIN end.
Definition stdio_banner_test (child : Z) : tm unit :=
  let banner := lit "STDIO-BANNER via dprintf" ++ [10] in
  r <-- call (λ w, let '(r, k) := ksend child banner (kern_of w) in (r, upd_glob (upd_kern (λ _, k)) w)) ;;
  assert (match r with Ok n => Nat.eqb n (List.length banner) | Err _ => false end) ;;;
  _ <-- call (λ w, (tt, outbound_turn None (Some (readable w)) w)) ;;
  sent_data banner.

(** (d) Datagrams: the PID is put first and taken off, (e), (f) or left alone. *)
Definition dgram_socket : tm Z :=
  r <-- call (Interpose.socket AF_AX25 SOCK_DGRAM) ;; dfd <-- fd_of r ;;
  r <-- call (Interpose.bind None dfd (sax25 "GB7RDG-2") size_of_sockaddr) ;; returns 0 r ;;; tret dfd.
Definition dgram_exchange (dfd : Z) (out expected : list Z) : tm unit :=
  r <-- call (Interpose.sendto None None dfd out 0 (sax25 "BEACON") size_of_sockaddr) ;;
  returns (Z.of_nat (List.length out)) r ;;;
  x <-- call (recvfrom None [0; 0; 0] 0 dfd 128 0 (zeroed size_of_sockaddr)) ;;
  let '(r, (got, src)) := x in
  returns (Z.of_nat (List.length expected)) r ;;;
  assert (bool_decide (got = expected)) ;;; assert (bool_decide (call_at 2 (fst src) = lit "G0ABC-1")).
Definition captured_sendto (i : nat) (data : list Z) (l : list Frame) : tm unit :=
  assert (match l !! i with Some f => bool_decide ((from_wire_string <$> data_str f) = Some data) | None => false end).
Definition dgram_test : tm unit :=
  dfd <-- dgram_socket ;;
  dgram_exchange dfd (lit "de GB7RDG-2 beacon") (lit "beacon-rx") ;;;
  _ <-- call (setsockopt dfd SOL_AX25 AX25_PIDINCL (Some [1; 0; 0; 0]) 4) ;;
  dgram_exchange dfd (0xCC :: lit "ip") (0xF0 :: lit "beacon-rx") ;;;
  l <-- captured "sendto" ;; assert (Nat.eqb (List.length l) 2) ;;;
  assert (match l with f :: _ => bool_decide (Messages.remote f = Some (lit "BEACON")) &&
                                 bool_decide (Messages.local f = Some (lit "GB7RDG-2")) | [] => false end) ;;;
  captured_sendto 0 (0xF0 :: lit "de GB7RDG-2 beacon") l ;;; captured_sendto 1 (0xCC :: lit "ip") l ;;;
  _ <-- call (Interpose.close None dfd) ;; tret tt.

Definition end_to_end : tm unit :=
  blocking_connect ;;; nonblocking_connect_test ;;;
  x <-- accept_test ;;
  early_send (snd x) ;;; stdio_banner_test (snd x) ;;;
  _ <-- call (Interpose.close None (snd x)) ;; _ <-- call (Interpose.close None (fst x)) ;;
  dgram_test.

(** The process as it starts, with an engine that can be reached. *)
Definition run_test (t : tm unit) (evs : list event) : bool * list Frame :=
  let '(r, w) := t (initial Pairs.empty evs [Ok (mkWriter [] None)]) in
  (match r with Some _ => true | None => false end, Mock.requests_of (writer (cl (rhp w)))).
Definition interposer_connect_and_accept_end_to_end : bool :=
  Mock.served 20 (mock 100) (run_test end_to_end) [].

(** What the standard library's TcpListener and TcpStream call goes to libc, which
    gives their sockets numbers the kernel has free. *)
Definition delegated (r : ret) : tm unit := assert (bool_decide (r = Libc)).
Definition localhost (port : Z) : option (list Z) :=
  Some ([2; 0; port / 256; port mod 256; 127; 0; 0; 1] ++ replicate 8 0).
Definition tcp_socket (free : Z) : tm Z :=
  r <-- call (Interpose.socket 2 (Z.lor 1 SOCK_CLOEXEC)) ;; delegated r ;;; tret free.
Definition passes_through (l s : Z) : tm unit :=
  lfd <-- tcp_socket l ;;
  r <-- call (setsockopt lfd SOL_SOCKET 2 (Some [1; 0; 0; 0]) 4) ;; delegated r ;;;
  r <-- call (Interpose.bind None lfd (localhost 0) 16) ;; delegated r ;;;
  r <-- call (Interpose.listen None lfd) ;; delegated r ;;;
  x <-- look (getsockname lfd (zeroed 128)) ;; delegated (fst x) ;;;
  sfd <-- tcp_socket s ;;
  r <-- call (connect None None sfd (localhost 9000) 16) ;; delegated r ;;;
  b <-- look (λ w, is_ax25_fd w sfd) ;; assert (negb b) ;;;
  r <-- call (Interpose.close None sfd) ;; delegated r ;;;
  r <-- call (Interpose.close None lfd) ;; delegated r.
Definition non_ax25_socket_passes_through : bool :=
  match ksocketpair Pairs.empty with
  | (Some (l, s), _) => fst (run_test (passes_through l s) [])
  | (None, _) => false
  end.

(** * All of them *)
Definition run_tests : list bool :=
  AddrTests.all ++ ConfigTests.all ++ IAddrTests.all ++ CodecTests.all ++ ErrorsTests.all ++ FramingTests.all ++
  MessagesTests.all ++ ClientTests.all ++
  [StateTests.early_recv_before_register_is_delivered_not_dropped;
   interposer_connect_and_accept_end_to_end; non_ax25_socket_passes_through].

(** Every unit test of the repository, the end-to-end test of the interposed calls
    against the mock engine included, passes on the definitions: the bulk test of
    [state.rs] by the theorem on reading to the end, the others by running them. *)
Lemma repository_tests_pass :
  Forall (λ b, b = true) (StateTests.recv_pump_never_drops_data_and_eof_follows_backlog :: run_tests).
Proof.
  constructor; [apply StateTests.bulk_follows_all|].
  assert (H : forallb (λ b, b) run_tests = true) by (vm_compute; reflexivity).
  rewrite forallb_forall in H. apply List.Forall_forall. exact H.
Qed.
