(* ===== verification/Reconnect.v ===== *)
(** [ax25-interpose/src/state.rs], a transport that is lost and made again:
    [ensure_client] dials afresh while the descriptors, the pumps and the reader of
    the old transport are still there.

    The sink's [on_disconnect] is here step by step, the rest of the process running
    between: a connect made on the new transport before the old one's reader has got
    to the pumps is ended with the old one.  A socket keeps the number its link had
    on the old transport and goes on using it on the new one, whose links the engine
    numbers again. *)
From stdpp Require Import prelude gmap.
From Stdlib Require Import ZArith Lia String.
From S2P Require Import Prelude Str Errors IAddr Framing Messages Client ClientSpec ClientKeeps Sockets.
From S2P Require Import RecvPump DgramPump State Interpose InterposeSpec OutSpec Process DescSpec.
Local Open Scope Z_scope.

Section reconnect.
Context `{!SerdeJson} {K : Type} `{!Kernel K}.
Variable front_len : list Z → nat.
Variable creds : option (str * str).
Variable src_call : option str.
Variable pad : list Z.
Implicit Types w : world (K := K).

(** * The old reader's last steps

    To take the handles of the armed gates; to release one; the receive pump; the
    datagram pump; gone. *)
Inductive spc := SGates | SResolve (todo : list Z) | SRecv | SDgram | SGone.

Definition sink_step (p : spc) (g : glob (K := K)) : spc * glob :=
  match p with
  | SGates => (SResolve (reverse (fst <$> map_to_list (g_gates g))), g)
  | SResolve [] => (SRecv, g)
  | SResolve (h :: todo) => (SResolve todo, resolve_connect_gate h g)
  | SRecv => (SDgram, upd_recv shutdown_all g)
  | SDgram =>
    let '(st, k) := dgram_shutdown_all (g_dgram g) (g_kern g) in
    (SGone, upd_kern (λ _, k) (upd_dgram (λ _, st) g))
  | SGone => (SGone, g)
  end.
Fixpoint sink_steps (n : nat) (p : spc) (g : glob (K := K)) : spc * glob :=
  match n with O => (p, g) | S n => let '(p, g) := sink_step p g in sink_steps n p g end.

(** The reader takes a step, or the rest of the process does. *)
Inductive eact := ESink | EStep (l : label (K := K)).
Definition estep (a : eact) (s : spc * world (K := K)) : spc * world (K := K) :=
  match a with
  | ESink => let '(p, g) := sink_step (fst s) (sk (rhp (snd s))) in (p, upd_glob (λ _, g) (snd s))
  | EStep l => (fst s, do_step front_len creds src_call pad l (snd s))
  end.
Definition erun (acts : list eact) (s : spc * world (K := K)) : spc * world (K := K) := foldl (λ s a, estep a s) s acts.

Lemma sink_steps_add m n p g : sink_steps (m + n) p g = let '(p, g) := sink_steps m p g in sink_steps n p g.
Proof. revert p g. induction m as [|m IH]; intros p g; [done|]. simpl. by destruct (sink_step p g). Qed.

Lemma resolve_steps todo g : sink_steps (S (List.length todo)) (SResolve todo) g =
  (SRecv, foldl (λ g h, resolve_connect_gate h g) g todo).
Proof.
  revert g. induction todo as [|h todo IH]; intros g; [done|].
  change (sink_steps (S (List.length todo)) (SResolve todo) (resolve_connect_gate h g) =
    (SRecv, foldl (λ g h, resolve_connect_gate h g) (resolve_connect_gate h g) todo)). apply IH.
Qed.

Lemma foldl_reversed {A B} (f : A → B → B) l b : foldl (λ b a, f a b) b (reverse l) = foldr f b l.
Proof.
  induction l as [|a l IH]; [done|]. rewrite reverse_cons, foldl_app, IH. done.
Qed.

(** By itself the reader does what the sink of [State.v] does. *)
Lemma sink_sequential g : sink_steps (S (S (List.length (map_to_list (g_gates g)))) + 2) SGates g =
  (SGone, on_disconnect g).
Proof.
  rewrite sink_steps_add.
  assert (sink_steps (S (S (List.length (map_to_list (g_gates g))))) SGates g =
    (SRecv, foldr resolve_connect_gate g (fst <$> map_to_list (g_gates g)))) as ->.
  { pose proof (resolve_steps (reverse (fst <$> map_to_list (g_gates g))) g) as Hr.
    rewrite length_reverse, length_fmap in Hr. rewrite (foldl_reversed resolve_connect_gate) in Hr. exact Hr. }
  cbn [sink_steps sink_step]. unfold on_disconnect. cbn [InterposeSink].
  set (g1 := upd_recv shutdown_all _). by destruct (dgram_shutdown_all (g_dgram g1) (g_kern g1)).
Qed.

Lemma erun_app a1 a2 s : erun (a1 ++ a2) s = erun a2 (erun a1 s).
Proof. apply foldl_app. Qed.

(** What the reader does to the pump leaves the client alone. *)
Lemma esinks n s : erun (replicate n ESink) s =
  let '(p, g) := sink_steps n (fst s) (sk (rhp (snd s))) in (p, upd_glob (λ _, g) (snd s)).
Proof.
  revert s. induction n as [|n IH]; intros [p w].
  - simpl. by destruct w as [? [? ? ?] ? ? ?].
  - cbn [replicate erun foldl]. fold (erun (replicate n ESink) (estep ESink (p, w))). rewrite IH. cbn [estep fst snd sink_steps].
    destruct (sink_step p (sk (rhp w))) as [p1 g1]. cbn [fst snd]. 
    change (sk (rhp (upd_glob (λ _, g1) w))) with g1. by destruct (sink_steps n p1 g1).
Qed.

(** * A connect in between *)
Lemma conn_now_ok h (k : client → option (result unit Z * client)) r (st : sys (S := glob (K := K))) o st' :
  (k = conn_ready h ∨ k = conn_expired h) →
  (o = (Woken (Ok tt), st') → conns (cl st') !! h = Some Connected) →
  check_now k r st o = (Woken (Ok tt), st') → conns (cl st') !! h = Some Connected.
Proof.
  intros Hk Ho. unfold check_now. destruct (k (cl st)) as [[a c]|] eqn:He; [|exact Ho]. intros [= -> <-]. simpl.
  assert (ConnRegistry.result h (conns c) = Some (Ok tt)) as Hr.
  { destruct Hk as [->| ->]; unfold conn_ready, conn_expired in He;
      destruct (ConnRegistry.result h (conns (cl st))) eqn:Hr; try done; [|by destruct (closed (cl st))|];
      by injection He as -> <-. }
  unfold ConnRegistry.result in Hr. by destruct (conns c !! h) as [[]|].
Qed.

(** A connect that returns with success has seen its link up. *)
Lemma wait_connected_up h timed (st : sys (S := glob (K := K))) st' :
  wait_connected h timed st = (Some (Ok tt), st') → conns (cl st') !! h = Some Connected.
Proof.
  assert (∀ evs st, wait_go (conn_ready h) (conn_expired h) timed evs st = (Woken (Ok tt), st') →
    conns (cl st') !! h = Some Connected) as Hgo.
  { induction evs as [|ev evs IH]; intros st0; simpl.
    - destruct timed; apply conn_now_ok; auto; done.
    - destruct ev; [apply IH..| |].
      + apply conn_now_ok; [by left|apply IH].
      + destruct timed; [|apply IH]. apply conn_now_ok; auto; done. }
  unfold wait_connected. destruct (wait (conn_ready h) (conn_expired h) timed st) as [[a| |] st1] eqn:Hw; try done.
  intros [= -> ->]. unfold wait in Hw. revert Hw. apply conn_now_ok; [by left|apply Hgo].
Qed.

Definition before_recv (p : spc) : Prop := p = SGates ∨ (∃ todo, p = SResolve todo) ∨ p = SRecv.

Lemma resolve_keeps_recv h (g : glob (K := K)) : g_recv (resolve_connect_gate h g) = g_recv g.
Proof. unfold resolve_connect_gate. by destruct (g_gates g !! h). Qed.

(** The old reader comes to the pump, whose entries are then as it finds them. *)
Lemma to_recv p (g : glob (K := K)) : before_recv p →
  ∃ m g', sink_steps m p g = (SDgram, g') ∧ g_recv g' = shutdown_all (g_recv g).
Proof.
  assert (∀ todo (g : glob (K := K)), g_recv (foldl (λ g h, resolve_connect_gate h g) g todo) = g_recv g) as Hk.
  { induction todo as [|h todo IH]; intros g0; [done|]. simpl. by rewrite IH, resolve_keeps_recv. }
  assert (∀ todo g0, ∃ m g', sink_steps m (SResolve todo) g0 = (SDgram, g') ∧ g_recv g' = shutdown_all (g_recv g0)) as Hres.
  { intros todo g0. eexists (S (List.length todo) + 1)%nat, _. rewrite sink_steps_add, resolve_steps. simpl. split; [done|].
    simpl. by rewrite Hk. }
  intros [->|[[todo ->]| ->]]; [|apply Hres|by exists 1%nat; eexists].
  destruct (Hres (reverse (fst <$> map_to_list (g_gates g))) g) as (m & g' & Hm & Hg). by exists (S m), g'.
Qed.

(** A connect that returns with success. *)
Lemma connect_zero fd a n w w1 : connect creds src_call fd a n w = (Val 0, w1) → is_dgram_fd w fd = false →
  ∃ s h, fds w1 !! fd = Some s ∧ handle s = Some h ∧ conns (cl (rhp w1)) !! h = Some Connected.
Proof.
  intros Hc Hd. unfold connect in Hc. destruct (is_ax25_fd w fd) eqn:Hf; [|done]. cbn [negb] in Hc.
  destruct (read_call a n) as [rem|]; [|done]. rewrite Hd in Hc.
  pose proof (ensure_client_fds creds w) as He. destruct (ensure_client creds w) as [[] w2]; [|done].
  destruct (on_client _ w2) as [[res|e] w3] eqn:Ho; [|done].
  unfold connect_opened in Hc. destruct (fds w3 !! fd) as [s|] eqn:Hs; [|done]. cbv zeta in Hc.
  destruct (is_nonblocking fd _); [done|].
  set (w4 := upd_glob _ _) in Hc. destruct (wait_connected (or_handle res) true (rhp w4)) as [r st] eqn:Hw.
  destruct r as [[[]|e]|]; try done. injection Hc as <-. exists (set_digis (read_digipeaters a n) (set_remote (Some rem) (set_handle (Some (or_handle res)) s))), (or_handle res).
  simpl. rewrite lookup_alter_eq, Hs. split_and!; [done|done|]. by eapply wait_connected_up.
Qed.

(** C30: A transport's end reaches the next transport's links: while the reader of a
    lost transport has not got to the receive pump, a thread's connect dials anew
    and succeeds, its link up; the reader then marks its handle ended with the old
    ones, although the new client is untouched and its link still up, and once the
    backlog is written the flusher shuts the descriptor down. *)
Theorem stale_end fd a n w w1 p : before_recv p → is_dgram_fd w fd = false →
  do_call creds src_call pad (CConnect fd a n) w = (Val 0, w1) →
  ∃ s h m w2, fds w2 !! fd = Some s ∧ handle s = Some h ∧ conns (cl (rhp w2)) !! h = Some Connected ∧
    erun (EStep (LCall (CConnect fd a n)) :: replicate m ESink) (p, w) = (SDgram, w2) ∧
    fds w2 = fds w1 ∧ cl (rhp w2) = cl (rhp w1) ∧
    ∀ e, handles (g_recv (sk (rhp w1))) !! h = Some e →
      handles (g_recv (sk (rhp w2))) !! h = Some (set_eof e) ∧
      (buf e = [] → eof_done e = false → ∀ k,
         drain_entry front_len (set_eof e) k = (Some (mkPendingRecv (RecvPump.inner_fd e) [] true true), false, kshutdown (RecvPump.inner_fd e) k)).
Proof.
  intros Hp Hd Hc. destruct (connect_zero fd a n w w1 Hc Hd) as (s & h & Hs & Hh & Hup).
  destruct (to_recv p (sk (rhp w1)) Hp) as (m & g' & Hm & Hg).
  exists s, h, m, (upd_glob (λ _, g') w1). split_and!; [done..| |done|done|].
  - change (EStep (LCall (CConnect fd a n)) :: replicate m ESink) with ([EStep (LCall (CConnect fd a n))] ++ replicate m ESink).
    rewrite erun_app, esinks. cbn [erun foldl estep fst snd do_step]. rewrite Hc. cbn [snd]. cbn [fst snd]. by rewrite Hm.
  - intros e He. cbn [upd_glob upd_rhp upd_sk rhp sk]. rewrite Hg. simpl. rewrite lookup_fmap, He. split; [done|].
    intros Hb Hn k. unfold drain_entry. cbn [set_eof buf RecvPump.inner_fd eof eof_done]. by rewrite Hb, Hn.
Qed.

(** * Numbers of the old transport on the new one *)

(** The handles the outbound pump polls for are not replaced. *)
Definition out_grows (g g' : glob (K := K)) : Prop := ∀ h x, g_out g !! h = Some x → g_out g' !! h = Some x.
#[local] Instance out_grows_preorder : PreOrder out_grows.
Proof. split; [by intros g h x|]. intros g1 g2 g3 H1 H2 h x Hx. by apply H2, H1. Qed.

Lemma out_same (g g' : glob (K := K)) : g_out g' = g_out g → out_grows g g'.
Proof. intros He h x. by rewrite He. Qed.

Lemma out_register_grows h inner (g : glob (K := K)) : out_grows g (out_register h inner g).
Proof.
  intros h' x Hx. unfold out_register. simpl. destruct (g_out g !! h) eqn:Hh; [done|].
  rewrite lookup_insert_ne; [done|]. congruence.
Qed.
Lemma resolve_grows h (g : glob (K := K)) : out_grows g (resolve_connect_gate h g).
Proof.
  unfold resolve_connect_gate. destruct (g_gates g !! h) as [inner|]; [|reflexivity].
  etrans; [|apply out_register_grows]. by apply out_same.
Qed.
#[local] Instance out_grows_sink : SinkRel out_grows.
Proof.
  split; [apply _| | | | | |].
  - intros h d g. simpl. destruct (push h d (g_recv g) (g_kern g)). by apply out_same.
  - intros h src b d g. simpl. destruct (dgram_push _ _ _ _). by apply out_same.
  - intros. simpl. reflexivity.
  - intros h f g. simpl. case_match; [apply resolve_grows|reflexivity].
  - intros h g. simpl. etrans; [apply resolve_grows|]. by apply out_same.
  - intros g. simpl. set (l := fst <$> map_to_list (g_gates g)).
    assert (out_grows g (foldr resolve_connect_gate g l)) as Hl.
    { induction l as [|h l IH]; simpl; [reflexivity|]. etrans; [exact IH|]. apply resolve_grows. }
    etrans; [exact Hl|]. destruct (dgram_shutdown_all _ _). by apply out_same.
Qed.

(** With nothing to forward the pump leaves the client as it was. *)
Lemma flush_nothing `{!KernelLaws K} h (st : sys (S := glob (K := K))) :
  (∀ inner, g_out (sk st) !! h = Some inner → pending_out inner st = []) → cl (out_flush h st) = cl st.
Proof.
  intros He. unfold out_flush, drain_handle. destruct (g_out (sk st) !! h) as [inner|] eqn:Ho; [|done].
  unfold drain_locked. cbn [out_drain]. pose proof (He inner eq_refl) as Hu. unfold pending_out in Hu.
  destruct (krecv inner 4096 (g_kern (sk st))) as [[[|x b]|e] k] eqn:Hr; try done.
  destruct (krecv_ok _ _ _ _ _ (Nat.lt_0_succ _) Hr) as (_ & Hb & _). by rewrite Hu in Hb.
Qed.


(** C32: Two sockets with one number, the engine having used it again on the new
    transport for a blocking connect: the outbound pump goes on polling the descriptor it has for the
    number, the old socket's, for which what is written past the calls on the new
    one waits in vain; and closing the old socket takes the number from under the
    new one, which keeps its entry and its link but hears nothing any more: the
    engine's data for it is staged for a socket to come. *)
Theorem reused_handle fd s h rem dg old w : fds w !! fd = Some s →
  g_out (sk (rhp w)) !! h = Some old → is_nonblocking fd w = false →
  let '(r, w1) := connect_opened fd h rem dg w in
  g_out (sk (rhp w1)) !! h = Some old ∧
  ∀ fd0 s0, fd0 ≠ fd → fds w1 !! fd0 = Some s0 → handle s0 = Some h →
    let w2 := snd (close creds fd0 w1) in
    (∃ s2, fds w2 !! fd = Some s2 ∧ handle s2 = Some h) ∧
    ∀ d, d ≠ [] →
      RecvPump.push h d (g_recv (sk (rhp w2))) (g_kern (sk (rhp w2))) = (stage h d (g_recv (sk (rhp w2))), g_kern (sk (rhp w2))).
Proof.
  intros Hs Ho Hnb. unfold connect_opened. rewrite Hs.
  set (w0 := upd_glob _ _). change (is_nonblocking fd w0) with (is_nonblocking fd w). rewrite Hnb.
  assert (fds w0 !! fd = Some (set_digis dg (set_remote (Some rem) (set_handle (Some h) s)))) as Hs0
    by (simpl; by rewrite lookup_alter_eq, Hs).
  pose proof (wait_connected_moves (on_sink out_grows) h true (rhp w0)) as Hw. unfold on_sink in Hw.
  destruct (wait_connected h true (rhp w0)) as [r st]. simpl in Hw.
  assert (g_out (sk st) !! h = Some old) as Hst by (apply Hw; exact Ho).
  assert (∀ w1 : world (K := K), fds w1 = fds w0 → ∀ fd0 s0, fd0 ≠ fd → fds w1 !! fd0 = Some s0 → handle s0 = Some h →
    let w2 := snd (close creds fd0 w1) in (∃ s2, fds w2 !! fd = Some s2 ∧ handle s2 = Some h) ∧ ∀ d, d ≠ [] →
    RecvPump.push h d (g_recv (sk (rhp w2))) (g_kern (sk (rhp w2))) = (stage h d (g_recv (sk (rhp w2))), g_kern (sk (rhp w2)))) as Hclose.
  { intros w1 Hf fd0 s1 Hne H1 Hh1. pose proof (close_released creds fd0 s1 w1 H1) as Hcf. destruct (close creds fd0 w1) as [r2 w2].
    destruct Hcf as (_ & Hf2 & Hr). destruct (Hr h Hh1) as [Hr' _]. simpl. split.
    - eexists. rewrite Hf2, Hf, lookup_delete_ne by done. split; [exact Hs0|done].
    - intros d Hd. unfold RecvPump.push. destruct d; [done|]. by rewrite Hr'. }
  destruct r as [[[]|e]|].
  - split; [|by apply Hclose]. unfold out_register. simpl. by rewrite Hst.
  - split; [exact Hst|by apply Hclose].
  - split; [exact Hst|by apply Hclose].
Qed.

End reconnect.

(** * The theorems at concrete inputs *)
Import Example.
#[local] Existing Instances Pairs.kernel_pairs Pairs.laws_pairs Pairs.fds_pairs Pairs.fds_laws_pairs.

Definition kern2 : Pairs.kernel := snd (Pairs.socketpair Pairs.empty).
(** The transport is lost, and the engine can be reached again. *)
Definition lost (s : FdState) (g : glob (K := Pairs.kernel)) (evs : list event) : world (K := Pairs.kernel) :=
  mkWorld {[3 := s]} (mkSys (set_closed true (new_client (mkWriter [] None))) g evs) true [Ok (mkWriter [] None)] 0.

Lemma stale_end_witness :
  let w := lost (new_fd 3 4 false) (mkGlob pump_new ∅ ∅ ∅ kern2) open_script in
  ∃ m w2, erun whole None None [0; 0; 0] (EStep (LCall (CConnect 3 (Some (call_addr (lit "GB7RDG"))) 16)) :: replicate m ESink) (SGates, w) =
      (SDgram, w2) ∧ conns (cl (rhp w2)) !! 7 = Some Connected ∧
    handles (g_recv (sk (rhp w2))) !! 7 = Some (mkPendingRecv 4 [] true false).
Proof.
  intros w. set (c := CConnect 3 (Some (call_addr (lit "GB7RDG"))) 16).
  assert (fst (do_call None None [0; 0; 0] c w) = Val 0) as Hv by (vm_compute; reflexivity).
  destruct (do_call None None [0; 0; 0] c w) as [r w1] eqn:Hc. simpl in Hv. subst r.
  assert (w1 = snd (do_call None None [0; 0; 0] c w)) as Hw1 by (by rewrite Hc).
  destruct (stale_end whole None None [0; 0; 0] 3 (Some (call_addr (lit "GB7RDG"))) 16 w w1 SGates (or_introl eq_refl) eq_refl Hc)
    as (s & h & m & w2 & Hs & Hh & Hup & Hrun & Hf & _ & He).
  assert (h = 7) as ->.
  { rewrite Hf, Hw1 in Hs. assert (fds (snd (do_call None None [0; 0; 0] c w)) !! 3 ≫= handle = Some 7) as H7 by (vm_compute; reflexivity).
    rewrite Hs in H7. simpl in H7. congruence. }
  exists m, w2. split; [exact Hrun|]. split; [exact Hup|].
  apply (He (mkPendingRecv 4 [] false false)). rewrite Hw1. vm_compute. reflexivity.
Defined.

(** A socket whose link had number 7, and an engine that has no such link. *)
Definition unknown_handle : list Z :=
  Tagged.enc [(lit "type", JStr (lit "reply")); (lit "id", JNum 1); (lit "errCode", JNum 3)].
Definition old_link : world (K := Pairs.kernel) :=
  lost (set_handle (Some 7) (new_fd 3 4 false))
    (mkGlob (mkPumpState {[7 := mkPendingRecv 4 [] true true]} ∅) ∅ {[7 := 4]} ∅ kern2)
    [NetFrame unknown_handle; Wake].


(** The old socket is 5; 3 is being connected, the engine having given it 7. *)
Definition two_links : world (K := Pairs.kernel) :=
  mkWorld {[3 := new_fd 3 4 false; 5 := set_handle (Some 7) (new_fd 5 6 false)]}
    (mkSys (new_client (mkWriter [] None)) (mkGlob pump_new ∅ {[7 := 6]} ∅ (snd (Pairs.socketpair kern2)))
       [NetFrame (push (lit "status") 7); Wake]) true [] 0.

Lemma reused_handle_witness :
  let '(r, w1) := connect_opened 3 7 (lit "GB7RDG") [] two_links in
  g_out (sk (rhp w1)) !! 7 = Some 6 ∧
  RecvPump.push 7 [1] (g_recv (sk (rhp (snd (close None 5 w1))))) (g_kern (sk (rhp (snd (close None 5 w1))))) =
    (stage 7 [1] (g_recv (sk (rhp (snd (close None 5 w1))))), g_kern (sk (rhp (snd (close None 5 w1))))).
Proof.
  pose proof (reused_handle None 3 (new_fd 3 4 false) 7 (lit "GB7RDG") [] 6 two_links) as H.
  assert (fds (snd (connect_opened 3 7 (lit "GB7RDG") [] two_links)) !! 5 = Some (set_handle (Some 7) (new_fd 5 6 false))) as H5
    by (vm_compute; reflexivity).
  destruct (connect_opened 3 7 (lit "GB7RDG") [] two_links) as [r w1].
  destruct H as [H1 H2]; [vm_compute; reflexivity|vm_compute; reflexivity|vm_compute; reflexivity|].
  split; [exact H1|]. by apply (H2 5 (set_handle (Some 7) (new_fd 5 6 false))).
Defined.
